(* ===== verification/_CoqProject ===== *)
-Q . S2P
Prelude.v
Sys.v
InetConn.v
InetSocket.v
UnixSocket.v
Epoll.v
UnixClient.v
UnixConn.v
Handover.v
Server.v
ServerInv.v
ServerProps.v
ServerTheorems.v
Session.v
EdgeTrigger.v
ClientFlow.v
Serving.v
Upgrade.v
Client.v
Rio.v
Echo.v
EchoServer.v
LineSession.v
Pool.v
PoolRounds.v
Sbuf.v
SbufLive.v
Shell.v
Process.v
Family.v
Reaping.v
Jobs.v
Waiting.v
WaitingLive.v
ForkServer.v
Rfork.v
Signals.v
Link.v
SmallIO.v
