(* ===== verification/Prelude.v ===== *)
(** * Verification of the network programs of this repository

    The C++ code of the repository has two parts, both modelled here.

    - [src/hot_upgrade_demo]: an echo server that is replaced while it runs.  The
      old process gives its listening socket and, one by one, its idle TCP
      sessions to the new process over a Unix socket, as [SCM_RIGHTS] messages.
    - [src/csapp]: programs written along a systems textbook: the Rio package, the
      bounded buffer, the echo servers and client built on Rio, the shell, the
      programs around processes, signals and long jumps, the linking examples and
      some small programs around I/O.

    ** How the code is modelled

    The programs are event handlers around system calls, and the kernel is not
    part of the repository.  [Sys.v] makes it a parameter: a run reads the answers
    of the kernel from a script and logs calls with their answers in a trace, so a
    theorem that quantifies over worlds quantifies over all kernels.  [answers] is
    the documented contract of one call (a [read] returns no more than was asked
    for, and so on); a script entry that breaks it, or the end of the script, makes
    the run [Blocked].  Programs live in the monad [M]; an outcome is a result, an
    [exit], a fault (undefined behaviour or an uncaught exception of the C++ code),
    [Blocked], or [NoFuel].  Every round of a [while] loop makes a call, so the
    length of the script is enough fuel for [loop]; [loop_rule] gives total
    correctness, and the specifications exclude [NoFuel].  Where a loop can run
    without a call (the loops of Rio over its buffer), the fuel is the number of
    bytes asked for and the specification shows that it is enough.

    The programs around signals need more than a script, since handlers and
    children interleave with them.  [Process.v] is a transition system for them:
    processes with handlers, masks, pending bits, interrupted calls and zombies.
    A program is a tree of calls with labels for its loops; one step is an
    executable function of the state and of a choice, so that concrete runs
    evaluate.  A deliverable signal is delivered before the next instruction of
    its process.  [Family.v] reduces an invariant over all interleavings of a
    parent with its children to obligations on single instructions of the parent.
    Liveness is [inevitably]: every schedule, whatever it chooses, reaches the goal
    after finitely many steps, and none stops before.

    Integers are [Z] with the conversions of the code written out ([u64], [u32],
    [i32] and so on); bytes are [Z]s from 0 to 255; memory layout is that of
    x86-64.

    ** Files

    - [Prelude.v]: machine integers, byte order, buffers, shared tactics.
    - [Sys.v]: the kernel interface, the monad, weakest preconditions, and the
      classes [Honest] (a run consumes exactly the answers it logs) and [Emits]
      (which kinds of calls a program makes), by which facts about a component are
      used by its clients.
    - [InetConn.v]: [inet_conn.h] and [inet_conn.cc], the connection object:
      [GetRequest] parses a length-prefixed request into the buffer, [SendReply]
      writes the reply.
    - [InetSocket.v]: [inet_socket.cc].
    - [UnixSocket.v]: [unix_socket.h] and [unix_socket.cc], with [send_fd] and
      [recv_fd].
    - [Epoll.v]: [epoll.h] and [epoll.cc], the loop object with the table of
      connections.
    - [UnixClient.v], [UnixConn.v]: [unix_client.cc] and [unix_conn.cc], the two
      ends of the hand-over; [Handover.v] puts them together.
    - [Server.v]: [server.cc], all of [main] included; one definition per branch of
      the event loop.  [ServerInv.v], [ServerProps.v] and [ServerTheorems.v]: its
      invariant, reachable states and theorems.  [Session.v]: the bytes exchanged
      with one client, as a refinement of a reference echo session, across an
      upgrade too; [EdgeTrigger.v]: the kernel's side of a descriptor, and that no
      wake-up is lost; [ClientFlow.v]: one client among the others, and the answers
      its socket gives; [Serving.v]: every schedule answers its requests;
      [Upgrade.v]: old and new process around one client.
    - [Client.v]: [client.cc], and client against server.
    - [Rio.v]: [csapp/system_io/rio.cc] and [rio_t] of [csapp.h].
    - [Echo.v]: [csapp/network_program/server.cc] and [client.cc],
      [csapp/concurrent_program/echo_serverp.cc] and [select.cc].  [EchoServer.v]:
      whole runs of the iterative server; [LineSession.v]: the line client against
      the echo server.
    - [Pool.v]: [csapp/concurrent_program/echoservers.cc]; [PoolRounds.v]: its rounds
      against rounds over the whole table.
    - [Sbuf.v]: [csapp/concurrent_program/sbuf.c], as interleaved steps of threads;
      [SbufLive.v]: every schedule of them ends and empties the buffer.
    - [Shell.v]: [csapp/exceptional_control_flow/shellex.c].
    - [Process.v], [Family.v]: processes and signals; a parent and its children.
    - [Reaping.v]: [signal1.c] to [signal4.c] of [csapp/exceptional_control_flow].
    - [Jobs.v]: [procmask1.c] and [procmask2.c].
    - [Waiting.v]: [waitpid1.cc] and [waitpid2.c]; [WaitingLive.v]: every schedule of
      the former ends (of the latter, in [Waiting.v]).
    - [ForkServer.v]: the processes of [csapp/concurrent_program/echo_serverp.cc],
      with its handler.
    - [Rfork.v]: [rfork.c].
    - [Signals.v]: [alarm.c], [sigint1.c], [kill.c] and [setjmp.c].
    - [Link.v]: [csapp/link], with the interface [vector.h] as a class.
    - [SmallIO.v]: [cpstdin.c], [statcheck.c] and [dup2.cc] of [csapp/system_io],
      and [csapp/network_program/hostinfo.c].

    ** What is shown

    - The server.  [ServerTheorems.v] defines its reachable states event by event
      and shows, with the documented behaviour of epoll as the only assumption
      ([kernel_ok]: only a watched descriptor is reported, one that is added was
      not watched, and changing what is watched on a descriptor succeeds, while
      adding one may fail), an invariant that ties each connection to its
      registration.  From it: at every moment, what was sent to a client and what
      is still owed to it are the echo of the requests read from it; a session
      that is handed over continues in the new process as one echo session; it is
      only handed over between requests, when it owes nothing; connections do not
      interfere; the upgrade happens once; the process never ends normally.
      Sessions are watched edge-triggered, and after each event of a client that
      waits for input its socket is empty or a report is due; this assumes of [read]
      that it delivers what is there, up to the length asked for.  So every request
      of a client is answered on every schedule, however its bytes arrive, however
      little a [write] takes and whatever other descriptors do, also the request that
      made the old process hand its client over.  That is shown for a client that
      stays connected, for rounds in which the process does not end and begins no
      upgrade, and for schedules in which finitely many rounds do nothing for the
      client ([system_step] of [Serving.v] and [flow] of [ClientFlow.v]).  One
      theorem says what a hand-over leaves when [sendmsg] fails, which is a lost
      client, and one shows a descriptor number that outlives its connection.
    - The hand-over.  Both ends are specified on every branch, and put together
      they move the listening socket and the sessions.
    - The protocol.  Requests are recovered for every fragmentation of the stream,
      replies are sent exactly once, and client and server agree; the length check
      and the empty request are characterised too.
    - Sockets.  What each helper leaves open, and that descriptor passing round
      trips.
    - Rio.  Exact specifications of the four transfer functions; lines do not
      depend on the fragmentation.
    - Echo servers.  [echo] equals a reference function on streams; the iterative
      server serves one client after the other and never ends by itself; against
      a peer that echoes, the line client prints its input.  The pool of clients is
      consistent after every round, and no round skips a ready client; two theorems
      describe what the pool and the [select] server do wrong.
    - The bounded buffer.  Mutual exclusion, refinement of a bounded queue,
      every item stored and taken out exactly once, for any number of threads; when
      each thread only inserts or only removes and the numbers match, every schedule
      ends with the buffer empty, and threads that do both can block.  [sbuf_remove]
      is [void], so that no caller gets an item.
    - The shell.  [parseline] equals a reference split into words.
    - Signals.  The looping handlers reap every child in every interleaving, and an
      interrupted [read] does not end the programs that restart it; the handler
      without a loop loses children.  Blocking SIGCHLD orders the calls of the job
      list, whose entries are wrong all the same.  [waitpid1.cc] reports each child
      once and ends under every schedule; so does [waitpid2.c], with 1024 processes
      instead of the 11 it means to have; the parent of the forking echo server
      never ends and reaps; [alarm.c] beeps five times; the results of an unchecked
      [fork] in [kill.c]; in [rfork.c] exactly one of parent and child sleeps, and
      how long.
    - Linking.  The vector routines are element-wise under every aliasing that does
      not overwrite what is still to be read, and their clients are correct with
      every library that keeps the interface; [swap] exchanges.
    - Small programs.  What each does on success and on failure.

    ** What is not modelled

    Output with [printf] and [perror] where it is only a log; failure of unchecked
    allocations; memory that is only freed.  Signals that arrive between two calls
    are modelled for the programs on [Process.v], not for those on [Sys.v], hence
    also not an interrupted [sem_wait].  Falling off the end of a function whose
    value no caller uses is modelled as a return.  In [Process.v], time is
    abstract: sleeping processes wake up in any order.  The files of exercise notes
    ([memory_hierarchy_practice.cc] and the like) hold comments only, and the rest
    of [csapp.h] is prototypes, constants and includes.  Loops that depend on a
    fair scheduler (a parent that spins in [while (1)] beside its children) have
    safety theorems and no liveness theorems. *)

From stdpp Require Export base list list_numbers gmap strings.
From Stdlib Require Export ZArith Lia.

Open Scope Z_scope.

(** ** Machine integers

    A C integer is a [Z]; [u8], [u32], [u64] reduce modulo the width and [i32]
    is the two's complement reading of the low 32 bits. *)
Definition u8 (z : Z) : Z := z mod 2 ^ 8.
Definition u32 (z : Z) : Z := z mod 2 ^ 32.
Definition u64 (z : Z) : Z := z mod 2 ^ 64.
Definition i32 (z : Z) : Z := (z + 2 ^ 31) mod 2 ^ 32 - 2 ^ 31.

Definition INT_MAX : Z := 2147483647.

Lemma u64_small z : 0 ≤ z < 2 ^ 64 → u64 z = z.
Proof. intros ?. by apply Z.mod_small. Qed.

Lemma u64_negative z : - 2 ^ 64 ≤ z < 0 → u64 z = z + 2 ^ 64.
Proof. intros ?. unfold u64. rewrite <- (Z_mod_plus_full z 1), Z.mul_1_l. apply Z.mod_small. lia. Qed.

Lemma u32_small z : 0 ≤ z < 2 ^ 32 → u32 z = z.
Proof. intros ?. by apply Z.mod_small. Qed.

Lemma u8_small z : 0 ≤ z < 2 ^ 8 → u8 z = z.
Proof. intros ?. by apply Z.mod_small. Qed.

Lemma u64_range z : 0 ≤ u64 z < 2 ^ 64.
Proof. apply Z.mod_pos_bound. lia. Qed.

Lemma u32_range z : 0 ≤ u32 z < 2 ^ 32.
Proof. apply Z.mod_pos_bound. lia. Qed.

Lemma u8_range z : 0 ≤ u8 z < 2 ^ 8.
Proof. apply Z.mod_pos_bound. lia. Qed.

Lemma i32_range z : - 2 ^ 31 ≤ i32 z < 2 ^ 31.
Proof. unfold i32. pose proof (Z.mod_pos_bound (z + 2 ^ 31) (2 ^ 32)). lia. Qed.

Lemma i32_small z : - 2 ^ 31 ≤ z < 2 ^ 31 → i32 z = z.
Proof. intros ?. unfold i32. rewrite Z.mod_small; lia. Qed.

(** Storing an [unsigned] in an [int] and reading it back as [unsigned]. *)
Lemma u32_i32 z : u32 (i32 z) = u32 z.
Proof.
  unfold u32, i32.
  rewrite Zminus_mod, Zmod_mod, <- Zminus_mod. f_equal. lia.
Qed.

(** ** Bytes *)
Definition is_byte (b : Z) : bool := (0 <=? b) && (b <? 256).

Definition all_bytes (bs : list Z) : bool := forallb is_byte bs.

Lemma is_byte_spec b : is_byte b = true ↔ 0 ≤ b < 256.
Proof. unfold is_byte. rewrite andb_true_iff, Z.leb_le, Z.ltb_lt. lia. Qed.

Lemma all_bytes_app xs ys :
  all_bytes (xs ++ ys) = all_bytes xs && all_bytes ys.
Proof. apply forallb_app. Qed.

Lemma all_bytes_Forall bs : all_bytes bs = true ↔ Forall (λ b, 0 ≤ b < 256) bs.
Proof.
  unfold all_bytes. induction bs as [|b bs IH]; cbn.
  - split; eauto.
  - rewrite andb_true_iff, is_byte_spec, IH, Forall_cons. done.
Qed.

(** Little-endian layout of an integer in memory, as [memcpy] from and to an
    [int] sees it on the machines the program is built for (x86-64). *)
Fixpoint le_bytes (n : nat) (z : Z) : list Z :=
  match n with
  | O => []
  | S n => u8 z :: le_bytes n (z / 256)
  end.

Fixpoint le_value (bs : list Z) : Z :=
  match bs with
  | [] => 0
  | b :: bs => b + 256 * le_value bs
  end.

Lemma length_le_bytes n z : length (le_bytes n z) = n.
Proof. revert z. induction n; intros z; cbn; auto. Qed.

Lemma le_bytes_all n z : all_bytes (le_bytes n z) = true.
Proof.
  revert z. induction n as [|n IH]; intros z; cbn; [done|].
  apply andb_true_iff. split; [|apply IH].
  apply is_byte_spec. pose proof (u8_range z). lia.
Qed.

Lemma le_value_bytes n z : le_value (le_bytes n z) = z mod 256 ^ Z.of_nat n.
Proof.
  revert z. induction n as [|n IH]; intros z; cbn [le_bytes le_value].
  - by rewrite Z.mod_1_r.
  - rewrite IH, Nat2Z.inj_succ, Z.pow_succ_r by lia. unfold u8.
    rewrite Z.rem_mul_r by (try apply Z.pow_nonzero; lia). done.
Qed.

Lemma le_value_range bs :
  all_bytes bs = true → 0 ≤ le_value bs < 256 ^ Z.of_nat (length bs).
Proof.
  rewrite all_bytes_Forall. induction 1 as [|b bs ? ? IH]; cbn [le_value length].
  - lia.
  - rewrite Nat2Z.inj_succ, Z.pow_succ_r by lia. nia.
Qed.

Lemma le_bytes_value bs :
  all_bytes bs = true → le_bytes (length bs) (le_value bs) = bs.
Proof.
  rewrite all_bytes_Forall. induction 1 as [|b bs Hb ? IH]; cbn; [done|].
  unfold u8. change (2 ^ 8) with 256.
  rewrite (Z.mul_comm 256), Z_mod_plus_full, Z.div_add by lia.
  rewrite Z.mod_small, Z.div_small by lia. rewrite Z.add_0_l. by rewrite IH.
Qed.

(** Two's complement of a 4-byte little-endian [int]. *)
Definition le_int (bs : list Z) : Z := i32 (le_value bs).

Lemma le_int_bytes z : - 2 ^ 31 ≤ z < 2 ^ 31 → le_int (le_bytes 4 z) = z.
Proof.
  intros ?. unfold le_int. rewrite le_value_bytes.
  change (256 ^ Z.of_nat 4) with (2 ^ 32). unfold i32.
  rewrite Zplus_mod, Zmod_mod, <- Zplus_mod, Z.mod_small; lia.
Qed.

(** A header whose signed reading is not negative is the encoding of it. *)
Lemma le_bytes_int bs :
  all_bytes bs = true → length bs = 4%nat → 0 ≤ le_int bs →
  le_bytes 4 (le_int bs) = bs.
Proof.
  intros Hb Hl Hpos. rewrite <- (le_bytes_value bs Hb) at 2. rewrite Hl. f_equal.
  pose proof (le_value_range bs Hb) as Hr. rewrite Hl in Hr.
  change (256 ^ Z.of_nat 4) with (2 ^ 32) in Hr.
  unfold le_int, i32 in *.
  pose proof (Z.div_mod (le_value bs + 2 ^ 31) (2 ^ 32)).
  pose proof (Z.mod_pos_bound (le_value bs + 2 ^ 31) (2 ^ 32)).
  nia.
Qed.

(** ** Memory buffers

    An array is the list of its initialised prefix; [store_at] writes at an
    offset, a hole between the prefix and the offset reading as zeros. *)
Definition store_at (buf : list Z) (off : nat) (bs : list Z) : list Z :=
  resize off 0 buf ++ bs ++ drop (off + length bs) buf.

Lemma take_store_at buf off bs :
  (off ≤ length buf)%nat →
  take (off + length bs) (store_at buf off bs) = take off buf ++ bs.
Proof.
  intros ?. unfold store_at. rewrite resize_le by lia.
  rewrite app_assoc, take_app_length'; [done|].
  rewrite length_app, length_take. lia.
Qed.

Lemma take_store_at_le buf off bs n :
  (n ≤ off)%nat → (off ≤ length buf)%nat →
  take n (store_at buf off bs) = take n buf.
Proof.
  intros ? ?. unfold store_at. rewrite resize_le by lia.
  rewrite take_app_le by (rewrite length_take; lia).
  rewrite take_take. f_equal. lia.
Qed.

Lemma length_store_at buf off bs :
  length (store_at buf off bs) = Nat.max (length buf) (off + length bs).
Proof. unfold store_at. rewrite !length_app, length_resize, length_drop. lia. Qed.

(** ** Strings as byte lists *)
Definition bytes_of_string (s : string) : list Z :=
  map (λ a, Z.of_N (Ascii.N_of_ascii a)) (String.list_ascii_of_string s).

(** ** Runs of transition systems *)

(** Whatever steps are taken, [P] is reached, and a state in which it is not yet
    reached can go on. *)
Inductive inevitably {A} (R : relation A) (P : A → Prop) (x : A) : Prop :=
| inevitably_now : P x → inevitably R P x
| inevitably_later : (∃ y, R x y) → (∀ y, R x y → inevitably R P y) → inevitably R P x.

(** As long as [P] is not reached there is a step, and every step reaches it or
    decreases a measure on the states of an invariant. *)
Lemma inevitably_measure {A} (R : relation A) (I P : A → Prop) (f : A → nat) :
  (∀ x, I x → P x ∨ (∃ y, R x y) ∧ ∀ y, R x y → P y ∨ I y ∧ (f y < f x)%nat) →
  ∀ x, I x → inevitably R P x.
Proof.
  intros Hstep x. induction (Nat.lt_wf_0_projected f x) as [x _ IH]. intros HI.
  destruct (Hstep x HI) as [HP|[Hy Hs]]; [by apply inevitably_now|]. apply inevitably_later; [done|].
  intros y HR. destruct (Hs y HR) as [HP|[HI' Hlt]]; [by apply inevitably_now|by apply IH].
Qed.

(** Invariants along a run. *)
Lemma rtc_invariant {A} (R : relation A) (I : A → Prop) x y :
  (∀ x y, I x → R x y → I y) → I x → rtc R x y → I y.
Proof. intros HR HI H. induction H as [|x1 x2 x3 H1 _ IH]; [done|]. eauto. Qed.

(** ** Sums over maps *)
Definition map_total {A} (f : A → nat) (m : gmap Z A) : nat :=
  sum_list_with (λ kv, f kv.2) (map_to_list m).

Section map_total.
Context {A : Type} (f : A → nat).
Implicit Types (m : gmap Z A).

Lemma map_total_delete m p x : m !! p = Some x → map_total f m = (f x + map_total f (delete p m))%nat.
Proof. intros H. unfold map_total. by rewrite <- (map_to_list_delete m p x H). Qed.

Lemma map_total_new m p x : m !! p = None → map_total f (<[p := x]> m) = (f x + map_total f m)%nat.
Proof. intros H. unfold map_total. by rewrite map_to_list_insert. Qed.

Lemma map_total_insert m p x y :
  m !! p = Some x → (map_total f (<[p := y]> m) + f x = map_total f m + f y)%nat.
Proof.
  intros H. rewrite <- insert_delete_eq, map_total_new by apply lookup_delete_eq.
  rewrite (map_total_delete m p x H). lia.
Qed.

Lemma map_total_fmap m g : (∀ x, f (g x) = f x) → map_total f (g <$> m) = map_total f m.
Proof.
  intros H. unfold map_total. rewrite map_to_list_fmap.
  induction (map_to_list m) as [|[i x] l IH]; [done|]. cbn. by rewrite IH, H.
Qed.

Lemma map_total_size m : (∀ p x, m !! p = Some x → (1 ≤ f x)%nat) → (size m ≤ map_total f m)%nat.
Proof.
  induction m as [|p x m Hp IH] using map_ind; intros H; [done|]. rewrite map_size_insert_None, map_total_new by done.
  pose proof (H p x (lookup_insert_eq _ _ _)). assert (size m ≤ map_total f m)%nat; [|lia].
  apply IH. intros p' x' H'. apply (H p'). rewrite lookup_insert_ne; [done|congruence].
Qed.
End map_total.

Lemma store_same (bs : list Z) : store_at bs 0 bs = bs.
Proof. unfold store_at. rewrite resize_le by lia. cbn. by rewrite drop_all, app_nil_r. Qed.

(** A list is cut at the first [x] in one way. *)
Lemma app_first_inj {A} (x : A) l1 l2 r1 r2 :
  x ∉ l1 → x ∉ l2 → l1 ++ x :: r1 = l2 ++ x :: r2 → l1 = l2 ∧ r1 = r2.
Proof.
  revert l2. induction l1 as [|a l1 IH]; intros [|b l2] H1 H2 E; cbn in E; [by injection E| | |].
  - injection E as <- _. set_solver.
  - injection E as -> _. set_solver.
  - injection E as <- E. apply IH in E as [-> ->]; set_solver.
Qed.

(** Elements that satisfy [P] and have one position each. *)
Lemma NoDup_filter_unique {A} (P : A → Prop) `{!∀ x, Decision (P x)} (l : list A) :
  (∀ i j x, l !! i = Some x → l !! j = Some x → P x → i = j) → NoDup (filter P l).
Proof.
  induction l as [|x l IH]; intros Hl1; [constructor|]. rewrite filter_cons.
  assert (NoDup (filter P l)) as Hl.
  { apply IH. intros i j y Hi Hj Hy. specialize (Hl1 (S i) (S j) y Hi Hj Hy). congruence. }
  case_decide as Hx; [|done]. constructor; [|done]. intros [_ [i Hi]%list_elem_of_lookup]%list_elem_of_filter.
  by specialize (Hl1 0%nat (S i) x eq_refl Hi Hx).
Qed.

(** ** Automation *)
Create HintDb sysdb.
#[export] Hint Resolve u64_range u32_range u8_range i32_range le_bytes_all : sysdb.

Create Rewrite HintDb sysrw.
#[export] Hint Rewrite length_le_bytes length_store_at @length_app @length_take
  @length_drop @length_replicate : sysrw.

Ltac case_bool :=
  match goal with
  | |- context [if ?b then _ else _] => destruct b eqn:?
  | H : context [if ?b then _ else _] |- _ => destruct b eqn:?
  end.

(** Turns the boolean comparisons of the model into propositions. *)
Ltac breflect :=
  repeat match goal with
  | H : (_ && _) = true |- _ => apply andb_true_iff in H as [? ?]
  | H : (_ || _) = false |- _ => apply orb_false_iff in H as [? ?]
  | H : negb _ = true |- _ => apply negb_true_iff in H
  | H : negb _ = false |- _ => apply negb_false_iff in H
  | H : (_ <? _) = true |- _ => apply Z.ltb_lt in H
  | H : (_ <? _) = false |- _ => apply Z.ltb_ge in H
  | H : (_ <=? _) = true |- _ => apply Z.leb_le in H
  | H : (_ <=? _) = false |- _ => apply Z.leb_gt in H
  | H : (_ >? _) = true |- _ => rewrite Z.gtb_ltb in H; apply Z.ltb_lt in H
  | H : (_ >? _) = false |- _ => rewrite Z.gtb_ltb in H; apply Z.ltb_ge in H
  | H : (_ =? _) = true |- _ => apply Z.eqb_eq in H
  | H : (_ =? _) = false |- _ => apply Z.eqb_neq in H
  | H : String.eqb _ _ = true |- _ => apply String.eqb_eq in H
  | H : String.eqb _ _ = false |- _ => apply String.eqb_neq in H
  end.
