(* ===== verification/Sys.v ===== *)
(** * The operating system interface

    The programs are event handlers around Unix system calls.  The kernel is
    not part of the repository, so it is a parameter: a run of a program reads
    the kernel's answers from a [script], one answer per call, and logs every
    call with its answer in a [trace].  A theorem quantifies over all scripts,
    hence over every kernel.

    What the programs rely on is [answers], the documented contract of one call
    (a [read] returns at most as many bytes as asked for, and so on).  A script
    entry that does not meet the contract of the pending call is no answer: the
    call does not return and the run is [Blocked], as it is when the script ends. *)

From S2P Require Import Prelude.

(** ** Constants of the platform headers *)
Definition EINTR : Z := 4.
Definition EAGAIN : Z := 11.

Definition EPOLLIN : Z := 1.
Definition EPOLLOUT : Z := 4.
Definition EPOLLERR : Z := 8.
Definition EPOLLHUP : Z := 16.
Definition EPOLLET : Z := 2 ^ 31.

Definition EPOLL_CTL_ADD : Z := 1.
Definition EPOLL_CTL_DEL : Z := 2.
Definition EPOLL_CTL_MOD : Z := 3.

Definition F_GETFD : Z := 1.
Definition F_SETFL : Z := 4.
Definition O_NONBLOCK : Z := 2048.
Definition F_OK : Z := 0.

Definition SIGPIPE : Z := 13.

Definition AF_UNIX : Z := 1.
Definition AF_INET : Z := 2.
Definition INADDR_ANY : Z := 0.

(** Access bits of [st_mode]. *)
Definition S_IRWXU : Z := 448.
Definition S_IRWXG : Z := 56.
Definition S_IRWXO : Z := 7.

(** Size of [sockaddr_un.sun_path]. *)
Definition SUN_PATH_MAX : Z := 108.

(** Network byte order of a 16-bit value. *)
Definition htons (p : Z) : Z := (p mod 256) * 256 + p / 256 mod 256.
Definition ntohs (p : Z) : Z := htons p.

Lemma ntohs_htons p : 0 ≤ p < 2 ^ 16 → ntohs (htons p) = p.
Proof.
  intros Hp. unfold ntohs, htons.
  pose proof (Z.div_mod p 256 ltac:(lia)). pose proof (Z.mod_pos_bound p 256 ltac:(lia)).
  assert (0 ≤ p / 256 < 256) by (split; [apply Z.div_pos|apply Z.div_lt_upper_bound]; lia).
  rewrite (Z.mod_small (p / 256)) by lia.
  rewrite (Z.add_comm (p mod 256 * 256)), Z_mod_plus_full, Z.div_add by lia.
  rewrite (Z.mod_small (p / 256)), (Z.div_small (p / 256)) by lia.
  rewrite Z.add_0_l, Zmod_mod. lia.
Qed.

(** [CMSG_LEN(sizeof(int))]: room for one descriptor. *)
Definition CMSG_LEN_INT : Z := 20.

(** ** Calls and answers *)
Inductive sockaddr :=
| SockIn (s_addr sin_port : Z)
| SockUn (sun_path : string).

Record statbuf := StatBuf {
  st_mode : Z;
  st_uid : Z;
  st_atime : Z;
  st_ctime : Z;
  st_mtime : Z
}.

(** A byte handed to [sendmsg] is [None] when the program never wrote it. *)
Inductive syscall :=
| SysRead (fd count : Z)
| SysWrite (fd : Z) (data : list Z)
| SysClose (fd : Z)
| SysFcntl (fd cmd arg : Z)
| SysEpollCreate (sz : Z)
| SysEpollWait (epfd maxevents timeout : Z)
| SysEpollCtl (epfd op fd events : Z)
| SysSocket (domain : Z)
| SysReuseAddr (fd : Z)
| SysBind (fd : Z) (addr : sockaddr)
| SysListen (fd backlog : Z)
| SysAccept (fd : Z)
| SysConnect (fd : Z) (addr : sockaddr)
| SysGethostbyname (name : string)
| SysUnlink (path : string)
| SysStat (path : string)
| SysChmod (path : string) (mode : Z)
| SysAccess (path : string) (mode : Z)
| SysTime
| SysGetpid
| SysMalloc (sz : Z)
| SysSignalIgnore (sig : Z)
| SysSendmsg (fd : Z) (data : list (option Z)) (rights : option Z)
| SysRecvmsg (fd count controllen : Z)
| SysSelect (nfds : Z) (readfds : list Z)
| SysFgets (size : Z)
| SysFputs (data : list Z)
| SysGethostbyaddr (addr : Z)
| SysSignal (sig : Z)
| SysFork
| SysWaitpid (pid options : Z)
| SysExecve (argv : list (list Z))
| SysSleep (secs : Z).

Inductive reply :=
| RErr (e : Z)
| RInt (v : Z)
| RData (bs : list Z)
| RMsg (bs : list Z) (rights : option Z)
| REvents (evs : list (Z * Z))
| RPeer (fd : Z) (addr : sockaddr)
| RStat (st : statbuf)
| RHost (addrs : option (list Z)).

Definition len {A} (l : list A) : Z := Z.of_nat (length l).

(** The contract of one call: which answers it can get. *)
Definition answers (c : syscall) (r : reply) : bool :=
  match c, r with
  | (SysTime | SysGetpid | SysMalloc _ | SysSleep _), RInt v => 0 <=? v
  | (SysTime | SysGetpid | SysMalloc _ | SysSleep _), _ => false
  | (SysGethostbyname _ | SysGethostbyaddr _), RHost None => true
  | (SysGethostbyname _ | SysGethostbyaddr _), RHost (Some addrs) => 0 <? len addrs
  | (SysGethostbyname _ | SysGethostbyaddr _), _ => false
  | _, RErr e => 0 <? e
  | SysRead _ n, RData bs => (len bs <=? n) && all_bytes bs
  | SysFgets size, RData bs => (len bs <=? size - 1) && all_bytes bs
  | SysWrite _ bs, RInt k => (0 <=? k) && (k <=? len bs)
  | SysSendmsg _ bs _, RInt k => (0 <=? k) && (k <=? len bs)
  | SysRecvmsg _ n cl, RMsg bs rights =>
      (len bs <=? n) && all_bytes bs &&
      match rights with
      | None => true
      | Some fd => (0 <=? fd) && (CMSG_LEN_INT <=? cl)
      end
  | SysEpollWait _ n _, REvents evs => len evs <=? n
  | SysSelect nfds fds, REvents evs =>
      bool_decide (NoDup evs.*1) && forallb (λ '(fd, _), bool_decide (fd ∈ fds) && (fd <? nfds)) evs
  | SysAccept _, RPeer fd _ => 0 <=? fd
  | SysStat _, RStat _ => true
  | (SysClose _ | SysEpollCtl _ _ _ _ | SysReuseAddr _ | SysBind _ _
    | SysListen _ _ | SysConnect _ _ | SysUnlink _ | SysChmod _ _
    | SysAccess _ _), RInt v => v =? 0
  | (SysFcntl _ _ _ | SysEpollCreate _ | SysSocket _ | SysSignalIgnore _ | SysSignal _ | SysFputs _
    | SysFork | SysWaitpid _ _), RInt v => 0 <=? v
  | _, _ => false
  end.

Definition event : Type := syscall * reply.

(** ** Runs *)
Record world := World {
  script : list reply;
  errno : Z;
  trace : list event
}.

(** Undefined behaviour and uncaught exceptions of the C++ code. *)
Inductive fault :=
| BufferOverflow
| UninitRead
| LengthError
| AssertFail
| NullDeref
| MissingReturn.

Inductive outcome (A : Type) :=
| Done (a : A) (w : world)
| Exited (code : Z) (w : world)
| Faulted (f : fault) (w : world)
| Blocked (w : world)
| NoFuel (w : world).
Arguments Done {A} a w.
Arguments Exited {A} code w.
Arguments Faulted {A} f w.
Arguments Blocked {A} w.
Arguments NoFuel {A} w.

Definition M (A : Type) : Type := world → outcome A.

#[export] Instance M_ret : MRet M := λ A a w, Done a w.
#[export] Instance M_bind : MBind M := λ A B k m w,
  match m w with
  | Done a w' => k a w'
  | Exited c w' => Exited c w'
  | Faulted f w' => Faulted f w'
  | Blocked w' => Blocked w'
  | NoFuel w' => NoFuel w'
  end.

Definition exit {A} (code : Z) : M A := λ w, Exited code w.
Definition fail_with {A} (f : fault) : M A := λ w, Faulted f w.
Definition get_errno : M Z := λ w, Done (errno w) w.
Definition set_errno (e : Z) : M () := λ w, Done () (World (script w) e (trace w)).

Definition errno_after (r : reply) (e : Z) : Z :=
  match r with RErr e' => e' | _ => e end.

(** The world after the pending call [c] was answered with [r]. *)
Definition answered (c : syscall) (r : reply) (w : world) : world :=
  World (tail (script w)) (errno_after r (errno w)) (trace w ++ [(c, r)]).

Definition call (c : syscall) : M reply := λ w,
  match script w with
  | r :: _ => if answers c r then Done r (answered c r w) else Blocked w
  | [] => Blocked w
  end.

(** A call whose C result is one integer: the value, or -1. *)
Definition ret_of (r : reply) : Z :=
  match r with
  | RErr _ => -1
  | RInt v => v
  | RData bs => len bs
  | RMsg bs _ => len bs
  | REvents evs => len evs
  | RPeer fd _ => fd
  | RStat _ => 0
  | RHost _ => 0
  end.

Definition call_int (c : syscall) : M Z := r ← call c; mret (ret_of r).

(** [read]: the return value and the bytes the kernel stored in the buffer. *)
Definition sys_read (fd count : Z) : M (Z * list Z) :=
  r ← call (SysRead fd count);
  mret (ret_of r, match r with RData bs => bs | _ => [] end).

Definition sys_write (fd : Z) (data : list Z) : M Z := call_int (SysWrite fd data).

Definition sys_close (fd : Z) : M Z := call_int (SysClose fd).

(** ** Loops

    [while]-loops of the code make a call in every round, so the length of the
    script bounds the number of rounds: [loop] runs with that fuel and
    [loop_rule] shows that it never runs out of it. *)
Fixpoint loop_n {S A} (n : nat) (body : S → M (S + A)) (s : S) : M A := λ w,
  match n with
  | O => NoFuel w
  | Datatypes.S n =>
      (x ← body s;
       match x with
       | inl s' => loop_n n body s'
       | inr a => mret a
       end) w
  end.

Definition loop {S A} (body : S → M (S + A)) (s : S) : M A := λ w,
  loop_n (Datatypes.S (length (script w))) body s w.

(** ** Weakest preconditions *)
Definition wp {A} (m : M A) (Q : outcome A → Prop) (w : world) : Prop := Q (m w).

Lemma wp_ret {A} (a : A) Q w : Q (Done a w) → wp (mret a) Q w.
Proof. done. Qed.

Lemma wp_bind {A B} (m : M A) (k : A → M B) Q w :
  wp m (λ o, match o with
             | Done a w' => wp (k a) Q w'
             | Exited c w' => Q (Exited c w')
             | Faulted f w' => Q (Faulted f w')
             | Blocked w' => Q (Blocked w')
             | NoFuel w' => Q (NoFuel w')
             end) w →
  wp (m ≫= k) Q w.
Proof. unfold wp, mbind, M_bind. by destruct (m w). Qed.

Lemma wp_mono {A} (m : M A) (P Q : outcome A → Prop) w :
  wp m P w → (∀ o, P o → Q o) → wp m Q w.
Proof. unfold wp. auto. Qed.

Lemma wp_call c (Q : outcome reply → Prop) w :
  Q (Blocked w) →
  (∀ r s, script w = r :: s → answers c r = true → Q (Done r (answered c r w))) →
  wp (call c) Q w.
Proof.
  unfold wp, call. intros HB HD. destruct (script w) as [|r s] eqn:E; [done|].
  destruct (answers c r) eqn:?; [by eapply HD|done].
Qed.

Lemma call_answer c r s w :
  script w = r :: s → answers c r = true → call c w = Done r (answered c r w).
Proof. intros Hs Ha. unfold call. by rewrite Hs, Ha. Qed.

(** Binds on outcomes that are known. *)
Lemma bind_done {A B} (m : M A) (k : A → M B) w a w' :
  m w = Done a w' → (m ≫= k) w = k a w'.
Proof. intros H. unfold mbind, M_bind. by rewrite H. Qed.

Lemma answered_script c r w r' s :
  script w = r' :: s → script (answered c r w) = s.
Proof. intros H. cbn. by rewrite H. Qed.

Lemma answered_shorter c r w r' s :
  script w = r' :: s → (length (script (answered c r w)) < length (script w))%nat.
Proof. intros H. rewrite (answered_script _ _ _ _ _ H), H. cbn. lia. Qed.

Lemma wp_get_errno (Q : outcome Z → Prop) w : Q (Done (errno w) w) → wp get_errno Q w.
Proof. done. Qed.

Lemma wp_exit {A} c (Q : outcome A → Prop) w : Q (Exited c w) → wp (exit c) Q w.
Proof. done. Qed.

Lemma wp_fail {A} f (Q : outcome A → Prop) w : Q (Faulted f w) → wp (fail_with f) Q w.
Proof. done. Qed.

Lemma wp_call_int c (Q : outcome Z → Prop) w :
  Q (Blocked w) →
  (∀ r s, script w = r :: s → answers c r = true →
     Q (Done (ret_of r) (answered c r w))) →
  wp (call_int c) Q w.
Proof. intros HB HD. apply wp_bind, wp_call; [done|]. intros. eapply HD; eauto. Qed.

Lemma wp_read fd n (Q : outcome (Z * list Z) → Prop) w :
  Q (Blocked w) →
  (∀ e s, script w = RErr e :: s → 0 < e →
     Q (Done (-1, []) (answered (SysRead fd n) (RErr e) w))) →
  (∀ bs s, script w = RData bs :: s → len bs ≤ n → all_bytes bs = true →
     Q (Done (len bs, bs) (answered (SysRead fd n) (RData bs) w))) →
  wp (sys_read fd n) Q w.
Proof.
  intros HB HE HD. apply wp_bind, wp_call; [done|].
  intros [e| |bs| | | | |] s Hs Ha; cbn in Ha; try discriminate; breflect.
  - by eapply HE.
  - by eapply HD.
Qed.

Lemma wp_write fd bs (Q : outcome Z → Prop) w :
  Q (Blocked w) →
  (∀ e s, script w = RErr e :: s → 0 < e →
     Q (Done (-1) (answered (SysWrite fd bs) (RErr e) w))) →
  (∀ k s, script w = RInt k :: s → 0 ≤ k ≤ len bs →
     Q (Done k (answered (SysWrite fd bs) (RInt k) w))) →
  wp (sys_write fd bs) Q w.
Proof.
  intros HB HE HD. apply wp_call_int; [done|].
  intros [e|k| | | | | |] s Hs Ha; cbn in Ha; try discriminate; breflect.
  - by eapply HE.
  - by eapply HD.
Qed.

(** Total correctness of loops: with an invariant that every round preserves
    while it consumes part of the script, the loop ends in a state its last
    round gave, and never for lack of fuel. *)
Lemma loop_rule {S A} (body : S → M (S + A)) (I : S → world → Prop)
    (Q : outcome A → Prop) :
  (∀ s w, I s w →
     wp (body s) (λ o, match o with
       | Done (inl s') w' =>
           I s' w' ∧ (length (script w') < length (script w))%nat
       | Done (inr a) w' => Q (Done a w')
       | Exited c w' => Q (Exited c w')
       | Faulted f w' => Q (Faulted f w')
       | Blocked w' => Q (Blocked w')
       | NoFuel w' => Q (NoFuel w')
       end) w) →
  ∀ s w, I s w → wp (loop body s) Q w.
Proof.
  intros Hbody s w HI. unfold wp, loop.
  assert (∀ n s w, I s w → (length (script w) < n)%nat → Q (loop_n n body s w)) as H.
  { clear s w HI. induction n as [|n IH]; intros s w HI Hn; [lia|].
    cbn. specialize (Hbody s w HI). unfold wp in Hbody.
    unfold mbind, M_bind. destruct (body s w) as [[s'|a] w'| | | |]; try done.
    destruct Hbody. apply IH; [done|lia]. }
  apply H; [done|lia].
Qed.

(** ** Observations on traces *)
Definition bytes_read (fd : Z) (t : list event) : list Z :=
  t ≫= λ '(c, r),
    match c, r with
    | SysRead fd' _, RData bs => if fd' =? fd then bs else []
    | _, _ => []
    end.

Definition bytes_written (fd : Z) (t : list event) : list Z :=
  t ≫= λ '(c, r),
    match c, r with
    | SysWrite fd' bs, RInt k => if fd' =? fd then take (Z.to_nat k) bs else []
    | _, _ => []
    end.

(** What was sent and received on a socket with [sendmsg] and [recvmsg]. *)
Definition bytes_sent (fd : Z) (t : list event) : list (option Z) :=
  t ≫= λ '(c, r),
    match c, r with
    | SysSendmsg fd' bs _, RInt k => if fd' =? fd then take (Z.to_nat k) bs else []
    | _, _ => []
    end.

Definition bytes_received (fd : Z) (t : list event) : list Z :=
  t ≫= λ '(c, r),
    match c, r with
    | SysRecvmsg fd' _ _, RMsg bs _ => if fd' =? fd then bs else []
    | _, _ => []
    end.

(** Descriptors sent along, by the sends that transmitted something, and
    descriptors received. *)
Definition rights_sent (fd : Z) (t : list event) : list Z :=
  t ≫= λ '(c, r),
    match c, r with
    | SysSendmsg fd' _ (Some d), RInt k => if (fd' =? fd) && (0 <? k) then [d] else []
    | _, _ => []
    end.

Definition rights_received (fd : Z) (t : list event) : list Z :=
  t ≫= λ '(c, r),
    match c, r with
    | SysRecvmsg fd' _ _, RMsg _ (Some d) => if fd' =? fd then [d] else []
    | _, _ => []
    end.

Lemma bytes_read_app fd t1 t2 :
  bytes_read fd (t1 ++ t2) = bytes_read fd t1 ++ bytes_read fd t2.
Proof. apply bind_app. Qed.

Lemma bytes_written_app fd t1 t2 :
  bytes_written fd (t1 ++ t2) = bytes_written fd t1 ++ bytes_written fd t2.
Proof. apply bind_app. Qed.

Lemma bytes_sent_app fd t1 t2 : bytes_sent fd (t1 ++ t2) = bytes_sent fd t1 ++ bytes_sent fd t2.
Proof. apply bind_app. Qed.

Lemma bytes_received_app fd t1 t2 :
  bytes_received fd (t1 ++ t2) = bytes_received fd t1 ++ bytes_received fd t2.
Proof. apply bind_app. Qed.

Lemma rights_sent_app fd t1 t2 :
  rights_sent fd (t1 ++ t2) = rights_sent fd t1 ++ rights_sent fd t2.
Proof. apply bind_app. Qed.

Lemma rights_received_app fd t1 t2 :
  rights_received fd (t1 ++ t2) = rights_received fd t1 ++ rights_received fd t2.
Proof. apply bind_app. Qed.

Lemma bytes_read_data fd n bs : bytes_read fd [(SysRead fd n, RData bs)] = bs.
Proof. cbn. by rewrite Z.eqb_refl, app_nil_r. Qed.

Lemma bytes_written_int fd bs k :
  bytes_written fd [(SysWrite fd bs, RInt k)] = take (Z.to_nat k) bs.
Proof. cbn. by rewrite Z.eqb_refl, app_nil_r. Qed.

(** Descriptors a run obtained from the kernel, and those it gave back. *)
Definition opened (t : list event) : list Z :=
  t ≫= λ '(c, r),
    match c, r with
    | (SysSocket _ | SysEpollCreate _), RInt v => [v]
    | SysAccept _, RPeer fd _ => [fd]
    | SysRecvmsg _ _ _, RMsg _ (Some fd) => [fd]
    | _, _ => []
    end.

Definition closed (t : list event) : list Z :=
  t ≫= λ '(c, _), match c with SysClose fd => [fd] | _ => [] end.

(** [extends w w' t]: the run from [w] to [w'] made the calls [t]. *)
Definition extends (w w' : world) (t : list event) : Prop :=
  trace w' = trace w ++ t.

Lemma extends_refl w : extends w w [].
Proof. unfold extends. by rewrite app_nil_r. Qed.

Lemma extends_answered c r w : extends w (answered c r w) [(c, r)].
Proof. done. Qed.

Lemma extends_trans w1 w2 w3 t1 t2 :
  extends w1 w2 t1 → extends w2 w3 t2 → extends w1 w3 (t1 ++ t2).
Proof. unfold extends. intros -> ->. by rewrite app_assoc. Qed.

Lemma extends_inj w w' t t' : extends w w' t → extends w w' t' → t = t'.
Proof. unfold extends. intros ->. by apply app_inv_head. Qed.

#[export] Hint Resolve extends_refl extends_answered extends_trans answered_shorter : sysdb.

Lemma len_nonneg {A} (l : list A) : 0 ≤ len l.
Proof. unfold len. lia. Qed.

Lemma len_app {A} (l k : list A) : len (l ++ k) = len l + len k.
Proof. unfold len. rewrite length_app. lia. Qed.

(** The world an outcome ends in. *)
Definition final {A} (o : outcome A) : world :=
  match o with
  | Done _ w | Exited _ w | Faulted _ w | Blocked w | NoFuel w => w
  end.

(** ** Accounting

    A program consumes exactly the answers of the calls it logs; every program
    of the development is built so. *)
Class Honest {A} (m : M A) : Prop :=
  honest w : ∃ t, extends w (final (m w)) t ∧
    script w = map snd t ++ script (final (m w)).

#[export] Instance honest_ret {A} (a : A) : Honest (mret a).
Proof. intros w. exists []. split; [apply extends_refl|done]. Qed.

#[export] Instance honest_exit {A} c : Honest (@exit A c).
Proof. intros w. exists []. split; [apply extends_refl|done]. Qed.

#[export] Instance honest_fail {A} f : Honest (@fail_with A f).
Proof. intros w. exists []. split; [apply extends_refl|done]. Qed.

#[export] Instance honest_get_errno : Honest get_errno.
Proof. intros w. exists []. split; [apply extends_refl|done]. Qed.

#[export] Instance honest_set_errno e : Honest (set_errno e).
Proof. intros w. exists []. split; [|done]. unfold extends. cbn. by rewrite app_nil_r. Qed.

#[export] Instance honest_call c : Honest (call c).
Proof.
  intros w. unfold call. destruct (script w) as [|r s] eqn:E.
  - exists []. split; [apply extends_refl|cbn; congruence].
  - destruct (answers c r).
    + exists [(c, r)]. split; [done|]. cbn. rewrite E. done.
    + exists []. split; [apply extends_refl|cbn; congruence].
Qed.

#[export] Instance honest_bind {A B} (m : M A) (k : A → M B) :
  Honest m → (∀ a, Honest (k a)) → Honest (m ≫= k).
Proof.
  intros Hm Hk w. destruct (Hm w) as (t & He & Hs).
  unfold mbind, M_bind. destruct (m w) as [a w'| | | |]; cbn in *; eauto.
  destruct (Hk a w') as (t' & He' & Hs'). exists (t ++ t').
  split; [by eapply extends_trans|]. by rewrite Hs, Hs', map_app, app_assoc.
Qed.

#[export] Instance honest_loop_n {S A} n (body : S → M (S + A)) s :
  (∀ s, Honest (body s)) → Honest (loop_n n body s).
Proof.
  intros Hb. revert s. induction n as [|n IH]; intros s w.
  - exists []. split; [apply extends_refl|done].
  - change (loop_n (Datatypes.S n) body s w) with
      ((x ← body s; match x with inl s' => loop_n n body s' | inr a => mret a end) w).
    apply honest_bind; [done|]. intros [s'|a]; apply _.
Qed.

#[export] Instance honest_loop {S A} (body : S → M (S + A)) s :
  (∀ s, Honest (body s)) → Honest (loop body s).
Proof. intros ? w. apply honest_loop_n. done. Qed.

#[export] Typeclasses Opaque call call_int sys_read sys_write sys_close loop loop_n
  get_errno set_errno exit fail_with.

(** Solves [Honest] goals by the shape of the program. *)
Ltac solve_honest :=
  repeat (cbn beta iota; first
    [ apply _
    | apply honest_bind; [|intros ?]
    | lazymatch goal with
      | |- Honest (if ?b then _ else _) => destruct b
      | |- Honest (match ?x with _ => _ end) => destruct x
      | |- Honest (let x := ?y in _) => cbn zeta
      end ]).

#[export] Instance honest_call_int c : Honest (call_int c).
Proof. unfold call_int. solve_honest. Qed.

#[export] Instance honest_read fd n : Honest (sys_read fd n).
Proof. unfold sys_read. solve_honest. Qed.

#[export] Instance honest_write fd bs : Honest (sys_write fd bs).
Proof. unfold sys_write. solve_honest. Qed.

#[export] Instance honest_close fd : Honest (sys_close fd).
Proof. unfold sys_close. solve_honest. Qed.

(** ** The kinds of calls a program makes *)

Definition only (P : syscall → bool) (t : list event) : Prop := Forall (λ ev, P ev.1 = true) t.

Class Emits (P : syscall → bool) {A} (m : M A) : Prop :=
  emits w : ∃ t, extends w (final (m w)) t ∧ only P t.

Section Emits.
  Context (P : syscall → bool).

Lemma emits_nothing {A} (m : M A) : (∀ w, trace (final (m w)) = trace w) → Emits P m.
Proof.
  intros H w. exists []. split; [|constructor]. unfold extends. by rewrite app_nil_r.
Qed.

#[export] Instance emits_ret {A} (a : A) : Emits P (mret a).
Proof. by apply emits_nothing. Qed.
#[export] Instance emits_exit {A} c : Emits P (@exit A c).
Proof. by apply emits_nothing. Qed.
#[export] Instance emits_fail {A} f : Emits P (@fail_with A f).
Proof. by apply emits_nothing. Qed.
#[export] Instance emits_get_errno : Emits P get_errno.
Proof. by apply emits_nothing. Qed.
#[export] Instance emits_set_errno e : Emits P (set_errno e).
Proof. by apply emits_nothing. Qed.

Lemma emits_call c : P c = true → Emits P (call c).
Proof.
  intros Hc w. unfold call. destruct (script w) as [|r s]; [|destruct (answers c r)].
  - exists []. split; [apply extends_refl|constructor].
  - exists [(c, r)]. split; [done|by repeat constructor].
  - exists []. split; [apply extends_refl|constructor].
Qed.

#[export] Instance emits_bind {A B} (m : M A) (k : A → M B) :
  Emits P m → (∀ a, Emits P (k a)) → Emits P (m ≫= k).
Proof.
  intros Hm Hk w. destruct (Hm w) as (t & He & Hs).
  unfold mbind, M_bind. destruct (m w) as [a w'| | | |]; cbn in *; eauto.
  destruct (Hk a w') as (t' & He' & Hs'). exists (t ++ t').
  split; [by eapply extends_trans|]. by apply Forall_app.
Qed.

#[export] Instance emits_loop {S A} (body : S → M (S + A)) s :
  (∀ s, Emits P (body s)) → Emits P (loop body s).
Proof.
  intros Hb w. unfold loop. generalize (Datatypes.S (length (script w))) as n.
  intros n. revert s w. induction n as [|n IH]; intros s w.
  - exists []. split; [apply extends_refl|constructor].
  - change (loop_n (Datatypes.S n) body s w) with
      ((x ← body s; match x with inl s' => loop_n n body s' | inr a => mret a end) w).
    apply emits_bind; [done|]. intros [s'|a]; [intros w'; apply IH|apply _].
Qed.

Lemma emits_call_int c : P c = true → Emits P (call_int c).
Proof. intros. unfold call_int. apply emits_bind; [by apply emits_call|apply _]. Qed.

(** The calls of a run that is known to have made [t]. *)
Lemma emits_extends {A} (m : M A) `{!Emits P m} w t : extends w (final (m w)) t → only P t.
Proof.
  intros He. destruct (emits (m := m) w) as (t' & He' & Ht). by rewrite (extends_inj _ _ _ _ He He').
Qed.
End Emits.

(** Solves [Emits] goals by the shape of the program. *)
Ltac solve_emits :=
  repeat (cbn beta iota; first
    [ apply _
    | apply emits_call; reflexivity
    | apply emits_call_int; reflexivity
    | apply emits_bind; [|intros ?]
    | lazymatch goal with
      | |- Emits _ (if ?b then _ else _) => destruct b
      | |- Emits _ (match ?x with _ => _ end) => destruct x
      | |- Emits _ (loop _ _) => apply emits_loop; intros ?
      | |- Emits _ (let x := ?y in _) => cbn zeta
      end ]).

(** Calls that neither change the set of descriptors an epoll instance watches
    nor close one. *)
Definition quiet (c : syscall) : bool :=
  match c with SysEpollCtl _ _ _ _ | SysClose _ => false | _ => true end.

Abbreviation quiet_trace := (only quiet).
Abbreviation Quiet := (Emits quiet).

#[export] Instance quiet_read fd n : Quiet (sys_read fd n).
Proof. unfold sys_read. solve_emits. Qed.
#[export] Instance quiet_write fd bs : Quiet (sys_write fd bs).
Proof. by apply emits_call_int. Qed.

Definition is_read (c : syscall) : bool := match c with SysRead _ _ => true | _ => false end.
Definition is_write (c : syscall) : bool := match c with SysWrite _ _ => true | _ => false end.

#[export] Instance reads_read fd n : Emits is_read (sys_read fd n).
Proof. unfold sys_read. solve_emits. Qed.
#[export] Instance writes_write fd bs : Emits is_write (sys_write fd bs).
Proof. by apply emits_call_int. Qed.

Lemma only_read_written fd t : only is_read t → bytes_written fd t = [].
Proof. induction 1 as [|[[] r] t Hev _ IH]; cbn in *; try discriminate; done. Qed.

Lemma only_write_read fd t : only is_write t → bytes_read fd t = [].
Proof. induction 1 as [|[[] r] t Hev _ IH]; cbn in *; try discriminate; done. Qed.

(** A run never lengthens the script. *)
Lemma script_shrinks {A} (m : M A) `{!Honest m} w :
  (length (script (final (m w))) ≤ length (script w))%nat.
Proof. destruct (honest (m := m) w) as (t & _ & ->). rewrite length_app. lia. Qed.

(** A program that makes at least one call before it returns. *)
Definition consumes {A} (m : M A) : Prop := ∀ w,
  match m w with
  | Done _ w' => (length (script w') < length (script w))%nat
  | _ => True
  end.

Lemma consumes_call c : consumes (call c).
Proof.
  intros w. unfold call. destruct (script w) as [|r s] eqn:E; [done|].
  case_bool; [|done]. rewrite <- E. by eapply answered_shorter.
Qed.

Lemma consumes_bind_l {A B} (m : M A) (k : A → M B) :
  consumes m → (∀ a, Honest (k a)) → consumes (m ≫= k).
Proof.
  intros Hm Hk w. specialize (Hm w). unfold mbind, M_bind.
  destruct (m w) as [a w'| | | |]; try done.
  pose proof (script_shrinks (k a) w') as Hle. destruct (k a w'); cbn in *; try done. lia.
Qed.

Lemma consumes_bind_r {A B} (m : M A) (k : A → M B) :
  Honest m → (∀ a, consumes (k a)) → consumes (m ≫= k).
Proof.
  intros Hm Hk w. unfold mbind, M_bind. pose proof (script_shrinks m w) as Hle.
  destruct (m w) as [a w'| | | |]; try done. specialize (Hk a w').
  destruct (k a w'); cbn in *; try done. lia.
Qed.

(** The value of a run that returned. *)
Definition value {A} (d : A) (o : outcome A) : A :=
  match o with Done a _ => a | _ => d end.

(** Runs a program on a script, from an empty trace. *)
Definition run {A} (m : M A) (s : list reply) : outcome A := m (World s 0 []).

(** ** Tactics of the calculus *)
Ltac wp_step :=
  cbn beta iota;
  lazymatch goal with
  | |- wp (mret _) _ _ => apply wp_ret
  | |- wp (mbind _ _) _ _ => apply wp_bind
  | |- wp get_errno _ _ => apply wp_get_errno
  | |- wp (exit _) _ _ => apply wp_exit
  | |- wp (fail_with _) _ _ => apply wp_fail
  | |- wp (sys_read _ _) _ _ => apply wp_read; [|intros ?e ?s ?Hs ?He|intros ?bs ?s ?Hs ?Hle ?Hby]
  | |- wp (sys_write _ _) _ _ => apply wp_write; [|intros ?e ?s ?Hs ?He|intros ?k ?s ?Hs ?Hk]
  | |- wp (call_int _) _ _ => apply wp_call_int; [|intros ?r ?s ?Hs ?Ha]
  | |- wp (call _) _ _ => apply wp_call; [|intros ?r ?s ?Hs ?Ha]
  | |- wp (if ?b then _ else _) _ _ => destruct b eqn:?; try discriminate
  | |- wp (match ?x with _ => _ end) _ _ => destruct x eqn:?
  end; cbn beta iota.

Ltac wp_steps := repeat wp_step.

(** Case analysis on the answers a call can get. *)
Ltac answer_cases :=
  repeat match goal with
  | H : answers _ ?r = true |- _ =>
      is_var r; destruct r; cbn in H; try discriminate H; breflect
  end.

(** Exhibits the calls of a straight-line run. *)
Ltac solve_extends :=
  unfold extends; cbn [answered trace]; rewrite <- ?app_assoc; reflexivity.

(** Contradictory tests on the integer results. *)
Ltac prune := cbn [ret_of] in *; breflect; try lia; try discriminate.

(** ** Postconditions on results alone *)

(** Whatever the kernel answers, a result satisfies [R]. *)
Definition ensures {A} (m : M A) (R : A → Prop) : Prop := ∀ w a w', m w = Done a w' → R a.

Lemma ensures_ret {A} (a : A) (R : A → Prop) : R a → ensures (mret a) R.
Proof. intros H w a' w' [= <- <-]. done. Qed.

Lemma ensures_exit {A} c (R : A → Prop) : ensures (exit c) R.
Proof. by intros w a w'. Qed.

Lemma ensures_fail {A} f (R : A → Prop) : ensures (fail_with f) R.
Proof. by intros w a w'. Qed.

Lemma ensures_bind {A B} (m : M A) (k : A → M B) (R : B → Prop) :
  (∀ a, ensures (k a) R) → ensures (m ≫= k) R.
Proof.
  intros Hk w b w'. unfold mbind, M_bind. destruct (m w) as [a w1| | | |]; try done. apply Hk.
Qed.

Lemma ensures_bind_dep {A B} (m : M A) (k : A → M B) (P : A → Prop) (R : B → Prop) :
  ensures m P → (∀ a, P a → ensures (k a) R) → ensures (m ≫= k) R.
Proof.
  intros Hm Hk w b w'. unfold mbind, M_bind. specialize (Hm w).
  destruct (m w) as [a w1| | | |]; try done. apply Hk. by eapply Hm.
Qed.

Ltac solve_ensures :=
  repeat (cbn beta iota zeta; first
    [ apply ensures_ret
    | apply ensures_exit
    | apply ensures_fail
    | apply ensures_bind; intros ?
    | lazymatch goal with
      | |- ensures (if ?b then _ else _) _ => destruct b eqn:?
      | |- ensures (match ?x with _ => _ end) _ => destruct x eqn:?
      end ]).
