(* ===== verification/InetConn.v ===== *)
(** * InetConn: the length-prefixed request protocol of one TCP connection

    Models [hot_upgrade_demo/inet_conn.h] and [inet_conn.cc].  A request is a
    4-byte [int] length followed by that many bytes; [GetRequest] collects it
    from a non-blocking socket over any number of calls and [SendReply] echoes
    the payload back. *)

From S2P Require Import Prelude Sys.

Definition READ_BUFFER_SIZE : Z := 1024 * 1024.
Definition HEADER_LEN : Z := 4.

Inductive ReadStatus :=
| kReadHalf | kReadAll | kReadError | kReadClose | kFullError | kParseError | kDealError.

Inductive WriteStatus :=
| kWriteHalf | kWriteAll | kWriteError.

#[export] Instance ReadStatus_eq_dec : EqDecision ReadStatus.
Proof. solve_decision. Defined.
#[export] Instance WriteStatus_eq_dec : EqDecision WriteStatus.
Proof. solve_decision. Defined.

(** [read_buf_] is the initialised prefix of the 1 MB array. *)
Record InetConn := mkInetConn {
  fd_ : Z;
  ip_port_ : string;
  last_read_pos_ : Z;
  read_buf_ : list Z;
  last_write_pos_ : Z;
  reply_ : list Z
}.

Definition new_InetConn (fd : Z) (ip_port : string) : InetConn :=
  {| fd_ := fd; ip_port_ := ip_port; last_read_pos_ := 0; read_buf_ := [];
     last_write_pos_ := 0; reply_ := [] |}.

Definition set_read (c : InetConn) (pos : Z) (buf : list Z) : InetConn :=
  {| fd_ := fd_ c; ip_port_ := ip_port_ c; last_read_pos_ := pos; read_buf_ := buf;
     last_write_pos_ := last_write_pos_ c; reply_ := reply_ c |}.

Definition set_reply (c : InetConn) (wpos : Z) (rep : list Z) : InetConn :=
  {| fd_ := fd_ c; ip_port_ := ip_port_ c; last_read_pos_ := last_read_pos_ c;
     read_buf_ := read_buf_ c; last_write_pos_ := wpos; reply_ := rep |}.

(** The flags written back come from [F_GETFD] and the integers 0 and -1 are
    returned as a [bool]: the result is [false] on success. *)
Definition SetNonblock (c : InetConn) : M bool :=
  flags ← call_int (SysFcntl (fd_ c) F_GETFD 0);
  ret ← call_int (SysFcntl (fd_ c) F_SETFL (Z.lor flags O_NONBLOCK));
  mret (ret =? -1).

Definition EmptyReadBuf (c : InetConn) : bool := last_read_pos_ c =? 0.

Definition IpPort (c : InetConn) : string := ip_port_ c.

(** The kernel stores [bs] at [read_buf_ + last_read_pos_] and the position
    advances; a store past the array is a buffer overflow. *)
Definition fill (c : InetConn) (bs : list Z) : M InetConn :=
  if last_read_pos_ c + len bs <=? READ_BUFFER_SIZE then
    mret (set_read c (last_read_pos_ c + len bs)
            (store_at (read_buf_ c) (Z.to_nat (last_read_pos_ c)) bs))
  else fail_with BufferOverflow.

(** One [read] of [count] bytes with the status the code derives from it:
    [None] means that bytes were added and the function goes on. *)
Definition read_more (c : InetConn) (count : Z) : M (option ReadStatus * InetConn) :=
  '(nread, bs) ← sys_read (fd_ c) count;
  if nread =? -1 then
    e ← get_errno;
    mret (Some (if e =? EAGAIN then kReadHalf else kReadError), c)
  else if nread =? 0 then mret (Some kReadClose, c)
  else c' ← fill c bs; mret (None, c').

(** [std::string(read_buf_ + HEADER_LEN, request_len)]: the [int] is converted
    to [size_t], a negative one throws [std::length_error]. *)
Definition request_string (buf : list Z) (request_len : Z) : M (list Z) :=
  if u64 request_len <=? 2 ^ 63 - 1 then
    mret (take (Z.to_nat request_len) (drop (Z.to_nat HEADER_LEN) buf))
  else fail_with LengthError.

Definition header_len (buf : list Z) : Z := le_int (take 4 buf).

(** The end of the function, when bytes of the body arrived. *)
Definition finish (request_len : Z) (c : InetConn) : M (ReadStatus * InetConn) :=
  if last_read_pos_ c <? u64 (HEADER_LEN + request_len) then mret (kReadHalf, c)
  else
    rep ← request_string (read_buf_ c) request_len;
    mret (kReadAll, set_read (set_reply c (last_write_pos_ c) rep) 0 (read_buf_ c)).

(** From [memcpy(&request_len, ...)] on: [request_len + HEADER_LEN] is [size_t]
    arithmetic. *)
Definition GetBody (c : InetConn) : M (ReadStatus * InetConn) :=
  let request_len := header_len (read_buf_ c) in
  if u64 (request_len + HEADER_LEN) >? READ_BUFFER_SIZE then mret (kFullError, c)
  else
    '(st, c1) ← read_more c (u64 (request_len + HEADER_LEN - last_read_pos_ c));
    match st with
    | Some s => mret (s, c1)
    | None => finish request_len c1
    end.

Definition GetRequest (c : InetConn) : M (ReadStatus * InetConn) :=
  if last_read_pos_ c <? HEADER_LEN then
    '(st, c1) ← read_more c (HEADER_LEN - last_read_pos_ c);
    match st with
    | Some s => mret (s, c1)
    | None => if last_read_pos_ c1 <? HEADER_LEN then mret (kReadHalf, c1) else GetBody c1
    end
  else GetBody c.

Definition SendReply (c : InetConn) : M (WriteStatus * InetConn) :=
  nwrite ← sys_write (fd_ c) (drop (Z.to_nat (last_write_pos_ c)) (reply_ c));
  if nwrite =? -1 then
    e ← get_errno;
    mret (if e =? EAGAIN then kWriteHalf else kWriteError, c)
  else
    let wpos := last_write_pos_ c + nwrite in
    if wpos <? len (reply_ c) then mret (kWriteHalf, set_reply c wpos (reply_ c))
    else mret (kWriteAll, set_reply c 0 []).

(** ** Invariants and the abstract protocol *)

(** The bytes of the request in progress. *)
Definition buffered (c : InetConn) : list Z :=
  take (Z.to_nat (last_read_pos_ c)) (read_buf_ c).

(** A request as it travels: the length, then the payload. *)
Definition frame (msg : list Z) : list Z := le_bytes 4 (len msg) ++ msg.

Definition request_len_ok (n : Z) : Prop := 0 < n ≤ READ_BUFFER_SIZE - HEADER_LEN.

Record buf_ok (c : InetConn) : Prop := {
  buf_pos : 0 ≤ last_read_pos_ c ≤ len (read_buf_ c);
  buf_len : len (read_buf_ c) ≤ READ_BUFFER_SIZE;
  buf_bytes : all_bytes (read_buf_ c) = true
}.

(** Between two calls: past the header, the body is incomplete and fits. *)
Record read_ok (c : InetConn) : Prop := {
  read_buf_ok : buf_ok c;
  read_body : HEADER_LEN < last_read_pos_ c →
    last_read_pos_ c < HEADER_LEN + header_len (read_buf_ c) ≤ READ_BUFFER_SIZE
}.

(** A byte sequence that is not yet a whole request. *)
Definition incomplete (bs : list Z) : Prop :=
  len bs ≤ HEADER_LEN ∨ len bs < HEADER_LEN + header_len bs.

Definition write_ok (c : InetConn) : Prop := 0 ≤ last_write_pos_ c ≤ len (reply_ c).

Lemma new_InetConn_ok fd ip : read_ok (new_InetConn fd ip) ∧ write_ok (new_InetConn fd ip).
Proof.
  unfold write_ok, len.
  split; [|cbn; lia]. split; [split|]; unfold len, READ_BUFFER_SIZE, HEADER_LEN; cbn; done || lia.
Qed.

Lemma all_bytes_take n bs : all_bytes bs = true → all_bytes (take n bs) = true.
Proof. rewrite !all_bytes_Forall. apply Forall_take. Qed.

Lemma all_bytes_drop n bs : all_bytes bs = true → all_bytes (drop n bs) = true.
Proof. rewrite !all_bytes_Forall. apply Forall_drop. Qed.

Lemma all_bytes_store buf off bs :
  (off ≤ length buf)%nat → all_bytes buf = true → all_bytes bs = true →
  all_bytes (store_at buf off bs) = true.
Proof.
  intros ? ? ?. unfold store_at. rewrite resize_le, !all_bytes_app by lia.
  rewrite all_bytes_take, all_bytes_drop by done. by rewrite andb_true_iff; split; [|apply andb_true_iff].
Qed.

(** The object after [bs] arrived. *)
Definition filled (c : InetConn) (bs : list Z) : InetConn :=
  set_read c (last_read_pos_ c + len bs)
    (store_at (read_buf_ c) (Z.to_nat (last_read_pos_ c)) bs).

Lemma buffered_filled c bs : buf_ok c → buffered (filled c bs) = buffered c ++ bs.
Proof.
  intros [? ? ?]. unfold buffered, filled, len in *; cbn.
  rewrite Z2Nat.inj_add, Nat2Z.id by lia. apply take_store_at. lia.
Qed.

Lemma filled_ok c bs :
  buf_ok c → all_bytes bs = true → last_read_pos_ c + len bs ≤ READ_BUFFER_SIZE →
  buf_ok (filled c bs).
Proof.
  intros [? ? ?] ? ?. unfold filled, len in *. split; cbn.
  - unfold len. rewrite length_store_at. lia.
  - unfold len. rewrite length_store_at. lia.
  - apply all_bytes_store; [lia|done..].
Qed.

Lemma len_buffered c : buf_ok c → len (buffered c) = last_read_pos_ c.
Proof. intros [? ? ?]. unfold buffered, len in *. rewrite length_take. lia. Qed.

(** The header is fixed once its four bytes arrived. *)
Lemma header_len_buffered c :
  buf_ok c → HEADER_LEN ≤ last_read_pos_ c →
  header_len (read_buf_ c) = header_len (buffered c).
Proof.
  intros [? ? ?] ?. unfold HEADER_LEN in *. unfold header_len, buffered.
  rewrite take_take. do 2 f_equal. lia.
Qed.

Lemma header_len_filled c bs :
  buf_ok c → HEADER_LEN ≤ last_read_pos_ c →
  header_len (read_buf_ (filled c bs)) = header_len (read_buf_ c).
Proof.
  intros [? ? ?] ?. unfold HEADER_LEN, len in *. unfold header_len, filled. cbn.
  rewrite take_store_at_le by lia. done.
Qed.

Lemma header_len_range bs : - 2 ^ 31 ≤ header_len bs < 2 ^ 31.
Proof. apply i32_range. Qed.

(** What one [read] of the request does. *)
Lemma read_more_spec c n w :
  buf_ok c →
  wp (read_more c n) (λ o, match o with
    | Done (None, c') w' => ∃ bs, c' = filled c bs ∧ buf_ok c' ∧ 0 < len bs ≤ n ∧
        extends w w' [(SysRead (fd_ c) n, RData bs)]
    | Done (Some s, c') w' => c' = c ∧ ∃ r, extends w w' [(SysRead (fd_ c) n, r)] ∧
        ((s = kReadHalf ∧ r = RErr EAGAIN) ∨
         (s = kReadError ∧ ∃ e, r = RErr e ∧ e ≠ EAGAIN) ∨
         (s = kReadClose ∧ r = RData []))
    | Faulted f w' => f = BufferOverflow ∧ ∃ bs, len bs ≤ n ∧
        READ_BUFFER_SIZE < last_read_pos_ c + len bs ∧
        extends w w' [(SysRead (fd_ c) n, RData bs)]
    | Blocked w' => w' = w
    | _ => False
    end) w.
Proof.
  intros Hc. unfold read_more. wp_step. wp_step; [done|..].
  - wp_steps. split; [done|]. exists (RErr e). split; [done|].
    destruct (e =? EAGAIN) eqn:E; breflect; subst; cbn; rewrite ?Z.eqb_refl; eauto.
    cbn in *. rewrite (proj2 (Z.eqb_neq _ _) E). eauto 6.
  - pose proof (len_nonneg bs).
    rewrite (proj2 (Z.eqb_neq (len bs) (-1))) by lia. wp_step.
    + breflect. assert (bs = []) as -> by (by apply nil_length_inv; unfold len in *; lia).
      wp_step. split; [done|]. exists (RData []). split; [done|by right; right].
    + breflect. wp_step. unfold fill. wp_step; breflect; wp_steps.
      * exists bs. repeat split; try done; try lia; apply filled_ok; done.
      * split; [done|]. exists bs. repeat split; try done; lia.
Qed.

Definition same_session (c c' : InetConn) : Prop :=
  fd_ c' = fd_ c ∧ ip_port_ c' = ip_port_ c ∧ last_write_pos_ c' = last_write_pos_ c.

(** What [GetRequest] promises, in terms of all the bytes [B] of the request
    that arrived so far: buffered before the call or read by it. *)
Definition get_cases (c : InetConn) (B : list Z) (o : outcome (ReadStatus * InetConn)) : Prop :=
  match o with
  | Done (s, c') _ =>
      same_session c c' ∧ buf_ok c' ∧
      match s with
      | kReadAll =>
          B = frame (reply_ c') ∧ request_len_ok (len (reply_ c')) ∧ last_read_pos_ c' = 0
      | kReadHalf | kReadClose | kReadError =>
          B = buffered c' ∧ reply_ c' = reply_ c ∧ read_ok c' ∧ incomplete B
      | kFullError =>
          HEADER_LEN ≤ len B ∧
          (header_len B < - HEADER_LEN ∨ READ_BUFFER_SIZE < header_len B + HEADER_LEN)
      | kParseError | kDealError => False
      end
  | Blocked _ => incomplete B
  | Faulted f _ => HEADER_LEN ≤ len B ∧ - HEADER_LEN ≤ header_len B < 0
  | Exited _ _ | NoFuel _ => False
  end.

(** Which answer of the kernel a status stands for: the last call was a [read]
    that found nothing, failed, reached the end of the stream (or was asked for
    nothing, when the announced length is 0), or gave less than or all of what it
    was asked for.  [B] are the bytes of the request so far. *)
Definition last_read (fd : Z) (t : list event) (P : Z → reply → Prop) : Prop :=
  ∃ t0 n r, t = t0 ++ [(SysRead fd n, r)] ∧ P n r.

Definition get_reason (fd : Z) (B : list Z) (t : list event) (o : outcome (ReadStatus * InetConn)) : Prop :=
  match o with
  | Done (s, _) _ =>
      match s with
      | kReadHalf => last_read fd t (λ n r, r = RErr EAGAIN ∨ ∃ bs, r = RData bs ∧ 0 < len bs < n)
      | kReadError => last_read fd t (λ _ r, ∃ e, r = RErr e ∧ e ≠ EAGAIN)
      | kReadClose => last_read fd t (λ n r, r = RData [] ∧ (0 < n ∨ HEADER_LEN ≤ len B ∧ header_len B = 0))
      | kReadAll => last_read fd t (λ n r, ∃ bs, r = RData bs ∧ 0 < len bs ∧ len bs = n)
      | kFullError => t = [] ∨ last_read fd t (λ n r, ∃ bs, r = RData bs ∧ 0 < len bs ∧ len bs = n)
      | kParseError | kDealError => False
      end
  | Faulted f _ =>
      (f = BufferOverflow ∨ f = LengthError) ∧ last_read fd t (λ n r, ∃ bs, r = RData bs ∧ 0 < len bs ≤ n)
  | Blocked _ => True
  | Exited _ _ | NoFuel _ => False
  end.

Definition get_post (c : InetConn) (w : world) (o : outcome (ReadStatus * InetConn)) : Prop :=
  ∃ t, extends w (final o) t ∧ get_cases c (buffered c ++ bytes_read (fd_ c) t) o ∧
       get_reason (fd_ c) (buffered c ++ bytes_read (fd_ c) t) t o.

(** The part of it that adds up over several calls. *)
Definition get_account (c : InetConn) (w : world) (o : outcome (ReadStatus * InetConn)) : Prop :=
  ∃ t, extends w (final o) t ∧ get_cases c (buffered c ++ bytes_read (fd_ c) t) o.

Lemma last_read_after fd t t' P : last_read fd t' P → last_read fd (t ++ t') P.
Proof. intros (t0 & n & r & -> & H). exists (t ++ t0), n, r. by rewrite app_assoc. Qed.

Lemma last_read_one fd n r (P : Z → reply → Prop) : P n r → last_read fd [(SysRead fd n, r)] P.
Proof. intros H. by exists [], n, r. Qed.

Lemma last_read_mono fd t (P Q : Z → reply → Prop) :
  (∀ n r, P n r → Q n r) → last_read fd t P → last_read fd t Q.
Proof. intros H (t0 & n & r & -> & HP). exists t0, n, r. auto. Qed.

(** No call was made. *)
Lemma get_post_now c w o :
  final o = w → get_cases c (buffered c) o → get_reason (fd_ c) (buffered c) [] o → get_post c w o.
Proof. intros <- H Hr. exists []. split; [apply extends_refl|]. cbn. by rewrite app_nil_r. Qed.

Lemma get_reason_after fd B n bs t o :
  0 < len bs → len bs = n → get_reason fd B t o → get_reason fd B ([(SysRead fd n, RData bs)] ++ t) o.
Proof.
  intros Hl Hn. destruct o as [[[] ?] ?| | | |]; cbn [get_reason]; try done;
    try (apply last_read_after); [|by intros [? ?%(last_read_after _ [(SysRead fd n, RData bs)])]].
  intros [->|H]; right; [|by apply last_read_after]. apply last_read_one. eauto.
Qed.

(** After a [read] that was satisfied in full. *)
Lemma get_post_after c bs n w w1 o :
  buf_ok c → 0 < len bs → len bs = n → extends w w1 [(SysRead (fd_ c) n, RData bs)] →
  get_post (filled c bs) w1 o → get_post c w o.
Proof.
  intros Hc Hl Hn He (t & Ht & H & Hr). exists ([(SysRead (fd_ c) n, RData bs)] ++ t).
  split; [exact (extends_trans _ _ _ _ _ He Ht)|].
  rewrite bytes_read_app, bytes_read_data, app_assoc, <- buffered_filled by done.
  split; [exact H|by apply get_reason_after].
Qed.

(** After the last [read] of the call. *)
Lemma get_post_last c bs n w w1 o :
  buf_ok c → extends w w1 [(SysRead (fd_ c) n, RData bs)] → final o = w1 →
  get_cases (filled c bs) (buffered (filled c bs)) o →
  get_reason (fd_ c) (buffered (filled c bs)) [(SysRead (fd_ c) n, RData bs)] o → get_post c w o.
Proof.
  intros Hc He Hf H Hr. exists [(SysRead (fd_ c) n, RData bs)]. rewrite Hf. split; [done|].
  rewrite bytes_read_data, <- buffered_filled by done. done.
Qed.

Lemma incomplete_buffered c : read_ok c → incomplete (buffered c).
Proof.
  intros [Hb Hbody]. unfold incomplete. rewrite len_buffered by done.
  destruct (decide (last_read_pos_ c ≤ HEADER_LEN)); [by left|right].
  rewrite <- header_len_buffered by (done || lia). lia.
Qed.

Lemma read_ok_short c : buf_ok c → last_read_pos_ c ≤ HEADER_LEN → read_ok c.
Proof. intros ? ?. split; [done|lia]. Qed.

(** The payload cut out of the buffer makes the buffered bytes a frame. *)
Lemma frame_complete c n :
  buf_ok c → 0 ≤ n → header_len (read_buf_ c) = n → last_read_pos_ c = HEADER_LEN + n →
  let rep := take (Z.to_nat n) (drop (Z.to_nat HEADER_LEN) (read_buf_ c)) in
  buffered c = frame rep ∧ len rep = n.
Proof.
  intros [? ? ?] Hn Hh Hp rep. unfold HEADER_LEN in *.
  assert (len rep = n) as Hl.
  { unfold rep, len in *. rewrite length_take, length_drop. lia. }
  split; [|done]. unfold frame. rewrite Hl.
  assert (le_bytes 4 n = take 4 (read_buf_ c)) as ->.
  { rewrite <- Hh. apply le_bytes_int; [by apply all_bytes_take| |unfold header_len in *; lia].
    unfold len in *. rewrite length_take. lia. }
  unfold buffered, rep. rewrite Hp.
  replace (Z.to_nat (4 + n)) with (4 + Z.to_nat n)%nat by lia.
  by rewrite take_take_drop.
Qed.

Lemma bytes_read_none fd n r :
  match r with RData (_ :: _) => False | _ => True end →
  bytes_read fd [(SysRead fd n, r)] = [].
Proof. destruct r as [| |[|]| | | | |]; cbn; try done. by case_bool. Qed.

(** A read that added nothing ends the call with the object unchanged. *)
Lemma get_post_stop c s r n w w1 :
  read_ok c → 0 < n ∨ HEADER_LEN ≤ len (buffered c) ∧ header_len (buffered c) = 0 → extends w w1 [(SysRead (fd_ c) n, r)] →
  (s = kReadHalf ∧ r = RErr EAGAIN) ∨
  (s = kReadError ∧ ∃ e, r = RErr e ∧ e ≠ EAGAIN) ∨
  (s = kReadClose ∧ r = RData []) →
  get_post c w (Done (s, c) w1).
Proof.
  intros Hc Hn He Hr. exists [(SysRead (fd_ c) n, r)]. split; [done|].
  pose proof (incomplete_buffered c Hc). pose proof (read_buf_ok c Hc).
  destruct Hr as [[-> ->]|[[-> (e & -> & He')]|[-> ->]]];
    rewrite bytes_read_none, app_nil_r by done; (split; [done|apply last_read_one; eauto]).
Qed.

(** The [size_t] guard [request_len + HEADER_LEN > READ_BUFFER_SIZE] accepts
    the four negative lengths too. *)
Lemma length_guard h :
  - 2 ^ 31 ≤ h < 2 ^ 31 →
  (u64 (h + HEADER_LEN) >? READ_BUFFER_SIZE) = false ↔
  - HEADER_LEN ≤ h ≤ READ_BUFFER_SIZE - HEADER_LEN.
Proof.
  intros Hr. rewrite Z.gtb_ltb, Z.ltb_ge. unfold HEADER_LEN, READ_BUFFER_SIZE.
  destruct (decide (h + 4 < 0)); [rewrite u64_negative by lia|rewrite u64_small by lia]; lia.
Qed.

(** [finish] decides on what is there. *)
Definition finish_cases (c : InetConn) (h : Z) (w : world) (o : outcome (ReadStatus * InetConn)) : Prop :=
  final o = w ∧ get_cases c (buffered c) o ∧
  match o with
  | Done (kReadHalf, _) _ => last_read_pos_ c < HEADER_LEN + h
  | Done (kReadAll, _) _ => last_read_pos_ c = HEADER_LEN + h
  | Faulted f _ => f = LengthError
  | _ => False
  end.

Lemma finish_spec c w h :
  buf_ok c → header_len (read_buf_ c) = h → HEADER_LEN < last_read_pos_ c →
  - HEADER_LEN ≤ h ≤ READ_BUFFER_SIZE - HEADER_LEN →
  (0 ≤ h → last_read_pos_ c ≤ HEADER_LEN + h) →
  wp (finish h c) (finish_cases c h w) w.
Proof.
  intros Hb Hh Hp Hg Hle. unfold finish, HEADER_LEN, READ_BUFFER_SIZE in *.
  rewrite (u64_small (4 + h)) by lia. unfold request_string.
  wp_step; breflect; [|wp_step; wp_step; breflect]; wp_steps; (split; [done|split; [|unfold HEADER_LEN; try done; try lia]]).
  - assert (read_ok c) by (split; [done|]; unfold HEADER_LEN, READ_BUFFER_SIZE; lia).
    split_and!; [done..|by apply incomplete_buffered].
  - assert (0 ≤ h).
    { destruct (decide (h < 0)); [|lia]. exfalso.
      rewrite u64_negative in Heqb0 by lia. lia. }
    destruct (frame_complete c h) as [Hf Hl]; unfold HEADER_LEN; try done; [lia|].
    destruct Hb. split_and!; [done|split; cbn; done || lia|done| |done].
    unfold request_len_ok, READ_BUFFER_SIZE, HEADER_LEN in *. cbn. lia.
  - destruct (decide (h < 0)); [|lia]. exfalso. rewrite u64_negative in Heqb0 by lia. lia.
  - cbn. rewrite len_buffered, <- header_len_buffered by (done || unfold HEADER_LEN; lia).
    unfold HEADER_LEN. destruct (decide (h < 0)); [lia|].
    rewrite u64_small in Heqb0 by lia. lia.
Qed.

(** The status follows from the last [read], which asked for the rest. *)
Lemma finish_reason c B bs n h w1 o :
  0 < len bs ≤ n → (0 ≤ h → n = h + HEADER_LEN - last_read_pos_ c) → HEADER_LEN ≤ last_read_pos_ c →
  finish_cases (filled c bs) h w1 o → get_reason (fd_ c) B [(SysRead (fd_ c) n, RData bs)] o.
Proof.
  intros Hl Hn Hp (_ & _ & Ho). change (last_read_pos_ (filled c bs)) with (last_read_pos_ c + len bs) in Ho.
  destruct o as [[[] ?] ?| | | |]; try done; cbn [get_reason].
  - apply last_read_one. right. exists bs. split; [done|]. specialize (Hn ltac:(lia)). lia.
  - apply last_read_one. exists bs. split_and!; [done|lia|]. specialize (Hn ltac:(lia)). lia.
  - split; [by right|]. apply last_read_one. eauto.
Qed.

Lemma GetBody_spec c w :
  read_ok c → HEADER_LEN ≤ last_read_pos_ c → wp (GetBody c) (get_post c w) w.
Proof.
  intros Hc Hp. pose proof (read_buf_ok c Hc) as Hb. unfold GetBody. cbn zeta.
  pose proof (header_len_range (read_buf_ c)) as Hr.
  pose proof (header_len_buffered c Hb Hp) as Hh.
  pose proof (len_buffered c Hb) as Hl.
  pose proof (read_body c Hc) as Hbody.
  set (h := header_len (read_buf_ c)) in *.
  destruct (u64 (h + HEADER_LEN) >? READ_BUFFER_SIZE) eqn:Hg.
  { wp_step. apply get_post_now; [done| |by left]. split; [done|]. split; [done|]. rewrite Hl, <- Hh.
    pose proof (length_guard h Hr) as [_ Hg']. rewrite Hg in Hg'. lia. }
  apply length_guard in Hg; [|done].
  assert (0 ≤ h → u64 (h + HEADER_LEN - last_read_pos_ c) = h + HEADER_LEN - last_read_pos_ c) as Hn.
  { intros ?. apply u64_small. destruct (buf_pos c Hb). unfold HEADER_LEN, READ_BUFFER_SIZE in *. lia. }
  wp_step. eapply wp_mono; [by apply read_more_spec|].
  intros [[[s|] c1] w1| |f w1|w1|] Hm; try done.
  - destruct Hm as (-> & r & He & Hrd). wp_step. eapply get_post_stop; [done| |exact He|done].
    rewrite <- Hh, Hl. destruct (decide (h = 0)); [by right|left]. destruct (decide (0 < h)).
    { rewrite Hn by lia. destruct (decide (HEADER_LEN < last_read_pos_ c)) as [Hlt|]; [specialize (Hbody Hlt)|]; lia. }
    destruct Hb as [? ? _]. unfold HEADER_LEN, READ_BUFFER_SIZE in *. rewrite u64_negative by lia. lia.
  - destruct Hm as (bs & -> & Hb1 & Hbs & He).
    assert (last_read_pos_ (filled c bs) = last_read_pos_ c + len bs) by done.
    eapply wp_mono; [apply (finish_spec (filled c bs) w1 h); [done|by apply header_len_filled|lia..]|].
    intros o Ho. pose proof (finish_reason c (buffered (filled c bs)) bs _ h w1 o Hbs Hn Hp Ho).
    destruct Ho as (? & ? & _). by eapply get_post_last.
  - destruct Hm as (-> & bs & Hbs & Hov & He). eexists. split; [exact He|].
    rewrite bytes_read_data. split.
    + unfold get_cases. rewrite len_app, Hl.
      assert (header_len (buffered c ++ bs) = h) as ->.
      { rewrite Hh. unfold header_len. rewrite take_app_le; [done|]. unfold len, HEADER_LEN in *. lia. }
      pose proof (len_nonneg bs). lia.
    + split; [by left|]. apply last_read_one. exists bs. destruct Hb as [Hb1 Hb2 _]. split; [done|lia].
  - subst. apply get_post_now; [done|by apply incomplete_buffered|done].
Qed.

Lemma GetRequest_post c w : read_ok c → wp (GetRequest c) (get_post c w) w.
Proof.
  intros Hc. pose proof (read_buf_ok c Hc) as Hb. unfold GetRequest.
  wp_step; breflect; [|by apply GetBody_spec].
  wp_step. eapply wp_mono; [by apply read_more_spec|].
  intros [[[s|] c1] w1| |f w1|w1|] Hm; try done.
  - destruct Hm as (-> & r & He & Hrd). wp_step. eapply (get_post_stop _ _ _ _ _ _ Hc); [|exact He|done]. left. lia.
  - destruct Hm as (bs & -> & Hb1 & Hbs & He).
    assert (last_read_pos_ (filled c bs) = last_read_pos_ c + len bs) by done.
    assert (read_ok (filled c bs)) as Hr1 by (apply read_ok_short; [done|lia]).
    wp_step; breflect.
    + wp_step. eapply get_post_last; [done..| |].
      * split_and!; [done..|by apply incomplete_buffered].
      * apply last_read_one. right. exists bs. split; [done|lia].
    + assert (len bs = HEADER_LEN - last_read_pos_ c) as Hn by lia.
      eapply wp_mono; [|intros o; exact (get_post_after c bs _ w w1 o Hb (proj1 Hbs) Hn He)].
      by apply GetBody_spec.
  - destruct Hm as (-> & bs & Hbs & Hov & He). exfalso.
    unfold READ_BUFFER_SIZE, HEADER_LEN in *. lia.
  - subst. apply get_post_now; [done|by apply incomplete_buffered|done].
Qed.

Lemma GetRequest_spec c w : read_ok c → wp (GetRequest c) (get_account c w) w.
Proof. intros Hc. eapply wp_mono; [by apply GetRequest_post|]. intros o (t & ? & ? & _). by exists t. Qed.

(** ** Collecting a request over several calls

    [receive] is what the event loop does with a connection: it calls
    [GetRequest] again as long as the request is incomplete. *)
Definition receive (c : InetConn) : M (ReadStatus * InetConn) :=
  loop (λ c,
    '(st, c') ← GetRequest c;
    mret (if decide (st = kReadHalf) then inl c' else inr (st, c'))) c.

(** [get_account] of a later call is [get_account] of the whole. *)
Lemma get_account_half c c1 w w1 o :
  get_account c w (Done (kReadHalf, c1) w1) → get_account c1 w1 o → get_account c w o.
Proof.
  intros (t & He & (Hs & Hb & HB & Hrep & Hr & _)) (t1 & He1 & Ho).
  destruct Hs as (Hfd & Hip & Hwp).
  exists (t ++ t1). split; [exact (extends_trans _ _ _ _ _ He He1)|].
  rewrite bytes_read_app, app_assoc, HB, <- Hfd. unfold get_cases, same_session in *.
  rewrite <- Hfd, <- Hip, <- Hwp, <- Hrep. exact Ho.
Qed.

#[export] Instance honest_read_more c n : Honest (read_more c n).
Proof. unfold read_more, fill. solve_honest. Qed.

#[export] Instance honest_finish h c : Honest (finish h c).
Proof. unfold finish, request_string. solve_honest. Qed.

#[export] Instance honest_GetBody c : Honest (GetBody c).
Proof. unfold GetBody. solve_honest. Qed.

#[export] Instance honest_GetRequest c : Honest (GetRequest c).
Proof. unfold GetRequest. solve_honest. Qed.

#[export] Instance honest_SendReply c : Honest (SendReply c).
Proof. unfold SendReply. solve_honest. Qed.

#[export] Instance quiet_GetRequest c : Quiet (GetRequest c).
Proof. unfold GetRequest, GetBody, read_more, fill, finish, request_string. solve_emits. Qed.

#[export] Instance reads_GetRequest c : Emits is_read (GetRequest c).
Proof. unfold GetRequest, GetBody, read_more, fill, finish, request_string. solve_emits. Qed.

#[export] Instance writes_SendReply c : Emits is_write (SendReply c).
Proof. unfold SendReply. solve_emits. Qed.

#[export] Instance quiet_SendReply c : Quiet (SendReply c).
Proof. unfold SendReply. solve_emits. Qed.

Lemma read_more_consumes c n : consumes (read_more c n).
Proof.
  unfold read_more, sys_read, fill. apply consumes_bind_l; [|intros; solve_honest].
  apply consumes_bind_l; [apply consumes_call|intros; solve_honest].
Qed.

(** An incomplete request cost at least one [read]. *)
Lemma GetRequest_half_consumes c w c' w' :
  GetRequest c w = Done (kReadHalf, c') w' →
  (length (script w') < length (script w))%nat.
Proof.
  destruct (last_read_pos_ c <? HEADER_LEN) eqn:Hp;
    [|destruct (u64 (header_len (read_buf_ c) + HEADER_LEN) >? READ_BUFFER_SIZE) eqn:Hg].
  - assert (consumes (GetRequest c)) as H.
    { unfold GetRequest. rewrite Hp.
      apply consumes_bind_l; [apply read_more_consumes|intros; solve_honest]. }
    specialize (H w). intros E. by rewrite E in H.
  - unfold GetRequest, GetBody. rewrite Hp, Hg. done.
  - assert (consumes (GetRequest c)) as H.
    { unfold GetRequest, GetBody. rewrite Hp, Hg.
      apply consumes_bind_l; [apply read_more_consumes|intros; solve_honest]. }
    specialize (H w). intros E. by rewrite E in H.
Qed.

Definition not_half (o : outcome (ReadStatus * InetConn)) : Prop :=
  match o with Done (kReadHalf, _) _ => False | _ => True end.

Lemma receive_spec c w :
  read_ok c → wp (receive c) (λ o, get_account c w o ∧ not_half o) w.
Proof.
  intros Hc. unfold receive.
  apply (loop_rule _ (λ c1 w1, read_ok c1 ∧ ∀ o, get_account c1 w1 o → get_account c w o));
    [|by split].
  intros c1 w1 [Hc1 Hpost]. wp_step.
  pose proof (GetRequest_spec c1 w1 Hc1) as Hg. unfold wp in Hg |- *.
  destruct (GetRequest c1 w1) as [[st c2] w2| |f w2|w2|] eqn:E; try (split; [by apply Hpost|done]).
  unfold mret, M_ret.
  destruct (decide (st = kReadHalf)) as [->|]; [|split; [by apply Hpost|by destruct st]].
  split; [split|by eapply GetRequest_half_consumes].
  - destruct Hg as (t & _ & _ & _ & _ & _ & Hr & _). done.
  - intros o Ho. apply Hpost. by eapply get_account_half.
Qed.

(** Two prefixes of one stream: what arrived so far determines the header. *)
Lemma stream_header B x msg rest :
  request_len_ok (len msg) → B ++ x = frame msg ++ rest → HEADER_LEN ≤ len B →
  header_len B = len msg.
Proof.
  intros Hm HB Hl. unfold request_len_ok, READ_BUFFER_SIZE, HEADER_LEN, len in *.
  assert (take 4 B = le_bytes 4 (Z.of_nat (length msg))) as Ht.
  { rewrite <- (take_app_le B x), HB by lia. unfold frame. rewrite <- app_assoc.
    by rewrite take_app_length' by (by rewrite length_le_bytes). }
  unfold header_len. rewrite Ht. apply le_int_bytes. lia.
Qed.

Lemma len_frame msg : len (frame msg) = HEADER_LEN + len msg.
Proof. unfold frame. by rewrite len_app. Qed.

Lemma frame_stream_inj msg msg' rest rest' :
  request_len_ok (len msg) → request_len_ok (len msg') →
  frame msg ++ rest = frame msg' ++ rest' → msg = msg' ∧ rest = rest'.
Proof.
  intros Hm Hm' H. pose proof (len_nonneg msg).
  pose proof (stream_header _ _ _ _ Hm' H) as Hh.
  rewrite (stream_header (frame msg) rest msg rest Hm eq_refl) in Hh by (rewrite len_frame; lia).
  rewrite len_frame in Hh. specialize (Hh ltac:(lia)).
  unfold frame in H. rewrite Hh, <- !app_assoc in H. apply app_inv_head in H.
  apply app_inj_1 in H; [done|]. unfold len in Hh. lia.
Qed.

(** ** Sending the reply *)
Definition transmit (c : InetConn) : M (WriteStatus * InetConn) :=
  loop (λ c,
    '(st, c') ← SendReply c;
    mret (if decide (st = kWriteHalf) then inl c' else inr (st, c'))) c.

(** The part of the reply still to be sent. *)
Definition pending (c : InetConn) : list Z := drop (Z.to_nat (last_write_pos_ c)) (reply_ c).

Definition send_cases (c : InetConn) (out : list Z) (o : outcome (WriteStatus * InetConn)) : Prop :=
  match o with
  | Done (kWriteAll, c') _ =>
      out = pending c ∧ reply_ c' = [] ∧ last_write_pos_ c' = 0 ∧
      fd_ c' = fd_ c ∧ last_read_pos_ c' = last_read_pos_ c ∧ read_buf_ c' = read_buf_ c
  | Done (_, c') _ =>
      pending c = out ++ pending c' ∧ write_ok c' ∧ reply_ c' = reply_ c ∧
      fd_ c' = fd_ c ∧ last_read_pos_ c' = last_read_pos_ c ∧ read_buf_ c' = read_buf_ c
  | Blocked _ => ∃ rest, pending c = out ++ rest
  | _ => False
  end.

Definition send_post (c : InetConn) (w : world) (o : outcome (WriteStatus * InetConn)) : Prop :=
  ∃ t, extends w (final o) t ∧ send_cases c (bytes_written (fd_ c) t) o.

Lemma SendReply_spec c w : write_ok c → wp (SendReply c) (send_post c w) w.
Proof.
  intros Hw. unfold SendReply. fold (pending c). wp_step. wp_step.
  - exists []. split; [apply extends_refl|]. by exists (pending c).
  - wp_steps. eexists. split; [apply extends_answered|]. by destruct (_ =? EAGAIN).
  - unfold write_ok, pending, len in *. rewrite length_drop in Hk.
    rewrite (proj2 (Z.eqb_neq k (-1))) by lia. cbn zeta.
    wp_step; breflect; wp_step; (eexists; split; [apply extends_answered|]);
      rewrite bytes_written_int; cbn.
    + split_and!; try done; [|unfold write_ok, len; cbn; lia..].
      unfold pending; cbn. rewrite <- (take_drop (Z.to_nat k) (drop _ (reply_ c))) at 1.
      f_equal. rewrite drop_drop. f_equal. lia.
    + split_and!; try done. unfold pending. apply take_ge. rewrite length_drop.
      unfold len in *. lia.
Qed.

(** After a part of the reply, there is a rest. *)
Lemma SendReply_half c w c' w' :
  write_ok c → SendReply c w = Done (kWriteHalf, c') w' → pending c ≠ [] → pending c' ≠ [].
Proof.
  intros [Hw _] E Hne. enough (wp (SendReply c) (λ o, match o with
    | Done (kWriteHalf, c') _ => pending c' ≠ [] | _ => True end) w) as H by (unfold wp in H; by rewrite E in H).
  unfold SendReply. fold (pending c). wp_step. wp_step; [done|wp_steps; by case_bool|].
  rewrite (proj2 (Z.eqb_neq k (-1))) by lia. cbn zeta. wp_step; breflect; wp_step; [|done].
  unfold pending; cbn. intros H%(f_equal length). rewrite length_drop in H. cbn in H. unfold len in *. lia.
Qed.

Lemma SendReply_error c w c' w' :
  SendReply c w = Done (kWriteError, c') w' →
  ∃ e, extends w w' [(SysWrite (fd_ c) (pending c), RErr e)] ∧ e ≠ EAGAIN.
Proof.
  intros E. enough (wp (SendReply c) (λ o, match o with
    | Done (kWriteError, _) w' => ∃ e, extends w w' [(SysWrite (fd_ c) (pending c), RErr e)] ∧ e ≠ EAGAIN
    | _ => True end) w) as H by (unfold wp in H; by rewrite E in H).
  unfold SendReply. fold (pending c). wp_step. wp_step; [done| |].
  - wp_steps. change (errno (answered _ (RErr e) w)) with e. case_bool; [done|]. breflect. exists e.
    split; [apply extends_answered|done].
  - rewrite (proj2 (Z.eqb_neq k (-1))) by lia. cbn zeta. wp_step; by wp_step.
Qed.

Lemma send_post_half c c1 w w1 o :
  send_post c w (Done (kWriteHalf, c1) w1) → send_post c1 w1 o → send_post c w o.
Proof.
  intros (t & He & (Hp & _ & Hr & Hfd & Hpos & Hbuf)) (t1 & He1 & Ho).
  exists (t ++ t1). split; [exact (extends_trans _ _ _ _ _ He He1)|].
  rewrite bytes_written_app, <- Hfd. unfold send_cases in *.
  rewrite <- Hfd in Hp. rewrite <- Hfd, <- Hpos, <- Hbuf.
  destruct o as [[[] c2] w2| | |w2|]; try done.
  - destruct Ho as (Ho & ? & ?). rewrite <- app_assoc, Hp, <- Ho, <- Hr. done.
  - destruct Ho as (Ho & ?). rewrite Hp, <- Ho. done.
  - destruct Ho as (Ho & ? & ?). rewrite <- app_assoc, Hp, <- Ho, <- Hr. done.
  - destruct Ho as [rest Ho]. exists rest. by rewrite <- app_assoc, Hp, <- Ho.
Qed.

Lemma transmit_spec c w : write_ok c → wp (transmit c) (send_post c w) w.
Proof.
  intros Hc. unfold transmit.
  apply (loop_rule _ (λ c1 w1, write_ok c1 ∧ ∀ o, send_post c1 w1 o → send_post c w o));
    [|by split].
  intros c1 w1 [Hc1 Hpost]. wp_step.
  pose proof (SendReply_spec c1 w1 Hc1) as Hg.
  assert (consumes (SendReply c1)) as Hs.
  { unfold SendReply, sys_write, call_int. apply consumes_bind_l; [|intros; solve_honest].
    apply consumes_bind_l; [apply consumes_call|apply _]. }
  specialize (Hs w1). unfold wp in Hg |- *.
  destruct (SendReply c1 w1) as [[st c2] w2| |f w2|w2|] eqn:E; try (by apply Hpost).
  unfold mret, M_ret. destruct (decide (st = kWriteHalf)) as [->|]; [|by apply Hpost].
  split; [split|done].
  - by destruct Hg as (t & _ & _ & Hr & _).
  - intros o Ho. apply Hpost. by eapply send_post_half.
Qed.

(** The answers that make [read_more] and [finish] go through. *)
Lemma read_more_data c n bs s w :
  script w = RData bs :: s → 0 < len bs ≤ n → all_bytes bs = true →
  last_read_pos_ c + len bs ≤ READ_BUFFER_SIZE →
  read_more c n w = Done (None, filled c bs) (answered (SysRead (fd_ c) n) (RData bs) w).
Proof.
  intros Hs [Hl Hn] Hb Hcap. unfold read_more, sys_read, call, fill, mbind, M_bind, mret, M_ret.
  rewrite Hs. cbn [answers]. rewrite (proj2 (Z.leb_le _ _) Hn), Hb. cbn [andb ret_of].
  rewrite (proj2 (Z.eqb_neq (len bs) (-1))), (proj2 (Z.eqb_neq (len bs) 0)) by lia.
  by rewrite (proj2 (Z.leb_le _ _) Hcap).
Qed.

Lemma finish_complete c h w :
  0 ≤ h ≤ READ_BUFFER_SIZE → last_read_pos_ c = HEADER_LEN + h →
  finish h c w =
    Done (kReadAll, set_read (set_reply c (last_write_pos_ c)
                      (take (Z.to_nat h) (drop 4 (read_buf_ c)))) 0 (read_buf_ c)) w.
Proof.
  intros Hh Hp. unfold finish, request_string, HEADER_LEN, READ_BUFFER_SIZE in *. rewrite Hp.
  rewrite !u64_small by lia. rewrite Z.ltb_irrefl.
  rewrite (proj2 (Z.leb_le h (2 ^ 63 - 1))) by lia. done.
Qed.

(** ** One request, one reply *)
Definition serve_request (c : InetConn) : M (ReadStatus * option WriteStatus * InetConn) :=
  '(st, c) ← receive c;
  if decide (st = kReadAll) then '(ws, c) ← transmit c; mret (st, Some ws, c)
  else mret (st, None, c).

#[export] Instance reads_receive c : Emits is_read (receive c).
Proof. unfold receive. solve_emits. Qed.

#[export] Instance writes_transmit c : Emits is_write (transmit c).
Proof. unfold transmit. solve_emits. Qed.

Lemma write_ok_start c : last_write_pos_ c = 0 → write_ok c.
Proof. intros H. unfold write_ok. rewrite H. split; [done|apply len_nonneg]. Qed.

Lemma serve_request_spec c w c' w' :
  read_ok c → buffered c = [] → last_write_pos_ c = 0 →
  serve_request c w = Done (kReadAll, Some kWriteAll, c') w' →
  ∃ t, extends w w' t ∧
    bytes_read (fd_ c) t = frame (bytes_written (fd_ c) t) ∧
    request_len_ok (len (bytes_written (fd_ c) t)) ∧
    read_ok c' ∧ buffered c' = [] ∧ reply_ c' = [] ∧ last_write_pos_ c' = 0.
Proof.
  intros Hc Hb Hw E. unfold serve_request, mbind, M_bind in E.
  destruct (receive_spec c w Hc) as [(t1 & He1 & Hr) _].
  pose proof (emits_extends is_read (receive c) w t1 He1) as H1.
  destruct (receive c w) as [[st c1] w1| | | |]; try done.
  destruct (decide (st = kReadAll)) as [->|]; [|done].
  destruct Hr as ((Hfd & _ & Hwp) & Hb1 & HF & Hok & Hp1).
  assert (write_ok c1) as Hwo by (apply write_ok_start; congruence).
  destruct (transmit_spec c1 w1 Hwo) as (t2 & He2 & Hs).
  pose proof (emits_extends is_write (transmit c1) w1 t2 He2) as H2.
  destruct (transmit c1 w1) as [[ws c2] w2| | | |]; try done. injection E as -> -> ->.
  destruct Hs as (Hout & Hrep & Hpos & _ & Hp2 & Hb2).
  exists (t1 ++ t2). split; [exact (extends_trans _ _ _ _ _ He1 He2)|].
  rewrite bytes_read_app, bytes_written_app, (only_read_written _ _ H1), (only_write_read _ _ H2).
  rewrite app_nil_r, app_nil_l. rewrite Hb in HF. cbn [app] in HF. rewrite <- Hfd, Hout. unfold pending.
  rewrite Hwp, Hw, drop_0. split; [by rewrite Hfd|]. split; [done|].
  assert (last_read_pos_ c' = 0) as Hz by congruence.
  split_and!; try done; [|unfold buffered; by rewrite Hz].
  apply read_ok_short; [|by rewrite Hz]. destruct Hb1. split; rewrite ?Hp2, ?Hb2; done.
Qed.

(** ** Properties *)

(** C13: whatever [read] answers, a call of [GetRequest] on a well-formed
    connection accounts for every byte and for the status it returns.
    [kReadAll]: the bytes of the request so far are exactly the frame of the
    stored reply and the last [read] gave all it was asked for.  [kReadHalf],
    [kReadError], [kReadClose]: all of them are in the buffer and do not make a
    request yet, and the last [read] would block ([EAGAIN]) or fell short, failed
    with another error, or gave no byte (because the stream ended, or because the
    announced length is 0), in this order.  [kFullError]: the
    announced length does not fit.  The only faults, a buffer overflow or
    [std::length_error], are those of a length from -4 to -1. *)
Theorem GetRequest_correct c w : read_ok c → get_post c w (GetRequest c w).
Proof. exact (GetRequest_post c w). Qed.

Lemma GetRequest_correct_witness :
  get_post (new_InetConn 7 "c") (World [RData [2; 0]; RErr EAGAIN] 0 [])
    (GetRequest (new_InetConn 7 "c") (World [RData [2; 0]; RErr EAGAIN] 0 [])).
Proof. apply GetRequest_correct. apply new_InetConn_ok. Defined.

(** C14: fragmentation does not matter.  If the peer sent the frame of [msg]
    (and possibly more), then however the kernel cuts the stream into pieces,
    calling [GetRequest] until the request is complete yields [msg], consumes
    exactly its frame and leaves the bytes of the next request in the socket;
    before that the connection can only fail by an error or the end of the
    stream, and it never reports a full buffer or overruns it. *)
Theorem receive_any_fragmentation c w msg rest :
  read_ok c → buffered c = [] → request_len_ok (len msg) →
  ∃ t, extends w (final (receive c w)) t ∧
  ∀ rest', bytes_read (fd_ c) t ++ rest' = frame msg ++ rest →
  match receive c w with
  | Done (kReadAll, c') _ => reply_ c' = msg ∧ rest' = rest
  | Done (kReadClose, _) _ | Done (kReadError, _) _ | Blocked _ =>
      incomplete (bytes_read (fd_ c) t)
  | _ => False
  end.
Proof.
  intros Hc Hbuf Hm. destruct (receive_spec c w Hc) as [(t & He & Hcases) Hnh].
  exists t. split; [done|]. intros rest' HB. rewrite Hbuf in Hcases. cbn [app] in Hcases.
  pose proof (stream_header _ _ _ _ Hm HB) as Hh. unfold request_len_ok in Hm.
  destruct (receive c w) as [[st c'] w'| |f w'|w'|]; cbn in Hcases; try done;
    [|destruct Hcases as [Hl ?]; rewrite (Hh Hl) in *; lia].
  destruct Hcases as (_ & _ & Hcases).
  destruct st; try done; [|by destruct Hcases as (_ & _ & _ & ?)..|].
  2: { destruct Hcases as [Hl ?]. rewrite (Hh Hl) in *. unfold HEADER_LEN in *. lia. }
  destruct Hcases as (HF & Hok & _). rewrite HF in HB.
  by apply frame_stream_inj in HB as [-> ->].
Qed.

Lemma receive_any_fragmentation_witness :
  ∃ t, extends (World [RData [2]; RErr EAGAIN; RData [0; 0; 0]; RData [104]; RData [105]] 0 [])
    (final (receive (new_InetConn 7 "c")
       (World [RData [2]; RErr EAGAIN; RData [0; 0; 0]; RData [104]; RData [105]] 0 []))) t ∧
  ∀ rest', bytes_read 7 t ++ rest' = frame [104; 105] ++ [9; 9] →
  match receive (new_InetConn 7 "c")
          (World [RData [2]; RErr EAGAIN; RData [0; 0; 0]; RData [104]; RData [105]] 0 []) with
  | Done (kReadAll, c') _ => reply_ c' = [104; 105] ∧ rest' = [9; 9]
  | Done (kReadClose, _) _ | Done (kReadError, _) _ | Blocked _ => incomplete (bytes_read 7 t)
  | _ => False
  end.
Proof.
  apply (receive_any_fragmentation (new_InetConn 7 "c")).
  - apply new_InetConn_ok.
  - reflexivity.
  - split; [reflexivity|discriminate].
Defined.

(** Sending.  However [write] splits the reply, repeating [SendReply] until
    it is complete sends exactly the part of the reply that was not sent yet,
    in order and once; an error or an unfinished run has sent a prefix of it. *)
Theorem transmit_exact c w :
  write_ok c →
  ∃ t, extends w (final (transmit c w)) t ∧
       send_cases c (bytes_written (fd_ c) t) (transmit c w).
Proof. exact (transmit_spec c w). Qed.

Lemma transmit_exact_witness :
  ∃ t, extends (World [RInt 1; RErr EAGAIN; RInt 2] 0 [])
         (final (transmit (set_reply (new_InetConn 7 "c") 0 [1; 2; 3])
                   (World [RInt 1; RErr EAGAIN; RInt 2] 0 []))) t ∧
       send_cases (set_reply (new_InetConn 7 "c") 0 [1; 2; 3]) (bytes_written 7 t)
         (transmit (set_reply (new_InetConn 7 "c") 0 [1; 2; 3])
            (World [RInt 1; RErr EAGAIN; RInt 2] 0 [])).
Proof.
  apply (transmit_exact (set_reply (new_InetConn 7 "c") 0 [1; 2; 3])).
  split; discriminate.
Defined.

(** A connection between two requests that gets the header and then the payload
    of a frame. *)
Lemma GetRequest_whole c msg s w :
  buf_ok c → last_read_pos_ c = 0 → script w = RData (le_bytes 4 (len msg)) :: RData msg :: s →
  request_len_ok (len msg) → all_bytes msg = true →
  ∃ c', GetRequest c w = Done (kReadAll, c') (answered (SysRead (fd_ c) (len msg)) (RData msg)
      (answered (SysRead (fd_ c) HEADER_LEN) (RData (le_bytes 4 (len msg))) w)) ∧
    reply_ c' = msg ∧ last_read_pos_ c' = 0 ∧ fd_ c' = fd_ c ∧ last_write_pos_ c' = last_write_pos_ c.
Proof.
  intros Hb Hp Hs Hm Hby. unfold request_len_ok, READ_BUFFER_SIZE, HEADER_LEN in Hm.
  set (hdr := le_bytes 4 (len msg)) in *. assert (len hdr = 4) as Hl by done.
  set (w1 := answered (SysRead (fd_ c) HEADER_LEN) (RData hdr) w).
  assert (buf_ok (filled c hdr)) as Hb1
    by (apply filled_ok; [done|apply le_bytes_all|unfold READ_BUFFER_SIZE; lia]).
  assert (last_read_pos_ (filled c hdr) = 4) as Hp1
    by (change (last_read_pos_ c + len hdr = 4); lia).
  assert (header_len (read_buf_ (filled c hdr)) = len msg) as Hh1.
  { rewrite header_len_buffered, buffered_filled by (done || unfold HEADER_LEN; lia).
    unfold buffered. rewrite Hp. cbn [take Z.to_nat app]. unfold header_len. rewrite take_ge by done.
    apply le_int_bytes. lia. }
  unfold GetRequest. rewrite Hp. change (0 <? HEADER_LEN) with true. cbn beta iota.
  rewrite (bind_done _ _ w (None, filled c hdr) w1); cycle 1.
  { change (HEADER_LEN - 0) with HEADER_LEN. unfold w1. eapply read_more_data;
      [exact Hs|unfold HEADER_LEN; lia|apply le_bytes_all|unfold READ_BUFFER_SIZE; lia]. }
  cbn beta iota. rewrite Hp1. change (4 <? HEADER_LEN) with false. cbn beta iota.
  unfold GetBody. cbn zeta. rewrite Hh1, Hp1.
  rewrite (proj2 (length_guard (len msg) ltac:(lia))) by (unfold READ_BUFFER_SIZE, HEADER_LEN; lia).
  cbn beta iota. replace (u64 (len msg + HEADER_LEN - 4)) with (len msg) by (rewrite u64_small; unfold HEADER_LEN; lia).
  rewrite (bind_done _ _ w1 (None, filled (filled c hdr) msg) (answered (SysRead (fd_ c) (len msg)) (RData msg) w1));
    cycle 1.
  { apply (read_more_data (filled c hdr) _ msg s); [|lia|done|unfold READ_BUFFER_SIZE; lia].
    unfold w1. cbn. by rewrite Hs. }
  assert (buf_ok (filled (filled c hdr) msg)) as Hb2
    by (apply filled_ok; [done..|unfold READ_BUFFER_SIZE; lia]).
  assert (last_read_pos_ (filled (filled c hdr) msg) = HEADER_LEN + len msg) as Hp2
    by (change (last_read_pos_ (filled c hdr) + len msg = HEADER_LEN + len msg); unfold HEADER_LEN; lia).
  cbn beta iota. rewrite finish_complete by (done || unfold READ_BUFFER_SIZE; lia).
  eexists. split; [reflexivity|]. split_and!; try done. cbn [reply_ set_reply set_read].
  destruct (frame_complete (filled (filled c hdr) msg) (len msg)) as [Hf Hlr]; try done; [lia|..].
  { rewrite header_len_filled by (done || unfold HEADER_LEN; lia). done. }
  rewrite !buffered_filled in Hf by done. unfold buffered in Hf. rewrite Hp in Hf. cbn [take Z.to_nat app] in Hf.
  unfold frame in Hf. rewrite Hlr in Hf. by apply app_inv_head in Hf.
Qed.

(** Encoding and decoding agree: a fresh connection that gets the header
    and then the payload of a frame returns that payload, for every payload of
    1 to 1 MB - 4 bytes. *)
Theorem GetRequest_roundtrip fd ip msg s :
  request_len_ok (len msg) → all_bytes msg = true →
  ∃ c' w', GetRequest (new_InetConn fd ip)
             (World (RData (le_bytes 4 (len msg)) :: RData msg :: s) 0 [])
           = Done (kReadAll, c') w' ∧
    reply_ c' = msg ∧ script w' = s.
Proof.
  intros Hm Hb. destruct (GetRequest_whole (new_InetConn fd ip) msg s
    (World (RData (le_bytes 4 (len msg)) :: RData msg :: s) 0 [])
    (read_buf_ok _ (proj1 (new_InetConn_ok fd ip))) eq_refl eq_refl Hm Hb) as (c' & E & Hr & _). eauto.
Qed.

Lemma GetRequest_roundtrip_witness :
  ∃ c' w', GetRequest (new_InetConn 5 "c")
             (World (RData (le_bytes 4 (len [109; 115; 103])) :: RData [109; 115; 103] :: []) 0 [])
           = Done (kReadAll, c') w' ∧
    reply_ c' = [109; 115; 103] ∧ script w' = [].
Proof.
  apply (GetRequest_roundtrip 5 "c" [109; 115; 103] []);
    [split; [reflexivity|discriminate]|reflexivity].
Defined.

(** An empty request is not answered: once the header of length 0 is in the
    buffer, the next [read] asks for 0 bytes, so that any data it returns is
    empty and the connection is reported closed. *)
Theorem empty_request_closes c w :
  buf_ok c → last_read_pos_ c = HEADER_LEN → header_len (read_buf_ c) = 0 →
  match GetRequest c w with
  | Done (s, c') w' => c' = c ∧ s ≠ kReadAll ∧
      (∀ bs s', script w = RData bs :: s' → s = kReadClose)
  | Blocked w' => w' = w
  | _ => False
  end.
Proof.
  intros Hb Hp Hh. enough (wp (GetRequest c) (λ o, match o with
    | Done (s, c') w' => c' = c ∧ s ≠ kReadAll ∧
        (∀ bs s', script w = RData bs :: s' → s = kReadClose)
    | Blocked w' => w' = w
    | _ => False end) w) by done.
  unfold GetRequest, GetBody. rewrite Hp, Hh. change (u64 (0 + HEADER_LEN - HEADER_LEN)) with 0.
  change (HEADER_LEN <? HEADER_LEN) with false.
  change (u64 (0 + HEADER_LEN) >? READ_BUFFER_SIZE) with false. cbn beta iota zeta. wp_step.
  pose proof (read_more_spec c 0 w Hb) as Hm. destruct (honest_read_more c 0 w) as (t0 & He0 & Hs0).
  unfold wp in *. destruct (read_more c 0 w) as [[[s|] c1] w1| |f w1|w1|]; try done.
  - destruct Hm as (-> & r & He & Hr). unfold extends in *. cbn in He0, Hs0.
    rewrite He in He0. apply app_inv_head in He0 as <-. cbn in Hs0.
    destruct Hr as [[-> ->]|[[-> (e & -> & _)]|[-> ->]]]; cbn; rewrite Hs0; split_and!; done.
  - destruct Hm as (bs & _ & _ & Hl & _). lia.
  - destruct Hm as (_ & bs & Hl & Hov & _). unfold READ_BUFFER_SIZE, HEADER_LEN in *. lia.
Qed.

Lemma empty_request_closes_witness :
  match GetRequest (set_read (new_InetConn 5 "c") 4 [0; 0; 0; 0]) (World [RData []] 0 []) with
  | Done (s, c') w' =>
      c' = set_read (new_InetConn 5 "c") 4 [0; 0; 0; 0] ∧ s ≠ kReadAll ∧
      (∀ bs s', [RData []] = RData bs :: s' → s = kReadClose)
  | Blocked w' => w' = World [RData []] 0 []
  | _ => False
  end.
Proof.
  apply (empty_request_closes (set_read (new_InetConn 5 "c") 4 [0; 0; 0; 0]));
    [split; [split; discriminate|discriminate|]| |]; reflexivity.
Defined.

(** C15: the length check is done in [size_t]: a header of -4 to -1 passes it,
    and [read] is then asked for more than 2^63 bytes at the fifth byte of a
    1 MB buffer; if it returns any data, the run ends in a buffer overflow or in
    [std::length_error], never in a status. *)
Theorem negative_length_accepted c w :
  buf_ok c → last_read_pos_ c = HEADER_LEN → - HEADER_LEN ≤ header_len (read_buf_ c) < 0 →
  2 ^ 63 < u64 (header_len (read_buf_ c)) ∧
  match GetRequest c w with
  | Done (s, c') w' => c' = c ∧ s ≠ kReadAll ∧ ∃ r,
      extends w w' [(SysRead (fd_ c) (u64 (header_len (read_buf_ c))), r)]
  | Faulted f w' => (f = BufferOverflow ∨ f = LengthError) ∧ ∃ b bs,
      extends w w' [(SysRead (fd_ c) (u64 (header_len (read_buf_ c))), RData (b :: bs))]
  | Blocked w' => w' = w
  | _ => False
  end.
Proof.
  intros Hb Hp Hh. set (h := header_len (read_buf_ c)) in *. unfold HEADER_LEN in *.
  assert (u64 h = h + 2 ^ 64) as Hu by (apply u64_negative; lia).
  split; [lia|]. enough (wp (GetRequest c) (λ o, match o with
    | Done (s, c') w' => c' = c ∧ s ≠ kReadAll ∧ ∃ r, extends w w' [(SysRead (fd_ c) (u64 h), r)]
    | Faulted f w' => (f = BufferOverflow ∨ f = LengthError) ∧ ∃ b bs,
        extends w w' [(SysRead (fd_ c) (u64 h), RData (b :: bs))]
    | Blocked w' => w' = w
    | _ => False end) w) by done.
  unfold GetRequest, GetBody. fold h. rewrite Hp. unfold HEADER_LEN. cbn beta iota zeta.
  pose proof (proj2 (length_guard h ltac:(lia))) as Hg. unfold HEADER_LEN in Hg.
  rewrite Hg by (unfold READ_BUFFER_SIZE; lia). change (4 <? 4) with false. cbn beta iota. replace (h + 4 - 4) with h by lia.
  wp_step. eapply wp_mono; [by apply read_more_spec|].
  intros [[[s|] c1] w1| |f w1|w1|] Hm; try done.
  - destruct Hm as (-> & r & He & Hr). wp_step.
    destruct Hr as [[-> _]|[[-> _]|[-> _]]]; eauto.
  - destruct Hm as ([|b bs] & -> & _ & Hl & He); [change (len (@nil Z)) with 0 in Hl; lia|].
    unfold finish, request_string. rewrite Hu, u64_small by (unfold HEADER_LEN; lia).
    wp_steps; breflect; cbn -[len] in *; unfold HEADER_LEN, READ_BUFFER_SIZE in *; try lia.
    rewrite <- Hu. eauto.
  - destruct Hm as (-> & [|b bs] & Hl & Hov & He); [rewrite Hp in Hov; discriminate Hov|]. eauto.
Qed.

Lemma negative_length_accepted_witness :
  2 ^ 63 < u64 (-1) ∧
  match GetRequest (set_read (new_InetConn 5 "c") 4 [255; 255; 255; 255])
          (World [RData [1]] 0 []) with
  | Done (s, c') w' =>
      c' = set_read (new_InetConn 5 "c") 4 [255; 255; 255; 255] ∧ s ≠ kReadAll ∧ ∃ r,
      extends (World [RData [1]] 0 []) w' [(SysRead 5 (u64 (-1)), r)]
  | Faulted f w' => (f = BufferOverflow ∨ f = LengthError) ∧ ∃ b bs,
      extends (World [RData [1]] 0 []) w' [(SysRead 5 (u64 (-1)), RData (b :: bs))]
  | Blocked w' => w' = World [RData [1]] 0 []
  | _ => False
  end.
Proof.
  apply (negative_length_accepted (set_read (new_InetConn 5 "c") 4 [255; 255; 255; 255]));
    [split; [split; discriminate|discriminate|reflexivity]|reflexivity|].
  split; [discriminate|reflexivity].
Defined.

(** An echo server.  When a request of a quiescent connection was served to
    the end, what was read is exactly the frame of what was written, and the
    connection is quiescent again; the sizes of the pieces in which the kernel
    took and gave the bytes do not matter. *)
Theorem served_request_is_echoed c w c' w' :
  read_ok c → buffered c = [] → last_write_pos_ c = 0 →
  serve_request c w = Done (kReadAll, Some kWriteAll, c') w' →
  ∃ t, extends w w' t ∧
    bytes_read (fd_ c) t = frame (bytes_written (fd_ c) t) ∧
    request_len_ok (len (bytes_written (fd_ c) t)) ∧
    read_ok c' ∧ buffered c' = [] ∧ reply_ c' = [] ∧ last_write_pos_ c' = 0.
Proof. apply serve_request_spec. Qed.

Lemma served_request_is_echoed_witness :
  let o := run (serve_request (new_InetConn 7 "c"))
    [RData [2; 0]; RData [0; 0]; RData [104; 105]; RInt 1; RErr EAGAIN; RInt 1] in
  let c' := (value (kReadHalf, None, new_InetConn 0 "") o).2 in
  ∃ t, extends (World [RData [2; 0]; RData [0; 0]; RData [104; 105]; RInt 1; RErr EAGAIN; RInt 1] 0 [])
         (final o) t ∧
    bytes_read 7 t = frame (bytes_written 7 t) ∧ request_len_ok (len (bytes_written 7 t)) ∧
    read_ok c' ∧ buffered c' = [] ∧ reply_ c' = [] ∧ last_write_pos_ c' = 0.
Proof.
  cbn zeta. apply (served_request_is_echoed (new_InetConn 7 "c"));
    [apply new_InetConn_ok|reflexivity|reflexivity|vm_compute; reflexivity].
Defined.
