(* ===== verification/InetSocket.v ===== *)
(** * TCP sockets of the upgrade demo

    Models [hot_upgrade_demo/inet_socket.cc]: opening a listening socket,
    accepting a connection and connecting to a server. *)

From stdpp Require Import pretty.
From S2P Require Import Prelude Sys.

(** [inet_ntoa]: the four bytes of [s_addr] in memory order. *)
Definition inet_ntoa (s_addr : Z) : string :=
  let b i := pretty (Z.to_N (s_addr / 256 ^ i mod 256)) in
  b 0 +:+ "." +:+ b 1 +:+ "." +:+ b 2 +:+ "." +:+ b 3.

Definition inet_server_listen (port : Z) : M Z :=
  listenfd ← call_int (SysSocket AF_INET);
  if listenfd <? 0 then mret (-1)
  else
    r ← call_int (SysReuseAddr listenfd);
    if r <? 0 then mret (-1)
    else
      r ← call_int (SysBind listenfd (SockIn INADDR_ANY (htons (port mod 2 ^ 16))));
      if r <? 0 then mret (-1)
      else
        r ← call_int (SysListen listenfd 1024);
        if r <? 0 then mret (-1) else mret listenfd.

(** The descriptor and the [ip:port] text of the peer. *)
Definition inet_server_accept (listenfd : Z) : M (Z * string) :=
  r ← call (SysAccept listenfd);
  match r with
  | RPeer conn_fd (SockIn a p) =>
      mret (conn_fd, inet_ntoa a +:+ ":" +:+ pretty (Z.to_N (ntohs p)))
  | RPeer conn_fd (SockUn _) => mret (conn_fd, "")
  | _ => mret (-1, "")
  end.

Definition inet_client_conn (hostname : string) (port : Z) : M Z :=
  clientfd ← call_int (SysSocket AF_INET);
  if clientfd <? 0 then mret (-1)
  else
    hp ← call (SysGethostbyname hostname);
    match hp with
    | RHost (Some (addr :: _)) =>
        r ← call_int (SysConnect clientfd (SockIn addr (htons (port mod 2 ^ 16))));
        if r <? 0 then mret (-1) else mret clientfd
    | _ => mret (-2)
    end.

#[export] Instance honest_inet_server_listen p : Honest (inet_server_listen p).
Proof. unfold inet_server_listen. solve_honest. Qed.
#[export] Instance honest_inet_server_accept fd : Honest (inet_server_accept fd).
Proof. unfold inet_server_accept. solve_honest. Qed.
#[export] Instance honest_inet_client_conn h p : Honest (inet_client_conn h p).
Proof. unfold inet_client_conn. solve_honest. Qed.

(** ** Properties *)

Definition listen_post (port : Z) (w : world) (o : outcome Z) : Prop :=
  match o with
  | Done v w' => ∃ t, extends w w' t ∧ closed t = [] ∧
      if 0 <=? v then
        t = [(SysSocket AF_INET, RInt v); (SysReuseAddr v, RInt 0);
             (SysBind v (SockIn INADDR_ANY (htons (port mod 2 ^ 16))), RInt 0);
             (SysListen v 1024, RInt 0)]
      else v = -1 ∧
        match t with
        | (_, RInt fd) :: _ => opened t = [fd]
        | _ => opened t = []
        end
  | Blocked _ => True
  | _ => False
  end.

(** [inet_server_listen] returns a descriptor only when the four calls
    succeeded on it, in order and for the port asked for; when a call after
    [socket] fails, it returns -1 and the socket stays open: nothing is ever
    closed. *)
Theorem inet_server_listen_calls port w : listen_post port w (inet_server_listen port w).
Proof.
  enough (wp (inet_server_listen port) (listen_post port w) w) by done.
  unfold inet_server_listen. repeat (wp_step; answer_cases; prune); try done; subst.
  all: eexists; (split; [solve_extends|]); (split; [done|]).
  all: try (rewrite (proj2 (Z.leb_gt 0 (-1))) by lia; done).
  by rewrite (proj2 (Z.leb_le 0 v)) by lia.
Qed.
