(* ===== verification/UnixSocket.v ===== *)
(** * Unix-domain sockets and descriptor passing

    Models [hot_upgrade_demo/unix_socket.h] and [unix_socket.cc]: the listening
    socket, the authenticated accept, the client side, and the [send_fd] /
    [recv_fd] pair that passes one descriptor or an error status. *)

From stdpp Require Import pretty.
From S2P Require Import Prelude Sys.

Definition MSG_DATA_BUF_LEN : Z := 1024.
Definition reply_ok : list Z := bytes_of_string "ok".

Inductive MsgRequestType :=
| kAuth | kTransferListenFd | kTransferAdminListenFd | kTransferSessionFd.

Definition msg_type_value (ty : MsgRequestType) : Z :=
  match ty with
  | kAuth => 0
  | kTransferListenFd => 1
  | kTransferAdminListenFd => 2
  | kTransferSessionFd => 3
  end.

Inductive SendMsgStatus := kSendMsgOk | kSendMsgError.
Inductive RecvMsgStatus := kRecvMsgOk | kRecvMSGParseError | kRecvMsgError | kRecvMsgClose.

#[export] Instance SendMsgStatus_eq_dec : EqDecision SendMsgStatus.
Proof. solve_decision. Defined.
#[export] Instance RecvMsgStatus_eq_dec : EqDecision RecvMsgStatus.
Proof. solve_decision. Defined.

Definition QLEN : Z := 10.
Definition STALE : Z := 30.
Definition MAXLINE : Z := 1024.
Definition CLI_PATH : string := "/var/tmp/".
Definition CLI_PERM : Z := S_IRWXU.

(** [strcpy(un.sun_path, name)] needs room for the terminating zero. *)
Definition copy_path (name : string) : M () :=
  if Z.of_nat (String.length name) <? SUN_PATH_MAX then mret () else fail_with BufferOverflow.

(** The [errout] label: close the descriptor without losing [errno]. *)
Definition errout (fd rval : Z) : M Z :=
  err ← get_errno;
  _ ← sys_close fd;
  _ ← set_errno err;
  mret rval.

Definition unix_server_listen (name : string) : M Z :=
  fd ← call_int (SysSocket AF_UNIX);
  if fd <? 0 then errout fd (-1)
  else
    _ ← call_int (SysUnlink name);
    _ ← copy_path name;
    r ← call_int (SysBind fd (SockUn name));
    if r <? 0 then errout fd (-2)
    else
      r ← call_int (SysListen fd QLEN);
      if r <? 0 then errout fd (-3) else mret fd.

Definition peer_path (a : sockaddr) : string :=
  match a with SockUn path => path | SockIn _ _ => "" end.

(** [un.sun_path[len] = 0]: the length the kernel reports for a path counts its
    terminating zero, so the store is one cell behind it. *)
Definition terminate_path (path : string) : M () :=
  if Z.of_nat (String.length path) + 1 <? SUN_PATH_MAX then mret () else fail_with BufferOverflow.

(** Returns the descriptor (or the error) and what was stored through [uidptr]. *)
Definition unix_server_accept (listenfd : Z) (uidptr : bool) : M (Z * option Z) :=
  r ← call (SysAccept listenfd);
  match r with
  | RPeer clifd addr =>
      let path := peer_path addr in
      _ ← terminate_path path;
      r ← call (SysStat path);
      match r with
      | RStat statbuf =>
          if negb (Z.land (st_mode statbuf) (Z.lor S_IRWXG S_IRWXO) =? 0)
             || negb (Z.land (st_mode statbuf) S_IRWXU =? S_IRWXU)
          then v ← errout clifd (-4); mret (v, None)
          else
            now ← call_int SysTime;
            let staletime := now - STALE in
            if (st_atime statbuf <? staletime) || (st_ctime statbuf <? staletime)
               || (st_mtime statbuf <? staletime)
            then v ← errout clifd (-5); mret (v, None)
            else
              _ ← call_int (SysUnlink path);
              mret (clifd, if uidptr then Some (st_uid statbuf) else None)
      | _ => v ← errout clifd (-2); mret (v, None)
      end
  | _ => exit (-1)
  end.

(** [sprintf("%s%05d", CLI_PATH, getpid())]. *)
Definition pad5 (s : string) : string :=
  String.concat "" (replicate (5 - String.length s) "0") +:+ s.

Definition client_path (pid : Z) : string := CLI_PATH +:+ pad5 (pretty (Z.to_N pid)).

Definition unix_client_conn (name : string) : M Z :=
  fd ← call_int (SysSocket AF_UNIX);
  if fd <? 0 then exit (-1)
  else
    pid ← call_int SysGetpid;
    let path := client_path pid in
    _ ← call_int (SysUnlink path);
    r ← call_int (SysBind fd (SockUn path));
    if r <? 0 then errout fd (-2)
    else
      r ← call_int (SysChmod path CLI_PERM);
      if r <? 0 then errout fd (-3)
      else
        _ ← copy_path name;
        r ← call_int (SysConnect fd (SockUn name));
        if r <? 0 then errout fd (-4) else mret fd.

(** The file-level [static struct cmsghdr *cmptr]: [None] is the null pointer,
    [Some v] an allocated control buffer holding the descriptor [v], if any was
    ever stored. *)
Definition cmsg_static : Type := option (option Z).

Definition alloc_cmptr (cm : cmsg_static) : M (option Z) :=
  match cm with
  | Some v => mret v
  | None => p ← call_int (SysMalloc CMSG_LEN_INT); if p =? 0 then exit (-1) else mret None
  end.

(** The status byte of an error: [char], and never 0. *)
Definition status_byte (fd_to_send : Z) : Z :=
  let b := u8 (- fd_to_send) in if b =? 0 then 1 else b.

Definition send_fd (cm : cmsg_static) (fd fd_to_send : Z) : M (Z * cmsg_static) :=
  if fd_to_send <? 0 then
    n ← call_int (SysSendmsg fd [Some 0; Some (status_byte fd_to_send)] None);
    if negb (n =? 2) then exit (-1) else mret (0, cm)
  else
    _ ← alloc_cmptr cm;
    n ← call_int (SysSendmsg fd [Some 0; Some 0] (Some fd_to_send));
    if negb (n =? 2) then exit (-1) else mret (0, Some (Some fd_to_send)).

(** The scan for the zero byte that precedes the status: [None] when there is
    none, [Some None] for a malformed message, [Some (Some (text, status))]
    otherwise, [text] being the bytes in front. *)
Fixpoint scan_status (bs : list Z) : option (option (list Z * Z)) :=
  match bs with
  | [] => None
  | b :: rest =>
      if b =? 0 then
        match rest with
        | [status] => Some (Some ([], status))
        | _ => Some None
        end
      else
        match scan_status rest with
        | Some (Some (text, status)) => Some (Some (b :: text, status))
        | r => r
        end
  end.

(** [userfunc] gets the text in front of the status and returns how much of it
    it handled. *)
Definition give_text (userfunc : list Z → M Z) (text : list Z) : M () :=
  if 0 <? len text then
    n ← userfunc text;
    if negb (n =? len text) then exit (-1) else mret ()
  else mret ().

Definition recv_fd (cm : cmsg_static) (fd : Z) (userfunc : list Z → M Z) : M (Z * cmsg_static) :=
  v ← alloc_cmptr cm;
  r ← call (SysRecvmsg fd MAXLINE CMSG_LEN_INT);
  match r with
  | RMsg (b :: bs) rights =>
      let cm' := Some (match rights with Some d => Some d | None => v end) in
      match scan_status (b :: bs) with
      | None => _ ← give_text userfunc (b :: bs); fail_with MissingReturn
      | Some None => exit (-1)
      | Some (Some (text, status)) =>
          if status =? 0 then
            match rights with
            | None => exit (-1)
            | Some newfd => _ ← give_text userfunc text; mret (newfd, cm')
            end
          else _ ← give_text userfunc text; mret (- status, cm')
      end
  | _ => exit (-1)
  end.

#[export] Instance honest_copy_path n : Honest (copy_path n).
Proof. unfold copy_path. solve_honest. Qed.
#[export] Instance honest_terminate_path n : Honest (terminate_path n).
Proof. unfold terminate_path. solve_honest. Qed.
#[export] Instance honest_errout fd r : Honest (errout fd r).
Proof. unfold errout. solve_honest. Qed.
#[export] Instance honest_unix_server_listen n : Honest (unix_server_listen n).
Proof. unfold unix_server_listen. solve_honest. Qed.
#[export] Instance honest_unix_server_accept fd u : Honest (unix_server_accept fd u).
Proof. unfold unix_server_accept. cbn zeta. solve_honest. Qed.
#[export] Instance honest_unix_client_conn n : Honest (unix_client_conn n).
Proof. unfold unix_client_conn. cbn zeta. solve_honest. Qed.
#[export] Instance honest_alloc_cmptr cm : Honest (alloc_cmptr cm).
Proof. unfold alloc_cmptr. solve_honest. Qed.
#[export] Instance honest_send_fd cm fd d : Honest (send_fd cm fd d).
Proof. unfold send_fd. solve_honest. Qed.

(** ** Cleaning up *)

(** The errors a run met, those of [close] and [unlink] apart. *)
Definition errors (t : list event) : list Z :=
  t ≫= λ '(c, r),
    match c, r with
    | (SysClose _ | SysUnlink _), _ => []
    | _, RErr e => [e]
    | _, _ => []
    end.

(** Either a descriptor came out and nothing was closed, or an error did,
    everything opened is closed again and [errno] is that of the failed call,
    whatever [close] answered. *)
Definition all_or_nothing (w w' : world) (v : Z) : Prop :=
  ∃ t, extends w w' t ∧
  if 0 <=? v then opened t = [v] ∧ closed t = [] ∧ errors t = []
  else (∀ fd, fd ∈ opened t → fd ∈ closed t) ∧ errno w' = default (errno w) (last (errors t)).

Lemma wp_errout fd rval (Q : outcome Z → Prop) w :
  Q (Blocked w) →
  (∀ r, answers (SysClose fd) r = true →
     Q (Done rval (World (tail (script w)) (errno w) (trace w ++ [(SysClose fd, r)])))) →
  wp (errout fd rval) Q w.
Proof. intros HB HD. unfold errout, sys_close. wp_steps; [done|]. by eapply HD. Qed.

Ltac finish_cleanup :=
  eexists; (split; [solve_extends|]); cbn;
  repeat match goal with |- context [0 <=? ?v] => destruct (0 <=? v) eqn:?; prune end;
  try done; (split; [set_solver|reflexivity]).

(** A step of the calculus that knows the cleanup label. *)
Ltac wp_clean :=
  lazymatch goal with
  | |- wp (errout _ _) _ _ => apply wp_errout; [done|intros ?r ?Ha]
  | |- wp (copy_path _) _ _ => unfold copy_path; wp_step; wp_step
  | |- wp (terminate_path _) _ _ => unfold terminate_path; wp_step; wp_step
  | _ => wp_step; try done
  end; answer_cases; prune.

Lemma unix_server_listen_spec name w :
  wp (unix_server_listen name) (λ o, match o with
    | Done v w' => all_or_nothing w w' v
    | Faulted f _ => f = BufferOverflow ∧ SUN_PATH_MAX ≤ Z.of_nat (String.length name)
    | Blocked _ => True
    | _ => False
    end) w.
Proof.
  unfold unix_server_listen. repeat wp_clean; try finish_cleanup; done.
Qed.

Lemma unix_client_conn_spec name w :
  wp (unix_client_conn name) (λ o, match o with
    | Done v w' => all_or_nothing w w' v
    | Exited c _ => c = -1
    | Faulted f _ => f = BufferOverflow ∧ SUN_PATH_MAX ≤ Z.of_nat (String.length name)
    | Blocked _ => True
    | _ => False
    end) w.
Proof.
  unfold unix_client_conn. cbn zeta. repeat wp_clean; try finish_cleanup; done.
Qed.

(** ** What the server demands of a client *)

(** The client's socket file is readable, writable and searchable by its owner
    and by nobody else. *)
Definition owner_only (mode : Z) : Prop :=
  Z.land mode (Z.lor S_IRWXG S_IRWXO) = 0 ∧ Z.land mode S_IRWXU = S_IRWXU.

(** It was accessed, changed and modified at most [STALE] seconds ago. *)
Definition recent (st : statbuf) (now : Z) : Prop :=
  now - STALE ≤ st_atime st ∧ now - STALE ≤ st_ctime st ∧ now - STALE ≤ st_mtime st.

Definition accept_post (listenfd : Z) (uidptr : bool) (w : world)
    (o : outcome (Z * option Z)) : Prop :=
  match o with
  | Done (v, uid) w' =>
      all_or_nothing w w' v ∧
      if 0 <=? v then ∃ addr st now r,
        owner_only (st_mode st) ∧ recent st now ∧
        extends w w' [(SysAccept listenfd, RPeer v addr); (SysStat (peer_path addr), RStat st);
                      (SysTime, RInt now); (SysUnlink (peer_path addr), r)] ∧
        uid = if uidptr then Some (st_uid st) else None
      else (v = -2 ∨ v = -4 ∨ v = -5) ∧ uid = None
  | Exited c _ => c = -1
  | Faulted f w' => f = BufferOverflow ∧ ∃ fd addr,
      extends w w' [(SysAccept listenfd, RPeer fd addr)] ∧
      SUN_PATH_MAX ≤ Z.of_nat (String.length (peer_path addr)) + 1
  | Blocked _ => True
  | NoFuel _ => False
  end.

Lemma unix_server_accept_spec listenfd uidptr w :
  wp (unix_server_accept listenfd uidptr) (accept_post listenfd uidptr w) w.
Proof.
  unfold unix_server_accept. cbn zeta. repeat wp_clean; try done.
  all: try (split; [finish_cleanup|]; rewrite (proj2 (Z.leb_gt 0 _)) by lia; auto; done).
  all: try (split; [done|]; eexists _, _; split; [solve_extends|lia]).
  all: split; [finish_cleanup|]; rewrite (proj2 (Z.leb_le 0 _)) by lia.
  all: eexists addr, st, v, _; split; [by split|]; split; [by split_and!|].
  all: split; [solve_extends|done].
Qed.

(** ** Properties *)

(** Opening the server socket is all or nothing: the result is a listening
    descriptor with nothing closed, or an error code after which every
    descriptor opened on the way is closed and [errno] still tells what failed,
    whatever [close] did; a name that does not fit [sun_path] overflows it. *)
Theorem unix_server_listen_all_or_nothing name w :
  match unix_server_listen name w with
  | Done v w' => all_or_nothing w w' v
  | Faulted f _ => f = BufferOverflow ∧ SUN_PATH_MAX ≤ Z.of_nat (String.length name)
  | Blocked _ => True
  | _ => False
  end.
Proof. exact (unix_server_listen_spec name w). Qed.

(** C18: a client connection is only handed out after its socket file was found
    to be private to its owner and at most 30 seconds old, and the file is then
    removed; in every other case the connection is closed and the code says
    which check failed.  A path of 107 characters or more makes the terminating
    zero overflow [sun_path]. *)
Theorem unix_server_accept_authenticates listenfd uidptr w :
  accept_post listenfd uidptr w (unix_server_accept listenfd uidptr w).
Proof. exact (unix_server_accept_spec listenfd uidptr w). Qed.

(** The client side closes its socket on every failure too, and the mode it
    gives its socket file is one the server accepts. *)
Theorem unix_client_conn_all_or_nothing name w :
  owner_only CLI_PERM ∧
  match unix_client_conn name w with
  | Done v w' => all_or_nothing w w' v
  | Exited c _ => c = -1
  | Faulted f _ => f = BufferOverflow ∧ SUN_PATH_MAX ≤ Z.of_nat (String.length name)
  | Blocked _ => True
  | NoFuel _ => False
  end.
Proof. split; [by vm_compute|]. exact (unix_client_conn_spec name w). Qed.

(** The value [recv_fd] returns for what [send_fd] sent: the descriptor the
    kernel installed, or the error as a negative number. *)
Definition passed (fd_to_send installed : Z) : Z :=
  if fd_to_send <? 0 then - status_byte fd_to_send else installed.

(** What a call of [send_fd] puts on the wire. *)
Definition fd_message (fd_to_send : Z) : list Z * option Z :=
  if fd_to_send <? 0 then ([0; status_byte fd_to_send], None) else ([0; 0], Some fd_to_send).

Lemma status_byte_range d : d < 0 → 0 < status_byte d < 256.
Proof.
  intros. unfold status_byte. pose proof (u8_range (- d)). cbn zeta.
  case_bool; breflect; lia.
Qed.

(** C19: descriptor passing round trip.  [send_fd] succeeds exactly by sending
    [fd_message]; that message, received in one [recvmsg] with the descriptor
    renumbered by the kernel, makes [recv_fd] return the descriptor, or the
    error code, without calling the text handler. *)
Theorem send_recv_fd_roundtrip cm fd fd_to_send installed cm' fd' userfunc :
  0 ≤ installed →
  let '(data, rights) := fd_message fd_to_send in
  (∀ w, match send_fd (Some cm) fd fd_to_send w with
        | Done (v, _) w' => v = 0 ∧ extends w w' [(SysSendmsg fd (Some <$> data) rights, RInt 2)]
        | Exited c _ => c = -1
        | Blocked _ => True
        | _ => False
        end) ∧
  (∀ w s, script w = RMsg data ((λ _, installed) <$> rights) :: s →
     ∃ cm2 w2, recv_fd (Some cm') fd' userfunc w = Done (passed fd_to_send installed, cm2) w2).
Proof.
  intros Hi. unfold fd_message, passed.
  destruct (fd_to_send <? 0) eqn:Hneg; breflect; (split; [intros w|intros w s Hs]).
  - enough (wp (send_fd (Some cm) fd fd_to_send) (λ o, match o with
      | Done (v, _) w' => v = 0 ∧ extends w w' [(SysSendmsg fd (Some <$> [0; status_byte fd_to_send]) None, RInt 2)]
      | Exited c _ => c = -1 | Blocked _ => True | _ => False end) w) by done.
    unfold send_fd. rewrite (proj2 (Z.ltb_lt _ _) Hneg).
    wp_steps; try done; answer_cases; prune. subst. done.
  - pose proof (status_byte_range _ Hneg). set (b := status_byte fd_to_send) in *. clearbody b.
    unfold recv_fd. erewrite bind_done by done. erewrite bind_done.
    2: { eapply call_answer; [exact Hs|]. cbn [answers fmap option_fmap option_map].
         rewrite andb_true_r. apply andb_true_iff. split; [done|].
         apply all_bytes_Forall. repeat constructor; lia. }
    cbn. rewrite (proj2 (Z.eqb_neq b 0)) by lia. cbn. eauto.
  - enough (wp (send_fd (Some cm) fd fd_to_send) (λ o, match o with
      | Done (v, _) w' => v = 0 ∧ extends w w' [(SysSendmsg fd (Some <$> [0; 0]) (Some fd_to_send), RInt 2)]
      | Exited c _ => c = -1 | Blocked _ => True | _ => False end) w) by done.
    unfold send_fd, alloc_cmptr. rewrite (proj2 (Z.ltb_ge _ _) Hneg).
    wp_steps; try done; answer_cases; prune. subst. done.
  - unfold recv_fd. erewrite bind_done by done. erewrite bind_done.
    2: { eapply call_answer; [exact Hs|]. cbn. by rewrite (proj2 (Z.leb_le 0 installed)). }
    cbn. eauto.
Qed.

Lemma send_recv_fd_roundtrip_witness :
  (∀ w, match send_fd (Some None) 4 (-3) w with
        | Done (v, _) w' => v = 0 ∧ extends w w' [(SysSendmsg 4 [Some 0; Some 3] None, RInt 2)]
        | Exited c _ => c = -1
        | Blocked _ => True
        | _ => False
        end) ∧
  (∀ w s, script w = RMsg [0; 3] None :: s →
     ∃ cm2 w2, recv_fd (Some None) 5 (λ t, mret (len t)) w = Done (-3, cm2) w2).
Proof.
  exact (send_recv_fd_roundtrip None 4 (-3) 9 None 5 (λ t, mret (len t)) ltac:(discriminate)).
Defined.
