(* ===== verification/Epoll.v ===== *)
(** * The event loop object

    Models [hot_upgrade_demo/epoll.h] and [epoll.cc]: the singleton that owns
    the epoll descriptor, the listening descriptors and the table of client
    connections. *)

From S2P Require Import Prelude Sys InetConn InetSocket UnixSocket.

Definition MAX_EVENTS : Z := 10000.

Record FiredEvent := mkFired { mask : Z; fired_fd : Z }.

(** [inet_conn_map] owns the connection objects its pointers refer to. *)
Record Epoll := mkEpoll {
  epfd_ : Z;
  inet_listen_fd : Z;
  unix_listen_fd : Z;
  ep_unix_conn_fd : Z;
  ep_unix_client_fd : Z;
  inet_conn_map : gmap Z InetConn;
  firedevent_ : list FiredEvent
}.

Definition set_inet_listen (e : Epoll) (fd : Z) : Epoll :=
  mkEpoll (epfd_ e) fd (unix_listen_fd e) (ep_unix_conn_fd e) (ep_unix_client_fd e)
    (inet_conn_map e) (firedevent_ e).

Definition set_unix_listen (e : Epoll) (fd : Z) : Epoll :=
  mkEpoll (epfd_ e) (inet_listen_fd e) fd (ep_unix_conn_fd e) (ep_unix_client_fd e)
    (inet_conn_map e) (firedevent_ e).

Definition set_map (e : Epoll) (m : gmap Z InetConn) : Epoll :=
  mkEpoll (epfd_ e) (inet_listen_fd e) (unix_listen_fd e) (ep_unix_conn_fd e)
    (ep_unix_client_fd e) m (firedevent_ e).

Definition set_fired (e : Epoll) (l : list FiredEvent) : Epoll :=
  mkEpoll (epfd_ e) (inet_listen_fd e) (unix_listen_fd e) (ep_unix_conn_fd e)
    (ep_unix_client_fd e) (inet_conn_map e) l.

Definition new_Epoll : M Epoll :=
  epfd ← call_int (SysEpollCreate 1024);
  mret (mkEpoll epfd (-1) (-1) (-1) (-1) ∅ []).

Definition delete_Epoll (e : Epoll) : M () := _ ← sys_close (epfd_ e); mret ().

(** The mask kept of one kernel event. *)
Definition fired_mask (events : Z) : Z :=
  let mask := 0 in
  let mask := if negb (Z.land events EPOLLIN =? 0) then Z.lor mask EPOLLIN else mask in
  let mask := if negb (Z.land events EPOLLOUT =? 0) then Z.lor mask EPOLLOUT else mask in
  let mask := if negb (Z.land events EPOLLERR =? 0) then Z.lor mask EPOLLERR else mask in
  let mask := if negb (Z.land events EPOLLHUP =? 0) then Z.lor mask EPOLLHUP else mask in
  mask.

(** The first [numevents] entries of [firedevent_] are overwritten. *)
Definition Poll (e : Epoll) (timeout : Z) : M (Z * Epoll) :=
  r ← call (SysEpollWait (epfd_ e) MAX_EVENTS timeout);
  match r with
  | REvents evs =>
      let fired := map (λ '(fd, events), mkFired (fired_mask events) fd) evs in
      mret (len evs, set_fired e (fired ++ drop (length fired) (firedevent_ e)))
  | _ => mret (0, e)
  end.

(** [ee.events] is unsigned: the [int] mask is converted back. *)
Definition AddEvent (e : Epoll) (fd mask : Z) : M Z :=
  call_int (SysEpollCtl (epfd_ e) EPOLL_CTL_ADD fd (u32 mask)).

Definition ModEvent (e : Epoll) (fd mask : Z) : M Z :=
  call_int (SysEpollCtl (epfd_ e) EPOLL_CTL_MOD fd (u32 mask)).

(** [ee.events] is not set for a deletion, and not read either. *)
Definition DelEvent (e : Epoll) (fd : Z) : M Z :=
  call_int (SysEpollCtl (epfd_ e) EPOLL_CTL_DEL fd 0).

(** Declared [bool] but without a [return]; no caller uses the value. *)
Definition detachInetListenFd (e : Epoll) : M Epoll :=
  _ ← DelEvent e (inet_listen_fd e);
  _ ← sys_close (inet_listen_fd e);
  mret (set_inet_listen e (-1)).

Definition attachInetListenFd (e : Epoll) (il_fd : Z) : M (bool * Epoll) :=
  let e := set_inet_listen e il_fd in
  _ ← AddEvent e (inet_listen_fd e) EPOLLIN;
  mret (true, e).

Definition startInetServer (e : Epoll) (port : Z) : M (bool * Epoll) :=
  fd ← inet_server_listen port;
  let e := set_inet_listen e fd in
  if inet_listen_fd e =? -1 then mret (false, e)
  else _ ← AddEvent e (inet_listen_fd e) EPOLLIN; mret (true, e).

Definition startUnixServer (e : Epoll) (path : string) : M (bool * Epoll) :=
  fd ← unix_server_listen path;
  let e := set_unix_listen e fd in
  if unix_listen_fd e <? 0 then mret (false, e)
  else _ ← AddEvent e (unix_listen_fd e) EPOLLIN; mret (true, e).

(** [s_instance]: created by the first call. *)
Definition getInstance (s_instance : option Epoll) : M Epoll :=
  match s_instance with
  | None => new_Epoll
  | Some e => mret e
  end.

#[export] Instance honest_new_Epoll : Honest new_Epoll.
Proof. unfold new_Epoll. solve_honest. Qed.
#[export] Instance honest_Poll e n : Honest (Poll e n).
Proof. unfold Poll. solve_honest. Qed.
#[export] Instance honest_AddEvent e fd m : Honest (AddEvent e fd m).
Proof. unfold AddEvent. solve_honest. Qed.
#[export] Instance honest_ModEvent e fd m : Honest (ModEvent e fd m).
Proof. unfold ModEvent. solve_honest. Qed.
#[export] Instance honest_DelEvent e fd : Honest (DelEvent e fd).
Proof. unfold DelEvent. solve_honest. Qed.
#[export] Instance honest_detachInetListenFd e : Honest (detachInetListenFd e).
Proof. unfold detachInetListenFd. solve_honest. Qed.
#[export] Instance honest_attachInetListenFd e fd : Honest (attachInetListenFd e fd).
Proof. unfold attachInetListenFd. cbn zeta. solve_honest. Qed.
#[export] Instance honest_startInetServer e p : Honest (startInetServer e p).
Proof. unfold startInetServer. cbn zeta. solve_honest. Qed.
#[export] Instance honest_startUnixServer e p : Honest (startUnixServer e p).
Proof. unfold startUnixServer. cbn zeta. solve_honest. Qed.
#[export] Instance honest_getInstance s : Honest (getInstance s).
Proof. unfold getInstance. solve_honest. Qed.

(** A single-bit test and set is a bitwise copy. *)
Lemma copy_bit m e k :
  0 ≤ k →
  (if negb (Z.land e (2 ^ k) =? 0) then Z.lor m (2 ^ k) else m) = Z.lor m (Z.land e (2 ^ k)).
Proof.
  intros Hk. assert (Z.land e (2 ^ k) = if Z.testbit e k then 2 ^ k else 0) as ->.
  { apply Z.bits_inj'. intros n Hn. rewrite Z.land_spec, Z.pow2_bits_eqb by lia.
    destruct (Z.testbit e k) eqn:E; [rewrite Z.pow2_bits_eqb by lia|rewrite Z.bits_0];
      destruct (Z.eqb_spec k n) as [->|]; rewrite ?andb_true_r, ?andb_false_r; done. }
  destruct (Z.testbit e k).
  - rewrite (proj2 (Z.eqb_neq (2 ^ k) 0)) by (apply Z.pow_nonzero; lia). done.
  - by rewrite Z.lor_0_r.
Qed.

Lemma fired_mask_land events : fired_mask events = Z.land events 29.
Proof.
  unfold fired_mask. cbn zeta.
  change EPOLLIN with (2 ^ 0). change EPOLLOUT with (2 ^ 2).
  change EPOLLERR with (2 ^ 3). change EPOLLHUP with (2 ^ 4).
  rewrite !copy_bit by lia. rewrite Z.lor_0_l, <- !Z.land_lor_distr_r. done.
Qed.

Definition poll_post (e : Epoll) (timeout : Z) (w : world) (o : outcome (Z * Epoll)) : Prop :=
  match o with
  | Done (n, e') w' =>
      0 ≤ n ≤ MAX_EVENTS ∧ e' = set_fired e (firedevent_ e') ∧ ∃ r,
      extends w w' [(SysEpollWait (epfd_ e) MAX_EVENTS timeout, r)] ∧
      match r with
      | REvents evs =>
          n = len evs ∧
          take (Z.to_nat n) (firedevent_ e') =
            map (λ '(fd, events), mkFired (Z.land events 29) fd) evs
      | _ => n = 0 ∧ e' = e
      end
  | Blocked _ => True
  | _ => False
  end.

Lemma Poll_spec e timeout w : wp (Poll e timeout) (poll_post e timeout w) w.
Proof.
  unfold Poll. wp_step. wp_step; [done|]. answer_cases; wp_step.
  - split; [done|]. split; [by destruct e|]. eexists. split; [solve_extends|done].
  - split; [unfold len in *; lia|]. split; [by destruct e|].
    eexists. split; [solve_extends|]. split; [done|]. cbn.
    unfold len. rewrite Nat2Z.id, take_app_length' by (by rewrite length_map).
    apply map_ext. intros [fd ev]. by rewrite fired_mask_land.
Qed.

(** ** Properties *)

(** [Poll] never returns -1: its result is the number of events, between 0
    and [MAX_EVENTS], a failing [epoll_wait] included, so that the [nfds == -1]
    check of the server is dead code; the entries it announces are those of the
    kernel, in order, with the mask reduced to the four bits the handlers know. *)
Theorem Poll_events e timeout w : poll_post e timeout w (Poll e timeout w).
Proof. exact (Poll_spec e timeout w). Qed.
