(* ===== verification/UnixClient.v ===== *)
(** * The sending side of the hand-over

    Models [hot_upgrade_demo/unix_client.h] and [unix_client.cc]: the old server
    sends its listening socket and its idle sessions to the new one, each in a
    1024-byte message with the descriptor as ancillary data. *)

From S2P Require Import Prelude Sys UnixSocket.

(** [uc_cmptr] is the descriptor stored in the control buffer and [uc_msgDataBuf]
    the message buffer; both are allocated by the constructor. *)
Record UnixClient := mkUnixClient {
  uc_fd_ : Z;
  uc_cmptr : option Z;
  uc_msgDataBuf : list Z
}.

Definition new_UnixClient (fd : Z) : UnixClient := mkUnixClient fd None [].

(** The answer is read into an 8-byte buffer and not looked at. *)
Definition GetReply (u : UnixClient) : M bool :=
  _ ← call_int (SysRecvmsg (uc_fd_ u) 8 0);
  mret true.

(** [memset] to zero, then type, length and text. *)
Definition transfer_message (msgType : Z) (data : list Z) : list Z :=
  let buf := replicate (Z.to_nat MSG_DATA_BUF_LEN) 0 in
  let buf := store_at buf 0 (le_bytes 4 msgType) in
  let buf := store_at buf 4 (le_bytes 4 (u32 (len data))) in
  store_at buf 8 data.

(** The [while] loop around [sendmsg]: every round hands over the same [iov],
    from the start of the buffer.  [None] is the early [return kSendMsgError]. *)
Definition send_loop (fd : Z) (buf : list Z) (sent_fd : Z) : M (option Z) :=
  loop (λ send,
    if send <? MSG_DATA_BUF_LEN then
      sendlen ← call_int (SysSendmsg fd (Some <$> buf) (Some sent_fd));
      if sendlen =? -1 then
        e ← get_errno;
        if (e =? EINTR) || (e =? EAGAIN) then mret (inl send) else mret (inr None)
      else mret (inl (send + sendlen))
    else mret (inr (Some send))) 0.

Definition TransferListenFd (u : UnixClient) (listen_fd : Z) : M (SendMsgStatus * UnixClient) :=
  let buf := transfer_message (msg_type_value kTransferListenFd) (bytes_of_string "listen fd data") in
  let u := mkUnixClient (uc_fd_ u) (Some listen_fd) buf in
  r ← send_loop (uc_fd_ u) buf listen_fd;
  match r with
  | None => mret (kSendMsgError, u)
  | Some send =>
      if negb (send =? MSG_DATA_BUF_LEN) then mret (kSendMsgError, u)
      else _ ← GetReply u; mret (kSendMsgOk, u)
  end.

Definition TransferSessionFd (u : UnixClient) (session_fd : Z) : M (SendMsgStatus * UnixClient) :=
  let buf := transfer_message (msg_type_value kTransferSessionFd) (bytes_of_string "session fd data") in
  let u := mkUnixClient (uc_fd_ u) (Some session_fd) buf in
  r ← send_loop (uc_fd_ u) buf session_fd;
  match r with
  | None => mret (kSendMsgError, u)
  | Some send =>
      if negb (send =? MSG_DATA_BUF_LEN) then mret (kSendMsgError, u)
      else _ ← GetReply u; mret (kSendMsgOk, u)
  end.

#[export] Typeclasses Opaque GetReply send_loop transfer_message.

#[export] Instance honest_GetReply u : Honest (GetReply u).
Proof. unfold GetReply. solve_honest. Qed.
#[export] Instance honest_send_loop fd b d : Honest (send_loop fd b d).
Proof. unfold send_loop. apply honest_loop. intros. solve_honest. Qed.
#[export] Instance honest_TransferListenFd u fd : Honest (TransferListenFd u fd).
Proof. unfold TransferListenFd. cbn zeta. solve_honest. Qed.
#[export] Instance honest_TransferSessionFd u fd : Honest (TransferSessionFd u fd).
Proof. unfold TransferSessionFd. cbn zeta. solve_honest. Qed.

#[export] Instance quiet_GetReply u : Quiet (GetReply u).
Proof. unfold GetReply. solve_emits. Qed.
#[export] Instance quiet_send_loop fd b d : Quiet (send_loop fd b d).
Proof. unfold send_loop. solve_emits. Qed.
#[export] Instance quiet_TransferListenFd u fd : Quiet (TransferListenFd u fd).
Proof. unfold TransferListenFd. cbn zeta. solve_emits. Qed.
#[export] Instance quiet_TransferSessionFd u fd : Quiet (TransferSessionFd u fd).
Proof. unfold TransferSessionFd. cbn zeta. solve_emits. Qed.

(** ** The message on the wire *)

(** Overwriting one field of a buffer. *)
Lemma store_at_field a b b' c n :
  length a = n → length b' = length b → store_at (a ++ b ++ c) n b' = a ++ b' ++ c.
Proof.
  intros <- Hb. unfold store_at. rewrite resize_le by (rewrite length_app; lia).
  rewrite take_app_length, Hb, <- drop_drop, !drop_app_length. done.
Qed.

Lemma replicate_split {A} (n m : nat) (x : A) :
  (n ≤ m)%nat → replicate m x = replicate n x ++ replicate (m - n) x.
Proof. intros. rewrite <- replicate_add. f_equal. lia. Qed.

(** Type, length, text, and zeros up to 1024 bytes. *)
Lemma transfer_message_layout ty data :
  len data ≤ MSG_DATA_BUF_LEN - 8 →
  transfer_message ty data =
    le_bytes 4 ty ++ le_bytes 4 (len data) ++ data ++ replicate (1016 - length data) 0.
Proof.
  intros Hd. unfold transfer_message. cbn zeta.
  assert ((length data ≤ 1016)%nat) by (unfold len, MSG_DATA_BUF_LEN in *; lia).
  rewrite u32_small by (unfold len in *; lia).
  change (Z.to_nat MSG_DATA_BUF_LEN) with (4 + (4 + 1016))%nat.
  rewrite replicate_add, (replicate_add 4), (replicate_split (length data) 1016) by done.
  set (rest := replicate (length data) 0 ++ replicate (1016 - length data) 0).
  pose proof (store_at_field [] (replicate 4 0) (le_bytes 4 ty) (replicate 4 0 ++ rest) 0
    eq_refl ltac:(by rewrite length_le_bytes)) as H0. rewrite !app_nil_l in H0. rewrite H0.
  rewrite store_at_field by (by rewrite length_le_bytes).
  unfold rest. rewrite (app_assoc (le_bytes 4 ty)).
  rewrite store_at_field by (rewrite ?length_app, ?length_le_bytes, ?length_replicate; done).
  by rewrite <- app_assoc.
Qed.

(** What [k] rounds of the loop put on the wire: each a prefix of the buffer. *)
Definition prefixes (buf : list Z) (ks : list nat) : list Z := ks ≫= λ k, take k buf.

Definition sends (fd : Z) (buf : list Z) (d : Z) (ks : list nat) (t : list event) : Prop :=
  bytes_sent fd t = Some <$> prefixes buf ks ∧
  rights_sent fd t = replicate (length ks) d ∧
  Forall (λ k, 0 < k ≤ length buf)%nat ks.

Lemma sends_snoc fd buf d ks t k :
  sends fd buf d ks t → 0 ≤ k ≤ len buf →
  sends fd buf d (if 0 <? k then ks ++ [Z.to_nat k] else ks)
    (t ++ [(SysSendmsg fd (Some <$> buf) (Some d), RInt k)]).
Proof.
  intros (Hb & Hr & Hk) Hle. unfold len in Hle. unfold sends.
  rewrite bytes_sent_app, rights_sent_app, Hb, Hr. cbn. rewrite Z.eqb_refl. cbn.
  rewrite app_nil_r, <- fmap_take, <- fmap_app.
  destruct (0 <? k) eqn:E; breflect.
  - split; [unfold prefixes; by rewrite bind_app; cbn; rewrite app_nil_r|].
    split; [by rewrite length_app, replicate_add|].
    apply Forall_app. split; [done|]. constructor; [lia|constructor].
  - replace (Z.to_nat k) with O by lia. rewrite !app_nil_r. done.
Qed.

Lemma sends_error fd buf d ks t e :
  sends fd buf d ks t →
  sends fd buf d ks (t ++ [(SysSendmsg fd (Some <$> buf) (Some d), RErr e)]).
Proof.
  intros (Hb & Hr & Hk). unfold sends. rewrite bytes_sent_app, rights_sent_app, Hb, Hr.
  cbn. by rewrite !app_nil_r.
Qed.

(** The last call failed with an error on which the loop gives up. *)
Definition send_failed (fd : Z) (buf : list Z) (d : Z) (t : list event) : Prop :=
  ∃ t0 e, t = t0 ++ [(SysSendmsg fd (Some <$> buf) (Some d), RErr e)] ∧ e ≠ EINTR ∧ e ≠ EAGAIN.

Lemma send_loop_spec fd buf d w :
  len buf = MSG_DATA_BUF_LEN →
  wp (send_loop fd buf d) (λ o, ∃ t ks, extends w (final o) t ∧ sends fd buf d ks t ∧
    match o with
    | Done (Some send) _ => send = Z.of_nat (sum_list ks) ∧ MSG_DATA_BUF_LEN ≤ send
    | Done None _ => Z.of_nat (sum_list ks) < MSG_DATA_BUF_LEN ∧ send_failed fd buf d t
    | Blocked _ => True
    | _ => False
    end) w.
Proof.
  intros Hbuf. unfold send_loop.
  apply (loop_rule _ (λ send w1, ∃ t ks, extends w w1 t ∧ sends fd buf d ks t ∧
    send = Z.of_nat (sum_list ks))).
  2: { exists [], []. split; [apply extends_refl|]. split; [|done]. split_and!; done. }
  intros send w1 (t & ks & He & Hs & Hsum). wp_step; breflect; [|wp_step; eauto 10].
  wp_step. wp_step; [eauto 10|]. answer_cases; cbn [ret_of].
  - cbn. wp_steps; (exists (t ++ [(SysSendmsg fd (Some <$> buf) (Some d), RErr e)]), ks) ||
      (split; [exists (t ++ [(SysSendmsg fd (Some <$> buf) (Some d), RErr e)]), ks|by eapply answered_shorter]).
    all: split; [by eapply extends_trans|]. all: split; [by apply sends_error|try done].
    split; [lia|]. exists t, e. apply orb_false_iff in Heqb0 as [?%Z.eqb_neq ?%Z.eqb_neq]. done.
  - rewrite (proj2 (Z.eqb_neq v (-1))) by lia. wp_step.
    split; [|by eapply answered_shorter].
    eexists (t ++ [_]), _. split; [by eapply extends_trans|].
    assert (len (Some <$> buf) = len buf) as Hl by (unfold len; by rewrite length_fmap).
    rewrite Hl in *. split; [by apply sends_snoc|].
    case_bool; breflect; [rewrite sum_list_with_app; cbn|]; lia.
Qed.

(** A buffer whose first byte does not occur again is only reproduced by one
    full send. *)
Lemma prefixes_whole b tl ks :
  b ∉ tl → Forall (λ k, 0 < k ≤ length (b :: tl))%nat ks →
  prefixes (b :: tl) ks = b :: tl ↔ ks = [length (b :: tl)].
Proof.
  intros Hb Hk. split; [|intros ->; unfold prefixes; cbn; by rewrite firstn_all, app_nil_r].
  destruct ks as [|k1 [|k2 ks]]; cbn; [done|..]; rewrite ?app_nil_r; intros Hp.
  - apply (f_equal length) in Hp. rewrite length_take in Hp. cbn in Hp.
    inversion_clear Hk. cbn in *. do 2 f_equal. lia.
  - exfalso. inversion_clear Hk as [|? ? H1 Hk']. inversion_clear Hk' as [|? ? H2 _].
    destruct k1 as [|k1]; [lia|]. destruct k2 as [|k2]; [lia|]. cbn in Hp.
    injection Hp as Hp. apply Hb. rewrite <- Hp. set_solver.
Qed.

Definition listen_message : list Z :=
  transfer_message (msg_type_value kTransferListenFd) (bytes_of_string "listen fd data").
Definition session_message : list Z :=
  transfer_message (msg_type_value kTransferSessionFd) (bytes_of_string "session fd data").

Lemma not_in_forallb b l : forallb (λ x, negb (x =? b)) l = true → b ∉ l.
Proof.
  intros H Hin. apply list_elem_of_In in Hin.
  rewrite forallb_forall in H. specialize (H b Hin). by rewrite Z.eqb_refl in H.
Qed.

Lemma listen_message_shape :
  ∃ tl, listen_message = (1 :: tl) ∧ (1 ∉ tl) ∧ length (1 :: tl) = 1024%nat.
Proof.
  exists (tail listen_message). split; [by vm_compute|].
  split; [apply not_in_forallb; by vm_compute|by vm_compute].
Qed.

Lemma session_message_shape :
  ∃ tl, session_message = (3 :: tl) ∧ (3 ∉ tl) ∧ length (3 :: tl) = 1024%nat.
Proof.
  exists (tail session_message). split; [by vm_compute|].
  split; [apply not_in_forallb; by vm_compute|by vm_compute].
Qed.

(** What the status of a transfer says of its calls [t], which sent [ks] bytes of
    the message: after [kSendMsgOk] they add up to a message and the reply was
    waited for; [kSendMsgError] means that a [sendmsg] failed before, or that the
    pieces overshot. *)
Definition transfer_result (fd : Z) (buf : list Z) (d : Z) (st : SendMsgStatus) (ks : list nat)
    (t : list event) : Prop :=
  match st with
  | kSendMsgOk => sum_list ks = 1024%nat ∧ (bytes_sent fd t = Some <$> buf ↔ ks = [1024%nat]) ∧
      ∃ t0 r, t = t0 ++ [(SysRecvmsg fd 8 0, r)]
  | kSendMsgError => (sum_list ks < 1024)%nat ∧ send_failed fd buf d t ∨ (1024 < sum_list ks)%nat
  end.

(** What a transfer promises of the bytes and descriptors it sent. *)
Definition transfer_post (u : UnixClient) (buf : list Z) (d : Z) (w : world)
    (o : outcome (SendMsgStatus * UnixClient)) : Prop :=
  match o with
  | Done (st, u') w' => uc_fd_ u' = uc_fd_ u ∧ ∃ t ks, extends w w' t ∧
      sends (uc_fd_ u) buf d ks t ∧ transfer_result (uc_fd_ u) buf d st ks t
  | Blocked _ => True
  | _ => False
  end.

Lemma sends_recv fd buf d ks t n cl r :
  sends fd buf d ks t → sends fd buf d ks (t ++ [(SysRecvmsg fd n cl, r)]).
Proof.
  intros (Hb & Hr & Hk). unfold sends. rewrite bytes_sent_app, rights_sent_app, Hb, Hr.
  cbn. by rewrite !app_nil_r.
Qed.

(** The part the two transfers share, after the message is built. *)
Lemma transfer_spec u d b tl w :
  b ∉ tl → length (b :: tl) = 1024%nat →
  wp (r ← send_loop (uc_fd_ u) (b :: tl) d;
      match r with
      | None => mret (kSendMsgError, u)
      | Some send =>
          if negb (send =? MSG_DATA_BUF_LEN) then mret (kSendMsgError, u)
          else _ ← GetReply u; mret (kSendMsgOk, u)
      end) (transfer_post u (b :: tl) d w) w.
Proof.
  intros Hb Hl. wp_step. eapply wp_mono; [apply send_loop_spec; unfold len; rewrite Hl; done|].
  intros o (t & ks & He & Hs & Hc). destruct o as [[send|] w1| | |w1|]; try done.
  - destruct Hc as [-> Hle]. unfold MSG_DATA_BUF_LEN in *. wp_step; breflect.
    { wp_step. split; [done|]. exists t, ks. split_and!; try done. right. lia. }
    unfold GetReply. wp_steps; try done.
    split; [done|]. exists (t ++ [(SysRecvmsg (uc_fd_ u) 8 0, r)]), ks.
    split; [by eapply extends_trans|]. pose proof (sends_recv _ _ _ _ _ 8 0 r Hs) as Hs'.
    split; [done|]. split; [lia|]. split; [|by eexists _, _].
    destruct Hs' as (-> & _ & Hk). rewrite <- Hl, <- (prefixes_whole b tl ks Hb Hk).
    split; [|by intros ->]. intros H. by apply list_fmap_eq_inj in H; [|congruence].
  - wp_step. split; [done|]. exists t, ks. split_and!; try done. left. destruct Hc. unfold MSG_DATA_BUF_LEN in *.
    split; [lia|done].
Qed.

Lemma TransferListenFd_spec u listen_fd w :
  transfer_post u listen_message listen_fd w (TransferListenFd u listen_fd w).
Proof.
  destruct listen_message_shape as (tl & Hm & Hb & Hl).
  pose proof (transfer_spec (mkUnixClient (uc_fd_ u) (Some listen_fd) listen_message)
    listen_fd 1 tl w Hb Hl) as H.
  unfold wp in H. unfold TransferListenFd. fold listen_message. cbn zeta.
  rewrite Hm in *. exact H.
Qed.

Lemma TransferSessionFd_spec u session_fd w :
  transfer_post u session_message session_fd w (TransferSessionFd u session_fd w).
Proof.
  destruct session_message_shape as (tl & Hm & Hb & Hl).
  pose proof (transfer_spec (mkUnixClient (uc_fd_ u) (Some session_fd) session_message)
    session_fd 3 tl w Hb Hl) as H.
  unfold wp in H. unfold TransferSessionFd. fold session_message. cbn zeta.
  rewrite Hm in *. exact H.
Qed.

(** ** Properties *)

(** A hand-over of the listening socket or of a session that reports
    success sent exactly 1024 bytes, with the descriptor attached to every send;
    the bytes on the wire are the message precisely when a single [sendmsg] took
    it whole.  After a partial send the loop starts again at the beginning of
    the buffer, so short sends that add up to 1024 bytes report success for a
    garbled stream.  A failure is reported when [sendmsg] fails with anything but
    [EINTR] and [EAGAIN], or when the pieces add up to more. *)
Theorem transfer_sends u fd w :
  transfer_post u listen_message fd w (TransferListenFd u fd w) ∧
  transfer_post u session_message fd w (TransferSessionFd u fd w).
Proof. split; [apply TransferListenFd_spec|apply TransferSessionFd_spec]. Qed.
