(* ===== verification/UnixConn.v ===== *)
(** * The receiving side of the hand-over

    Models [hot_upgrade_demo/unix_conn.h] and [unix_conn.cc]: the new server
    collects a message, takes the descriptor out of the control buffer and
    starts to serve it. *)

From S2P Require Import Prelude Sys InetConn UnixSocket Epoll.

(** [cmptr] is the descriptor the control buffer holds: [None] as long as the
    kernel never stored one there. *)
Record UnixConn := mkUnixConn {
  un_fd_ : Z;
  cmptr : option Z
}.

Definition new_UnixConn (fd : Z) : UnixConn := mkUnixConn fd None.

(** The reply is an 8-byte buffer of which "ok" and a zero are written; the
    other five bytes are whatever the stack held. *)
Definition makeCommonReply (u : UnixConn) : M bool :=
  let msgReplyBuf := (Some <$> reply_ok) ++ [Some 0] ++ replicate 5 None in
  sendlen ← call_int (SysSendmsg (un_fd_ u) msgReplyBuf None);
  mret (sendlen =? 8).

(** [assert(buffer.size() > sizeof(uint32_t))]. *)
Definition assert_longer (buffer : list Z) : M () :=
  if 4 <? len buffer then mret () else fail_with AssertFail.

Definition HandleListenFdMsg (u : UnixConn) (ep : Epoll) (fd : Z) (buffer : list Z) : M (bool * Epoll) :=
  _ ← assert_longer buffer;
  '(_, ep) ← attachInetListenFd ep fd;
  _ ← makeCommonReply u;
  mret (true, ep).

Definition received_ip : string := "received conn tmp no ip_port".

Definition HandleSessionFdMsg (u : UnixConn) (ep : Epoll) (fd : Z) (buffer : list Z) : M (bool * Epoll) :=
  _ ← assert_longer buffer;
  let conn := new_InetConn fd received_ip in
  _ ← SetNonblock conn;
  let ep := set_map ep (<[fd := conn]> (inet_conn_map ep)) in
  _ ← AddEvent ep fd (i32 (Z.lor EPOLLIN EPOLLET));
  _ ← makeCommonReply u;
  mret (true, ep).

(** The [while (read < MSG_DATA_BUF_LEN)] loop.  [msg_controllen] is in and out:
    the kernel sets it to what it stored.  [None] is [return kRecvMsgClose]. *)
Record recv_state := mkRecv {
  rs_str : list Z;
  rs_controllen : Z;
  rs_cm : option Z
}.

Definition recv_loop (fd : Z) (cm : option Z) : M (option (list Z) * option Z) :=
  loop (λ st,
    if len (rs_str st) <? MSG_DATA_BUF_LEN then
      r ← call (SysRecvmsg fd MSG_DATA_BUF_LEN (rs_controllen st));
      match r with
      | RMsg bs rights =>
          let cm := match rights with Some d => Some d | None => rs_cm st end in
          if len bs =? 0 then mret (inr (None, cm))
          else mret (inl (mkRecv (rs_str st ++ bs)
                            (match rights with Some _ => CMSG_LEN_INT | None => 0 end) cm))
      | _ =>
          e ← get_errno;
          if (e =? EAGAIN) || (e =? EINTR) then mret (inl st) else mret (inr (None, rs_cm st))
      end
    else mret (inr (Some (rs_str st), rs_cm st)))
    (mkRecv [] CMSG_LEN_INT cm).

Definition processRecv (u : UnixConn) (ep : Epoll) : M (RecvMsgStatus * UnixConn * Epoll) :=
  '(req, cm) ← recv_loop (un_fd_ u) (cmptr u);
  let u := mkUnixConn (un_fd_ u) cm in
  match req with
  | None => mret (kRecvMsgClose, u, ep)
  | Some requestStr =>
      match cm with
      | None => fail_with UninitRead
      | Some fd =>
          let msgType := u32 (le_value (take 4 requestStr)) in
          let requestStr := drop 4 requestStr in
          if msgType =? msg_type_value kTransferListenFd then
            '(_, ep) ← HandleListenFdMsg u ep fd requestStr; mret (kRecvMsgOk, u, ep)
          else if msgType =? msg_type_value kTransferSessionFd then
            '(_, ep) ← HandleSessionFdMsg u ep fd requestStr; mret (kRecvMsgOk, u, ep)
          else mret (kRecvMSGParseError, u, ep)
      end
  end.

#[export] Instance honest_makeCommonReply u : Honest (makeCommonReply u).
Proof. unfold makeCommonReply. cbn zeta. solve_honest. Qed.
#[export] Instance honest_assert_longer b : Honest (assert_longer b).
Proof. unfold assert_longer. solve_honest. Qed.
#[export] Instance honest_SetNonblock c : Honest (SetNonblock c).
Proof. unfold SetNonblock. solve_honest. Qed.
#[export] Instance honest_HandleListenFdMsg u ep fd b : Honest (HandleListenFdMsg u ep fd b).
Proof. unfold HandleListenFdMsg. solve_honest. Qed.
#[export] Instance honest_HandleSessionFdMsg u ep fd b : Honest (HandleSessionFdMsg u ep fd b).
Proof. unfold HandleSessionFdMsg. cbn zeta. solve_honest. Qed.
#[export] Instance honest_recv_loop fd cm : Honest (recv_loop fd cm).
Proof. unfold recv_loop. apply honest_loop. intros. solve_honest. Qed.
#[export] Instance honest_processRecv u ep : Honest (processRecv u ep).
Proof. unfold processRecv. cbn zeta. solve_honest. Qed.

(** ** What a message does *)

(** The descriptor in the control buffer after [l] arrived. *)
Definition held (cm : option Z) (l : list Z) : option Z :=
  match last l with Some d => Some d | None => cm end.

Lemma held_snoc cm l d : held cm (l ++ [d]) = Some d.
Proof. unfold held. by rewrite last_snoc. Qed.

(** An answer of [recvmsg] on which the loop goes on: bytes, or an error on which
    it tries again. *)
Definition recv_goes_on (fd : Z) (ev : event) : Prop :=
  ∃ n cl, ev.1 = SysRecvmsg fd n cl ∧
    ((∃ b bs rights, ev.2 = RMsg (b :: bs) rights) ∨ ev.2 = RErr EAGAIN ∨ ev.2 = RErr EINTR).

(** And one on which it ends: the end of the stream, or another error. *)
Definition recv_ends (fd : Z) (ev : event) : Prop :=
  ∃ n cl, ev.1 = SysRecvmsg fd n cl ∧
    ((∃ rights, ev.2 = RMsg [] rights) ∨ ∃ e, ev.2 = RErr e ∧ e ≠ EAGAIN ∧ e ≠ EINTR).

(** The calls of a loop that went on to the end, or that was ended by the last. *)
Definition recv_whole (fd : Z) (t : list event) : Prop := Forall (recv_goes_on fd) t.
Definition recv_broken (fd : Z) (t : list event) : Prop :=
  ∃ t0 ev, t = t0 ++ [ev] ∧ Forall (recv_goes_on fd) t0 ∧ recv_ends fd ev.

Lemma recv_loop_spec fd cm w :
  wp (recv_loop fd cm) (λ o, ∃ t, extends w (final o) t ∧ quiet_trace t ∧
    match o with
    | Done (req, cm') _ =>
        cm' = held cm (rights_received fd t) ∧
        match req with
        | Some s => s = bytes_received fd t ∧ MSG_DATA_BUF_LEN ≤ len s ∧ all_bytes s = true ∧ recv_whole fd t
        | None => len (bytes_received fd t) < MSG_DATA_BUF_LEN ∧ recv_broken fd t
        end
    | Blocked _ => True
    | _ => False
    end) w.
Proof.
  unfold recv_loop.
  apply (loop_rule _ (λ st w1, ∃ t, extends w w1 t ∧ quiet_trace t ∧ recv_whole fd t ∧ rs_str st = bytes_received fd t ∧
    all_bytes (rs_str st) = true ∧ rs_cm st = held cm (rights_received fd t))).
  2: { exists []. split; [apply extends_refl|]. split; [constructor|]. split; [constructor|done]. }
  intros [str cl cm1] w1 (t & He & Hq & Hwh & Hstr & Hby & Hcm). cbn [rs_str rs_cm rs_controllen] in Hstr, Hby, Hcm |- *. subst str cm1.
  wp_step; breflect; [|wp_step; by exists t].
  wp_step. wp_step; [by exists t|].
  assert (extends w (answered (SysRecvmsg fd MSG_DATA_BUF_LEN cl) r w1)
    (t ++ [(SysRecvmsg fd MSG_DATA_BUF_LEN cl, r)])) as He1 by (by eapply extends_trans).
  assert (quiet_trace (t ++ [(SysRecvmsg fd MSG_DATA_BUF_LEN cl, r)])) as Hq1
    by (apply Forall_app; split; [done|by repeat constructor]).
  answer_cases.
  - assert (bytes_received fd (t ++ [(SysRecvmsg fd MSG_DATA_BUF_LEN cl, RErr e)]) = bytes_received fd t)
      as Hb by (rewrite bytes_received_app; cbn; by rewrite app_nil_r).
    assert (rights_received fd (t ++ [(SysRecvmsg fd MSG_DATA_BUF_LEN cl, RErr e)]) = rights_received fd t)
      as Hr by (rewrite rights_received_app; cbn; by rewrite app_nil_r).
    wp_steps; [split; [|by eapply answered_shorter]|]; (eexists; split; [exact He1|]; split; [exact Hq1|]);
      rewrite Hb, Hr.
    + split; [|done]. apply Forall_app. split; [done|]. constructor; [|constructor]. eexists _, _.
      split; [done|]. cbn in Heqb0. apply orb_true_iff in Heqb0 as [?%Z.eqb_eq|?%Z.eqb_eq]; subst; auto.
    + split; [done|]. split; [done|]. eexists _, _. split; [done|]. split; [done|]. eexists _, _. split; [done|].
      right. exists e. apply orb_false_iff in Heqb0 as [?%Z.eqb_neq ?%Z.eqb_neq]. done.
  - assert (bytes_received fd (t ++ [(SysRecvmsg fd MSG_DATA_BUF_LEN cl, RMsg bs rights)])
      = bytes_received fd t ++ bs) as Hb
      by (rewrite bytes_received_app; cbn; by rewrite Z.eqb_refl, app_nil_r).
    assert (held cm (rights_received fd (t ++ [(SysRecvmsg fd MSG_DATA_BUF_LEN cl, RMsg bs rights)]))
      = match rights with Some d => Some d | None => held cm (rights_received fd t) end) as Hr.
    { rewrite rights_received_app. destruct rights; cbn; rewrite ?Z.eqb_refl, ?app_nil_r; [|done].
      apply held_snoc. }
    wp_step; breflect; wp_step; [|split; [|by eapply answered_shorter]];
      (eexists; split; [exact He1|]; split; [exact Hq1|]); rewrite Hb, Hr; cbn [rs_str rs_cm].
    + assert (bs = []) as -> by (apply nil_length_inv; unfold len in *; lia).
      split; [done|]. rewrite app_nil_r. split; [done|]. eexists _, _. split; [done|]. split; [done|].
      eexists _, _. eauto.
    + split; [|split; [done|by rewrite all_bytes_app, Hby]]. apply Forall_app. split; [done|].
      constructor; [|constructor]. destruct bs as [|b bs]; [done|]. eexists _, _. eauto 7.
Qed.

Definition type_of (req : list Z) : Z := u32 (le_value (take 4 req)).

Definition common_reply (u : UnixConn) (r : reply) : event :=
  (SysSendmsg (un_fd_ u) ((Some <$> reply_ok) ++ [Some 0] ++ replicate 5 None) None, r).

Definition listen_calls (u : UnixConn) (ep : Epoll) (d : Z) (t : list event) : Prop :=
  ∃ r1 r2, t = [(SysEpollCtl (epfd_ ep) EPOLL_CTL_ADD d EPOLLIN, r1); common_reply u r2].

Definition session_calls (u : UnixConn) (ep : Epoll) (d : Z) (t : list event) : Prop :=
  ∃ r1 r2 r3 r4,
    t = [(SysFcntl d F_GETFD 0, r1);
         (SysFcntl d F_SETFL (Z.lor (ret_of r1) O_NONBLOCK), r2);
         (SysEpollCtl (epfd_ ep) EPOLL_CTL_ADD d (Z.lor EPOLLIN EPOLLET), r3);
         common_reply u r4].

Lemma HandleListenFdMsg_spec u ep d buffer w :
  4 < len buffer →
  wp (HandleListenFdMsg u ep d buffer) (λ o, match o with
    | Done (_, ep') w' => ep' = set_inet_listen ep d ∧
        ∃ t, extends w w' t ∧ listen_calls u ep d t
    | Blocked _ => True
    | _ => False
    end) w.
Proof.
  intros Hl. unfold HandleListenFdMsg, assert_longer, attachInetListenFd, AddEvent, makeCommonReply.
  rewrite (proj2 (Z.ltb_lt _ _) Hl). cbn zeta. wp_steps; try done.
  split; [done|]. eexists. split; [solve_extends|]. by eexists _, _.
Qed.

Lemma HandleSessionFdMsg_spec u ep d buffer w :
  4 < len buffer →
  wp (HandleSessionFdMsg u ep d buffer) (λ o, match o with
    | Done (_, ep') w' =>
        ep' = set_map ep (<[d := new_InetConn d received_ip]> (inet_conn_map ep)) ∧
        ∃ t, extends w w' t ∧ session_calls u ep d t
    | Blocked _ => True
    | _ => False
    end) w.
Proof.
  intros Hl. unfold HandleSessionFdMsg, assert_longer, SetNonblock, AddEvent, makeCommonReply.
  rewrite (proj2 (Z.ltb_lt _ _) Hl). cbn zeta. wp_steps; try done.
  split; [done|]. eexists. split; [solve_extends|].
  change (u32 (i32 (Z.lor EPOLLIN EPOLLET))) with (Z.lor EPOLLIN EPOLLET). by eexists _, _, _, _.
Qed.

(** The whole of [processRecv]: [t] are the calls that collected the message and
    [t'] those that acted on it. *)
Definition process_post (u : UnixConn) (ep : Epoll) (w : world)
    (o : outcome (RecvMsgStatus * UnixConn * Epoll)) : Prop :=
  match o with
  | Done (st, u', ep') w' => ∃ t t', extends w w' (t ++ t') ∧ quiet_trace t ∧ un_fd_ u' = un_fd_ u ∧
      cmptr u' = held (cmptr u) (rights_received (un_fd_ u) t) ∧
      let req := bytes_received (un_fd_ u) t in
      match st with
      | kRecvMsgOk => recv_whole (un_fd_ u) t ∧ MSG_DATA_BUF_LEN ≤ len req ∧ ∃ d, cmptr u' = Some d ∧
          ((type_of req = 1 ∧ ep' = set_inet_listen ep d ∧ listen_calls u ep d t') ∨
           (type_of req = 3 ∧
              ep' = set_map ep (<[d := new_InetConn d received_ip]> (inet_conn_map ep)) ∧
              session_calls u ep d t'))
      | kRecvMSGParseError => recv_whole (un_fd_ u) t ∧
          MSG_DATA_BUF_LEN ≤ len req ∧ type_of req ≠ 1 ∧ type_of req ≠ 3 ∧ ep' = ep ∧ t' = []
      | kRecvMsgClose => recv_broken (un_fd_ u) t ∧ len req < MSG_DATA_BUF_LEN ∧ ep' = ep ∧ t' = []
      | kRecvMsgError => False
      end
  | Faulted f w' => f = UninitRead ∧ cmptr u = None ∧ ∃ t, extends w w' t ∧ recv_whole (un_fd_ u) t ∧
      rights_received (un_fd_ u) t = [] ∧ MSG_DATA_BUF_LEN ≤ len (bytes_received (un_fd_ u) t)
  | Blocked _ => True
  | _ => False
  end.

Lemma processRecv_spec u ep w : wp (processRecv u ep) (process_post u ep w) w.
Proof.
  unfold processRecv. wp_step. eapply wp_mono; [apply recv_loop_spec|].
  intros o (t & He & Hq & Ho). destruct o as [[req cm'] w1| | |w1|]; try done.
  destruct Ho as [Hcm Hreq]. cbn zeta. destruct req as [req|].
  2: { destruct Hreq as [? ?]. wp_step. exists t, []. rewrite app_nil_r. split_and!; try done. }
  destruct Hreq as (-> & Hlen & Hby & Hwh). set (req := bytes_received (un_fd_ u) t) in *.
  assert (4 < len (drop 4 req)) as Hd
    by (unfold len, MSG_DATA_BUF_LEN in *; rewrite length_drop; lia).
  destruct cm' as [d|]; [|wp_step].
  2: { unfold held in Hcm. destruct (last (rights_received (un_fd_ u) t)) eqn:El; [done|].
       split; [done|]. split; [done|]. exists t. by apply last_None in El. }
  set (u1 := mkUnixConn (un_fd_ u) (Some d)).
  wp_step; breflect; [|wp_step; breflect]; [wp_step|wp_step|].
  - eapply wp_mono; [by apply (HandleListenFdMsg_spec u1)|].
    intros [[b ep'] w2| | |w2|] Hh; try done. destruct Hh as (-> & t' & He' & Hc).
    wp_step. exists t, t'. split; [by eapply extends_trans|]. split_and!; try done.
    cbn zeta. split; [done|]. split; [done|]. exists d. eauto 10.
  - eapply wp_mono; [by apply (HandleSessionFdMsg_spec u1)|].
    intros [[b ep'] w2| | |w2|] Hh; try done. destruct Hh as (-> & t' & He' & Hc).
    wp_step. exists t, t'. split; [by eapply extends_trans|]. split_and!; try done.
    cbn zeta. split; [done|]. split; [done|]. exists d. eauto 10.
  - wp_step. exists t, []. rewrite app_nil_r. split_and!; done.
Qed.

(** ** Properties *)

(** C17: a message is handled by its type only after all its 1024 bytes
    arrived, in any number of pieces.  A listening-socket message makes the loop
    listen on the descriptor in the control buffer, a session message puts a
    fresh connection for it in the table, both register it and answer "ok"; an
    unknown type changes nothing.  [recvmsg] is tried again after [EAGAIN] and
    [EINTR]: [kRecvMsgClose] means that the last call gave no byte or failed with
    another error before the message was complete, and changes nothing either.
    The [assert] cannot fail, and the only fault is taking a descriptor out of a
    control buffer the kernel never filled. *)
Theorem processRecv_correct u ep w : process_post u ep w (processRecv u ep w).
Proof. exact (processRecv_spec u ep w). Qed.
