(* ===== verification/Handover.v ===== *)
(** * The hand-over end to end

    The sending side ([UnixClient]) against the receiving side ([UnixConn]):
    what one process puts on the Unix socket is what the other acts on. *)

From S2P Require Import Prelude Sys InetConn UnixSocket Epoll UnixClient UnixConn.

(** What the peer of a run saw on the socket: the bytes, and the descriptors
    that went with them. *)
Definition put_on_wire (fd : Z) (w w' : world) (bs : list Z) (rights : list Z) : Prop :=
  ∃ t, extends w w' t ∧ bytes_sent fd t = Some <$> bs ∧ rights_sent fd t = rights.

(** What a run took from the socket. *)
Definition taken_from_wire (fd : Z) (w w' : world) (bs : list Z) (rights : list Z) : Prop :=
  ∃ t, extends w w' t ∧ bytes_received fd t = bs ∧ rights_received fd t = rights.

(** A transfer in one send puts exactly its message on the wire. *)
Lemma transfer_once u buf d w u' w' bs :
  transfer_post u buf d w (Done (kSendMsgOk, u') w') →
  put_on_wire (uc_fd_ u) w w' bs [d] → bs = buf.
Proof.
  intros (_ & t & ks & He & Hs & Hok) (t' & He' & Hb & Hr).
  rewrite (extends_inj _ _ _ _ He' He) in *. destruct Hs as (_ & Hrs & _).
  destruct Hok as (Hsum & Hiff & _). rewrite Hrs in Hr.
  destruct ks as [|k [|k2 ks]]; try done. cbn in Hsum.
  assert (k = 1024%nat) as -> by lia. pose proof (proj2 Hiff eq_refl) as Hm.
  rewrite Hm in Hb. symmetry. by apply list_fmap_eq_inj in Hb; [|congruence].
Qed.

Lemma no_recv_after u ep d t :
  listen_calls u ep d t ∨ session_calls u ep d t ∨ t = [] →
  ∀ fd, bytes_received fd t = [] ∧ rights_received fd t = [].
Proof.
  intros [(?&?& ->)|[(?&?&?&?& ->)| ->]] fd; done.
Qed.

(** What the receiver does with a message it took whole. *)
Lemma process_message u ep w st u' ep' w' bs d :
  process_post u ep w (Done (st, u', ep') w') →
  taken_from_wire (un_fd_ u) w w' bs [d] → len bs = MSG_DATA_BUF_LEN →
  match type_of bs with
  | 1 => st = kRecvMsgOk ∧ ep' = set_inet_listen ep d
  | 3 => st = kRecvMsgOk ∧ ep' = set_map ep (<[d := new_InetConn d received_ip]> (inet_conn_map ep)) ∧
      ∃ t t', extends w w' (t ++ t') ∧ session_calls u ep d t'
  | _ => st = kRecvMSGParseError ∧ ep' = ep
  end.
Proof.
  intros (t & t' & He & _ & _ & Hcm & Hst) (t0 & He0 & Hb & Hr) Hl.
  rewrite (extends_inj _ _ _ _ He0 He) in *. cbn zeta in Hst.
  rewrite bytes_received_app in Hb. rewrite rights_received_app in Hr.
  assert (∃ d, listen_calls u ep d t' ∨ session_calls u ep d t' ∨ t' = []) as [d' Ht'].
  { destruct st; try done; [destruct Hst as (_ & _ & d' & _ & [(_ & _ & ?)|(_ & _ & ?)])|..];
      try (by exists d'; auto); exists 0; right; right; apply Hst. }
  destruct (no_recv_after _ _ _ _ Ht' (un_fd_ u)) as [Hb0 Hr0].
  rewrite Hb0, app_nil_r in Hb. rewrite Hr0, app_nil_r in Hr. rewrite Hb in Hst. rewrite Hr in Hcm.
  cbn in Hcm. destruct st; [| |done|lia].
  - destruct Hst as (_ & _ & d1 & Hd & Hty). rewrite Hcm in Hd. injection Hd as <-.
    destruct Hty as [(-> & -> & _)|(-> & -> & ?)]; [done|eauto 10].
  - destruct Hst as (_ & _ & H1 & H3 & -> & _). by destruct (type_of bs) as [|[[]|[]|]|].
Qed.

(** A concrete hand-over: the kernel renumbers the descriptor to 9 and delivers
    the message in two pieces, interrupted once. *)
Definition demo_epoll : Epoll := mkEpoll 3 (-1) 4 (-1) (-1) ∅ [].
Definition demo_send (m : M (SendMsgStatus * UnixClient)) : outcome (SendMsgStatus * UnixClient) :=
  run m [RInt 1024; RMsg [111; 107; 0; 0; 0; 0; 0; 0] None].
Definition demo_recv (msg : list Z) (acks : list reply) : outcome (RecvMsgStatus * UnixConn * Epoll) :=
  run (processRecv (new_UnixConn 5) demo_epoll)
    ([RMsg (take 100 msg) (Some 9); RErr EINTR; RMsg (drop 100 msg) None] ++ acks).

(** ** Properties *)

(** C12: the listening socket moves.  If the old process reports success and
    its message went out in one send, and the new process received those bytes
    in any number of pieces together with the descriptor [d], then the new
    process reports success and listens on [d]; nothing else in its loop
    changes. *)
Theorem listen_socket_handed_over uc listen_fd w1 uc' w1' un ep w2 st un' ep' w2' bs d :
  TransferListenFd uc listen_fd w1 = Done (kSendMsgOk, uc') w1' →
  put_on_wire (uc_fd_ uc) w1 w1' bs [listen_fd] →
  processRecv un ep w2 = Done (st, un', ep') w2' →
  taken_from_wire (un_fd_ un) w2 w2' bs [d] →
  st = kRecvMsgOk ∧ ep' = set_inet_listen ep d.
Proof.
  intros H1 Hw1 H2 Hw2. pose proof (TransferListenFd_spec uc listen_fd w1) as P1.
  pose proof (processRecv_spec un ep w2) as P2. unfold wp in P2. rewrite H1 in P1. rewrite H2 in P2.
  rewrite (transfer_once _ _ _ _ _ _ _ P1 Hw1) in Hw2.
  exact (process_message _ _ _ _ _ _ _ _ _ P2 Hw2 eq_refl).
Qed.

Lemma listen_socket_handed_over_witness :
  let o := demo_recv listen_message [RInt 0; RInt 8] in
  let r := value (kRecvMsgError, new_UnixConn 0, demo_epoll) o in
  r.1.1 = kRecvMsgOk ∧ r.2 = set_inet_listen demo_epoll 9.
Proof.
  cbn zeta. set (s := demo_send (TransferListenFd (new_UnixClient 4) 6)).
  set (o := demo_recv listen_message [RInt 0; RInt 8]).
  set (r := value (kRecvMsgError, new_UnixConn 0, demo_epoll) o).
  apply (listen_socket_handed_over (new_UnixClient 4) 6 (World (map snd (trace (final s))) 0 [])
    (value (kSendMsgError, new_UnixClient 0) s).2 (final s) (new_UnixConn 5) demo_epoll
    (World (map snd (trace (final o))) 0 []) r.1.1 r.1.2 r.2 (final o) listen_message 9);
    [vm_compute; reflexivity| |vm_compute; reflexivity|].
  - exists (trace (final s)). split; [|split]; vm_compute; reflexivity.
  - exists (trace (final o)). split; [|split]; vm_compute; reflexivity.
Defined.

(** A session moves: under the same conditions the new process serves [d]
    with a fresh connection object, every other connection being untouched. *)
Theorem session_handed_over uc session_fd w1 uc' w1' un ep w2 st un' ep' w2' bs d :
  TransferSessionFd uc session_fd w1 = Done (kSendMsgOk, uc') w1' →
  put_on_wire (uc_fd_ uc) w1 w1' bs [session_fd] →
  processRecv un ep w2 = Done (st, un', ep') w2' →
  taken_from_wire (un_fd_ un) w2 w2' bs [d] →
  st = kRecvMsgOk ∧
  inet_conn_map ep' !! d = Some (new_InetConn d received_ip) ∧
  ∀ fd, fd ≠ d → inet_conn_map ep' !! fd = inet_conn_map ep !! fd.
Proof.
  intros H1 Hw1 H2 Hw2. pose proof (TransferSessionFd_spec uc session_fd w1) as P1.
  pose proof (processRecv_spec un ep w2) as P2. unfold wp in P2. rewrite H1 in P1. rewrite H2 in P2.
  rewrite (transfer_once _ _ _ _ _ _ _ P1 Hw1) in Hw2.
  destruct (process_message _ _ _ _ _ _ _ _ _ P2 Hw2 eq_refl) as (-> & -> & _).
  split; [done|]. cbn. split; [apply lookup_insert_eq|].
  intros fd Hfd. by apply lookup_insert_ne.
Qed.

Lemma session_handed_over_witness :
  let o := demo_recv session_message [RInt 0; RInt 0; RInt 0; RInt 8] in
  let r := value (kRecvMsgError, new_UnixConn 0, demo_epoll) o in
  r.1.1 = kRecvMsgOk ∧
  inet_conn_map r.2 !! 9 = Some (new_InetConn 9 received_ip) ∧
  ∀ fd, fd ≠ 9 → inet_conn_map r.2 !! fd = inet_conn_map demo_epoll !! fd.
Proof.
  cbn zeta. set (s := demo_send (TransferSessionFd (new_UnixClient 4) 6)).
  set (o := demo_recv session_message [RInt 0; RInt 0; RInt 0; RInt 8]).
  set (r := value (kRecvMsgError, new_UnixConn 0, demo_epoll) o).
  apply (session_handed_over (new_UnixClient 4) 6 (World (map snd (trace (final s))) 0 [])
    (value (kSendMsgError, new_UnixClient 0) s).2 (final s) (new_UnixConn 5) demo_epoll
    (World (map snd (trace (final o))) 0 []) r.1.1 r.1.2 r.2 (final o) session_message 9);
    [vm_compute; reflexivity| |vm_compute; reflexivity|].
  - exists (trace (final s)). split; [|split]; vm_compute; reflexivity.
  - exists (trace (final o)). split; [|split]; vm_compute; reflexivity.
Defined.
