(* ===== verification/Server.v ===== *)
(** * The upgradable echo server

    Models [hot_upgrade_demo/server.cc]: the event handlers, the event loop and
    the start of the process.  An old server gives its listening socket and its
    idle sessions to a new one started with [-u]. *)

From S2P Require Import Prelude Sys InetConn InetSocket UnixSocket Epoll UnixClient UnixConn.

Definition UNIX_CLIENT_TRIGGER : string := "./unix_client_trigger".
Definition UNIX_SOCKET_LOCK_FILE : string := "./unix_socket_lock_file".

(** [ep] is the object [Epoll::getInstance()] returns, created by [main] before
    any handler runs; [unix_conn] and [unix_client] are the two global pointers;
    the rest are locals of [main]. *)
Record server := mkServer {
  ep : Epoll;
  unix_conn : option UnixConn;
  unix_client : option UnixClient;
  unix_conn_fd : Z;
  unix_client_fd : Z;
  unix_socket_init : bool
}.

Definition with_ep (s : server) (e : Epoll) : server :=
  mkServer e (unix_conn s) (unix_client s) (unix_conn_fd s) (unix_client_fd s) (unix_socket_init s).

Definition with_conn (s : server) (fd : Z) (c : InetConn) : server :=
  with_ep s (set_map (ep s) (<[fd := c]> (inet_conn_map (ep s)))).

Definition InitSignal : M () := _ ← call_int (SysSignalIgnore SIGPIPE); mret ().

Definition FileExists (path : string) : M bool :=
  r ← call_int (SysAccess path F_OK); mret (r =? 0).

Definition has (m bit : Z) : bool := negb (Z.land m bit =? 0).

Definition handle_unix_event (fe : FiredEvent) (s : server) : M (Z * server) :=
  if has (mask fe) EPOLLERR || has (mask fe) EPOLLHUP then mret (-1, s)
  else
    match unix_conn s with
    | None => mret (-1, s)
    | Some u =>
        if has (mask fe) EPOLLIN then
          '(rms, u, e) ← processRecv u (ep s);
          let s := mkServer e (Some u) (unix_client s) (unix_conn_fd s) (unix_client_fd s)
                     (unix_socket_init s) in
          if decide (rms = kRecvMsgOk) then mret (0, s) else mret (-1, s)
        else mret (0, s)
    end.

Definition handle_net_event (fe : FiredEvent) (s : server) : M (Z * server) :=
  if has (mask fe) EPOLLERR || has (mask fe) EPOLLHUP then mret (-1, s)
  else
    match inet_conn_map (ep s) !! fired_fd fe with
    | None => mret (-1, s)
    | Some conn =>
        match (if has (mask fe) EPOLLIN && EmptyReadBuf conn then unix_client s else None) with
        | Some uc =>
            '(_, uc) ← TransferSessionFd uc (fired_fd fe);
            mret (-1, mkServer (ep s) (unix_conn s) (Some uc) (unix_conn_fd s) (unix_client_fd s)
                        (unix_socket_init s))
        | None =>
            if has (mask fe) EPOLLIN then
              '(rs, conn) ← GetRequest conn;
              let s := with_conn s (fired_fd fe) conn in
              match rs with
              | kReadAll => _ ← ModEvent (ep s) (fired_fd fe) EPOLLOUT; mret (0, s)
              | kReadHalf => mret (0, s)
              | _ => mret (-1, s)
              end
            else if has (mask fe) EPOLLOUT then
              '(ws, conn) ← SendReply conn;
              let s := with_conn s (fired_fd fe) conn in
              match ws with
              | kWriteAll => _ ← ModEvent (ep s) (fired_fd fe) EPOLLIN; mret (0, s)
              | kWriteHalf => mret (0, s)
              | _ => mret (-1, s)
              end
            else mret (0, s)
        end
    end.

(** The four branches of the event loop for one fired event. *)
Definition accept_inet (s : server) : M server :=
  '(inet_conn_fd, ip_port) ← inet_server_accept (inet_listen_fd (ep s));
  if inet_conn_fd <? 0 then exit (-1)
  else
    let conn := new_InetConn inet_conn_fd ip_port in
    _ ← SetNonblock conn;
    let s := with_conn s inet_conn_fd conn in
    _ ← AddEvent (ep s) inet_conn_fd (i32 (Z.lor EPOLLIN EPOLLET));
    mret s.

Definition accept_unix (s : server) : M server :=
  '(fd, _) ← unix_server_accept (unix_listen_fd (ep s)) false;
  let s := mkServer (ep s) (unix_conn s) (unix_client s) fd (unix_client_fd s) (unix_socket_init s) in
  if unix_conn_fd s <? 0 then exit (-1)
  else
    let s := mkServer (ep s) (Some (new_UnixConn (unix_conn_fd s))) (unix_client s)
               (unix_conn_fd s) (unix_client_fd s) (unix_socket_init s) in
    _ ← AddEvent (ep s) (unix_conn_fd s) EPOLLIN;
    mret s.

(** [unix_conn_fd] keeps its value when the connection is torn down. *)
Definition on_unix_conn (fe : FiredEvent) (s : server) : M server :=
  '(ret, s) ← handle_unix_event fe s;
  if ret =? -1 then
    _ ← DelEvent (ep s) (fired_fd fe);
    _ ← sys_close (fired_fd fe);
    mret (mkServer (ep s) None (unix_client s) (unix_conn_fd s) (unix_client_fd s) (unix_socket_init s))
  else mret s.

Definition on_inet_conn (fe : FiredEvent) (s : server) : M server :=
  '(ret, s) ← handle_net_event fe s;
  if ret =? -1 then
    _ ← DelEvent (ep s) (fired_fd fe);
    _ ← sys_close (fired_fd fe);
    mret (with_ep s (set_map (ep s) (delete (fired_fd fe) (inet_conn_map (ep s)))))
  else mret s.

Definition dispatch (fe : FiredEvent) (s : server) : M server :=
  if fired_fd fe =? inet_listen_fd (ep s) then accept_inet s
  else if fired_fd fe =? unix_listen_fd (ep s) then accept_unix s
  else if fired_fd fe =? unix_conn_fd s then on_unix_conn fe s
  else on_inet_conn fe s.

Fixpoint dispatch_all (fes : list FiredEvent) (s : server) : M server :=
  match fes with
  | [] => mret s
  | fe :: fes => s ← dispatch fe s; dispatch_all fes s
  end.

(** The hand-over of the listening socket, once the trigger file is there. *)
Definition trigger (path : string) (s : server) : M server :=
  exists_ ← FileExists path;
  if exists_ && negb (unix_socket_init s) && String.eqb path UNIX_CLIENT_TRIGGER then
    fd ← unix_client_conn UNIX_SOCKET_LOCK_FILE;
    if fd <? 0 then exit (-1)
    else
      '(sms, uc) ← TransferListenFd (new_UnixClient fd) (inet_listen_fd (ep s));
      e ← (if decide (sms = kSendMsgOk) then detachInetListenFd (ep s) else mret (ep s));
      mret (mkServer e (unix_conn s) (Some uc) (unix_conn_fd s) fd true)
  else mret s.

(** One round of the [for (;;)] loop. *)
Definition main_iter (path : string) (s : server) : M server :=
  s ← trigger path s;
  '(nfds, e) ← Poll (ep s) 10;
  let s := with_ep s e in
  if nfds =? -1 then exit (-1)
  else dispatch_all (take (Z.to_nat nfds) (firedevent_ (ep s))) s.

Definition main_start (argv : list string) : M (string * server) :=
  _ ← InitSignal;
  match argv with
  | _ :: path :: _ =>
      e ← getInstance None;
      '(ret, e) ← (if String.eqb path "-u" then startUnixServer e UNIX_SOCKET_LOCK_FILE
                   else startInetServer e 9221);
      if ret : bool then mret (path, mkServer e None None (-1) (-1) false) else exit (-1)
  | _ => exit (-1)
  end.

Definition main (argv : list string) : M () :=
  '(path, s) ← main_start argv;
  loop (λ s, s ← main_iter path s; mret (inl s)) s.
