(* ===== verification/ServerInv.v ===== *)
(** * Correctness of the server loop

    What the epoll instance watches is computed from the trace; the documented
    behaviour of epoll is the hypothesis [kernel_ok].  Under it an invariant ties
    every connection object to its registration: a connection that still owes a
    reply is registered for output only, hence is never handed over. *)

From S2P Require Import Prelude Sys InetConn InetSocket UnixSocket Epoll UnixClient UnixConn.
From S2P Require Import Server.

(** ** The watched descriptors *)
Definition interest_step (m : gmap Z Z) (ev : event) : gmap Z Z :=
  match ev with
  | (SysEpollCtl _ op fd events, RInt _) =>
      if op =? EPOLL_CTL_DEL then delete fd m else <[fd := events]> m
  | (SysClose fd, _) => delete fd m
  | _ => m
  end.

Definition interest (t : list event) : gmap Z Z := foldl interest_step ∅ t.

(** epoll(7) and epoll_ctl(2): a watched descriptor can be modified, and
    [epoll_wait] reports a descriptor once, and only conditions it is watched for
    (errors and hang-ups apart).  A descriptor that is added is open and not
    watched yet: the kernel hands out unused numbers, and the peer attaches a
    descriptor to every message, so that no descriptor is added twice.  An
    addition may fail. *)
Definition event_ok (t : list event) (ev : event) : Prop :=
  match ev with
  | (SysEpollCtl _ op fd _, r) =>
      if op =? EPOLL_CTL_ADD then 0 ≤ fd ∧ interest t !! fd = None
      else if op =? EPOLL_CTL_MOD then is_Some (interest t !! fd) → r = RInt 0
      else True
  | (SysEpollWait _ _ _, REvents evs) =>
      NoDup evs.*1 ∧ ∀ fd e, (fd, e) ∈ evs → ∃ m, interest t !! fd = Some m ∧
        (has e EPOLLIN = true → has m EPOLLIN = true) ∧
        (has e EPOLLOUT = true → has m EPOLLOUT = true)
  | _ => True
  end.

Definition kernel_ok (t : list event) : Prop :=
  ∀ t1 ev t2, t = t1 ++ ev :: t2 → event_ok t1 ev.

Lemma kernel_ok_prefix t1 t2 : kernel_ok (t1 ++ t2) → kernel_ok t1.
Proof. intros H a ev b ->. apply (H a ev (b ++ t2)). by rewrite <- app_assoc. Qed.

Lemma kernel_ok_extends w w' t :
  extends w w' t → kernel_ok (trace w') → kernel_ok (trace w).
Proof. unfold extends. intros ->. apply kernel_ok_prefix. Qed.

Lemma interest_app t1 t2 : interest (t1 ++ t2) = foldl interest_step (interest t1) t2.
Proof. apply foldl_app. Qed.

Lemma quiet_step m ev : quiet ev.1 = true → interest_step m ev = m.
Proof. by destruct ev as [[] []]. Qed.

Lemma quiet_interest t1 t2 : quiet_trace t2 → interest (t1 ++ t2) = interest t1.
Proof.
  intros Hq. rewrite interest_app. generalize (interest t1) as m.
  induction Hq as [|ev t Hev _ IH]; intros m; cbn; [done|]. by rewrite quiet_step.
Qed.

Lemma interest_ctl t epfd op fd events v :
  interest (t ++ [(SysEpollCtl epfd op fd events, RInt v)]) =
    if op =? EPOLL_CTL_DEL then delete fd (interest t) else <[fd := events]> (interest t).
Proof. by rewrite interest_app. Qed.

(** ** The invariant *)

(** Nothing to send. *)
Definition idle (c : InetConn) : Prop := reply_ c = [] ∧ last_write_pos_ c = 0.

Definition conn_inv (s : server) (w : world) (fd : Z) (c : InetConn) : Prop :=
  0 ≤ fd ∧ fd_ c = fd ∧ read_ok c ∧ write_ok c ∧
  (idle c ∨ (interest (trace w) !! fd = Some EPOLLOUT ∧ last_read_pos_ c = 0 ∧
             fd ≠ inet_listen_fd (ep s) ∧ fd ≠ unix_conn_fd s)).

Definition server_inv (s : server) (w : world) : Prop :=
  ∀ fd c, inet_conn_map (ep s) !! fd = Some c → conn_inv s w fd c.

(** The event is one the kernel may report for this descriptor now. *)
Definition fired_ok (w : world) (fe : FiredEvent) : Prop :=
  ∃ m, interest (trace w) !! fired_fd fe = Some m ∧
    (has (mask fe) EPOLLIN = true → has m EPOLLIN = true) ∧
    (has (mask fe) EPOLLOUT = true → has m EPOLLOUT = true).

(** Handling one event leaves the registration of every other one alone. *)
Definition stable (fd0 : Z) (w w' : world) : Prop :=
  ∀ fd, fd ≠ fd0 → is_Some (interest (trace w) !! fd) →
  interest (trace w') !! fd = interest (trace w) !! fd.

(** What handling one event promises. *)
Definition step_post (fd0 : Z) (w : world) (o : outcome server) : Prop :=
  match o with
  | Done s' w' => kernel_ok (trace w') → server_inv s' w' ∧ stable fd0 w w'
  | _ => True
  end.

(** A new role [new] of a descriptor does not touch a registered connection. *)
Definition harmless (new old : Z) (m : gmap Z Z) (fd : Z) : Prop :=
  fd = new → fd = old ∨ m !! fd = None ∨ fd < 0.

(** The connections kept from [s] are those whose registration is kept. *)
Lemma server_inv_keep s w s' w' :
  server_inv s w →
  (∀ fd c, inet_conn_map (ep s') !! fd = Some c →
     conn_inv s' w' fd c ∨
     (inet_conn_map (ep s) !! fd = Some c ∧
      (is_Some (interest (trace w) !! fd) → interest (trace w') !! fd = interest (trace w) !! fd) ∧
      harmless (inet_listen_fd (ep s')) (inet_listen_fd (ep s)) (interest (trace w)) fd ∧
      harmless (unix_conn_fd s') (unix_conn_fd s) (interest (trace w)) fd)) →
  server_inv s' w'.
Proof.
  intros Hinv Hk fd c Hc. destruct (Hk fd c Hc) as [?|(Hold & He & Hl' & Hu')]; [done|].
  destruct (Hinv fd c Hold) as (Hpos & Hfd & Hr & Hw & Hi).
  split_and!; try done. destruct Hi as [?|(Hout & Hp & Hl & Hu)]; [by left|].
  right. rewrite He by (by eexists). split_and!; try done.
  - intros H. destruct (Hl' H) as [?|[?|?]]; [done|congruence|lia].
  - intros H. destruct (Hu' H) as [?|[?|?]]; [done|congruence|lia].
Qed.

Lemma harmless_refl f m fd : harmless f f m fd.
Proof. intros ?. by left. Qed.

Lemma run_quiet_interest {A} (m : M A) `{!Quiet m} w :
  interest (trace (final (m w))) = interest (trace w).
Proof. destruct (emits (m := m) w) as (t & -> & Hq). by apply quiet_interest. Qed.

(** Only the registration of [fd] may differ. *)
Definition same_except (fd : Z) (m m' : gmap Z Z) : Prop :=
  ∀ fd1, fd1 ≠ fd → m' !! fd1 = m !! fd1.

Lemma same_except_ctl t epfd fd events r :
  same_except fd (interest t) (interest (t ++ [(SysEpollCtl epfd EPOLL_CTL_ADD fd events, r)])).
Proof.
  intros fd1 Hne. rewrite interest_app. cbn. destruct r; try done. by rewrite lookup_insert_ne.
Qed.

(** An addition among quiet calls. *)
Lemma add_interest t t1 t2 epfd fd events r :
  quiet_trace t1 → quiet_trace t2 →
  kernel_ok (t ++ t1 ++ (SysEpollCtl epfd EPOLL_CTL_ADD fd events, r) :: t2) →
  interest t !! fd = None ∧ 0 ≤ fd ∧
  same_except fd (interest t)
    (interest (t ++ t1 ++ (SysEpollCtl epfd EPOLL_CTL_ADD fd events, r) :: t2)).
Proof.
  intros H1 H2. rewrite !(app_assoc t). intros H. destruct (H (t ++ t1) _ t2 eq_refl) as (Hp & Hn).
  rewrite (quiet_interest t t1) in Hn by done. split_and!; [done..|].
  rewrite cons_middle, app_assoc, (quiet_interest _ t2), <- (quiet_interest t t1) by done.
  apply same_except_ctl.
Qed.

Lemma mod_interest t epfd fd events r :
  is_Some (interest t !! fd) →
  kernel_ok (t ++ [(SysEpollCtl epfd EPOLL_CTL_MOD fd events, r)]) →
  interest (t ++ [(SysEpollCtl epfd EPOLL_CTL_MOD fd events, r)]) = <[fd := events]> (interest t).
Proof. intros Hs H. pose proof (H t _ [] eq_refl Hs) as ->. by rewrite interest_ctl. Qed.

Lemma wp_mod {A} e fd events (k : Z → M A) (Q : outcome A → Prop) w :
  is_Some (interest (trace w) !! fd) →
  (∀ w1, Q (Blocked w1)) →
  (∀ v w', (kernel_ok (trace w') → interest (trace w') = <[fd := u32 events]> (interest (trace w))) →
     wp (k v) Q w') →
  wp (v ← ModEvent e fd events; k v) Q w.
Proof.
  intros Hs HB HD. unfold ModEvent. wp_steps; [apply HB|]. apply HD. intros Hk.
  by apply mod_interest in Hk.
Qed.

(** The teardown of a connection: unregister and close. *)
Lemma wp_teardown {A} e fd (x : A) (Q : outcome A → Prop) w :
  (∀ w1, Q (Blocked w1)) →
  (∀ w' t, extends w w' t → interest (trace w') = delete fd (interest (trace w)) → Q (Done x w')) →
  wp (_ ← DelEvent e fd; _ ← sys_close fd; mret x) Q w.
Proof.
  intros HB HD. unfold DelEvent, sys_close. wp_steps; try apply HB. eapply HD; [solve_extends|]. cbn.
  rewrite <- app_assoc. rewrite interest_app. cbn. destruct r; cbn; try done.
  by rewrite delete_delete_eq.
Qed.

(** Fresh connections owe nothing. *)
Lemma fresh_conn_inv s w fd ip : 0 ≤ fd → conn_inv s w fd (new_InetConn fd ip).
Proof. intros. pose proof (new_InetConn_ok fd ip) as [? ?]. split_and!; try done. by left. Qed.

(** A new descriptor [fd] is registered and gets a fresh connection. *)
Lemma server_inv_add s w w' s' fd ip :
  server_inv s w → 0 ≤ fd → interest (trace w) !! fd = None →
  same_except fd (interest (trace w)) (interest (trace w')) →
  inet_conn_map (ep s') = <[fd := new_InetConn fd ip]> (inet_conn_map (ep s)) →
  inet_listen_fd (ep s') = inet_listen_fd (ep s) → unix_conn_fd s' = unix_conn_fd s →
  server_inv s' w' ∧ ∀ fd0, stable fd0 w w'.
Proof.
  intros Hinv Hpos Hn Hi Hm Hl Hu. split.
  - apply (server_inv_keep s w); [done|]. intros fd1 c. rewrite Hm, Hl, Hu.
    destruct (decide (fd1 = fd)) as [->|Hne].
    + rewrite lookup_insert_eq. intros [= <-]. left. by apply fresh_conn_inv.
    + rewrite lookup_insert_ne by done. intros Hc. right.
      split_and!; [done|by intros _; apply Hi|apply harmless_refl..].
  - intros fd0 fd1 _ [m Hm1]. apply Hi. congruence.
Qed.

(** A new descriptor [fd] is registered for the listening or hand-over socket. *)
Lemma server_inv_role s w w' s' fd :
  server_inv s w → interest (trace w) !! fd = None →
  same_except fd (interest (trace w)) (interest (trace w')) →
  inet_conn_map (ep s') = inet_conn_map (ep s) →
  inet_listen_fd (ep s') ∈ [inet_listen_fd (ep s); fd] →
  unix_conn_fd s' ∈ [unix_conn_fd s; fd] →
  server_inv s' w' ∧ ∀ fd0, stable fd0 w w'.
Proof.
  intros Hinv Hn Hi Hm Hl Hu. split.
  - apply (server_inv_keep s w); [done|]. intros fd1 c. rewrite Hm. intros Hc. right.
    split_and!; try done.
    + intros [m Hm1]. apply Hi. congruence.
    + intros ->. apply elem_of_cons in Hl as [->|Hl]; [by left|].
      apply list_elem_of_singleton in Hl as ->. auto.
    + intros ->. apply elem_of_cons in Hu as [->|Hu]; [by left|].
      apply list_elem_of_singleton in Hu as ->. auto.
  - intros fd0 fd1 _ [m Hm1]. apply Hi. congruence.
Qed.

(** Quiet parts of a handler can be skipped. *)
Lemma step_quiet {A} (m : M A) k fd0 w0 w `{!Quiet m} :
  (∀ a w1, m w = Done a w1 → interest (trace w1) = interest (trace w) →
     wp (k a) (step_post fd0 w0) w1) →
  wp (m ≫= k) (step_post fd0 w0) w.
Proof.
  intros H. wp_step. pose proof (run_quiet_interest m w) as Hi. unfold wp at 1.
  destruct (m w) as [a w1| | | |]; try done. by apply H.
Qed.

#[export] Instance quiet_inet_server_accept fd : Quiet (inet_server_accept fd).
Proof. unfold inet_server_accept. solve_emits. Qed.
#[export] Instance quiet_SetNonblock c : Quiet (SetNonblock c).
Proof. unfold SetNonblock. solve_emits. Qed.

Lemma accept_inet_inv s w fd0 :
  server_inv s w → wp (accept_inet s) (step_post fd0 w) w.
Proof.
  intros Hinv. unfold accept_inet.
  apply step_quiet; [apply _|]. intros [fd ip] w1 _ Hi1.
  wp_step; breflect; [by wp_step|]. cbn zeta.
  apply step_quiet; [apply _|]. intros b w2 _ Hi2.
  unfold AddEvent. wp_steps; [done|]. intros Hk. cbn [answered trace] in Hk.
  apply (add_interest _ [] []) in Hk as (Hn & _ & Ha'); [|constructor..].
  rewrite Hi2, Hi1 in *. cbn [app] in Ha'.
  destruct (server_inv_add s w (answered _ r w2) (with_conn s fd (new_InetConn fd ip)) fd ip
    Hinv Heqb Hn Ha' eq_refl eq_refl eq_refl) as [? Hst]. split; [done|apply Hst].
Qed.

(** The hand-over socket: only a successful accept goes on. *)
Lemma accept_unix_inv s w fd0 :
  server_inv s w → wp (accept_unix s) (step_post fd0 w) w.
Proof.
  intros Hinv. unfold accept_unix. wp_step. eapply wp_mono; [apply unix_server_accept_spec|].
  intros [[v uid] w1| | | |] Ho; try done. destruct Ho as [_ Ho]. cbn zeta.
  cbn [unix_conn_fd]. wp_step; breflect; [by wp_step|].
  rewrite (proj2 (Z.leb_le 0 v)) in Ho by done.
  destruct Ho as (addr & st & now & r & _ & _ & He & _).
  assert (interest (trace w1) = interest (trace w)) as Hi
    by (rewrite He; apply quiet_interest; by repeat constructor).
  unfold AddEvent. wp_steps; [done|]. intros Hk. cbn [answered trace] in Hk.
  apply (add_interest _ [] []) in Hk as (Hn & _ & Ha'); [|constructor..].
  rewrite Hi in *. cbn [app] in Ha'.
  match goal with |- server_inv ?s' ?w' ∧ _ =>
    destruct (server_inv_role s w w' s' v Hinv Hn Ha' eq_refl) as [? Hst]; cbn; [set_solver..|] end.
  split; [done|apply Hst].
Qed.

(** Forgetting a descriptor that carries no reply. *)
Lemma server_inv_drop s w s' w' fd :
  server_inv s w → interest (trace w') = delete fd (interest (trace w)) →
  (∀ fd1 c, inet_conn_map (ep s') !! fd1 = Some c →
     inet_conn_map (ep s) !! fd1 = Some c ∧ (fd1 = fd → fd = unix_conn_fd s)) →
  inet_listen_fd (ep s') = inet_listen_fd (ep s) → unix_conn_fd s' = unix_conn_fd s →
  server_inv s' w' ∧ stable fd w w'.
Proof.
  intros Hinv Hi Hm Hl Hu. split.
  - intros fd1 c Hc. destruct (Hm fd1 c Hc) as [Hold Hfd].
    destruct (Hinv fd1 c Hold) as (? & ? & ? & ? & Hidle). split_and!; try done.
    destruct Hidle as [?|(Hout & ? & ? & ?)]; [by left|]. right. rewrite Hi, Hl, Hu.
    rewrite lookup_delete_ne; [done|]. intros <-. by rewrite <- Hfd in *.
  - intros fd1 Hne _. by rewrite Hi, lookup_delete_ne.
Qed.

Lemma stable_trans fd0 w1 w2 w3 : stable fd0 w1 w2 → stable fd0 w2 w3 → stable fd0 w1 w3.
Proof.
  intros H1 H2 fd Hne Hs. rewrite H2; [by apply H1|done|]. by rewrite H1.
Qed.

Lemma server_inv_same s w s' w' :
  server_inv s w → interest (trace w') = interest (trace w) →
  inet_conn_map (ep s') = inet_conn_map (ep s) →
  inet_listen_fd (ep s') = inet_listen_fd (ep s) → unix_conn_fd s' = unix_conn_fd s →
  server_inv s' w' ∧ ∀ fd0, stable fd0 w w'.
Proof.
  intros Hinv Hi Hm Hl Hu. split.
  - apply (server_inv_keep s w); [done|]. intros fd c. rewrite Hm, Hi, Hl, Hu. intros Hc.
    right. split_and!; try done; apply harmless_refl.
  - intros fd0 fd _ _. by rewrite Hi.
Qed.

Lemma process_inv s u w st u' e' w' :
  server_inv s w → process_post u (ep s) w (Done (st, u', e') w') → kernel_ok (trace w') →
  server_inv (mkServer e' (Some u') (unix_client s) (unix_conn_fd s) (unix_client_fd s)
                (unix_socket_init s)) w' ∧ ∀ fd0, stable fd0 w w'.
Proof.
  intros Hinv (t & t' & He & Hq & _ & _ & Hst) Hk. unfold extends in He. cbn zeta in Hst.
  assert (e' = ep s → t' = [] → server_inv (mkServer e' (Some u') (unix_client s) (unix_conn_fd s)
    (unix_client_fd s) (unix_socket_init s)) w' ∧ ∀ fd0, stable fd0 w w') as Hnop.
  { intros -> ->. apply (server_inv_same s w); try done.
    rewrite He, app_nil_r. by apply quiet_interest. }
  destruct st; [|apply Hnop; apply Hst|done|apply Hnop; apply Hst].
  destruct Hst as (_ & _ & d & _ & [(_ & -> & r1 & r2 & ->)|(_ & -> & r1 & r2 & r3 & r4 & ->)]).
  - rewrite He in Hk. apply add_interest in Hk as (Hn & Hp & Hi); [|done|by repeat constructor].
    rewrite <- He in Hi. apply (server_inv_role s w w' _ d);
      [done..|cbn; set_solver|cbn; set_solver].
  - assert (∀ (a b : event) l, t ++ a :: b :: l = (t ++ [a; b]) ++ l) as Hs
      by (intros; by rewrite <- app_assoc).
    rewrite He in Hk. rewrite Hs in Hk, He.
    apply add_interest in Hk as (Hn & Hp & Hi).
    + rewrite <- He in Hi.
      by apply (server_inv_add s w w' _ d received_ip).
    + apply Forall_app. split; [done|by repeat constructor].
    + by repeat constructor.
Qed.

Lemma on_unix_conn_inv fe s w :
  server_inv s w → fired_fd fe = unix_conn_fd s →
  wp (on_unix_conn fe s) (step_post (fired_fd fe) w) w.
Proof.
  intros Hinv Hfd. unfold on_unix_conn.
  assert (∀ s' w', (kernel_ok (trace w') → server_inv s' w' ∧ stable (fired_fd fe) w w') →
    unix_conn_fd s' = unix_conn_fd s →
    wp (_ ← DelEvent (ep s') (fired_fd fe); _ ← sys_close (fired_fd fe);
        mret (mkServer (ep s') None (unix_client s') (unix_conn_fd s') (unix_client_fd s')
          (unix_socket_init s'))) (step_post (fired_fd fe) w) w') as Hdrop.
  { intros s' w' Hs' Hu. apply wp_teardown; [done|]. intros w2 t He Hi Hk.
    destruct Hs' as [Hinv' Hst]; [by eapply kernel_ok_extends|].
    edestruct (server_inv_drop s' w') as [Hd Hst2]; [done|exact Hi| | | |]; cycle 3.
    { split; [exact Hd|]. by eapply stable_trans. }
    all: try done. intros fd1 c Hc. split; [done|]. intros ->. congruence. }
  unfold handle_unix_event. wp_step. wp_step; [wp_step; by apply Hdrop|].
  wp_step; [|wp_step; by apply Hdrop]. wp_step; [|by wp_step].
  wp_step. eapply wp_mono; [apply processRecv_spec|].
  intros [[[rms u'] e'] w1| | | |] Hp; try done. cbn zeta.
  pose proof (process_inv _ _ _ _ _ _ _ Hinv Hp) as Hpi.
  wp_step; wp_step; cbn -[DelEvent sys_close].
  - intros Hk. destruct (Hpi Hk) as [? Hst]. split; [done|apply Hst].
  - apply (Hdrop (mkServer e' (Some u') _ _ _ _)); [|done]. intros Hk.
    destruct (Hpi Hk) as [? Hst]. split; [done|apply Hst].
Qed.

(** One connection and its registration change. *)
Lemma server_inv_update s w w' fd c :
  server_inv s w → conn_inv (with_conn s fd c) w' fd c →
  (∀ fd1, fd1 ≠ fd → interest (trace w') !! fd1 = interest (trace w) !! fd1) →
  server_inv (with_conn s fd c) w' ∧ stable fd w w'.
Proof.
  intros Hinv Hc Hi. split; [|by intros fd1 Hne _; apply Hi].
  apply (server_inv_keep s w); [done|]. intros fd1 c1. cbn.
  destruct (decide (fd1 = fd)) as [->|Hne].
  - rewrite lookup_insert_eq. intros [= <-]. by left.
  - rewrite lookup_insert_ne by done. intros Hc1. right.
    split_and!; try done; [by intros _; apply Hi|apply harmless_refl..].
Qed.

Definition net_post (fe : FiredEvent) (s : server) (w : world) (o : outcome (Z * server)) : Prop :=
  match o with
  | Done (ret, s') w' => kernel_ok (trace w') →
      inet_listen_fd (ep s') = inet_listen_fd (ep s) ∧ unix_conn_fd s' = unix_conn_fd s ∧
      (∀ fd, fd ≠ fired_fd fe → inet_conn_map (ep s') !! fd = inet_conn_map (ep s) !! fd) ∧
      if ret =? -1 then interest (trace w') = interest (trace w)
      else server_inv s' w' ∧ stable (fired_fd fe) w w'
  | _ => True
  end.

Lemma has_in_not_out m : has m EPOLLIN = true → m ≠ EPOLLOUT.
Proof. intros H ->. discriminate. Qed.

(** A readable connection owes nothing: it is watched for input. *)
Lemma readable_idle s w fe c :
  server_inv s w → fired_ok w fe → has (mask fe) EPOLLIN = true →
  inet_conn_map (ep s) !! fired_fd fe = Some c → idle c.
Proof.
  intros Hinv (m & Hm & Hin & _) Hb Hc. destruct (Hinv _ _ Hc) as (_ & _ & _ & _ & [?|(Hout & _)]); [done|].
  apply Hin, has_in_not_out in Hb. congruence.
Qed.

Lemma net_read_inv fe s w c :
  server_inv s w → fired_ok w fe → inet_conn_map (ep s) !! fired_fd fe = Some c → idle c →
  fired_fd fe ≠ inet_listen_fd (ep s) → fired_fd fe ≠ unix_conn_fd s →
  wp ('(rs, conn) ← GetRequest c;
      let s := with_conn s (fired_fd fe) conn in
      match rs with
      | kReadAll => _ ← ModEvent (ep s) (fired_fd fe) EPOLLOUT; mret (0, s)
      | kReadHalf => mret (0, s)
      | _ => mret (-1, s)
      end) (net_post fe s w) w.
Proof.
  intros Hinv (m0 & Hm0 & _) Hc Hidle Hl Hu. destruct (Hinv _ _ Hc) as (Hpos & Hfd & Hr & Hw & _).
  wp_step. pose proof (GetRequest_spec c w Hr) as Hg. pose proof (run_quiet_interest (GetRequest c) w) as Hi.
  unfold wp in Hg |- * at 1. destruct (GetRequest c w) as [[rs c'] w1| | | |]; try done.
  destruct Hg as (t & He & (Hsfd & _ & Hsw) & Hb & Hst). cbn in Hi. cbn zeta.
  assert (∀ fd, fd ≠ fired_fd fe →
    inet_conn_map (ep (with_conn s (fired_fd fe) c')) !! fd = inet_conn_map (ep s) !! fd) as Hm
    by (intros; by apply lookup_insert_ne).
  destruct rs; try (wp_step; intros _; split_and!; done).
  - destruct Hst as (_ & Hrep & Hr' & _). wp_step. intros _. split_and!; try done.
    apply server_inv_update; [done| |intros; by rewrite Hi].
    destruct Hidle as [Hi1 Hi2].
    split_and!; try done; [congruence| |left; split; congruence].
    unfold write_ok. rewrite Hrep, Hsw, Hi1, Hi2. done.
  - destruct Hst as (_ & Hlen & Hp). apply wp_mod; [rewrite Hi; by eexists|done|]. intros v w2 Hk. rewrite Hi in Hk.
    change (u32 EPOLLOUT) with EPOLLOUT in Hk. wp_step. intros Hok. specialize (Hk Hok). split_and!; try done.
    apply server_inv_update; [done| |intros; rewrite Hk; by apply lookup_insert_ne].
    split_and!; try done; [congruence| | |].
    + apply read_ok_short; [done|]. rewrite Hp. done.
    + unfold write_ok. destruct Hidle as [_ Hi2]. rewrite Hsw, Hi2. split; [done|apply len_nonneg].
    + right. rewrite Hk. split_and!; try done. apply lookup_insert_eq.
Qed.

Lemma read_ok_same c c' :
  last_read_pos_ c' = last_read_pos_ c → read_buf_ c' = read_buf_ c → read_ok c → read_ok c'.
Proof. intros Hp Hb [[? ? ?] ?]. split; [split|]; rewrite ?Hp, ?Hb; done. Qed.

Lemma net_write_inv fe s w c :
  server_inv s w → fired_ok w fe → inet_conn_map (ep s) !! fired_fd fe = Some c →
  fired_fd fe ≠ inet_listen_fd (ep s) → fired_fd fe ≠ unix_conn_fd s →
  wp ('(ws, conn) ← SendReply c;
      let s := with_conn s (fired_fd fe) conn in
      match ws with
      | kWriteAll => _ ← ModEvent (ep s) (fired_fd fe) EPOLLIN; mret (0, s)
      | kWriteHalf => mret (0, s)
      | _ => mret (-1, s)
      end) (net_post fe s w) w.
Proof.
  intros Hinv (m0 & Hm0 & _) Hc Hl Hu. destruct (Hinv _ _ Hc) as (Hpos & Hfd & Hr & Hw & Hreg).
  wp_step. pose proof (SendReply_spec c w Hw) as Hg. pose proof (run_quiet_interest (SendReply c) w) as Hi.
  unfold wp in Hg |- * at 1. destruct (SendReply c w) as [[ws c'] w1| | | |]; try done.
  destruct Hg as (t & He & Hst). cbn in Hi. cbn zeta.
  assert (∀ fd, fd ≠ fired_fd fe →
    inet_conn_map (ep (with_conn s (fired_fd fe) c')) !! fd = inet_conn_map (ep s) !! fd) as Hm
    by (intros; by apply lookup_insert_ne).
  destruct ws; [| |wp_step; intros _; split_and!; done].
  - destruct Hst as (_ & Hw' & Hrep & Hfd' & Hp' & Hb'). wp_step. intros _. split_and!; try done.
    apply server_inv_update; [done| |intros; by rewrite Hi].
    split_and!; try done; [congruence|by eapply read_ok_same|].
    destruct Hreg as [[Hi1 Hi2]|(Hout & Hp & _)]; [left|right; rewrite Hi; split_and!; try done; congruence].
    unfold write_ok, len in Hw'. rewrite Hrep, Hi1 in Hw'. split; [congruence|cbn in Hw'; lia].
  - destruct Hst as (_ & Hr0 & Hw0 & Hfd' & Hp' & Hb'). apply wp_mod; [rewrite Hi; by eexists|done|]. intros v w2 Hk.
    rewrite Hi in Hk. wp_step. intros Hok. specialize (Hk Hok). split_and!; try done.
    apply server_inv_update; [done| |intros; rewrite Hk; by apply lookup_insert_ne].
    split_and!; try done; [congruence|by eapply read_ok_same| |by left].
    unfold write_ok. rewrite Hr0, Hw0. done.
Qed.

Lemma handle_net_event_inv fe s w :
  server_inv s w → fired_ok w fe →
  fired_fd fe ≠ inet_listen_fd (ep s) → fired_fd fe ≠ unix_conn_fd s →
  wp (handle_net_event fe s) (net_post fe s w) w.
Proof.
  intros Hinv Hf Hl Hu. unfold handle_net_event.
  wp_step; [wp_step; intros _; split_and!; done|].
  destruct (inet_conn_map (ep s) !! fired_fd fe) as [c|] eqn:Hc;
    [|wp_step; intros _; split_and!; done].
  destruct (has (mask fe) EPOLLIN) eqn:Hin.
  - pose proof (readable_idle _ _ _ _ Hinv Hf Hin Hc) as Hidle.
    destruct (if true && EmptyReadBuf c then unix_client s else None) as [uc|];
      [|by apply net_read_inv].
    wp_step. pose proof (run_quiet_interest (TransferSessionFd uc (fired_fd fe)) w) as Hi.
    unfold wp at 1. destruct (TransferSessionFd uc (fired_fd fe) w) as [[sms uc'] w1| | | |]; try done.
  - cbn [andb]. wp_step; [by apply net_write_inv|]. wp_step. intros _. split_and!; try done.
Qed.

Lemma on_inet_conn_inv fe s w :
  server_inv s w → fired_ok w fe →
  fired_fd fe ≠ inet_listen_fd (ep s) → fired_fd fe ≠ unix_conn_fd s →
  wp (on_inet_conn fe s) (step_post (fired_fd fe) w) w.
Proof.
  intros Hinv Hf Hl Hu. unfold on_inet_conn. wp_step.
  eapply wp_mono; [by apply handle_net_event_inv|].
  intros [[ret s1] w1| | | |] Hn; try done. cbn beta iota.
  destruct (ret =? -1) eqn:Hret.
  - apply wp_teardown; [done|]. intros w2 t He Hi Hk.
    destruct Hn as (Hl1 & Hu1 & Hm & Hi1); [by eapply kernel_ok_extends|]. rewrite Hret in Hi1.
    rewrite Hi1 in Hi. apply (server_inv_drop s w); try done. cbn. intros fd1 c.
    destruct (decide (fd1 = fired_fd fe)) as [->|Hne]; [by rewrite lookup_delete_eq|].
    rewrite lookup_delete_ne, Hm by done. done.
  - wp_step. intros Hk. destruct (Hn Hk) as (_ & _ & _ & H). by rewrite Hret in H.
Qed.

Lemma dispatch_inv fe s w :
  server_inv s w → fired_ok w fe → wp (dispatch fe s) (step_post (fired_fd fe) w) w.
Proof.
  intros Hinv Hf. unfold dispatch. wp_step; breflect; [by apply accept_inet_inv|].
  wp_step; breflect; [by apply accept_unix_inv|].
  wp_step; breflect; [by apply on_unix_conn_inv|by apply on_inet_conn_inv].
Qed.

Lemma fired_ok_stable fd0 w w' fe :
  stable fd0 w w' → fired_fd fe ≠ fd0 → fired_ok w fe → fired_ok w' fe.
Proof. intros Hs Hne (m & Hm & H). exists m. rewrite Hs; [done|done|by eexists]. Qed.

(** A run that ends with [Done] is [kernel_ok] at every earlier point. *)
Lemma kernel_ok_before {A} (m : M A) `{!Honest m} w a w' :
  m w = Done a w' → kernel_ok (trace w') → kernel_ok (trace w).
Proof.
  intros E. destruct (honest (m := m) w) as (t & He & _). rewrite E in He.
  by apply (kernel_ok_extends w w' t).
Qed.

#[export] Instance honest_handle_unix_event fe s : Honest (handle_unix_event fe s).
Proof. unfold handle_unix_event. cbn zeta. solve_honest. Qed.
#[export] Instance honest_handle_net_event fe s : Honest (handle_net_event fe s).
Proof. unfold handle_net_event. cbn zeta. solve_honest. Qed.
#[export] Instance honest_dispatch fe s : Honest (dispatch fe s).
Proof.
  unfold dispatch, accept_inet, accept_unix, on_unix_conn, on_inet_conn. cbn zeta. solve_honest.
Qed.
#[export] Instance honest_dispatch_all fes s : Honest (dispatch_all fes s).
Proof. revert s. induction fes; intros s; cbn; solve_honest. Qed.

(** The invariant of the event loop: the events of the round that are left are
    still ones the kernel may report. *)
Definition loop_inv (fes : list FiredEvent) (s : server) (w : world) : Prop :=
  server_inv s w ∧ NoDup (fired_fd <$> fes) ∧ Forall (fired_ok w) fes.

Lemma loop_inv_event fe fes s w s' w' :
  loop_inv (fe :: fes) s w → dispatch fe s w = Done s' w' → kernel_ok (trace w') →
  loop_inv fes s' w'.
Proof.
  intros (Hinv & Hnd & Hf) E Hk. apply NoDup_cons in Hnd as [Hnin Hnd].
  inversion_clear Hf as [|? ? Hfe Hfes]. pose proof (dispatch_inv fe s w Hinv Hfe) as Hd.
  unfold wp in Hd. rewrite E in Hd. destruct (Hd Hk) as [Hinv1 Hst]. split_and!; [done..|].
  apply Forall_forall. intros fe1 Hfe1. rewrite Forall_forall in Hfes.
  eapply fired_ok_stable; [exact Hst| |by apply Hfes].
  intros Heq. apply Hnin. rewrite <- Heq. by apply list_elem_of_fmap_2.
Qed.

(** ** The hand-over of the listening socket *)

Lemma unix_client_conn_quiet name w v w' :
  unix_client_conn name w = Done v w' → 0 ≤ v → interest (trace w') = interest (trace w).
Proof.
  intros E Hv. enough (wp (unix_client_conn name) (λ o, match o with
    | Done v w' => 0 ≤ v → ∃ t, extends w w' t ∧ quiet_trace t
    | _ => True end) w) as H.
  { unfold wp in H. rewrite E in H. destruct (H Hv) as (t & -> & Hq). by apply quiet_interest. }
  unfold unix_client_conn. cbn zeta. repeat wp_clean; try (intros ?; prune; done).
  all: intros _; eexists; (split; [solve_extends|]); by repeat constructor.
Qed.

(** Giving up the listening socket. *)
Lemma server_inv_detach s w s' w' :
  server_inv s w →
  interest (trace w') = delete (inet_listen_fd (ep s)) (interest (trace w)) →
  inet_conn_map (ep s') = inet_conn_map (ep s) →
  inet_listen_fd (ep s') = -1 → unix_conn_fd s' = unix_conn_fd s →
  server_inv s' w'.
Proof.
  intros Hinv Hi Hm Hl Hu fd c. rewrite Hm. intros Hc.
  destruct (Hinv fd c Hc) as (? & ? & ? & ? & Hidle). split_and!; try done.
  destruct Hidle as [?|(Hout & ? & ? & ?)]; [by left|]. right. rewrite Hi, Hl, Hu.
  rewrite lookup_delete_ne by done. split_and!; try done. lia.
Qed.

Definition trigger_post (path : string) (s : server) (w : world) (o : outcome server) : Prop :=
  match o with
  | Done s' w' =>
      s' = s ∧ interest (trace w') = interest (trace w) ∨
      unix_socket_init s = false ∧ path = UNIX_CLIENT_TRIGGER ∧
      unix_socket_init s' = true ∧ is_Some (unix_client s') ∧
      unix_conn_fd s' = unix_conn_fd s ∧ unix_conn s' = unix_conn s ∧
      (ep s' = ep s ∧ interest (trace w') = interest (trace w) ∨
       ep s' = set_inet_listen (ep s) (-1) ∧
       interest (trace w') = delete (inet_listen_fd (ep s)) (interest (trace w)))
  | _ => True
  end.

#[export] Instance quiet_FileExists path : Quiet (FileExists path).
Proof. unfold FileExists. solve_emits. Qed.

Lemma trigger_spec path s w : wp (trigger path s) (trigger_post path s w) w.
Proof.
  unfold trigger. wp_step. pose proof (run_quiet_interest (FileExists path) w) as Hi0.
  unfold wp at 1. destruct (FileExists path w) as [b w0| | | |]; try done. cbn in Hi0.
  wp_step; [|wp_step; by left]. breflect.
  wp_step. unfold wp at 1.
  destruct (unix_client_conn UNIX_SOCKET_LOCK_FILE w0) as [fd w1| | | |] eqn:E; try done.
  wp_step; breflect; [by wp_step|]. apply unix_client_conn_quiet in E; [|done].
  wp_step. pose proof (run_quiet_interest (TransferListenFd (new_UnixClient fd) (inet_listen_fd (ep s))) w1) as Hi.
  unfold wp at 1.
  destruct (TransferListenFd (new_UnixClient fd) (inet_listen_fd (ep s)) w1) as [[sms uc] w2| | | |]; try done.
  cbn in Hi. rewrite E, Hi0 in Hi. wp_step. wp_step.
  - unfold detachInetListenFd. apply wp_teardown; [done|]. intros w3 t _ Hi3. wp_step.
    right. split_and!; try done. right. by rewrite <- Hi.
  - wp_step. wp_step. right. split_and!; try done. by left.
Qed.

Lemma has_land29 e bit : bit = EPOLLIN ∨ bit = EPOLLOUT → has (Z.land e 29) bit = has e bit.
Proof. intros [-> | ->]; unfold has; by rewrite <- Z.land_assoc. Qed.

(** The events of a round are ones the kernel may report. *)
Lemma poll_fired e w n e' w' :
  poll_post e 10 w (Done (n, e') w') → kernel_ok (trace w') →
  interest (trace w') = interest (trace w) ∧
  NoDup (fired_fd <$> take (Z.to_nat n) (firedevent_ e')) ∧
  Forall (fired_ok w') (take (Z.to_nat n) (firedevent_ e')).
Proof.
  intros (_ & _ & r & He & Hr) Hk.
  assert (interest (trace w') = interest (trace w)) as Hi
    by (rewrite He; apply quiet_interest; by repeat constructor).
  split; [done|]. rewrite He in Hk. specialize (Hk (trace w) _ [] eq_refl).
  destruct r as [| | | |evs| | |]; try (destruct Hr as [-> _]; cbn; split; constructor).
  destruct Hr as [_ ->]. destruct Hk as [Hnd Hev]. split.
  - assert (fired_fd <$> map (λ '(fd, events), mkFired (Z.land events 29) fd) evs = evs.*1) as ->; [|done].
    clear. induction evs as [|[fd ev] evs IH]; cbn; [done|]. f_equal. apply IH.
  - apply Forall_forall. intros fe Hfe. apply list_elem_of_In, in_map_iff in Hfe as ([fd ev] & <- & Hin).
    apply list_elem_of_In, Hev in Hin as (m & Hm & H1 & H2).
    exists m. cbn. rewrite Hi, !has_land29 by auto. done.
Qed.

Lemma loop_inv_poll path s w s1 w1 n e w2 :
  server_inv s w → trigger path s w = Done s1 w1 → Poll (ep s1) 10 w1 = Done (n, e) w2 →
  kernel_ok (trace w2) → loop_inv (take (Z.to_nat n) (firedevent_ e)) (with_ep s1 e) w2.
Proof.
  intros Hinv Et Ep Hk. pose proof (trigger_spec path s w) as Ht. unfold wp in Ht. rewrite Et in Ht.
  assert (server_inv s1 w1) as Hinv1.
  { destruct Ht as [[-> Hi]|(_ & _ & _ & _ & Hu & _ & [[He Hi]|[He Hi]])].
    - by apply (server_inv_same s w).
    - apply (server_inv_same s w); rewrite ?He; done.
    - apply (server_inv_detach s w); rewrite ?He; done. }
  pose proof (Poll_spec (ep s1) 10 w1) as Hp. unfold wp in Hp. rewrite Ep in Hp.
  destruct (poll_fired _ _ _ _ _ Hp Hk) as (Hi & Hnd & Hf). split_and!; [|done..].
  destruct Hp as (_ & He & _). apply (server_inv_same s1 w1); try done; cbn; by rewrite He.
Qed.
