(* ===== verification/ServerProps.v ===== *)
(** * Properties of the server process

    Reachable states of [main], what the loop promises in them, and how the
    process can end. *)

From S2P Require Import Prelude Sys InetConn InetSocket UnixSocket Epoll UnixClient UnixConn.
From S2P Require Import Server ServerInv.

(** ** How a program can end *)

(** The ways the input can break the process: a negative length, a missing
    descriptor, a path that does not fit. *)
Definition input_fault (f : fault) : bool :=
  match f with LengthError | UninitRead | BufferOverflow => true | _ => false end.

(** A program that never runs out of fuel, only exits with -1 and has no other
    faults. *)
Class Tame {A} (m : M A) : Prop := tame w :
  match m w with
  | NoFuel _ => False
  | Exited c _ => c = -1
  | Faulted f _ => input_fault f = true
  | _ => True
  end.

#[export] Instance tame_ret {A} (a : A) : Tame (mret a).
Proof. done. Qed.
#[export] Instance tame_exit {A} : Tame (@exit A (-1)).
Proof. done. Qed.
#[export] Instance tame_overflow {A} : Tame (@fail_with A BufferOverflow).
Proof. done. Qed.
#[export] Instance tame_length {A} : Tame (@fail_with A LengthError).
Proof. done. Qed.
#[export] Instance tame_get_errno : Tame get_errno.
Proof. done. Qed.
#[export] Instance tame_set_errno e : Tame (set_errno e).
Proof. done. Qed.

#[export] Instance tame_call c : Tame (call c).
Proof. intros w. unfold call. destruct (script w) as [|r s]; [done|]. by destruct (answers c r). Qed.

#[export] Instance tame_bind {A B} (m : M A) (k : A → M B) :
  Tame m → (∀ a, Tame (k a)) → Tame (m ≫= k).
Proof.
  intros Hm Hk w. specialize (Hm w). unfold mbind, M_bind.
  destruct (m w) as [a w'| | | |]; try done. apply Hk.
Qed.

(** A loop whose every round makes a call has enough fuel. *)
Lemma tame_loop {S A} (body : S → M (S + A)) s :
  (∀ s, Tame (body s)) →
  (∀ s w s' w', body s w = Done (inl s') w' → (length (script w') < length (script w))%nat) →
  Tame (loop body s).
Proof.
  intros Ht Hc w. apply (loop_rule body (λ _ _, True)); [|done].
  intros s1 w1 _. unfold wp. specialize (Ht s1 w1). specialize (Hc s1 w1).
  destruct (body s1 w1) as [[s'|a] w'| | | |]; try done. eauto.
Qed.

Ltac solve_tame :=
  repeat (cbn beta iota zeta; first
    [ apply _
    | apply tame_bind; [|intros ?]
    | lazymatch goal with
      | |- Tame (if ?b then _ else _) => destruct b
      | |- Tame (match ?x with _ => _ end) => destruct x
      end ]).

#[export] Instance tame_call_int c : Tame (call_int c).
Proof. unfold call_int. solve_tame. Qed.
#[export] Instance tame_read fd n : Tame (sys_read fd n).
Proof. unfold sys_read. solve_tame. Qed.
#[export] Instance tame_write fd bs : Tame (sys_write fd bs).
Proof. unfold sys_write. solve_tame. Qed.
#[export] Instance tame_close fd : Tame (sys_close fd).
Proof. unfold sys_close. solve_tame. Qed.

#[export] Instance tame_GetRequest c : Tame (GetRequest c).
Proof.
  unfold GetRequest, GetBody, finish, read_more, request_string, fill. solve_tame.
Qed.
#[export] Instance tame_SetNonblock c : Tame (SetNonblock c).
Proof. unfold SetNonblock. solve_tame. Qed.
#[export] Instance tame_SendReply c : Tame (SendReply c).
Proof. unfold SendReply. solve_tame. Qed.
#[export] Instance tame_copy_path n : Tame (copy_path n).
Proof. unfold copy_path. solve_tame. Qed.
#[export] Instance tame_terminate_path n : Tame (terminate_path n).
Proof. unfold terminate_path. solve_tame. Qed.
#[export] Instance tame_errout fd r : Tame (errout fd r).
Proof. unfold errout. solve_tame. Qed.
#[export] Instance tame_transfer u d : Tame (TransferListenFd u d).
Proof.
  intros w. pose proof (TransferListenFd_spec u d w) as H. by destruct (TransferListenFd u d w).
Qed.
#[export] Instance tame_transfer_session u d : Tame (TransferSessionFd u d).
Proof.
  intros w. pose proof (TransferSessionFd_spec u d w) as H. by destruct (TransferSessionFd u d w).
Qed.
#[export] Instance tame_processRecv u e : Tame (processRecv u e).
Proof.
  intros w. pose proof (processRecv_spec u e w) as H. unfold wp in H.
  destruct (processRecv u e w); try done. by destruct H as [-> _].
Qed.
#[export] Instance tame_unix_client_conn n : Tame (unix_client_conn n).
Proof. unfold unix_client_conn. solve_tame. Qed.
#[export] Instance tame_trigger p s : Tame (trigger p s).
Proof. unfold trigger, FileExists, detachInetListenFd, DelEvent. solve_tame. Qed.
#[export] Instance tame_handle_unix_event fe s : Tame (handle_unix_event fe s).
Proof. unfold handle_unix_event. solve_tame. Qed.
#[export] Instance tame_handle_net_event fe s : Tame (handle_net_event fe s).
Proof. unfold handle_net_event, ModEvent. solve_tame. Qed.
#[export] Instance tame_unix_server_accept fd u : Tame (unix_server_accept fd u).
Proof. unfold unix_server_accept. solve_tame. Qed.
#[export] Instance tame_inet_server_accept fd : Tame (inet_server_accept fd).
Proof. unfold inet_server_accept. solve_tame. Qed.
#[export] Instance tame_dispatch fe s : Tame (dispatch fe s).
Proof.
  unfold dispatch, accept_inet, accept_unix, on_unix_conn, on_inet_conn, AddEvent, DelEvent.
  solve_tame.
Qed.
#[export] Instance tame_dispatch_all fes s : Tame (dispatch_all fes s).
Proof. revert s. induction fes as [|fe fes IH]; intros s; cbn; [apply _|]. solve_tame. Qed.
#[export] Instance tame_main_iter p s : Tame (main_iter p s).
Proof. unfold main_iter, Poll. solve_tame. Qed.
#[export] Instance tame_main_start argv : Tame (main_start argv).
Proof.
  unfold main_start, InitSignal, getInstance, new_Epoll, startUnixServer, startInetServer, AddEvent,
    unix_server_listen, inet_server_listen. solve_tame.
Qed.

#[export] Instance honest_trigger p s : Honest (trigger p s).
Proof. unfold trigger, FileExists. cbn zeta. solve_honest. Qed.

(** Every round of the loop asks for the trigger file. *)
Lemma main_iter_consumes path s : consumes (main_iter path s).
Proof.
  apply consumes_bind_l; [|intros s1; solve_honest].
  apply consumes_bind_l; [|intros b; cbn zeta; solve_honest].
  unfold FileExists, call_int. apply consumes_bind_l; [|intros; solve_honest].
  apply consumes_bind_l; [apply consumes_call|intros; solve_honest].
Qed.

(** ** Reachable states *)

(** The loop as a transition system: [reachable fes s w] is a state in which the
    events [fes] of the current round are still to be handled. *)
Inductive reachable (argv : list string) (script0 : list reply) (path : string) :
    list FiredEvent → server → world → Prop :=
| reach_start s w :
    run (main_start argv) script0 = Done (path, s) w → reachable argv script0 path [] s w
| reach_poll s w s1 w1 n e w2 :
    reachable argv script0 path [] s w →
    trigger path s w = Done s1 w1 → Poll (ep s1) 10 w1 = Done (n, e) w2 →
    reachable argv script0 path (take (Z.to_nat n) (firedevent_ e)) (with_ep s1 e) w2
| reach_event fe fes s w s' w' :
    reachable argv script0 path (fe :: fes) s w → dispatch fe s w = Done s' w' →
    reachable argv script0 path fes s' w'.

Lemma reachable_batch argv script0 path fes s w s' w' :
  reachable argv script0 path fes s w → dispatch_all fes s w = Done s' w' →
  reachable argv script0 path [] s' w'.
Proof.
  revert s w. induction fes as [|fe fes IH]; intros s w Hr E; cbn in E.
  - by injection E as <- <-.
  - unfold mbind, M_bind in E. destruct (dispatch fe s w) as [s1 w1| | | |] eqn:Ed; try done.
    eapply IH; [|exact E]. by eapply reach_event.
Qed.

(** A round of [main] is a sequence of transitions. *)
Lemma reachable_round argv script0 path s w s' w' :
  reachable argv script0 path [] s w → main_iter path s w = Done s' w' →
  reachable argv script0 path [] s' w'.
Proof.
  intros Hr E. unfold main_iter, mbind, M_bind in E.
  destruct (trigger path s w) as [s1 w1| | | |] eqn:Et; try done.
  pose proof (Poll_spec (ep s1) 10 w1) as Hp. unfold wp in Hp.
  destruct (Poll (ep s1) 10 w1) as [[n e] w2| | | |] eqn:Ep; try done. cbn in E.
  rewrite (proj2 (Z.eqb_neq n (-1))) in E by (destruct Hp; lia).
  eapply reachable_batch; [|exact E]. by eapply reach_poll.
Qed.

(** What the start leaves behind. *)
Lemma main_start_spec argv w path s w' :
  main_start argv w = Done (path, s) w' →
  inet_conn_map (ep s) = ∅ ∧ unix_conn s = None ∧ unix_client s = None ∧
  unix_conn_fd s = -1 ∧ unix_socket_init s = false ∧ argv !! 1%nat = Some path.
Proof.
  enough (wp (main_start argv) (λ o, match o with
    | Done (path, s) w' => inet_conn_map (ep s) = ∅ ∧ unix_conn s = None ∧ unix_client s = None ∧
        unix_conn_fd s = -1 ∧ unix_socket_init s = false ∧ argv !! 1%nat = Some path
    | _ => True end) w) as H.
  { intros E. unfold wp in H. by rewrite E in H. }
  unfold main_start, InitSignal, getInstance, new_Epoll, startUnixServer, startInetServer, AddEvent,
    unix_server_listen, inet_server_listen, errout, copy_path, sys_close, set_errno. cbn zeta.
  wp_steps; done.
Qed.

Lemma reachable_loop_inv argv script0 path fes s w :
  reachable argv script0 path fes s w → kernel_ok (trace w) → loop_inv fes s w.
Proof.
  induction 1 as [s w E|s w s1 w1 n e w2 _ IH Et Ep|fe fes s w s' w' _ IH E]; intros Hk.
  - split_and!; [|constructor..]. apply main_start_spec in E as (Hm & _). intros fd c. by rewrite Hm.
  - eapply (loop_inv_poll path s w); [apply IH|exact Et|exact Ep|exact Hk].
    eapply (kernel_ok_before (trigger path s)); [exact Et|].
    by eapply (kernel_ok_before (Poll (ep s1) 10)).
  - eapply loop_inv_event; [apply IH|exact E|exact Hk]. by eapply (kernel_ok_before (dispatch fe s)).
Qed.

(** ** Which descriptors a handler touches *)

(** Reads, writes, closes and registrations only concern [fd]. *)
Definition touches (fd : Z) (c : syscall) : bool :=
  match c with
  | SysRead fd' _ | SysWrite fd' _ | SysClose fd' | SysEpollCtl _ _ fd' _ => fd' =? fd
  | _ => true
  end.

Definition untouched (fd : Z) (t : list event) : Prop :=
  bytes_read fd t = [] ∧ bytes_written fd t = [] ∧ (fd ∉ closed t).

Lemma touches_untouched fd0 fd t : only (touches fd0) t → fd ≠ fd0 → untouched fd t.
Proof.
  intros Ht Hne. unfold untouched, bytes_read, bytes_written, closed.
  induction Ht as [|[c r] t Hc _ IH]; cbn in *; [split_and!; [done..|set_solver]|].
  destruct IH as (-> & -> & Hcl), c; cbn in Hc; breflect; split_and!; try done; try set_solver;
    subst; destruct r; rewrite ?(proj2 (Z.eqb_neq fd0 fd)); done.
Qed.

Lemma emits_bind_dep P {A B} (m : M A) (k : A → M B) :
  Emits P m → (∀ w a w', m w = Done a w' → Emits P (k a)) → Emits P (m ≫= k).
Proof.
  intros Hm Hk w. destruct (Hm w) as (t & He & Hs). unfold mbind, M_bind.
  destruct (m w) as [a w'| | | |] eqn:E; cbn in *; eauto.
  destruct (Hk _ _ _ E w') as (t' & He' & Hs'). exists (t ++ t').
  split; [by eapply extends_trans|]. by apply Forall_app.
Qed.

Lemma touches_read fd n : Emits (touches fd) (sys_read fd n).
Proof.
  unfold sys_read. apply emits_bind; [|apply _]. apply emits_call. apply Z.eqb_refl.
Qed.
#[export] Hint Resolve touches_read : sysdb.

Lemma touches_read_more c n : Emits (touches (fd_ c)) (read_more c n).
Proof.
  unfold read_more. apply emits_bind; [apply touches_read|]. intros [nread bs]. unfold fill.
  solve_emits.
Qed.

Lemma read_more_fd c n w st c1 w1 : read_more c n w = Done (st, c1) w1 → fd_ c1 = fd_ c.
Proof.
  enough (wp (read_more c n) (λ o, match o with Done (_, c1) _ => fd_ c1 = fd_ c | _ => True end) w) as H.
  { intros E. unfold wp in H. by rewrite E in H. }
  unfold read_more, fill. wp_steps; done.
Qed.

Lemma touches_GetBody c : Emits (touches (fd_ c)) (GetBody c).
Proof.
  unfold GetBody. cbn zeta. case_bool; [apply _|].
  apply emits_bind_dep; [apply touches_read_more|]. intros w [st c1] w1 _. unfold finish, request_string.
  solve_emits.
Qed.

Lemma touches_GetRequest c : Emits (touches (fd_ c)) (GetRequest c).
Proof.
  unfold GetRequest. case_bool; [|apply touches_GetBody].
  apply emits_bind_dep; [apply touches_read_more|]. intros w [st c1] w1 E. apply read_more_fd in E as <-.
  destruct st; [apply _|]. case_bool; [apply _|apply touches_GetBody].
Qed.

Lemma touches_SendReply c : Emits (touches (fd_ c)) (SendReply c).
Proof.
  unfold SendReply. apply emits_bind; [apply emits_call_int, Z.eqb_refl|]. intros n. cbn zeta. solve_emits.
Qed.

Lemma touches_TransferSessionFd fd u d : Emits (touches fd) (TransferSessionFd u d).
Proof. unfold TransferSessionFd, send_loop, GetReply. cbn zeta. solve_emits. Qed.

Lemma touches_handle_net_event fe s :
  (∀ c, inet_conn_map (ep s) !! fired_fd fe = Some c → fd_ c = fired_fd fe) →
  Emits (touches (fired_fd fe)) (handle_net_event fe s).
Proof.
  intros Hfd. unfold handle_net_event. case_bool; [apply _|].
  destruct (inet_conn_map (ep s) !! fired_fd fe) as [c|]; [|apply _]. rewrite <- (Hfd c) by done.
  destruct (if has (mask fe) EPOLLIN && EmptyReadBuf c then unix_client s else None) as [uc|].
  - apply emits_bind; [apply touches_TransferSessionFd|]. intros [sms uc']. apply _.
  - case_bool; [|case_bool; [|apply _]]; (apply emits_bind;
      [apply touches_GetRequest || apply touches_SendReply|]); intros [rs c1]; cbn zeta; destruct rs;
      try apply _; (apply emits_bind; [apply emits_call_int, Z.eqb_refl|apply _]).
Qed.

Lemma touches_on_inet_conn fe s :
  (∀ c, inet_conn_map (ep s) !! fired_fd fe = Some c → fd_ c = fired_fd fe) →
  Emits (touches (fired_fd fe)) (on_inet_conn fe s).
Proof.
  intros Hfd. unfold on_inet_conn. apply emits_bind; [by apply touches_handle_net_event|].
  intros [ret s1]. case_bool; [|apply _].
  do 2 (apply emits_bind; [apply emits_call_int, Z.eqb_refl|intros _]). apply _.
Qed.

(** ** What a handler leaves alone *)

(** Only the events of the trigger and of the accept branch change these. *)
Definition same_role (s s' : server) : Prop :=
  unix_socket_init s' = unix_socket_init s ∧ (unix_client s' = None ↔ unix_client s = None).

Lemma handle_net_event_frame fe s :
  ensures (handle_net_event fe s) (λ r, same_role s r.2 ∧
    ∀ fd, fd ≠ fired_fd fe → inet_conn_map (ep r.2) !! fd = inet_conn_map (ep s) !! fd).
Proof.
  unfold handle_net_event, same_role. solve_ensures; cbn;
    (split; [|intros; by rewrite ?lookup_insert_ne]); try done.
  split; [done|]. destruct (_ && _); [|done]. split; [done|congruence].
Qed.

Lemma on_inet_conn_frame fe s :
  ensures (on_inet_conn fe s) (λ s', same_role s s' ∧
    ∀ fd, fd ≠ fired_fd fe → inet_conn_map (ep s') !! fd = inet_conn_map (ep s) !! fd).
Proof.
  unfold on_inet_conn. eapply ensures_bind_dep; [apply handle_net_event_frame|].
  intros [ret s1] [Hr Hm]. solve_ensures; cbn in *; (split; [done|]); [|done].
  intros fd Hne. by rewrite lookup_delete_ne, Hm.
Qed.

Lemma handle_unix_event_frame fe s : ensures (handle_unix_event fe s) (λ r, same_role s r.2).
Proof. unfold handle_unix_event, same_role. solve_ensures; done. Qed.

Lemma dispatch_frame fe s : ensures (dispatch fe s) (same_role s).
Proof.
  unfold dispatch. case_bool; [unfold accept_inet, same_role; solve_ensures; done|].
  case_bool; [unfold accept_unix, same_role; solve_ensures; done|].
  case_bool.
  - unfold on_unix_conn. eapply ensures_bind_dep; [apply handle_unix_event_frame|].
    intros [ret s1] Hr. solve_ensures; done.
  - intros w s' w' E. by apply on_inet_conn_frame in E as [? _].
Qed.

(** ** Calls that give something away *)

Definition is_connect (c : syscall) : bool := match c with SysConnect _ _ => true | _ => false end.
Definition is_gift (c : syscall) : bool :=
  match c with SysSendmsg _ _ (Some _) => true | _ => false end.
Definition inert (c : syscall) : bool := negb (is_connect c) && negb (is_gift c).
Definition no_connect (c : syscall) : bool := negb (is_connect c).

Section Inert.
  Context (P : syscall → bool) (HP : ∀ c, inert c = true → P c = true).

Lemma inert_call c : inert c = true → Emits P (call c).
Proof. intros. by apply emits_call, HP. Qed.
Lemma inert_call_int c : inert c = true → Emits P (call_int c).
Proof. intros. by apply emits_call_int, HP. Qed.

Ltac solve_inert :=
  repeat (cbn beta iota zeta; first
    [ apply _
    | apply inert_call; reflexivity
    | apply inert_call_int; reflexivity
    | apply emits_bind; [|intros ?]
    | lazymatch goal with
      | |- Emits _ (if ?b then _ else _) => destruct b
      | |- Emits _ (match ?x with _ => _ end) => destruct x
      | |- Emits _ (loop _ _) => apply emits_loop; intros ?
      end ]).

Lemma inert_processRecv u e : Emits P (processRecv u e).
Proof.
  unfold processRecv, recv_loop, HandleListenFdMsg, HandleSessionFdMsg, attachInetListenFd,
    assert_longer, AddEvent, makeCommonReply, SetNonblock. solve_inert.
Qed.

Lemma inert_GetRequest c : Emits P (GetRequest c).
Proof.
  unfold GetRequest, GetBody, finish, read_more, fill, request_string, sys_read. solve_inert.
Qed.

Lemma inert_handle_net_event fe s :
  unix_client s = None ∨ (∀ c, is_gift c = true → P c = true) →
  Emits P (handle_net_event fe s).
Proof.
  intros Hc. unfold handle_net_event. case_bool; [apply _|].
  destruct (inet_conn_map (ep s) !! fired_fd fe) as [c|]; [|apply _].
  destruct (if has (mask fe) EPOLLIN && EmptyReadBuf c then unix_client s else None) as [uc|] eqn:E.
  - destruct Hc as [Hc|Hg]; [destruct (_ && _); congruence|].
    apply emits_bind; [|intros [? ?]; apply _]. unfold TransferSessionFd, send_loop, GetReply. cbn zeta.
    apply emits_bind; [|intros ?; solve_inert]. apply emits_loop. intros n. case_bool; [|apply _].
    apply emits_bind; [by apply emits_call_int, Hg|]. intros v. solve_inert.
  - pose proof inert_GetRequest. unfold SendReply, sys_write, ModEvent. solve_inert.
Qed.

Lemma inert_dispatch fe s :
  unix_client s = None ∨ (∀ c, is_gift c = true → P c = true) → Emits P (dispatch fe s).
Proof.
  intros Hc. pose proof inert_processRecv. unfold dispatch.
  unfold accept_inet, accept_unix, on_unix_conn, on_inet_conn, inet_server_accept, SetNonblock,
    AddEvent, DelEvent, sys_close, unix_server_accept, copy_path, terminate_path, errout, handle_unix_event.
  pose proof (inert_handle_net_event fe s Hc). unfold sys_close. solve_inert.
Qed.

Lemma inert_Poll e n : Emits P (Poll e n).
Proof. unfold Poll. solve_inert. Qed.

Lemma inert_main_start argv : Emits P (main_start argv).
Proof.
  unfold main_start, InitSignal, getInstance, new_Epoll, startUnixServer, startInetServer, AddEvent,
    unix_server_listen, inet_server_listen, copy_path, errout, sys_close. solve_inert.
Qed.

Lemma inert_FileExists p : Emits P (FileExists p).
Proof. unfold FileExists. solve_inert. Qed.
End Inert.

(** The number of times a run connected to another process. *)
Definition connects (t : list event) : nat := length (filter (λ ev, is_connect ev.1 = true) t).

Lemma connects_app t1 t2 : connects (t1 ++ t2) = (connects t1 + connects t2)%nat.
Proof. unfold connects. by rewrite filter_app, length_app. Qed.

Lemma no_connects t : only no_connect t → connects t = 0%nat.
Proof.
  unfold connects. induction 1 as [|ev t Hev _ IH]; [done|]. rewrite filter_cons_False; [done|].
  unfold no_connect in Hev. by destruct (is_connect ev.1).
Qed.

Lemma inert_connects c : inert c = true → no_connect c = true.
Proof. by destruct c. Qed.
Lemma gift_connects c : is_gift c = true → no_connect c = true.
Proof. by destruct c. Qed.

Lemma inert_no_connect t : only inert t → only no_connect t.
Proof. intros H. eapply Forall_impl; [exact H|]. intros ev. apply inert_connects. Qed.

Lemma inert_no_gifts fd t : only inert t → rights_sent fd t = [].
Proof.
  induction 1 as [|[c r] t Hev _ IH]; [done|].
  change (rights_sent fd ([(c, r)] ++ t) = []). rewrite rights_sent_app, IH.
  destruct c as [| | | | | | | | | | | | | | | | | | | | | |? ? []| | | | | | | | | |]; done.
Qed.

#[export] Instance no_connect_transfer u d : Emits no_connect (TransferListenFd u d).
Proof. unfold TransferListenFd, send_loop, GetReply. cbn zeta. solve_emits. Qed.

Lemma unix_client_conn_connects name w v w' :
  unix_client_conn name w = Done v w' → 0 ≤ v → ∃ t, extends w w' t ∧ connects t = 1%nat.
Proof.
  intros E Hv. enough (wp (unix_client_conn name) (λ o, match o with
    | Done v w' => 0 ≤ v → ∃ t, extends w w' t ∧ connects t = 1%nat
    | _ => True end) w) as H.
  { unfold wp in H. rewrite E in H. by apply H. }
  unfold unix_client_conn. cbn zeta. repeat wp_clean; try (intros ?; prune; done).
  all: intros _; eexists; (split; [solve_extends|]); reflexivity.
Qed.

Definition trigger_calls (path : string) (s s' : server) (t : list event) : Prop :=
  s' = s ∧ only inert t ∨
  unix_socket_init s = false ∧ path = UNIX_CLIENT_TRIGGER ∧ connects t = 1%nat ∧
  unix_socket_init s' = true ∧ is_Some (unix_client s').

Lemma trigger_calls_spec path s w s' w' :
  trigger path s w = Done s' w' → ∃ t, extends w w' t ∧ trigger_calls path s s' t.
Proof.
  unfold trigger. unfold mbind at 1, M_bind at 1.
  destruct (inert_FileExists inert (λ _ H, H) path w) as (t0 & He0 & Hi0).
  destruct (FileExists path w) as [b w0| | | |]; try done. cbn in He0.
  case_bool; [|intros [= <- <-]; exists t0; split; [done|by left]]. breflect.
  unfold mbind at 1, M_bind at 1.
  destruct (unix_client_conn UNIX_SOCKET_LOCK_FILE w0) as [fd w1| | | |] eqn:E; try done.
  case_bool; breflect; [done|]. apply unix_client_conn_connects in E as (t1 & He1 & Hc1); [|done].
  match goal with |- ?m w1 = _ → _ => assert (Emits no_connect m) as Hm end.
  { unfold detachInetListenFd, DelEvent, sys_close. solve_emits. }
  match goal with |- ?m w1 = _ → _ =>
    assert (ensures m (λ s', unix_socket_init s' = true ∧ is_Some (unix_client s'))) as Hs
      by (solve_ensures; done) end.
  destruct (Hm w1) as (t2 & He2 & Hn2).
  intros E2. apply Hs in E2 as Hs'. rewrite E2 in He2. exists (t0 ++ t1 ++ t2).
  split; [eapply extends_trans; [exact He0|]; by eapply extends_trans|]. right.
  rewrite !connects_app, Hc1, (no_connects t2), (no_connects t0) by (done || by apply inert_no_connect).
  destruct Hs'. split_and!; done.
Qed.

(** Connections to the other process, and descriptors given away. *)
Definition handover_state (path : string) (s : server) (w : world) : Prop :=
  if unix_socket_init s
  then path = UNIX_CLIENT_TRIGGER ∧ connects (trace w) = 1%nat ∧ is_Some (unix_client s)
  else unix_client s = None ∧ connects (trace w) = 0%nat ∧ ∀ fd, rights_sent fd (trace w) = [].

Lemma handover_state_inert path s w s' w' t :
  handover_state path s w → extends w w' t → same_role s s' →
  only no_connect t → (unix_client s = None → only inert t) → handover_state path s' w'.
Proof.
  intros Hh He [Hi Hc] Hn Hin. unfold handover_state in *. rewrite Hi, He, connects_app, (no_connects t) by done.
  rewrite Nat.add_0_r. destruct (unix_socket_init s).
  - destruct Hh as (? & ? & Hs). split_and!; try done. apply not_eq_None_Some. rewrite Hc.
    by apply not_eq_None_Some.
  - destruct Hh as (Hcl & ? & Hr). split_and!; [by apply Hc|done|]. intros fd.
    rewrite rights_sent_app, Hr, (inert_no_gifts fd t); [done|by apply Hin].
Qed.

Lemma same_role_refl s e : same_role s (with_ep s e).
Proof. done. Qed.

Lemma reachable_handover argv script0 path fes s w :
  reachable argv script0 path fes s w → handover_state path s w.
Proof.
  induction 1 as [s w E|s w s1 w1 n e w2 _ IH Et Ep|fe fes s w s' w' _ IH E].
  - destruct (inert_main_start inert (λ _ H, H) argv (World script0 0 [])) as (t & He & Hi).
    unfold run in E. rewrite E in He. unfold extends in He. cbn in He.
    apply main_start_spec in E as (_ & _ & Hc & _ & Hn & _). unfold handover_state. rewrite Hn, He.
    split_and!; [done|by apply no_connects, inert_no_connect|]. intros fd. by apply inert_no_gifts.
  - destruct (inert_Poll inert (λ _ H, H) (ep s1) 10 w1) as (t2 & He2 & Hi2). rewrite Ep in He2.
    apply (handover_state_inert path s1 w1 _ _ t2);
      [|done|apply same_role_refl|by apply inert_no_connect|done].
    apply trigger_calls_spec in Et as (t & He & [[-> Hi]|(Hf & -> & Hc & Ht & Hs)]).
    + by apply (handover_state_inert path s w _ _ t); [..|apply inert_no_connect|].
    + unfold handover_state in *. rewrite Ht, He, connects_app, Hc. rewrite Hf in IH.
      destruct IH as (_ & -> & _). done.
  - destruct (inert_dispatch no_connect inert_connects fe s (or_intror gift_connects) w) as (t & He & Hn). rewrite E in He.
    apply (handover_state_inert path s w _ _ t); [done..|by eapply dispatch_frame|done|].
    intros Hc. destruct (inert_dispatch inert (λ _ H, H) fe s (or_introl Hc) w) as (t' & He' & Hi).
    rewrite E in He'. by rewrite (extends_inj _ _ _ _ He He').
Qed.

(** ** Concrete runs *)

(** A decision procedure for [kernel_ok], along the trace. *)
Definition event_okb (m : gmap Z Z) (ev : event) : bool :=
  match ev with
  | (SysEpollCtl _ op fd _, r) =>
      if op =? EPOLL_CTL_ADD then (0 <=? fd) && bool_decide (m !! fd = None)
      else if op =? EPOLL_CTL_MOD then
        match m !! fd, r with None, _ | _, RInt 0 => true | _, _ => false end
      else true
  | (SysEpollWait _ _ _, REvents evs) =>
      bool_decide (NoDup evs.*1) &&
      forallb (λ '(fd, e), match m !! fd with
        | Some k => implb (has e EPOLLIN) (has k EPOLLIN) && implb (has e EPOLLOUT) (has k EPOLLOUT)
        | None => false end) evs
  | _ => true
  end.

Fixpoint kernel_okb (m : gmap Z Z) (t : list event) : bool :=
  match t with
  | [] => true
  | ev :: t => event_okb m ev && kernel_okb (interest_step m ev) t
  end.

Lemma implb_imp a b : implb a b = true → a = true → b = true.
Proof. by destruct a, b. Qed.

Lemma event_okb_sound t ev : event_okb (interest t) ev = true → event_ok t ev.
Proof.
  destruct ev as [[] r]; try done.
  - destruct r as [| | | |evs| | |]; try done. cbn. intros [Hn Hf]%andb_true_iff.
    split; [by apply bool_decide_eq_true in Hn|]. intros fd e Hin.
    rewrite forallb_forall in Hf. apply list_elem_of_In, Hf in Hin.
    destruct (interest t !! fd) as [k|]; [|done]. exists k.
    apply andb_true_iff in Hin as [H1 H2]. split_and!; [done|by apply implb_imp..].
  - unfold event_okb, event_ok. case_bool.
    + intros [H1 H2]%andb_true_iff. breflect. by apply bool_decide_eq_true in H2.
    + case_bool; [|done]. intros H [k Hk]. rewrite Hk in H. by destruct r as [|[]| | | | | |].
Qed.

Lemma kernel_okb_sound t0 t :
  kernel_okb (interest t0) t = true →
  ∀ t1 ev t2, t = t1 ++ ev :: t2 → event_ok (t0 ++ t1) ev.
Proof.
  revert t0. induction t as [|ev0 t IH]; intros t0 H t1 ev t2 E; [by destruct t1|].
  cbn in H. apply andb_true_iff in H as [H0 H]. destruct t1 as [|ev1 t1]; injection E as -> E.
  - rewrite app_nil_r. by apply event_okb_sound.
  - rewrite cons_middle, app_assoc. eapply IH; [|exact E]. by rewrite interest_app.
Qed.

Lemma kernel_ok_check t : kernel_okb ∅ t = true → kernel_ok t.
Proof. intros H t1 ev t2 E. by apply (kernel_okb_sound [] t H t1 ev t2). Qed.

Fixpoint rounds (n : nat) (path : string) (s : server) : M server :=
  match n with
  | O => mret s
  | S n => s ← main_iter path s; rounds n path s
  end.

(** Start and [n] rounds. *)
Definition demo_run (argv : list string) (path : string) (n : nat) : M server :=
  '(_, s) ← main_start argv; rounds n path s.

Lemma reachable_rounds argv script0 path n s w s' w' :
  reachable argv script0 path [] s w → rounds n path s w = Done s' w' →
  reachable argv script0 path [] s' w'.
Proof.
  revert s w. induction n as [|n IH]; intros s w Hr E; cbn in E; [by injection E as <- <-|].
  unfold mbind, M_bind in E. destruct (main_iter path s w) as [s1 w1| | | |] eqn:Em; try done.
  eapply IH; [|exact E]. by eapply reachable_round.
Qed.

Lemma demo_reachable a path rest script0 n s' w' :
  run (demo_run (a :: path :: rest) path n) script0 = Done s' w' →
  reachable (a :: path :: rest) script0 path [] s' w'.
Proof.
  unfold run, demo_run, mbind, M_bind.
  destruct (main_start (a :: path :: rest) (World script0 0 [])) as [[p s] w| | | |] eqn:E; try done.
  pose proof (main_start_spec _ _ _ _ _ E) as (_ & _ & _ & _ & _ & [= <-]).
  intros E'. eapply reachable_rounds; [|exact E']. by apply reach_start.
Qed.
