(* ===== verification/ServerTheorems.v ===== *)
(** * Theorems on the server process

    What holds in every state the server can reach, with the concrete runs that
    show the hypotheses can hold: an old server that hands its sockets over, and
    a new one that receives them. *)

From S2P Require Import Prelude Sys InetConn InetSocket UnixSocket Epoll UnixClient UnixConn.
From S2P Require Import Server ServerInv ServerProps.

(** ** Sample runs *)

(** An old server: it accepts a client (descriptor 5), the trigger file appears,
    and it gives its listening socket away; then the client is readable. *)
Definition old_argv : list string := ["server"; UNIX_CLIENT_TRIGGER].
Definition acked : reply := RMsg [111; 107; 0; 0; 0; 0; 0; 0] None.
Definition old_start : list reply :=
  [RInt 0; RInt 3; RInt 4; RInt 0; RInt 0; RInt 0; RInt 0].
Definition old_accept : list reply :=
  [RErr 2; REvents [(4, 1)]; RPeer 5 (SockIn 16777343 34835); RInt 0; RInt 0; RInt 0].
Definition old_trigger : list reply :=
  [RInt 0; RInt 6; RInt 42; RErr 2; RInt 0; RInt 0; RInt 0; RInt 1024; acked; RInt 0; RInt 0].
Definition old_session : list reply := [RInt 1024; acked; RInt 0; RInt 0].
Definition old_script : list reply :=
  old_start ++ old_accept ++ old_trigger ++ [REvents [(5, 1)]] ++ old_session.

(** A new server: it accepts the hand-over connection (descriptor 5), receives
    the listening socket (6), sees the end of the connection, and accepts a
    client, which gets the free number 5. *)
Definition new_argv : list string := ["server"; "-u"].
Definition new_start : list reply :=
  [RInt 0; RInt 3; RInt 4; RErr 2; RInt 0; RInt 0; RInt 0].
Definition new_accept : list reply :=
  [RErr 2; REvents [(4, 1)]; RPeer 5 (SockUn "/var/tmp/00042");
   RStat (StatBuf 448 0 100 100 100); RInt 100; RInt 0; RInt 0].
Definition new_listen : list reply :=
  [RErr 2; REvents [(5, 1)]; RMsg listen_message (Some 6); RInt 0; RInt 8].
Definition new_eof : list reply := [RErr 2; REvents [(5, 1)]; RMsg [] None; RInt 0; RInt 0].
Definition new_client : list reply :=
  [RErr 2; REvents [(6, 1)]; RPeer 5 (SockIn 16777343 34835); RInt 0; RInt 0; RInt 0].
Definition new_script : list reply :=
  new_start ++ new_accept ++ new_listen ++ new_eof ++ new_client ++
  [RErr 2; REvents [(5, 1)]; RInt 0; RInt 0].

Definition no_server : server := mkServer (mkEpoll (-1) (-1) (-1) (-1) (-1) ∅ []) None None (-1) (-1) false.

(** The state after [n] rounds, and after the trigger and the poll of the next. *)
Definition after_rounds (argv : list string) (path : string) (n : nat) (sc : list reply) : server * world :=
  let o := run (demo_run argv path n) sc in (value no_server o, final o).

Definition poll_next (path : string) (sw : server * world) : server * world * (Z * Epoll) * world :=
  let t := trigger path sw.1 sw.2 in
  let p := Poll (ep (value no_server t)) 10 (final t) in
  (value no_server t, final t, value (0, ep no_server) p, final p).

Definition old_state := poll_next UNIX_CLIENT_TRIGGER (after_rounds old_argv UNIX_CLIENT_TRIGGER 1 old_script).
Definition new_state := poll_next "-u" (after_rounds new_argv "-u" 4 new_script).

Definition state_events (st : server * world * (Z * Epoll) * world) : list FiredEvent :=
  let '(_, _, (n, e), _) := st in take (Z.to_nat n) (firedevent_ e).
Definition state_server (st : server * world * (Z * Epoll) * world) : server :=
  let '(s1, _, (_, e), _) := st in with_ep s1 e.
Definition state_world (st : server * world * (Z * Epoll) * world) : world := st.2.

Lemma demo_poll a path rest sc n :
  let sw := after_rounds (a :: path :: rest) path n sc in
  let st := poll_next path sw in
  run (demo_run (a :: path :: rest) path n) sc = Done sw.1 sw.2 →
  trigger path sw.1 sw.2 = Done st.1.1.1 st.1.1.2 →
  Poll (ep st.1.1.1) 10 st.1.1.2 = Done (st.1.2.1, st.1.2.2) st.2 →
  reachable (a :: path :: rest) sc path (state_events st) (state_server st) (state_world st).
Proof.
  intros sw st H1 H2 H3. apply demo_reachable in H1.
  pose proof (reach_poll _ _ _ _ _ _ _ _ _ _ H1 H2 H3) as H. clearbody st. by destruct st as [[[s1 w1] [m e]] w2].
Qed.

Lemma old_reachable :
  reachable old_argv old_script UNIX_CLIENT_TRIGGER (state_events old_state) (state_server old_state)
    (state_world old_state).
Proof. apply (demo_poll "server" _ [] _ 1); vm_compute; reflexivity. Qed.

Lemma new_reachable :
  reachable new_argv new_script "-u" (state_events new_state) (state_server new_state)
    (state_world new_state).
Proof. apply (demo_poll "server" _ [] _ 4); vm_compute; reflexivity. Qed.

Lemma old_kernel_ok : kernel_ok (trace (state_world old_state)).
Proof. apply kernel_ok_check. vm_compute. reflexivity. Qed.

Lemma new_kernel_ok : kernel_ok (trace (state_world new_state)).
Proof. apply kernel_ok_check. vm_compute. reflexivity. Qed.

(** The sample events: input on descriptor 5. *)
Lemma old_events : state_events old_state = [mkFired 1 5].
Proof. vm_compute. reflexivity. Qed.
Lemma new_events : state_events new_state = [mkFired 1 5].
Proof. vm_compute. reflexivity. Qed.

(** ** The hand-over of one session *)

(** The calls that drop a client: it is unregistered and closed. *)
Definition drop_calls (s : server) (fd : Z) (t : list event) : Prop :=
  ∃ r1 r2, t = [(SysEpollCtl (epfd_ (ep s)) EPOLL_CTL_DEL fd 0, r1); (SysClose fd, r2)].

(** The transfer with its result, then the client is dropped, and nothing is read
    from it or written to it. *)
Definition handover_post (fe : FiredEvent) (s : server) (uc : UnixClient) (w : world)
    (o : outcome server) : Prop :=
  match o with
  | Done s' w' => inet_conn_map (ep s') !! fired_fd fe = None ∧
      ∃ t1 t2 ks st, extends w w' (t1 ++ t2) ∧ drop_calls s (fired_fd fe) t2 ∧ closed t1 = [] ∧
        bytes_read (fired_fd fe) t1 = [] ∧ bytes_written (fired_fd fe) t1 = [] ∧
        sends (uc_fd_ uc) session_message (fired_fd fe) ks t1 ∧
        transfer_result (uc_fd_ uc) session_message (fired_fd fe) st ks t1
  | Blocked _ => True
  | _ => False
  end.

Lemma handle_net_event_transfer fe s c uc :
  has (mask fe) EPOLLERR = false → has (mask fe) EPOLLHUP = false → has (mask fe) EPOLLIN = true →
  inet_conn_map (ep s) !! fired_fd fe = Some c → EmptyReadBuf c = true → unix_client s = Some uc →
  handle_net_event fe s =
    ('(_, uc) ← TransferSessionFd uc (fired_fd fe);
     mret (-1, mkServer (ep s) (unix_conn s) (Some uc) (unix_conn_fd s) (unix_client_fd s)
                 (unix_socket_init s))).
Proof. intros H1 H2 H3 Hc H4 Hu. unfold handle_net_event. by rewrite H1, H2, Hc, H3, H4, Hu. Qed.

Definition is_message (c : syscall) : bool :=
  match c with SysSendmsg _ _ _ | SysRecvmsg _ _ _ => true | _ => false end.

Lemma messages_TransferSessionFd u d : Emits is_message (TransferSessionFd u d).
Proof. unfold TransferSessionFd, send_loop, GetReply. cbn zeta. solve_emits. Qed.

Lemma messages_only fd t :
  only is_message t → closed t = [] ∧ bytes_read fd t = [] ∧ bytes_written fd t = [].
Proof.
  induction 1 as [|[c r] t Hc _ IH]; [done|]. by destruct c.
Qed.

Lemma transfer_and_close fe s uc w c :
  has (mask fe) EPOLLERR = false → has (mask fe) EPOLLHUP = false → has (mask fe) EPOLLIN = true →
  inet_conn_map (ep s) !! fired_fd fe = Some c → EmptyReadBuf c = true → unix_client s = Some uc →
  wp (on_inet_conn fe s) (handover_post fe s uc w) w.
Proof.
  intros H1 H2 H3 Hc H4 Hu. unfold on_inet_conn.
  rewrite (handle_net_event_transfer fe s c uc) by done. wp_step. wp_step.
  pose proof (TransferSessionFd_spec uc (fired_fd fe) w) as Ht.
  pose proof (emits_extends is_message (Emits0 := messages_TransferSessionFd uc (fired_fd fe)) _ w) as Hm.
  unfold wp at 1. destruct (TransferSessionFd uc (fired_fd fe) w) as [[sms uc'] w1| | | |]; try done.
  destruct Ht as (_ & t & ks & He & Hs & Hres). apply Hm in He as Ho.
  destruct (messages_only (fired_fd fe) t Ho) as (Hcl & Hbr & Hbw).
  wp_step. cbn [Z.eqb]. unfold DelEvent, sys_close. wp_steps; try done.
  split; [apply lookup_delete_eq|]. eexists t, [_; _], ks, sms.
  split; [eapply extends_trans; [exact He|solve_extends]|]. split_and!; try done. by eexists _, _.
Qed.

Lemma idle_pending c : idle c → pending c = [].
Proof. intros [Hr Hp]. unfold pending. by rewrite Hr, Hp. Qed.

Lemma empty_buffered c : EmptyReadBuf c = true → buffered c = [].
Proof. unfold EmptyReadBuf, buffered. intros ->%Z.eqb_eq. done. Qed.

(** ** Properties *)

(** C5: in every state the server reaches, with the documented epoll behaviour,
    every connection in the table is stored under its own descriptor, its read
    buffer holds a proper prefix of one request and its write position is within
    the reply; a connection that still owes a reply is registered for output
    only, so the events left in the round never report it readable. *)
Theorem server_invariant argv script0 path fes s w :
  reachable argv script0 path fes s w → kernel_ok (trace w) → loop_inv fes s w.
Proof. apply reachable_loop_inv. Qed.

Lemma server_invariant_witness :
  loop_inv (state_events old_state) (state_server old_state) (state_world old_state).
Proof. exact (server_invariant _ _ _ _ _ _ old_reachable old_kernel_ok). Defined.

(** C4: what the upgrade does with a client.  When the server has connected to
    its successor and a client becomes readable between two requests, there is
    neither a partly received request nor an unsent reply; the handler reads and
    writes nothing on the client's descriptor and sends it with the session
    message.  Either the sends add up to the 1024 bytes of the message, each with
    the descriptor attached, and the reply was waited for; or [sendmsg] failed
    with an error other than [EINTR] and [EAGAIN], or the pieces overshot.  In all
    three cases the client is unregistered, closed and forgotten: when the
    transfer failed it is lost. *)
Theorem session_handover_outcome argv script0 path fe fes s w c uc :
  reachable argv script0 path (fe :: fes) s w → kernel_ok (trace w) →
  fired_fd fe ≠ inet_listen_fd (ep s) → fired_fd fe ≠ unix_listen_fd (ep s) →
  fired_fd fe ≠ unix_conn_fd s →
  has (mask fe) EPOLLERR = false → has (mask fe) EPOLLHUP = false → has (mask fe) EPOLLIN = true →
  inet_conn_map (ep s) !! fired_fd fe = Some c → EmptyReadBuf c = true → unix_client s = Some uc →
  buffered c = [] ∧ pending c = [] ∧ handover_post fe s uc w (dispatch fe s w).
Proof.
  intros Hr Hk Hl Hul Huc H1 H2 H3 Hc H4 Hu.
  destruct (reachable_loop_inv _ _ _ _ _ _ Hr Hk) as (Hinv & _ & Hf). inversion_clear Hf.
  split; [by apply empty_buffered|]. split; [by eapply idle_pending, readable_idle|].
  unfold dispatch. rewrite !(proj2 (Z.eqb_neq _ _)) by done. by eapply transfer_and_close.
Qed.

Definition lookup_conn (s : server) (fd : Z) : InetConn :=
  default (new_InetConn (-1) "") (inet_conn_map (ep s) !! fd).

Lemma session_handover_outcome_witness :
  let s := state_server old_state in
  let c := lookup_conn s 5 in
  buffered c = [] ∧ pending c = [] ∧
  handover_post (mkFired 1 5) s (default (new_UnixClient 0) (unix_client s)) (state_world old_state)
    (dispatch (mkFired 1 5) s (state_world old_state)).
Proof.
  cbn zeta. pose proof old_reachable as Hr. rewrite old_events in Hr.
  apply (session_handover_outcome _ _ _ _ _ _ _ _ _ Hr old_kernel_ok);
    try (vm_compute; reflexivity); vm_compute; discriminate.
Defined.

(** C6: connections do not interfere: handling an event of one client leaves
    the objects of all others as they were and neither reads, writes nor closes
    another descriptor. *)
Theorem connection_isolation argv script0 path fe fes s w s' w' fd :
  reachable argv script0 path (fe :: fes) s w → kernel_ok (trace w) →
  fired_fd fe ≠ inet_listen_fd (ep s) → fired_fd fe ≠ unix_listen_fd (ep s) →
  fired_fd fe ≠ unix_conn_fd s →
  dispatch fe s w = Done s' w' → fd ≠ fired_fd fe →
  inet_conn_map (ep s') !! fd = inet_conn_map (ep s) !! fd ∧
  ∃ t, extends w w' t ∧ untouched fd t.
Proof.
  intros Hr Hk Hl Hul Huc. unfold dispatch. rewrite !(proj2 (Z.eqb_neq _ _)) by done. intros E Hne.
  destruct (reachable_loop_inv _ _ _ _ _ _ Hr Hk) as (Hinv & _ & _).
  split; [by eapply on_inet_conn_frame|].
  assert (Emits (touches (fired_fd fe)) (on_inet_conn fe s)) as Ht
    by (apply touches_on_inet_conn; intros c Hc; apply (Hinv _ _ Hc)).
  destruct (Ht w) as (t & He & Ho). rewrite E in He. exists t.
  split; [done|by eapply touches_untouched].
Qed.

Lemma connection_isolation_witness :
  let o := dispatch (mkFired 1 5) (state_server old_state) (state_world old_state) in
  inet_conn_map (ep (value no_server o)) !! 7 = inet_conn_map (ep (state_server old_state)) !! 7 ∧
  ∃ t, extends (state_world old_state) (final o) t ∧ untouched 7 t.
Proof.
  pose proof old_reachable as Hr. rewrite old_events in Hr.
  apply (connection_isolation _ _ _ _ _ _ _ _ _ _ Hr old_kernel_ok);
    try (vm_compute; discriminate). vm_compute. reflexivity.
Defined.

(** C7: the upgrade happens at most once, and only when asked for: a server
    started with another path never connects to a successor and never gives a
    descriptor away; with the trigger path it connects once, after which it has
    a hand-over connection for the rest of its life. *)
Theorem handover_once argv script0 path fes s w :
  reachable argv script0 path fes s w → handover_state path s w.
Proof. apply reachable_handover. Qed.

Lemma handover_once_witness :
  handover_state UNIX_CLIENT_TRIGGER (state_server old_state) (state_world old_state).
Proof. exact (handover_once _ _ _ _ _ _ old_reachable). Defined.

(** C10: the process only ends by failing: for every kernel, [main] does not
    return and its loop does not run out of rounds; it exits with -1, or one of
    three faults of its input happens (a negative request length, a message
    without a descriptor, a socket path that does not fit), or it waits for the
    kernel.  The [assert]s and null pointers are never reached. *)
Theorem main_never_returns argv w :
  match main argv w with
  | Done _ _ | NoFuel _ => False
  | Exited c _ => c = -1
  | Faulted f _ => input_fault f = true
  | Blocked _ => True
  end.
Proof.
  unfold main, mbind at 1, M_bind at 1. pose proof (tame_main_start argv w) as Hs.
  destruct (main_start argv w) as [[path s] w1| | | |]; try done.
  apply (loop_rule (λ s, s ← main_iter path s; mret (inl s)) (λ _ _, True)); [|done].
  clear. intros s w _. wp_step. unfold wp at 1. pose proof (tame_main_iter path s w) as Ht.
  pose proof (main_iter_consumes path s w) as Hc.
  destruct (main_iter path s w) as [s' w'| | | |]; try done.
Qed.

(** C11: the number of the hand-over connection outlives it.  Once that
    connection is gone, an event on a descriptor that got the same number is
    taken for one of its own: the descriptor is unregistered and closed without
    a single byte being read, and a client connection with that number stays in
    the table. *)
Theorem stale_unix_conn_fd fe s w :
  unix_conn s = None → fired_fd fe = unix_conn_fd s →
  fired_fd fe ≠ inet_listen_fd (ep s) → fired_fd fe ≠ unix_listen_fd (ep s) →
  match dispatch fe s w with
  | Done s' w' => inet_conn_map (ep s') = inet_conn_map (ep s) ∧ ∃ r1 r2,
      extends w w' [(SysEpollCtl (epfd_ (ep s)) EPOLL_CTL_DEL (fired_fd fe) 0, r1);
                    (SysClose (fired_fd fe), r2)]
  | Blocked _ => True
  | _ => False
  end.
Proof.
  intros Hu Hfd Hl Hul. unfold dispatch. rewrite !(proj2 (Z.eqb_neq _ _)), (proj2 (Z.eqb_eq _ _)) by done.
  apply (wp_mono (on_unix_conn fe s) (λ o, match o with
    | Done s' w' => inet_conn_map (ep s') = inet_conn_map (ep s) ∧ ∃ r1 r2,
        extends w w' [(SysEpollCtl (epfd_ (ep s)) EPOLL_CTL_DEL (fired_fd fe) 0, r1);
                      (SysClose (fired_fd fe), r2)]
    | Blocked _ => True
    | _ => False end)); [|done].
  unfold on_unix_conn, handle_unix_event, DelEvent, sys_close. rewrite Hu.
  wp_steps; try done; (split; [done|]; eexists _, _; solve_extends).
Qed.

(** A run in which it happens, to a client that was just accepted. *)
Lemma stale_unix_conn_fd_witness :
  let s := state_server new_state in
  let w := state_world new_state in
  reachable new_argv new_script "-u" [mkFired 1 5] s w ∧ kernel_ok (trace w) ∧
  is_Some (inet_conn_map (ep s) !! 5) ∧
  match dispatch (mkFired 1 5) s w with
  | Done s' w' => inet_conn_map (ep s') = inet_conn_map (ep s) ∧ ∃ r1 r2,
      extends w w' [(SysEpollCtl (epfd_ (ep s)) EPOLL_CTL_DEL 5 0, r1); (SysClose 5, r2)]
  | Blocked _ => True
  | _ => False
  end.
Proof.
  cbn zeta. pose proof new_reachable as Hr. rewrite new_events in Hr.
  split; [exact Hr|]. split; [exact new_kernel_ok|]. split; [eexists; vm_compute; reflexivity|].
  apply (stale_unix_conn_fd (mkFired 1 5)); vm_compute; [reflexivity|reflexivity|discriminate|discriminate].
Defined.
