(* ===== verification/Session.v ===== *)
(** * Sessions of the upgradable server

    What a client sees of [hot_upgrade_demo/server.cc]: the bytes the process
    read from and wrote to one descriptor since the connection on it was
    registered.  In every reachable state they are an echo session, and a session
    that was handed over goes on as one echo session in the new process. *)

From S2P Require Import Prelude Sys InetConn InetSocket UnixSocket Epoll UnixClient UnixConn.
From S2P Require Import Server ServerInv ServerProps ServerTheorems.

(** ** The reference: decoding a stream of requests *)

(** A complete request in front of the stream. *)
Definition complete (bs : list Z) : bool :=
  (HEADER_LEN <? len bs) && (HEADER_LEN + header_len bs <=? len bs).

Fixpoint decode (fuel : nat) (bs : list Z) : list (list Z) :=
  match fuel with
  | O => []
  | S fuel =>
      if complete bs then
        let n := Z.to_nat (header_len bs) in
        take n (drop 4 bs) :: decode fuel (drop (4 + n) bs)
      else []
  end.

(** A request takes more than four bytes, so the length is enough fuel. *)
Definition requests (bs : list Z) : list (list Z) := decode (length bs) bs.

(** What an echo server answers to a stream. *)
Definition echo_reply (bs : list Z) : list Z := concat (requests bs).

Definition frames (ms : list (list Z)) : list Z := concat (frame <$> ms).

Definition sendable (m : list Z) : Prop := request_len_ok (len m).

Lemma incomplete_not_complete bs : incomplete bs → complete bs = false.
Proof.
  unfold incomplete, complete. intros H. apply andb_false_iff.
  destruct H; [left|right]; breflect; lia.
Qed.

Lemma header_len_frame m rest : sendable m → header_len (frame m ++ rest) = len m.
Proof.
  intros Hm. rewrite (stream_header (frame m ++ rest) [] m rest Hm); [done|by rewrite app_nil_r|].
  rewrite len_app, len_frame. pose proof (len_nonneg m). pose proof (len_nonneg rest). lia.
Qed.

Lemma decode_frame fuel m rest :
  sendable m → decode (S fuel) (frame m ++ rest) = m :: decode fuel rest.
Proof.
  intros Hm. cbn [decode]. unfold complete. rewrite header_len_frame, len_app, len_frame by done.
  pose proof (len_nonneg rest). unfold sendable, request_len_ok in Hm.
  rewrite (proj2 (Z.ltb_lt _ _)), (proj2 (Z.leb_le _ _)) by lia. cbn [andb].
  unfold len. rewrite Nat2Z.id. unfold frame. rewrite <- app_assoc. f_equal.
  - rewrite drop_app_length' by (by rewrite length_le_bytes). by rewrite take_app_length.
  - rewrite app_assoc, drop_app_length' by (by rewrite length_app, length_le_bytes). done.
Qed.

Lemma decode_frames fuel ms rest :
  Forall sendable ms → incomplete rest → (length ms ≤ fuel)%nat →
  decode fuel (frames ms ++ rest) = ms.
Proof.
  intros Hms Hr. revert fuel. induction Hms as [|m ms Hm _ IH]; intros fuel Hf.
  - destruct fuel; [done|]. cbn. by rewrite incomplete_not_complete.
  - destruct fuel as [|fuel]; [cbn in Hf; lia|]. change (frames (m :: ms)) with (frame m ++ frames ms).
    rewrite <- app_assoc, decode_frame by done. f_equal. apply IH. cbn in Hf. lia.
Qed.

Lemma length_frames ms : (length ms ≤ length (frames ms))%nat.
Proof.
  induction ms as [|m ms IH]; [done|]. change (frames (m :: ms)) with (frame m ++ frames ms).
  rewrite length_app. unfold frame. rewrite length_app, length_le_bytes. cbn [length]. lia.
Qed.

Lemma requests_frames ms rest :
  Forall sendable ms → incomplete rest → requests (frames ms ++ rest) = ms.
Proof.
  intros Hms Hr. apply decode_frames; [done..|]. rewrite length_app.
  pose proof (length_frames ms). lia.
Qed.

Lemma frames_app ms ms' : frames (ms ++ ms') = frames ms ++ frames ms'.
Proof. unfold frames. by rewrite fmap_app, concat_app. Qed.

(** A stream that ends between two requests splits. *)
Lemma requests_app ms ms' rest :
  Forall sendable ms → Forall sendable ms' → incomplete rest →
  requests (frames ms ++ frames ms' ++ rest) = ms ++ ms'.
Proof.
  intros Hms Hms' Hr. rewrite app_assoc, <- frames_app. apply requests_frames; [|done].
  by apply Forall_app.
Qed.

(** ** The bytes of one session *)

(** Sessions are the only descriptors registered edge-triggered. *)
Definition starts_session (fd : Z) (c : syscall) : bool :=
  match c with
  | SysEpollCtl _ op fd' events => (op =? EPOLL_CTL_ADD) && (fd' =? fd) && has events EPOLLET
  | _ => false
  end.

(** What was read and what was written since the last session on [fd] began. *)
Definition session_step (fd : Z) (h : list Z * list Z) (ev : event) : list Z * list Z :=
  if starts_session fd ev.1 then ([], [])
  else (h.1 ++ bytes_read fd [ev], h.2 ++ bytes_written fd [ev]).

Definition session (fd : Z) (t : list event) : list Z * list Z :=
  foldl (session_step fd) ([], []) t.

Definition no_session (fd : Z) (c : syscall) : bool := negb (starts_session fd c).

Lemma session_more fd t t' :
  only (no_session fd) t' →
  session fd (t ++ t') =
    ((session fd t).1 ++ bytes_read fd t', (session fd t).2 ++ bytes_written fd t').
Proof.
  intros Ht'. unfold session. rewrite foldl_app. generalize (foldl (session_step fd) ([], []) t).
  induction Ht' as [|ev t' Hev _ IH]; intros [i o]; cbn [foldl fst snd].
  - by rewrite !app_nil_r.
  - rewrite IH. unfold session_step. unfold no_session in Hev.
    destruct (starts_session fd ev.1); [done|]. cbn [fst snd].
    change (ev :: t') with ([ev] ++ t'). by rewrite bytes_read_app, bytes_written_app, !app_assoc.
Qed.

(** Calls that leave the session on [fd] as it is. *)
Definition aside (fd : Z) (c : syscall) : bool :=
  match c with
  | SysRead fd' _ | SysWrite fd' _ => negb (fd' =? fd)
  | _ => no_session fd c
  end.

Lemma session_aside fd t t' : only (aside fd) t' → session fd (t ++ t') = session fd t.
Proof.
  intros Ht'. rewrite session_more.
  - assert (bytes_read fd t' = [] ∧ bytes_written fd t' = []) as [-> ->].
    { induction Ht' as [|[c r] t' Hc _ [IH1 IH2]]; [done|].
      change ((c, r) :: t') with ([(c, r)] ++ t'). rewrite bytes_read_app, bytes_written_app, IH1, IH2.
      destruct c; cbn in Hc |- *; try done; destruct r; cbn; try done;
        by destruct (_ =? fd). }
    rewrite !app_nil_r. by destruct (session fd t).
  - eapply Forall_impl; [exact Ht'|]. by intros [[] r].
Qed.

Lemma session_start fd t epfd events r :
  has events EPOLLET = true →
  session fd (t ++ [(SysEpollCtl epfd EPOLL_CTL_ADD fd events, r)]) = ([], []).
Proof.
  intros H. unfold session. rewrite foldl_app. cbn [foldl]. unfold session_step. cbn [fst starts_session].
  by rewrite !Z.eqb_refl, H.
Qed.

(** ** The invariant *)

(** Everything received is a sequence of requests and what is in the buffer;
    everything sent, with what is still owed, is their payloads. *)
Definition session_ok (c : InetConn) (h : list Z * list Z) : Prop :=
  ∃ ms, Forall sendable ms ∧ h.1 = frames ms ++ buffered c ∧ h.2 ++ pending c = concat ms.

Definition sessions_ok (s : server) (w : world) : Prop :=
  ∀ fd c, inet_conn_map (ep s) !! fd = Some c → session_ok c (session fd (trace w)).

Lemma session_ok_new fd ip : session_ok (new_InetConn fd ip) ([], []).
Proof. exists []. split; [constructor|done]. Qed.

(** ** Calls beside the sessions *)

Lemma aside_ctl fd epfd op fd' events :
  has events EPOLLET = false → aside fd (SysEpollCtl epfd op fd' events) = true.
Proof. intros H. cbn. unfold no_session. cbn. by rewrite H, andb_false_r. Qed.

Lemma aside_touches fd fd0 t : only (touches fd0) t → fd ≠ fd0 → only (aside fd) t.
Proof.
  intros Ht Hne. eapply Forall_impl; [exact Ht|]. intros [c r]. cbn.
  assert (fd0 =? fd = false) as Hb by (by apply Z.eqb_neq).
  destruct c; cbn; try done; intros ->%Z.eqb_eq; unfold no_session; cbn; by rewrite Hb, ?andb_false_r.
Qed.

(** Neither [read] nor [write]. *)
Definition no_io (c : syscall) : bool := match c with SysRead _ _ | SysWrite _ _ => false | _ => true end.

Lemma aside_quiet fd t : only no_io t → quiet_trace t → only (aside fd) t.
Proof.
  intros Hio Hq. induction Hio as [|[c r] t Hc _ IH]; [constructor|]. inversion_clear Hq as [|? ? Hc' Hq'].
  constructor; [by destruct c|by apply IH].
Qed.

#[export] Instance no_io_processRecv u e : Emits no_io (processRecv u e).
Proof.
  unfold processRecv, recv_loop, HandleListenFdMsg, HandleSessionFdMsg, attachInetListenFd,
    assert_longer, AddEvent, makeCommonReply, SetNonblock. cbn zeta. solve_emits.
Qed.

Section Aside.
  Context (fd : Z).

#[local] Instance aside_AddEvent e fd' : Emits (aside fd) (AddEvent e fd' EPOLLIN).
Proof. by apply emits_call_int, aside_ctl. Qed.

Lemma aside_accept_unix s : Emits (aside fd) (accept_unix s).
Proof. unfold accept_unix, unix_server_accept, terminate_path, errout, sys_close. solve_emits. Qed.

Lemma aside_TransferSessionFd u d : Emits (aside fd) (TransferSessionFd u d).
Proof. unfold TransferSessionFd, send_loop, GetReply. cbn zeta. solve_emits. Qed.

Lemma aside_trigger path s : Emits (aside fd) (trigger path s).
Proof.
  unfold trigger, FileExists, unix_client_conn, TransferListenFd, send_loop, GetReply,
    detachInetListenFd, DelEvent, copy_path, errout, sys_close. cbn zeta. solve_emits.
Qed.

Lemma aside_Poll e n : Emits (aside fd) (Poll e n).
Proof. unfold Poll. solve_emits. Qed.
End Aside.

(** ** Every handler keeps the sessions *)

(** Connections are kept or forgotten and no session is touched. *)
Lemma sessions_ok_keep s w s' w' t :
  sessions_ok s w → extends w w' t → (∀ fd, only (aside fd) t) →
  (∀ fd c, inet_conn_map (ep s') !! fd = Some c → inet_conn_map (ep s) !! fd = Some c) →
  sessions_ok s' w'.
Proof.
  intros Hs He Ht Hm fd c Hc. unfold extends in He. rewrite He, session_aside by apply Ht.
  by apply Hs, Hm.
Qed.

(** A descriptor is registered and gets a fresh connection. *)
Lemma sessions_ok_add s w s' w' fd ip t1 epfd events r t2 :
  sessions_ok s w → extends w w' (t1 ++ (SysEpollCtl epfd EPOLL_CTL_ADD fd events, r) :: t2) →
  (∀ fd, only (aside fd) t1) → (∀ fd, only (aside fd) t2) → has events EPOLLET = true →
  inet_conn_map (ep s') = <[fd := new_InetConn fd ip]> (inet_conn_map (ep s)) →
  sessions_ok s' w'.
Proof.
  intros Hs He H1 H2 Hev Hm fd1 c. rewrite Hm. unfold extends in He.
  rewrite He, (cons_middle _ t1), !app_assoc, (session_aside fd1 _ t2) by apply H2.
  destruct (decide (fd1 = fd)) as [->|Hne].
  - rewrite lookup_insert_eq, session_start by done. intros [= <-]. apply session_ok_new.
  - rewrite lookup_insert_ne, session_aside, session_aside by (done || apply H1 ||
      (repeat constructor; cbn; unfold no_session; cbn; by rewrite (proj2 (Z.eqb_neq fd fd1)))).
    apply Hs.
Qed.

Lemma accept_inet_sessions s w :
  sessions_ok s w →
  wp (accept_inet s) (λ o, match o with Done s' w' => sessions_ok s' w' | _ => True end) w.
Proof.
  intros Hs. unfold accept_inet, inet_server_accept, SetNonblock, AddEvent. cbn zeta.
  wp_steps; try done.
  all: eapply (sessions_ok_add s w _ _ _ _ [_; _; _] _ _ _ []);
    [done|solve_extends
    |intros; by repeat constructor|intros; constructor|reflexivity|reflexivity].
Qed.

Lemma process_sessions s u w st u' e' w' :
  sessions_ok s w → processRecv u (ep s) w = Done (st, u', e') w' →
  sessions_ok (mkServer e' (Some u') (unix_client s) (unix_conn_fd s) (unix_client_fd s)
                (unix_socket_init s)) w'.
Proof.
  intros Hs E. pose proof (processRecv_spec u (ep s) w) as Hp. unfold wp in Hp.
  pose proof (emits_extends no_io (processRecv u (ep s)) w) as Hio. rewrite E in Hp, Hio.
  destruct Hp as (t & t' & He & Hq & _ & _ & Hst). cbn zeta in Hst.
  specialize (Hio _ He). apply Forall_app in Hio as [Hio _].
  assert (∀ fd, only (aside fd) t) as Ht by (intros; by apply aside_quiet).
  assert (e' = ep s → t' = [] → sessions_ok (mkServer e' (Some u') (unix_client s) (unix_conn_fd s)
    (unix_client_fd s) (unix_socket_init s)) w') as Hnop.
  { intros -> ->. rewrite app_nil_r in He. by eapply sessions_ok_keep. }
  destruct st; [|apply Hnop; apply Hst|done|apply Hnop; apply Hst].
  destruct Hst as (_ & _ & d & _ & [(_ & -> & r1 & r2 & ->)|(_ & -> & r1 & r2 & r3 & r4 & ->)]).
  - eapply (sessions_ok_keep s w); [done|exact He| |done]. intros fd. apply Forall_app.
    split; [apply Ht|]. repeat constructor. by apply aside_ctl.
  - change (t ++ [?a; ?b; ?c; ?d]) with (t ++ [a; b] ++ [c; d]) in He. rewrite app_assoc in He.
    eapply (sessions_ok_add s w _ _ d received_ip); [done|exact He| | |reflexivity|done]; intros fd.
    + apply Forall_app. split; [apply Ht|by repeat constructor].
    + by repeat constructor.
Qed.

Lemma on_unix_conn_sessions fe s w :
  sessions_ok s w →
  wp (on_unix_conn fe s) (λ o, match o with Done s' w' => sessions_ok s' w' | _ => True end) w.
Proof.
  intros Hs. unfold on_unix_conn, handle_unix_event, DelEvent, sys_close.
  assert (∀ s' w', sessions_ok s' w' →
    wp (_ ← call_int (SysEpollCtl (epfd_ (ep s')) EPOLL_CTL_DEL (fired_fd fe) 0);
        _ ← call_int (SysClose (fired_fd fe));
        mret (mkServer (ep s') None (unix_client s') (unix_conn_fd s') (unix_client_fd s')
          (unix_socket_init s')))
      (λ o, match o with Done s' w' => sessions_ok s' w' | _ => True end) w') as Hdrop.
  { intros s' w' Hs'. wp_steps; try done. eapply (sessions_ok_keep s' w'); [done|solve_extends| |done].
    intros. by repeat constructor. }
  wp_step. wp_step; [wp_step; by apply Hdrop|].
  wp_step; [|wp_step; by apply Hdrop]. wp_step; [|by wp_step].
  wp_step. unfold wp at 1. destruct (processRecv u (ep s) w) as [[[st u'] e'] w1| | | |] eqn:E; try done.
  apply process_sessions in E; [|done]. wp_step; wp_step; [done|]. by apply Hdrop.
Qed.

Lemma no_session_kind (P : syscall → bool) fd t :
  (∀ c, P c = true → no_session fd c = true) → only P t → only (no_session fd) t.
Proof. intros H Ht. eapply Forall_impl; [exact Ht|]. intros ev. apply H. Qed.

(** A request, or a part of it, was received. *)
Lemma read_session c w rs c' w' :
  read_ok c → idle c → session_ok c (session (fd_ c) (trace w)) →
  GetRequest c w = Done (rs, c') w' → rs = kReadAll ∨ rs = kReadHalf →
  session_ok c' (session (fd_ c) (trace w')).
Proof.
  intros Hr [Hi1 Hi2] (ms & Hms & Hin & Hout) E Hrs. pose proof (GetRequest_spec c w Hr) as Hg.
  pose proof (emits_extends is_read (GetRequest c) w) as Ho. unfold wp in Hg. rewrite E in Hg, Ho.
  destruct Hg as (t & He & (_ & _ & Hsw) & _ & Hst). specialize (Ho _ He). unfold extends in He. cbn in He.
  rewrite He, session_more by (eapply no_session_kind; [|exact Ho]; by intros []).
  rewrite (only_read_written _ _ Ho), app_nil_r. unfold session_ok. cbn [fst snd].
  rewrite Hin, <- app_assoc. unfold pending in *. rewrite Hsw in *. rewrite Hi1, Hi2 in *. cbn in Hout.
  destruct Hrs as [-> | ->].
  - destruct Hst as (-> & Hlen & Hp). exists (ms ++ [reply_ c']). split_and!.
    + apply Forall_app. split; [done|by constructor].
    + rewrite frames_app. unfold buffered. rewrite Hp. cbn. by rewrite !app_nil_r.
    + rewrite concat_app, <- Hout, app_nil_r. cbn. by rewrite app_nil_r.
  - destruct Hst as (-> & Hrep & _). exists ms. split_and!; [done..|].
    by rewrite Hrep.
Qed.

(** The reply, or a part of it, was sent. *)
Lemma write_session c w ws c' w' :
  write_ok c → session_ok c (session (fd_ c) (trace w)) →
  SendReply c w = Done (ws, c') w' → ws = kWriteAll ∨ ws = kWriteHalf →
  session_ok c' (session (fd_ c) (trace w')).
Proof.
  intros Hw (ms & Hms & Hin & Hout) E Hws. pose proof (SendReply_spec c w Hw) as Hg.
  pose proof (emits_extends is_write (SendReply c) w) as Ho. unfold wp in Hg. rewrite E in Hg, Ho.
  destruct Hg as (t & He & Hst). specialize (Ho _ He). unfold extends in He. cbn in He.
  rewrite He, session_more by (eapply no_session_kind; [|exact Ho]; by intros []).
  rewrite (only_write_read _ _ Ho), app_nil_r. exists ms. cbn [fst snd].
  assert (last_read_pos_ c' = last_read_pos_ c ∧ read_buf_ c' = read_buf_ c ∧
    bytes_written (fd_ c) t ++ pending c' = pending c) as (Hp & Hb & Hpend).
  { destruct Hws as [-> | ->]; destruct Hst as (H1 & H2 & H3 & _ & Hp & Hb); split_and!; try done.
    unfold pending at 1. rewrite H2, H3. cbn. by rewrite app_nil_r. }
  unfold buffered in *. rewrite Hp, Hb, <- app_assoc, Hpend. done.
Qed.

(** The connection an event was reported for. *)
Definition event_session (fe : FiredEvent) (o : outcome (Z * server)) : Prop :=
  match o with
  | Done (ret, s') w' => ret = -1 ∨
      ∀ c, inet_conn_map (ep s') !! fired_fd fe = Some c → session_ok c (session (fired_fd fe) (trace w'))
  | _ => True
  end.

Lemma wp_mod_session fe e m s w :
  (∀ c, inet_conn_map (ep s) !! fired_fd fe = Some c → session_ok c (session (fired_fd fe) (trace w))) →
  wp (_ ← ModEvent e (fired_fd fe) m; mret (0, s)) (event_session fe) w.
Proof.
  intros H. unfold ModEvent. wp_steps; [done|]. right. intros c Hc. cbn [answered trace].
  rewrite session_aside by (by repeat constructor). by apply H.
Qed.

Lemma handle_net_event_session fe s w :
  server_inv s w → fired_ok w fe → sessions_ok s w → wp (handle_net_event fe s) (event_session fe) w.
Proof.
  intros Hinv Hf Hs. unfold handle_net_event. wp_step; [wp_step; by left|].
  destruct (inet_conn_map (ep s) !! fired_fd fe) as [c|] eqn:Hc; [|wp_step; by left].
  destruct (Hinv _ _ Hc) as (_ & Hfd & Hr & Hw & _). pose proof (Hs _ _ Hc) as Hses. rewrite <- Hfd in Hses.
  destruct (has (mask fe) EPOLLIN) eqn:Hin.
  - pose proof (readable_idle _ _ _ _ Hinv Hf Hin Hc) as Hidle.
    destruct (if true && EmptyReadBuf c then unix_client s else None) as [uc|].
    { wp_step. unfold wp at 1. destruct (TransferSessionFd uc (fired_fd fe) w) as [[sms uc'] w1| | | |];
        try done. wp_step. by left. }
    wp_step. unfold wp at 1. destruct (GetRequest c w) as [[rs c'] w1| | | |] eqn:E; try done.
    cbn zeta. destruct rs; try (wp_step; by left).
    + wp_step. right. cbn. rewrite lookup_insert_eq. intros ? [= <-]. rewrite <- Hfd. eapply read_session; eauto.
    + apply wp_mod_session. cbn. rewrite lookup_insert_eq. intros ? [= <-]. rewrite <- Hfd. eapply read_session; eauto.
  - cbn [andb]. wp_step; [|wp_step; right; by apply Hs].
    wp_step. unfold wp at 1. destruct (SendReply c w) as [[ws c'] w1| | | |] eqn:E; try done.
    cbn zeta. destruct ws; try (wp_step; by left).
    + wp_step. right. cbn. rewrite lookup_insert_eq. intros ? [= <-]. rewrite <- Hfd. eapply write_session; eauto.
    + apply wp_mod_session. cbn. rewrite lookup_insert_eq. intros ? [= <-]. rewrite <- Hfd. eapply write_session; eauto.
Qed.

Lemma on_inet_conn_event fe s w :
  server_inv s w → fired_ok w fe → sessions_ok s w →
  wp (on_inet_conn fe s) (λ o, match o with
    | Done s' w' => ∀ c, inet_conn_map (ep s') !! fired_fd fe = Some c →
        session_ok c (session (fired_fd fe) (trace w'))
    | _ => True
    end) w.
Proof.
  intros Hinv Hf Hs. unfold on_inet_conn. wp_step.
  eapply wp_mono; [by apply handle_net_event_session|].
  intros [[ret s1] w1| | | |] He; try done. cbn beta iota.
  destruct (Z.eqb_spec ret (-1)) as [->|Hne].
  - unfold DelEvent, sys_close. wp_steps; try done. cbn. intros c. by rewrite lookup_delete_eq.
  - wp_step. by destruct He as [->|He].
Qed.

Lemma on_inet_conn_sessions fe s w s' w' :
  server_inv s w → fired_ok w fe → sessions_ok s w → on_inet_conn fe s w = Done s' w' →
  sessions_ok s' w'.
Proof.
  intros Hinv Hf Hs E fd c Hc. destruct (decide (fd = fired_fd fe)) as [->|Hne].
  - pose proof (on_inet_conn_event fe s w Hinv Hf Hs) as He. unfold wp in He. rewrite E in He. by apply He.
  - assert (Emits (touches (fired_fd fe)) (on_inet_conn fe s)) as Hem
      by (apply touches_on_inet_conn; intros c0 Hc0; apply (Hinv _ _ Hc0)).
    destruct (Hem w) as (t & He & Ht). rewrite E in He. unfold extends in He. cbn in He.
    rewrite He, session_aside by (by eapply aside_touches). apply Hs.
    apply on_inet_conn_frame in E as [_ Hm]. by rewrite <- Hm.
Qed.

(** A part of the program beside all sessions, which keeps the table. *)
Lemma sessions_ok_run {A} (m : M A) s w a s' w' :
  (∀ fd, Emits (aside fd) m) → m w = Done a w' → inet_conn_map (ep s') = inet_conn_map (ep s) →
  sessions_ok s w → sessions_ok s' w'.
Proof.
  intros Hem E Hm Hs fd c. rewrite Hm. destruct (Hem fd w) as (t & He & Ht). rewrite E in He.
  unfold extends in He. cbn in He. rewrite He, session_aside by done. apply Hs.
Qed.

Lemma dispatch_sessions fe s w s' w' :
  server_inv s w → fired_ok w fe → sessions_ok s w → dispatch fe s w = Done s' w' → sessions_ok s' w'.
Proof.
  intros Hinv Hf Hs. unfold dispatch. case_bool; [|case_bool; [|case_bool]]; intros E.
  - pose proof (accept_inet_sessions s w Hs) as H. unfold wp in H. by rewrite E in H.
  - eapply (sessions_ok_run (accept_unix s)); [intros; apply aside_accept_unix|exact E| |done].
    revert E. enough (ensures (accept_unix s) (λ s', inet_conn_map (ep s') = inet_conn_map (ep s))) as H
      by apply H. unfold accept_unix. solve_ensures; done.
  - pose proof (on_unix_conn_sessions fe s w Hs) as H. unfold wp in H. by rewrite E in H.
  - by eapply on_inet_conn_sessions.
Qed.

Lemma reachable_sessions argv script0 path fes s w :
  reachable argv script0 path fes s w → kernel_ok (trace w) → sessions_ok s w.
Proof.
  induction 1 as [s w E|s w s1 w1 n e w2 Hr IH Et Ep|fe fes s w s' w' Hr IH E]; intros Hk.
  - apply main_start_spec in E as (Hm & _). intros fd c. by rewrite Hm.
  - assert (kernel_ok (trace w)) as Hk0.
    { eapply (kernel_ok_before (trigger path s)); [exact Et|].
      by eapply (kernel_ok_before (Poll (ep s1) 10)). }
    pose proof (trigger_spec path s w) as Ht. pose proof (Poll_spec (ep s1) 10 w1) as Hp.
    unfold wp in Ht, Hp. rewrite Et in Ht. rewrite Ep in Hp. destruct Hp as (_ & He & _).
    apply (sessions_ok_run (Poll (ep s1) 10) s1 w1 (n, e)); [intros; apply aside_Poll|done|by cbn; rewrite He|].
    apply (sessions_ok_run (trigger path s) s w s1); [intros; apply aside_trigger|done| |by apply IH].
    by destruct Ht as [[-> _]|(_ & _ & _ & _ & _ & _ & [[-> _]|[-> _]])].
  - assert (kernel_ok (trace w)) as Hk0 by (by eapply (kernel_ok_before (dispatch fe s))).
    destruct (reachable_loop_inv _ _ _ _ _ _ Hr Hk0) as (Hinv & _ & Hf). inversion_clear Hf.
    eapply dispatch_sessions; [exact Hinv|done|by apply IH|exact E].
Qed.

(** The invariant in terms of the reference. *)
Lemma session_ok_echo c h :
  read_ok c → session_ok c h →
  h.2 ++ InetConn.pending c = echo_reply h.1 ∧ h.1 = frames (requests h.1) ++ buffered c.
Proof.
  intros Hr (ms & Hms & Hin & Hout). unfold echo_reply.
  assert (requests h.1 = ms) as -> by (rewrite Hin; apply requests_frames; [done|by apply incomplete_buffered]).
  done.
Qed.

(** ** Sessions that are handed over *)

(** A session that owes nothing and continues on another connection. *)
Lemma session_ok_join c1 h1 c2 h2 :
  session_ok c1 h1 → buffered c1 = [] → pending c1 = [] → session_ok c2 h2 →
  session_ok c2 (h1.1 ++ h2.1, h1.2 ++ h2.2).
Proof.
  intros (ms1 & Hms1 & Hin1 & Hout1) Hb Hp (ms2 & Hms2 & Hin2 & Hout2). exists (ms1 ++ ms2). cbn [fst snd].
  rewrite Hb, app_nil_r in Hin1. rewrite Hp, app_nil_r in Hout1.
  rewrite Hin1, Hin2, Hout1, <- app_assoc, Hout2, concat_app, frames_app, app_assoc.
  split_and!; [by apply Forall_app|done..].
Qed.

Lemma no_session_on_inet_conn fd fe s : Emits (no_session fd) (on_inet_conn fe s).
Proof.
  unfold on_inet_conn, handle_net_event, TransferSessionFd, send_loop, GetReply, GetRequest, GetBody, read_more,
    fill, finish, request_string, SendReply, ModEvent, DelEvent, sys_read, sys_write, sys_close.
  cbn zeta. solve_emits.
Qed.

(** Handing a session over does not touch it. *)
Lemma handover_session fe s w c uc s' w' :
  has (mask fe) EPOLLERR = false → has (mask fe) EPOLLHUP = false → has (mask fe) EPOLLIN = true →
  inet_conn_map (ep s) !! fired_fd fe = Some c → EmptyReadBuf c = true → unix_client s = Some uc →
  on_inet_conn fe s w = Done s' w' →
  session (fired_fd fe) (trace w') = session (fired_fd fe) (trace w).
Proof.
  intros H1 H2 H3 Hc H4 Hu E. pose proof (transfer_and_close fe s uc w c H1 H2 H3 Hc H4 Hu) as Hp.
  unfold wp in Hp. destruct (no_session_on_inet_conn (fired_fd fe) fe s w) as (t & He & Ht).
  rewrite E in Hp, He. destruct Hp as (_ & t1 & t2 & ks & st & He' & (r1 & r2 & ->) & _ & Hr & Hw & _).
  pose proof (extends_inj _ _ _ _ He He') as ->. unfold extends in He. cbn in He.
  rewrite He, session_more, bytes_read_app, bytes_written_app, Hr, Hw by done. cbn.
  rewrite !app_nil_r. by destruct (session _ _).
Qed.

(** The descriptor [fd] was sent to another process. *)
Definition gives_away (fd : Z) (w w' : world) : Prop :=
  ∃ t, extends w w' t ∧ Exists (λ ev, ∃ sock bs, ev.1 = SysSendmsg sock bs (Some fd)) t.

Definition sends_fd (fd : Z) (ev : event) : bool :=
  match ev.1 with SysSendmsg _ _ (Some d) => d =? fd | _ => false end.

Lemma gives_away_check fd w w' :
  take (length (trace w)) (trace w') = trace w →
  existsb (sends_fd fd) (drop (length (trace w)) (trace w')) = true → gives_away fd w w'.
Proof.
  intros Ht Hx. exists (drop (length (trace w)) (trace w')). split.
  - unfold extends. rewrite <- (take_drop (length (trace w)) (trace w')) at 1. by rewrite Ht.
  - apply existsb_exists in Hx as ([c r] & Hin & Hs). apply Exists_exists. exists (c, r).
    split; [by apply list_elem_of_In|]. unfold sends_fd in Hs. cbn in Hs.
    destruct c; try done. destruct rights as [d|]; [|done]. apply Z.eqb_eq in Hs as ->. by eexists _, _.
Qed.

Definition no_gift (c : syscall) : bool := negb (is_gift c).

Lemma not_given fd w w' t : extends w w' t → only no_gift t → ¬ gives_away fd w w'.
Proof.
  intros He Ht (t' & He' & Hx). rewrite (extends_inj _ _ _ _ He' He) in Hx.
  apply Exists_exists in Hx as ([c r] & Hin & sock & bs & Hc). cbn in Hc. subst c.
  apply Forall_forall with (x := (SysSendmsg sock bs (Some fd), r)) in Ht; done.
Qed.

(** The handler of a client only gives the descriptor away between two requests,
    when the upgrade has begun. *)
Lemma given_between_requests fe s w s' w' fd :
  on_inet_conn fe s w = Done s' w' → gives_away fd w w' →
  ∃ c uc, inet_conn_map (ep s) !! fired_fd fe = Some c ∧ EmptyReadBuf c = true ∧ unix_client s = Some uc ∧
    has (mask fe) EPOLLERR = false ∧ has (mask fe) EPOLLHUP = false ∧ has (mask fe) EPOLLIN = true.
Proof.
  intros E Hg.
  assert (Emits no_gift (on_inet_conn fe s) → False) as Hno.
  { intros Hem. destruct (Hem w) as (t & He & Ht). rewrite E in He. by eapply not_given. }
  unfold on_inet_conn, handle_net_event, GetRequest, GetBody, read_more, fill, finish, request_string,
    SendReply, ModEvent, DelEvent, sys_read, sys_write, sys_close in Hno. cbn zeta in Hno.
  destruct (has (mask fe) EPOLLERR), (has (mask fe) EPOLLHUP); cbn [orb] in Hno;
    try (exfalso; apply Hno; solve [solve_emits]).
  destruct (inet_conn_map (ep s) !! fired_fd fe) as [c|]; [|exfalso; apply Hno; solve_emits].
  destruct (has (mask fe) EPOLLIN); cbn [andb] in Hno; [|exfalso; apply Hno; solve_emits].
  destruct (EmptyReadBuf c) eqn:He; [|exfalso; apply Hno; solve_emits].
  destruct (unix_client s) as [uc|]; [|exfalso; apply Hno; solve_emits]. eauto 10.
Qed.

(** The session that is given away: complete requests, all of them answered, and
    the hand-over itself does not touch it. *)
Lemma given_session argv script0 path fe fes s w s' w' :
  reachable argv script0 path (fe :: fes) s w → kernel_ok (trace w) →
  fired_fd fe ≠ inet_listen_fd (ep s) → fired_fd fe ≠ unix_listen_fd (ep s) → fired_fd fe ≠ unix_conn_fd s →
  dispatch fe s w = Done s' w' → gives_away (fired_fd fe) w w' →
  ∃ c uc, unix_client s = Some uc ∧ read_ok c ∧ buffered c = [] ∧ pending c = [] ∧
    session_ok c (session (fired_fd fe) (trace w')) ∧ handover_post fe s uc w (Done s' w').
Proof.
  intros Hr Hk Hl Hul Huc E Hgive. unfold dispatch in E. rewrite !(proj2 (Z.eqb_neq _ _)) in E by done.
  destruct (given_between_requests _ _ _ _ _ _ E Hgive) as (c & uc & Hc & H4 & Hu & H1 & H2 & H3).
  destruct (reachable_loop_inv _ _ _ _ _ _ Hr Hk) as (Hinv & _ & Hf). inversion_clear Hf.
  exists c, uc. rewrite (handover_session fe s w c uc s' w') by done. split_and!; try done.
  - by apply (Hinv _ _ Hc).
  - by apply empty_buffered.
  - by eapply idle_pending, (readable_idle s w fe).
  - by eapply reachable_sessions.
  - pose proof (transfer_and_close fe s uc w c H1 H2 H3 Hc H4 Hu) as Hp. unfold wp in Hp. by rewrite E in Hp.
Qed.

(** ** An upgrade with a client in it *)

(** The old server serves a request of two bytes on descriptor 5 before the
    trigger file appears and the client becomes readable again. *)
Definition serve_read (fd : Z) (msg : list Z) : list reply :=
  [RErr 2; REvents [(fd, 1)]; RData (le_bytes 4 (len msg)); RData msg; RInt 0].
Definition serve_write (fd : Z) (msg : list Z) : list reply :=
  [RErr 2; REvents [(fd, 4)]; RInt (len msg); RInt 0].
Definition echo_old_script : list reply :=
  old_start ++ old_accept ++ serve_read 5 [104; 105] ++ serve_write 5 [104; 105] ++
  old_trigger ++ [REvents [(5, 1)]] ++ old_session.

(** The new server gets that session as descriptor 7 and owes the reply to its
    next request. *)
Definition new_session : list reply :=
  [RErr 2; REvents [(5, 1)]; RMsg session_message (Some 7); RInt 0; RInt 0; RInt 0; RInt 8].
Definition echo_new_script : list reply :=
  new_start ++ new_accept ++ new_listen ++ new_session ++ serve_read 7 [33] ++
  [RErr 2; REvents [(7, 4)]].

Definition echo_old := poll_next UNIX_CLIENT_TRIGGER (after_rounds old_argv UNIX_CLIENT_TRIGGER 3 echo_old_script).
Definition echo_new := poll_next "-u" (after_rounds new_argv "-u" 4 echo_new_script).

Lemma echo_old_reachable :
  reachable old_argv echo_old_script UNIX_CLIENT_TRIGGER [mkFired 1 5] (state_server echo_old)
    (state_world echo_old).
Proof.
  change [mkFired 1 5] with (state_events echo_old).
  apply (demo_poll "server" _ [] _ 3); vm_compute; reflexivity.
Qed.

Lemma echo_new_reachable :
  reachable new_argv echo_new_script "-u" [mkFired 4 7] (state_server echo_new) (state_world echo_new).
Proof.
  change [mkFired 4 7] with (state_events echo_new).
  apply (demo_poll "server" _ [] _ 4); vm_compute; reflexivity.
Qed.

Lemma echo_old_kernel_ok : kernel_ok (trace (state_world echo_old)).
Proof. apply kernel_ok_check. vm_compute. reflexivity. Qed.

Lemma echo_old_gives :
  gives_away 5 (state_world echo_old)
    (final (dispatch (mkFired 1 5) (state_server echo_old) (state_world echo_old))).
Proof. apply gives_away_check; vm_compute; reflexivity. Qed.

Lemma echo_new_kernel_ok : kernel_ok (trace (state_world echo_new)).
Proof. apply kernel_ok_check. vm_compute. reflexivity. Qed.

(** ** Properties *)

(** C1: the server is an echo server, at every moment and for every session.
    In every reachable state, what was written to a client together with what is
    still to be written is the payload of the requests read from it, in order,
    and what was read is these requests followed by the bytes in the buffer. *)
Theorem server_echoes argv script0 path fes s w fd c :
  reachable argv script0 path fes s w → kernel_ok (trace w) →
  inet_conn_map (ep s) !! fd = Some c →
  (session fd (trace w)).2 ++ pending c = echo_reply (session fd (trace w)).1 ∧
  (session fd (trace w)).1 = frames (requests (session fd (trace w)).1) ++ buffered c.
Proof.
  intros Hr Hk Hc. destruct (reachable_loop_inv _ _ _ _ _ _ Hr Hk) as (Hinv & _).
  apply session_ok_echo; [by apply (Hinv _ _ Hc)|]. by eapply reachable_sessions.
Qed.

Lemma server_echoes_witness :
  let w := state_world echo_new in
  let c := lookup_conn (state_server echo_new) 7 in
  session 7 (trace w) = (frame [33], []) ∧ pending c = [33] ∧
  (session 7 (trace w)).2 ++ pending c = echo_reply (session 7 (trace w)).1 ∧
  (session 7 (trace w)).1 = frames (requests (session 7 (trace w)).1) ++ buffered c.
Proof.
  cbn zeta. split; [vm_compute; reflexivity|]. split; [vm_compute; reflexivity|].
  apply (server_echoes _ _ _ _ _ _ _ _ echo_new_reachable echo_new_kernel_ok). vm_compute. reflexivity.
Defined.

(** C2: the upgrade is invisible to the client.  Whenever the old process sends
    the descriptor of a client to another process, everything it received there
    has been answered; and whatever the new process has received and sent on the
    session since, the bytes of both processes together are one echo session. *)
Theorem upgrade_transparent argv1 script1 path1 fe fes1 s1 w1 s1' w1'
    argv2 script2 path2 fes2 s2 w2 d c2 :
  reachable argv1 script1 path1 (fe :: fes1) s1 w1 → kernel_ok (trace w1) →
  fired_fd fe ≠ inet_listen_fd (ep s1) → fired_fd fe ≠ unix_listen_fd (ep s1) →
  fired_fd fe ≠ unix_conn_fd s1 →
  dispatch fe s1 w1 = Done s1' w1' → gives_away (fired_fd fe) w1 w1' →
  reachable argv2 script2 path2 fes2 s2 w2 → kernel_ok (trace w2) →
  inet_conn_map (ep s2) !! d = Some c2 →
  let old := session (fired_fd fe) (trace w1') in
  let new := session d (trace w2) in
  old.2 = echo_reply old.1 ∧
  (old.2 ++ new.2) ++ pending c2 = echo_reply (old.1 ++ new.1) ∧
  old.1 ++ new.1 = frames (requests (old.1 ++ new.1)) ++ buffered c2.
Proof.
  intros Hr1 Hk1 Hl Hul Huc E Hgive Hr2 Hk2 Hc2. cbn zeta.
  destruct (given_session _ _ _ _ _ _ _ _ _ Hr1 Hk1 Hl Hul Huc E Hgive) as (c1 & uc & _ & Hok1 & Hb & Hp & Hs1 & _).
  destruct (reachable_loop_inv _ _ _ _ _ _ Hr2 Hk2) as (Hinv2 & _).
  split; [by rewrite <- (proj1 (session_ok_echo c1 _ Hok1 Hs1)), Hp, app_nil_r|].
  apply (session_ok_echo c2 (_, _)); [by apply (Hinv2 _ _ Hc2)|].
  eapply session_ok_join; [exact Hs1|done..|by eapply reachable_sessions].
Qed.

Lemma upgrade_transparent_witness :
  let w1 := final (dispatch (mkFired 1 5) (state_server echo_old) (state_world echo_old)) in
  let c2 := lookup_conn (state_server echo_new) 7 in
  let old := session 5 (trace w1) in
  let new := session 7 (trace (state_world echo_new)) in
  old = (frame [104; 105], [104; 105]) ∧ new = (frame [33], []) ∧
  old.2 = echo_reply old.1 ∧
  (old.2 ++ new.2) ++ pending c2 = echo_reply (old.1 ++ new.1) ∧
  old.1 ++ new.1 = frames (requests (old.1 ++ new.1)) ++ buffered c2.
Proof.
  cbn zeta. split; [vm_compute; reflexivity|]. split; [vm_compute; reflexivity|].
  apply (upgrade_transparent _ _ _ (mkFired 1 5) [] (state_server echo_old) (state_world echo_old)
    (value no_server (dispatch (mkFired 1 5) (state_server echo_old) (state_world echo_old))) _
    new_argv echo_new_script "-u" [mkFired 4 7] (state_server echo_new) (state_world echo_new)
    7 (lookup_conn (state_server echo_new) 7)
    echo_old_reachable echo_old_kernel_ok);
    try exact echo_old_gives; try exact echo_new_reachable; try exact echo_new_kernel_ok;
    try (vm_compute; reflexivity); vm_compute; discriminate.
Defined.
