(* ===== verification/EdgeTrigger.v ===== *)
(** * No wake-up is lost

    Sessions of [hot_upgrade_demo/server.cc] are registered with [EPOLLET]: the
    kernel reports a descriptor when bytes arrive or when it is registered or
    modified, and not again because bytes are left.  A handler that leaves bytes
    behind without modifying the registration would wait for ever.  This file has
    the kernel's side of one descriptor and shows that [GetRequest] and the event
    loop never do so.

    What is assumed of [read] is what epoll(7) documents for stream sockets: it
    delivers what is there, up to the length it was asked for. *)

From S2P Require Import Prelude Sys InetConn InetSocket UnixSocket Epoll UnixClient UnixConn.
From S2P Require Import Server ServerInv ServerProps ServerTheorems.

(** ** The kernel's side of a descriptor *)

(** The bytes that wait in the socket, and whether the next [epoll_wait] reports
    the descriptor. *)
Record sock := mkSock { inbox : list Z; due : bool }.

(** Bytes that wait are announced. *)
Definition announced (k : sock) : Prop := inbox k = [] ∨ due k = true.

(** Calls that neither read [fd] nor change or report its registration. *)
Definition beside (fd : Z) (ev : event) : bool :=
  match ev with
  | (SysRead fd' _, _) => negb (fd' =? fd)
  | (SysEpollCtl _ op fd' _, RInt _) => negb (fd' =? fd) || (op =? EPOLL_CTL_DEL)
  | (SysEpollWait _ _ _, REvents evs) => bool_decide (fd ∉ evs.*1)
  | _ => true
  end.

Inductive sock_step (fd : Z) (k : sock) : event → sock → Prop :=
| sock_read n :
    sock_step fd k (SysRead fd n, RData (take (Z.to_nat n) (inbox k))) (mkSock (drop (Z.to_nat n) (inbox k)) (due k))
| sock_again n : inbox k = [] → sock_step fd k (SysRead fd n, RErr EAGAIN) k
| sock_failed n e : e ≠ EAGAIN → sock_step fd k (SysRead fd n, RErr e) k
| sock_armed epfd op events v :
    op ≠ EPOLL_CTL_DEL →
    sock_step fd k (SysEpollCtl epfd op fd events, RInt v) (mkSock (inbox k) (bool_decide (inbox k ≠ [])))
| sock_reported epfd n timeout evs :
    fd ∈ evs.*1 → sock_step fd k (SysEpollWait epfd n timeout, REvents evs) (mkSock (inbox k) false)
| sock_beside ev : beside fd ev = true → sock_step fd k ev k.

(** The calls of a process, with bytes that arrive between any two of them. *)
Inductive sock_run (fd : Z) (k : sock) : list event → sock → Prop :=
| run_nil : sock_run fd k [] k
| run_arrive t k' bs : sock_run fd k t k' → sock_run fd k t (mkSock (inbox k' ++ bs) true)
| run_call t k1 ev k2 : sock_run fd k t k1 → sock_step fd k1 ev k2 → sock_run fd k (t ++ [ev]) k2.

(** After the calls [t], bytes that wait are announced, whatever was in the socket
    before and whatever arrived in between. *)
Definition settled (fd : Z) (t : list event) : Prop := ∀ k k', sock_run fd k t k' → announced k'.

Lemma sock_run_split fd k t1 t2 k' :
  sock_run fd k (t1 ++ t2) k' → ∃ k1, sock_run fd k t1 k1 ∧ sock_run fd k1 t2 k'.
Proof.
  intros H. remember (t1 ++ t2) as t eqn:Et. revert t2 Et.
  induction H as [|t k' bs H IH|t k1 ev k2 H IH Hs]; intros t2 Et.
  - symmetry in Et. apply app_nil in Et as [-> ->]. exists k. split; constructor.
  - destruct (IH t2 Et) as (k0 & H1 & H2). exists k0. split; [done|by constructor].
  - destruct t2 as [|ev2 t2 _] using rev_ind.
    + rewrite app_nil_r in Et. subst t1. exists k2. split; [by econstructor|constructor].
    + rewrite app_assoc in Et. apply app_inj_tail in Et as [-> ->].
      destruct (IH t2 eq_refl) as (k0 & H1 & H2). exists k0. split; [done|by econstructor].
Qed.

(** The last call decides. *)
Lemma settled_last fd t ev :
  (∀ k k1 k', sock_run fd k t k1 → sock_step fd k1 ev k' → announced k') →
  settled fd (t ++ [ev]).
Proof.
  intros H k k' Hr. remember (t ++ [ev]) as t1 eqn:Et.
  induction Hr as [|t0 k' bs Hr IH|t0 k1 ev0 k2 Hr IH Hs]; [by destruct t|by right|].
  apply app_inj_tail in Et as [-> ->]. by eapply H.
Qed.

Lemma settled_beside fd t t' : settled fd t → Forall (λ ev, beside fd ev = true) t' → settled fd (t ++ t').
Proof.
  intros Ht. induction t' as [|ev t' IH] using rev_ind; [by rewrite app_nil_r|].
  intros [Ht' Hev]%Forall_app. inversion_clear Hev as [|? ? Hb _]. rewrite app_assoc. apply settled_last.
  intros k k1 k' Hr Hs. destruct Hs; cbn in Hb; rewrite ?Z.eqb_refl in Hb; try done; [| |by eapply IH].
  - apply Z.eqb_eq in Hb. congruence.
  - by rewrite bool_decide_eq_false_2 in Hb by auto.
Qed.

(** A read that was not satisfied in full emptied the socket. *)
Lemma settled_short fd t n bs : len bs < n → settled fd (t ++ [(SysRead fd n, RData bs)]).
Proof.
  intros Hn. apply settled_last. intros k k1 k' _ Hs. inversion Hs as [? Hbs| | | | |? Hb]; subst.
  - left. cbn. apply drop_ge. unfold len in Hn. rewrite length_take in Hn. lia.
  - cbn in Hb. by rewrite Z.eqb_refl in Hb.
Qed.

Lemma settled_again fd t n : settled fd (t ++ [(SysRead fd n, RErr EAGAIN)]).
Proof.
  apply settled_last. intros k k1 k' _ Hs. inversion Hs as [|? He|? ? Hne| | |? Hb]; subst; [by left|done|].
  cbn in Hb. by rewrite Z.eqb_refl in Hb.
Qed.

(** Registering and modifying announce what is there. *)
Lemma settled_armed fd t epfd op events v :
  op ≠ EPOLL_CTL_DEL → settled fd (t ++ [(SysEpollCtl epfd op fd events, RInt v)]).
Proof.
  intros Hop. apply settled_last. intros k k1 k' _ Hs. inversion Hs as [| | |? ? ? ? ?| |? Hb]; subst.
  - unfold announced. cbn. destruct (inbox k1); [by left|]. right. by apply bool_decide_eq_true_2.
  - cbn in Hb. rewrite Z.eqb_refl in Hb. cbn in Hb. by apply Z.eqb_eq in Hb.
Qed.

(** ** The handlers *)

Definition settles (fd : Z) (w w' : world) : Prop := ∃ t, extends w w' t ∧ settled fd t.

(** A request that is not complete was read up to the last byte there was. *)
Lemma GetRequest_settles c w c' w' :
  read_ok c → GetRequest c w = Done (kReadHalf, c') w' → settles (fd_ c) w w'.
Proof.
  intros Hc E. pose proof (GetRequest_post c w Hc) as H. unfold wp in H. rewrite E in H.
  destruct H as (t & He & _ & (t0 & n & r & -> & Hr)). eexists. split; [exact He|].
  destruct Hr as [->|(bs & -> & ?)]; [apply settled_again|apply settled_short; lia].
Qed.

(** After an event, a connection that stays and waits for input. *)
Definition waits_settled (fd : Z) (w : world) (s' : server) (w' : world) : Prop :=
  ∀ c, inet_conn_map (ep s') !! fd = Some c → idle c → kernel_ok (trace w') → settles fd w w'.

Lemma mod_settles e fd m v w w1 w' :
  is_Some (interest (trace w1) !! fd) → (∃ t, extends w w1 t) → ModEvent e fd m w1 = Done v w' →
  kernel_ok (trace w') → settles fd w w'.
Proof.
  intros Hi [t He] E Hk. enough (∃ r, extends w1 w' [(SysEpollCtl (epfd_ e) EPOLL_CTL_MOD fd (u32 m), r)]) as [r Hr].
  { eexists. split; [by eapply extends_trans|]. unfold extends in Hr. rewrite Hr in Hk.
    rewrite (Hk (trace w1) _ [] eq_refl Hi). by apply settled_armed. }
  enough (wp (ModEvent e fd m) (λ o, match o with Done _ w' => ∃ r,
    extends w1 w' [(SysEpollCtl (epfd_ e) EPOLL_CTL_MOD fd (u32 m), r)] | _ => True end) w1) as H
    by (unfold wp in H; by rewrite E in H).
  unfold ModEvent. wp_steps; [done|]. exists r. solve_extends.
Qed.

Lemma handle_net_event_settles fe s w c0 ret s' w' :
  server_inv s w → fired_ok w fe → inet_conn_map (ep s) !! fired_fd fe = Some c0 →
  has (mask fe) EPOLLIN = true ∨ ¬ idle c0 →
  handle_net_event fe s w = Done (ret, s') w' → ret ≠ -1 → waits_settled (fired_fd fe) w s' w'.
Proof.
  intros Hinv Hf Hc0 Hev E Hret c Hc Hidle Hk. destruct (Hinv _ _ Hc0) as (_ & Hfd & Hr & Hw & _).
  unfold handle_net_event in E. rewrite Hc0 in E. case_bool; [by injection E as <-|].
  destruct (has (mask fe) EPOLLIN) eqn:Hin.
  - destruct (if true && EmptyReadBuf c0 then unix_client s else None) as [uc|].
    { revert E. unfold mbind, M_bind. destruct (TransferSessionFd uc (fired_fd fe) w) as [[]| | | |]; try done.
      by intros [= <- _ _]. }
    revert E. unfold mbind at 1, M_bind at 1. pose proof (GetRequest_spec c0 w Hr) as Hg. unfold wp in Hg.
    destruct (GetRequest c0 w) as [[rs c1] w1| | | |] eqn:E; try done.
    destruct Hg as (t & _ & _ & _ & Hst). destruct rs; cbn zeta; try (by intros [= <- _ _]).
    + intros [= _ <- <-]. rewrite <- Hfd. by apply GetRequest_settles in E.
    + unfold mbind, M_bind. destruct (ModEvent _ _ _ w1); try done. intros [= _ <- _]. cbn in Hc.
      rewrite lookup_insert_eq in Hc. injection Hc as <-. destruct Hidle as [Hn _].
      destruct Hst as (_ & Hl & _). rewrite Hn in Hl. unfold request_len_ok, len in Hl. cbn in Hl. lia.
  - destruct Hev as [?|Hev]; [done|]. cbn [andb] in E.
    case_bool; [|injection E as _ <- _; rewrite Hc0 in Hc; by injection Hc as <-].
    revert E. unfold mbind at 1, M_bind at 1. pose proof (SendReply_spec c0 w Hw) as Hg. unfold wp in Hg.
    pose proof (run_quiet_interest (SendReply c0) w) as Hi.
    destruct (SendReply c0 w) as [[ws c1] w1| | | |] eqn:E; try done.
    destruct Hg as (t & He & Hst). destruct ws; cbn zeta; [|..|by intros [= <- _ _]].
    + intros [= _ <- _]. cbn in Hc. rewrite lookup_insert_eq in Hc. injection Hc as <-.
      destruct Hst as (_ & _ & Hrep & _), Hidle as [Hn _]. rewrite Hrep in Hn. destruct Hev.
      unfold write_ok, len in Hw. rewrite Hn in Hw. cbn in Hw. split; [done|lia].
    + unfold mbind, M_bind. destruct (ModEvent _ _ _ w1) as [v w2| | | |] eqn:Em; try done. intros [= _ <- <-].
      eapply mod_settles; [|by eexists|exact Em|done]. rewrite Hi.
      destruct Hf as (m & -> & _). by eexists.
Qed.

Lemma on_inet_conn_settles fe s w c0 s' w' :
  server_inv s w → fired_ok w fe → inet_conn_map (ep s) !! fired_fd fe = Some c0 →
  has (mask fe) EPOLLIN = true ∨ ¬ idle c0 →
  on_inet_conn fe s w = Done s' w' → waits_settled (fired_fd fe) w s' w'.
Proof.
  intros Hinv Hf Hc0 Hev. unfold on_inet_conn, mbind, M_bind.
  destruct (handle_net_event fe s w) as [[ret s1] w1| | | |] eqn:E; try done. case_bool; breflect.
  - destruct (DelEvent _ _ w1) as [? w2| | | |]; try done. destruct (sys_close _ w2) as [? w3| | | |]; try done.
    intros [= <- <-] c. cbn. by rewrite lookup_delete_eq.
  - intros [= <- <-]. by eapply handle_net_event_settles.
Qed.

(** ** Properties *)

(** C9: no wake-up is lost, although sessions are watched edge-triggered.  After
    the event of a client, an input event or one on which a reply was due, a
    connection that stays and waits for input has emptied its socket or will be
    reported again: until the kernel reports the descriptor, bytes that wait in it
    are announced, whatever arrives between which calls. *)
Theorem no_lost_wakeup argv script0 path fe fes s w s' w' c0 c later :
  reachable argv script0 path (fe :: fes) s w → kernel_ok (trace w') →
  fired_fd fe ≠ inet_listen_fd (ep s) → fired_fd fe ≠ unix_listen_fd (ep s) → fired_fd fe ≠ unix_conn_fd s →
  inet_conn_map (ep s) !! fired_fd fe = Some c0 → has (mask fe) EPOLLIN = true ∨ ¬ idle c0 →
  dispatch fe s w = Done s' w' → inet_conn_map (ep s') !! fired_fd fe = Some c → idle c →
  Forall (λ ev, beside (fired_fd fe) ev = true) later →
  ∃ t, extends w w' t ∧ settled (fired_fd fe) (t ++ later).
Proof.
  intros Hr Hk Hl Hul Huc Hc0 Hev E Hc Hidle Hlater.
  assert (kernel_ok (trace w)) as Hk0 by (by eapply (kernel_ok_before (dispatch fe s))).
  destruct (reachable_loop_inv _ _ _ _ _ _ Hr Hk0) as (Hinv & _ & Hf). inversion_clear Hf as [|? ? Hfe _].
  unfold dispatch in E. rewrite !(proj2 (Z.eqb_neq _ _)) in E by done.
  destruct (on_inet_conn_settles fe s w c0 s' w' Hinv Hfe Hc0 Hev E c Hc Hidle Hk) as (t & He & Ht).
  exists t. split; [done|]. by apply settled_beside.
Qed.

(** A client whose first two bytes arrive alone, and the call after. *)
Definition partial := poll_next UNIX_CLIENT_TRIGGER (after_rounds old_argv UNIX_CLIENT_TRIGGER 1
  (old_start ++ old_accept ++ [RErr 2; REvents [(5, 1)]; RData [2; 0]])).
Definition partial_read := dispatch (mkFired 1 5) (state_server partial) (state_world partial).

Lemma partial_reachable :
  reachable old_argv (old_start ++ old_accept ++ [RErr 2; REvents [(5, 1)]; RData [2; 0]]) UNIX_CLIENT_TRIGGER
    [mkFired 1 5] (state_server partial) (state_world partial).
Proof.
  change [mkFired 1 5] with (state_events partial). apply (demo_poll "server" _ [] _ 1); vm_compute; reflexivity.
Qed.

Lemma no_lost_wakeup_witness :
  ∃ t, extends (state_world partial) (final partial_read) t ∧
    settled 5 (t ++ [(SysAccess UNIX_CLIENT_TRIGGER F_OK, RErr 2)]).
Proof.
  apply (no_lost_wakeup _ _ _ (mkFired 1 5) [] (state_server partial) (state_world partial)
    (value no_server partial_read) (final partial_read) (lookup_conn (state_server partial) 5)
    (lookup_conn (value no_server partial_read) 5) _ partial_reachable);
    try (vm_compute; reflexivity); try (vm_compute; discriminate).
  - apply kernel_ok_check. vm_compute. reflexivity.
  - left. reflexivity.
  - split; vm_compute; reflexivity.
  - by repeat constructor.
Defined.
