(* ===== verification/ClientFlow.v ===== *)
(** * One client among the others

    What the rest of the event loop of [hot_upgrade_demo/server.cc] does to one
    client: the events of other descriptors leave its connection, its registration
    and its socket alone.  The kernel's side of the client is a socket that bytes
    still to come flow into; [flow] says which answers that socket gives to the
    calls of the server, and says nothing about the calls. *)

From S2P Require Import Prelude Sys InetConn InetSocket UnixSocket Epoll UnixClient UnixConn.
From S2P Require Import Server ServerInv ServerProps ServerTheorems Session EdgeTrigger.

(** The connection of a client, told apart from the other descriptors, in a
    process that is not being replaced. *)
Record client_conn (s : server) (fd : Z) (c : InetConn) : Prop := {
  cc_table : inet_conn_map (ep s) !! fd = Some c;
  cc_fd : fd_ c = fd;
  cc_ok : read_ok c;
  cc_listen : fd ≠ inet_listen_fd (ep s);
  cc_unix_listen : fd ≠ unix_listen_fd (ep s);
  cc_unix_conn : fd ≠ unix_conn_fd s;
  cc_no_upgrade : unix_client s = None
}.

(** ** Calls that are clear of a descriptor *)

Definition clear (fd : Z) (ev : event) : bool :=
  match ev with
  | (SysRead fd' _, _) | (SysWrite fd' _, _) | (SysClose fd', _) | (SysEpollCtl _ _ fd' _, _) => negb (fd' =? fd)
  | (SysEpollWait _ _ _, REvents evs) => bool_decide (fd ∉ evs.*1)
  | _ => true
  end.

Definition clear_of (fd : Z) (t : list event) : Prop := Forall (λ ev, clear fd ev = true) t.

Lemma clear_aside fd t : clear_of fd t → only (aside fd) t.
Proof.
  intros H. eapply Forall_impl; [exact H|]. intros [c r]. destruct c; cbn; try done. unfold no_session. cbn.
  intros ->%negb_true_iff. by rewrite andb_false_r.
Qed.

Lemma clear_session fd t t' : clear_of fd t' → session fd (t ++ t') = session fd t.
Proof. intros H. by apply session_aside, clear_aside. Qed.

Lemma clear_interest fd t t' : clear_of fd t' → interest (t ++ t') !! fd = interest t !! fd.
Proof.
  intros H. rewrite interest_app. generalize (interest t). induction H as [|[c r] t' Hc _ IH]; intros m; [done|].
  cbn. rewrite IH. destruct c; cbn in Hc |- *; try done; breflect.
  - by rewrite lookup_delete_ne.
  - destruct r; try done. case_bool; [by rewrite lookup_delete_ne|by rewrite lookup_insert_ne].
Qed.

Definition no_wait (c : syscall) : bool := match c with SysEpollWait _ _ _ => false | _ => true end.

Lemma touches_clear fd fd0 t :
  fd0 ≠ fd → only (touches fd0) t → only no_wait t → clear_of fd t.
Proof.
  intros Hne Ht Hw. induction Ht as [|[c r] t Hc _ IH]; [constructor|]. inversion_clear Hw as [|? ? Hc' Hw'].
  constructor; [|by apply IH]. destruct c; cbn in *; try done; breflect; subst; by apply negb_true_iff, Z.eqb_neq.
Qed.

Lemma recv_clear fd sock t : Forall (recv_goes_on sock) t → clear_of fd t.
Proof. intros H. eapply Forall_impl; [exact H|]. intros [c r] (n & cl & Hc & _). cbn in Hc. by subst c. Qed.

Lemma recv_broken_clear fd sock t : recv_broken sock t → clear_of fd t.
Proof.
  intros (t0 & [c r] & -> & H & (n & cl & Hc & _)). apply Forall_app. split; [by eapply recv_clear|].
  cbn in Hc. subst c. by repeat constructor.
Qed.

(** ** Events of others *)

Section other.
Context (fd : Z) (c : InetConn) (m : Z).

(** The client is as before, and none of the calls concerned it. *)
Definition kept (s' : server) (w w' : world) : Prop :=
  client_conn s' fd c ∧ ∃ t, extends w w' t ∧ clear_of fd t.

Definition kept_post (w : world) (o : outcome server) : Prop :=
  match o with Done s' w' => kernel_ok (trace w') → kept s' w w' | _ => True end.

(** A descriptor that is added is another one. *)
Lemma added_other t t1 t2 epfd fd' events r :
  interest t !! fd = Some m → quiet_trace t1 →
  kernel_ok (t ++ t1 ++ (SysEpollCtl epfd EPOLL_CTL_ADD fd' events, r) :: t2) → fd' ≠ fd.
Proof.
  intros Hm H1. rewrite app_assoc. intros H. destruct (H (t ++ t1) _ t2 eq_refl) as (_ & Hn).
  rewrite quiet_interest in Hn by done. congruence.
Qed.

Lemma accept_inet_kept s w :
  client_conn s fd c → interest (trace w) !! fd = Some m → wp (accept_inet s) (kept_post w) w.
Proof.
  intros [] Hm. unfold accept_inet, inet_server_accept, SetNonblock, AddEvent. cbn zeta.
  wp_steps; try done; intros Hk.
  all: cbn [answered trace] in Hk; rewrite <- !app_assoc in Hk.
  all: apply (added_other _ [_; _; _] []) in Hk; [|done|by repeat constructor].
  all: split; [split; try done; cbn; by rewrite lookup_insert_ne|].
  all: eexists; split; [solve_extends|]; repeat constructor; cbn; try done; by apply negb_true_iff, Z.eqb_neq.
Qed.

Lemma accept_unix_kept s w :
  client_conn s fd c → interest (trace w) !! fd = Some m → wp (accept_unix s) (kept_post w) w.
Proof.
  intros [] Hm. unfold accept_unix. wp_step. eapply wp_mono; [apply unix_server_accept_spec|].
  intros [[v uid] w1| | | |] Ho; try done. destruct Ho as [_ Ho]. cbn zeta.
  cbn [unix_conn_fd]. wp_step; breflect; [by wp_step|].
  rewrite (proj2 (Z.leb_le 0 v)) in Ho by done.
  destruct Ho as (addr & st & now & r & _ & _ & He & _).
  unfold AddEvent. wp_steps; [done|]. intros Hk. cbn [answered trace] in Hk. unfold extends in He.
  rewrite He, <- app_assoc in Hk. apply added_other in Hk; [|done|by repeat constructor].
  split; [by split|]. eexists. split; [eapply extends_trans; [exact He|solve_extends]|].
  repeat constructor; cbn; try done. by apply negb_true_iff, Z.eqb_neq.
Qed.

Lemma process_kept s u w st u' e' w' :
  client_conn s fd c → interest (trace w) !! fd = Some m → process_post u (ep s) w (Done (st, u', e') w') →
  kernel_ok (trace w') →
  kept (mkServer e' (Some u') (unix_client s) (unix_conn_fd s) (unix_client_fd s) (unix_socket_init s)) w w'.
Proof.
  intros [] Hm (t & t' & He & Hq & _ & _ & Hst) Hk. cbn zeta in Hst. pose proof He as He'. unfold extends in He.
  rewrite He in Hk. destruct st; try done.
  - destruct Hst as (Hw & _ & d & _ & [(_ & -> & r1 & r2 & ->)|(_ & -> & r1 & r2 & r3 & r4 & ->)]).
    + apply added_other in Hk; [|done..]. split; [by split|]. eexists. split; [exact He'|].
      apply Forall_app. split; [by eapply recv_clear|]. repeat constructor; cbn; try done. by apply negb_true_iff, Z.eqb_neq.
    + change (t ++ [?a; ?b; ?c; ?d]) with (t ++ [a; b] ++ [c; d]) in Hk, He'. rewrite (app_assoc t) in Hk.
      apply added_other in Hk; [|done|apply Forall_app; split; [done|by repeat constructor]].
      split; [split; try done; cbn; by rewrite lookup_insert_ne|]. eexists. split; [exact He'|].
      apply Forall_app. split; [by eapply recv_clear|]. repeat constructor; cbn; try done. by apply negb_true_iff, Z.eqb_neq.
  - destruct Hst as (Hw & _ & _ & _ & -> & ->). split; [by split|]. eexists. split; [exact He'|].
    rewrite app_nil_r. by eapply recv_clear.
  - destruct Hst as (Hw & _ & -> & ->). split; [by split|]. eexists. split; [exact He'|].
    rewrite app_nil_r. by eapply recv_broken_clear.
Qed.

Lemma kept_drop s w w1 w2 r1 r2 fd0 e s' :
  fd0 ≠ fd → kept s w w1 → client_conn s' fd c →
  extends w1 w2 [(SysEpollCtl e EPOLL_CTL_DEL fd0 0, r1); (SysClose fd0, r2)] → kept s' w w2.
Proof.
  intros Hne [_ (t & He & Ht)] Hc He2. split; [done|]. eexists. split; [by eapply extends_trans|].
  apply Forall_app. split; [done|]. repeat constructor; cbn; by apply negb_true_iff, Z.eqb_neq.
Qed.

Lemma kept_refl s w : client_conn s fd c → kept s w w.
Proof. intros H. split; [done|]. exists []. split; [apply extends_refl|constructor]. Qed.

Lemma on_unix_conn_kept fe s w :
  client_conn s fd c → interest (trace w) !! fd = Some m → fired_fd fe ≠ fd →
  wp (on_unix_conn fe s) (kept_post w) w.
Proof.
  intros Hc Hm Hne. unfold on_unix_conn, handle_unix_event, DelEvent, sys_close.
  assert (∀ s' w1, (kernel_ok (trace w1) → kept s' w w1) →
    wp (_ ← call_int (SysEpollCtl (epfd_ (ep s')) EPOLL_CTL_DEL (fired_fd fe) 0);
        _ ← call_int (SysClose (fired_fd fe));
        mret (mkServer (ep s') None (unix_client s') (unix_conn_fd s') (unix_client_fd s')
          (unix_socket_init s'))) (kept_post w) w1) as Hdrop.
  { intros s' w1 Hk1. wp_steps; try done. intros Hk.
    assert (kept s' w w1) as Hkept.
    { apply Hk1. eapply kernel_ok_extends; [|exact Hk]. solve_extends. }
    eapply kept_drop; [exact Hne|exact Hkept| |solve_extends]. destruct Hkept as [[] _]. by split. }
  wp_step. wp_step; [wp_step; apply Hdrop; intros _; by apply kept_refl|].
  wp_step; [|wp_step; apply Hdrop; intros _; by apply kept_refl].
  wp_step; [|wp_step; cbn [Z.eqb]; wp_step; intros _; by apply kept_refl].
  wp_step. pose proof (processRecv_spec u (ep s) w) as Hp. unfold wp in Hp |- * at 1.
  destruct (processRecv u (ep s) w) as [[[st u'] e'] w1| | | |] eqn:E; try done.
  cbn zeta. wp_step; wp_step; cbn [Z.eqb]; [wp_step; intros Hk; by eapply process_kept|].
  apply Hdrop. intros Hk. by eapply process_kept.
Qed.

Lemma no_wait_on_inet_conn fe s : Emits no_wait (on_inet_conn fe s).
Proof.
  unfold on_inet_conn, handle_net_event, TransferSessionFd, send_loop, GetReply, GetRequest, GetBody, read_more,
    fill, finish, request_string, SendReply, ModEvent, DelEvent, sys_read, sys_write, sys_close.
  cbn zeta. solve_emits.
Qed.

(** The roles of the other descriptors. *)
Definition same_roles (s s' : server) : Prop :=
  inet_listen_fd (ep s') = inet_listen_fd (ep s) ∧ unix_listen_fd (ep s') = unix_listen_fd (ep s) ∧
  unix_conn_fd s' = unix_conn_fd s.

Lemma on_inet_conn_roles fe s : ensures (on_inet_conn fe s) (same_roles s).
Proof.
  unfold on_inet_conn. eapply ensures_bind_dep with (P := λ r, same_roles s r.2).
  - unfold handle_net_event, same_roles. solve_ensures; done.
  - intros [ret s1] H. unfold same_roles in *. solve_ensures; done.
Qed.

Lemma on_inet_conn_kept fe s w s' w' :
  server_inv s w → client_conn s fd c → fired_fd fe ≠ fd → on_inet_conn fe s w = Done s' w' → kept s' w w'.
Proof.
  intros Hinv [] Hne E. destruct (on_inet_conn_frame fe s w s' w' E) as [[_ Hu] Hmap].
  destruct (on_inet_conn_roles fe s w s' w' E) as (H1 & H2 & H3). split.
  - split; try done; [by rewrite Hmap|congruence..|by apply Hu].
  - assert (Emits (touches (fired_fd fe)) (on_inet_conn fe s)) as Ht
      by (apply touches_on_inet_conn; intros c0 Hc0; apply (Hinv _ _ Hc0)).
    destruct (Ht w) as (t & He & Ho). destruct (no_wait_on_inet_conn fe s w) as (t' & He' & Ho').
    rewrite E in He, He'. rewrite (extends_inj _ _ _ _ He' He) in Ho'. exists t. split; [done|].
    by eapply touches_clear.
Qed.

Lemma dispatch_kept fe s w s' w' :
  server_inv s w → client_conn s fd c → interest (trace w) !! fd = Some m → fired_fd fe ≠ fd →
  dispatch fe s w = Done s' w' → kernel_ok (trace w') → kept s' w w'.
Proof.
  intros Hinv Hc Hm Hne E Hk. unfold dispatch in E.
  repeat case_bool; [..|by eapply on_inet_conn_kept];
  revert Hk; [pose proof (accept_inet_kept s w Hc Hm) as H|
    pose proof (accept_unix_kept s w Hc Hm) as H|pose proof (on_unix_conn_kept fe s w Hc Hm Hne) as H];
  unfold wp in H; rewrite E in H; exact H.
Qed.
End other.

(** ** The kernel's side of the client *)

(** The answers of the kernel to calls on [fd] while the client stays connected:
    a [read] delivers what is there, up to the length asked for, and would block
    when nothing is there; a [write] takes any part of the data or would block; the
    descriptor is reported without an error or a hang-up, as writable, or as
    readable when a report is due.  What the server calls is not restricted. *)
Inductive client_step (fd : Z) (k : sock) : event → sock → Prop :=
| client_read n :
    inbox k ≠ [] →
    client_step fd k (SysRead fd n, RData (take (Z.to_nat n) (inbox k)))
      (mkSock (drop (Z.to_nat n) (inbox k)) (due k))
| client_again n : inbox k = [] → client_step fd k (SysRead fd n, RErr EAGAIN) k
| client_write bs r : r = RErr EAGAIN ∨ (∃ v, r = RInt v) → client_step fd k (SysWrite fd bs, r) k
| client_armed epfd op events v :
    op ≠ EPOLL_CTL_DEL →
    client_step fd k (SysEpollCtl epfd op fd events, RInt v) (mkSock (inbox k) (bool_decide (inbox k ≠ [])))
| client_ctl epfd op events r :
    op = EPOLL_CTL_DEL ∨ (∀ v, r ≠ RInt v) → client_step fd k (SysEpollCtl epfd op fd events, r) k
| client_close r : client_step fd k (SysClose fd, r) k
| client_reported epfd n timeout evs m :
    (fd, m) ∈ evs → has m EPOLLERR = false → has m EPOLLHUP = false →
    has m EPOLLOUT = true ∨ has m EPOLLIN = true ∧ due k = true →
    client_step fd k (SysEpollWait epfd n timeout, REvents evs) (mkSock (inbox k) false)
| client_clear ev : clear fd ev = true → client_step fd k ev k.

(** The calls of the server, with bytes that arrive between any two of them; the
    second component is what is still to come. *)
Inductive flow (fd : Z) (x : sock * list Z) : list event → sock * list Z → Prop :=
| flow_nil : flow fd x [] x
| flow_arrive t k bs co :
    flow fd x t (k, bs ++ co) → bs ≠ [] → flow fd x t (mkSock (inbox k ++ bs) true, co)
| flow_call t k co ev k' : flow fd x t (k, co) → client_step fd k ev k' → flow fd x (t ++ [ev]) (k', co).

(** Such a client is one of those for which no wake-up is lost. *)
Lemma client_sock_step fd k ev k' : client_step fd k ev k' → sock_step fd k ev k'.
Proof.
  destruct 1 as [n Hk|n Hk|bs r Hr|epfd op events v Hop|epfd op events r Hop|r|epfd n timeout evs m Hin _ _ _|[c r] Hc].
  - apply sock_read.
  - by apply sock_again.
  - by apply sock_beside.
  - by apply sock_armed.
  - apply sock_beside. destruct Hop as [->|Hr]; destruct r; cbn; try done; [by rewrite orb_true_r|by destruct (Hr v)].
  - by apply sock_beside.
  - apply sock_reported. apply list_elem_of_fmap. by exists (fd, m).
  - apply sock_beside. destruct c; cbn in Hc |- *; try done. rewrite Hc. by destruct r.
Qed.

Lemma flow_sock_run fd x t y : flow fd x t y → sock_run fd x.1 t y.1.
Proof.
  induction 1 as [|t k bs co _ IH Hbs|t k co ev k' _ IH Hst]; [constructor|by apply (run_arrive fd _ t k)|].
  eapply run_call; [exact IH|by apply client_sock_step].
Qed.

Lemma flow_split fd x t1 t2 y : flow fd x (t1 ++ t2) y → ∃ z, flow fd x t1 z ∧ flow fd z t2 y.
Proof.
  intros H. remember (t1 ++ t2) as t eqn:Et. revert t2 Et.
  induction H as [|t k bs co H IH Hbs|t k co ev k' H IH Hs]; intros t2 Et.
  - symmetry in Et. apply app_nil in Et as [-> ->]. exists x. split; constructor.
  - destruct (IH t2 Et) as (z & H1 & H2). exists z. split; [done|by apply flow_arrive].
  - destruct t2 as [|ev2 t2 _] using rev_ind.
    + rewrite app_nil_r in Et. subst t1. eexists. split; [by eapply flow_call|constructor].
    + rewrite app_assoc in Et. apply app_inj_tail in Et as [-> ->].
      destruct (IH t2 eq_refl) as (z & H1 & H2). exists z. split; [done|by eapply flow_call].
Qed.

(** Every call got one of the answers. *)
Lemma flow_answers fd x t y ev : flow fd x t y → ev ∈ t → ∃ k k', client_step fd k ev k'.
Proof.
  intros H. induction H as [|t k bs co H IH Hbs|t k co ev' k' H IH Hs]; intros Hin; [set_solver|by apply IH|].
  apply elem_of_app in Hin as [Hin|Hin]; [by apply IH|]. apply list_elem_of_singleton in Hin as ->. eauto.
Qed.

Lemma clear_bytes fd t : clear_of fd t → bytes_read fd t = [] ∧ bytes_written fd t = [].
Proof.
  induction 1 as [|[c r] t Hc _ [IH1 IH2]]; [done|]. change ((c, r) :: t) with ([(c, r)] ++ t).
  rewrite bytes_read_app, bytes_written_app, IH1, IH2.
  destruct c; cbn in Hc |- *; try done; destruct r; cbn; try done; by destruct (_ =? fd).
Qed.

(** No byte is lost or made up. *)
Lemma flow_bytes fd x t y :
  flow fd x t y →
  inbox x.1 ++ x.2 = bytes_read fd t ++ inbox y.1 ++ y.2 ∧ (length y.2 ≤ length x.2)%nat.
Proof.
  induction 1 as [|t k bs co _ [IH IHl] Hbs|t k co ev k' _ [IH IHl] Hst]; cbn [fst snd] in *.
  - done.
  - rewrite IH. cbn. rewrite <- !app_assoc. split; [done|]. rewrite length_app in IHl. lia.
  - split; [|done]. rewrite IH, bytes_read_app, <- app_assoc. f_equal. rewrite app_assoc. f_equal.
    destruct Hst as [n Hk|n Hk|bs r Hr|epfd op events v Hop|epfd op events r Hop|r|epfd n timeout evs m _ _ _ _|ev Hc];
      try done; cbn [inbox].
    + rewrite bytes_read_data. by rewrite take_drop.
    + by destruct (clear_bytes fd [ev]) as [-> _]; [by constructor|].
Qed.

(** Where nothing concerns the client, announced bytes stay announced. *)
Lemma flow_clear fd x t y : flow fd x t y → clear_of fd t → announced x.1 → announced y.1.
Proof.
  induction 1 as [|t k bs co _ IH Hbs|t k co ev k' _ IH Hst]; intros Hc Ha; cbn [fst] in *; [done|by right|].
  apply Forall_app in Hc as [Hc Hev]. inversion_clear Hev as [|? ? Hb _]. specialize (IH Hc Ha).
  destruct Hst as [| | | | | |epfd n timeout evs m Hin _ _ _|]; cbn in Hb; rewrite ?Z.eqb_refl in Hb; try done.
  apply bool_decide_eq_true in Hb. destruct Hb. apply list_elem_of_fmap. by exists (fd, m).
Qed.
