(* ===== verification/Serving.v ===== *)
(** * Requests are served

    The event loop of [hot_upgrade_demo/server.cc] and one client, as a closed
    system: whenever and in whatever pieces the bytes of the client arrive, however
    little each [write] takes, and whatever the events of other descriptors do in
    between, every schedule comes to a state in which all requests are answered. *)

From S2P Require Import Prelude Sys InetConn InetSocket UnixSocket Epoll UnixClient UnixConn.
From S2P Require Import Server ServerInv ServerProps ServerTheorems Session EdgeTrigger ClientFlow.

(** ** The system *)

(** The process between two rounds, the socket of the client, the bytes still to
    come, and the number of rounds that may pass without a byte read from the client
    or written to it. *)
Record system := mkSystem {
  srv : server;
  wld : world;
  box : sock;
  coming : list Z;
  patience : nat
}.

(** Bytes arrive, or the process makes a round: any round that comes to its end, in
    which the client's socket answers as [flow] says, epoll as documented, and no
    upgrade begins.  The answers [sc] are otherwise arbitrary. *)
Inductive system_step (path : string) (fd : Z) : system → system → Prop :=
| step_arrive s w k bs co p :
    bs ≠ [] →
    system_step path fd (mkSystem s w k (bs ++ co) p) (mkSystem s w (mkSock (inbox k ++ bs) true) co p)
| step_round s w k co p sc s' w' t k' co' p' :
    main_iter path s (World sc (errno w) (trace w)) = Done s' w' → trace w' = trace w ++ t →
    flow fd (k, co) t (k', co') → kernel_ok (trace w') → unix_client s' = None →
    (bytes_read fd t ≠ [] ∨ bytes_written fd t ≠ []) ∧ p' = p ∨ p = S p' →
    system_step path fd (mkSystem s w k co p) (mkSystem s' w' k' co' p').

(** A client between two requests. *)
Definition at_rest (s : server) (fd : Z) : Prop :=
  ∃ c, client_conn s fd c ∧ idle c ∧ last_read_pos_ c = 0.

(** Registered for input. *)
Definition awaited (fd : Z) (t : list event) : Prop :=
  ∃ m, interest t !! fd = Some m ∧ has m EPOLLIN = true ∧ has m EPOLLOUT = false.

(** Everything was read and answered: the session [h] went on with the requests
    [ms] and their payloads. *)
Definition answered_all (fd : Z) (h : list Z * list Z) (ms : list (list Z)) (x : system) : Prop :=
  at_rest (srv x) fd ∧ awaited fd (trace (wld x)) ∧ inbox (box x) = [] ∧ coming x = [] ∧
  session fd (trace (wld x)) = (h.1 ++ frames ms, h.2 ++ concat ms).

Definition request_ok (m : list Z) : Prop := request_len_ok (len m) ∧ all_bytes m = true.

(** ** The client at any point of a round *)
Section client.
Context (fd : Z) (total_in total_out : list Z).

(** [ms] are the requests that are not complete yet; what was read, waits and is to
    come is [total_in], what was written, is owed and will be owed is [total_out]. *)
Record client_at (s : server) (w : world) (x : sock * list Z) (c : InetConn) (m : Z) (ms : list (list Z)) : Prop := {
  ca_kernel : kernel_ok (trace w);
  ca_server : server_inv s w;
  ca_conn : client_conn s fd c;
  ca_interest : interest (trace w) !! fd = Some m;
  ca_requests : Forall request_ok ms;
  ca_stream : buffered c ++ inbox x.1 ++ x.2 = frames ms;
  ca_in : (session fd (trace w)).1 ++ inbox x.1 ++ x.2 = total_in;
  ca_out : (session fd (trace w)).2 ++ pending c ++ concat ms = total_out;
  ca_mode : idle c ∧ has m EPOLLIN = true ∧ has m EPOLLOUT = false ∨ pending c ≠ []
}.

(** Calls that neither read nor write the client nor change its registration. *)
Lemma client_at_move s w x c m ms s' w' t y :
  client_at s w x c m ms → server_inv s' w' → kernel_ok (trace w') → client_conn s' fd c →
  bytes_read fd t = [] → interest (trace w') !! fd = interest (trace w) !! fd →
  session fd (trace w') = session fd (trace w) → flow fd x t y → client_at s' w' y c m ms.
Proof.
  intros [] Hs Hk Hc Hr Hi Hses Hf. destruct (flow_bytes _ _ _ _ Hf) as [Hb _]. rewrite Hr in Hb. cbn in Hb.
  split; try done; rewrite ?Hi, ?Hses, <- ?Hb by done; done.
Qed.

Lemma client_at_clear s w x c m ms s' w' t y :
  client_at s w x c m ms → server_inv s' w' → kernel_ok (trace w') → client_conn s' fd c →
  extends w w' t → clear_of fd t → flow fd x t y → client_at s' w' y c m ms.
Proof.
  unfold extends. intros Hat Hs Hk Hc He Ht Hf. destruct (clear_bytes _ _ Ht) as [Hr _].
  eapply client_at_move; [done..| | |done]; rewrite He; [by apply clear_interest|by apply clear_session].
Qed.

(** The events of others. *)
Lemma others_kept fes rest s w x c m ms s' w' t y :
  client_at s w x c m ms → loop_inv (fes ++ rest) s w → fd ∉ fired_fd <$> fes →
  dispatch_all fes s w = Done s' w' → extends w w' t → kernel_ok (trace w') → flow fd x t y →
  client_at s' w' y c m ms ∧ loop_inv rest s' w' ∧ clear_of fd t.
Proof.
  revert s w x t. induction fes as [|fe fes IH]; intros s w x t Hc Hl Hfd E He Hk Hf.
  - injection E as <- <-. pose proof (extends_inj _ _ _ _ He (extends_refl w)) as ->.
    split_and!; [|done|constructor]. eapply client_at_clear; [done|apply Hl|done|apply Hc|exact He|constructor|done].
  - cbn in E. unfold mbind, M_bind in E. destruct (dispatch fe s w) as [s1 w1| | | |] eqn:Ed; try done.
    rewrite fmap_cons, not_elem_of_cons in Hfd. destruct Hfd as [Hne Hfd].
    assert (kernel_ok (trace w1)) as Hk1 by (by eapply (kernel_ok_before (dispatch_all fes s1))).
    destruct (dispatch_kept fd c m fe s w s1 w1) as [Hc1 (t1 & He1 & Ht1)]; try done; try apply Hc.
    destruct (honest_dispatch_all fes s1 w1) as (t2 & He2 & _). rewrite E in He2. cbn in He2.
    pose proof (extends_inj _ _ _ _ He (extends_trans _ _ _ _ _ He1 He2)) as ->.
    apply flow_split in Hf as (z & Hf1 & Hf2). pose proof (loop_inv_event _ _ _ _ _ _ Hl Ed Hk1) as Hl1.
    destruct (IH s1 w1 z t2) as (Hc' & Hl' & Ht2); try done.
    + eapply client_at_clear; [done|apply Hl1|done..].
    + split_and!; [done..|by apply Forall_app].
Qed.

(** ** The events of the client *)

Lemma client_conn_update s c c' :
  client_conn s fd c → fd_ c' = fd → read_ok c' → client_conn (with_conn s fd c') fd c'.
Proof. intros [] ? ?. split; try done. apply lookup_insert_eq. Qed.

(** A header that is complete announces the next request. *)
Lemma stream_next B rest ms :
  Forall request_ok ms → B ++ rest = frames ms → HEADER_LEN ≤ len B →
  ∃ m0 ms0, ms = m0 :: ms0 ∧ header_len B = len m0 ∧ request_len_ok (len m0).
Proof.
  intros Hms HB Hl. destruct Hms as [|m0 ms0 [Hm _] _].
  - apply app_nil in HB as [-> _]. unfold len, HEADER_LEN in Hl. cbn in Hl. lia.
  - exists m0, ms0. split_and!; try done. by apply (stream_header B rest m0 (frames ms0)).
Qed.

(** The bytes the server holds for the client, those of a request twice. *)
Definition held_bytes (c : InetConn) : nat := 2 * length (buffered c) + length (pending c).

(** What an event of the client leaves: it is served on, and the bytes held grow
    by no more than what was read, and shrink by what was written. *)
Definition own_post (c : InetConn) (t : list event) (s' : server) (w' : world) (y : sock * list Z) : Prop :=
  ∃ c' m' ms', client_at s' w' y c' m' ms' ∧
    (held_bytes c' + length (bytes_written fd t) ≤ held_bytes c + 2 * length (bytes_read fd t))%nat.

(** The answers to the [read]s of a client that stays. *)
Lemma flow_read x t y n r :
  flow fd x t y → (SysRead fd n, r) ∈ t → r = RErr EAGAIN ∨ ∃ bs, r = RData bs ∧ (0 < n → bs ≠ []).
Proof.
  intros Hf Hin. destruct (flow_answers _ _ _ _ _ Hf Hin) as (k & k' & Hst).
  inversion Hst as [n0 Hk|n0 Hk| | | | | |ev Hc]; subst; [|by left|cbn in Hc; by rewrite Z.eqb_refl in Hc].
  right. eexists. split; [done|]. intros Hn Ht. destruct (inbox k); [done|].
  destruct (Z.to_nat n) eqn:E; [lia|done].
Qed.

Lemma flow_write x t y bs r : flow fd x t y → (SysWrite fd bs, r) ∈ t → r = RErr EAGAIN ∨ ∃ v, r = RInt v.
Proof.
  intros Hf Hin. destruct (flow_answers _ _ _ _ _ Hf Hin) as (k & k' & Hst).
  inversion Hst as [| |bs0 r0 Hr| | | | |ev Hc]; subst; [done|]. cbn in Hc. by rewrite Z.eqb_refl in Hc.
Qed.

(** So [GetRequest] returns with a request or a part of one. *)
Lemma GetRequest_served c w x ms rs c1 w1 t1 z :
  read_ok c → fd_ c = fd → Forall request_ok ms → buffered c ++ inbox x.1 ++ x.2 = frames ms →
  GetRequest c w = Done (rs, c1) w1 → extends w w1 t1 → flow fd x t1 z →
  same_session c c1 ∧ buf_ok c1 ∧
  ((rs = kReadHalf ∧ reply_ c1 = reply_ c ∧ read_ok c1 ∧ buffered c1 = buffered c ++ bytes_read fd t1) ∨
   (rs = kReadAll ∧ last_read_pos_ c1 = 0 ∧ request_len_ok (len (reply_ c1)) ∧
      buffered c ++ bytes_read fd t1 = frame (reply_ c1) ∧ ∃ ms1, ms = reply_ c1 :: ms1)).
Proof.
  intros Hok Hfd Hms Hstr E He Hf. pose proof (GetRequest_post c w Hok) as Hg. unfold wp in Hg. rewrite E in Hg.
  destruct Hg as (t & He' & (Hss & Hb & Hcase) & Hwhy). rewrite (extends_inj _ _ _ _ He' He) in *. rewrite Hfd in *.
  destruct (flow_bytes _ _ _ _ Hf) as [Hby _]. rewrite Hby, app_assoc in Hstr.
  pose proof (stream_next _ _ _ Hms Hstr) as Hnext. split; [done|]. split; [done|].
  destruct rs; cbn in Hwhy; try done.
  - left. destruct Hcase as (HB & Hr & Hok1 & _). by rewrite HB.
  - right. destruct Hcase as (HB & Hl & Hp). split_and!; try done.
    destruct Hnext as (m0 & ms0 & -> & _ & Hm0); [rewrite HB, len_frame; pose proof (len_nonneg (reply_ c1)); lia|].
    rewrite HB in Hstr. change (frames (m0 :: ms0)) with (frame m0 ++ frames ms0) in Hstr.
    apply frame_stream_inj in Hstr as [<- _]; [eauto|done..].
  - destruct Hwhy as (t0 & n & r & -> & e & -> & Hne).
    destruct (flow_read _ _ _ n (RErr e) Hf) as [[= ->]|(bs & ? & _)]; [set_solver|done..].
  - destruct Hwhy as (t0 & n & r & -> & -> & Hn).
    destruct (flow_read _ _ _ n (RData []) Hf) as [?|(bs & [= <-] & Hn')]; [set_solver|done|].
    destruct Hn as [Hn|[Hl Hh]]; [by specialize (Hn' Hn)|].
    destruct (Hnext Hl) as (m0 & _ & _ & Hh0 & [? _]). lia.
  - destruct Hcase as [Hl Hh]. destruct (Hnext Hl) as (m0 & _ & _ & Hh0 & Hm0).
    unfold request_len_ok, HEADER_LEN in *. lia.
Qed.

Lemma mod_done e m v w w' :
  is_Some (interest (trace w) !! fd) → ModEvent e fd m w = Done v w' → kernel_ok (trace w') →
  ∃ r, extends w w' [(SysEpollCtl (epfd_ e) EPOLL_CTL_MOD fd (u32 m), r)] ∧
    interest (trace w') !! fd = Some (u32 m).
Proof.
  intros Hi E Hk. enough (∃ r, extends w w' [(SysEpollCtl (epfd_ e) EPOLL_CTL_MOD fd (u32 m), r)]) as [r Hr].
  { exists r. split; [done|]. unfold extends in Hr. rewrite Hr in Hk |- *. rewrite mod_interest by done.
    apply lookup_insert_eq. }
  enough (wp (ModEvent e fd m) (λ o, match o with Done _ w' => ∃ r,
    extends w w' [(SysEpollCtl (epfd_ e) EPOLL_CTL_MOD fd (u32 m), r)] | _ => True end) w) as H
    by (unfold wp in H; by rewrite E in H).
  unfold ModEvent. wp_steps; [done|]. exists r. solve_extends.
Qed.

(** What [on_inet_conn] does with a readable client, after [GetRequest]. *)
Definition read_rest (s : server) (rs : ReadStatus) (conn : InetConn) : M server :=
  '(ret, s) ← (let s := with_conn s fd conn in
    match rs with
    | kReadAll => _ ← ModEvent (ep s) fd EPOLLOUT; mret (0, s)
    | kReadHalf => mret (0, s)
    | _ => mret (-1, s)
    end);
  if ret =? -1 then
    _ ← DelEvent (ep s) fd;
    _ ← sys_close fd;
    mret (with_ep s (set_map (ep s) (delete fd (inet_conn_map (ep s)))))
  else mret s.

#[local] Instance honest_read_rest s rs conn : Honest (read_rest s rs conn).
Proof. unfold read_rest. cbn zeta. solve_honest. Qed.

Lemma on_inet_conn_read fe s c w :
  fired_fd fe = fd → has (mask fe) EPOLLERR = false → has (mask fe) EPOLLHUP = false →
  has (mask fe) EPOLLIN = true → inet_conn_map (ep s) !! fd = Some c → unix_client s = None →
  on_inet_conn fe s w = ('(rs, conn) ← GetRequest c; read_rest s rs conn) w.
Proof.
  intros Hfd H1 H2 H3 Hc Hu. unfold on_inet_conn, handle_net_event. rewrite Hfd, H1, H2, H3, Hc, Hu. cbn [orb andb].
  replace (if EmptyReadBuf c then None else None) with (@None UnixClient) by (by destruct (EmptyReadBuf c)).
  unfold mbind, M_bind. by destruct (GetRequest c w) as [[rs conn] w1| | | |].
Qed.

(** And with a writable one, after [SendReply]. *)
Definition write_rest (s : server) (ws : WriteStatus) (conn : InetConn) : M server :=
  '(ret, s) ← (let s := with_conn s fd conn in
    match ws with
    | kWriteAll => _ ← ModEvent (ep s) fd EPOLLIN; mret (0, s)
    | kWriteHalf => mret (0, s)
    | _ => mret (-1, s)
    end);
  if ret =? -1 then
    _ ← DelEvent (ep s) fd;
    _ ← sys_close fd;
    mret (with_ep s (set_map (ep s) (delete fd (inet_conn_map (ep s)))))
  else mret s.

#[local] Instance honest_write_rest s ws conn : Honest (write_rest s ws conn).
Proof. unfold write_rest. cbn zeta. solve_honest. Qed.

Lemma on_inet_conn_write fe s c w :
  fired_fd fe = fd → has (mask fe) EPOLLERR = false → has (mask fe) EPOLLHUP = false →
  has (mask fe) EPOLLIN = false → has (mask fe) EPOLLOUT = true → inet_conn_map (ep s) !! fd = Some c →
  on_inet_conn fe s w = ('(ws, conn) ← SendReply c; write_rest s ws conn) w.
Proof.
  intros Hfd H1 H2 H3 H4 Hc. unfold on_inet_conn, handle_net_event. rewrite Hfd, H1, H2, H3, H4, Hc. cbn [orb andb].
  unfold mbind, M_bind. by destruct (SendReply c w) as [[ws conn] w1| | | |].
Qed.

(** The bytes of the session. *)
Lemma own_session fe s w s' w' t :
  on_inet_conn fe s w = Done s' w' → extends w w' t →
  session fd (trace w') =
    ((session fd (trace w)).1 ++ bytes_read fd t, (session fd (trace w)).2 ++ bytes_written fd t).
Proof.
  intros E He. destruct (no_session_on_inet_conn fd fe s w) as (t' & He' & Ht'). rewrite E in He'.
  rewrite (extends_inj _ _ _ _ He' He) in Ht'. unfold extends in He. rewrite He. by apply session_more.
Qed.

Lemma own_read fe s w x c m ms s' w' t y :
  client_at s w x c m ms → fired_ok w fe → fired_fd fe = fd →
  has (mask fe) EPOLLERR = false → has (mask fe) EPOLLHUP = false → has (mask fe) EPOLLIN = true →
  on_inet_conn fe s w = Done s' w' → extends w w' t → server_inv s' w' → kernel_ok (trace w') → flow fd x t y →
  own_post c t s' w' y.
Proof.
  intros [Hk0 Hinv Hc Hi Hms Hstr Hin Hout Hmode] Hfe Hfd Herr Hhup Hev E He Hinv' Hk Hf.
  pose proof (own_session _ _ _ _ _ _ E He) as Hses. pose proof Hc as [Htab Hcfd Hok _ _ _ Hu].
  assert (idle c) as Hidle by (apply (readable_idle s w fe c); by rewrite ?Hfd).
  pose proof (idle_pending c Hidle) as Hpen. destruct Hmode as [(_ & Hm1 & Hm2)|?]; [|done].
  rewrite (on_inet_conn_read fe s c) in E by done.
  unfold mbind, M_bind in E. destruct (GetRequest c w) as [[rs c1] w1| | | |] eqn:Eg; try done.
  destruct (honest_GetRequest c w) as (t1 & He1 & _). pose proof (run_quiet_interest (GetRequest c) w) as Hq.
  pose proof (emits_extends is_read (GetRequest c) w t1 He1) as Hrd. rewrite Eg in He1, Hq. cbn in He1, Hq.
  apply (only_read_written fd) in Hrd as Hnw.
  destruct (honest (m := read_rest s rs c1) w1) as (t2 & He2 & _). rewrite E in He2. cbn in He2.
  pose proof (extends_inj _ _ _ _ He (extends_trans _ _ _ _ _ He1 He2)) as ->.
  destruct (flow_bytes _ _ _ _ Hf) as [Hby _]. apply flow_split in Hf as (z & Hf1 & Hf2).
  destruct (GetRequest_served c w x ms rs c1 w1 t1 z) as ((Hfd1 & _ & Hwp) & Hb1 & Hres); try done.
  assert (fd_ c1 = fd) as Hfd1' by congruence. rewrite bytes_read_app, bytes_written_app, Hnw in *.
  destruct Hres as [(-> & Hrep & Hok1 & Hbuf)|(-> & Hp1 & Hlen & Hfr & ms1 & ->)].
  - injection E as <- <-. pose proof (extends_inj _ _ _ _ He2 (extends_refl w1)) as ->.
    assert (pending c1 = []) as Hpen1 by (unfold pending; rewrite Hrep, Hwp; exact Hpen).
    cbn in Hby, Hses |- *. rewrite app_nil_r in *. exists c1, m, ms. split.
    + split; try done; rewrite ?Hses; cbn [fst snd]; [by apply (client_conn_update s c)|by rewrite Hq|..].
      * by rewrite Hbuf, <- app_assoc, <- Hby.
      * by rewrite <- app_assoc, <- Hby.
      * by rewrite app_nil_r, Hpen1, <- Hpen.
      * left. split; [|done]. destruct Hidle. split; congruence.
    + unfold held_bytes. rewrite Hpen, Hpen1, Hbuf, length_app, Hnw. cbn. lia.
  - cbn in E. unfold mbind, M_bind in E. destruct (ModEvent _ _ _ w1) as [v w2| | | |] eqn:Em; try done.
    injection E as <- <-. apply mod_done in Em as (r & He3 & Hi2); [|by rewrite Hq; eexists|done].
    pose proof (extends_inj _ _ _ _ He2 He3) as ->. cbn in Hby, Hses |- *. rewrite app_nil_r in *.
    assert (pending c1 = reply_ c1) as Hpen1 by (unfold pending; destruct Hidle as [_ Hw]; rewrite Hwp, Hw; done).
    assert (buffered c1 = []) as Hbuf1 by (unfold buffered; by rewrite Hp1).
    exists c1, EPOLLOUT, ms1. inversion_clear Hms. split.
    + split; try done; rewrite ?Hses; cbn [fst snd].
      * apply (client_conn_update s c); [done..|]. apply read_ok_short; [done|]. by rewrite Hp1.
      * rewrite Hbuf1. cbn. rewrite Hby, app_assoc, Hfr in Hstr.
        change (frames (reply_ c1 :: ms1)) with (frame (reply_ c1) ++ frames ms1) in Hstr. by apply app_inv_head in Hstr.
      * by rewrite <- app_assoc, <- Hby.
      * rewrite app_nil_r, Hpen1. rewrite Hpen in Hout. exact Hout.
      * right. rewrite Hpen1. intros Hnil. rewrite Hnil in Hlen. unfold request_len_ok, len in Hlen. cbn in Hlen. lia.
    + unfold held_bytes. rewrite Hpen, Hpen1, Hbuf1. apply (f_equal length) in Hfr. rewrite length_app in Hfr.
      unfold frame in Hfr. rewrite length_app, length_le_bytes in Hfr.
      rewrite bytes_read_app, bytes_written_app, Hnw, !length_app. cbn. lia.
Qed.

(** So [SendReply] goes on, and what is left to send is not empty. *)
Lemma SendReply_served c w x ws c1 w1 t1 z :
  write_ok c → fd_ c = fd → pending c ≠ [] → SendReply c w = Done (ws, c1) w1 → extends w w1 t1 → flow fd x t1 z →
  fd_ c1 = fd ∧ last_read_pos_ c1 = last_read_pos_ c ∧ read_buf_ c1 = read_buf_ c ∧
  pending c = bytes_written fd t1 ++ pending c1 ∧
  (ws = kWriteAll ∧ idle c1 ∨ ws = kWriteHalf ∧ pending c1 ≠ []).
Proof.
  intros Hok Hfd Hne E He Hf. pose proof (SendReply_spec c w Hok) as Hg. unfold wp in Hg. rewrite E in Hg.
  destruct Hg as (t & He' & Hs). rewrite (extends_inj _ _ _ _ He' He), Hfd in *. destruct ws; cbn in Hs.
  - destruct Hs as (Hp & Hw1 & Hr & Hf1 & Hpos & Hbuf). split_and!; try done; [congruence|right].
    split; [done|]. exact (SendReply_half c w c1 w1 Hok E Hne).
  - destruct Hs as (Hp & Hr & Hw1 & Hf1 & Hpos & Hbuf). split_and!; try done; [congruence| |by left].
    rewrite (idle_pending c1) by done. by rewrite Hp, app_nil_r.
  - exfalso. destruct (SendReply_error c w c1 w1 E) as (e & He1 & Hne1).
    rewrite (extends_inj _ _ _ _ He He1) in Hf. rewrite Hfd in Hf.
    destruct (flow_write _ _ _ (pending c) (RErr e) Hf) as [[= ->]|[v ?]]; [set_solver|done..].
Qed.

Lemma own_write fe s w x c m ms s' w' t y :
  client_at s w x c m ms → fired_ok w fe → fired_fd fe = fd →
  has (mask fe) EPOLLERR = false → has (mask fe) EPOLLHUP = false →
  has (mask fe) EPOLLIN = false → has (mask fe) EPOLLOUT = true →
  on_inet_conn fe s w = Done s' w' → extends w w' t → server_inv s' w' → kernel_ok (trace w') → flow fd x t y →
  own_post c t s' w' y.
Proof.
  intros [Hk0 Hinv Hc Hi Hms Hstr Hin Hout Hmode] Hfe Hfd Herr Hhup Hev0 Hev E He Hinv' Hk Hf.
  pose proof (own_session _ _ _ _ _ _ E He) as Hses. pose proof Hc as [Htab Hcfd Hok _ _ _ Hu].
  destruct (Hinv _ _ Htab) as (_ & _ & _ & Hwok & _).
  destruct Hmode as [(_ & _ & Hm2)|Hpen].
  { destruct Hfe as (m0 & Hm0 & _ & Ho). rewrite Hfd, Hi in Hm0. injection Hm0 as <-. by rewrite Ho in Hm2. }
  rewrite (on_inet_conn_write fe s c) in E by done.
  unfold mbind, M_bind in E. destruct (SendReply c w) as [[ws c1] w1| | | |] eqn:Eg; try done.
  destruct (honest_SendReply c w) as (t1 & He1 & _). pose proof (run_quiet_interest (SendReply c) w) as Hq.
  pose proof (emits_extends is_write (SendReply c) w t1 He1) as Hwr. rewrite Eg in He1, Hq. cbn in He1, Hq.
  apply (only_write_read fd) in Hwr as Hnr.
  destruct (honest (m := write_rest s ws c1) w1) as (t2 & He2 & _). rewrite E in He2. cbn in He2.
  pose proof (extends_inj _ _ _ _ He (extends_trans _ _ _ _ _ He1 He2)) as ->.
  destruct (flow_bytes _ _ _ _ Hf) as [Hby _]. apply flow_split in Hf as (z & Hf1 & Hf2).
  destruct (SendReply_served c w x ws c1 w1 t1 z) as (Hfd1 & Hp1 & Hb1 & Hpend & Hres); try done.
  assert (buffered c1 = buffered c) as Hbuf by (unfold buffered; by rewrite Hp1, Hb1).
  assert (client_conn (with_conn s fd c1) fd c1) as Hc1
    by (apply (client_conn_update s c); [done..|by apply (read_ok_same c)]).
  assert (held_bytes c1 + length (bytes_written fd t1) = held_bytes c)%nat as Hheld
    by (unfold held_bytes; rewrite Hbuf, Hpend, length_app; lia).
  rewrite bytes_read_app, bytes_written_app, Hnr in *. destruct Hres as [[-> Hidle]|[-> Hne]].
  - cbn in E. unfold mbind, M_bind in E. destruct (ModEvent _ _ _ w1) as [v w2| | | |] eqn:Em; try done.
    injection E as <- <-. apply mod_done in Em as (r & He3 & Hi2); [|by rewrite Hq; eexists|done].
    pose proof (extends_inj _ _ _ _ He2 He3) as ->. cbn in Hby, Hses. rewrite !app_nil_r in Hses.
    exists c1, EPOLLIN, ms. split.
    + split; try done; rewrite ?Hses; cbn [fst snd]; try (rewrite ?Hbuf, <- Hby; done); [|by left].
      by rewrite <- Hout, Hpend, <- !app_assoc.
    + rewrite bytes_read_app, bytes_written_app, Hnr, !length_app. cbn -[held_bytes]. lia.
  - injection E as <- <-. pose proof (extends_inj _ _ _ _ He2 (extends_refl w1)) as ->.
    cbn in Hby, Hses. rewrite !app_nil_r in Hses. exists c1, m, ms. split.
    + split; try done; rewrite ?Hses; cbn [fst snd]; try (rewrite ?Hbuf, <- Hby; done); [by rewrite Hq| |by right].
      by rewrite <- Hout, Hpend, <- !app_assoc.
    + rewrite bytes_read_app, bytes_written_app, Hnr, !length_app. cbn -[held_bytes]. lia.
Qed.

(** ** A round *)

Lemma dispatch_all_app l1 l2 s w :
  dispatch_all (l1 ++ l2) s w = (s ← dispatch_all l1 s; dispatch_all l2 s) w.
Proof.
  revert s w. induction l1 as [|fe l1 IH]; intros s w; [done|]. cbn. unfold mbind, M_bind in *.
  destruct (dispatch fe s w) as [s1 w1| | | |]; [|done..]. apply IH.
Qed.

Lemma dispatch_all_frame fes s : ensures (dispatch_all fes s) (same_role s).
Proof.
  revert s. induction fes as [|fe fes IH]; intros s; [by apply ensures_ret|]. cbn.
  eapply ensures_bind_dep; [apply dispatch_frame|]. intros s1 [H1 H2] w s2 w2 E.
  destruct (IH s1 w s2 w2 E) as [H3 H4]. unfold same_role. by rewrite H3, H4.
Qed.

(** Without an upgrade, the check for the trigger file is all. *)
Lemma trigger_idle path s w s1 w1 :
  trigger path s w = Done s1 w1 → unix_client s1 = None →
  s1 = s ∧ ∃ r, extends w w1 [(SysAccess path F_OK, r)].
Proof.
  intros E. enough (wp (trigger path s) (λ o, match o with
    | Done s1 w1 => unix_client s1 = None → s1 = s ∧ ∃ r, extends w w1 [(SysAccess path F_OK, r)]
    | _ => True end) w) as H by (unfold wp in H; by rewrite E in H).
  unfold trigger, FileExists. wp_step. wp_step. wp_step; [done|]. wp_step. wp_step.
  - match goal with |- wp ?m _ ?w0 => assert (ensures m (λ s, is_Some (unix_client s))) as H;
      [solve_ensures; by eexists|specialize (H w0); unfold wp; destruct (m w0); try done] end.
    intros Hu. destruct (H _ _ eq_refl) as [uc Huc]. congruence.
  - wp_step. intros _. split; [done|]. eexists. apply extends_answered.
Qed.

Lemma list_split_at {A} (f : A → Z) (l : list A) x :
  NoDup (f <$> l) → x ∈ f <$> l → ∃ l1 a l2, l = l1 ++ a :: l2 ∧ f a = x ∧ (x ∉ f <$> l1) ∧ (x ∉ f <$> l2).
Proof.
  intros Hnd (a & -> & Ha)%list_elem_of_fmap. apply list_elem_of_split in Ha as (l1 & l2 & ->).
  exists l1, a, l2. rewrite fmap_app, fmap_cons in Hnd. apply NoDup_app in Hnd as (_ & H1 & H2).
  apply NoDup_cons in H2 as [H2 _]. split_and!; try done. intros Hin. by apply (H1 _ Hin); left.
Qed.

(** One report of the client. *)
Lemma own_event fe rest s w x c m ms s' w' t y :
  client_at s w x c m ms → loop_inv (fe :: rest) s w → fired_fd fe = fd →
  has (mask fe) EPOLLERR = false → has (mask fe) EPOLLHUP = false →
  has (mask fe) EPOLLOUT = true ∨ has (mask fe) EPOLLIN = true →
  dispatch fe s w = Done s' w' → extends w w' t → kernel_ok (trace w') → flow fd x t y →
  loop_inv rest s' w' ∧ ∃ c' m' ms', client_at s' w' y c' m' ms' ∧ (idle c' → announced y.1) ∧
    (held_bytes c' + length (bytes_written fd t) ≤ held_bytes c + 2 * length (bytes_read fd t))%nat.
Proof.
  intros Hat Hl Hfd Herr Hhup Hev E He Hk Hf. pose proof (loop_inv_event _ _ _ _ _ _ Hl E Hk) as Hl'. split; [done|].
  destruct Hl as (Hinv & _ & Hfe). inversion_clear Hfe as [|? ? Hfe1 _]. destruct Hl' as (Hinv' & _).
  pose proof (ca_conn _ _ _ _ _ _ Hat) as [Htab _ _ Hr1 Hr2 Hr3 _].
  unfold dispatch in E. rewrite Hfd, !(proj2 (Z.eqb_neq _ _)) in E by done.
  assert (own_post c t s' w' y) as (c' & m' & ms' & Hat' & Hheld).
  { destruct (has (mask fe) EPOLLIN) eqn:Hin; [by eapply own_read|].
    destruct Hev as [Hev|?]; [|done]. by eapply own_write. }
  exists c', m', ms'. split_and!; try done. intros Hidle.
  assert (has (mask fe) EPOLLIN = true ∨ ¬ idle c) as Hev'.
  { destruct (has (mask fe) EPOLLIN) eqn:Hin; [by left|right]. destruct Hev as [Hev|?]; [|done].
    destruct (ca_mode _ _ _ _ _ _ Hat) as [(_ & _ & Hm)|Hne]; [|by intros ?%idle_pending].
    destruct Hfe1 as (m0 & Hm0 & _ & Ho). rewrite Hfd, (ca_interest _ _ _ _ _ _ Hat) in Hm0.
    injection Hm0 as <-. by rewrite Ho in Hm. }
  rewrite <- Hfd in Htab. pose proof (ca_conn _ _ _ _ _ _ Hat') as [Htab' _ _ _ _ _ _]. rewrite <- Hfd in Htab'.
  destruct (on_inet_conn_settles fe s w c s' w' Hinv Hfe1 Htab Hev' E c' Htab' Hidle Hk) as (t0 & He0 & Hset).
  rewrite (extends_inj _ _ _ _ He0 He), Hfd in Hset. eapply Hset. by apply flow_sock_run.
Qed.
(** What a round leaves of the client. *)
Definition round_post (c : InetConn) (t : list event) (s' : server) (w' : world) (y : sock * list Z) : Prop :=
  ∃ c' m' ms', client_at s' w' y c' m' ms' ∧ (idle c' → announced y.1) ∧
    (held_bytes c' + length (bytes_written fd t) ≤ held_bytes c + 2 * length (bytes_read fd t))%nat.

(** The events of a round in which the client is not reported. *)
Lemma round_others fes s w x c m ms s' w' t y :
  client_at s w x c m ms → (idle c → announced x.1) → loop_inv fes s w → fd ∉ fired_fd <$> fes →
  dispatch_all fes s w = Done s' w' → extends w w' t → kernel_ok (trace w') → flow fd x t y →
  round_post c t s' w' y.
Proof.
  intros Hat Ha Hl Hfd E He Hk Hf. rewrite <- (app_nil_r fes) in Hl.
  destruct (others_kept fes [] s w x c m ms s' w' t y) as (Hat' & _ & Ht); try done.
  exists c, m, ms. split_and!; [done| |lia || (destruct (clear_bytes _ _ Ht) as [-> ->]; cbn -[held_bytes]; lia)].
  intros Hidle. eapply flow_clear; [done..|by apply Ha].
Qed.

(** And of one in which it is. *)
Lemma round_own l1 fe l2 s w x c m ms s' w' t y :
  client_at s w x c m ms → loop_inv (l1 ++ fe :: l2) s w → fired_fd fe = fd →
  fd ∉ fired_fd <$> l1 → fd ∉ fired_fd <$> l2 →
  has (mask fe) EPOLLERR = false → has (mask fe) EPOLLHUP = false →
  has (mask fe) EPOLLOUT = true ∨ has (mask fe) EPOLLIN = true →
  dispatch_all (l1 ++ fe :: l2) s w = Done s' w' → extends w w' t → kernel_ok (trace w') → flow fd x t y →
  round_post c t s' w' y.
Proof.
  intros Hat Hl Hfd H1 H2 Herr Hhup Hev E He Hk Hf. rewrite dispatch_all_app in E. unfold mbind, M_bind in E.
  destruct (dispatch_all l1 s w) as [s1 w1| | | |] eqn:E1; try done. cbn in E. unfold mbind, M_bind in E.
  destruct (dispatch fe s1 w1) as [s2 w2| | | |] eqn:E2; try done.
  assert (kernel_ok (trace w2)) as Hk2 by (by eapply (kernel_ok_before (dispatch_all l2 s2))).
  assert (kernel_ok (trace w1)) as Hk1 by (by eapply (kernel_ok_before (dispatch fe s1))).
  destruct (honest_dispatch_all l1 s w) as (t1 & He1 & _). rewrite E1 in He1. cbn in He1.
  destruct (honest_dispatch fe s1 w1) as (t2 & He2 & _). rewrite E2 in He2. cbn in He2.
  destruct (honest_dispatch_all l2 s2 w2) as (t3 & He3 & _). rewrite E in He3. cbn in He3.
  pose proof (extends_inj _ _ _ _ He (extends_trans _ _ _ _ _ He1 (extends_trans _ _ _ _ _ He2 He3))) as ->.
  apply flow_split in Hf as (z1 & Hf1 & Hf). apply flow_split in Hf as (z2 & Hf2 & Hf3).
  destruct (others_kept l1 (fe :: l2) s w x c m ms s1 w1 t1 z1) as (Hat1 & Hl1 & Ht1); try done.
  destruct (own_event fe l2 s1 w1 z1 c m ms s2 w2 t2 z2) as (Hl2 & c' & m' & ms' & Hat2 & Ha2 & Hheld); try done.
  destruct (round_others l2 s2 w2 z2 c' m' ms' s' w' t3 y) as (c'' & m'' & ms'' & Hat3 & Ha3 & Hheld'); try done.
  destruct (others_kept l2 [] s2 w2 z2 c' m' ms' s' w' t3 y) as (_ & _ & Ht3); try done; [by rewrite app_nil_r|].
  exists c'', m'', ms''. split_and!; [done..|]. rewrite !bytes_read_app, !bytes_written_app.
  destruct (clear_bytes _ _ Ht1) as [-> ->], (clear_bytes _ _ Ht3) as [Hr3 Hw3]. rewrite Hr3, Hw3 in *.
  rewrite !app_nil_r. cbn -[held_bytes] in *. lia.
Qed.

Lemma with_ep_id s : with_ep s (ep s) = s.
Proof. by destruct s. Qed.

(** What [epoll_wait] reported of the client. *)
Lemma reported_mask x y epfd n timeout evs e0 fe :
  flow fd x [(SysEpollWait epfd n timeout, REvents evs)] y → NoDup evs.*1 →
  fe ∈ map (λ '(fd, events), mkFired (Z.land events e0) fd) evs → e0 = 29 → fired_fd fe = fd →
  has (mask fe) EPOLLERR = false ∧ has (mask fe) EPOLLHUP = false ∧
  (has (mask fe) EPOLLOUT = true ∨ has (mask fe) EPOLLIN = true).
Proof.
  intros Hf Hnd Hin -> Hfd. apply list_elem_of_In, in_map_iff in Hin as ([fd0 m1] & <- & Hin).
  cbn in Hfd. subst fd0. apply list_elem_of_In in Hin. cbn [mask].
  destruct (flow_answers _ _ _ _ _ Hf (list_elem_of_here _ _)) as (k & k' & Hst).
  inversion Hst as [| | | | | |epfd0 n0 timeout0 evs0 m0 Hm0 Herr Hhup Hev|ev Hc]; subst.
  - assert (m1 = m0) as ->.
    { apply (elem_of_list_to_map_1 (M := gmap Z)) in Hin, Hm0; [congruence|done..]. }
    assert (∀ b, Z.land 29 b = b → has (Z.land m0 29) b = has m0 b) as Hland
      by (intros b Hb; unfold has; by rewrite <- Z.land_assoc, Hb).
    rewrite !Hland by done. split_and!; try done. destruct Hev as [?|[? _]]; auto.
  - cbn in Hc. apply bool_decide_eq_true in Hc. destruct Hc. apply list_elem_of_fmap. by exists (fd, m1).
Qed.

Lemma round_served path s w x c m ms s' w' t y :
  client_at s w x c m ms → (idle c → announced x.1) → main_iter path s w = Done s' w' → extends w w' t →
  kernel_ok (trace w') → unix_client s' = None → flow fd x t y → round_post c t s' w' y.
Proof.
  intros Hat Ha E He Hk Hu Hf. unfold main_iter, mbind, M_bind in E.
  destruct (trigger path s w) as [s1 w1| | | |] eqn:Et; try done.
  pose proof (Poll_spec (ep s1) 10 w1) as Hp. unfold wp in Hp.
  destruct (Poll (ep s1) 10 w1) as [[n e] w2| | | |] eqn:Ep; try done. cbn in E.
  rewrite (proj2 (Z.eqb_neq n (-1))) in E by (destruct Hp; lia). set (fes := take (Z.to_nat n) (firedevent_ e)) in E.
  assert (kernel_ok (trace w2)) as Hk2 by (by eapply (kernel_ok_before (dispatch_all fes (with_ep s1 e)))).
  pose proof (loop_inv_poll path s w s1 w1 n e w2 (ca_server _ _ _ _ _ _ Hat) Et Ep Hk2) as Hl. fold fes in Hl.
  assert (unix_client s1 = None) as Hu1.
  { destruct (dispatch_all_frame fes (with_ep s1 e) _ _ _ E) as [_ Hr]. by apply Hr. }
  destruct (trigger_idle path s w s1 w1 Et Hu1) as (-> & r0 & He0).
  destruct Hp as (_ & Hset & r & Her & Hr).
  destruct (honest_dispatch_all fes (with_ep s e) w2) as (t3 & He3 & _). rewrite E in He3. cbn in He3.
  pose proof (extends_inj _ _ _ _ He (extends_trans _ _ _ _ _ He0 (extends_trans _ _ _ _ _ Her He3))) as ->.
  change ([?a] ++ [?b] ++ t3) with ([a; b] ++ t3) in Hf |- *. apply flow_split in Hf as (z & Hf0 & Hf3).
  set (t0 := [(SysAccess path F_OK, r0); (SysEpollWait (epfd_ (ep s)) MAX_EVENTS 10, r)]) in *.
  assert (extends w w2 t0) as Ht0 by (exact (extends_trans _ _ _ _ _ He0 Her)).
  assert (client_at (with_ep s e) w2 z c m ms) as Hat2.
  { unfold extends in Ht0. eapply client_at_move; [exact Hat|apply Hl|done| | | | |exact Hf0]; rewrite ?Ht0.
    - destruct (ca_conn _ _ _ _ _ _ Hat). rewrite Hset. by split.
    - done.
    - by rewrite quiet_interest by (by repeat constructor).
    - by apply session_aside; repeat constructor. }
  assert (round_post c t3 s' w' y) as (c' & m' & ms' & H1 & H2 & H3); [|by exists c', m', ms'].
  destruct (decide (fd ∈ fired_fd <$> fes)) as [Hin|Hnin].
  - destruct (list_split_at fired_fd fes fd) as (l1 & fe & l2 & Hfes & Hfd & Hl1 & Hl2); [apply Hl|done|].
    change (t0) with ([(SysAccess path F_OK, r0)] ++ [(SysEpollWait (epfd_ (ep s)) MAX_EVENTS 10, r)]) in Hf0.
    apply flow_split in Hf0 as (z0 & _ & Hf0).
    assert (∃ evs, r = REvents evs ∧ fes = map (λ '(fd, events), mkFired (Z.land events 29) fd) evs) as (evs & -> & Hmap).
    { destruct r; try (destruct Hr as [Hn _]; unfold fes in Hin; rewrite Hn in Hin; by apply elem_of_nil in Hin).
      eexists. split; [done|]. apply Hr. }
    destruct (reported_mask _ _ _ _ _ evs 29 fe Hf0) as (Herr & Hhup & Hev); try done.
    { unfold extends in Her. rewrite Her in Hk2. by apply (Hk2 (trace w1) _ [] eq_refl). }
    { rewrite <- Hmap, Hfes. set_solver. }
    rewrite Hfes in Hl, E. eapply round_own; [exact Hat2|exact Hl|done..].
  - eapply round_others; [exact Hat2| |done..]. intros Hidle. eapply flow_clear; [exact Hf0| |by apply Ha].
    repeat constructor. cbn. destruct r; try done. apply bool_decide_eq_true_2. destruct Hr as [_ Hmap].
    fold fes in Hmap. intros Hin. apply Hnin. rewrite Hmap. apply list_elem_of_fmap in Hin as ([fd0 ev] & Heq & Hin). 
    apply list_elem_of_fmap. exists (mkFired (Z.land ev 29) fd0). split; [done|].
    apply list_elem_of_In, in_map_iff. exists (fd0, ev). split; [done|]. by apply list_elem_of_In.
Qed.
End client.

(** ** There is always something to do *)

(** Whenever the kernel answers [sc], [m] returns [a] after the calls [t]. *)
Definition goes {A} (m : M A) (a : A) (sc : list reply) (t : list event) : Prop :=
  ∀ w rest, script w = sc ++ rest → ∃ w', m w = Done a w' ∧ script w' = rest ∧ extends w w' t.

Lemma goes_ret {A} (a : A) : goes (mret a) a [] [].
Proof. intros w rest Hs. exists w. split_and!; [done..|apply extends_refl]. Qed.

Lemma goes_bind {A B} (m : M A) (k : A → M B) a b sc1 sc2 t1 t2 :
  goes m a sc1 t1 → goes (k a) b sc2 t2 → goes (m ≫= k) b (sc1 ++ sc2) (t1 ++ t2).
Proof.
  intros Hm Hk w rest Hs. rewrite <- app_assoc in Hs. destruct (Hm w _ Hs) as (w1 & E1 & Hs1 & He1).
  destruct (Hk w1 _ Hs1) as (w2 & E2 & Hs2 & He2). exists w2.
  split_and!; [|done|by eapply extends_trans]. by rewrite (bind_done _ _ _ _ _ E1).
Qed.

Lemma goes_call c r : answers c r = true → goes (call c) r [r] [(c, r)].
Proof.
  intros Ha w rest Hs. exists (answered c r w). rewrite (call_answer c r rest w Hs Ha).
  split_and!; [done|cbn; by rewrite Hs|apply extends_answered].
Qed.

Lemma goes_call_int c r : answers c r = true → goes (call_int c) (ret_of r) [r] [(c, r)].
Proof. intros Ha. apply (goes_bind _ _ r _ [r] [] [(c, r)] []); [by apply goes_call|apply goes_ret]. Qed.

Lemma goes_mod e fd m :
  goes (ModEvent e fd m) 0 [RInt 0] [(SysEpollCtl (epfd_ e) EPOLL_CTL_MOD fd (u32 m), RInt 0)].
Proof. by apply (goes_call_int (SysEpollCtl (epfd_ e) EPOLL_CTL_MOD fd (u32 m)) (RInt 0)). Qed.

Lemma goes_data c n bs :
  0 < len bs ≤ n → all_bytes bs = true → last_read_pos_ c + len bs ≤ READ_BUFFER_SIZE →
  goes (read_more c n) (None, filled c bs) [RData bs] [(SysRead (fd_ c) n, RData bs)].
Proof.
  intros Hl Hb Hp w rest Hs. exists (answered (SysRead (fd_ c) n) (RData bs) w).
  rewrite (read_more_data c n bs rest w Hs Hl Hb Hp). split_and!; [done|cbn; by rewrite Hs|apply extends_answered].
Qed.

Lemma goes_again c n :
  goes (read_more c n) (Some kReadHalf, c) [RErr EAGAIN] [(SysRead (fd_ c) n, RErr EAGAIN)].
Proof.
  intros w rest Hs. exists (answered (SysRead (fd_ c) n) (RErr EAGAIN) w).
  split_and!; [|cbn; by rewrite Hs|apply extends_answered].
  unfold read_more, sys_read. unfold mbind, M_bind. by rewrite (call_answer _ _ _ _ Hs).
Qed.

Lemma all_bytes_frames ms : Forall request_ok ms → all_bytes (frames ms) = true.
Proof.
  induction 1 as [|m ms [_ Hm] _ IH]; [done|]. change (frames (m :: ms)) with (frame m ++ frames ms).
  unfold frame. rewrite !all_bytes_app, le_bytes_all, Hm, IH. done.
Qed.

Lemma flow_once fd k co ev k' : client_step fd k ev k' → flow fd (k, co) [ev] (k', co).
Proof. intros H. apply (flow_call fd _ [] k co ev k'); [apply flow_nil|done]. Qed.

Lemma flow_app fd x t1 z t2 y : flow fd x t1 z → flow fd z t2 y → flow fd x (t1 ++ t2) y.
Proof.
  intros H1 H2. induction H2 as [|t k bs co _ IH Hbs|t k co ev k' _ IH Hst]; [by rewrite app_nil_r|..].
  - by apply flow_arrive.
  - rewrite app_assoc. by eapply flow_call.
Qed.

Section progress.
Context (fd : Z).

(** What a [read] of a socket that is not empty delivers. *)
Lemma there_is c k co ms n :
  Forall request_ok ms → buffered c ++ inbox k ++ co = frames ms → 0 < n → inbox k ≠ [] →
  take (Z.to_nat n) (inbox k) ≠ [] ∧ 0 < len (take (Z.to_nat n) (inbox k)) ≤ n ∧
  all_bytes (take (Z.to_nat n) (inbox k)) = true.
Proof.
  intros Hms Hstr Hn Hk. split_and!.
  - destruct (inbox k); [done|]. destruct (Z.to_nat n) eqn:E; [lia|done].
  - unfold len. rewrite length_take. destruct (inbox k); [done|]. cbn. lia.
  - unfold len. rewrite length_take. lia.
  - pose proof (all_bytes_frames _ Hms) as H. rewrite <- Hstr, !all_bytes_app in H.
    apply andb_true_iff in H as [_ H]. apply andb_true_iff in H as [H _]. by apply all_bytes_take.
Qed.

(** Reading on, with what is in the socket. *)
Lemma GetBody_goes c k co ms :
  read_ok c → fd_ c = fd → HEADER_LEN ≤ last_read_pos_ c → Forall request_ok ms →
  buffered c ++ inbox k ++ co = frames ms →
  ∃ a sc t y, goes (GetBody c) a sc t ∧ flow fd (k, co) t y ∧ (inbox k ≠ [] → bytes_read fd t ≠ []).
Proof.
  intros Hok Hfd Hp Hms Hstr. pose proof (read_buf_ok c Hok) as Hb. pose proof (len_buffered c Hb) as Hl.
  destruct (stream_next (buffered c) _ ms Hms Hstr) as (m0 & ms0 & -> & Hh & Hm0); [by rewrite Hl|].
  rewrite <- header_len_buffered in Hh by done. pose proof (read_body c Hok) as Hbody. rewrite Hh in Hbody.
  assert (last_read_pos_ c < HEADER_LEN + len m0) as Hlt.
  { unfold request_len_ok in Hm0. destruct (decide (HEADER_LEN < last_read_pos_ c)) as [Hx|]; [by apply Hbody|lia]. }
  unfold GetBody. rewrite Hh. cbn zeta. unfold request_len_ok, READ_BUFFER_SIZE, HEADER_LEN in Hm0, Hlt, Hp.
  rewrite (proj2 (length_guard (len m0) ltac:(lia))) by (unfold READ_BUFFER_SIZE, HEADER_LEN; lia).
  rewrite (u64_small (len m0 + HEADER_LEN - last_read_pos_ c)) by (unfold HEADER_LEN; lia).
  set (n := len m0 + HEADER_LEN - last_read_pos_ c). assert (0 < n) as Hn by (unfold n, HEADER_LEN; lia).
  destruct (decide (inbox k = [])) as [Hk|Hk].
  - eexists _, _, _, _. split; [|split; [apply flow_once, client_again, Hk|done]].
    rewrite <- Hfd. apply (goes_bind _ _ (Some kReadHalf, c) _ [RErr EAGAIN] [] [_] []); [apply goes_again|apply goes_ret].
  - destruct (there_is c k co (m0 :: ms0) n Hms Hstr Hn Hk) as (Hne & Hbs & Hby).
    set (bs := take (Z.to_nat n) (inbox k)) in *.
    assert (last_read_pos_ c + len bs ≤ READ_BUFFER_SIZE) as Hcap
      by (unfold n, READ_BUFFER_SIZE, HEADER_LEN in *; lia).
    assert (∃ a, goes (finish (len m0) (filled c bs)) a [] []) as [a Ha].
    { assert (last_read_pos_ (filled c bs) = last_read_pos_ c + len bs) as Hp' by done.
      destruct (decide (last_read_pos_ c + len bs < HEADER_LEN + len m0)) as [Hsh|Hfull].
      - eexists. unfold finish. rewrite Hp', u64_small, (proj2 (Z.ltb_lt _ _) Hsh) by (unfold HEADER_LEN; lia).
        apply goes_ret.
      - eexists. intros w rest Hs. eexists. rewrite finish_complete;
          [split_and!; [done..|apply extends_refl]|unfold READ_BUFFER_SIZE; lia|rewrite Hp'; unfold n in Hbs; lia]. }
    eexists a, _, _, _. split; [|split; [apply flow_once, (client_read fd k n Hk)|]].
    + rewrite <- Hfd. apply (goes_bind _ _ (None, filled c bs) _ [RData bs] [] [_] []); [by apply goes_data|exact Ha].
    + intros _. by rewrite bytes_read_data.
Qed.

Lemma GetRequest_goes c k co ms :
  read_ok c → fd_ c = fd → Forall request_ok ms → buffered c ++ inbox k ++ co = frames ms → inbox k ≠ [] →
  ∃ a sc t y, goes (GetRequest c) a sc t ∧ flow fd (k, co) t y ∧ bytes_read fd t ≠ [].
Proof.
  intros Hok Hfd Hms Hstr Hk. pose proof (read_buf_ok c Hok) as Hb. pose proof (buf_pos c Hb) as Hpos.
  unfold GetRequest. destruct (Z.ltb_spec (last_read_pos_ c) HEADER_LEN) as [Hp|Hp]; cycle 1.
  { destruct (GetBody_goes c k co ms) as (a & sc & t & y & Hg & Hf & Hr); try done.
    exists a, sc, t, y. split_and!; [done..|by apply Hr]. }
  set (n := HEADER_LEN - last_read_pos_ c). assert (0 < n) as Hn by (unfold n; lia).
  destruct (there_is c k co ms n Hms Hstr Hn Hk) as (Hne & Hbs & Hby). set (bs := take (Z.to_nat n) (inbox k)) in *.
  assert (last_read_pos_ (filled c bs) = last_read_pos_ c + len bs) as Hp1 by done.
  assert (last_read_pos_ c + len bs ≤ HEADER_LEN) as Hle by (unfold n in Hbs; lia).
  assert (last_read_pos_ c + len bs ≤ READ_BUFFER_SIZE) as Hcap by (unfold READ_BUFFER_SIZE, HEADER_LEN in *; lia).
  set (k1 := mkSock (drop (Z.to_nat n) (inbox k)) (due k)).
  assert (flow fd (k, co) [(SysRead fd n, RData bs)] (k1, co)) as Hf1 by (by apply flow_once, client_read).
  assert (goes (read_more c n) (None, filled c bs) [RData bs] [(SysRead fd n, RData bs)]) as Hg1
    by (rewrite <- Hfd; by apply goes_data).
  destruct (Z.ltb_spec (last_read_pos_ (filled c bs)) HEADER_LEN) as [Hlt|Hge].
  - eexists _, _, _, _. split; [|split; [exact Hf1|by rewrite bytes_read_data]].
    apply (goes_bind _ _ _ _ _ [] _ [] Hg1). cbn beta iota. rewrite (proj2 (Z.ltb_lt _ _) Hlt). apply goes_ret.
  - destruct (GetBody_goes (filled c bs) k1 co ms) as (a & sc & t & y & Hg & Hf & _); try done.
    + apply read_ok_short; [by apply filled_ok|lia].
    + rewrite buffered_filled, <- app_assoc by done. unfold bs, k1. cbn [inbox].
      by rewrite (app_assoc (take _ _)), take_drop.
    + exists a, ([RData bs] ++ sc), ([(SysRead fd n, RData bs)] ++ t), y. split; [|split; [by eapply flow_app|]].
      * apply (goes_bind _ _ _ _ _ sc _ t Hg1). cbn beta iota. by rewrite (proj2 (Z.ltb_ge _ _) Hge).
      * rewrite bytes_read_app, bytes_read_data. by destruct bs.
Qed.

(** Writing all that is pending. *)
Lemma SendReply_goes c :
  write_ok c → goes (SendReply c) (kWriteAll, set_reply c 0 []) [RInt (len (pending c))]
    [(SysWrite (fd_ c) (pending c), RInt (len (pending c)))].
Proof.
  intros Hw. unfold SendReply. fold (pending c). pose proof (len_nonneg (pending c)) as Hn.
  assert (last_write_pos_ c + len (pending c) = len (reply_ c)) as Hl
    by (unfold write_ok, pending, len in *; rewrite length_drop; lia).
  apply (goes_bind _ _ (len (pending c)) _ [_] [] [_] []).
  - apply (goes_call_int _ (RInt (len (pending c)))). cbn. by rewrite (proj2 (Z.leb_le _ _) Hn), Z.leb_refl.
  - rewrite (proj2 (Z.eqb_neq _ _)) by lia. cbn zeta. rewrite Hl, Z.ltb_irrefl. apply goes_ret.
Qed.

Lemma goes_ext {A} (m m' : M A) a sc t : (∀ w, m w = m' w) → goes m' a sc t → goes m a sc t.
Proof. intros Heq H w rest Hs. rewrite Heq. by apply H. Qed.

Lemma goes_emits {A} P (m : M A) `{!Emits P m} a sc t : goes m a sc t → only P t.
Proof.
  intros H. destruct (H (World sc 0 []) []) as (w' & E & _ & He); [by rewrite app_nil_r|].
  apply (emits_extends P m (World sc 0 [])). by rewrite E.
Qed.

(** Calls any answer of which the kernel may give. *)
Definition unconstrained (ev : event) : Prop := ∀ t, event_ok t ev.

Lemma kernel_ok_snoc t ev : kernel_ok t → event_ok t ev → kernel_ok (t ++ [ev]).
Proof.
  intros Hk Hev t1 ev' t2 Heq. destruct t2 as [|ev2 t2 _] using rev_ind.
  - apply app_inj_tail in Heq as [<- <-]. done.
  - rewrite app_comm_cons, app_assoc in Heq. apply app_inj_tail in Heq as [-> _]. by apply (Hk t1 ev' t2).
Qed.

Lemma kernel_ok_unconstrained t t' : kernel_ok t → Forall unconstrained t' → kernel_ok (t ++ t').
Proof.
  intros Hk. induction t' as [|ev t' IH] using rev_ind; [by rewrite app_nil_r|]. intros [Ht Hev]%Forall_app.
  inversion_clear Hev as [|? ? Hf _]. rewrite app_assoc. by apply kernel_ok_snoc; [apply IH|].
Qed.

Lemma reads_unconstrained t : only is_read t → Forall unconstrained t.
Proof. intros H. eapply Forall_impl; [exact H|]. intros [c r] Hc t0. by destruct c. Qed.

Lemma writes_unconstrained t : only is_write t → Forall unconstrained t.
Proof. intros H. eapply Forall_impl; [exact H|]. intros [c r] Hc t0. by destruct c. Qed.

Lemma mod_unconstrained e m : unconstrained (SysEpollCtl e EPOLL_CTL_MOD fd m, RInt 0).
Proof. by intros t _. Qed.

Lemma flow_mod x e m :
  flow fd x [(SysEpollCtl e EPOLL_CTL_MOD fd m, RInt 0)] (mkSock (inbox x.1) (bool_decide (inbox x.1 ≠ [])), x.2).
Proof. destruct x. by apply flow_once, client_armed. Qed.

(** ** A readable and a writable client *)

Lemma read_rest_goes s c1 :
  goes (read_rest fd s kReadAll c1) (with_conn s fd c1) [RInt 0]
    [(SysEpollCtl (epfd_ (ep s)) EPOLL_CTL_MOD fd EPOLLOUT, RInt 0)].
Proof.
  apply (goes_bind _ _ (0, with_conn s fd c1) _ [_] [] [_] []); [|apply goes_ret].
  apply (goes_bind _ _ 0 _ [_] [] [_] []); [exact (goes_mod (ep (with_conn s fd c1)) fd EPOLLOUT)|apply goes_ret].
Qed.

Lemma write_rest_goes s c1 :
  goes (write_rest fd s kWriteAll c1) (with_conn s fd c1) [RInt 0]
    [(SysEpollCtl (epfd_ (ep s)) EPOLL_CTL_MOD fd EPOLLIN, RInt 0)].
Proof.
  apply (goes_bind _ _ (0, with_conn s fd c1) _ [_] [] [_] []); [|apply goes_ret].
  apply (goes_bind _ _ 0 _ [_] [] [_] []); [exact (goes_mod (ep (with_conn s fd c1)) fd EPOLLIN)|apply goes_ret].
Qed.

Lemma read_goes fe s c k co ms :
  client_conn s fd c → fired_fd fe = fd → has (mask fe) EPOLLERR = false → has (mask fe) EPOLLHUP = false →
  has (mask fe) EPOLLIN = true → Forall request_ok ms → buffered c ++ inbox k ++ co = frames ms → inbox k ≠ [] →
  ∃ a sc t y, goes (on_inet_conn fe s) a sc t ∧ flow fd (k, co) t y ∧ bytes_read fd t ≠ [] ∧ Forall unconstrained t.
Proof.
  intros [] Hfd H1 H2 H3 Hms Hstr Hk.
  destruct (GetRequest_goes c k co ms) as ([rs c1] & sc & t & y & Hg & Hf & Hr); try done.
  destruct (Hg (World sc 0 []) []) as (w1 & E & _ & He); [by rewrite app_nil_r|].
  destruct (GetRequest_served fd c (World sc 0 []) (k, co) ms rs c1 w1 t y) as (_ & _ & Hrs); try done.
  pose proof (reads_unconstrained _ (goes_emits is_read _ _ _ _ Hg)) as Hu.
  assert (∃ sc2 t2 y2, goes (read_rest fd s rs c1) (with_conn s fd c1) sc2 t2 ∧ flow fd y t2 y2 ∧ Forall unconstrained t2)
    as (sc2 & t2 & y2 & Hg2 & Hf2 & Hu2).
  { destruct Hrs as [(-> & _)|(-> & _)]; eexists _, _, _; (split; [|split]).
    - apply goes_ret.
    - apply flow_nil.
    - constructor.
    - apply read_rest_goes.
    - apply flow_mod.
    - constructor; [apply mod_unconstrained|constructor]. }
  exists (with_conn s fd c1), (sc ++ sc2), (t ++ t2), y2. split_and!.
  - eapply goes_ext; [intros w; by apply (on_inet_conn_read fd)|]. by apply (goes_bind _ _ (rs, c1)).
  - by eapply flow_app.
  - rewrite bytes_read_app. by destruct (bytes_read fd t).
  - by apply Forall_app.
Qed.

Lemma write_goes fe s c x :
  client_conn s fd c → write_ok c → fired_fd fe = fd → has (mask fe) EPOLLERR = false →
  has (mask fe) EPOLLHUP = false → has (mask fe) EPOLLIN = false → has (mask fe) EPOLLOUT = true → pending c ≠ [] →
  ∃ a sc t y, goes (on_inet_conn fe s) a sc t ∧ flow fd x t y ∧ bytes_written fd t ≠ [] ∧ Forall unconstrained t.
Proof.
  destruct x as [k co]. intros [] Hw Hfd H1 H2 H3 H4 Hp. pose proof (SendReply_goes c Hw) as Hg. rewrite cc_fd in Hg.
  set (c1 := set_reply c 0 []) in *. set (r := RInt (len (pending c))) in *.
  eexists (with_conn s fd c1), ([r] ++ [RInt 0]), ([_] ++ [_]), _. split_and!.
  - eapply goes_ext; [intros w; by apply (on_inet_conn_write fd)|]. apply (goes_bind _ _ (kWriteAll, c1) _ _ _ _ _ Hg).
    apply write_rest_goes.
  - eapply flow_app; [|apply flow_mod]. apply flow_once, client_write. right. by eexists.
  - unfold r. rewrite bytes_written_app, bytes_written_int. unfold len. rewrite Nat2Z.id, firstn_all. by destruct (pending c).
  - apply Forall_app. split; [by constructor|]. constructor; [apply mod_unconstrained|constructor].
Qed.

(** ** A round with one event *)

Lemma trigger_goes path s : goes (trigger path s) s [RErr 2] [(SysAccess path F_OK, RErr 2)].
Proof.
  apply (goes_bind _ _ false _ [_] [] [_] []); [|apply goes_ret].
  apply (goes_bind _ _ (-1) _ [_] [] [_] []); [by apply goes_call_int|apply goes_ret].
Qed.

Definition fired_one (e : Epoll) (events : Z) : Epoll :=
  set_fired e (mkFired (fired_mask events) fd :: drop 1 (firedevent_ e)).

Lemma poll_goes e events :
  goes (Poll e 10) (1, fired_one e events) [REvents [(fd, events)]]
    [(SysEpollWait (epfd_ e) MAX_EVENTS 10, REvents [(fd, events)])].
Proof. apply (goes_bind _ _ (REvents [(fd, events)]) _ [_] [] [_] []); [by apply goes_call|apply goes_ret]. Qed.

Lemma round_goes path s events a sc t :
  goes (dispatch (mkFired (fired_mask events) fd) (with_ep s (fired_one (ep s) events))) a sc t →
  goes (main_iter path s) a ([RErr 2] ++ [REvents [(fd, events)]] ++ sc)
    ([(SysAccess path F_OK, RErr 2)] ++ [(SysEpollWait (epfd_ (ep s)) MAX_EVENTS 10, REvents [(fd, events)])] ++ t).
Proof.
  intros H. apply (goes_bind _ _ s _ _ _ _ _ (trigger_goes path s)).
  apply (goes_bind _ _ _ _ _ _ _ _ (poll_goes (ep s) events)). cbn beta iota zeta. change (1 =? -1) with false.
  change (take (Z.to_nat 1) (firedevent_ (ep (with_ep s (fired_one (ep s) events)))))
    with [mkFired (fired_mask events) fd]. cbn [dispatch_all].
  rewrite <- (app_nil_r sc), <- (app_nil_r t). apply (goes_bind _ _ a); [done|apply goes_ret].
Qed.

(** Such a round is a step of the system. *)
Lemma event_step path s w k co p c m events a sc t y :
  kernel_ok (trace w) → client_conn s fd c → interest (trace w) !! fd = Some m →
  (has events EPOLLIN = true → has m EPOLLIN = true) → (has events EPOLLOUT = true → has m EPOLLOUT = true) →
  has events EPOLLERR = false → has events EPOLLHUP = false →
  has events EPOLLOUT = true ∨ has events EPOLLIN = true ∧ due k = true →
  goes (on_inet_conn (mkFired (fired_mask events) fd) (with_ep s (fired_one (ep s) events))) a sc t →
  flow fd (mkSock (inbox k) false, co) t y → Forall unconstrained t →
  bytes_read fd t ≠ [] ∨ bytes_written fd t ≠ [] →
  ∃ z, system_step path fd (mkSystem s w k co p) z.
Proof.
  intros Hk [] Hm Hin Hout Herr Hhup Hev Hg Hf Ht Hby. destruct y as [k' co'].
  assert (dispatch (mkFired (fired_mask events) fd) (with_ep s (fired_one (ep s) events)) =
    on_inet_conn (mkFired (fired_mask events) fd) (with_ep s (fired_one (ep s) events))) as Hd.
  { unfold dispatch. cbn [fired_fd ep with_ep inet_listen_fd unix_listen_fd unix_conn_fd fired_one set_fired].
    by rewrite !(proj2 (Z.eqb_neq _ _)). }
  rewrite <- Hd in Hg. pose proof (round_goes path s events a sc t Hg) as Hr.
  match type of Hr with goes _ _ ?x1 ?x2 => set (sc' := x1) in Hr; set (t' := x2) in Hr end.
  destruct (Hr (World sc' (errno w) (trace w)) []) as (w' & E & _ & He); [by rewrite app_nil_r|].
  destruct (Hg (World sc 0 []) []) as (w0 & E0 & _); [by rewrite app_nil_r|].
  change (trace w' = trace w ++ t') in He. eexists. eapply (step_round path fd s w k co p sc' a w' t' k' co' p); [done|done| | | |].
  - eapply flow_app; [by apply flow_once, client_clear|]. eapply flow_app; [|exact Hf].
    apply flow_once. apply (client_reported fd k _ _ _ _ events); [by left|done..].
  - rewrite He. unfold t'. rewrite !app_assoc. apply kernel_ok_unconstrained; [|done].
    assert (kernel_ok (trace w ++ [(SysAccess path F_OK, RErr 2)])) as Hk1
      by (apply kernel_ok_unconstrained; [done|by repeat constructor]).
    apply kernel_ok_snoc; [done|]. split; [apply NoDup_singleton|].
    intros fd0 e0 [= -> ->]%list_elem_of_singleton. exists m. split_and!; [|done..].
    by rewrite quiet_interest by (by repeat constructor).
  - destruct (dispatch_frame _ _ _ _ _ E0) as [_ Hu]. by apply Hu.
  - by left.
Qed.
End progress.

(** ** Every schedule answers everything *)
Section service.
Context (path : string) (fd : Z) (h : list Z * list Z) (all : list (list Z)).

(** The client is served: the requests of [all] that were not read yet are in the
    socket or still to come, and bytes that wait are announced. *)
Definition serving (x : system) : Prop :=
  ∃ c m ms, client_at fd (h.1 ++ frames all) (h.2 ++ concat all) (srv x) (wld x) (box x, coming x) c m ms ∧
    (idle c → announced (box x)).

(** A byte to come weighs more than one that waits, and that more than one held. *)
Definition weight (x : system) : nat :=
  4 * length (coming x) + 3 * length (inbox (box x)) + held_bytes (lookup_conn (srv x) fd) + patience x.

Lemma weight_conn s w k co p c :
  client_conn s fd c → weight (mkSystem s w k co p) = (4 * length co + 3 * length (inbox k) + held_bytes c + p)%nat.
Proof. intros []. unfold weight, lookup_conn. cbn [srv coming box patience]. by rewrite cc_table. Qed.

(** A frame is never incomplete. *)
Lemma incomplete_frames ms : Forall request_ok ms → incomplete (frames ms) → ms = [].
Proof.
  intros Hms Hi. destruct Hms as [|m ms [Hm _] _]; [done|]. exfalso.
  change (frames (m :: ms)) with (frame m ++ frames ms) in Hi.
  destruct Hi as [Hi|Hi]; rewrite ?header_len_frame in Hi by done; rewrite len_app, len_frame in Hi;
    pose proof (len_nonneg (frames ms)); unfold request_len_ok in Hm; lia.
Qed.

Lemma nothing_left s w k co p c m ms :
  client_at fd (h.1 ++ frames all) (h.2 ++ concat all) s w (k, co) c m ms →
  idle c → has m EPOLLIN = true → has m EPOLLOUT = false → inbox k = [] → co = [] →
  answered_all fd h all (mkSystem s w k co p).
Proof.
  intros [Hk Hinv Hc Hi Hms Hstr Hin Hout Hmode] Hidle Hm1 Hm2 Hk0 ->. cbn [fst snd] in *.
  rewrite Hk0, !app_nil_r in *. pose proof (cc_ok _ _ _ Hc) as Hok.
  assert (ms = []) as -> by (apply incomplete_frames; [done|]; rewrite <- Hstr; by apply incomplete_buffered).
  rewrite (idle_pending c Hidle) in Hout. cbn in Hout, Hstr. rewrite app_nil_r in Hout.
  pose proof (len_buffered c (read_buf_ok c Hok)) as Hl. rewrite Hstr in Hl.
  unfold answered_all. cbn [srv wld box coming]. split_and!; try done.
  - by exists c.
  - by exists m.
  - rewrite <- Hin, <- Hout. by destruct (session fd (trace w)).
Qed.

(** As long as something is left, there is a step. *)
Lemma serving_goes_on x : serving x → answered_all fd h all x ∨ ∃ y, system_step path fd x y.
Proof.
  destruct x as [s w k co p]. intros (c & m & ms & Hat & Ha). cbn [srv wld box coming] in *.
  pose proof Hat as [Hk Hinv Hc Hi Hms Hstr _ _ Hmode]. cbn [fst snd] in *.
  destruct Hmode as [(Hidle & Hm1 & Hm2)|Hpen].
  - destruct (decide (co = [])) as [Hco|Hco]; cycle 1.
    { right. pose proof (step_arrive path fd s w k co [] p Hco) as Hst. rewrite app_nil_r in Hst. eauto. }
    destruct (decide (inbox k = [])) as [Hk0|Hk0]; [left; by eapply nothing_left|right].
    destruct (Ha Hidle) as [?|Hdue]; [done|].
    destruct (read_goes fd (mkFired (fired_mask 1) fd) (with_ep s (fired_one fd (ep s) 1)) c (mkSock (inbox k) false) co ms)
      as (a & sc & t & y & Hg & Hf & Hr & Hu); try done; [by destruct Hc|].
    eapply (event_step fd path s w k co p c m 1); try done; [by right|by left].
  - right. destruct (Hinv _ _ (cc_table _ _ _ Hc)) as (_ & _ & _ & Hw & [Hidle|(Hout & _)]);
      [by rewrite (idle_pending c Hidle) in Hpen|].
    rewrite Hi in Hout. injection Hout as ->.
    destruct (write_goes fd (mkFired (fired_mask 4) fd) (with_ep s (fired_one fd (ep s) 4)) c (mkSock (inbox k) false, co))
      as (a & sc & t & y & Hg & Hf & Hr & Hu); try done; [by destruct Hc|].
    eapply (event_step fd path s w k co p c EPOLLOUT 4); try done; [by left|by right].
Qed.

(** Whatever the step is, less is left. *)
Lemma serving_step x y : serving x → system_step path fd x y → serving y ∧ (weight y < weight x)%nat.
Proof.
  intros (c & m & ms & Hat & Ha) Hst.
  destruct Hst as [s w k bs co p Hbs|s w k co p sc s' w' t k' co' p' E He Hf Hk Hu Hp];
    cbn [srv wld box coming] in *; pose proof Hat as [Hk0 Hinv Hc Hi Hms Hstr Hin Hout Hmode]; cbn [fst snd] in *.
  - split.
    + exists c, m, ms. split; [|by right]. split; cbn [fst snd inbox srv wld box coming]; rewrite <- ?app_assoc; done.
    + rewrite !(weight_conn _ _ _ _ _ c) by done. cbn [inbox]. rewrite !length_app. destruct bs; [done|]. cbn. lia.
  - set (w0 := World sc (errno w) (trace w)) in E.
    assert (client_at fd (h.1 ++ frames all) (h.2 ++ concat all) s w0 (k, co) c m ms) as Hat0 by (by split).
    destruct (round_served fd _ _ path s w0 (k, co) c m ms s' w' t (k', co') Hat0 Ha E He Hk Hu Hf)
      as (c' & m' & ms' & Hat' & Ha' & Hheld). destruct (flow_bytes _ _ _ _ Hf) as [Hby Hco]. cbn [fst snd] in *.
    split; [by exists c', m', ms'|].
    rewrite (weight_conn _ _ _ _ _ c'), (weight_conn _ _ _ _ _ c) by (apply Hat' || apply Hat).
    apply (f_equal length) in Hby. rewrite !length_app in Hby.
    destruct Hp as [[[Hp|Hp] ?]|?]; subst; try (destruct (bytes_read fd t) eqn:?, (bytes_written fd t) eqn:?; try done);
      cbn [length] in *; lia.
Qed.

Lemma serving_inevitable x : serving x → inevitably (system_step path fd) (answered_all fd h all) x.
Proof.
  apply (inevitably_measure _ serving _ weight). intros y Hy.
  destruct (serving_goes_on y Hy) as [?|Hs]; [by left|right]. split; [done|]. intros z Hz. right. by apply serving_step.
Qed.

Lemma serving_start s w k co p :
  kernel_ok (trace w) → server_inv s w → at_rest s fd → awaited fd (trace w) → announced k →
  session fd (trace w) = h → inbox k ++ co = frames all → Forall request_ok all → serving (mkSystem s w k co p).
Proof.
  intros Hk Hinv (c & Hc & Hidle & Hp) (m & Hm & Hm1 & Hm2) Ha Hh Hstr Hok. exists c, m, all. split; [|done].
  assert (buffered c = []) as Hb by (unfold buffered; by rewrite Hp).
  split; try done; cbn [srv wld box coming fst snd]; rewrite ?Hb, ?(idle_pending c Hidle), ?Hh, ?Hstr; try done.
  by left.
Qed.
End service.

(** ** Properties *)

(** C8: requests are answered, on every schedule.  A client between two requests
    sends any number of them, of any sizes that fit.  Its bytes arrive in any pieces
    at any time, a [read] finds what has arrived, a [write] takes any part of the
    reply or would block, and the rounds may serve other descriptors in any way.
    Whatever happens, the process comes to a state in which the client has been sent
    every payload, in order and once, nothing is left to read, and the client is
    between two requests and watched for input again; until then a step is always
    possible, one that brings, reads or writes bytes when the patience is used up.
    The side conditions are those of [system_step]
    and [flow]: the client stays connected (no end of file, no error other than
    [EAGAIN], no [EPOLLERR] or [EPOLLHUP]), epoll works as documented, the process
    does not end in a round and begins no upgrade, and finitely many rounds
    ([patience]) neither read nor write the client. *)
Theorem requests_served argv script0 path fd ms s w k co p :
  reachable argv script0 path [] s w → kernel_ok (trace w) →
  at_rest s fd → awaited fd (trace w) → announced k →
  inbox k ++ co = frames ms → Forall request_ok ms →
  inevitably (system_step path fd) (answered_all fd (session fd (trace w)) ms) (mkSystem s w k co p).
Proof.
  intros Hr Hk Hrest Haw Ha Hstr Hms. apply serving_inevitable. apply serving_start; try done.
  by apply (reachable_loop_inv _ _ _ _ _ _ Hr Hk).
Qed.

(** A server that has accepted one client, which sends two requests; three bytes
    are there. *)
Definition served_msgs : list (list Z) := [[104; 105]; [33]].
Definition served_start := after_rounds old_argv UNIX_CLIENT_TRIGGER 1 (old_start ++ old_accept).

Lemma requests_served_witness :
  inevitably (system_step UNIX_CLIENT_TRIGGER 5) (answered_all 5 ([], []) served_msgs)
    (mkSystem served_start.1 served_start.2 (mkSock [2; 0; 0] true) (drop 3 (frames served_msgs)) 2).
Proof.
  apply (requests_served old_argv (old_start ++ old_accept) UNIX_CLIENT_TRIGGER 5 served_msgs
    served_start.1 served_start.2).
  - apply (demo_reachable "server" _ [] _ 1). vm_compute. reflexivity.
  - apply kernel_ok_check. vm_compute. reflexivity.
  - exists (lookup_conn served_start.1 5). split; [|split; [split|]; vm_compute; reflexivity].
    split; try (vm_compute; reflexivity); try (vm_compute; discriminate).
    replace (lookup_conn served_start.1 5) with (new_InetConn 5 (ip_port_ (lookup_conn served_start.1 5)))
      by (vm_compute; reflexivity).
    apply new_InetConn_ok.
  - exists (Z.lor EPOLLIN EPOLLET). split_and!; vm_compute; reflexivity.
  - right. reflexivity.
  - reflexivity.
  - by repeat constructor.
Defined.
