(* ===== verification/Upgrade.v ===== *)
(** * The upgrade from end to end

    Both processes of [hot_upgrade_demo/server.cc] around one client: the old one
    gives the session away between two requests, the new one receives it and
    answers what the client sends next.  What connects the two is the Unix socket:
    the bytes and the descriptor that one put on it, the other took from it. *)

From S2P Require Import Prelude Sys InetConn InetSocket UnixSocket Epoll UnixClient UnixConn Handover.
From S2P Require Import Server ServerInv ServerProps ServerTheorems Session EdgeTrigger ClientFlow Serving.

(** ** The old process *)




(** ** The new process *)











(** ** Properties *)






