(* ===== verification/Client.v ===== *)
(** * The echo client

    Models [hot_upgrade_demo/client.cc]: ten connections that send the request
    "message" in turn and wait for its echo.  The last section runs the client
    against the server's connection object. *)

From S2P Require Import Prelude Sys InetConn InetSocket.

Definition CLIENT_NUM : nat := 10.
Definition BUFFER_SIZE : Z := 1024.

Definition message : list Z := bytes_of_string "message".

(** The first [while]: [buf] is the part of [write_buf] that is initialised. *)
Definition write_loop (client_fd : Z) (buf : list Z) : M () :=
  loop (λ write_pos,
    if write_pos <? len buf then
      nwrite ← sys_write client_fd (drop (Z.to_nat write_pos) buf);
      if nwrite =? -1 then
        e ← get_errno;
        if e =? EAGAIN then mret (inl write_pos) else exit (-1)
      else mret (inl (write_pos + nwrite))
    else mret (inr ())) 0.

(** The second [while]: the bytes in [read_buf] up to [read_pos].  An end of
    file is a read of 0 bytes like any other. *)
Definition read_loop (client_fd target_read_pos : Z) : M (list Z) :=
  loop (λ got : list Z,
    if len got <? target_read_pos then
      '(nread, bs) ← sys_read client_fd (BUFFER_SIZE - len got);
      if nread =? -1 then
        e ← get_errno;
        if e =? EAGAIN then mret (inl got) else exit (-1)
      else mret (inl (got ++ bs))
    else mret (inr got)) [].

(** Declared [int] without a [return]; no caller uses the value.  The result
    here is what the last [printf] is given. *)
Definition client_echo_request (client_fd : Z) : M (list Z) :=
  let request_len := len message in
  let write_buf := le_bytes 4 request_len ++ message in
  _ ← write_loop client_fd write_buf;
  read_buf ← read_loop client_fd (len message);
  _ ← call_int SysTime;
  mret read_buf.

(** The [for] loops of [main]. *)
Fixpoint open_clients (n : nat) : M (list Z) :=
  match n with
  | O => mret []
  | S n =>
      fd ← inet_client_conn "127.0.0.1" 9221;
      if fd <? 0 then exit (-1) else fds ← open_clients n; mret (fd :: fds)
  end.

Fixpoint echo_all (client_fds : list Z) : M () :=
  match client_fds with
  | [] => mret ()
  | fd :: fds => _ ← client_echo_request fd; echo_all fds
  end.

Definition client_main : M () :=
  client_fds ← open_clients CLIENT_NUM;
  loop (λ _, _ ← echo_all client_fds; mret (inl ())) ().

#[export] Instance honest_write_loop fd b : Honest (write_loop fd b).
Proof. unfold write_loop. apply honest_loop. intros. solve_honest. Qed.
#[export] Instance honest_read_loop fd n : Honest (read_loop fd n).
Proof. unfold read_loop. apply honest_loop. intros. solve_honest. Qed.
#[export] Instance honest_client_echo_request fd : Honest (client_echo_request fd).
Proof. unfold client_echo_request. cbn zeta. solve_honest. Qed.
#[export] Instance honest_echo_all fds : Honest (echo_all fds).
Proof. induction fds; cbn; solve_honest. Qed.

#[export] Instance writes_write_loop fd b : Emits is_write (write_loop fd b).
Proof. unfold write_loop. solve_emits. Qed.
#[export] Instance reads_read_loop fd n : Emits is_read (read_loop fd n).
Proof. unfold read_loop. solve_emits. Qed.

(** ** The loops *)

(** Only -1 is an exit code, and only after an error that is not [EAGAIN]. *)
Definition gave_up (c : Z) (w : world) : Prop := c = -1 ∧ errno w ≠ EAGAIN.

Lemma write_loop_spec fd buf w :
  wp (write_loop fd buf) (λ o, ∃ t rest, extends w (final o) t ∧ buf = bytes_written fd t ++ rest ∧
    match o with
    | Done _ _ => rest = []
    | Exited c w' => gave_up c w'
    | Blocked _ => True
    | _ => False
    end) w.
Proof.
  unfold write_loop.
  apply (loop_rule _ (λ pos w1, ∃ t, extends w w1 t ∧ 0 ≤ pos ≤ len buf ∧
    buf = bytes_written fd t ++ drop (Z.to_nat pos) buf)).
  2: { exists []. split; [apply extends_refl|]. split; [split; [done|apply len_nonneg]|done]. }
  intros pos w1 (t & He & Hp & Hb). wp_step; breflect; [|wp_step].
  2: { exists t, []. rewrite drop_ge in Hb by (unfold len in *; lia). done. }
  assert (∀ r, extends w (answered (SysWrite fd (drop (Z.to_nat pos) buf)) r w1)
    (t ++ [(SysWrite fd (drop (Z.to_nat pos) buf), r)])) as He1 by (intros; by eapply extends_trans).
  wp_step. wp_step; [by eauto| |].
  - cbn. wp_steps; breflect.
    + split; [|by eapply answered_shorter]. eexists. split; [apply He1|]. split; [done|].
      rewrite bytes_written_app. cbn. by rewrite app_nil_r.
    + eexists _, (drop (Z.to_nat pos) buf). split; [apply He1|]. rewrite bytes_written_app. cbn.
      rewrite (app_nil_r (bytes_written fd t)). split; [exact Hb|]. by split.
  - rewrite (proj2 (Z.eqb_neq k (-1))) by lia. wp_step.
    split; [|by eapply answered_shorter]. eexists. split; [apply He1|].
    unfold len in *. rewrite length_drop in Hk. split; [lia|].
    rewrite bytes_written_app, bytes_written_int, <- app_assoc.
    rewrite Z2Nat.inj_add, <- drop_drop, take_drop by lia. done.
Qed.

Lemma read_loop_spec fd n w :
  0 ≤ n ≤ BUFFER_SIZE →
  wp (read_loop fd n) (λ o, ∃ t, extends w (final o) t ∧ all_bytes (bytes_read fd t) = true ∧
    match o with
    | Done got _ => got = bytes_read fd t ∧ n ≤ len got ≤ BUFFER_SIZE
    | Exited c w' => gave_up c w' ∧ len (bytes_read fd t) < n
    | Blocked _ => len (bytes_read fd t) < n
    | _ => False
    end) w.
Proof.
  intros Hn. unfold read_loop.
  apply (loop_rule _ (λ got w1, ∃ t, extends w w1 t ∧ got = bytes_read fd t ∧
    all_bytes got = true ∧ len got ≤ BUFFER_SIZE)).
  2: { exists []. split_and!; try done. apply extends_refl. }
  intros got w1 (t & He & -> & Hb & Hl). set (cnt := BUFFER_SIZE - len (bytes_read fd t)).
  assert (∀ r, extends w (answered (SysRead fd cnt) r w1)
    (t ++ [(SysRead fd cnt, r)])) as He1 by (intros; by eapply extends_trans).
  wp_step; breflect; [|wp_step; exists t; split_and!; done].
  wp_step. wp_step; [exists t; done| |].
  - assert (bytes_read fd (t ++ [(SysRead fd cnt, RErr e)]) = bytes_read fd t) as Hr
      by (rewrite bytes_read_app; cbn; by rewrite app_nil_r).
    cbn. wp_steps; breflect; [split; [|by eapply answered_shorter]|];
      (eexists; split; [apply He1|]; rewrite Hr; done).
  - assert (bytes_read fd (t ++ [(SysRead fd cnt, RData bs)]) = bytes_read fd t ++ bs) as Hr
      by (by rewrite bytes_read_app, bytes_read_data).
    pose proof (len_nonneg bs). rewrite (proj2 (Z.eqb_neq _ _)) by lia. wp_step.
    split; [|by eapply answered_shorter]. eexists. split; [apply He1|]. rewrite Hr, len_app.
    split_and!; [done|by rewrite all_bytes_app, Hb|unfold cnt in *; lia].
Qed.

(** The whole of one request. *)
Definition echo_post (fd : Z) (w : world) (o : outcome (list Z)) : Prop :=
  ∃ t, extends w (final o) t ∧
  match o with
  | Done got _ => bytes_written fd t = frame message ∧ bytes_read fd t = got ∧
      len message ≤ len got ≤ BUFFER_SIZE
  | Exited c w' => gave_up c w' ∧ len (bytes_read fd t) < len message
  | Blocked _ => bytes_read fd t = [] ∨ bytes_written fd t = frame message
  | _ => False
  end.

Lemma client_echo_request_spec fd w : echo_post fd w (client_echo_request fd w).
Proof.
  apply (wp_mono (client_echo_request fd) (echo_post fd w)); [|done].
  unfold client_echo_request. cbn zeta. wp_step.
  pose proof (write_loop_spec fd (le_bytes 4 (len message) ++ message) w) as Hw.
  pose proof (emits_extends is_write (write_loop fd (le_bytes 4 (len message) ++ message)) w) as Ho.
  unfold wp in *. destruct Hw as (t1 & rest & He1 & Hb1 & Hc).
  pose proof (only_write_read fd _ (Ho _ He1)) as Hr1.
  destruct (write_loop _ _ w) as [u w1|c w1| |w1|]; try done.
  2: { exists t1. split; [done|]. rewrite Hr1. done. }
  2: { exists t1. split; [done|]. by left. }
  subst rest. rewrite app_nil_r in Hb1. unfold mbind at 1, M_bind at 1.
  pose proof (read_loop_spec fd (len message) w1 ltac:(done)) as (t2 & He2 & _ & Hc2).
  pose proof (emits_extends is_read (read_loop fd (len message)) w1 t2 He2) as Hw2.
  apply (only_read_written fd) in Hw2.
  assert (bytes_written fd (t1 ++ t2) = frame message) as Hbw
    by (rewrite bytes_written_app, Hw2, app_nil_r; done).
  assert (bytes_read fd (t1 ++ t2) = bytes_read fd t2) as Hbr by (by rewrite bytes_read_app, Hr1).
  unfold wp in *. destruct (read_loop fd (len message) w1) as [got w2|c w2| |w2|]; try done.
  2,3: exists (t1 ++ t2); rewrite ?Hbr, ?Hbw; (split; [by eapply extends_trans|auto]).
  apply (wp_call_int SysTime (λ o, echo_post fd w
    match o with
    | Done _ w' => Done got w' | Exited c w' => Exited c w' | Faulted f w' => Faulted f w'
    | Blocked w' => Blocked w' | NoFuel w' => NoFuel w' end) w2).
  - exists (t1 ++ t2). rewrite Hbw. split; [by eapply extends_trans|auto].
  - intros r s _ _. exists ((t1 ++ t2) ++ [(SysTime, r)]).
    split; [eapply extends_trans; [by eapply extends_trans|done]|].
    rewrite bytes_written_app, bytes_read_app, Hbw, Hbr. cbn. rewrite !app_nil_r.
    destruct Hc2 as [-> ?]. done.
Qed.

(** ** Properties *)

(** One request of the client.  Whatever the kernel answers, a request
    that completes has written exactly the frame of "message", however [write]
    split it, and has read between 7 and 1024 bytes, all of which it keeps; it
    gives up only on an error other than [EAGAIN], never overruns its buffer,
    and reads nothing before the request is written. *)
Theorem client_request_exact fd w : echo_post fd w (client_echo_request fd w).
Proof. exact (client_echo_request_spec fd w). Qed.

(** The client waits for ever for a server that closed the connection:
    with nothing but ends of file from [read], the request does not complete
    and uses up every answer. *)
Theorem client_spins_on_eof fd n w :
  script w = RInt 11 :: replicate n (RData []) →
  ∃ w', client_echo_request fd w = Blocked w' ∧ script w' = [] ∧
    trace w' = trace w ++ (SysWrite fd (frame message), RInt 11) ::
                 replicate n (SysRead fd BUFFER_SIZE, RData []).
Proof.
  intros Hs. unfold client_echo_request. cbn zeta.
  set (w1 := answered (SysWrite fd (frame message)) (RInt 11) w).
  assert (write_loop fd (le_bytes 4 (len message) ++ message) w = Done () w1) as Hw.
  { unfold write_loop, loop. rewrite Hs. cbn [length]. cbn [loop_n].
    change (0 <? len (le_bytes 4 (len message) ++ message)) with true. cbn beta iota.
    unfold sys_write, call_int. unfold mbind, M_bind, call. rewrite Hs. cbn beta iota.
    change (answers _ (RInt 11)) with true. reflexivity. }
  rewrite (bind_done _ _ _ _ _ Hw).
  assert (∀ m k w1, script w1 = replicate m (RData []) → (m < k)%nat → ∃ w', script w' = [] ∧
    trace w' = trace w1 ++ replicate m (SysRead fd BUFFER_SIZE, RData []) ∧
    loop_n k (λ got : list Z,
      if len got <? len message then
        '(nread, bs) ← sys_read fd (BUFFER_SIZE - len got);
        if nread =? -1 then
          e ← get_errno; if e =? EAGAIN then mret (inl got) else exit (-1)
        else mret (inl (got ++ bs))
      else mret (inr got)) [] w1 = Blocked w') as Hspin.
  { clear. induction m as [|m IH]; intros [|k] w1 Hs Hk; try lia; cbn [loop_n];
      change (len [] <? len message) with true; unfold sys_read, mbind, M_bind, call; cbn beta iota;
      rewrite Hs; cbn.
    - exists w1. by rewrite app_nil_r.
    - destruct (IH k (answered (SysRead fd BUFFER_SIZE) (RData []) w1)) as (w' & H1 & H2 & H3);
        [by cbn; rewrite Hs|lia|].
      exists w'. split; [done|]. split; [|exact H3]. rewrite H2. cbn. by rewrite <- app_assoc. }
  destruct (Hspin n (S (length (script w1))) w1) as (w' & H1 & H2 & H3);
    [by cbn; rewrite Hs|cbn; rewrite Hs; cbn; rewrite length_replicate; lia|].
  exists w'. split; [|split; [done|by rewrite H2; cbn; rewrite <- app_assoc]].
  unfold mbind, M_bind. unfold read_loop, loop. by rewrite H3.
Qed.

Lemma client_spins_on_eof_witness :
  ∃ w', client_echo_request 5 (World [RInt 11; RData []; RData []] 0 []) = Blocked w' ∧ script w' = [] ∧
    trace w' = [] ++ (SysWrite 5 (frame message), RInt 11) ::
                 replicate 2 (SysRead 5 BUFFER_SIZE, RData []).
Proof. apply (client_spins_on_eof 5 2 (World [RInt 11; RData []; RData []] 0 [])). reflexivity. Defined.

(** C16: client and server understand each other.  If the server's connection
    was quiescent, both completed their part, and each read what the other
    wrote (possibly not all of it yet), then the client got exactly "message"
    back and nothing is left in either direction. *)
Theorem client_server_echo cfd w1 got w1' c w2 c' w2' to_server to_client :
  client_echo_request cfd w1 = Done got w1' →
  read_ok c → buffered c = [] → last_write_pos_ c = 0 →
  serve_request c w2 = Done (kReadAll, Some kWriteAll, c') w2' →
  (∃ t1 t2, extends w1 w1' t1 ∧ extends w2 w2' t2 ∧
     bytes_written cfd t1 = bytes_read (fd_ c) t2 ++ to_server ∧
     bytes_written (fd_ c) t2 = bytes_read cfd t1 ++ to_client) →
  got = message ∧ to_server = [] ∧ to_client = [] ∧ buffered c' = [] ∧ reply_ c' = [].
Proof.
  intros E1 Hc Hb Hw E2 (t1 & t2 & He1 & He2 & Hs & Hcl).
  destruct (client_echo_request_spec cfd w1) as (u1 & Hu1 & P1). rewrite E1 in Hu1, P1.
  rewrite (extends_inj _ _ _ _ Hu1 He1) in P1. destruct P1 as (Hwr & <- & Hlen).
  destruct (serve_request_spec c w2 c' w2' Hc Hb Hw E2) as (u2 & Hu2 & HF & Hok & _ & Hb' & Hr' & _).
  rewrite (extends_inj _ _ _ _ Hu2 He2) in HF, Hok.
  rewrite Hwr, HF in Hs. symmetry in Hs.
  rewrite <- (app_nil_r (frame message)) in Hs.
  apply frame_stream_inj in Hs as [Hm ->]; [|done..].
  rewrite Hm in Hcl. assert (to_client = []) as ->.
  { apply (f_equal len) in Hcl. rewrite len_app in Hcl. destruct to_client; [done|].
    unfold len in *. cbn [length] in Hcl. lia. }
  rewrite app_nil_r in Hcl. done.
Qed.

Definition demo_client : outcome (list Z) :=
  run (client_echo_request 5) [RInt 3; RErr EAGAIN; RInt 8; RData (take 2 message); RData (drop 2 message); RInt 0].
Definition demo_server : outcome (ReadStatus * option WriteStatus * InetConn) :=
  run (serve_request (new_InetConn 7 "c"))
    [RData [7; 0]; RData [0; 0]; RData (take 5 message); RErr EAGAIN; RData (drop 5 message); RInt 7].

Lemma client_server_echo_witness :
  let got := value [] demo_client in
  let c' := (value (kReadHalf, None, new_InetConn 0 "") demo_server).2 in
  got = message ∧ @nil Z = [] ∧ @nil Z = [] ∧ buffered c' = [] ∧ reply_ c' = [].
Proof.
  cbn zeta. apply (client_server_echo 5 (World (map snd (trace (final demo_client))) 0 [])
    (value [] demo_client) (final demo_client) (new_InetConn 7 "c")
    (World (map snd (trace (final demo_server))) 0 [])
    (value (kReadHalf, None, new_InetConn 0 "") demo_server).2 (final demo_server) [] []);
    [vm_compute; reflexivity|apply new_InetConn_ok|reflexivity|reflexivity|vm_compute; reflexivity|].
  exists (trace (final demo_client)), (trace (final demo_server)).
  split; [reflexivity|]. split; [reflexivity|]. split; vm_compute; reflexivity.
Defined.
