(* ===== verification/Rio.v ===== *)
(** * Robust I/O

    Models [csapp/system_io/rio.cc] with the [rio_t] of [csapp/csapp.h]:
    unbuffered [rio_readn] and [rio_writen], and the buffered reader behind
    [rio_readlineb] and [rio_readnb]. *)

From S2P Require Import Prelude Sys.

Definition RIO_BUFSIZE : Z := 8192.
Definition MAXLINE : Z := 8192.
Definition NEWLINE : Z := 10.

(** [rio_bufptr] is kept as an offset into [rio_buf]. *)
Record rio_t := mkRio {
  rio_fd : Z;
  rio_cnt : Z;
  rio_bufptr : Z;
  rio_buf : list Z
}.

(** The return value and what was stored in [usrbuf]. *)
Definition rio_readn (fd n : Z) : M (Z * list Z) :=
  loop (λ got : list Z,
    let nleft := n - len got in
    if 0 <? nleft then
      '(nread, bs) ← sys_read fd nleft;
      if nread <? 0 then
        e ← get_errno;
        if e =? EINTR then mret (inl got) else mret (inr (-1, got))
      else if nread =? 0 then mret (inr (n - nleft, got))
      else mret (inl (got ++ bs))
    else mret (inr (n - nleft, got))) [].

(** A result of 0 is treated like an error, with whatever [errno] is left from
    an earlier call. *)
Definition rio_writen (fd : Z) (usrbuf : list Z) : M Z :=
  let n := len usrbuf in
  loop (λ nleft,
    if 0 <? nleft then
      nwritten ← sys_write fd (drop (Z.to_nat (n - nleft)) usrbuf);
      if nwritten <=? 0 then
        e ← get_errno;
        if e =? EINTR then mret (inl nleft) else mret (inr (-1))
      else mret (inl (nleft - nwritten))
    else mret (inr n)) n.

Definition rio_readinitb (rp : rio_t) (fd : Z) : rio_t := mkRio fd 0 0 (rio_buf rp).

(** The [while (rp->rio_cnt <= 0)] loop of [rio_read]: [Some v] is a [return]. *)
Definition rio_refill (rp : rio_t) : M (option Z * rio_t) :=
  loop (λ rp,
    if rio_cnt rp <=? 0 then
      '(cnt, bs) ← sys_read (rio_fd rp) RIO_BUFSIZE;
      let rp := mkRio (rio_fd rp) cnt (rio_bufptr rp) (store_at (rio_buf rp) 0 bs) in
      if rio_cnt rp <? 0 then
        e ← get_errno;
        if negb (e =? EINTR) then mret (inr (Some (-1), rp)) else mret (inl rp)
      else if rio_cnt rp =? 0 then mret (inr (Some 0, rp))
      else mret (inl (mkRio (rio_fd rp) (rio_cnt rp) 0 (rio_buf rp)))
    else mret (inr (None, rp))) rp.

Definition rio_read (rp : rio_t) (n : Z) : M (Z * list Z * rio_t) :=
  '(st, rp) ← rio_refill rp;
  match st with
  | Some v => mret (v, [], rp)
  | None =>
      let cnt := i32 n in
      let cnt := if rio_cnt rp <? n then rio_cnt rp else cnt in
      let usrbuf := take (Z.to_nat cnt) (drop (Z.to_nat (rio_bufptr rp)) (rio_buf rp)) in
      mret (cnt, usrbuf, mkRio (rio_fd rp) (rio_cnt rp - cnt) (rio_bufptr rp + cnt) (rio_buf rp))
  end.

(** [k] is the number of rounds the [for] loop has left, [acc] what was stored;
    the result is the return value, the contents of [usrbuf] and the reader. *)
Fixpoint readline_loop (k : nat) (n : Z) (acc : list Z) (rp : rio_t) : M (Z * list Z * rio_t) :=
  match k with
  | O => mret (n, acc ++ [0], rp)
  | S k =>
      '(rc, bs, rp) ← rio_read rp 1;
      if rc =? 1 then
        let c := default 0 (head bs) in
        if c =? NEWLINE then mret (n, (acc ++ [c]) ++ [0], rp)
        else readline_loop k (n + 1) (acc ++ [c]) rp
      else if rc =? 0 then
        if n =? 1 then mret (0, acc, rp) else mret (n, acc ++ [0], rp)
      else mret (-1, acc, rp)
  end.

Definition rio_readlineb (rp : rio_t) (maxlen : Z) : M (Z * list Z * rio_t) :=
  readline_loop (Z.to_nat (maxlen - 1)) 1 [] rp.

Definition no_fuel {A} : M A := λ w, NoFuel w.

(** Every round but the last delivers at least one byte, so [n + 1] rounds are
    enough; [readnb_loop_spec] shows it. *)
Fixpoint readnb_loop (k : nat) (n : Z) (got : list Z) (rp : rio_t) : M (Z * list Z * rio_t) :=
  match k with
  | O => no_fuel
  | S k =>
      let nleft := n - len got in
      if 0 <? nleft then
        '(nread, bs, rp) ← rio_read rp nleft;
        if nread <? 0 then
          e ← get_errno;
          if e =? EINTR then readnb_loop k n got rp else mret (-1, got, rp)
        else if nread =? 0 then mret (n - nleft, got, rp)
        else readnb_loop k n (got ++ bs) rp
      else mret (n - nleft, got, rp)
  end.

Definition rio_readnb (rp : rio_t) (n : Z) : M (Z * list Z * rio_t) :=
  readnb_loop (S (Z.to_nat n)) n [] rp.

#[export] Instance honest_rio_writen fd b : Honest (rio_writen fd b).
Proof. unfold rio_writen. apply honest_loop. intros. solve_honest. Qed.
#[export] Instance honest_rio_refill rp : Honest (rio_refill rp).
Proof. unfold rio_refill. apply honest_loop. intros. cbn zeta. solve_honest. Qed.
#[export] Instance honest_rio_read rp n : Honest (rio_read rp n).
Proof. unfold rio_read. cbn zeta. solve_honest. Qed.
#[export] Instance honest_readline_loop k n acc rp : Honest (readline_loop k n acc rp).
Proof.
  revert n acc rp. induction k as [|k IH]; intros n acc rp; cbn [readline_loop]; cbn zeta; solve_honest.
Qed.
#[export] Instance honest_rio_readlineb rp maxlen : Honest (rio_readlineb rp maxlen).
Proof. unfold rio_readlineb. apply _. Qed.

(** ** Unbuffered transfers *)

(** The last call was a [read] that met the end of the file, or failed. *)
Definition ends_with (c : syscall) (r : reply) (t : list event) : Prop :=
  ∃ t0, t = t0 ++ [(c, r)].
Definition eof_seen (fd : Z) (t : list event) : Prop := ∃ n, ends_with (SysRead fd n) (RData []) t.
Definition read_failed (fd : Z) (t : list event) : Prop :=
  ∃ n e, ends_with (SysRead fd n) (RErr e) t ∧ e ≠ EINTR.

Definition readn_post (fd n : Z) (w : world) (o : outcome (Z * list Z)) : Prop :=
  ∃ t, extends w (final o) t ∧
  match o with
  | Done (v, got) _ => got = bytes_read fd t ∧ len got ≤ n ∧
      (v = len got ∧ (len got < n → eof_seen fd t) ∨ v = -1 ∧ read_failed fd t)
  | Blocked _ => len (bytes_read fd t) < n
  | _ => False
  end.

Lemma bytes_read_snoc_err fd t n e :
  bytes_read fd (t ++ [(SysRead fd n, RErr e)]) = bytes_read fd t.
Proof. rewrite bytes_read_app. cbn. by rewrite app_nil_r. Qed.

Lemma bytes_read_snoc fd t n bs :
  bytes_read fd (t ++ [(SysRead fd n, RData bs)]) = bytes_read fd t ++ bs.
Proof. by rewrite bytes_read_app, bytes_read_data. Qed.

Lemma rio_readn_spec fd n w : 0 ≤ n → wp (rio_readn fd n) (readn_post fd n w) w.
Proof.
  intros Hn. unfold rio_readn. apply (loop_rule _ (λ got w1, ∃ t, extends w w1 t ∧
    got = bytes_read fd t ∧ len got ≤ n)).
  2: { exists []. split_and!; try done. apply extends_refl. }
  intros got w1 (t & He & -> & Hl). cbn zeta. wp_step; breflect; [|wp_step].
  2: { exists t. split_and!; try done. left. split; lia. }
  assert (∀ r, extends w (answered (SysRead fd (n - len (bytes_read fd t))) r w1)
    (t ++ [(SysRead fd (n - len (bytes_read fd t)), r)])) as He1 by (intros; by eapply extends_trans).
  wp_step. wp_step; [exists t; split; [done|lia]| |].
  - wp_steps; breflect; try lia.
    + split; [|by eapply answered_shorter]. eexists. split; [apply He1|].
      rewrite bytes_read_snoc_err. done.
    + eexists. split; [apply He1|]. rewrite bytes_read_snoc_err. split_and!; try done.
      right. split; [done|]. eexists _, e. split; [by eexists|]. done.
  - pose proof (len_nonneg bs). rewrite (proj2 (Z.ltb_ge _ _)) by lia. wp_step; breflect; wp_step.
    + assert (bs = []) as -> by (by destruct bs). eexists. split; [apply He1|].
      rewrite bytes_read_snoc, app_nil_r. split_and!; try done. left. split; [lia|].
      intros _. eexists. by eexists.
    + split; [|by eapply answered_shorter]. eexists. split; [apply He1|].
      rewrite bytes_read_snoc, len_app. split; [done|lia].
Qed.

Definition write_failed (fd : Z) (t : list event) : Prop :=
  ∃ bs r, ends_with (SysWrite fd bs) r t ∧ (r = RInt 0 ∨ ∃ e, r = RErr e ∧ e ≠ EINTR).

Definition writen_post (fd : Z) (usrbuf : list Z) (w : world) (o : outcome Z) : Prop :=
  ∃ t rest, extends w (final o) t ∧ usrbuf = bytes_written fd t ++ rest ∧
  match o with
  | Done v _ => v = len usrbuf ∧ rest = [] ∨ v = -1 ∧ rest ≠ [] ∧ write_failed fd t
  | Blocked _ => rest ≠ []
  | _ => False
  end.

Lemma rio_writen_spec fd usrbuf w : wp (rio_writen fd usrbuf) (writen_post fd usrbuf w) w.
Proof.
  unfold rio_writen. cbn zeta. apply (loop_rule _ (λ nleft w1, ∃ t, extends w w1 t ∧
    0 ≤ nleft ≤ len usrbuf ∧
    usrbuf = bytes_written fd t ++ drop (Z.to_nat (len usrbuf - nleft)) usrbuf)).
  2: { exists []. split; [apply extends_refl|]. rewrite Z.sub_diag. split; [|done].
       split; [apply len_nonneg|lia]. }
  intros nleft w1 (t & He & Hn & Hb).
  set (rest := drop (Z.to_nat (len usrbuf - nleft)) usrbuf) in *.
  assert (len rest = nleft) as Hrest by (unfold rest, len in *; rewrite length_drop; lia).
  assert (0 < nleft → rest ≠ []) as Hne by (intros H E; rewrite E in Hrest; unfold len in Hrest; cbn in Hrest; lia).
  assert (∀ r, extends w (answered (SysWrite fd rest) r w1) (t ++ [(SysWrite fd rest, r)])) as He1
    by (intros; by eapply extends_trans).
  wp_step; breflect; [|wp_step; exists t, rest; split_and!; try done; left; split; [done|]].
  2: { unfold len in *. destruct rest; [done|]. cbn in Hrest. lia. }
  assert (∀ r, take (Z.to_nat (ret_of r)) rest = [] →
    usrbuf = bytes_written fd (t ++ [(SysWrite fd rest, r)]) ++ rest) as Hsame.
  { intros r H0. rewrite bytes_written_app. cbn. destruct r; rewrite ?Z.eqb_refl, ?app_nil_r; try done.
    cbn in H0. rewrite H0, app_nil_r. done. }
  wp_step. wp_step; [exists t, rest; auto| |].
  - wp_steps; breflect; try lia.
    + split; [|by eapply answered_shorter]. eexists. split; [apply He1|]. split; [done|]. by apply Hsame.
    + eexists _, rest. split; [apply He1|]. split; [by apply Hsame|]. right. split_and!; [done|auto|].
      eexists _, (RErr e). split; [by eexists|]. right. eauto.
  - wp_step; breflect.
    + assert (k = 0) as -> by lia. wp_steps; breflect.
      * split; [|by eapply answered_shorter]. eexists. split; [apply He1|]. split; [done|]. by apply Hsame.
      * eexists _, rest. split; [apply He1|]. split; [by apply Hsame|]. right. split_and!; [done|auto|].
        eexists _, (RInt 0). split; [by eexists|]. by left.
    + wp_step. split; [|by eapply answered_shorter]. eexists. split; [apply He1|]. split; [lia|].
      rewrite bytes_written_app, bytes_written_int, <- app_assoc.
      replace (Z.to_nat (len usrbuf - (nleft - k))) with (Z.to_nat (len usrbuf - nleft) + Z.to_nat k)%nat by lia.
      rewrite <- drop_drop. fold rest. by rewrite take_drop.
Qed.

(** ** The buffered reader *)

Definition unread (rp : rio_t) : list Z :=
  take (Z.to_nat (rio_cnt rp)) (drop (Z.to_nat (rio_bufptr rp)) (rio_buf rp)).

Record rio_ok (rp : rio_t) : Prop := {
  ok_ptr : 0 ≤ rio_bufptr rp;
  ok_cnt : -1 ≤ rio_cnt rp;
  ok_end : rio_bufptr rp + Z.max 0 (rio_cnt rp) ≤ len (rio_buf rp);
  ok_buf : len (rio_buf rp) ≤ RIO_BUFSIZE
}.

Lemma rio_readinitb_ok rp fd :
  len (rio_buf rp) ≤ RIO_BUFSIZE → rio_ok (rio_readinitb rp fd) ∧ unread (rio_readinitb rp fd) = [].
Proof. intros. split; [split; cbn; pose proof (len_nonneg (rio_buf rp)); lia|done]. Qed.

Lemma unread_empty rp : rio_cnt rp ≤ 0 → unread rp = [].
Proof. intros. unfold unread. by replace (Z.to_nat (rio_cnt rp)) with O by lia. Qed.

Lemma len_unread rp : rio_ok rp → 0 ≤ rio_cnt rp → len (unread rp) = rio_cnt rp.
Proof.
  intros [? ? He ?] ?. unfold unread, len in *. rewrite length_take, length_drop. lia.
Qed.

Lemma store_at_nil buf : store_at buf 0 [] = buf.
Proof. by destruct buf. Qed.

(** What a successful [read] leaves in the buffer. *)
Lemma refilled rp bs :
  rio_ok rp → len bs ≤ RIO_BUFSIZE →
  rio_ok (mkRio (rio_fd rp) (len bs) 0 (store_at (rio_buf rp) 0 bs)) ∧
  unread (mkRio (rio_fd rp) (len bs) 0 (store_at (rio_buf rp) 0 bs)) = bs.
Proof.
  intros [] Hl. split.
  - pose proof (length_store_at (rio_buf rp) 0 bs). split; cbn; unfold len in *; lia.
  - unfold unread. cbn [rio_cnt rio_bufptr rio_buf]. unfold len. rewrite Nat2Z.id.
    change (drop (Z.to_nat 0) ?l) with l. exact (take_store_at (rio_buf rp) 0 bs ltac:(lia)).
Qed.

Lemma rio_ok_stop rp cnt :
  rio_ok rp → -1 ≤ cnt ≤ 0 → rio_ok (mkRio (rio_fd rp) cnt (rio_bufptr rp) (rio_buf rp)).
Proof. intros [] ?. split; cbn; lia. Qed.

Definition refill_post (rp : rio_t) (w : world) (o : outcome (option Z * rio_t)) : Prop :=
  ∃ t, extends w (final o) t ∧
  match o with
  | Done (st, rp') _ => rio_ok rp' ∧ rio_fd rp' = rio_fd rp ∧
      unread rp' = unread rp ++ bytes_read (rio_fd rp) t ∧
      match st with
      | None => 0 < rio_cnt rp'
      | Some v => rio_cnt rp ≤ 0 ∧ unread rp' = [] ∧
          (v = 0 ∧ eof_seen (rio_fd rp) t ∨ v = -1 ∧ read_failed (rio_fd rp) t)
      end
  | Blocked _ => unread rp ++ bytes_read (rio_fd rp) t = []
  | _ => False
  end.

Lemma rio_refill_spec rp w : rio_ok rp → wp (rio_refill rp) (refill_post rp w) w.
Proof.
  intros Hok. unfold rio_refill. apply (loop_rule _ (λ rp1 w1, ∃ t, extends w w1 t ∧ rio_ok rp1 ∧
    rio_fd rp1 = rio_fd rp ∧ unread rp1 = unread rp ++ bytes_read (rio_fd rp) t ∧
    (0 < rio_cnt rp1 ∨ rio_cnt rp ≤ 0))).
  2: { exists []. split; [apply extends_refl|]. rewrite app_nil_r. split_and!; try done. lia. }
  intros [fd1 cnt1 ptr buf] w1 (t & He & Hok1 & Hfd & Hu & Hc). cbn in Hfd, Hc. subst fd1.
  set (fd := rio_fd rp) in *. cbn [rio_fd rio_cnt rio_bufptr rio_buf].
  wp_step; breflect; [|wp_step; by exists t].
  assert (rio_cnt rp ≤ 0) as Hc0 by lia. rewrite unread_empty in Hu by done.
  assert (∀ r, extends w (answered (SysRead fd RIO_BUFSIZE) r w1)
    (t ++ [(SysRead fd RIO_BUFSIZE, r)])) as He1 by (intros; by eapply extends_trans).
  wp_step. cbn zeta. wp_step; [by exists t| |]; cbn [rio_fd rio_cnt rio_bufptr rio_buf].
  - rewrite store_at_nil. assert (rio_ok (mkRio fd (-1) ptr buf)) as Hok2
      by (by apply (rio_ok_stop (mkRio fd cnt1 ptr buf))).
    pose proof (bytes_read_snoc_err fd t RIO_BUFSIZE e) as Hb.
    wp_steps; breflect; try discriminate; [|split; [|by eapply answered_shorter]];
      (eexists; fold fd; rewrite Hb; split; [apply He1|]; split_and!; try done; right); [|done].
    split; [done|]. eexists _, e. split; [by eexists|]. done.
  - pose proof (len_nonneg bs). rewrite (proj2 (Z.ltb_ge _ _)) by lia. wp_step; breflect; wp_step.
    + assert (bs = []) as -> by (by destruct bs). rewrite store_at_nil. eexists. fold fd.
      split; [apply He1|]. rewrite bytes_read_snoc, app_nil_r. split_and!; try done;
        [by apply (rio_ok_stop (mkRio fd cnt1 ptr buf))|]. left. split; [done|]. eexists. by eexists.
    + split; [|by eapply answered_shorter].
      destruct (refilled (mkRio fd cnt1 ptr buf) bs Hok1 Hle) as [Hok2 Hu2]; cbn [rio_fd rio_buf] in Hok2, Hu2.
      eexists. fold fd. split; [apply He1|]. rewrite bytes_read_snoc. split_and!; try done; [|by right].
      rewrite Hu2, app_assoc, <- Hu. done.
Qed.

(** One [rio_read]: nothing of the stream is lost, duplicated or reordered. *)
Definition rio_read_post (rp : rio_t) (n : Z) (w : world) (o : outcome (Z * list Z * rio_t)) : Prop :=
  ∃ t, extends w (final o) t ∧
  match o with
  | Done (v, bs, rp') _ => rio_ok rp' ∧ rio_fd rp' = rio_fd rp ∧
      unread rp ++ bytes_read (rio_fd rp) t = bs ++ unread rp' ∧
      (v = len bs ∧ 0 < v ≤ n ∨
       bs = [] ∧ unread rp' = [] ∧ (v = 0 ∧ eof_seen (rio_fd rp) t ∨ v = -1 ∧ read_failed (rio_fd rp) t))
  | Blocked _ => unread rp ++ bytes_read (rio_fd rp) t = []
  | _ => False
  end.

Lemma rio_read_spec rp n w :
  rio_ok rp → 0 < n → wp (rio_read rp n) (rio_read_post rp n w) w.
Proof.
  intros Hok Hn. unfold rio_read. wp_step. eapply wp_mono; [by apply rio_refill_spec|].
  intros o (t & He & Ho). destruct o as [[st rp1] w1| | |w1|]; try done; [|by exists t].
  destruct Ho as (Hok1 & Hfd & Hu & Hst). destruct st as [v|].
  - destruct Hst as (_ & Hu1 & Hv). wp_step. exists t. split; [done|]. split_and!; try done.
    right. split_and!; done.
  - cbn zeta. wp_step.
    set (cnt := if rio_cnt rp1 <? n then rio_cnt rp1 else i32 n).
    assert (0 < cnt ≤ rio_cnt rp1 ∧ cnt ≤ n) as Hcnt.
    { unfold cnt. case_bool; breflect; [lia|]. destruct Hok1.
      unfold i32. unfold RIO_BUFSIZE in *. rewrite Z.mod_small; lia. }
    destruct Hok1 as [Hp Hc Hend Hbuf]. exists t. split; [done|]. cbn [rio_fd rio_cnt rio_bufptr rio_buf].
    split_and!; [split; cbn; lia|done| |].
    + rewrite <- Hu. unfold unread. cbn [rio_cnt rio_bufptr rio_buf].
      rewrite Z2Nat.inj_add, Z2Nat.inj_sub by lia. rewrite <- drop_drop.
      rewrite <- (take_drop (Z.to_nat cnt) (drop (Z.to_nat (rio_bufptr rp1)) (rio_buf rp1))) at 1.
      rewrite take_app, length_take, length_drop.
      unfold len in *. rewrite take_take. f_equal; [f_equal; lia|]. f_equal. lia.
    + left. unfold len in *. rewrite length_take, length_drop. lia.
Qed.

Lemma eof_seen_app fd t1 t2 : eof_seen fd t2 → eof_seen fd (t1 ++ t2).
Proof. intros (n & t0 & ->). exists n, (t1 ++ t0). by rewrite app_assoc. Qed.

Lemma read_failed_app fd t1 t2 : read_failed fd t2 → read_failed fd (t1 ++ t2).
Proof.
  intros (n & e & (t0 & ->) & He). exists n, e. split; [|done]. exists (t1 ++ t0). by rewrite app_assoc.
Qed.

(** What a call of [rio_readlineb] with room for [k] characters can take from
    the stream: the line, the return value, the contents of [usrbuf] and what
    stays buffered. *)
Inductive line_result (k : nat) (fd : Z) (t : list event) : list Z → Z → list Z → list Z → Prop :=
| LineFull l left :
    NEWLINE ∉ l → (length l < k)%nat → line_result k fd t (l ++ [NEWLINE]) (len l + 1) (l ++ [NEWLINE; 0]) left
| LineCut l left :
    NEWLINE ∉ l → length l = k → line_result k fd t l (len l + 1) (l ++ [0]) left
| LineEnd l :
    NEWLINE ∉ l → l ≠ [] → (length l < k)%nat → eof_seen fd t → line_result k fd t l (len l + 1) (l ++ [0]) []
| LineEof : eof_seen fd t → line_result k fd t [] 0 [] []
| LineErr l : NEWLINE ∉ l → read_failed fd t → line_result k fd t l (-1) l [].

Definition line_post (acc : list Z) (k : nat) (rp : rio_t) (w : world)
    (o : outcome (Z * list Z * rio_t)) : Prop :=
  ∃ t, extends w (final o) t ∧
  match o with
  | Done (v, stored, rp') _ => rio_ok rp' ∧ rio_fd rp' = rio_fd rp ∧
      ∃ line, acc ++ unread rp ++ bytes_read (rio_fd rp) t = line ++ unread rp' ∧
        line_result k (rio_fd rp) t line v stored (unread rp')
  | Blocked _ => NEWLINE ∉ acc ++ unread rp ++ bytes_read (rio_fd rp) t
  | _ => False
  end.

Lemma line_post_step acc k rp w c rp1 w1 t1 o :
  extends w w1 t1 → rio_fd rp1 = rio_fd rp →
  unread rp ++ bytes_read (rio_fd rp) t1 = [c] ++ unread rp1 →
  line_post (acc ++ [c]) k rp1 w1 o → line_post acc k rp w o.
Proof.
  intros He Hfd Hu (t & Ht & Ho). exists (t1 ++ t). split; [by eapply extends_trans|].
  rewrite Hfd in Ho. rewrite bytes_read_app, (app_assoc (unread rp)), Hu.
  rewrite <- (app_assoc acc), (app_assoc [c]) in Ho.
  destruct o as [[[v stored] rp'] w'| | | |]; try done.
  destruct Ho as (Hok & Hfd' & line & Hl & Hr). rewrite <- Hfd, Hfd'. split_and!; try done.
  exists line. rewrite Hfd. split; [done|]. destruct Hr.
  - by apply LineFull.
  - by apply LineCut.
  - apply LineEnd; try done. by apply eof_seen_app.
  - by apply LineEof, eof_seen_app.
  - apply LineErr; [done|]. by apply read_failed_app.
Qed.

Lemma readline_loop_spec k acc rp w :
  rio_ok rp → NEWLINE ∉ acc →
  wp (readline_loop k (len acc + 1) acc rp) (line_post acc (length acc + k) rp w) w.
Proof.
  revert acc rp w. induction k as [|k IH]; intros acc rp w Hok Hacc; cbn [readline_loop].
  - wp_step. exists []. split; [apply extends_refl|]. split_and!; try done. exists acc.
    rewrite app_nil_r. split; [done|]. apply LineCut; [done|lia].
  - wp_step. eapply wp_mono; [by apply rio_read_spec|]. intros o (t & He & Ho).
    destruct o as [[[rc bs] rp1] w1| | |w1|]; try done.
    2: { exists t. split; [done|]. by rewrite Ho, app_nil_r. }
    destruct Ho as (Hok1 & Hfd & Hu & [[-> Hrc]|(-> & Hu1 & Hrc)]).
    + assert (∃ c, bs = [c]) as [c ->].
      { unfold len in *. destruct bs as [|c [|]]; cbn in Hrc; [lia|by exists c|lia]. }
      cbn [len length]. change (len [c] =? 1) with true. cbn beta iota zeta.
      change (default 0 (head [c])) with c. wp_step; breflect.
      * wp_step. subst c. exists t. split; [done|]. split_and!; try done. exists (acc ++ [NEWLINE]).
        rewrite Hu, app_assoc. split; [done|]. rewrite <- app_assoc. apply LineFull; [done|lia].
      * eapply line_post_step in Hu; [exact Hu|done|done|].
        specialize (IH (acc ++ [c]) rp1 w1 Hok1). rewrite len_app, length_app in IH.
        change (len [c]) with 1 in IH. cbn [length] in IH.
        replace (length acc + S k)%nat with (length acc + 1 + k)%nat by lia. apply IH. set_solver.
    + assert (line_post acc (length acc + S k) rp w (Done (if rc =? -1 then -1 else if len acc + 1 =? 1 then 0
        else len acc + 1, if (rc =? -1) || (len acc + 1 =? 1) then acc else acc ++ [0], rp1) w1)) as H.
      { exists t. split; [done|]. split_and!; try done. exists acc. rewrite Hu, Hu1, !app_nil_r.
        split; [done|]. destruct Hrc as [[-> Hrc]|[-> Hrc]]; cbn; [|by apply LineErr].
        destruct acc as [|a acc]; cbn; [by apply LineEof|].
        rewrite (proj2 (Z.eqb_neq _ _)) by (unfold len; cbn; lia). apply LineEnd; try done. cbn. lia. }
      destruct Hrc as [[-> _]|[-> _]]; cbn beta iota; [|by wp_step].
      change (0 =? 1) with false. change (0 =? 0) with true. change (0 =? -1) with false in H.
      cbn beta iota. cbn [orb] in H. destruct (len acc + 1 =? 1); by wp_step.
Qed.

Lemma rio_readlineb_spec rp maxlen w :
  rio_ok rp → wp (rio_readlineb rp maxlen) (line_post [] (Z.to_nat (maxlen - 1)) rp w) w.
Proof. intros. apply (readline_loop_spec _ []); [done|set_solver]. Qed.

(** [n] bytes through the buffer. *)
Definition readnb_post (n : Z) (got : list Z) (rp : rio_t) (w : world)
    (o : outcome (Z * list Z * rio_t)) : Prop :=
  ∃ t, extends w (final o) t ∧
  match o with
  | Done (v, bs, rp') _ => rio_ok rp' ∧ rio_fd rp' = rio_fd rp ∧ len bs ≤ n ∧
      got ++ unread rp ++ bytes_read (rio_fd rp) t = bs ++ unread rp' ∧
      (v = len bs ∧ (len bs < n → eof_seen (rio_fd rp) t ∧ unread rp' = []) ∨
       v = -1 ∧ read_failed (rio_fd rp) t ∧ unread rp' = [])
  | Blocked _ => len (got ++ unread rp ++ bytes_read (rio_fd rp) t) < n
  | _ => False
  end.

Lemma read_failed_errno rp n w bs rp' w' :
  rio_ok rp → 0 < n → rio_read rp n w = Done (-1, bs, rp') w' → errno w' ≠ EINTR.
Proof.
  intros Hok Hn. unfold rio_read, mbind, M_bind.
  enough (wp (rio_refill rp) (λ o, match o with
    | Done (Some v, _) w' => v = -1 → errno w' ≠ EINTR
    | Done (None, rp') _ => 0 < rio_cnt rp' ≤ RIO_BUFSIZE
    | _ => True end) w) as H.
  { unfold wp in H. destruct (rio_refill rp w) as [[[v|] rp1] w1| | | |]; try done.
    - intros [= Hv _ _ <-]. by apply H.
    - intros [= Hv _ _ _]. exfalso. revert Hv. case_bool; breflect; [lia|].
      unfold i32, RIO_BUFSIZE in *. rewrite Z.mod_small; lia. }
  unfold rio_refill. apply (loop_rule _ (λ rp _, rio_cnt rp ≤ RIO_BUFSIZE)); [|destruct Hok; lia].
  intros rp1 w1 Hle1. wp_step; breflect; [|by wp_step]. wp_step. cbn zeta.
  wp_step; [done| |]; cbn [rio_cnt].
  - change (-1 <? 0) with true. wp_steps; breflect; [done|]. split; [unfold RIO_BUFSIZE; cbn; lia|].
    by eapply answered_shorter.
  - pose proof (len_nonneg bs0). rewrite (proj2 (Z.ltb_ge _ _)) by lia.
    wp_step; breflect; wp_step; try done. split; [done|]. by eapply answered_shorter.
Qed.

Lemma readnb_loop_spec k n got rp w :
  rio_ok rp → len got ≤ n → n - len got < Z.of_nat k →
  wp (readnb_loop k n got rp) (readnb_post n got rp w) w.
Proof.
  revert got rp w. induction k as [|k IH]; intros got rp w Hok Hg Hk; cbn [readnb_loop]; [lia|].
  cbn zeta. wp_step; breflect.
  2: { wp_step. exists []. split; [apply extends_refl|]. rewrite app_nil_r. split_and!; try done. left. lia. }
  wp_step. pose proof (rio_read_spec rp (n - len got) w Hok ltac:(lia)) as (t & He & Ho).
  pose proof (read_failed_errno rp (n - len got) w) as Herr. unfold wp in *.
  destruct (rio_read rp (n - len got) w) as [[[v bs] rp1] w1| | |w1|]; try done.
  2: { exists t. split; [done|]. rewrite Ho, app_nil_r. lia. }
  destruct Ho as (Hok1 & Hfd & Hu & [[-> Hv]|(-> & Hu1 & Hv)]).
  - rewrite (proj2 (Z.ltb_ge _ _)), (proj2 (Z.eqb_neq _ _)) by lia.
    destruct (IH (got ++ bs) rp1 w1 Hok1) as (t1 & He1 & Ho1); [rewrite len_app; lia..|].
    exists (t ++ t1). split; [by eapply extends_trans|]. rewrite Hfd in Ho1.
    rewrite bytes_read_app, (app_assoc (unread rp)), Hu, <- (app_assoc bs).
    rewrite <- (app_assoc got) in Ho1.
    destruct (readnb_loop k n (got ++ bs) rp1 w1) as [[[v bs'] rp'] w'| | | |]; try done.
    destruct Ho1 as (? & -> & ? & ? & [[? Hs]|(? & ? & ?)]); split_and!; try done; [left|right].
    + split; [done|]. intros Hlt. destruct (Hs Hlt). split; [by apply eof_seen_app|done].
    + split_and!; try done. by apply read_failed_app.
  - rewrite Hu1, app_nil_r in Hu. assert (readnb_post n got rp w
      (Done (if v =? 0 then n - (n - len got) else -1, got, rp1) w1)) as H.
    { exists t. split; [done|]. rewrite Hu, Hu1. split_and!; try done.
      destruct Hv as [[-> ?]|[-> ?]]; cbn; [left|by right]. split; [lia|done]. }
    destruct Hv as [[-> _]|[-> _]]; cbn in *; [done|].
    unfold mbind, M_bind, get_errno. rewrite (proj2 (Z.eqb_neq _ _)); [done|].
    by eapply Herr.
Qed.

Lemma rio_readnb_spec rp n w :
  rio_ok rp → 0 ≤ n → wp (rio_readnb rp n) (readnb_post n [] rp w) w.
Proof. intros. apply readnb_loop_spec; [done|done|]. change (len (@nil Z)) with 0. lia. Qed.

(** ** Lines in a stream *)

Lemma newline_split (l l' r r' : list Z) :
  NEWLINE ∉ l → NEWLINE ∉ l' → l ++ NEWLINE :: r = l' ++ NEWLINE :: r' → l = l' ∧ r = r'.
Proof.
  revert l'. induction l as [|a l IH]; intros [|b l'] Hl Hl' E; cbn in E.
  - by injection E.
  - injection E as <- _. set_solver.
  - injection E as -> _. set_solver.
  - injection E as -> E. destruct (IH l') as [-> ->]; [set_solver..|done|done].
Qed.

Lemma newline_prefix (l l' r r' : list Z) :
  NEWLINE ∉ l' → l' ++ r' = l ++ NEWLINE :: r → (length l' ≤ length l)%nat.
Proof.
  intros Hl' E. destruct (decide (length l' ≤ length l)%nat) as [|Hlt]; [done|].
  exfalso. apply Hl'. apply (f_equal (lookup (length l))) in E.
  rewrite lookup_app_l, list_lookup_middle in E by (done || lia).
  by eapply list_elem_of_lookup_2.
Qed.

(** ** Properties *)

(** [rio_readn] returns the bytes of the descriptor in order; a short count
    means that the end of the file was met, -1 that a [read] failed with an error
    other than [EINTR]; interrupted and short reads are continued. *)
Theorem rio_readn_complete fd n w : 0 ≤ n → readn_post fd n w (rio_readn fd n w).
Proof. exact (rio_readn_spec fd n w). Qed.

Lemma rio_readn_complete_witness :
  readn_post 3 4 (World [RData [1]; RErr EINTR; RData [2; 3]; RData [4]] 0 [])
    (rio_readn 3 4 (World [RData [1]; RErr EINTR; RData [2; 3]; RData [4]] 0 [])).
Proof. apply rio_readn_complete. lia. Defined.

(** [rio_writen] is all or nothing in its result: it returns the length
    only when every byte was written, in order and once, and -1 when a [write]
    failed or returned 0 after a proper prefix was written; interrupted and short
    writes are continued. *)
Theorem rio_writen_complete fd usrbuf w : writen_post fd usrbuf w (rio_writen fd usrbuf w).
Proof. exact (rio_writen_spec fd usrbuf w). Qed.

(** C31: [rio_readlineb] takes from the stream a line with its newline, or the
    part of a line that fits or precedes the end of the file, and leaves the
    rest in the reader; nothing is lost or duplicated.  The return value counts
    the characters of a line that ends in a newline, but one more than the
    characters of a line without one. *)
Theorem rio_readlineb_correct rp maxlen w :
  rio_ok rp → line_post [] (Z.to_nat (maxlen - 1)) rp w (rio_readlineb rp maxlen w).
Proof. exact (rio_readlineb_spec rp maxlen w). Qed.

Lemma rio_readlineb_correct_witness :
  line_post [] (Z.to_nat (MAXLINE - 1)) (mkRio 3 0 0 []) (World [RData [97; 98]; RData []] 0 [])
    (rio_readlineb (mkRio 3 0 0 []) MAXLINE (World [RData [97; 98]; RData []] 0 [])).
Proof. apply rio_readlineb_correct. split; vm_compute; discriminate. Defined.

(** Lines do not depend on how the kernel cuts the stream.  If the stream
    (what is buffered, what is read now and what comes later) starts with a line
    that fits, and neither the end of the file nor an error intervenes, a call
    that returns gives that line, and the stream continues after it. *)
Theorem rio_readlineb_any_fragmentation rp maxlen w v stored rp' w' t l rest more :
  rio_ok rp → rio_readlineb rp maxlen w = Done (v, stored, rp') w' →
  NEWLINE ∉ l → len l + 1 < maxlen → extends w w' t →
  ¬ eof_seen (rio_fd rp) t → ¬ read_failed (rio_fd rp) t →
  unread rp ++ bytes_read (rio_fd rp) t ++ more = l ++ NEWLINE :: rest →
  v = len l + 1 ∧ stored = l ++ [NEWLINE; 0] ∧ unread rp' ++ more = rest ∧ rio_ok rp'.
Proof.
  intros Hok E Hl Hm He Hne Hnf Hs. pose proof (rio_readlineb_spec rp maxlen w Hok) as H.
  unfold wp in H. rewrite E in H. destruct H as (t' & He' & Hok' & Hfd & line & Hline & Hr).
  rewrite (extends_inj _ _ _ _ He' He) in *. cbn [app] in Hline.
  rewrite app_assoc, Hline, <- app_assoc in Hs. destruct Hr as [l' left Hl' _|l' left Hl' Hk| | |]; try done.
  - rewrite <- app_assoc in Hs. by apply newline_split in Hs as [-> <-].
  - apply newline_prefix in Hs; [|done]. unfold len in Hm. lia.
Qed.

Definition demo_line : outcome (Z * list Z * rio_t) :=
  run (rio_readlineb (mkRio 3 0 0 []) MAXLINE) [RData [104]; RErr EINTR; RData [105; 10; 33]].

Lemma rio_readlineb_any_fragmentation_witness :
  let r := value (0, [], mkRio 0 0 0 []) demo_line in
  r.1.1 = len [104; 105] + 1 ∧ r.1.2 = [104; 105] ++ [NEWLINE; 0] ∧ unread r.2 ++ [34] = [33; 34] ∧ rio_ok r.2.
Proof.
  cbn zeta. apply (rio_readlineb_any_fragmentation (mkRio 3 0 0 []) MAXLINE
    (World (map snd (trace (final demo_line))) 0 []) _ _ _ (final demo_line) (trace (final demo_line)));
    [split; vm_compute; discriminate|vm_compute; reflexivity| | |reflexivity| | |vm_compute; reflexivity].
  - set_solver.
  - vm_compute; reflexivity.
  - intros (n & t0 & H). apply (f_equal last) in H. rewrite last_snoc in H. vm_compute in H. discriminate.
  - intros (n & e & (t0 & H) & _). apply (f_equal last) in H. rewrite last_snoc in H. vm_compute in H. discriminate.
Defined.

(** [rio_readnb] always comes to an end once the kernel has answered its
    calls (the rounds allowed to the model are enough), and delivers the bytes
    of the stream in order: all [n], or fewer only at the end of the file. *)
Theorem rio_readnb_total rp n w :
  rio_ok rp → 0 ≤ n → readnb_post n [] rp w (rio_readnb rp n w).
Proof. exact (rio_readnb_spec rp n w). Qed.

Lemma rio_readnb_total_witness :
  readnb_post 3 [] (mkRio 3 0 0 []) (World [RData [97; 98]; RData [99; 100]] 0 [])
    (rio_readnb (mkRio 3 0 0 []) 3 (World [RData [97; 98]; RData [99; 100]] 0 [])).
Proof. apply rio_readnb_total; [split; vm_compute; discriminate|lia]. Defined.
