(* ===== verification/Echo.v ===== *)
(** * Echo servers on the Rio package

    Models the servers and the client of [csapp/network_program] and
    [csapp/concurrent_program]: [echo] and [open_listenfd], which the servers
    share word for word, the iterative server, the forking server, the
    [select]-based server and the line client.  [echo] is proved against a
    reference definition on whole streams. *)

From S2P Require Import Prelude Sys Rio.

(** ** Library functions *)

Definition is_space (c : Z) : bool := (c =? 32) || ((9 <=? c) && (c <=? 13)).
Definition is_digit (c : Z) : bool := (48 <=? c) && (c <=? 57).

Fixpoint digits (acc : Z) (s : list Z) : Z :=
  match s with
  | c :: s => if is_digit c then digits (10 * acc + (c - 48)) s else acc
  | [] => acc
  end.

(** [atoi]: blanks, a sign, digits. *)
Fixpoint atoi (s : list Z) : Z :=
  match s with
  | [] => 0
  | c :: rest =>
      if is_space c then atoi rest
      else i32 (if c =? 45 then - digits 0 rest else if c =? 43 then digits 0 rest else digits 0 s)
  end.

Definition FD_SETSIZE : Z := 1024.

(** ** Shared functions *)

Definition open_listenfd (port : Z) : M Z :=
  listenfd ← call_int (SysSocket AF_INET);
  if listenfd <? 0 then mret (-1)
  else
    r ← call_int (SysReuseAddr listenfd);
    if r <? 0 then mret (-1)
    else
      r ← call_int (SysBind listenfd (SockIn INADDR_ANY (htons (port mod 2 ^ 16))));
      if r <? 0 then mret (-1)
      else
        r ← call_int (SysListen listenfd 1024);
        if r <? 0 then mret (-1) else mret listenfd.

(** The result of [rio_readlineb] is kept in a [size_t]: after an error
    [rio_writen] is asked for 2^64 - 1 bytes of an 8192-byte buffer. *)
Definition echo (connfd : Z) : M () :=
  let rio := rio_readinitb (mkRio 0 0 0 []) connfd in
  loop (λ rio,
    '(n, buf, rio) ← rio_readlineb rio MAXLINE;
    if n =? 0 then mret (inr ())
    else if MAXLINE <? u64 n then fail_with BufferOverflow
    else _ ← rio_writen connfd (take (Z.to_nat n) buf); mret (inl rio)) rio.

(** ** The iterative server: [network_program/server.cc] *)
Module Iterative.

(** [clientaddr] is the address in the variable of [main], which an [accept] that
    fails leaves as it was. *)
Definition serve_client (listenfd clientaddr : Z) : M Z :=
  r ← call (SysAccept listenfd);
  let connfd := ret_of r in
  let clientaddr := match r with RPeer _ (SockIn a _) => a | _ => clientaddr end in
  _ ← call (SysGethostbyaddr clientaddr);
  _ ← echo connfd;
  _ ← sys_close connfd;
  mret clientaddr.

(** The variable starts with whatever the stack held. *)
Definition main (junk : Z) (argv : list string) : M () :=
  match argv with
  | [_; port] =>
      listenfd ← open_listenfd (atoi (bytes_of_string port));
      loop (λ clientaddr, clientaddr ← serve_client listenfd clientaddr; mret (inl clientaddr)) junk
  | _ => exit 0
  end.

End Iterative.

(** ** The forking server: [concurrent_program/echo_serverp.cc] *)
Module Forking.

(** The same text as in [network_program/server.cc]. *)
Definition echo : Z → M () := echo.
Definition open_listenfd : Z → M Z := open_listenfd.

Definition SIGCHLD : Z := 17.
Definition WNOHANG : Z := 1.

(** Runs when a child ended. *)
Definition sigchld_handler : M () :=
  loop (λ _, r ← call_int (SysWaitpid (-1) WNOHANG);
             mret (if 0 <? r then inl () else inr ())) ().

(** A run follows the process in which [fork] gave its answer. *)
Definition serve_client (listenfd : Z) : M () :=
  connfd ← call_int (SysAccept listenfd);
  pid ← call_int SysFork;
  if pid =? 0 then
    _ ← sys_close listenfd;
    _ ← echo connfd;
    _ ← sys_close connfd;
    exit 0
  else
    _ ← sys_close connfd;
    mret ().

Definition main (argv : list string) : M () :=
  match argv with
  | [_; port] =>
      _ ← call_int (SysSignal SIGCHLD);
      listenfd ← open_listenfd (atoi (bytes_of_string port));
      loop (λ _, _ ← serve_client listenfd; mret (inl ())) ()
  | _ => exit 0
  end.

End Forking.

(** ** The select server: [concurrent_program/select.cc] *)
Module SelectServer.

(** The same text as in [network_program/server.cc]. *)
Definition echo : Z → M () := echo.
Definition open_listenfd : Z → M Z := open_listenfd.

Definition STDIN_FILENO : Z := 0.

Definition command : M () :=
  r ← call (SysFgets MAXLINE);
  match r with
  | RData (_ :: _) => mret ()
  | _ => exit 0
  end.

(** One round: the descriptors are tested in [ready_set], the copy made before
    the call, while [select] updates [read_set]. *)
Definition round (listenfd : Z) (read_set : list Z) : M (list Z) :=
  let ready_set := read_set in
  r ← call (SysSelect (listenfd + 1) read_set);
  let read_set := match r with REvents evs => evs.*1 | _ => read_set end in
  _ ← (if bool_decide (STDIN_FILENO ∈ ready_set) then command else mret ());
  _ ← (if bool_decide (listenfd ∈ ready_set) then
         connfd ← call_int (SysAccept listenfd);
         _ ← echo connfd;
         _ ← sys_close connfd;
         mret ()
       else mret ());
  mret read_set.

(** [junk] is what the memory of [read_set] held: [FD_ZERO] clears the other
    set. *)
Definition main (junk : list Z) (argv : list string) : M () :=
  match argv with
  | [_; port] =>
      listenfd ← open_listenfd (atoi (bytes_of_string port));
      if (listenfd <? 0) || (FD_SETSIZE <=? listenfd) then fail_with BufferOverflow
      else loop (λ read_set, read_set ← round listenfd read_set; mret (inl read_set))
             (listenfd :: STDIN_FILENO :: junk)
  | _ => exit 0
  end.

End SelectServer.

(** ** The line client: [network_program/client.cc] *)
Module LineClient.

Definition open_clientfd (hostname : string) (port : Z) : M Z :=
  clientfd ← call_int (SysSocket AF_INET);
  if clientfd <? 0 then mret (-1)
  else
    hp ← call (SysGethostbyname hostname);
    match hp with
    | RHost (Some (addr :: _)) =>
        r ← call_int (SysConnect clientfd (SockIn addr (htons (port mod 2 ^ 16))));
        if r <? 0 then mret (-1) else mret clientfd
    | _ => mret (-2)
    end.

(** The bytes before the first zero. *)
Fixpoint c_string (bs : list Z) : list Z :=
  match bs with
  | [] => []
  | b :: bs => if b =? 0 then [] else b :: c_string bs
  end.

(** One line out, one line back; [buf] is what the buffer holds afterwards. *)
Definition exchange (clientfd : Z) (line : list Z) (rio : rio_t) : M (list Z * rio_t) :=
  _ ← rio_writen clientfd (c_string line);
  '(_, stored, rio) ← rio_readlineb rio MAXLINE;
  let buf := store_at (line ++ [0]) 0 stored in
  _ ← call_int (SysFputs (c_string buf));
  mret (buf, rio).

(** The loop over the lines of standard input. *)
Definition talk (clientfd : Z) (rio : rio_t) : M () :=
  loop (λ rio,
    r ← call (SysFgets MAXLINE);
    match r with
    | RData (b :: line) => '(_, rio) ← exchange clientfd (b :: line) rio; mret (inl rio)
    | _ => mret (inr ())
    end) rio.

Definition main (argv : list string) : M () :=
  match argv with
  | [_; host; port] =>
      clientfd ← open_clientfd host (atoi (bytes_of_string port));
      _ ← talk clientfd (rio_readinitb (mkRio 0 0 0 []) clientfd);
      _ ← sys_close clientfd;
      exit 0
  | _ => exit 0
  end.

End LineClient.

(** ** The reference for [echo]

    The stream is cut after every newline and after every [k] characters
    without one; a piece is sent back as it is when it ends in a newline and
    with a zero byte appended when it does not. *)
Fixpoint segments_from (k room : nat) (cur s : list Z) : list (list Z) :=
  match s with
  | [] => if decide (cur = []) then [] else [cur]
  | c :: s =>
      if (c =? NEWLINE) || (room =? 1)%nat
      then (cur ++ [c]) :: segments_from k k [] s
      else segments_from k (room - 1) (cur ++ [c]) s
  end.

Definition segments (k : nat) (s : list Z) : list (list Z) := segments_from k k [] s.

Definition sent_back (piece : list Z) : list Z :=
  if decide (last piece = Some NEWLINE) then piece else piece ++ [0].

(** What fits in the buffer beside the terminating zero. *)
Definition line_room : nat := Z.to_nat (MAXLINE - 1).

Lemma line_room_spec : Z.of_nat line_room = MAXLINE - 1.
Proof. unfold line_room, MAXLINE. lia. Qed.

Lemma readline_room rp w :
  rio_ok rp → line_post [] line_room rp w (rio_readlineb rp MAXLINE w).
Proof. exact (rio_readlineb_spec rp MAXLINE w). Qed.

Definition echo_of (s : list Z) : list Z := concat (sent_back <$> segments line_room s).

Opaque line_room.

(** Characters that end no piece are collected. *)
Lemma segments_skip k room cur l s :
  NEWLINE ∉ l → (length l < room)%nat →
  segments_from k room cur (l ++ s) = segments_from k (room - length l) (cur ++ l) s.
Proof.
  revert room cur. induction l as [|c l IH]; intros room cur Hl Hr; cbn [length app] in *.
  - by rewrite Nat.sub_0_r, app_nil_r.
  - cbn [segments_from]. rewrite (proj2 (Z.eqb_neq c NEWLINE)) by set_solver.
    rewrite (proj2 (Nat.eqb_neq room 1)) by lia. cbn [orb].
    rewrite IH by (set_solver || lia). rewrite <- app_assoc. f_equal. lia.
Qed.

Lemma segments_line k l s :
  NEWLINE ∉ l → (length l < k)%nat →
  segments k ((l ++ [NEWLINE]) ++ s) = (l ++ [NEWLINE]) :: segments k s.
Proof.
  intros Hl Hk. unfold segments. rewrite <- app_assoc, segments_skip by done. done.
Qed.

Lemma segments_cut k l s :
  NEWLINE ∉ l → length l = k → l ≠ [] → segments k (l ++ s) = l :: segments k s.
Proof.
  intros Hl Hk Hne. destruct l as [|c l _] using rev_ind; [done|]. unfold segments.
  rewrite length_app in Hk. cbn in Hk. rewrite <- app_assoc, segments_skip by (set_solver || lia).
  replace (k - length l)%nat with 1%nat by lia. cbn [app segments_from].
  by rewrite (proj2 (Z.eqb_neq c NEWLINE)) by set_solver.
Qed.

Lemma segments_rest k l :
  NEWLINE ∉ l → (length l < k)%nat → l ≠ [] → segments k l = [l].
Proof.
  intros Hl Hk Hne. unfold segments. rewrite <- (app_nil_r l) at 1. rewrite segments_skip by done.
  cbn. by rewrite decide_False.
Qed.

Lemma segments_nil k : segments k [] = [].
Proof. done. Qed.

Lemma sent_back_line l : sent_back (l ++ [NEWLINE]) = l ++ [NEWLINE].
Proof. unfold sent_back. by rewrite last_snoc, decide_True. Qed.

Lemma sent_back_part l : NEWLINE ∉ l → sent_back l = l ++ [0].
Proof.
  intros Hl. unfold sent_back. rewrite decide_False; [done|]. intros H. apply Hl.
  apply last_Some_elem_of. done.
Qed.

(** ** [echo] meets the reference *)

(** Every [write] on [fd] made progress or was interrupted. *)
Definition writes_ok (fd : Z) (t : list event) : Prop :=
  ∀ bs r, (SysWrite fd bs, r) ∈ t → r ≠ RInt 0 ∧ (∀ e, r = RErr e → e = EINTR).

(** After the end of the file nothing more arrives. *)
Definition eof_final (fd : Z) (t : list event) : Prop :=
  ∀ t1 n t2, t = t1 ++ (SysRead fd n, RData []) :: t2 → bytes_read fd t2 = [].

Lemma writes_ok_app fd t1 t2 : writes_ok fd (t1 ++ t2) → writes_ok fd t1 ∧ writes_ok fd t2.
Proof. unfold writes_ok. intros H. split; intros bs r Hin; apply (H bs r); set_solver. Qed.

Lemma write_failed_not_ok fd t : write_failed fd t → ¬ writes_ok fd t.
Proof.
  intros (bs & r & (t0 & ->) & Hr) Hok. destruct (Hok bs r) as [H0 He]; [set_solver|].
  destruct Hr as [->|(e & -> & Hne)]; [done|]. by specialize (He e eq_refl).
Qed.

Lemma eof_final_prefix fd t1 t2 : eof_final fd (t1 ++ t2) → eof_final fd t1.
Proof.
  intros H a n b ->. specialize (H a n (b ++ t2)). rewrite bytes_read_app in H.
  rewrite <- app_assoc in H. by apply app_nil in H as [? _].
Qed.

Lemma eof_final_after fd t1 n t2 t3 :
  eof_final fd ((t1 ++ (SysRead fd n, RData []) :: t2) ++ t3) → bytes_read fd t3 = [].
Proof.
  intros H. specialize (H t1 n (t2 ++ t3)). rewrite bytes_read_app in H.
  rewrite <- app_assoc in H. by apply app_nil in H as [_ ?].
Qed.

Lemma line_result_sent fd t line v stored left :
  line_result line_room fd t line v stored left → v ≠ 0 → v ≠ -1 →
  0 < v ≤ MAXLINE ∧ take (Z.to_nat v) stored = sent_back line ∧ line ≠ [].
Proof.
  intros H Hv0 Hv1. pose proof line_room_spec as HK.
  destruct H as [l left Hl Hk|l left Hl Hk|l Hl Hne Hk _| |]; [..|by destruct Hv0|by destruct Hv1].
  - rewrite sent_back_line. unfold len. split_and!; [unfold MAXLINE in *; lia..| |by destruct l].
    change [NEWLINE; 0] with ([NEWLINE] ++ [0]). rewrite app_assoc, take_app_length'; [done|].
    rewrite length_app. cbn. lia.
  - rewrite sent_back_part by done. unfold len. split_and!; [unfold MAXLINE in *; lia..| |].
    + apply firstn_all2. rewrite length_app. cbn. lia.
    + intros ->. cbn in Hk. unfold MAXLINE in *. lia.
  - rewrite sent_back_part by done. unfold len. split_and!; [unfold MAXLINE in *; lia..| |done].
    apply firstn_all2. rewrite length_app. cbn. lia.
Qed.

Lemma loop_consumes {S A} (body : S → M (S + A)) s :
  (∀ s, Honest (body s)) → consumes (body s) → consumes (loop body s).
Proof.
  intros Hh Hc w. unfold loop. cbn [loop_n].
  apply (consumes_bind_l (body s) (λ x, match x with inl s' => _ | inr a => mret a end)); [done|].
  intros [s'|a]; apply _.
Qed.

Lemma rio_writen_consumes fd b : b ≠ [] → consumes (rio_writen fd b).
Proof.
  intros Hb. unfold rio_writen. cbn zeta. apply loop_consumes; [intros; solve_honest|].
  assert (0 < len b) as H by (unfold len; destruct b; [done|cbn; lia]).
  rewrite (proj2 (Z.ltb_lt _ _) H). apply consumes_bind_l; [|intros; solve_honest].
  unfold sys_write, call_int. apply consumes_bind_l; [apply consumes_call|intros; solve_honest].
Qed.

#[export] Instance reads_readline_loop k n acc rp : Emits is_read (readline_loop k n acc rp).
Proof.
  revert n acc rp. induction k as [|k IH]; intros n acc rp; cbn [readline_loop]; [apply _|].
  apply emits_bind; [unfold rio_read, rio_refill; cbn zeta; solve_emits|].
  intros [[rc bs] rp1]. cbn zeta. solve_emits.
Qed.
#[export] Instance reads_rio_readlineb rp maxlen : Emits is_read (rio_readlineb rp maxlen).
Proof. unfold rio_readlineb. apply _. Qed.
#[export] Instance writes_rio_writen fd b : Emits is_write (rio_writen fd b).
Proof. unfold rio_writen. cbn zeta. solve_emits. Qed.

(** What the pieces sent back so far say of the stream. *)
Definition complete (pieces : list (list Z)) : Prop :=
  ∀ rest, segments line_room (concat pieces ++ rest) = pieces ++ segments line_room rest.

Definition ended (fd : Z) (pieces : list (list Z)) (left : list Z) (t : list event) : Prop :=
  segments line_room (concat pieces) = pieces ∧ left = [] ∧
  ∃ t1 n t2, t = t1 ++ (SysRead fd n, RData []) :: t2.

Definition echo_inv (fd : Z) (w : world) (rp : rio_t) (w1 : world) : Prop :=
  ∃ t pieces, extends w w1 t ∧ rio_ok rp ∧ rio_fd rp = fd ∧
    bytes_read fd t = concat pieces ++ unread rp ∧
    (writes_ok fd t → bytes_written fd t = concat (sent_back <$> pieces)) ∧
    (eof_final fd t → complete pieces ∨ ended fd pieces (unread rp) t).

Lemma concat_snoc {A} (ls : list (list A)) l : concat (ls ++ [l]) = concat ls ++ l.
Proof. rewrite concat_app. cbn. by rewrite app_nil_r. Qed.

(** One more piece. *)
Lemma pieces_step fd pieces left t t1 line v stored left1 t2 :
  (eof_final fd t → complete pieces ∨ ended fd pieces left t) →
  left ++ bytes_read fd t1 = line ++ left1 →
  line_result line_room fd t1 line v stored left1 → v ≠ 0 → v ≠ -1 →
  eof_final fd ((t ++ t1) ++ t2) →
  complete (pieces ++ [line]) ∨ ended fd (pieces ++ [line]) left1 ((t ++ t1) ++ t2).
Proof.
  intros Hp Hl Hr Hv0 Hv1 Hf. destruct (line_result_sent _ _ _ _ _ _ Hr Hv0 Hv1) as (_ & _ & Hne).
  pose proof (eof_final_prefix _ _ _ Hf) as Hf1.
  destruct Hp as [Hc|(_ & -> & ta & n & tb & ->)]; [by do 2 eapply eof_final_prefix| |].
  2: { apply eof_final_after in Hf1. rewrite Hf1 in Hl. cbn in Hl. by destruct line. }
  destruct Hr as [l left1 Hnl Hk|l left1 Hnl Hk|l Hnl _ Hk Heof| |]; try done.
  - left. intros rest. by rewrite concat_snoc, <- !app_assoc, Hc, (app_assoc l), segments_line.
  - left. intros rest. by rewrite concat_snoc, <- !app_assoc, Hc, segments_cut.
  - right. unfold ended. rewrite concat_snoc, Hc, segments_rest by done. split_and!; try done.
    destruct Heof as (n & t0 & ->). exists (t ++ t0), n, t2. by rewrite <- !app_assoc.
Qed.

Definition echo_post (fd : Z) (w : world) (o : outcome ()) : Prop :=
  ∃ t, extends w (final o) t ∧
  match o with
  | Done _ _ => eof_seen fd t ∧
      (writes_ok fd t → eof_final fd t → bytes_written fd t = echo_of (bytes_read fd t))
  | Faulted f _ => f = BufferOverflow ∧ read_failed fd t
  | Blocked _ => True
  | _ => False
  end.

(** The end of the loop. *)
Lemma echo_inv_done fd t pieces left t1 line v stored left1 :
  bytes_read fd t = concat pieces ++ left →
  (writes_ok fd t → bytes_written fd t = concat (sent_back <$> pieces)) →
  (eof_final fd t → complete pieces ∨ ended fd pieces left t) →
  left ++ bytes_read fd t1 = line ++ left1 → only is_read t1 →
  line_result line_room fd t1 line v stored left1 → v = 0 →
  eof_seen fd (t ++ t1) ∧ (writes_ok fd (t ++ t1) → eof_final fd (t ++ t1) →
    bytes_written fd (t ++ t1) = echo_of (bytes_read fd (t ++ t1))).
Proof.
  intros Hr Hw Hp Hl Ho Hres Hv.
  destruct Hres as [l left1|l left1|l| |]; try (unfold len in Hv; lia).
  split; [by apply eof_seen_app|]. intros [Hw0 _]%writes_ok_app Hf.
  rewrite bytes_written_app, bytes_read_app, Hr, <- app_assoc, Hl, (only_read_written _ _ Ho), Hw, !app_nil_r by done.
  unfold echo_of. destruct Hp as [Hc|(Hc & _)]; [by eapply eof_final_prefix|..]; [|by rewrite Hc].
  specialize (Hc []). rewrite !app_nil_r in Hc. by rewrite Hc.
Qed.

Lemma echo_spec connfd w : wp (echo connfd) (echo_post connfd w) w.
Proof.
  unfold echo. cbn zeta. apply (loop_rule _ (echo_inv connfd w)).
  2: { destruct (rio_readinitb_ok (mkRio 0 0 0 []) connfd) as [Hok Hu]; [done|]. exists [], [].
       rewrite Hu. split; [apply extends_refl|]. split_and!; try done. intros _. by left. }
  intros rp w1 (t & pieces & He & Hok & Hfd & Hr & Hw & Hp). wp_step.
  pose proof (readline_room rp w1 Hok) as (t1 & He1 & Ho).
  pose proof (emits_extends is_read (rio_readlineb rp MAXLINE) w1 t1 He1) as Hrd.
  pose proof (script_shrinks (rio_readlineb rp MAXLINE) w1) as Hsh. rewrite Hfd in Ho. unfold wp in *.
  destruct (rio_readlineb rp MAXLINE w1) as [[[v stored] rp1] w2| | |w2|]; try done.
  2: { exists (t ++ t1). split; [by eapply extends_trans|done]. }
  destruct Ho as (Hok1 & Hfd1 & line & Hline & Hres). cbn [app] in Hline.
  pose proof (extends_trans _ _ _ _ _ He He1) as He2. cbn [final] in He2, Hsh.
  destruct (v =? 0) eqn:Ev; breflect.
  { exists (t ++ t1). split; [done|]. by eapply echo_inv_done. }
  destruct (decide (v = -1)) as [->|Hv1].
  { exists (t ++ t1). split; [done|]. split; [done|]. apply read_failed_app. inversion Hres; try done;
      unfold len in *; lia. }
  destruct (line_result_sent _ _ _ _ _ _ Hres Ev Hv1) as (Hv & Hsent & Hne).
  rewrite u64_small, (proj2 (Z.ltb_ge MAXLINE v)) by (unfold MAXLINE in *; lia). rewrite Hsent.
  assert (sent_back line ≠ []) as Hsb by (unfold sent_back; case_decide; [done|by destruct line]).
  pose proof (rio_writen_spec connfd (sent_back line) w2) as (t2 & rest & He3 & Hb & Hc).
  pose proof (emits_extends is_write (rio_writen connfd (sent_back line)) w2 t2 He3) as Hwr.
  pose proof (rio_writen_consumes connfd _ Hsb w2) as Hcons.
  unfold mbind, M_bind. destruct (rio_writen connfd (sent_back line) w2) as [v2 w3| | |w3|]; try done.
  2: { exists ((t ++ t1) ++ t2). split; [by eapply extends_trans|done]. }
  split; [|cbn in Hcons; lia]. exists ((t ++ t1) ++ t2), (pieces ++ [line]).
  split; [by eapply extends_trans|]. split_and!; [done|congruence| | |].
  - rewrite !bytes_read_app, (only_write_read _ _ Hwr), app_nil_r, Hr, <- app_assoc, Hline, concat_snoc.
    by rewrite app_assoc.
  - intros [[Hw0 _]%writes_ok_app Hw2]%writes_ok_app.
    rewrite !bytes_written_app, (only_read_written _ _ Hrd), app_nil_r, Hw, fmap_app by done.
    cbn. rewrite concat_snoc. f_equal. destruct Hc as [[_ ->]|(_ & _ & Hfail)]; [by rewrite Hb, app_nil_r|].
    by apply write_failed_not_ok in Hfail.
  - intros Hf. by eapply pieces_step.
Qed.

(** ** Properties *)

(** C23: [echo] sends back its reference.  It returns only after the end of the
    file; if every [write] made progress and the end of the file was final, the
    bytes written are the reference applied to the bytes read, however [read]
    and [write] cut the streams: every line unchanged, and a zero byte added
    after each piece of 8191 characters and after an unterminated last line.  It
    never spins without a call; a failing [read] makes it write past its buffer. *)
Theorem echo_meets_reference connfd w : echo_post connfd w (echo connfd w).
Proof. exact (echo_spec connfd w). Qed.

(** The calls of a round of the select server, after [select]. *)
Definition select_post (listenfd : Z) (read_set : list Z) (evs : list (Z * Z)) (w : world)
    (o : outcome (list Z)) : Prop :=
  let select := (SysSelect (listenfd + 1) read_set, REvents evs) in
  match o with
  | Done read_set' w' => read_set' = evs.*1 ∧ ∃ line t,
      line ≠ [] ∧ extends w w' (select :: (SysFgets MAXLINE, RData line) :: t)
  | Exited c w' => c = 0 ∧ ∃ r, extends w w' [select; (SysFgets MAXLINE, r)]
  | Faulted _ w' | Blocked w' => ∃ t, extends w w' (select :: t)
  | NoFuel _ => False
  end.

(** The select server does not look at what [select] reported.  In every
    round in which standard input is in its set, it waits for a line of standard
    input, ready or not, before it looks at the listening socket; and the set it
    goes on with is what [select] reported, so a descriptor that was not ready
    once is never watched again. *)
Theorem select_ignores_readiness listenfd read_set evs s w :
  script w = REvents evs :: s → answers (SysSelect (listenfd + 1) read_set) (REvents evs) = true →
  SelectServer.STDIN_FILENO ∈ read_set →
  select_post listenfd read_set evs w (SelectServer.round listenfd read_set w).
Proof.
  intros Hs Ha Hin. unfold SelectServer.round, SelectServer.echo. cbn zeta.
  rewrite (bind_done _ _ _ _ _ (call_answer _ _ _ _ Hs Ha)). rewrite (bool_decide_eq_true_2 _ Hin).
  set (w1 := answered (SysSelect (listenfd + 1) read_set) (REvents evs) w).
  apply (wp_mono (_ ← SelectServer.command; _) (select_post listenfd read_set evs w) _ w1); [|done].
  unfold SelectServer.command. wp_step. wp_step. wp_step; [by exists []|].
  assert (∀ r, extends w (answered (SysFgets MAXLINE) r w1)
    [(SysSelect (listenfd + 1) read_set, REvents evs); (SysFgets MAXLINE, r)]) as He by (intros; unfold w1; solve_extends).
  destruct r as [| |[|b line]| | | | |]; cbn in Ha0; try discriminate; wp_step; try (split; [done|]; by eexists).
  assert (∀ w' t, extends (answered (SysFgets MAXLINE) (RData (b :: line)) w1) w' t →
    extends w w' ([(SysSelect (listenfd + 1) read_set, REvents evs); (SysFgets MAXLINE, RData (b :: line))] ++ t))
    as He2 by (intros; by eapply extends_trans).
  wp_step. wp_step.
  - wp_step. wp_step; [by eexists; apply (He2 _ []), extends_refl|]. wp_step.
    set (w2 := answered (SysAccept listenfd) r _).
    assert (∀ w' t, extends w2 w' t → ∃ t', extends w w' ([(SysSelect (listenfd + 1) read_set, REvents evs);
      (SysFgets MAXLINE, RData (b :: line))] ++ t')) as He3
      by (intros w' t' Ht'; eexists; apply He2; eapply extends_trans;
          [apply (extends_answered (SysAccept listenfd) r)|exact Ht']).
    eapply wp_mono; [apply echo_spec|]. intros o (t & Het & Ho).
    destruct o as [[] w3| |f w3|w3|]; try done; destruct (He3 _ _ Het) as [t' Ht']; try by eexists.
    unfold sys_close. wp_steps; [by eexists|]. split; [done|]. exists (b :: line).
    destruct (He3 _ _ (extends_trans _ _ _ _ _ Het (extends_answered (SysClose (ret_of r)) r0 w3))) as [t2 Ht2].
    exists t2. split; [done|exact Ht2].
  - wp_steps. split; [done|]. exists (b :: line), []. split; [done|apply He].
Qed.

Lemma select_ignores_readiness_witness :
  select_post 4 [4; 0] [(4, 1)] (World [REvents [(4, 1)]; RData [108; 10]] 0 [])
    (SelectServer.round 4 [4; 0] (World [REvents [(4, 1)]; RData [108; 10]] 0 [])).
Proof.
  apply (select_ignores_readiness 4 [4; 0] [(4, 1)] [RData [108; 10]]);
    [reflexivity|vm_compute; reflexivity|set_solver].
Defined.
