(* ===== verification/EchoServer.v ===== *)
(** * The iterative echo server as a whole

    [main] of [csapp/network_program/server.cc]: whatever its kernel answers, the
    process opens its socket and then serves its clients one after the other; it
    never ends by itself, and a run stops only where the kernel does not answer or
    where a failed [read] makes [echo] write past its buffer. *)

From S2P Require Import Prelude Sys Rio Echo.
Import Iterative.

(** ** What a run of the server looks like *)

(** The calls of [echo] for one client, up to its end. *)
Definition echoed (fd : Z) (t : list event) : Prop :=
  eof_seen fd t ∧ (writes_ok fd t → eof_final fd t → bytes_written fd t = echo_of (bytes_read fd t)).

(** The variable [clientaddr], which was [a], after [accept]. *)
Definition client_addr (a : Z) (r : reply) : Z := match r with RPeer _ (SockIn a' _) => a' | _ => a end.

Definition greeting (listenfd a : Z) (r h : reply) : list event :=
  [(SysAccept listenfd, r); (SysGethostbyaddr (client_addr a r), h)].

(** Clients that were served, each before the next was accepted; [a] is what
    [clientaddr] holds afterwards. *)
Inductive served (listenfd junk : Z) : list event → Z → Prop :=
| served_none : served listenfd junk [] junk
| served_next t a r h te rc :
    served listenfd junk t a → echoed (ret_of r) te →
    served listenfd junk (t ++ greeting listenfd a r h ++ te ++ [(SysClose (ret_of r), rc)]) (client_addr a r).

(** The client that is being served when the run stops. *)
Definition serving (listenfd a : Z) (t : list event) : Prop :=
  t = [] ∨ (∃ r, t = [(SysAccept listenfd, r)]) ∨ ∃ r h te, t = greeting listenfd a r h ++ te.

(** The client whose connection failed. *)
Definition failed (listenfd a : Z) (t : list event) : Prop :=
  ∃ r h te, t = greeting listenfd a r h ++ te ∧ read_failed (ret_of r) te.

Definition serve_post (listenfd a : Z) (w : world) (o : outcome Z) : Prop :=
  ∃ t, extends w (final o) t ∧
  match o with
  | Done a' _ => ∃ r h te rc, t = greeting listenfd a r h ++ te ++ [(SysClose (ret_of r), rc)] ∧
      echoed (ret_of r) te ∧ a' = client_addr a r
  | Faulted f _ => f = BufferOverflow ∧ failed listenfd a t
  | Blocked _ => serving listenfd a t
  | _ => False
  end.

Lemma serve_client_spec listenfd a w : wp (serve_client listenfd a) (serve_post listenfd a w) w.
Proof.
  unfold serve_client. wp_step. wp_step; [exists []; split; [apply extends_refl|by left]|].
  cbn zeta. fold (client_addr a r). wp_step. wp_step; [exists [(SysAccept listenfd, r)]; split; [solve_extends|]|].
  { right. left. by eexists. }
  set (w1 := answered _ r0 _). assert (extends w w1 (greeting listenfd a r r0)) as He1 by (unfold w1; solve_extends).
  wp_step. eapply wp_mono; [apply echo_spec|]. intros o (te & Het & Ho). pose proof (extends_trans _ _ _ _ _ He1 Het) as He2.
  destruct o as [[] w2| |f w2|w2|]; try done.
  - unfold sys_close. wp_steps.
    + eexists. split; [exact He2|]. right. right. eauto.
    + eexists. split; [eapply extends_trans; [exact He2|solve_extends]|]. exists r, r0, te, r1.
      by rewrite <- app_assoc.
  - eexists. split; [exact He2|]. destruct Ho as [-> Hf]. split; [done|]. by exists r, r0, te.
  - eexists. split; [exact He2|]. right. right. eauto.
Qed.

(** ** The whole program *)

Definition opening (c : syscall) : bool :=
  match c with SysSocket _ | SysReuseAddr _ | SysBind _ _ | SysListen _ _ => true | _ => false end.

#[export] Instance opens_open_listenfd port : Emits opening (open_listenfd port).
Proof. unfold open_listenfd. solve_emits. Qed.

(** [before]: the calls that open the socket; [clients]: those of the clients served;
    [now]: those of the client at hand. *)
Definition server_post (junk : Z) (argv : list string) (w : world) (o : outcome ()) : Prop :=
  match o with
  | Exited c w' => c = 0 ∧ length argv ≠ 2%nat ∧ w' = w
  | Faulted f w' => f = BufferOverflow ∧ ∃ listenfd before clients a now,
      extends w w' (before ++ clients ++ now) ∧ only opening before ∧ served listenfd junk clients a ∧
      failed listenfd a now
  | Blocked w' => ∃ listenfd before clients a now,
      extends w w' (before ++ clients ++ now) ∧ only opening before ∧ served listenfd junk clients a ∧
      serving listenfd a now
  | Done _ _ | NoFuel _ => False
  end.

#[export] Instance honest_echo connfd : Honest (echo connfd).
Proof. unfold echo. cbn zeta. apply honest_loop. intros. solve_honest. Qed.

Lemma serve_client_consumes listenfd a : consumes (serve_client listenfd a).
Proof. unfold serve_client. apply consumes_bind_l; [apply consumes_call|]. intros. cbn zeta. solve_honest. Qed.

Lemma open_listenfd_plain port w :
  wp (open_listenfd port) (λ o, match o with Done _ _ | Blocked _ => True | _ => False end) w.
Proof. unfold open_listenfd. wp_steps; done. Qed.

Lemma main_spec junk argv w : wp (main junk argv) (server_post junk argv w) w.
Proof.
  unfold main. destruct argv as [|a [|port [|]]]; try (wp_step; by split_and!).
  wp_step. destruct (emits (m := open_listenfd (atoi (bytes_of_string port))) w) as (tb & Heb & Hob).
  pose proof (open_listenfd_plain (atoi (bytes_of_string port)) w) as Hp. unfold wp in Hp |- * at 1.
  destruct (open_listenfd _ w) as [listenfd w1| | |w1|]; cbn in Heb; try done.
  2: { exists 0, tb, [], junk, []. rewrite app_nil_r. split_and!; [done..|constructor|by left]. }
  apply (loop_rule _ (λ a w2, ∃ clients, extends w w2 (tb ++ clients) ∧ served listenfd junk clients a)).
  2: { exists []. rewrite app_nil_r. split; [done|constructor]. }
  intros a0 w2 (clients & He & Hcl). wp_step. pose proof (serve_client_consumes listenfd a0 w2) as Hsh.
  pose proof (serve_client_spec listenfd a0 w2) as Hs. unfold wp in Hs |- * at 1.
  destruct (serve_client listenfd a0 w2) as [a1 w3| |f w3|w3|]; destruct Hs as (t & Ht & Ho); try done.
  - wp_step. split; [|done]. destruct Ho as (r & h & te & rc & -> & Hech & ->).
    eexists. split; [rewrite app_assoc; by eapply extends_trans|]. by constructor.
  - destruct Ho as [-> Hf]. split; [done|]. exists listenfd, tb, clients, a0, t.
    rewrite app_assoc. split_and!; try done. by eapply extends_trans.
  - exists listenfd, tb, clients, a0, t. rewrite app_assoc. split_and!; try done. by eapply extends_trans.
Qed.

(** ** Properties *)

(** C24: the iterative echo server serves its clients one by one and never ends
    by itself.  Its calls are those that open the socket and then, for one client
    after the other, [accept], the name lookup, the calls of an [echo] that met its
    reference, and [close]; a run stops in the middle of a client when the kernel
    does not answer, or in a client whose [read] failed, where the code writes past
    its buffer.  After an [accept] that failed, the lookup is made with the address
    of the client before, or with what the uninitialised variable held. *)
Theorem iterative_server_serves junk argv w : server_post junk argv w (main junk argv w).
Proof. exact (main_spec junk argv w). Qed.

(** A client that sends one line and closes; the server then waits in [accept]. *)
Definition one_client : list reply :=
  [RInt 3; RInt 0; RInt 0; RInt 0; RPeer 4 (SockIn 0 0); RHost None; RData [97; 10]; RInt 2; RData []; RInt 0].

Lemma one_client_served :
  let o := run (main 0 ["server"; "9221"]) one_client in
  o = Blocked (final o) ∧ length (trace (final o)) = 10%nat ∧ bytes_written 4 (trace (final o)) = [97; 10].
Proof. cbn zeta. split_and!; vm_compute; reflexivity. Qed.
