(* ===== verification/LineSession.v ===== *)
(** * The line client and the echo server together

    [csapp/network_program/client.cc] against a peer that behaves as [echo] of
    [server.cc] was shown to: whatever the fragmentation in both directions, the
    client prints the lines it was given. *)

From S2P Require Import Prelude Sys Rio Echo.
Import LineClient.

(** ** Lines, input and output *)

(** A line that fits in the buffers of both programs. *)
Definition proper_line (line : list Z) : Prop :=
  ∃ b, line = b ++ [NEWLINE] ∧ NEWLINE ∉ b ∧ 0 ∉ b ∧ (length b < line_room)%nat.

Definition input (t : list event) : list (list Z) :=
  t ≫= λ ev, match ev with (SysFgets _, RData (b :: line)) => [b :: line] | _ => [] end.
Definition printed (t : list event) : list (list Z) :=
  t ≫= λ ev, match ev with (SysFputs data, _) => [data] | _ => [] end.

Lemma input_app t1 t2 : input (t1 ++ t2) = input t1 ++ input t2.
Proof. apply bind_app. Qed.
Lemma output_app t1 t2 : printed (t1 ++ t2) = printed t1 ++ printed t2.
Proof. apply bind_app. Qed.

(** The echo of whole lines is the lines. *)
Lemma echo_of_lines ls : Forall proper_line ls → echo_of (concat ls) = concat ls.
Proof.
  unfold echo_of. induction 1 as [|l ls (b & -> & Hb & _ & Hl) _ IH]; [done|]. cbn [concat].
  rewrite segments_line by done. cbn. by rewrite sent_back_line, IH.
Qed.

Lemma c_string_app line rest : 0 ∉ line → c_string (line ++ rest) = line ++ c_string rest.
Proof.
  induction line as [|c line IH]; intros H; cbn; [done|]. rewrite (proj2 (Z.eqb_neq c 0)) by set_solver.
  rewrite IH by set_solver. done.
Qed.

Lemma c_string_all line : 0 ∉ line → c_string line = line.
Proof. intros H. rewrite <- (app_nil_r line), c_string_app by done. done. Qed.

Lemma proper_no_zero line : proper_line line → 0 ∉ line.
Proof. intros (b & -> & _ & Hb & _). unfold NEWLINE. set_solver. Qed.

(** ** The peer *)

Section session.
Context (fd : Z).

(** No [read] met the end of the file or an error other than an interruption. *)
Definition reads_ok (t : list event) : Prop :=
  ∀ n r, (SysRead fd n, r) ∈ t → r ≠ RData [] ∧ (∀ e, r = RErr e → e = EINTR).

(** At every moment, what arrived is part of the echo of what was sent. *)
Definition peer_echoes (t : list event) : Prop :=
  ∀ t1 t2, t = t1 ++ t2 → bytes_read fd t1 `prefix_of` echo_of (bytes_written fd t1).

Definition good (t : list event) : Prop :=
  writes_ok fd t ∧ reads_ok t ∧ peer_echoes t ∧ Forall proper_line (input t).

Lemma good_prefix t1 t2 : good (t1 ++ t2) → good t1.
Proof.
  intros (Hw & Hr & Hp & Hi). split_and!.
  - by apply writes_ok_app in Hw as [? _].
  - intros n r Hin. apply (Hr n r). set_solver.
  - intros a b ->. apply (Hp a (b ++ t2)). by rewrite app_assoc.
  - rewrite input_app in Hi. by apply Forall_app in Hi as [? _].
Qed.

Lemma reads_ok_goes_on t1 t2 t3 : reads_ok (t1 ++ t2 ++ t3) → ¬ eof_seen fd t2 ∧ ¬ read_failed fd t2.
Proof.
  intros H. split.
  - intros (n & t0 & ->). destruct (H n (RData [])) as [? _]; [set_solver|done].
  - intros (n & e & (t0 & ->) & Hne). destruct (H n (RErr e)) as [_ He]; [set_solver|]. by apply Hne, He.
Qed.

(** ** One line out, one line back *)

Definition exchange_post (line : list Z) (rio : rio_t) (w : world) (o : outcome (list Z * rio_t)) : Prop :=
  ∃ t, extends w (final o) t ∧ input t = [] ∧
  match o with
  | Done (buf, rio') _ => rio_ok rio' ∧ rio_fd rio' = fd ∧ printed t = [c_string buf] ∧
      (writes_ok fd t → bytes_written fd t = c_string line) ∧
      ∃ got stored, unread rio ++ bytes_read fd t = got ++ unread rio' ∧ buf = store_at (line ++ [0]) 0 stored ∧
        (reads_ok t → (∃ l, got = l ++ [NEWLINE] ∧ NEWLINE ∉ l ∧ stored = got ++ [0]) ∨
                      (NEWLINE ∉ got ∧ length got = line_room))
  | Blocked _ => printed t = []
  | _ => False
  end.

Lemma line_result_goes_on t line v stored left :
  line_result line_room fd t line v stored left → ¬ eof_seen fd t → ¬ read_failed fd t →
  (∃ l, line = l ++ [NEWLINE] ∧ NEWLINE ∉ l ∧ stored = line ++ [0]) ∨ (NEWLINE ∉ line ∧ length line = line_room).
Proof.
  intros H He Hf. destruct H as [l left Hl _|l left Hl Hk|l _ _ _ ?| |]; try done; [left|by right].
  exists l. by rewrite <- app_assoc.
Qed.

Lemma silent P t : only P t → (∀ c, P c = true → is_read c = true ∨ is_write c = true) → input t = [] ∧ printed t = [].
Proof.
  intros Ht HP. induction Ht as [|[c r] t Hc _ [IH1 IH2]]; [done|]. unfold input, printed in *. cbn.
  rewrite IH1, IH2. destruct (HP _ Hc); by destruct c.
Qed.

#[local] Instance honest_exchange line rio : Honest (exchange fd line rio).
Proof. unfold exchange. cbn zeta. solve_honest. Qed.

Lemma exchange_spec line rio w :
  rio_ok rio → rio_fd rio = fd → wp (exchange fd line rio) (exchange_post line rio w) w.
Proof.
  intros Hok Hfd. unfold exchange. wp_step.
  pose proof (rio_writen_spec fd (c_string line) w) as (tw & rest & Hew & Hb & Hc).
  pose proof (emits_extends is_write (rio_writen fd (c_string line)) w tw Hew) as Hwr.
  destruct (silent _ _ Hwr) as [Hiw Hpw]; [by auto|]. unfold wp at 1.
  destruct (rio_writen fd (c_string line) w) as [v1 w1| | |w1|]; try done; [|by exists tw].
  wp_step. pose proof (readline_room rio w1 Hok) as (tr & Her & Ho).
  pose proof (emits_extends is_read (rio_readlineb rio MAXLINE) w1 tr Her) as Hrd.
  destruct (silent _ _ Hrd) as [Hir Hpr]; [by auto|]. unfold wp at 1. rewrite Hfd in Ho.
  destruct (rio_readlineb rio MAXLINE w1) as [[[v stored] rio1] w2| | |w2|]; try done.
  2: { exists (tw ++ tr). rewrite input_app, output_app, Hiw, Hir, Hpw, Hpr. split_and!; try done.
       by eapply extends_trans. }
  destruct Ho as (Hok1 & Hfd1 & got & Hgot & Hres). cbn [app] in Hgot. cbn zeta.
  set (buf := store_at (line ++ [0]) 0 stored).
  assert (extends w w2 (tw ++ tr)) as He by (by eapply extends_trans). wp_steps.
  { exists (tw ++ tr). by rewrite input_app, output_app, Hiw, Hir, Hpw, Hpr. }
  exists (tw ++ tr ++ [(SysFputs (c_string buf), r)]).
  rewrite !input_app, !output_app, !bytes_written_app, !bytes_read_app, Hiw, Hir, Hpw, Hpr.
  rewrite (only_write_read _ _ Hwr), (only_read_written _ _ Hrd), app_nil_l, !app_nil_r.
  split; [rewrite app_assoc; eapply extends_trans; [exact He|solve_extends]|]. split_and!; try done.
  - intros [Hw _]%writes_ok_app. destruct Hc as [[_ ->]|(_ & _ & Hfail)]; [by rewrite app_nil_r in Hb|].
    by apply write_failed_not_ok in Hfail.
  - exists got, stored. split_and!; try done.
    intros [H1 H2]%reads_ok_goes_on. by eapply line_result_goes_on.
Qed.

(** ** The session *)

(** Between two lines everything sent came back and was printed. *)
Definition in_step (rio : rio_t) (t : list event) : Prop :=
  printed t = input t ∧ bytes_written fd t = concat (input t) ∧ bytes_read fd t = concat (input t) ∧ unread rio = [].

(** A line that comes back is the line that was sent. *)
Lemma returned_line b got rest :
  NEWLINE ∉ b → (length b < line_room)%nat → got ++ rest `prefix_of` b ++ [NEWLINE] →
  (∃ l, got = l ++ [NEWLINE] ∧ NEWLINE ∉ l) ∨ (NEWLINE ∉ got ∧ length got = line_room) →
  got = b ++ [NEWLINE] ∧ rest = [].
Proof.
  intros Hb Hlen [x Hx] [(l & -> & Hl)|[Hn Hk]].
  - rewrite <- !app_assoc in Hx. cbn in Hx.
    apply app_first_inj in Hx as [-> Hr]; [|done..]. by destruct rest.
  - exfalso. apply Hn. assert (got = b ++ [NEWLINE]) as ->; [|set_solver].
    apply (f_equal (take (length got))) in Hx. rewrite <- app_assoc, take_app_length in Hx.
    rewrite <- Hx. apply take_ge. rewrite length_app. cbn. lia.
Qed.

(** A line of input, and its exchange. *)
Lemma in_step_next rio rio' t line tx buf got stored :
  in_step rio t → good (t ++ (SysFgets MAXLINE, RData line) :: tx) → line ≠ [] → input tx = [] →
  printed tx = [c_string buf] → (writes_ok fd tx → bytes_written fd tx = c_string line) →
  unread rio ++ bytes_read fd tx = got ++ unread rio' → buf = store_at (line ++ [0]) 0 stored →
  (reads_ok tx → (∃ l, got = l ++ [NEWLINE] ∧ NEWLINE ∉ l ∧ stored = got ++ [0]) ∨
                 (NEWLINE ∉ got ∧ length got = line_room)) →
  in_step rio' (t ++ (SysFgets MAXLINE, RData line) :: tx).
Proof.
  intros (Hp & Hw & Hr & Hu) (Hgw & Hgr & Hpe & Hgi) Hne Hi Hpx Hwx Hgot -> Hcase.
  set (t' := t ++ (SysFgets MAXLINE, RData line) :: tx) in *.
  assert (input t' = input t ++ [line]) as Hin.
  { unfold t'. rewrite input_app. destruct line; [done|]. unfold input at 2. cbn. fold (input tx). by rewrite Hi. }
  rewrite Hin in Hgi. pose proof Hgi as [_ Hl]%Forall_app. inversion_clear Hl as [|? ? Hline _].
  pose proof (proper_no_zero line Hline) as Hz.
  assert (bytes_written fd t' = concat (input t')) as Hw'.
  { rewrite Hin, concat_snoc, <- Hw. unfold t'. rewrite bytes_written_app. cbn. fold (bytes_written fd tx). f_equal.
    rewrite Hwx, c_string_all; [done..|]. apply (writes_ok_app fd (t ++ [(SysFgets MAXLINE, RData line)])).
    by rewrite <- app_assoc. }
  assert (bytes_read fd t' = concat (input t) ++ bytes_read fd tx) as Hr' by (unfold t'; by rewrite bytes_read_app, Hr).
  assert (bytes_read fd tx `prefix_of` line) as Hpre.
  { specialize (Hpe t' [] (eq_sym (app_nil_r t'))). rewrite Hw', Hin, echo_of_lines, concat_snoc, Hr' in Hpe by done.
    by apply prefix_app_inv in Hpe. }
  rewrite Hu in Hgot. cbn in Hgot. rewrite Hgot in Hpre.
  assert (reads_ok tx) as Hrx by (intros n r H; apply (Hgr n r); unfold t'; set_solver).
  specialize (Hcase Hrx). destruct Hline as (b & -> & Hb & _ & Hlen).
  destruct (returned_line b got (unread rio') Hb Hlen Hpre) as [-> Hu']; [naive_solver|].
  rewrite Hu', app_nil_r in Hgot. unfold in_step. rewrite Hw', Hr', Hin, Hgot, concat_snoc. split_and!; try done.
  assert (stored = (b ++ [NEWLINE]) ++ [0]) as -> by (destruct Hcase as [(_ & _ & _ & ->)|[Hn _]]; [done|set_solver]).
  unfold t'. rewrite output_app. cbn. fold (printed tx). rewrite Hp, Hpx, store_same.
  by rewrite c_string_app, app_nil_r.
Qed.

Definition talk_post (w : world) (o : outcome ()) : Prop :=
  ∃ t, extends w (final o) t ∧
  match o with
  | Done _ _ => good t → printed t = input t
  | Blocked _ => good t → ∃ rest, input t = printed t ++ rest ∧ (length rest ≤ 1)%nat
  | _ => False
  end.

Lemma talk_spec rio w :
  rio_ok rio → rio_fd rio = fd → unread rio = [] → wp (talk fd rio) (talk_post w) w.
Proof.
  intros Hok Hfd Hu. unfold talk.
  apply (loop_rule _ (λ rio w1, ∃ t, extends w w1 t ∧ rio_ok rio ∧ rio_fd rio = fd ∧ (good t → in_step rio t))).
  2: { exists []. split; [apply extends_refl|by split_and!]. }
  clear rio Hok Hfd Hu. intros rio w1 (t & He & Hok & Hfd & Hg). wp_step. wp_step.
  { exists t. split; [done|]. intros (Hp & _)%Hg. exists []. rewrite app_nil_r. split; [done|]. cbn. lia. }
  set (w2 := answered (SysFgets MAXLINE) r w1).
  assert (∀ w' tx, extends w2 w' tx → extends w w' (t ++ (SysFgets MAXLINE, r) :: tx)) as Hex.
  { intros w' tx Hx. rewrite (cons_middle _ t), app_assoc. eapply extends_trans; [|exact Hx]. by eapply extends_trans. }
  assert (good (t ++ [(SysFgets MAXLINE, r)]) → printed (t ++ [(SysFgets MAXLINE, r)]) = input t) as Hend.
  { intros (Hp & _)%good_prefix%Hg. rewrite output_app. cbn. by rewrite app_nil_r. }
  assert (input [(SysFgets MAXLINE, r)] = [] → talk_post w (Done () w2)) as Hstop.
  { intros H0. exists (t ++ [(SysFgets MAXLINE, r)]). split; [apply (Hex _ []), extends_refl|].
    intros Hgood. by rewrite (Hend Hgood), input_app, H0, app_nil_r. }
  destruct r as [| |[|c line]| | | | |]; try (wp_step; by apply Hstop). clear Hstop.
  wp_step. pose proof (exchange_spec (c :: line) rio w2 Hok Hfd) as Hx. unfold wp in Hx |- * at 1.
  pose proof (script_shrinks (exchange fd (c :: line) rio) w2) as Hsh.
  destruct (exchange fd (c :: line) rio w2) as [[buf rio'] w3| | |w3|]; destruct Hx as (tx & Hxe & Hix & Hx); try done.
  - destruct Hx as (Hok' & Hfd' & Hpx & Hwx & got & stored & Hgot & Hbuf & Hcase). wp_step.
    pose proof (answered_shorter (SysFgets MAXLINE) (RData (c :: line)) _ _ _ Hs) as Hlt. fold w2 in Hlt.
    cbn [final] in Hsh. split; [|lia].
    eexists. split; [by apply Hex|]. split_and!; try done. intros Hgood.
    eapply in_step_next; try done. by apply good_prefix in Hgood as ?%Hg.
  - eexists. split; [by apply Hex|]. intros Hgood. exists [c :: line].
    rewrite (cons_middle _ t), app_assoc in Hgood |- *. apply good_prefix in Hgood.
    rewrite (input_app (t ++ _)), (output_app (t ++ _)), Hix, Hx, !app_nil_r. split; [|cbn; lia].
    rewrite input_app. f_equal. symmetry. exact (Hend Hgood).
Qed.
End session.

(** ** Properties *)

(** C25: the line client and the echo server together, for proper lines.  Suppose
    that every line [fgets] returns ends in a newline, holds no zero byte and has
    at most 8190 characters before the newline ([proper_line]; for other lines the
    server adds a zero byte, and they are not covered), that no call of the
    connection fails, and that what arrives is, at every moment, part of what
    [echo] answers to what was sent.  Then the client prints the lines of its
    input, each once and unchanged, however the streams are cut: all of them when
    the input ends, and all but the one in transit when it waits. *)
Theorem line_client_prints_input clientfd w :
  talk_post clientfd w (talk clientfd (rio_readinitb (mkRio 0 0 0 []) clientfd) w).
Proof.
  destruct (rio_readinitb_ok (mkRio 0 0 0 []) clientfd) as [Hok Hu]; [done|]. by apply (talk_spec clientfd).
Qed.

(** Two lines, the first of which comes back in two pieces. *)
Definition two_lines : outcome () :=
  run (talk 4 (rio_readinitb (mkRio 0 0 0 []) 4))
    [RData [97; 98; 10]; RInt 1; RInt 2; RData [97]; RErr EINTR; RData [98; 10]; RInt 0;
     RData [99; 10]; RInt 2; RData [99; 10]; RInt 0; RData []].

(** The assumptions on a trace, as a check. *)
Definition call_goodb (fd : Z) (ev : event) : bool :=
  match ev with
  | (SysRead fd' _, RData []) | (SysWrite fd' _, RInt 0) => negb (fd' =? fd)
  | (SysRead fd' _, RErr e) | (SysWrite fd' _, RErr e) => negb (fd' =? fd) || (e =? EINTR)
  | _ => true
  end.

Definition echoedb (fd : Z) (t : list event) (n : nat) : bool :=
  bool_decide (bytes_read fd (take n t) `prefix_of` echo_of (bytes_written fd (take n t))).

Lemma good_check fd t :
  forallb (call_goodb fd) t = true → forallb (echoedb fd t) (seq 0 (S (length t))) = true →
  Forall proper_line (input t) → good fd t.
Proof.
  intros Hc He Hi. rewrite forallb_forall in Hc. rewrite forallb_forall in He. split_and!; [| | |done].
  - intros bs r Hin%list_elem_of_In%Hc. cbn in Hin. rewrite Z.eqb_refl in Hin. split; [by intros ->|].
    intros e ->. by apply Z.eqb_eq in Hin.
  - intros n r Hin%list_elem_of_In%Hc. cbn in Hin. rewrite Z.eqb_refl in Hin. split; [by intros ->|].
    intros e ->. by apply Z.eqb_eq in Hin.
  - intros t1 t2 ->. specialize (He (length t1)). unfold echoedb in He. rewrite take_app_length in He.
    apply bool_decide_eq_true in He; [done|]. apply in_seq. rewrite length_app. lia.
Qed.

Lemma two_lines_printed :
  two_lines = Done () (final two_lines) ∧ good 4 (trace (final two_lines)) ∧
  printed (trace (final two_lines)) = [[97; 98; 10]; [99; 10]].
Proof.
  split_and!; [vm_compute; reflexivity| |vm_compute; reflexivity].
  apply good_check; [vm_compute; reflexivity..|].
  replace (input (trace (final two_lines))) with [[97; 98] ++ [NEWLINE]; [99] ++ [NEWLINE]] by (vm_compute; reflexivity).
  pose proof line_room_spec. unfold MAXLINE, NEWLINE in *.
  repeat constructor; eexists; (split; [reflexivity|]); split_and!; try set_solver; cbn; lia.
Qed.
