(* ===== verification/Pool.v ===== *)
(** * The echo server with a pool of clients

    Models [csapp/concurrent_program/echoservers.cc]: one process serves many
    connections with [select], a table of client descriptors and one Rio reader
    per client. *)

From S2P Require Import Prelude Sys Rio Echo.

(** [fd_set]s are sets of descriptors; [clientfd] and [clientrio] are arrays of
    [FD_SETSIZE] entries. *)
Record pool := mkPool {
  maxfd : Z;
  read_set : gset Z;
  ready_set : gset Z;
  nready : Z;
  maxi : Z;
  clientfd : list Z;
  clientrio : list rio_t
}.

Definition SLOTS : nat := Z.to_nat FD_SETSIZE.

(** The static object starts as zeros. *)
Definition static_pool : pool :=
  mkPool 0 ∅ ∅ 0 0 (replicate SLOTS 0) (replicate SLOTS (mkRio 0 0 0 [])).

(** The same text as in [network_program/server.cc]. *)
Definition open_listenfd : Z → M Z := open_listenfd.

(** [FD_SET] and the other macros index an array of [FD_SETSIZE] bits. *)
Definition fd_index (fd : Z) : M () :=
  if (0 <=? fd) && (fd <? FD_SETSIZE) then mret () else fail_with BufferOverflow.

Definition init_pool (listenfd : Z) (p : pool) : M pool :=
  _ ← fd_index listenfd;
  mret (mkPool listenfd {[listenfd]} (ready_set p) (nready p) (-1)
          (replicate (length (clientfd p)) (-1)) (clientrio p)).

(** The first free slot gets the client; without one nothing but [nready]
    changes, and the descriptor stays open. *)
Definition add_client (connfd : Z) (p : pool) : M pool :=
  let p := mkPool (maxfd p) (read_set p) (ready_set p) (nready p - 1) (maxi p) (clientfd p) (clientrio p) in
  match list_find (λ fd, fd < 0) (clientfd p) with
  | Some (i, _) =>
      _ ← fd_index connfd;
      let rio := rio_readinitb (default (mkRio 0 0 0 []) (clientrio p !! i)) connfd in
      mret (mkPool (if maxfd p <? connfd then connfd else maxfd p) ({[connfd]} ∪ read_set p)
              (ready_set p) (nready p) (if maxi p <? Z.of_nat i then Z.of_nat i else maxi p)
              (<[i := connfd]> (clientfd p)) (<[i := rio]> (clientrio p)))
  | None => mret p
  end.

Definition set_nready (p : pool) (v : Z) : pool :=
  mkPool (maxfd p) (read_set p) (ready_set p) v (maxi p) (clientfd p) (clientrio p).

Definition drop_client (p : pool) (i : nat) (connfd : Z) : pool :=
  mkPool (maxfd p) (read_set p ∖ {[connfd]}) (ready_set p) (nready p) (maxi p)
    (<[i := -1]> (clientfd p)) (clientrio p).

(** The body of the loop for slot [i]; [rio] is a copy of the reader in the
    pool, so what it buffered is gone when the body ends.  The second component
    is [byte_cnt]. *)
Definition check_client (i : nat) (p : pool) (byte_cnt : Z) : M (pool * Z) :=
  let connfd := default (-1) (clientfd p !! i) in
  let rio := default (mkRio 0 0 0 []) (clientrio p !! i) in
  if 0 <? connfd then
    _ ← fd_index connfd;
    if bool_decide (connfd ∈ ready_set p) then
      let p := set_nready p (nready p - 1) in
      '(n, buf, _) ← rio_readlineb rio MAXLINE;
      if negb (n =? 0) then
        let byte_cnt := i32 (byte_cnt + n) in
        if MAXLINE <? u64 n then fail_with BufferOverflow
        else _ ← rio_writen connfd (take (Z.to_nat n) buf); mret (p, byte_cnt)
      else
        _ ← sys_close connfd;
        mret (drop_client p i connfd, byte_cnt)
    else mret (p, byte_cnt)
  else mret (p, byte_cnt).

(** [k] slots are left, up to [maxi]. *)
Fixpoint check_from (k i : nat) (p : pool) (byte_cnt : Z) : M (pool * Z) :=
  match k with
  | O => mret (p, byte_cnt)
  | S k =>
      if 0 <? nready p then
        '(p, byte_cnt) ← check_client i p byte_cnt;
        check_from k (S i) p byte_cnt
      else mret (p, byte_cnt)
  end.

Definition check_clients (p : pool) (byte_cnt : Z) : M (pool * Z) :=
  check_from (Z.to_nat (maxi p + 1)) 0 p byte_cnt.

(** One round of [main].  [select] leaves the set alone when it fails. *)
Definition pool_round (listenfd : Z) (st : pool * Z) : M (pool * Z) :=
  let p := st.1 in
  r ← call (SysSelect (maxfd p + 1) (elements (read_set p)));
  let ready := match r with REvents evs => list_to_set evs.*1 | _ => read_set p end in
  let p := mkPool (maxfd p) (read_set p) ready (ret_of r) (maxi p) (clientfd p) (clientrio p) in
  p ← (if bool_decide (listenfd ∈ ready_set p) then
         connfd ← call_int (SysAccept listenfd); add_client connfd p
       else mret p);
  check_clients p st.2.

Definition main (argv : list string) : M () :=
  match argv with
  | [_; port] =>
      listenfd ← open_listenfd (atoi (bytes_of_string port));
      p ← init_pool listenfd static_pool;
      loop (λ st, st ← pool_round listenfd st; mret (inl st)) (p, 0)
  | _ => exit 0
  end.

(** ** The invariant of the pool *)

(** Slot [i] holds the client [fd]. *)
Definition client_at (p : pool) (i : nat) (fd : Z) : Prop := clientfd p !! i = Some fd ∧ 0 ≤ fd.

Record pool_inv (listenfd : Z) (p : pool) : Prop := {
  pi_listen : 0 ≤ listenfd < FD_SETSIZE ∧ listenfd ≤ maxfd p;
  pi_slots : length (clientfd p) = SLOTS ∧ length (clientrio p) = SLOTS;
  pi_maxi : -1 ≤ maxi p < FD_SETSIZE;
  pi_set fd : fd ∈ read_set p ↔ fd = listenfd ∨ ∃ i, client_at p i fd;
  pi_bounds i fd : client_at p i fd → Z.of_nat i ≤ maxi p ∧ fd ≤ maxfd p ∧ fd < FD_SETSIZE ∧ fd ≠ listenfd;
  pi_unique i j fd : client_at p i fd → client_at p j fd → i = j;
  pi_rio i fd : client_at p i fd → ∃ rp, clientrio p !! i = Some rp ∧ rio_ok rp ∧ rio_fd rp = fd ∧ unread rp = [];
  pi_bufs i rp : clientrio p !! i = Some rp → len (rio_buf rp) ≤ RIO_BUFSIZE
}.

Lemma SLOTS_spec : Z.of_nat SLOTS = FD_SETSIZE.
Proof. unfold SLOTS, FD_SETSIZE. lia. Qed.

Opaque SLOTS.

Lemma client_at_set_nready p v i fd : client_at (set_nready p v) i fd ↔ client_at p i fd.
Proof. done. Qed.

Lemma pool_inv_nready listenfd p v : pool_inv listenfd p → pool_inv listenfd (set_nready p v).
Proof. intros []. by split. Qed.

(** Removing the client of slot [i]. *)
Lemma client_at_drop p i fd j fd' :
  client_at (drop_client p i fd) j fd' ↔ j ≠ i ∧ client_at p j fd'.
Proof.
  unfold client_at, drop_client. cbn. destruct (decide (j = i)) as [->|Hne].
  - split; [|by intros [? _]]. intros [H H0]. exfalso.
    apply list_lookup_insert_Some in H as [(_ & <- & _)|[? _]]; [lia|done].
  - rewrite list_lookup_insert_ne by done. naive_solver.
Qed.

Lemma pool_inv_drop listenfd p i fd :
  pool_inv listenfd p → client_at p i fd → pool_inv listenfd (drop_client p i fd).
Proof.
  intros Hinv Hc. pose proof Hinv as [Hl Hs Hm Hset Hb Hu Hr Hbuf].
  destruct (Hb i fd Hc) as (_ & _ & _ & Hne).
  split; cbn; try done.
  - by rewrite length_insert.
  - intros fd'. rewrite elem_of_difference, not_elem_of_singleton, Hset.
    setoid_rewrite client_at_drop. split.
    + intros [[->|[j Hj]] Hfd]; [by left|]. right. exists j. split; [|done].
      intros ->. apply Hfd. destruct Hj as [Hj _], Hc as [Hc _]. congruence.
    + intros [->|(j & Hji & Hj)]; [by split; [left|]|]. split; [by right; exists j|].
      intros ->. apply Hji. by eapply Hu.
  - intros j fd' [_ Hj]%client_at_drop. by apply (Hb j).
  - intros j k fd' [_ Hj]%client_at_drop [_ Hk]%client_at_drop. by eapply Hu.
  - intros j fd' [_ Hj]%client_at_drop. by apply (Hr j).
Qed.

(** Adding a client to the free slot [i]. *)
Definition put_client (p : pool) (i : nat) (connfd : Z) : pool :=
  mkPool (if maxfd p <? connfd then connfd else maxfd p) ({[connfd]} ∪ read_set p)
    (ready_set p) (nready p) (if maxi p <? Z.of_nat i then Z.of_nat i else maxi p)
    (<[i := connfd]> (clientfd p))
    (<[i := rio_readinitb (default (mkRio 0 0 0 []) (clientrio p !! i)) connfd]> (clientrio p)).

Lemma client_at_put p i x connfd j fd' :
  clientfd p !! i = Some x → x < 0 → 0 ≤ connfd →
  client_at (put_client p i connfd) j fd' ↔ (j = i ∧ fd' = connfd) ∨ (j ≠ i ∧ client_at p j fd').
Proof.
  intros Hi Hx Hfd. unfold client_at, put_client. cbn. destruct (decide (j = i)) as [->|Hne].
  - rewrite list_lookup_insert_eq by (by eapply lookup_lt_Some). naive_solver.
  - rewrite list_lookup_insert_ne by done. naive_solver.
Qed.

Lemma pool_inv_put listenfd p i x connfd :
  pool_inv listenfd p → clientfd p !! i = Some x → x < 0 →
  0 ≤ connfd < FD_SETSIZE → connfd ∉ read_set p → pool_inv listenfd (put_client p i connfd).
Proof.
  intros Hinv Hi Hx Hfd Hnew. pose proof Hinv as [Hl [Hs Hs'] Hm Hset Hb Hu Hr Hbuf].
  pose proof (lookup_lt_Some _ _ _ Hi) as Hlt. pose proof SLOTS_spec as HS.
  assert (∀ j fd', client_at (put_client p i connfd) j fd' ↔
    (j = i ∧ fd' = connfd) ∨ (j ≠ i ∧ client_at p j fd')) as Hat by (intros; by eapply client_at_put; [..|lia]).
  assert (∀ j, client_at p j connfd → False) as Hfree by (intros j Hj; apply Hnew, Hset; eauto).
  split; try (cbn; done).
  - destruct Hl. split; [done|]. cbn. case_bool; breflect; lia.
  - cbn. by rewrite !length_insert.
  - cbn. case_bool; breflect; lia.
  - intros fd'. cbn. rewrite elem_of_union, elem_of_singleton, Hset. setoid_rewrite Hat. split.
    + intros [->|[->|[j Hj]]]; [right; exists i; by left|by left|]. right. exists j. right. split; [|done].
      intros ->. destruct Hj as [Hj ?]. rewrite Hi in Hj. injection Hj as ->. lia.
    + intros [->|(j & [[-> ->]|[_ Hj]])]; [by right; left|by left|]. right; right. by exists j.
  - intros j fd' [[-> ->]|[Hne Hj]]%Hat; cbn.
    + split_and!; [case_bool; breflect; lia|case_bool; breflect; lia|lia|].
      intros ->. apply Hnew, Hset. by left.
    + destruct (Hb j fd' Hj) as (? & ? & ? & ?). split_and!; try done; case_bool; breflect; lia.
  - intros j k fd' [[-> ->]|[Hne Hj]]%Hat [[-> Hk]|[Hne' Hk]]%Hat; try done.
    + by apply Hfree in Hk.
    + subst. by apply Hfree in Hj.
    + by eapply Hu.
  - intros j fd' [[-> ->]|[Hne Hj]]%Hat; cbn.
    + rewrite list_lookup_insert_eq by lia. eexists. split; [done|].
      destruct (rio_readinitb_ok (default (mkRio 0 0 0 []) (clientrio p !! i)) connfd) as [? ?]; [|done].
      destruct (clientrio p !! i) as [rp|] eqn:E; [by apply (Hbuf i)|done].
    + rewrite list_lookup_insert_ne by done. by apply (Hr j).
  - intros j rp. cbn. destruct (decide (j = i)) as [->|Hne].
    + rewrite list_lookup_insert_eq by lia. intros [= <-]. cbn.
      destruct (clientrio p !! i) as [rp|] eqn:E; [by apply (Hbuf i)|done].
    + rewrite list_lookup_insert_ne by done. apply Hbuf.
Qed.

Lemma ensures_fd_index {A} fd (k : M A) (R : A → Prop) :
  (0 ≤ fd < FD_SETSIZE → ensures k R) → ensures (_ ← fd_index fd; k) R.
Proof.
  intros H w a w'. unfold fd_index, mbind, M_bind. case_bool; [|done]. breflect. by apply H.
Qed.

Lemma init_pool_inv listenfd : ensures (init_pool listenfd static_pool) (pool_inv listenfd).
Proof.
  unfold init_pool. apply ensures_fd_index. intros Hl. apply ensures_ret.
  assert (∀ i fd, ¬ client_at (mkPool listenfd {[listenfd]} (ready_set static_pool) (nready static_pool) (-1)
    (replicate (length (clientfd static_pool)) (-1)) (clientrio static_pool)) i fd) as Hno.
  { intros i fd [H H0]. apply lookup_replicate in H as [-> _]. lia. }
  split; cbn [maxfd read_set maxi clientfd clientrio static_pool];
    try (by intros; exfalso; eapply Hno); rewrite ?length_replicate; try done.
  - intros fd. rewrite elem_of_singleton. split; [by left|]. intros [->|[i Hi]]; [done|by apply Hno in Hi].
  - intros i rp [-> _]%lookup_replicate. done.
Qed.

Lemma add_client_inv listenfd connfd p :
  pool_inv listenfd p → connfd ∉ read_set p → ensures (add_client connfd p) (pool_inv listenfd).
Proof.
  intros Hinv Hnew. apply (pool_inv_nready listenfd p (nready p - 1)) in Hinv. unfold add_client. cbn zeta.
  fold (set_nready p (nready p - 1)). set (p1 := set_nready p (nready p - 1)) in *.
  destruct (list_find (λ fd, fd < 0) (clientfd p1)) as [[i x]|] eqn:E; [|by apply ensures_ret].
  apply list_find_Some in E as (Hi & Hx & _). apply ensures_fd_index. intros Hfd. apply ensures_ret.
  by apply (pool_inv_put listenfd p1 i x connfd).
Qed.

Lemma check_client_inv listenfd i p cnt :
  pool_inv listenfd p →
  ensures (check_client i p cnt) (λ r, pool_inv listenfd r.1 ∧ clientrio r.1 = clientrio p).
Proof.
  intros Hinv. unfold check_client. cbn zeta. case_bool; [|by apply ensures_ret]. breflect.
  apply ensures_fd_index. intros Hfd. case_bool; [|by apply ensures_ret].
  assert (client_at p i (default (-1) (clientfd p !! i))) as Hc.
  { unfold client_at. destruct (clientfd p !! i) as [fd|]; cbn in *; [|lia]. split; [done|lia]. }
  pose proof (pool_inv_nready listenfd p (nready p - 1) Hinv).
  solve_ensures; [done|]. split; [by apply pool_inv_drop|done].
Qed.

Lemma check_from_inv listenfd k i p cnt :
  pool_inv listenfd p →
  ensures (check_from k i p cnt) (λ r, pool_inv listenfd r.1 ∧ clientrio r.1 = clientrio p).
Proof.
  revert i p cnt. induction k as [|k IH]; intros i p cnt Hinv; cbn [check_from]; [by apply ensures_ret|].
  case_bool; [|by apply ensures_ret]. eapply ensures_bind_dep; [by apply check_client_inv|].
  intros [p1 cnt1] [Hinv1 Hrio]. cbn in *. rewrite <- Hrio. by apply IH.
Qed.

#[export] Instance honest_fd_index fd : Honest (fd_index fd).
Proof. unfold fd_index. solve_honest. Qed.
#[export] Instance honest_add_client fd p : Honest (add_client fd p).
Proof. unfold add_client. cbn zeta. solve_honest. Qed.
#[export] Instance honest_check_client i p cnt : Honest (check_client i p cnt).
Proof. unfold check_client. cbn zeta. solve_honest. Qed.
#[export] Instance honest_check_from k i p cnt : Honest (check_from k i p cnt).
Proof. revert i p cnt. induction k as [|k IH]; intros; cbn [check_from]; solve_honest. Qed.

(** [accept] only returns descriptors that are not open. *)
Definition accepts_fresh (listenfd : Z) (open : gset Z) (t : list event) : Prop :=
  ∀ r, (SysAccept listenfd, r) ∈ t → ret_of r ∉ open.

Lemma pool_round_inv listenfd p cnt w p' cnt' w' t :
  pool_inv listenfd p → pool_round listenfd (p, cnt) w = Done (p', cnt') w' →
  extends w w' t → accepts_fresh listenfd (read_set p) t → pool_inv listenfd p'.
Proof.
  intros Hinv E He Hfresh. unfold pool_round in E. cbn [fst snd] in E. revert E.
  unfold mbind at 1, M_bind at 1.
  destruct (honest_call (SysSelect (maxfd p + 1) (elements (read_set p))) w) as (t1 & He1 & _).
  destruct (call (SysSelect (maxfd p + 1) (elements (read_set p))) w) as [r w1| | | |]; try done. cbn zeta.
  set (p1 := mkPool _ _ _ _ _ _ _).
  assert (pool_inv listenfd p1) as Hinv1 by (destruct Hinv; by split).
  unfold mbind at 1, M_bind at 1. case_bool.
  2: { cbn beta iota. intros E. by apply check_from_inv with (listenfd := listenfd) in E as [? _]. }
  unfold call_int, mbind at 1, M_bind at 1, mbind at 1, M_bind at 1.
  destruct (call (SysAccept listenfd) w1) as [r2 w2| | | |] eqn:Eacc; try done.
  assert (extends w1 w2 [(SysAccept listenfd, r2)]) as He2.
  { unfold call in Eacc. destruct (script w1) as [|r3 s]; [done|]. case_bool; [|done].
    by injection Eacc as <- <-. }
  cbn beta iota. unfold mret at 1, M_ret at 1.
  pose proof (add_client_inv listenfd (ret_of r2) p1 Hinv1) as Hadd.
  destruct (honest_add_client (ret_of r2) p1 w2) as (t3 & He3 & _).
  destruct (add_client (ret_of r2) p1 w2) as [p2 w3| | | |] eqn:Eadd; try done.
  intros E. destruct (honest_check_from (Z.to_nat (maxi p2 + 1)) 0 p2 cnt w3) as (t4 & He4 & _).
  unfold check_clients in E. rewrite E in He4.
  assert (t = t1 ++ [(SysAccept listenfd, r2)] ++ t3 ++ t4) as ->.
  { eapply extends_inj; [exact He|]. do 3 (eapply extends_trans; [eassumption|]). done. }
  apply check_from_inv with (listenfd := listenfd) in E as [? _]; [done|].
  eapply Hadd; [|exact Eadd]. apply (Hfresh r2). set_solver.
Qed.

(** ** One line per round *)

(** A line that was returned is the first piece of what there was, and what is
    sent back is as long as the result says. *)
Lemma line_result_first fd t line v stored left :
  line_result line_room fd t line v stored left → v ≠ 0 → v ≠ -1 →
  segments line_room (line ++ left) = line :: segments line_room left ∧ v = len (sent_back line).
Proof.
  pose proof line_room_spec as HK. unfold len.
  intros H Hv0 Hv. destruct H as [l left Hl Hk|l left Hl Hk|l Hl Hne Hk _| |]; [| | |by destruct Hv0|by destruct Hv].
  - rewrite segments_line, sent_back_line, length_app by done. split; [done|]. cbn. unfold len. lia.
  - rewrite sent_back_part, length_app by done. split; [|cbn; unfold len; lia]. apply segments_cut; [done|done|].
    intros ->. cbn in Hk. unfold MAXLINE in *. lia.
  - rewrite app_nil_r, segments_rest, sent_back_part, length_app by done. split; [done|]. cbn. unfold len. lia.
Qed.

(** What serving the client [fd] of slot [i] does: at the end of its stream it is
    closed and leaves the pool; otherwise the first piece [line] of what was read
    is sent back, and [lost], the rest of it, is nowhere, since the pool, its
    readers included, only changes in [nready]. *)
Definition served_post (i : nat) (fd : Z) (p : pool) (cnt : Z) (w : world) (o : outcome (pool * Z)) : Prop :=
  ∃ t, extends w (final o) t ∧
  match o with
  | Done (p', cnt') _ =>
      (p' = drop_client (set_nready p (nready p - 1)) i fd ∧ cnt' = cnt ∧
         bytes_read fd t = [] ∧ bytes_written fd t = [] ∧
         ∃ t0 r, t = t0 ++ [(SysClose fd, r)] ∧ eof_seen fd t0) ∨
      (p' = set_nready p (nready p - 1) ∧ (∀ r, (SysClose fd, r) ∉ t) ∧ ∃ line lost rest,
         bytes_read fd t = line ++ lost ∧ line ≠ [] ∧
         segments line_room (line ++ lost) = line :: segments line_room lost ∧
         cnt' = i32 (cnt + len (sent_back line)) ∧
         sent_back line = bytes_written fd t ++ rest ∧ (writes_ok fd t → rest = []))
  | Faulted f _ => f = BufferOverflow ∧ read_failed fd t
  | Blocked _ => True
  | _ => False
  end.

Lemma only_not_close f fd t r : only f t → f (SysClose fd) = false → (SysClose fd, r) ∉ t.
Proof.
  intros Ho Hf Hin. unfold only in Ho. rewrite Forall_forall in Ho. specialize (Ho _ Hin). cbn in Ho. congruence.
Qed.

Lemma check_client_spec listenfd i fd p cnt w :
  pool_inv listenfd p → client_at p i fd → 0 < fd → fd ∈ ready_set p →
  wp (check_client i p cnt) (served_post i fd p cnt w) w.
Proof.
  intros Hinv Hc Hpos Hrdy. destruct (pi_rio _ _ Hinv i fd Hc) as (rp & Hrp & Hok & Hrfd & Hun).
  destruct (pi_bounds _ _ Hinv i fd Hc) as (_ & _ & Hlt & _).
  unfold check_client, fd_index. destruct Hc as [Hfd Hnn]. rewrite Hfd, Hrp. cbn [default from_option id]. cbn zeta.
  rewrite (proj2 (Z.ltb_lt 0 fd)), (proj2 (Z.leb_le 0 fd)), (proj2 (Z.ltb_lt fd FD_SETSIZE)) by done.
  rewrite (bool_decide_eq_true_2 _ Hrdy). cbn [andb]. wp_step. wp_step. cbn beta iota. wp_step.
  pose proof (readline_room rp w Hok) as (t1 & He1 & Ho).
  pose proof (emits_extends is_read (rio_readlineb rp MAXLINE) w t1 He1) as Hrd.
  apply (only_read_written fd) in Hrd as Hnw. rewrite Hrfd in Ho. unfold wp at 1.
  destruct (rio_readlineb rp MAXLINE w) as [[[v stored] rp1] w1| | |w1|]; try done; [|by exists t1].
  destruct Ho as (_ & _ & line & Hline & Hres). rewrite Hun in Hline. cbn [app] in Hline.
  wp_step; breflect.
  2: { assert (line = [] ∧ unread rp1 = [] ∧ eof_seen fd t1) as (-> & Hnil & Heof).
       { subst v. inversion Hres; try done; unfold len in *; lia. }
       unfold sys_close. wp_steps; [by exists t1|]. exists (t1 ++ [(SysClose fd, r)]).
       split; [eapply extends_trans; [exact He1|done]|]. left.
       rewrite bytes_read_app, bytes_written_app, Hline, Hnw, Hnil. split_and!; try done.
       - eexists _, _. done. }
  destruct (decide (v = -1)) as [->|Hv1].
  { change (MAXLINE <? u64 (-1)) with true. cbn beta iota. wp_step. exists t1. split; [done|]. split; [done|].
    inversion Hres; try done; unfold len in *; lia. }
  destruct (line_result_sent _ _ _ _ _ _ Hres Heqb Hv1) as (Hv & Hsent & Hne).
  rewrite u64_small, (proj2 (Z.ltb_ge MAXLINE v)) by (unfold MAXLINE in *; lia). rewrite Hsent.
  destruct (line_result_first _ _ _ _ _ _ Hres Heqb Hv1) as [Hseg ->]. wp_step.
  pose proof (rio_writen_spec fd (sent_back line) w1) as (t2 & rest & He2 & Hb & Hcs).
  pose proof (emits_extends is_write (rio_writen fd (sent_back line)) w1 t2 He2) as Hwr.
  unfold wp at 1. destruct (rio_writen fd (sent_back line) w1) as [v2 w2| | |w2|]; try done;
    [|by exists (t1 ++ t2); split; [by eapply extends_trans|]].
  wp_step. exists (t1 ++ t2). split; [by eapply extends_trans|]. right. split; [done|]. split.
  { intros r Hin. apply elem_of_app in Hin as [Hin|Hin]; revert Hin; by eapply only_not_close. }
  exists line, (unread rp1), rest.
  rewrite bytes_read_app, bytes_written_app, Hnw, (only_write_read _ _ Hwr), app_nil_r.
  split_and!; try done. intros [_ Hw2]%writes_ok_app.
  destruct Hcs as [[_ ->]|(_ & _ & Hfail)]; [done|by apply write_failed_not_ok in Hfail].
Qed.

(** ** Properties *)

Inductive pool_reachable (listenfd : Z) : pool * Z → Prop :=
| pool_start p w w' :
    init_pool listenfd static_pool w = Done p w' → pool_reachable listenfd (p, 0)
| pool_next st w st' w' t :
    pool_reachable listenfd st → pool_round listenfd st w = Done st' w' →
    extends w w' t → accepts_fresh listenfd (read_set st.1) t → pool_reachable listenfd st'.

Lemma pool_reachable_inv listenfd st : pool_reachable listenfd st → pool_inv listenfd st.1.
Proof.
  induction 1 as [p w w' E|[p cnt] w [p' cnt'] w' t _ IH E He Hf]; [by eapply init_pool_inv|].
  by eapply pool_round_inv.
Qed.

(** A sample run: the server listens on 3, a client connects (descriptor 4), and
    sends two lines at once. *)
Definition empty_pool : pool := mkPool 0 ∅ ∅ 0 0 [] [].
Definition demo_start : outcome pool := run (init_pool 3 static_pool) [].
Definition demo_accept : outcome (pool * Z) :=
  run (pool_round 3 (value empty_pool demo_start, 0)) [REvents [(3, 1)]; RPeer 4 (SockIn 0 0)].
Definition demo_pool : pool := (value (empty_pool, 0) demo_accept).1.

Lemma demo_pool_reachable : pool_reachable 3 (value (empty_pool, 0) demo_accept).
Proof.
  apply (pool_next 3 (value empty_pool demo_start, 0) (World [REvents [(3, 1)]; RPeer 4 (SockIn 0 0)] 0 [])
    _ (final demo_accept) (trace (final demo_accept))).
  - apply (pool_start 3 _ (World [] 0 []) (final demo_start)). vm_compute. reflexivity.
  - vm_compute. reflexivity.
  - reflexivity.
  - intros r Hin. assert (r = RPeer 4 (SockIn 0 0)) as ->.
    { vm_compute in Hin. set_solver. }
    vm_compute. intros H. by inversion H.
Qed.

Definition demo_ready : pool :=
  mkPool (maxfd demo_pool) (read_set demo_pool) {[4]} 1 (maxi demo_pool) (clientfd demo_pool) (clientrio demo_pool).

Lemma demo_ready_inv : pool_inv 3 demo_ready.
Proof. destruct (pool_reachable_inv _ _ demo_pool_reachable). by split. Qed.

(** C27: the pool is consistent after every round: the watched set is the
    listening descriptor and the clients in the table, each client is in exactly
    one slot with its own reader, within [maxi], and [select] is always asked
    about enough descriptors; [accept] returning descriptors that are not open is
    all that is assumed of the kernel. *)
Theorem pool_invariant listenfd st :
  pool_reachable listenfd st →
  pool_inv listenfd st.1 ∧ ∀ fd, fd ∈ read_set st.1 → 0 ≤ fd < maxfd st.1 + 1.
Proof.
  intros Hr. pose proof (pool_reachable_inv _ _ Hr) as Hinv. split; [done|].
  intros fd Hfd. apply (pi_set _ _ Hinv) in Hfd. pose proof (pi_listen _ _ Hinv).
  destruct Hfd as [->|[i Hi]]; [lia|]. destruct (pi_bounds _ _ Hinv i fd Hi). destruct Hi. lia.
Qed.

Lemma pool_invariant_witness :
  pool_inv 3 demo_pool ∧ ∀ fd, fd ∈ read_set demo_pool → 0 ≤ fd < maxfd demo_pool + 1.
Proof. apply (pool_invariant 3 (value (empty_pool, 0) demo_accept)). exact demo_pool_reachable. Defined.

(** C29: one line per client and round, and the rest is lost.  Serving a ready
    client whose stream has ended closes it and takes it out of the pool; otherwise
    the first line of what was read, or as much of it as fits in the buffer, is
    counted and sent back (as far as [write] takes it, and in full when no [write]
    fails), the client stays, and whatever else the same [read] delivered stays in
    the copy of the reader and is dropped: the reader in the pool is unchanged.  The
    only fault is the [rio_writen] of [n] = -1 bytes after a failed [read]. *)
Theorem pool_drops_buffered_input listenfd i fd p cnt w :
  pool_inv listenfd p → client_at p i fd → 0 < fd → fd ∈ ready_set p →
  served_post i fd p cnt w (check_client i p cnt w).
Proof. exact (check_client_spec listenfd i fd p cnt w). Qed.

(** The client sent [a], newline, [b], newline in one segment. *)
Lemma pool_drops_buffered_input_witness :
  let w := World [RData [97; 10; 98; 10]; RInt 2] 0 [] in
  let o := check_client 0 demo_ready 0 w in
  served_post 0 4 demo_ready 0 w o ∧
  bytes_read 4 (trace (final o)) = [97; 10; 98; 10] ∧ bytes_written 4 (trace (final o)) = [97; 10].
Proof.
  cbn zeta. split; [|split; vm_compute; reflexivity].
  apply (pool_drops_buffered_input 3); [exact demo_ready_inv| |lia|].
  - split; [vm_compute; reflexivity|lia].
  - by apply (elem_of_singleton_2 4 4).
Defined.
