(* ===== verification/PoolRounds.v ===== *)
(** * The rounds of the pool server are complete

    [check_clients] of [csapp/concurrent_program/echoservers.cc] stops at the
    highest slot in use and as soon as [nready] clients were served.  This file
    shows that these two short cuts never skip a client: a round does what a round
    over all [FD_SETSIZE] slots would do. *)

From S2P Require Import Prelude Sys Rio Echo Pool.

(** ** The reference: a round over the whole table *)

Fixpoint check_every (k i : nat) (p : pool) (byte_cnt : Z) : M (pool * Z) :=
  match k with
  | O => mret (p, byte_cnt)
  | S k => '(p, byte_cnt) ← check_client i p byte_cnt; check_every k (S i) p byte_cnt
  end.

Definition full_round (listenfd : Z) (st : pool * Z) : M (pool * Z) :=
  let p := st.1 in
  r ← call (SysSelect (maxfd p + 1) (elements (read_set p)));
  let ready := match r with REvents evs => list_to_set evs.*1 | _ => read_set p end in
  let p := mkPool (maxfd p) (read_set p) ready (ret_of r) (maxi p) (clientfd p) (clientrio p) in
  p ← (if bool_decide (listenfd ∈ ready_set p) then
         connfd ← call_int (SysAccept listenfd); add_client connfd p
       else mret p);
  check_every SLOTS 0 p st.2.

(** ** Counting the clients that are ready *)

Definition is_ready (p : pool) (fd : Z) : Prop := 0 < fd ∧ fd ∈ ready_set p.

#[export] Instance is_ready_dec p fd : Decision (is_ready p fd).
Proof. unfold is_ready. apply _. Defined.

(** The ready clients in the slots from [i] on. *)
Definition ready_from (i : nat) (p : pool) : nat := length (filter (is_ready p) (drop i (clientfd p))).

Lemma ready_from_step i p fd :
  clientfd p !! i = Some fd →
  ready_from i p = ((if decide (is_ready p fd) then 1 else 0) + ready_from (S i) p)%nat.
Proof.
  intros H. unfold ready_from. rewrite (drop_S _ _ _ H), filter_cons. by destruct (decide _).
Qed.

Lemma ready_from_end i p : (length (clientfd p) ≤ i)%nat → ready_from i p = 0%nat.
Proof. intros H. unfold ready_from. by rewrite drop_ge. Qed.

Section rounds.
Context (listenfd : Z).
Implicit Types (p : pool) (cnt : Z) (i k : nat).

(** A slot without a ready client is left alone. *)
Lemma check_client_idle i p cnt fd :
  pool_inv listenfd p → clientfd p !! i = Some fd → ¬ is_ready p fd → check_client i p cnt = mret (p, cnt).
Proof.
  intros Hinv Hi Hn. unfold check_client, fd_index. rewrite Hi. cbn [default from_option id]. cbn zeta.
  case_bool; [|done]. breflect. destruct (pi_bounds _ _ Hinv i fd) as (_ & _ & Hlt & _); [by split; [|lia]|].
  rewrite (proj2 (Z.leb_le 0 fd)), (proj2 (Z.ltb_lt fd FD_SETSIZE)) by lia. cbn [andb].
  rewrite bool_decide_eq_false_2; [done|]. intros Hr. by apply Hn.
Qed.

Lemma check_client_out i p cnt : clientfd p !! i = None → check_client i p cnt = mret (p, cnt).
Proof. intros Hi. unfold check_client. by rewrite Hi. Qed.

(** A slot with one: the counters change, and the other slots do not. *)
Lemma check_client_ready i p cnt fd :
  pool_inv listenfd p → clientfd p !! i = Some fd → is_ready p fd →
  ensures (check_client i p cnt) (λ r, pool_inv listenfd r.1 ∧ nready r.1 = nready p - 1 ∧ maxi r.1 = maxi p ∧
    ready_from (S i) r.1 = ready_from (S i) p).
Proof.
  intros Hinv Hi [Hpos Hr]. unfold check_client. rewrite Hi. cbn [default from_option id]. cbn zeta.
  rewrite (proj2 (Z.ltb_lt 0 fd)) by done. apply ensures_fd_index. intros _. rewrite (bool_decide_eq_true_2 _ Hr).
  pose proof (pool_inv_nready listenfd p (nready p - 1) Hinv) as Hinv1.
  solve_ensures; [done|]. split; [apply pool_inv_drop; [done|by split; [|lia]]|]. split_and!; try done.
  unfold ready_from, drop_client, is_ready. cbn. by rewrite drop_insert_lt by lia.
Qed.

(** Nobody is ready from slot [i] on. *)
Lemma check_every_idle k i p cnt :
  pool_inv listenfd p → ready_from i p = 0%nat → check_every k i p cnt = mret (p, cnt).
Proof.
  revert i. induction k as [|k IH]; intros i Hinv H0; [done|]. cbn [check_every].
  destruct (clientfd p !! i) as [fd|] eqn:E.
  - rewrite (ready_from_step _ _ _ E) in H0. destruct (decide (is_ready p fd)) as [|Hn]; [done|].
    rewrite (check_client_idle i p cnt fd) by done. by apply IH.
  - rewrite (check_client_out i p cnt) by done. apply IH; [done|]. apply ready_from_end.
    apply lookup_ge_None in E. lia.
Qed.

(** No client sits above [maxi]. *)
Lemma ready_beyond_maxi p i : pool_inv listenfd p → maxi p < Z.of_nat i → ready_from i p = 0%nat.
Proof.
  intros Hinv Hi. unfold ready_from. destruct (filter (is_ready p) (drop i (clientfd p))) as [|fd l] eqn:E; [done|].
  assert (fd ∈ filter (is_ready p) (drop i (clientfd p))) as Hin by (rewrite E; left).
  apply list_elem_of_filter in Hin as [[Hpos _] [j Hj]%list_elem_of_lookup]. rewrite lookup_drop in Hj.
  destruct (pi_bounds _ _ Hinv (i + j) fd) as [? _]; [split; [done|lia]|]. lia.
Qed.

(** [k] slots up to [maxi], against all [m] slots that are left. *)
Lemma check_from_every k m i p cnt w :
  pool_inv listenfd p → (k ≤ m)%nat → Z.of_nat (i + k) = maxi p + 1 → Z.of_nat (ready_from i p) ≤ nready p →
  check_from k i p cnt w = check_every m i p cnt w.
Proof.
  revert m i p cnt w. induction k as [|k IH]; intros m i p cnt w Hinv Hm Hk Hn; cbn [check_from].
  - rewrite check_every_idle; [done|done|]. by apply (ready_beyond_maxi p i Hinv); lia.
  - case_bool; breflect; [|by rewrite check_every_idle by (done || lia)].
    destruct m as [|m]; [lia|]. cbn [check_every]. unfold mbind, M_bind.
    destruct (clientfd p !! i) as [fd|] eqn:E.
    2: { rewrite (check_client_out i p cnt) by done. apply IH; [done|lia..|].
         apply lookup_ge_None in E. rewrite ready_from_end in *; lia. }
    rewrite (ready_from_step _ _ _ E) in Hn. destruct (decide (is_ready p fd)) as [Hr|Hr].
    + pose proof (check_client_ready i p cnt fd Hinv E Hr w) as Hc.
      destruct (check_client i p cnt w) as [[p1 cnt1] w1| | | |]; try done.
      destruct (Hc _ _ eq_refl) as (Hinv1 & Hn1 & Hm1 & Hf1). cbn in *. apply IH; [done|lia..].
    + rewrite (check_client_idle i p cnt fd) by done. apply IH; [done|lia..].
Qed.

Lemma check_clients_every p cnt w :
  pool_inv listenfd p → Z.of_nat (ready_from 0 p) ≤ nready p →
  check_clients p cnt w = check_every SLOTS 0 p cnt w.
Proof.
  intros Hinv Hn. pose proof (pi_maxi _ _ Hinv). pose proof SLOTS_spec. apply check_from_every; [done|lia..|done].
Qed.

(** ** What [select] reported *)

(** The ready clients are among the descriptors reported, and the listening socket
    is none of them. *)
Lemma ready_reported p (evs : list (Z * Z)) :
  pool_inv listenfd p → ready_set p = list_to_set evs.*1 → NoDup evs.*1 →
  ((if decide (listenfd ∈ evs.*1) then 1 else 0) + ready_from 0 p ≤ length evs)%nat.
Proof.
  intros Hinv Hrdy Hnd. unfold ready_from. rewrite drop_0. set (F := filter (is_ready p) (clientfd p)).
  assert (∀ fd, fd ∈ F → fd ∈ evs.*1 ∧ fd ≠ listenfd) as HF.
  { intros fd [[Hpos Hr] [i Hi]%list_elem_of_lookup]%list_elem_of_filter. split; [|apply (pi_bounds _ _ Hinv i); split; [done|lia]].
    rewrite Hrdy in Hr. by apply elem_of_list_to_set in Hr. }
  assert (NoDup F) as HnF.
  { apply NoDup_filter_unique. intros i j fd Hi Hj [Hpos _]. apply (pi_unique _ _ Hinv i j fd); split; (done || lia). }
  rewrite <- (length_fmap fst evs). case_decide.
  - apply (submseteq_length (listenfd :: F)), NoDup_submseteq; [constructor; [|done]; intros Hl; by apply HF in Hl as [_ ?]|].
    intros fd [->|Hfd]%elem_of_cons; [done|by apply HF].
  - apply submseteq_length, NoDup_submseteq; [done|]. intros fd Hfd. by apply HF.
Qed.

Lemma add_client_counts connfd p :
  ensures (add_client connfd p) (λ p', nready p' = nready p - 1 ∧ ready_set p' = ready_set p).
Proof.
  unfold add_client. cbn zeta. destruct (list_find _ _) as [[i x]|]; [|by apply ensures_ret].
  apply ensures_fd_index. intros _. by apply ensures_ret.
Qed.

(** A round whose [select] succeeded. *)
Lemma pool_round_full p cnt w evs s :
  pool_inv listenfd p → script w = REvents evs :: s →
  (listenfd ∈ evs.*1 → ∀ r s', s = r :: s' → ret_of r ∉ read_set p) →
  pool_round listenfd (p, cnt) w = full_round listenfd (p, cnt) w.
Proof.
  intros Hinv Hs Hfresh. unfold pool_round, full_round. cbn [fst snd].
  destruct (answers (SysSelect (maxfd p + 1) (elements (read_set p))) (REvents evs)) eqn:Ha.
  2: { unfold mbind, M_bind, call. by rewrite Hs, Ha. }
  rewrite !(bind_done _ _ _ _ _ (call_answer _ _ _ _ Hs Ha)). cbn zeta.
  cbn in Ha. apply andb_true_iff in Ha as [Hnd%bool_decide_eq_true _].
  set (p1 := mkPool _ _ _ _ _ _ _). assert (pool_inv listenfd p1) as Hinv1 by (destruct Hinv; by split).
  set (w1 := answered _ _ _). assert (script w1 = s) as Hs1 by (cbn; by rewrite Hs).
  assert (∀ p2, pool_inv listenfd p2 → ready_set p2 = ready_set p1 →
    nready p2 = len evs - (if decide (listenfd ∈ evs.*1) then 1 else 0) →
    ∀ w, check_clients p2 cnt w = check_every SLOTS 0 p2 cnt w) as Hgo.
  { intros p2 Hinv2 Hr2 Hn2 w2. apply check_clients_every; [done|]. rewrite Hn2. unfold len.
    pose proof (ready_reported p2 evs Hinv2 Hr2 Hnd). case_decide; lia. }
  case_bool.
  - apply bool_decide_eq_true in Heqb. cbn in Heqb. apply elem_of_list_to_set in Heqb. rewrite decide_True in Hgo by done.
    unfold mbind, M_bind, call_int, mbind, M_bind, call, mret, M_ret. rewrite Hs1.
    destruct s as [|r s']; [done|]. destruct (answers (SysAccept listenfd) r); [|done].
    destruct (add_client (ret_of r) p1 _) as [p2 w2| | | |] eqn:Ea; try done.
    destruct (add_client_counts _ _ _ _ _ Ea) as [Hn2 Hr2]. apply Hgo; [|done..].
    eapply (add_client_inv listenfd (ret_of r) p1 Hinv1); [|exact Ea]. by apply (Hfresh Heqb r s').
  - apply bool_decide_eq_false in Heqb. cbn in Heqb. rewrite elem_of_list_to_set in Heqb.
    unfold mbind, M_bind, mret, M_ret. apply Hgo; [done..|]. rewrite decide_False by done. cbn. lia.
Qed.
End rounds.

(** ** Properties *)

(** C28: a round serves every client that is ready.  When [select] succeeded, a
    round does exactly what a round over all the slots would do, although it stops
    at the highest slot in use and after [nready] clients; that [accept] returns a
    descriptor that is not open is all that is assumed of the kernel. *)
Theorem pool_round_complete listenfd st w evs s :
  pool_reachable listenfd st → script w = REvents evs :: s →
  (listenfd ∈ evs.*1 → ∀ r s', s = r :: s' → ret_of r ∉ read_set st.1) →
  pool_round listenfd st w = full_round listenfd st w.
Proof.
  intros Hr Hs Hf. apply pool_reachable_inv in Hr. destruct st as [p cnt]. by eapply pool_round_full.
Qed.

(** The client of the sample run sends a line while another one connects. *)
Definition busy : world := World [REvents [(3, 1); (4, 1)]; RPeer 5 (SockIn 0 0); RData [97; 10]; RInt 2] 0 [].

Lemma pool_round_complete_witness :
  pool_round 3 (value (empty_pool, 0) demo_accept) busy = full_round 3 (value (empty_pool, 0) demo_accept) busy ∧
  bytes_written 4 (trace (final (full_round 3 (value (empty_pool, 0) demo_accept) busy))) = [97; 10].
Proof.
  split; [|vm_compute; reflexivity].
  apply (pool_round_complete 3 _ busy [(3, 1); (4, 1)] [RPeer 5 (SockIn 0 0); RData [97; 10]; RInt 2]
    demo_pool_reachable eq_refl).
  intros _ r s' [= <- _]. vm_compute. intros H. by repeat (inversion H; clear H; subst).
Defined.
