(* ===== verification/Sbuf.v ===== *)
(** * The bounded buffer shared by threads

    Models [csapp/concurrent_program/sbuf.c]: producers and consumers around one
    [sbuf_t], synchronised by three semaphores.  Threads interleave between any
    two memory accesses; the increment of an index and the access to the array
    are separate steps.  [sbuf_remove] is [void]: its caller gets nothing, and the
    items taken out are only recorded. *)

From S2P Require Import Prelude.

Record sbuf_t := mkSbuf {
  buf : list Z;
  n : Z;
  front : Z;
  rear : Z;
  mutex : Z;
  slots : Z;
  items : Z
}.

(** [sem_wait] decrements a positive semaphore and waits otherwise; [sem_post]
    increments. *)
Definition P (s : Z) : option Z := if 0 <? s then Some (s - 1) else None.
Definition V (s : Z) : Z := s + 1.

Definition sbuf_init (n : Z) : sbuf_t := mkSbuf (replicate (Z.to_nat n) 0) n 0 0 1 n 0.

Definition set_mutex (sp : sbuf_t) (v : Z) : sbuf_t :=
  mkSbuf (buf sp) (n sp) (front sp) (rear sp) v (slots sp) (items sp).
Definition set_slots (sp : sbuf_t) (v : Z) : sbuf_t :=
  mkSbuf (buf sp) (n sp) (front sp) (rear sp) (mutex sp) v (items sp).
Definition set_items (sp : sbuf_t) (v : Z) : sbuf_t :=
  mkSbuf (buf sp) (n sp) (front sp) (rear sp) (mutex sp) (slots sp) v.
Definition set_front (sp : sbuf_t) (v : Z) : sbuf_t :=
  mkSbuf (buf sp) (n sp) v (rear sp) (mutex sp) (slots sp) (items sp).
Definition set_rear (sp : sbuf_t) (v : Z) : sbuf_t :=
  mkSbuf (buf sp) (n sp) (front sp) v (mutex sp) (slots sp) (items sp).
Definition set_buf (sp : sbuf_t) (i v : Z) : sbuf_t :=
  mkSbuf (<[Z.to_nat i := v]> (buf sp)) (n sp) (front sp) (rear sp) (mutex sp) (slots sp) (items sp).

Inductive op := OpInsert (item : Z) | OpRemove.

(** Where a thread is: in front of the named statement of [sbuf_insert] or
    [sbuf_remove], or between two calls. *)
Inductive pc :=
| Idle
| InsSlots (item : Z) | InsMutex (item : Z) | InsRear (item : Z) | InsStore (item : Z)
| InsUnlock | InsItems
| RemItems | RemMutex | RemFront | RemLoad
| RemUnlock (item : Z) | RemSlots (item : Z).

(** A thread: its position, the calls it will make, and what its calls returned:
    [None], since both functions are [void].  [removed] is a history variable: the
    items its calls of [sbuf_remove] took out of the buffer, which end in the local
    variable [item] and are gone when the call returns. *)
Record thread := mkThread {
  at_ : pc;
  todo : list op;
  returned : list (option Z);
  removed : list Z
}.

Definition goto (t : thread) (p : pc) : thread := mkThread p (todo t) (returned t) (removed t).

(** The end of a call; [out] are the items it took out. *)
Definition return_void (t : thread) (out : list Z) : thread :=
  mkThread Idle (todo t) (returned t ++ [None]) (removed t ++ out).

(** [log_in] and [log_out] are history variables: the items in the order in
    which they were stored and loaded. *)
Record config := mkConfig {
  shared : sbuf_t;
  threads : list thread;
  log_in : list Z;
  log_out : list Z
}.

Inductive result := Next (sp : sbuf_t) (t : thread) (stored loaded : list Z) | Waits | Overflow | Finished.

(** One step of one thread on the shared buffer. *)
Definition thread_step (sp : sbuf_t) (t : thread) : result :=
  match at_ t with
  | Idle =>
      match todo t with
      | [] => Finished
      | OpInsert x :: ops => Next sp (mkThread (InsSlots x) ops (returned t) (removed t)) [] []
      | OpRemove :: ops => Next sp (mkThread RemItems ops (returned t) (removed t)) [] []
      end
  | InsSlots x =>
      match P (slots sp) with Some v => Next (set_slots sp v) (goto t (InsMutex x)) [] [] | None => Waits end
  | InsMutex x =>
      match P (mutex sp) with Some v => Next (set_mutex sp v) (goto t (InsRear x)) [] [] | None => Waits end
  | InsRear x =>
      if rear sp <? INT_MAX then Next (set_rear sp (rear sp + 1)) (goto t (InsStore x)) [] [] else Overflow
  | InsStore x => Next (set_buf sp (Z.rem (rear sp) (n sp)) x) (goto t InsUnlock) [x] []
  | InsUnlock => Next (set_mutex sp (V (mutex sp))) (goto t InsItems) [] []
  | InsItems => Next (set_items sp (V (items sp))) (return_void t []) [] []
  | RemItems =>
      match P (items sp) with Some v => Next (set_items sp v) (goto t RemMutex) [] [] | None => Waits end
  | RemMutex =>
      match P (mutex sp) with Some v => Next (set_mutex sp v) (goto t RemFront) [] [] | None => Waits end
  | RemFront =>
      if front sp <? INT_MAX then Next (set_front sp (front sp + 1)) (goto t RemLoad) [] [] else Overflow
  | RemLoad =>
      let item := default 0 (buf sp !! Z.to_nat (Z.rem (front sp) (n sp))) in
      Next sp (goto t (RemUnlock item)) [] [item]
  | RemUnlock x => Next (set_mutex sp (V (mutex sp))) (goto t (RemSlots x)) [] []
  | RemSlots x => Next (set_slots sp (V (slots sp))) (return_void t [x]) [] []
  end.

(** The statements a thread can execute, from [E : thread_step sp t = Next ...]. *)
Ltac thread_cases t E :=
  unfold thread_step in E;
  destruct (at_ t) as [|x|x|x|x| | | | | | |x|x] eqn:Hpc;
  [destruct (todo t) as [|[x|] ops] eqn:Htodo; [done|..]|..];
  repeat match type of E with
  | context [P ?s] => destruct (P s) as [v|] eqn:HP; [|done]
  | context [if ?b then _ else _] => destruct b eqn:?; [|done]
  end; cbn zeta in E; injection E as <- <- <- <-.

(** Thread [i] moves. *)
Inductive step : config → config → Prop :=
| step_thread c i t sp' t' stored loaded :
    threads c !! i = Some t → thread_step (shared c) t = Next sp' t' stored loaded →
    step c (mkConfig sp' (<[i := t']> (threads c)) (log_in c ++ stored) (log_out c ++ loaded)).

Definition start (size : Z) (progs : list (list op)) : config :=
  mkConfig (sbuf_init size) ((λ ops, mkThread Idle ops [] []) <$> progs) [] [].

Definition reachable (size : Z) (progs : list (list op)) (c : config) : Prop :=
  rtc step (start size progs) c.

(** ** Counting threads *)

Definition count (f : pc → bool) (ts : list thread) : Z :=
  Z.of_nat (length (filter (λ t, f (at_ t) = true) ts)).

Definition b2z (b : bool) : Z := if b then 1 else 0.

Lemma count_cons f t ts : count f (t :: ts) = b2z (f (at_ t)) + count f ts.
Proof.
  unfold count. rewrite filter_cons. destruct (f (at_ t)) eqn:E; cbn; [|done].
  destruct (decide (true = true)); cbn; lia.
Qed.

Lemma count_update f ts i t t' :
  ts !! i = Some t → count f (<[i := t']> ts) = count f ts - b2z (f (at_ t)) + b2z (f (at_ t')).
Proof.
  revert i. induction ts as [|t0 ts IH]; intros [|i] H; cbn in H; try done.
  - injection H as ->. change (<[0%nat := t']> (t :: ts)) with (t' :: ts). rewrite !count_cons. lia.
  - change (<[S i := t']> (t0 :: ts)) with (t0 :: <[i := t']> ts). rewrite !count_cons, (IH i) by done. lia.
Qed.

Lemma count_nonneg f ts : 0 ≤ count f ts.
Proof. unfold count. lia. Qed.

Lemma count_pos f ts i t : ts !! i = Some t → f (at_ t) = true → 1 ≤ count f ts.
Proof.
  intros H Hf. unfold count.
  assert (t ∈ filter (λ t, f (at_ t) = true) ts) as Hin
    by (apply list_elem_of_filter; split; [done|by eapply list_elem_of_lookup_2]).
  destruct (filter _ ts); [set_solver|]. cbn. lia.
Qed.

(** ** The invariant *)

(** Inside the critical section. *)
Definition holds (p : pc) : bool :=
  match p with InsRear _ | InsStore _ | InsUnlock | RemFront | RemLoad | RemUnlock _ => true | _ => false end.
(** Owns a slot that holds no item yet, or no longer. *)
Definition filling (p : pc) : bool := match p with InsMutex _ | InsRear _ | InsStore _ => true | _ => false end.
Definition emptied (p : pc) : bool := match p with RemUnlock _ | RemSlots _ => true | _ => false end.
(** Has stored an item it did not announce, or claimed one it did not load. *)
Definition filled (p : pc) : bool := match p with InsUnlock | InsItems => true | _ => false end.
Definition claiming (p : pc) : bool := match p with RemMutex | RemFront | RemLoad => true | _ => false end.
(** Between the increment of the index and the access. *)
Definition storing (p : pc) : bool := match p with InsStore _ => true | _ => false end.
Definition loading (p : pc) : bool := match p with RemLoad => true | _ => false end.

(** The items in the buffer. *)
Definition queue (c : config) : list Z := drop (length (log_out c)) (log_in c).
Definition qlen (c : config) : Z := Z.of_nat (length (log_in c)) - Z.of_nat (length (log_out c)).

Record inv (size : Z) (c : config) : Prop := {
  inv_size : n (shared c) = size ∧ Z.of_nat (length (buf (shared c))) = size;
  inv_mutex : 0 ≤ mutex (shared c) ∧ mutex (shared c) + count holds (threads c) = 1;
  inv_slots : 0 ≤ slots (shared c) ∧
    slots (shared c) + count filling (threads c) + qlen c + count emptied (threads c) = size;
  inv_items : 0 ≤ items (shared c) ∧
    items (shared c) + count claiming (threads c) + count filled (threads c) = qlen c;
  inv_rear : rear (shared c) = Z.of_nat (length (log_in c)) + count storing (threads c);
  inv_front : front (shared c) = Z.of_nat (length (log_out c)) + count loading (threads c);
  inv_buf k : (length (log_out c) ≤ k < length (log_in c))%nat →
    buf (shared c) !! Z.to_nat (Z.of_nat (S k) mod size) = log_in c !! k;
  inv_fifo : log_out c `prefix_of` log_in c
}.

Lemma count_le (f g : pc → bool) ts :
  (∀ p, f p = true → g p = true) → count f ts ≤ count g ts.
Proof.
  intros H. induction ts as [|t ts IH]; [done|]. rewrite !count_cons.
  specialize (H (at_ t)). destruct (f (at_ t)), (g (at_ t)); cbn; by intuition lia.
Qed.

Lemma count_none f (progs : list (list op)) :
  f Idle = false → count f ((λ ops, mkThread Idle ops [] []) <$> progs) = 0.
Proof. intros Hf. induction progs as [|p progs IH]; [done|]. cbn [fmap list_fmap]. rewrite count_cons. cbn. by rewrite Hf. Qed.

Lemma inv_start size progs : 0 ≤ size → inv size (start size progs).
Proof.
  intros Hs. split; unfold start, qlen; cbn -[count]; rewrite ?count_none by done; try lia; try done.
  rewrite length_replicate. lia.
Qed.

(** Only the holder of the lock is between an increment and its access. *)
Lemma inv_exclusive size c i t :
  inv size c → threads c !! i = Some t → holds (at_ t) = true →
  count holds (threads c) = 1 ∧ mutex (shared c) = 0.
Proof. intros [? [? Hm] ? ? ? ? ? ?] Hi Hh. pose proof (count_pos _ _ _ _ Hi Hh). lia. Qed.

Lemma mod_neq a b m : 0 < m → 0 < b - a < m → a mod m ≠ b mod m.
Proof.
  intros Hm Hd E. assert ((b - a) mod m = 0) as H0 by (rewrite Zminus_mod, E, Z.sub_diag; apply Z.mod_0_l; lia).
  rewrite Z.mod_small in H0; lia.
Qed.

Lemma qlen_snoc_in c sp ts x : qlen (mkConfig sp ts (log_in c ++ [x]) (log_out c ++ [])) = qlen c + 1.
Proof. unfold qlen. cbn. rewrite !length_app. cbn. lia. Qed.
Lemma qlen_snoc_out c sp ts x : qlen (mkConfig sp ts (log_in c ++ []) (log_out c ++ [x])) = qlen c - 1.
Proof. unfold qlen. cbn. rewrite !length_app. cbn. lia. Qed.

(** Storing puts the item behind those in the queue. *)
Lemma store_buf size c x k :
  inv size c → rear (shared c) = Z.of_nat (S (length (log_in c))) → qlen c < size →
  (length (log_out c) ≤ k < S (length (log_in c)))%nat →
  <[Z.to_nat (Z.rem (rear (shared c)) (n (shared c))) := x]> (buf (shared c))
    !! Z.to_nat (Z.of_nat (S k) mod size) = (log_in c ++ [x]) !! k.
Proof.
  intros Hinv Hr Hq Hk. pose proof (inv_size _ _ Hinv) as [Hn Hl].
  pose proof (prefix_length _ _ (inv_fifo _ _ Hinv)) as Hp. unfold qlen in Hq.
  rewrite Hn, Hr, Z.rem_mod_nonneg by lia.
  pose proof (Z.mod_pos_bound (Z.of_nat (S (length (log_in c)))) size ltac:(lia)).
  pose proof (Z.mod_pos_bound (Z.of_nat (S k)) size ltac:(lia)).
  destruct (decide (k = length (log_in c))) as [->|Hne].
  - rewrite list_lookup_insert_eq, list_lookup_middle by (done || lia). done.
  - rewrite list_lookup_insert_ne, lookup_app_l by (lia || (intros E; apply Z2Nat.inj in E; [|lia..];
      symmetry in E; revert E; apply mod_neq; lia)).
    apply (inv_buf _ _ Hinv). lia.
Qed.

(** Loading takes the first item of the queue. *)
Lemma load_buf size c :
  inv size c → front (shared c) = Z.of_nat (S (length (log_out c))) → 0 < qlen c → 0 < size →
  ∃ x, buf (shared c) !! Z.to_nat (Z.rem (front (shared c)) (n (shared c))) = Some x ∧
    log_out c ++ [x] `prefix_of` log_in c.
Proof.
  intros Hinv Hf Hq Hs. pose proof (inv_size _ _ Hinv) as [Hn Hl]. unfold qlen in Hq.
  rewrite Hn, Hf, Z.rem_mod_nonneg by lia. rewrite (inv_buf _ _ Hinv) by lia.
  destruct (inv_fifo _ _ Hinv) as [l Hlog]. rewrite Hlog in Hq |- *. rewrite length_app in Hq.
  destruct l as [|x l]; [cbn in Hq; lia|]. exists x. rewrite list_lookup_middle by done.
  split; [done|]. exists l. by rewrite <- app_assoc.
Qed.

(** A step that touches neither the array nor the logs keeps the invariant if
    it moves a unit between a semaphore and the thread, or an index with it. *)
Lemma inv_move size c i t sp' t' :
  inv size c → threads c !! i = Some t →
  buf sp' = buf (shared c) → n sp' = n (shared c) →
  (0 ≤ mutex sp' ∧ mutex sp' + b2z (holds (at_ t')) = mutex (shared c) + b2z (holds (at_ t))) →
  (0 ≤ slots sp' ∧ slots sp' + b2z (filling (at_ t')) + b2z (emptied (at_ t')) =
     slots (shared c) + b2z (filling (at_ t)) + b2z (emptied (at_ t))) →
  (0 ≤ items sp' ∧ items sp' + b2z (claiming (at_ t')) + b2z (filled (at_ t')) =
     items (shared c) + b2z (claiming (at_ t)) + b2z (filled (at_ t))) →
  rear sp' - b2z (storing (at_ t')) = rear (shared c) - b2z (storing (at_ t)) →
  front sp' - b2z (loading (at_ t')) = front (shared c) - b2z (loading (at_ t)) →
  inv size (mkConfig sp' (<[i := t']> (threads c)) (log_in c ++ []) (log_out c ++ [])).
Proof.
  intros [Hn Hm Hs Hi Hr Hf Hb Hp] Hti Eb En Em Es Ei Er Ef. rewrite !app_nil_r. unfold qlen in *.
  split; unfold qlen; cbn [shared threads log_in log_out];
    rewrite ?Eb, ?En, ?(count_update _ _ _ _ t' Hti); try done; lia.
Qed.

Lemma inv_store size c i t x :
  inv size c → threads c !! i = Some t → at_ t = InsStore x →
  inv size (mkConfig (set_buf (shared c) (Z.rem (rear (shared c)) (n (shared c))) x)
              (<[i := goto t InsUnlock]> (threads c)) (log_in c ++ [x]) (log_out c ++ [])).
Proof.
  intros Hinv Hti Hpc. pose proof Hinv as [Hn Hm Hs Hi Hr Hf Hb Hp].
  destruct (inv_exclusive _ _ _ _ Hinv Hti) as [Hex _]; [by rewrite Hpc|].
  assert (count storing (threads c) = 1) as Hst.
  { pose proof (count_pos storing _ _ _ Hti ltac:(by rewrite Hpc)).
    pose proof (count_le storing holds (threads c) ltac:(by intros [])). lia. }
  pose proof (count_pos filling _ _ _ Hti ltac:(by rewrite Hpc)).
  pose proof (count_nonneg emptied (threads c)).
  split; rewrite ?qlen_snoc_in; cbn [shared threads log_in log_out set_buf buf n mutex slots items rear front];
    rewrite ?(count_update _ _ _ _ _ Hti), ?Hpc; cbn [goto at_ b2z holds filling emptied filled claiming storing loading];
    rewrite ?length_app, ?length_insert; cbn [length]; try lia.
  - intros k Hk. apply store_buf; [done|lia|lia|lia].
  - rewrite app_nil_r. by apply prefix_app_r.
Qed.

Lemma inv_load size c i t :
  0 < size → inv size c → threads c !! i = Some t → at_ t = RemLoad →
  let x := default 0 (buf (shared c) !! Z.to_nat (Z.rem (front (shared c)) (n (shared c)))) in
  inv size (mkConfig (shared c) (<[i := goto t (RemUnlock x)]> (threads c)) (log_in c ++ []) (log_out c ++ [x])) ∧
  head (queue c) = Some x.
Proof.
  intros Hsz Hinv Hti Hpc x. pose proof Hinv as [Hn Hm Hs Hi Hr Hf Hb Hp].
  destruct (inv_exclusive _ _ _ _ Hinv Hti) as [Hex _]; [by rewrite Hpc|].
  assert (count loading (threads c) = 1) as Hst.
  { pose proof (count_pos loading _ _ _ Hti ltac:(by rewrite Hpc)).
    pose proof (count_le loading holds (threads c) ltac:(by intros [])). lia. }
  pose proof (count_pos claiming _ _ _ Hti ltac:(by rewrite Hpc)).
  pose proof (count_nonneg filled (threads c)).
  destruct (load_buf size c Hinv) as (y & Hy & Hpre); [lia..|]. unfold x. rewrite Hy. cbn [default from_option id].
  split.
  - split; rewrite ?qlen_snoc_out; cbn [shared threads log_in log_out];
      rewrite ?(count_update _ _ _ _ _ Hti), ?Hpc; cbn [goto at_ b2z holds filling emptied filled claiming storing loading];
      rewrite ?app_nil_r, ?length_app; cbn [length]; try lia.
    + intros k Hk. apply Hb. lia.
    + exact Hpre.
  - unfold queue. destruct Hpre as [l ->]. by rewrite <- app_assoc, drop_app_length.
Qed.

Lemma P_spec s v : P s = Some v → 0 < s ∧ v = s - 1.
Proof. unfold P. case_bool; breflect; [|done]. intros [= <-]. lia. Qed.

Lemma inv_step size c c' : 0 < size → inv size c → step c c' → inv size c'.
Proof.
  intros Hsz Hinv Hst. destruct Hst as [c i t sp' t' stored loaded Hti E].
  pose proof Hinv as [Hn [Hm0 Hm] [Hs0 Hs] [Hi0 Hi] Hr Hf Hb Hp].
  thread_cases t E; try (apply P_spec in HP as [? ->]).
  6: by apply inv_store.
  all: try (apply inv_move with t; try done; cbn; rewrite Hpc; cbn; unfold V; lia).
  by apply inv_load.
Qed.

Lemma reachable_inv size progs c : 0 < size → reachable size progs c → inv size c.
Proof.
  intros Hsz. unfold reachable. intros H. remember (start size progs) as c0 eqn:E.
  assert (inv size c0) as H0 by (subst; apply inv_start; lia). clear E.
  induction H as [|c1 c2 c3 Hst _ IH]; [done|]. apply IH. by eapply inv_step.
Qed.

Lemma count_unique f ts i j ti tj :
  count f ts ≤ 1 → ts !! i = Some ti → ts !! j = Some tj →
  f (at_ ti) = true → f (at_ tj) = true → i = j.
Proof.
  revert i j. induction ts as [|t ts IH]; intros [|i] [|j] Hc Hi Hj Hfi Hfj; try done;
    rewrite count_cons in Hc; cbn in Hi, Hj.
  - injection Hi as ->. pose proof (count_pos _ _ _ _ Hj Hfj). rewrite Hfi in Hc. cbn in Hc. lia.
  - injection Hj as ->. pose proof (count_pos _ _ _ _ Hi Hfi). rewrite Hfj in Hc. cbn in Hc. lia.
  - f_equal. eapply IH; try done. destruct (f (at_ t)); cbn in Hc; lia.
Qed.

(** ** The bounded queue, as a specification *)

Inductive bq_step (size : Z) : list Z → list Z → Prop :=
| bq_skip q : bq_step size q q
| bq_insert q x : Z.of_nat (length q) < size → bq_step size q (q ++ [x])
| bq_remove q x : bq_step size (x :: q) q.

Lemma length_queue c : log_out c `prefix_of` log_in c → Z.of_nat (length (queue c)) = qlen c.
Proof. intros H%prefix_length. unfold queue, qlen. rewrite length_drop. lia. Qed.

Lemma step_queue size c c' :
  0 < size → inv size c → step c c' → bq_step size (queue c) (queue c').
Proof.
  intros Hsz Hinv Hst. destruct Hst as [c i t sp' t' stored loaded Hti E].
  assert (stored = [] → loaded = [] → bq_step size (queue c)
    (queue (mkConfig sp' (<[i := t']> (threads c)) (log_in c ++ stored) (log_out c ++ loaded)))) as Hskip.
  { intros -> ->. unfold queue. cbn. rewrite !app_nil_r. apply bq_skip. }
  pose proof (inv_fifo _ _ Hinv) as Hp. pose proof (inv_slots _ _ Hinv) as [Hs0 Hs].
  thread_cases t E; try (by apply Hskip).
  - assert (queue (mkConfig (set_buf (shared c) (Z.rem (rear (shared c)) (n (shared c))) x)
      (<[i := goto t InsUnlock]> (threads c)) (log_in c ++ [x]) (log_out c ++ [])) = queue c ++ [x]) as ->.
    { unfold queue. cbn. rewrite app_nil_r. apply drop_app_le. by apply prefix_length. }
    apply bq_insert. rewrite length_queue by done.
    pose proof (count_pos filling _ _ _ Hti ltac:(by rewrite Hpc)).
    pose proof (count_nonneg emptied (threads c)). lia.
  - destruct (inv_load size c i t Hsz Hinv Hti Hpc) as [_ Hq]. set (x := default 0 _) in *.
    assert (queue c = x :: queue (mkConfig (shared c) (<[i := goto t (RemUnlock x)]> (threads c))
      (log_in c ++ []) (log_out c ++ [x]))) as ->; [|apply bq_remove].
    unfold queue in *. cbn. rewrite app_nil_r, length_app, <- drop_drop. cbn.
    by destruct (drop (length (log_out c)) (log_in c)); cbn in Hq; simplify_eq.
Qed.

(** ** Where the items are *)

Definition op_items (ops : list op) : list Z :=
  ops ≫= λ o, match o with OpInsert x => [x] | OpRemove => [] end.
(** Items a thread is still to store, and items it has loaded. *)
Definition pending (t : thread) : list Z :=
  match at_ t with InsSlots x | InsMutex x | InsRear x | InsStore x => [x] | _ => [] end ++ op_items (todo t).
Definition taken (t : thread) : list Z :=
  removed t ++ match at_ t with RemUnlock x | RemSlots x => [x] | _ => [] end.

Lemma bind_update {A} (f : thread → list A) ts i t t' :
  ts !! i = Some t → (<[i := t']> ts ≫= f) ++ f t ≡ₚ (ts ≫= f) ++ f t'.
Proof.
  revert i. induction ts as [|t0 ts IH]; intros [|i] H; cbn in H; try done.
  - injection H as ->. change (<[0%nat := t']> (t :: ts)) with (t' :: ts). cbn. solve_Permutation.
  - change (<[S i := t']> (t0 :: ts)) with (t0 :: <[i := t']> ts). cbn.
    rewrite <- !app_assoc. f_equiv. by apply IH.
Qed.

Definition conserved (all : list Z) (c : config) : Prop :=
  (threads c ≫= pending) ++ log_in c ≡ₚ all ∧ threads c ≫= taken ≡ₚ log_out c.

Lemma conserved_step all c c' : conserved all c → step c c' → conserved all c'.
Proof.
  intros [Hp Ht] Hst. destruct Hst as [c i t sp' t' stored loaded Hti E].
  pose proof (bind_update pending _ _ _ t' Hti) as Hbp. pose proof (bind_update taken _ _ _ t' Hti) as Hbt.
  assert (pending t ≡ₚ pending t' ++ stored ∧ taken t' ≡ₚ taken t ++ loaded) as [H1 H2].
  { unfold pending, taken. thread_cases t E; rewrite ?Hpc; cbn; rewrite ?app_nil_r, ?Htodo; cbn; split;
      solve_Permutation || done. }
  rewrite H1 in Hbp. rewrite H2 in Hbt. split; cbn.
  - rewrite <- Hp. apply (Permutation_app_inv_r (pending t')).
    transitivity ((<[i := t']> (threads c) ≫= pending) ++ (pending t' ++ stored) ++ log_in c);
      [solve_Permutation|]. rewrite app_assoc, Hbp. solve_Permutation.
  - rewrite <- Ht. apply (Permutation_app_inv_r (taken t)). rewrite Hbt. solve_Permutation.
Qed.

Lemma conserved_start size progs : conserved (progs ≫= op_items) (start size progs).
Proof.
  unfold conserved, start. cbn. rewrite app_nil_r. split.
  - induction progs as [|p progs IH]; [done|]. cbn. by rewrite IH.
  - induction progs as [|p progs IH]; [done|]. exact IH.
Qed.

Lemma reachable_conserved size progs c : reachable size progs c → conserved (progs ≫= op_items) c.
Proof.
  unfold reachable. intros H. remember (start size progs) as c0 eqn:E.
  assert (conserved (progs ≫= op_items) c0) as H0 by (subst; apply conserved_start). clear E.
  induction H as [|c1 c2 c3 Hst _ IH]; [done|]. apply IH. by eapply conserved_step.
Qed.

(** ** When nothing moves *)

Definition stuck (c : config) : Prop :=
  ∀ i t, threads c !! i = Some t →
  thread_step (shared c) t = Waits ∨ thread_step (shared c) t = Finished.

Lemma count_zero f ts : (∀ i t, ts !! i = Some t → f (at_ t) = false) → count f ts = 0.
Proof.
  induction ts as [|t ts IH]; intros H; [done|]. rewrite count_cons, IH.
  - by rewrite (H 0%nat t eq_refl).
  - intros i t' Hi. by apply (H (S i)).
Qed.

Lemma P_none s : P s = None → s ≤ 0.
Proof. unfold P. case_bool; breflect; [done|lia]. Qed.

(** A thread that does not move waits in front of a semaphore. *)
Definition waiting (p : pc) : bool :=
  match p with Idle | InsSlots _ | InsMutex _ | RemItems | RemMutex => true | _ => false end.

Lemma stuck_waiting c i t : stuck c → threads c !! i = Some t → waiting (at_ t) = true.
Proof.
  intros Hst Hi. destruct (Hst i t Hi) as [H|H]; unfold thread_step in H; destruct (at_ t); try done;
    by case_bool.
Qed.

Lemma stuck_unlocked size c : inv size c → stuck c → mutex (shared c) = 1.
Proof.
  intros Hinv Hst. destruct (inv_mutex _ _ Hinv) as [_ Hm]. rewrite count_zero in Hm; [lia|].
  intros i t Hi. pose proof (stuck_waiting c i t Hst Hi). by destruct (at_ t).
Qed.

Lemma stuck_outside size c i t :
  inv size c → stuck c → threads c !! i = Some t →
  match at_ t with Idle | InsSlots _ | RemItems => True | _ => False end.
Proof.
  intros Hinv Hst Hi. pose proof (stuck_unlocked size c Hinv Hst) as Hm.
  pose proof (stuck_waiting c i t Hst Hi). destruct (Hst i t Hi) as [H1|H1]; unfold thread_step in H1;
    destruct (at_ t); try done; by rewrite Hm in H1.
Qed.

Lemma stuck_counts size c :
  inv size c → stuck c → slots (shared c) + qlen c = size ∧ items (shared c) = qlen c.
Proof.
  intros Hinv Hst. destruct (inv_slots _ _ Hinv) as [_ Hs]. destruct (inv_items _ _ Hinv) as [_ Hi].
  assert (∀ f, (∀ p, match p with Idle | InsSlots _ | RemItems => f p = false | _ => True end) →
    count f (threads c) = 0) as H0.
  { intros f Hf. apply count_zero. intros i t Ht. pose proof (stuck_outside size c i t Hinv Hst Ht).
    specialize (Hf (at_ t)). by destruct (at_ t). }
  rewrite !H0 in Hs, Hi by (by intros []). lia.
Qed.

Lemma stuck_reason size c i t :
  inv size c → stuck c → threads c !! i = Some t →
  thread_step (shared c) t = Finished ∨
  (∃ x, at_ t = InsSlots x) ∧ Z.of_nat (length (queue c)) = size ∨
  at_ t = RemItems ∧ queue c = [].
Proof.
  intros Hinv Hst Hi. destruct (stuck_counts size c Hinv Hst) as [Hs Hit].
  pose proof (length_queue c (inv_fifo _ _ Hinv)) as Hq.
  pose proof (inv_slots _ _ Hinv) as [Hs0 _]. pose proof (inv_items _ _ Hinv) as [Hi0 _].
  pose proof (stuck_outside size c i t Hinv Hst Hi) as Ho.
  destruct (Hst i t Hi) as [H|H]; [right|by left]. unfold thread_step in H.
  destruct (at_ t) as [|x|x|x|x| | | | | | |x|x] eqn:Hpc; try done.
  - by destruct (todo t) as [|[]].
  - left. destruct (P (slots (shared c))) eqn:HP; [done|]. apply P_none in HP. split; [eauto|lia].
  - right. destruct (P (items (shared c))) eqn:HP; [done|]. apply P_none in HP.
    split; [done|]. destruct (queue c); [done|]. cbn in Hq. lia.
Qed.

(** ** A sample schedule *)

Fixpoint exec (sched : list nat) (c : config) : option config :=
  match sched with
  | [] => Some c
  | i :: sched =>
      match threads c !! i with
      | None => None
      | Some t =>
          match thread_step (shared c) t with
          | Next sp' t' stored loaded =>
              exec sched (mkConfig sp' (<[i := t']> (threads c)) (log_in c ++ stored) (log_out c ++ loaded))
          | _ => None
          end
      end
  end.

Lemma exec_steps sched c c' : exec sched c = Some c' → rtc step c c'.
Proof.
  revert c. induction sched as [|i sched IH]; intros c E; cbn in E; [by injection E as <-|].
  destruct (threads c !! i) as [t|] eqn:Hi; [|done].
  destruct (thread_step (shared c) t) eqn:Ht; try done. eapply rtc_l; [|by apply IH].
  by eapply step_thread.
Qed.

(** Two producers and a consumer on a buffer with one slot; at the end of the
    schedule the second producer waits for a slot. *)
Definition demo_progs : list (list op) := [[OpInsert 5]; [OpInsert 6; OpInsert 7]; [OpRemove]].
Definition demo_sched : list nat :=
  [0; 1; 2; 0; 0; 0; 0; 0; 0; 2; 2; 2; 2; 2; 2; 1; 1; 1; 1; 1; 1; 1]%nat.
Definition demo_config : config := default (start 1 []) (exec demo_sched (start 1 demo_progs)).

Lemma demo_reachable_sbuf : reachable 1 demo_progs demo_config.
Proof. apply (exec_steps demo_sched). vm_compute. reflexivity. Qed.

(** ** Properties *)

(** Mutual exclusion.  In every interleaving at most one thread is between
    [P(&sp->mutex)] and [V(&sp->mutex)]. *)
Theorem sbuf_mutual_exclusion size progs c i j ti tj :
  0 < size → reachable size progs c →
  threads c !! i = Some ti → threads c !! j = Some tj →
  holds (at_ ti) = true → holds (at_ tj) = true → i = j.
Proof.
  intros Hsz Hr. destruct (inv_mutex _ _ (reachable_inv _ _ _ Hsz Hr)). apply count_unique. lia.
Qed.

Lemma sbuf_mutual_exclusion_witness :
  let c := default (start 1 []) (exec (take 4 demo_sched) (start 1 demo_progs)) in
  let c := default (start 1 []) (exec [0%nat] c) in
  ∃ t, threads c !! 0%nat = Some t ∧ holds (at_ t) = true ∧ 0%nat = 0%nat.
Proof.
  cbn zeta. eexists. split; [vm_compute; reflexivity|]. split; [reflexivity|].
  eapply (sbuf_mutual_exclusion 1 demo_progs
    (default (start 1 []) (exec (take 5 demo_sched) (start 1 demo_progs))));
    [lia|apply (exec_steps (take 5 demo_sched)); vm_compute; reflexivity|vm_compute; reflexivity..].
Defined.

(** C20: refinement.  Whatever the interleaving, the buffer behaves as a bounded
    FIFO queue: every step of a thread leaves the queue alone, appends an item
    while fewer than [n] are in it, or takes its first item, and the items left
    the buffer in the order in which they entered it. *)
Theorem sbuf_refines_bounded_queue size progs c c' :
  0 < size → reachable size progs c → step c c' →
  bq_step size (queue c) (queue c') ∧ log_in c = log_out c ++ queue c ∧
  Z.of_nat (length (queue c)) ≤ size.
Proof.
  intros Hsz Hr Hst. pose proof (reachable_inv _ _ _ Hsz Hr) as Hinv.
  split; [by apply step_queue|]. destruct (inv_slots _ _ Hinv) as [Hs0 Hs].
  rewrite length_queue by apply Hinv. split.
  - unfold queue. destruct (inv_fifo _ _ Hinv) as [l ->]. by rewrite drop_app_length.
  - pose proof (count_nonneg filling (threads c)). pose proof (count_nonneg emptied (threads c)). lia.
Qed.

Definition before_store : config :=
  default (start 1 []) (exec (take 6 demo_sched) (start 1 demo_progs)).
Definition after_store : config :=
  default (start 1 []) (exec (take 7 demo_sched) (start 1 demo_progs)).

Lemma sbuf_refines_bounded_queue_witness :
  bq_step 1 (queue before_store) (queue after_store) ∧
  log_in before_store = log_out before_store ++ queue before_store ∧
  Z.of_nat (length (queue before_store)) ≤ 1.
Proof.
  apply (sbuf_refines_bounded_queue 1 demo_progs);
    [lia|apply (exec_steps (take 6 demo_sched)); vm_compute; reflexivity|].
  change after_store with (mkConfig (shared after_store) (threads after_store) (log_in after_store) (log_out after_store)).
  exact (step_thread before_store 0 (mkThread (InsStore 5) [] [] []) (shared after_store)
    (mkThread InsUnlock [] [] []) [5] [] eq_refl eq_refl).
Defined.

(** C21: every item is stored and taken out exactly once: at any moment the items
    the threads have still to insert, those in the buffer and those taken out of it
    are together the items of all calls of [sbuf_insert]. *)
Theorem sbuf_exactly_once size progs c :
  0 < size → reachable size progs c →
  (threads c ≫= pending) ++ (threads c ≫= taken) ++ queue c ≡ₚ progs ≫= op_items.
Proof.
  intros Hsz Hr. destruct (reachable_conserved _ _ _ Hr) as [Hp ->]. rewrite <- Hp.
  destruct (inv_fifo _ _ (reachable_inv _ _ _ Hsz Hr)) as [l Hl]. unfold queue.
  rewrite Hl, drop_app_length. done.
Qed.

Lemma sbuf_exactly_once_witness :
  (threads demo_config ≫= pending) ++ (threads demo_config ≫= taken) ++ queue demo_config
    ≡ₚ demo_progs ≫= op_items.
Proof. apply (sbuf_exactly_once 1); [lia|exact demo_reachable_sbuf]. Defined.

(** No deadlock on the lock.  If no thread can move, every thread that has
    not finished is a producer in front of a full buffer or a consumer in front
    of an empty one. *)
Theorem sbuf_no_deadlock size progs c i t :
  0 < size → reachable size progs c → stuck c → threads c !! i = Some t →
  thread_step (shared c) t = Finished ∨
  (∃ x, at_ t = InsSlots x) ∧ Z.of_nat (length (queue c)) = size ∨
  at_ t = RemItems ∧ queue c = [].
Proof. intros Hsz Hr. apply stuck_reason. by eapply reachable_inv. Qed.

Lemma sbuf_no_deadlock_witness :
  ∃ t, threads demo_config !! 1%nat = Some t ∧
  (thread_step (shared demo_config) t = Finished ∨
   (∃ x, at_ t = InsSlots x) ∧ Z.of_nat (length (queue demo_config)) = 1 ∨
   at_ t = RemItems ∧ queue demo_config = []).
Proof.
  eexists. split; [vm_compute; reflexivity|].
  apply (sbuf_no_deadlock 1 demo_progs demo_config 1); [lia|exact demo_reachable_sbuf| |vm_compute; reflexivity].
  intros [|[|[|i]]] t H; vm_compute in H; try done; injection H as <-; vm_compute; auto.
Defined.
