(* ===== verification/SbufLive.v ===== *)
(** * The bounded buffer: every schedule ends

    Liveness of [csapp/concurrent_program/sbuf.c].  When each thread only
    produces or only consumes and as many items are inserted as are removed, no
    schedule runs forever, none gets stuck, and in the end each item has been
    taken out of the buffer; since [sbuf_remove] is [void], no caller has it. *)

From S2P Require Import Prelude Sbuf.

(** ** Sums over threads *)
Definition total (f : thread → nat) (ts : list thread) : nat := sum_list_with f ts.

Lemma total_update f ts i t t' :
  ts !! i = Some t → (total f (<[i := t']> ts) + f t = total f ts + f t')%nat.
Proof.
  unfold total. revert i. induction ts as [|t0 ts IH]; intros [|i] H; cbn in H; try done.
  - injection H as ->. change (<[0%nat := t']> (t :: ts)) with (t' :: ts). cbn. lia.
  - change (<[S i := t']> (t0 :: ts)) with (t0 :: <[i := t']> ts). cbn. specialize (IH i H). lia.
Qed.

Lemma total_zero f ts : (∀ i t, ts !! i = Some t → f t = 0%nat) → total f ts = 0%nat.
Proof.
  unfold total. induction ts as [|t ts IH]; intros H; [done|]. cbn.
  rewrite (H 0%nat t eq_refl), IH; [done|]. intros i t' Hi. by apply (H (S i)).
Qed.

Lemma total_ge f ts i t : ts !! i = Some t → (f t ≤ total f ts)%nat.
Proof.
  unfold total. revert i. induction ts as [|t0 ts IH]; intros [|i] H; cbn in H |- *; try done.
  - injection H as ->. lia.
  - specialize (IH i H). lia.
Qed.

(** ** Steps left *)

(** Statements left in the current call. *)
Definition pc_work (p : pc) : nat :=
  match p with
  | Idle => 0
  | InsSlots _ | RemItems => 6
  | InsMutex _ | RemMutex => 5
  | InsRear _ | RemFront => 4
  | InsStore _ | RemLoad => 3
  | InsUnlock | RemUnlock _ => 2
  | InsItems | RemSlots _ => 1
  end.

Definition work (t : thread) : nat := 7 * length (todo t) + pc_work (at_ t).

(** Items a call stores or loads, and those a thread has still to. *)
Definition op_stores (o : op) : nat := match o with OpInsert _ => 1 | OpRemove => 0 end.
Definition op_loads (o : op) : nat := match o with OpInsert _ => 0 | OpRemove => 1 end.

Definition to_store (t : thread) : nat :=
  match at_ t with InsSlots _ | InsMutex _ | InsRear _ | InsStore _ => 1 | _ => 0 end
  + sum_list_with op_stores (todo t).
Definition to_load (t : thread) : nat :=
  match at_ t with RemItems | RemMutex | RemFront | RemLoad => 1 | _ => 0 end
  + sum_list_with op_loads (todo t).

(** What one statement does to these counts. *)
Lemma thread_step_counts sp t sp' t' stored loaded :
  thread_step sp t = Next sp' t' stored loaded →
  work t = S (work t') ∧
  to_store t = (to_store t' + length stored)%nat ∧
  to_load t = (to_load t' + length loaded)%nat.
Proof.
  intros E. unfold work, to_store, to_load. thread_cases t E; rewrite ?Hpc, ?Htodo; cbn; lia.
Qed.

(** ** Producers and consumers *)

Definition is_insert (o : op) : bool := match o with OpInsert _ => true | OpRemove => false end.
Definition produces (p : pc) : bool :=
  match p with Idle | InsSlots _ | InsMutex _ | InsRear _ | InsStore _ | InsUnlock | InsItems => true
  | _ => false end.
Definition consumes (p : pc) : bool :=
  match p with Idle | RemItems | RemMutex | RemFront | RemLoad | RemUnlock _ | RemSlots _ => true
  | _ => false end.

(** All calls of a thread are of one kind. *)
Definition one_kind (ops : list op) : Prop :=
  Forall (λ o, is_insert o = true) ops ∨ Forall (λ o, is_insert o = false) ops.

Definition pure_thread (t : thread) : Prop :=
  Forall (λ o, is_insert o = true) (todo t) ∧ produces (at_ t) = true ∨
  Forall (λ o, is_insert o = false) (todo t) ∧ consumes (at_ t) = true.

Lemma pure_step sp t sp' t' stored loaded :
  thread_step sp t = Next sp' t' stored loaded → pure_thread t → pure_thread t'.
Proof.
  intros E Hp. unfold pure_thread in *. thread_cases t E; rewrite ?Hpc, ?Htodo in *; cbn;
    destruct Hp as [[Hf Hk]|[Hf Hk]]; try done; try (by auto);
    inversion_clear Hf; try done; by auto.
Qed.

Lemma loads_of_producer ops : Forall (λ o, is_insert o = true) ops → sum_list_with op_loads ops = 0%nat.
Proof. induction 1 as [|[] ops]; cbn; done. Qed.
Lemma stores_of_consumer ops : Forall (λ o, is_insert o = false) ops → sum_list_with op_stores ops = 0%nat.
Proof. induction 1 as [|[] ops]; cbn; done. Qed.

(** ** What the calls return *)

(** Of the calls [ops] of a thread, one has returned or is left or is under way. *)
Definition void_calls (ops : list op) (t : thread) : Prop :=
  returned t = replicate (length (returned t)) None ∧
  length ops = (length (returned t) + match at_ t with Idle => 0 | _ => 1 end + length (todo t))%nat.

Lemma void_calls_step calls sp t sp' t' stored loaded :
  thread_step sp t = Next sp' t' stored loaded → void_calls calls t → void_calls calls t'.
Proof.
  intros E [Hr Hl]. unfold void_calls in *. thread_cases t E; rewrite ?Hpc, ?Htodo in *; cbn in *;
    rewrite ?length_app; cbn; try (split; [done|lia]).
  all: split; [rewrite replicate_add, <- Hr; done|lia].
Qed.

(** ** The invariant *)

Definition stores_of (progs : list (list op)) : nat := sum_list_with (sum_list_with op_stores) progs.
Definition loads_of (progs : list (list op)) : nat := sum_list_with (sum_list_with op_loads) progs.

Record live_inv (size : Z) (progs : list (list op)) (c : config) : Prop := {
  live_safe : inv size c;
  live_items : conserved (progs ≫= op_items) c;
  live_pure i t : threads c !! i = Some t → pure_thread t;
  live_stored : (length (log_in c) + total to_store (threads c) = stores_of progs)%nat;
  live_loaded : (length (log_out c) + total to_load (threads c) = loads_of progs)%nat;
  live_calls : Forall2 void_calls progs (threads c)
}.

Lemma live_start size progs : 0 ≤ size → Forall one_kind progs → live_inv size progs (start size progs).
Proof.
  intros Hs Hk. split; [by apply inv_start|apply conserved_start| | | |]; unfold start; cbn.
  - intros i t. rewrite list_lookup_fmap. destruct (progs !! i) as [ops|] eqn:E; [|done].
    intros [= <-]. apply (Forall_lookup_1 _ _ _ _ Hk) in E. destruct E; [by left|by right].
  - clear. unfold total, stores_of. induction progs as [|p progs IH]; cbn; [done|]. by rewrite <- IH.
  - clear. unfold total, loads_of. induction progs as [|p progs IH]; cbn; [done|]. by rewrite <- IH.
  - apply Forall2_fmap_r, Forall_Forall2_diag, Forall_true. intros ops. split; cbn; [done|lia].
Qed.

Lemma live_step size progs c c' :
  0 < size → live_inv size progs c → step c c' →
  live_inv size progs c' ∧ (total work (threads c') < total work (threads c))%nat.
Proof.
  intros Hs [Hsafe Hitems Hpure Hst Hld Hcalls] H. pose proof (inv_step _ _ _ Hs Hsafe H).
  pose proof (conserved_step _ _ _ Hitems H). destruct H as [c i t sp' t' stored loaded Hti E].
  destruct (thread_step_counts _ _ _ _ _ _ E) as (Hw & Hc1 & Hc2).
  pose proof (total_update work _ _ _ t' Hti). pose proof (total_update to_store _ _ _ t' Hti).
  pose proof (total_update to_load _ _ _ t' Hti).
  split; [split; try done|]; cbn [threads log_in log_out]; rewrite ?length_app; try lia.
  2: { destruct (Forall2_lookup_r _ _ _ _ _ Hcalls Hti) as (ops & Hops & Hv).
       rewrite <- (list_insert_id progs i ops Hops). apply Forall2_insert; [done|]. by eapply void_calls_step. }
  intros j tj. destruct (decide (i = j)) as [<-|Hne].
  - rewrite list_lookup_insert_eq by (by eapply lookup_lt_Some). intros [= <-].
    eapply pure_step; [exact E|by eapply Hpure].
  - rewrite list_lookup_insert_ne by done. apply Hpure.
Qed.

Lemma count_add_le (f g h : pc → bool) ts :
  (∀ p, b2z (f p) + b2z (g p) ≤ b2z (h p)) → count f ts + count g ts ≤ count h ts.
Proof.
  intros H. induction ts as [|t ts IH]; [done|]. rewrite !count_cons. specialize (H (at_ t)). lia.
Qed.

(** The indices stay below the number of items. *)
Lemma live_no_overflow size progs c i t :
  live_inv size progs c → Z.of_nat (stores_of progs) ≤ INT_MAX → Z.of_nat (loads_of progs) ≤ INT_MAX →
  threads c !! i = Some t → thread_step (shared c) t ≠ Overflow.
Proof.
  intros [Hsafe _ _ Hst Hld _] Hmi Hml Hti. pose proof (inv_mutex _ _ Hsafe) as [Hm0 Hm].
  pose proof (total_ge to_store _ _ _ Hti) as H1. pose proof (total_ge to_load _ _ _ Hti) as H2.
  unfold thread_step. destruct (at_ t) as [|x|x|x|x| | | | | | |x|x] eqn:Hpc;
    try (by destruct (P _)); [by destruct (todo t) as [|[]]|..]; try done; case_bool; try done; breflect.
  - assert (1 ≤ to_store t)%nat by (unfold to_store; rewrite Hpc; lia).
    pose proof (count_pos (λ p, match p with InsRear _ => true | _ => false end) _ _ _ Hti ltac:(by rewrite Hpc)).
    pose proof (count_add_le storing (λ p, match p with InsRear _ => true | _ => false end) holds (threads c)
      ltac:(by intros [])). pose proof (count_nonneg storing (threads c)). pose proof (inv_rear _ _ Hsafe). lia.
  - assert (1 ≤ to_load t)%nat by (unfold to_load; rewrite Hpc; lia).
    pose proof (count_pos (λ p, match p with RemFront => true | _ => false end) _ _ _ Hti ltac:(by rewrite Hpc)).
    pose proof (count_add_le loading (λ p, match p with RemFront => true | _ => false end) holds (threads c)
      ltac:(by intros [])). pose proof (count_nonneg loading (threads c)). pose proof (inv_front _ _ Hsafe). lia.
Qed.

(** ** The end of a run *)

Definition finished (t : thread) : Prop := at_ t = Idle ∧ todo t = [].

Lemma finished_step sp t : thread_step sp t = Finished → finished t.
Proof.
  unfold thread_step, finished. destruct (at_ t); try done; try (by destruct (P _)); try (by case_bool).
  by destruct (todo t) as [|[]].
Qed.

Lemma finished_counts t : finished t → to_store t = 0%nat ∧ to_load t = 0%nat.
Proof. unfold finished, to_store, to_load. by intros [-> ->]. Qed.

Lemma live_stuck_finished size progs c i t :
  0 < size → live_inv size progs c → stores_of progs = loads_of progs → stuck c →
  threads c !! i = Some t → finished t.
Proof.
  intros Hs [Hsafe _ Hpure Hst Hld _] Heq Hstuck Hti.
  pose proof (length_queue c (inv_fifo _ _ Hsafe)) as Hq. unfold qlen in Hq.
  destruct (stuck_reason size c i t Hsafe Hstuck Hti) as [H|[[[x Hx] Hfull]|[Hr Hempty]]];
    [by eapply finished_step|exfalso..].
  - rewrite (total_zero to_load) in Hld; [lia|]. intros j tj Htj.
    destruct (stuck_reason size c j tj Hsafe Hstuck Htj) as [H|[[[y Hy] _]|[_ He]]];
      [by eapply finished_counts, finished_step| |by rewrite He in Hfull; cbn in Hfull; lia].
    unfold to_load. rewrite Hy. destruct (Hpure _ _ Htj) as [[Hf _]|[_ Hk]]; [|by rewrite Hy in Hk].
    by rewrite loads_of_producer.
  - pose proof (total_ge to_load _ _ _ Hti) as Hge. unfold to_load at 1 in Hge. rewrite Hr in Hge.
    rewrite (total_zero to_store) in Hst; [rewrite Hempty in Hq; cbn in Hq; lia|]. intros j tj Htj.
    destruct (stuck_reason size c j tj Hsafe Hstuck Htj) as [H|[[_ Hfull]|[Hy _]]];
      [by eapply finished_counts, finished_step|by rewrite Hempty in Hfull; cbn in Hfull; lia|].
    unfold to_store. rewrite Hy. destruct (Hpure _ _ Htj) as [[_ Hk]|[Hf _]]; [by rewrite Hy in Hk|].
    by rewrite stores_of_consumer.
Qed.

(** All calls returned, each without a value, and the items of the producers were
    all taken out of the buffer. *)
Definition drained (progs : list (list op)) (c : config) : Prop :=
  Forall finished (threads c) ∧ queue c = [] ∧ threads c ≫= removed ≡ₚ progs ≫= op_items ∧
  Forall2 (λ ops t, returned t = replicate (length ops) None) progs (threads c).

Lemma finished_threads ts :
  Forall finished ts → ts ≫= Sbuf.pending = [] ∧ ts ≫= taken = ts ≫= removed.
Proof.
  induction 1 as [|t ts [Hp Ht] _ [IH1 IH2]]; [done|]. cbn. rewrite IH1, IH2.
  unfold Sbuf.pending, taken. rewrite Hp, Ht. cbn. by rewrite !app_nil_r.
Qed.

Lemma live_drained size progs c :
  live_inv size progs c → stores_of progs = loads_of progs → Forall finished (threads c) → drained progs c.
Proof.
  intros [Hsafe [Hp Ht] _ Hst Hld Hcalls] Heq Hf.
  destruct (finished_threads _ Hf) as [H1 H2]. rewrite H1 in Hp. rewrite H2 in Ht. cbn in Hp.
  assert (∀ g, (∀ t, finished t → g t = 0%nat) → total g (threads c) = 0%nat) as Hz.
  { intros g Hg. apply total_zero. intros i t Hi. apply Hg. by eapply Forall_lookup_1. }
  rewrite Hz in Hst by (intros; by apply finished_counts). rewrite Hz in Hld by (intros; by apply finished_counts).
  destruct (inv_fifo _ _ Hsafe) as [l Hl]. rewrite Hl, length_app in Hst.
  assert (l = []) as -> by (apply nil_length_inv; lia). rewrite app_nil_r in Hl.
  split_and!; [done|by unfold queue; rewrite Hl, drop_all|by rewrite Ht, <- Hl|].
  apply Forall2_same_length_lookup_2; [by eapply Forall2_length|]. intros i ops t Hi Hti.
  destruct (Forall2_lookup_lr _ _ _ _ _ _ Hcalls Hi Hti) as [Hr Hlen].
  destruct (Forall_lookup_1 _ _ _ _ Hf Hti) as [Hpc Htodo]. rewrite Hpc, Htodo in Hlen. cbn in Hlen. rewrite Hr, Hlen. do 2 f_equal. lia.
Qed.

Definition can_move (sp : sbuf_t) (t : thread) : bool :=
  match thread_step sp t with Next _ _ _ _ => true | _ => false end.

Lemma live_progress size progs c :
  0 < size → live_inv size progs c → stores_of progs = loads_of progs →
  Z.of_nat (stores_of progs) ≤ INT_MAX → drained progs c ∨ ∃ c', step c c'.
Proof.
  intros Hs Hinv Heq Hmax.
  destruct (decide (Exists (λ t, can_move (shared c) t = true) (threads c))) as [He|Hne].
  - right. apply Exists_exists in He as (t & Hin & Hm). apply list_elem_of_lookup in Hin as [i Hi].
    unfold can_move in Hm. destruct (thread_step (shared c) t) eqn:E; try done. eexists. by eapply step_thread.
  - left. eapply live_drained; [done..|]. apply Forall_lookup. intros i t Hti.
    eapply live_stuck_finished; [done..| |exact Hti]. clear i t Hti. intros i t Hti.
    assert (can_move (shared c) t = false) as Hm.
    { destruct (can_move (shared c) t) eqn:E; [|done]. exfalso. apply Hne, Exists_exists.
      exists t. split; [by eapply list_elem_of_lookup_2|done]. }
    pose proof (live_no_overflow size progs c i t Hinv Hmax ltac:(by rewrite <- Heq) Hti).
    unfold can_move in Hm. destruct (thread_step (shared c) t); auto; done.
Qed.

(** ** Properties *)

(** C22: liveness.  If every thread only inserts or only removes, and as many
    items are inserted as removed, then from every reachable state every schedule
    ends: no thread waits forever on a semaphore, the indices do not overflow, all
    calls return, the buffer is empty and every inserted item was taken out of it
    exactly once.  But no call returns a value, [sbuf_remove] being [void]: the
    items taken out reach no caller. *)
Theorem sbuf_all_removed size progs c :
  0 < size → Forall one_kind progs → stores_of progs = loads_of progs →
  Z.of_nat (stores_of progs) ≤ INT_MAX → reachable size progs c →
  inevitably step (drained progs) c.
Proof.
  intros Hs Hk Heq Hmax Hr.
  assert (live_inv size progs c) as Hc.
  { eapply (rtc_invariant step); [|apply live_start; [lia|exact Hk]|exact Hr].
    intros x y Hx Hxy. by eapply live_step. }
  clear Hr. revert c Hc. apply (inevitably_measure _ _ _ (λ c, total work (threads c))).
  intros x Hx. destruct (live_progress size progs x) as [?|?]; [done..|by left|]. right. split; [done|].
  intros y Hy. right. by apply live_step.
Qed.

(** Two producers and two consumers on one slot. *)
Definition live_progs : list (list op) :=
  [[OpInsert 5]; [OpInsert 6; OpInsert 7]; [OpRemove]; [OpRemove; OpRemove]].

Lemma sbuf_all_removed_witness : inevitably step (drained live_progs) (start 1 live_progs).
Proof.
  apply (sbuf_all_removed 1);
    [lia|repeat constructor; (by left; repeat constructor) || (by right; repeat constructor)
    |reflexivity|vm_compute; discriminate|apply rtc_refl].
Defined.

(** The hypothesis on the threads is needed: one that inserts twice before it
    removes waits forever in front of its own full buffer. *)
Example mixed_calls_can_block :
  ∃ c, reachable 1 [[OpInsert 1; OpInsert 2; OpRemove; OpRemove]] c ∧ stuck c ∧
       ∃ t, threads c !! 0%nat = Some t ∧ at_ t = InsSlots 2.
Proof.
  exists (default (start 1 []) (exec (replicate 8 0%nat) (start 1 [[OpInsert 1; OpInsert 2; OpRemove; OpRemove]]))).
  split; [apply (exec_steps (replicate 8 0%nat)); vm_compute; reflexivity|]. split.
  - intros [|i] t H; vm_compute in H; [|done]. injection H as <-. left. vm_compute. reflexivity.
  - eexists. split; vm_compute; reflexivity.
Qed.
