(* ===== verification/Shell.v ===== *)
(** * The shell example

    Models [csapp/exceptional_control_flow/shellex.c]: splitting a command line
    into arguments, built-in commands, and running a job in the foreground or
    background. *)

From S2P Require Import Prelude Sys Rio.

Definition MAXARGS : Z := 128.
Definition SPACE : Z := 32.
Definition AMPERSAND : Z := 38.

(** The loop that moves [buf] past spaces. *)
Fixpoint skip_spaces (buf : list Z) : list Z :=
  match buf with
  | c :: rest => if c =? SPACE then skip_spaces rest else buf
  | [] => []
  end.

(** [strchr(buf, ' ')]: what is in front of the first space, and behind it. *)
Fixpoint split_space (buf : list Z) : option (list Z * list Z) :=
  match buf with
  | [] => None
  | c :: rest =>
      if c =? SPACE then Some ([], rest)
      else match split_space rest with Some (w, r) => Some (c :: w, r) | None => None end
  end.

(** The loop that fills [argv]; every round shortens the line, so its length is
    enough fuel. *)
Fixpoint build_argv (fuel : nat) (argv : list (list Z)) (buf : list Z) : M (list (list Z)) :=
  match fuel with
  | O => no_fuel
  | S fuel =>
      match split_space buf with
      | None => mret argv
      | Some (arg, rest) =>
          if MAXARGS <=? len argv then fail_with BufferOverflow
          else build_argv fuel (argv ++ [arg]) (skip_spaces rest)
      end
  end.

(** The line without its terminating zero; the result is the background flag and
    [argv] up to the null pointer. *)
Definition parseline (buf : list Z) : M (Z * list (list Z)) :=
  if len buf =? 0 then fail_with BufferOverflow
  else
    let buf := removelast buf ++ [SPACE] in
    argv ← build_argv (S (length buf)) [] (skip_spaces buf);
    if MAXARGS <=? len argv then fail_with BufferOverflow
    else
      match last argv with
      | None => mret (1, argv)
      | Some arg =>
          if default 0 (head arg) =? AMPERSAND then mret (1, removelast argv) else mret (0, argv)
      end.

Definition builtin_command (argv0 : list Z) : M Z :=
  if decide (argv0 = bytes_of_string "quit") then exit 0
  else if decide (argv0 = bytes_of_string "&") then mret 1
  else mret 0.

(** [pid] is not initialised when no job was started. *)
Definition eval (cmdline : list Z) : M () :=
  if MAXLINE <=? len cmdline then fail_with BufferOverflow
  else
    '(bg, argv) ← parseline cmdline;
    match argv with
    | [] => mret ()
    | argv0 :: _ =>
        b ← builtin_command argv0;
        pid ← (if b =? 0 then
                 pid ← call_int SysFork;
                 if pid =? 0 then
                   _ ← call (SysExecve argv);
                   _ ← call (SysSleep 1);
                   exit 0
                 else mret (Some pid)
               else mret None);
        if bg =? 0 then
          match pid with
          | None => fail_with UninitRead
          | Some pid => r ← call_int (SysWaitpid pid 0); if r <? 0 then exit 0 else mret ()
          end
        else match pid with None => fail_with UninitRead | Some _ => mret () end
    end.

(** [feof] after [fgets]: the input ended before a newline and before the buffer
    was full. *)
Definition input_ended (line : list Z) : bool :=
  negb (bool_decide (last line = Some NEWLINE)) && (len line <? MAXLINE - 1).

(** [cmdline] is what the buffer holds: a failing [fgets] leaves it as it was. *)
Definition main : M () :=
  loop (λ cmdline : option (list Z),
    r ← call (SysFgets MAXLINE);
    match r with
    | RData line =>
        if input_ended line then exit 0 else _ ← eval line; mret (inl (Some line))
    | _ =>
        match cmdline with
        | None => fail_with UninitRead
        | Some line => _ ← eval line; mret (inl cmdline)
        end
    end) None.

(** ** The reference: words *)
Fixpoint words_from (cur s : list Z) : list (list Z) :=
  match s with
  | [] => if decide (cur = []) then [] else [cur]
  | c :: s =>
      if c =? SPACE then
        (if decide (cur = []) then [] else [cur]) ++ words_from [] s
      else words_from (cur ++ [c]) s
  end.

Definition words (s : list Z) : list (list Z) := words_from [] s.

Lemma words_skip s : words (skip_spaces s) = words s.
Proof.
  induction s as [|c s IH]; [done|]. cbn [skip_spaces]. destruct (c =? SPACE) eqn:E; [|done].
  rewrite IH. unfold words. cbn. by rewrite E.
Qed.

Lemma split_space_words s w r cur :
  split_space s = Some (w, r) → cur ++ w ≠ [] → words_from cur s = (cur ++ w) :: words r.
Proof.
  revert w cur. induction s as [|c s IH]; intros w cur E Hne; cbn in E; [done|]. cbn.
  destruct (c =? SPACE).
  - injection E as <- <-. rewrite app_nil_r in *. by rewrite decide_False.
  - destruct (split_space s) as [[w' r']|]; [|done]. injection E as <- <-.
    rewrite (IH w' (cur ++ [c])) by (done || by destruct cur). by rewrite <- app_assoc.
Qed.

Lemma split_space_app s : ∃ w r, split_space (s ++ [SPACE]) = Some (w, r).
Proof.
  induction s as [|c s (w & r & IH)]; cbn; [by eexists _, _|]. destruct (c =? SPACE); [by eexists _, _|].
  rewrite IH. by eexists _, _.
Qed.

(** The line stays one that ends in a space, or is used up. *)
Definition ends_in_space (s : list Z) : Prop := s = [] ∨ ∃ s', s = s' ++ [SPACE].

Lemma ends_in_space_tail c s : ends_in_space (c :: s) → ends_in_space s.
Proof.
  intros [?|[s' E]]; [done|]. destruct s' as [|c' s']; injection E as -> E; [by left|].
  right. by exists s'.
Qed.

Lemma ends_in_space_skip s : ends_in_space s → ends_in_space (skip_spaces s).
Proof.
  induction s as [|c s IH]; [done|]. cbn. intros H. case_bool; [|done].
  apply IH. by eapply ends_in_space_tail.
Qed.

Lemma split_space_rest s w r :
  split_space s = Some (w, r) → ends_in_space s → ends_in_space r ∧ (length r < length s)%nat.
Proof.
  revert w. induction s as [|c s IH]; intros w E H; cbn in E; [done|].
  apply ends_in_space_tail in H. destruct (c =? SPACE).
  - injection E as _ <-. split; [done|]. cbn. lia.
  - destruct (split_space s) as [[w' r']|]; [|done]. injection E as _ <-.
    destruct (IH w' eq_refl H). split; [done|]. cbn. lia.
Qed.

Lemma skip_spaces_length s : (length (skip_spaces s) ≤ length s)%nat.
Proof. induction s as [|c s IH]; cbn; [lia|]. case_bool; cbn; lia. Qed.

Lemma skip_spaces_head s : head (skip_spaces s) ≠ Some SPACE.
Proof. induction s as [|c s IH]; cbn; [done|]. case_bool; breflect; cbn; congruence. Qed.

Lemma split_nonempty s w r :
  split_space s = Some (w, r) → head s ≠ Some SPACE → w ≠ [].
Proof.
  destruct s as [|c s]; cbn; [done|]. intros E Hh. destruct (c =? SPACE) eqn:Ec; breflect; [congruence|].
  destruct (split_space s) as [[w' r']|]; [|done]. by injection E as <- <-.
Qed.

(** The words already found and those to come. *)
Lemma build_argv_spec fuel argv buf w :
  ends_in_space buf → head buf ≠ Some SPACE → (length buf < fuel)%nat → len argv ≤ MAXARGS →
  build_argv fuel argv buf w =
    if len argv + len (words buf) <=? MAXARGS then Done (argv ++ words buf) w
    else Faulted BufferOverflow w.
Proof.
  revert argv buf. induction fuel as [|fuel IH]; intros argv buf He Hh Hf Hl; [lia|]. cbn [build_argv].
  destruct (split_space buf) as [[arg rest]|] eqn:E.
  - pose proof (split_nonempty _ _ _ E Hh) as Hne.
    pose proof (split_space_words _ _ _ [] E Hne) as Hw. cbn [app] in Hw. fold (words buf) in Hw.
    destruct (split_space_rest _ _ _ E He) as [He' Hlt]. pose proof (len_nonneg (words rest)).
    rewrite Hw. replace (len (arg :: words rest)) with (1 + len (words rest)) by (unfold len; cbn; lia).
    destruct (MAXARGS <=? len argv) eqn:Em; breflect.
    + rewrite (proj2 (Z.leb_gt _ _)) by lia. done.
    + rewrite IH; [|by apply ends_in_space_skip|apply skip_spaces_head| |].
      * rewrite words_skip, len_app. change (len [arg]) with 1.
        rewrite Z.add_assoc, <- app_assoc. done.
      * pose proof (skip_spaces_length rest). lia.
      * rewrite len_app. change (len [arg]) with 1. lia.
  - destruct He as [->|[s' ->]].
    + change (words []) with (@nil (list Z)). rewrite app_nil_r. change (len (@nil (list Z))) with 0.
      by rewrite Z.add_0_r, (proj2 (Z.leb_le _ _)).
    + destruct (split_space_app s') as (w' & r & E'). by rewrite E' in E.
Qed.

Lemma words_from_snoc_space cur s : words_from cur (s ++ [SPACE]) = words_from cur s.
Proof.
  revert cur. induction s as [|c s IH]; intros cur; cbn.
  - case_decide; done.
  - case_bool; by rewrite IH.
Qed.

(** The specification of [parseline] on the words of the line without its last
    character. *)
Definition parse_result (ws : list (list Z)) : option (Z * list (list Z)) :=
  if MAXARGS <=? len ws then None
  else Some match last ws with
            | None => (1, [])
            | Some arg => if default 0 (head arg) =? AMPERSAND then (1, removelast ws) else (0, ws)
            end.

Lemma parseline_spec body c w :
  parseline (body ++ [c]) w =
    match parse_result (words body) with
    | Some r => Done r w
    | None => Faulted BufferOverflow w
    end.
Proof.
  unfold parseline, parse_result. rewrite removelast_last, len_app. change (len [c]) with 1.
  pose proof (len_nonneg body). rewrite (proj2 (Z.eqb_neq _ 0)) by lia. cbn zeta.
  unfold mbind, M_bind. rewrite build_argv_spec.
  - change (len (@nil (list Z))) with 0. rewrite Z.add_0_l, words_skip. unfold words.
    rewrite words_from_snoc_space. fold (words body). cbn [app].
    destruct (len (words body) <=? MAXARGS) eqn:E1; destruct (MAXARGS <=? len (words body)) eqn:E2;
      breflect; try done; try lia.
    destruct (last (words body)) as [arg|] eqn:El; [by case_bool|]. apply last_None in El. by rewrite El.
  - apply ends_in_space_skip. right. by exists body.
  - apply skip_spaces_head.
  - pose proof (skip_spaces_length (body ++ [SPACE])). lia.
  - done.
Qed.

(** A word is not empty, and contains no space. *)
Lemma words_from_ok cur s :
  SPACE ∉ cur → Forall (λ word, word ≠ [] ∧ SPACE ∉ word) (words_from cur s).
Proof.
  revert cur. induction s as [|c s IH]; intros cur Hc; cbn.
  - case_decide; by repeat constructor.
  - case_bool; breflect; [|apply IH; set_solver]. apply Forall_app.
    split; [case_decide; by repeat constructor|apply IH; set_solver].
Qed.

(** A line that starts with an ampersand word and goes on is taken for a built-in
    command: no job is started, and [waitpid] gets a [pid] that was never set. *)
Lemma eval_leading_ampersand w :
  eval (bytes_of_string "& x" ++ [NEWLINE]) w = Faulted UninitRead w.
Proof. vm_compute. reflexivity. Qed.

(** ** Properties *)

(** C30: [parseline] splits the line, without its last character, into its words
    at spaces, for every line with fewer than [MAXARGS] words; a last word that
    starts with an ampersand is removed and asks for the background, an empty
    line reports 1 as well.  With [MAXARGS] words or more it writes past [argv].
    The loop always ends, and no argument is empty or contains a space. *)
Theorem parseline_words body c w :
  parseline (body ++ [c]) w =
    match parse_result (words body) with
    | Some r => Done r w
    | None => Faulted BufferOverflow w
    end ∧
  Forall (λ word, word ≠ [] ∧ SPACE ∉ word) (words body).
Proof. split; [apply parseline_spec|]. apply words_from_ok. set_solver. Qed.
