(* ===== verification/Process.v ===== *)
(** * Processes and signals

    The part of the kernel that the programs of
    [csapp/exceptional_control_flow] exercise: [fork], [waitpid], signals with
    masks, pending bits and handlers, interrupted calls, [alarm], [kill],
    [setjmp].  A program is a tree of calls ([code]) whose loops go through the
    labels of the program, so that [fork] really continues the same program
    twice.  One step of the system is a function of the state and of a choice:
    which process moves, and what the kernel decides where it is free to decide.

    A pending signal that is not blocked is delivered before the process executes
    its next instruction; signals of one kind do not queue. *)

From S2P Require Import Prelude Sys.

Definition ECHILD : Z := 10.
Definition ESRCH : Z := 3.
Definition EINVAL : Z := 22.
Definition SIGINT : Z := 2.
Definition SIGKILL : Z := 9.
Definition SIGALRM : Z := 14.
Definition SIGCHLD : Z := 17.
Definition SIGSTOP : Z := 19.
Definition SIG_ERR : Z := -1.
Definition RAND_MAX : Z := 2147483647.

(** Signals that the default action ignores. *)
Definition ignored_by_default (sig : Z) : bool := sig =? SIGCHLD.

Section code.
Context (L : Type).

(** Calls that answer with one number.  [Install] is [sigaction] with a handler
    and the flag [SA_RESTART]; [Load] and [Store] access a static variable of the
    program; [Initjobs], [Addjob] and [Deletejob] are functions
    the sources only declare, of which the system records that they were called. *)
Inductive request :=
| Fork
| Read (count : Z)
| Accept
| Sleep (secs : Z)
| Usleep (usecs : Z)
| Pause
| Alarm (secs : Z)
| Getpid
| Errno
| Gettimeofday
| Srand (seed : Z)
| Rand
| Kill (pid sig : Z)
| Install (sig : Z) (handler : L) (restart : bool)
| Block (sig : Z)
| Unblock (sig : Z)
| Execve (path : string)
| Load (x : string)
| Store (x : string) (v : Z)
| Initjobs
| Addjob (pid : Z)
| Deletejob (pid : Z).

(** [Waitpid] waits for any child; its continuation gets the result and the
    status.  [Fail e c] is the return of an interrupted call: it sets [errno].
    [Foreign] is the image that a successful [execve] loaded. *)
Inductive code :=
| Ret
| Exit (status : Z)
| Jump (l : L)
| Printf (format : string) (args : list Z) (k : code)
| Call (r : request) (k : Z → code)
| Waitpid (nohang : bool) (k : Z → Z → code)
| Setjmp (k : Z → code)
| Longjmp (v : Z)
| Fail (e : Z) (k : code)
| Foreign.

(** A process.  [stack] holds the interrupted code below the current handler,
    with the mask to restore; [dead] is the status a zombie keeps. *)
Record proc := mkProc {
  parent : Z;
  dead : option Z;
  current : code;
  stack : list (code * gset Z);
  mask : gset Z;
  pending : gset Z;
  handlers : gmap Z (L * bool);
  perrno : Z;
  armed : bool;
  jmp : option (Z → code);
  statics : gmap string Z
}.

(** What a process did that can be seen from outside. *)
Inductive act :=
| Printed (format : string) (args : list Z)
| Forked (pid : Z)
| ForkFailed
| Reaped (pid status : Z)
| ReadError (e : Z)
| CalledInitjobs
| CalledAddjob (pid : Z)
| CalledDeletejob (pid : Z).

Record state := mkState { procs : gmap Z proc; log : list (Z * act) }.

(** [Run p arg]: process [p] executes one instruction; [arg] is the kernel's
    decision (the pid of a new child, the child to reap, the result of [read]).
    [Deliver p sig in_call]: [p] enters the handler of [sig], either between two
    instructions or while it is blocked in a call.  [Clock]: an alarm expires.
    [Raise]: somebody outside the system sends a signal. *)
Inductive choice :=
| Run (p arg : Z)
| Deliver (p sig : Z) (in_call : bool)
| Clock (p : Z)
| Raise (p sig : Z).
End code.

Arguments Ret {L}. Arguments Exit {L}. Arguments Jump {L}. Arguments Printf {L}.
Arguments Call {L}. Arguments Waitpid {L}. Arguments Setjmp {L}. Arguments Longjmp {L}.
Arguments Fail {L}. Arguments Foreign {L}.
Arguments Fork {L}. Arguments Read {L}. Arguments Accept {L}. Arguments Sleep {L}. Arguments Usleep {L}.
Arguments Pause {L}. Arguments Alarm {L}. Arguments Getpid {L}. Arguments Errno {L}.
Arguments Gettimeofday {L}. Arguments Srand {L}. Arguments Rand {L}. Arguments Kill {L}.
Arguments Install {L}. Arguments Block {L}. Arguments Unblock {L}. Arguments Execve {L}.
Arguments Load {L}. Arguments Store {L}. Arguments Initjobs {L}. Arguments Addjob {L}. Arguments Deletejob {L}.
Arguments mkProc {L}. Arguments parent {L}. Arguments dead {L}. Arguments current {L}. Arguments stack {L}.
Arguments mask {L}. Arguments pending {L}. Arguments handlers {L}. Arguments perrno {L}.
Arguments armed {L}. Arguments jmp {L}. Arguments statics {L}.
Arguments mkState {L}. Arguments procs {L}. Arguments log {L}.

Declare Scope code_scope.
Delimit Scope code_scope with code.
Notation "x ⇐ r ; c" := (Call r (λ x, c)) (at level 20, r at level 100, c at level 200, right associativity,
  format "x  ⇐  r ;  '/' c") : code_scope.
Notation "'printf' f xs ; c" := (Printf f xs c) (at level 20, f at level 9, xs at level 9, c at level 200,
  right associativity, format "'printf'  f  xs ;  '/' c") : code_scope.
Open Scope code_scope.

(** [unix_error] of [csapp.h]: it reports [errno] and ends the process, with
    status 0. *)
Definition unix_error {L} (msg : string) : code L :=
  e ⇐ Errno; printf msg [e]; Exit 0.

Section kernel.
Context {L : Type} (body : L → code L).
Implicit Types (q k : proc L) (s : state L) (c : code L).

Definition alive q : bool := bool_decide (dead q = None).

Definition set_current q c : proc L :=
  mkProc (parent q) (dead q) c (stack q) (mask q) (pending q) (handlers q) (perrno q) (armed q) (jmp q) (statics q).
Definition set_pending q (x : gset Z) : proc L :=
  mkProc (parent q) (dead q) (current q) (stack q) (mask q) x (handlers q) (perrno q) (armed q) (jmp q) (statics q).
Definition set_mask q (x : gset Z) : proc L :=
  mkProc (parent q) (dead q) (current q) (stack q) x (pending q) (handlers q) (perrno q) (armed q) (jmp q) (statics q).
Definition set_perrno q (e : Z) : proc L :=
  mkProc (parent q) (dead q) (current q) (stack q) (mask q) (pending q) (handlers q) e (armed q) (jmp q) (statics q).
Definition set_armed q (b : bool) : proc L :=
  mkProc (parent q) (dead q) (current q) (stack q) (mask q) (pending q) (handlers q) (perrno q) b (jmp q) (statics q).
Definition set_jmp q (j : option (Z → code L)) : proc L :=
  mkProc (parent q) (dead q) (current q) (stack q) (mask q) (pending q) (handlers q) (perrno q) (armed q) j (statics q).
Definition set_handlers q (h : gmap Z (L * bool)) : proc L :=
  mkProc (parent q) (dead q) (current q) (stack q) (mask q) (pending q) h (perrno q) (armed q) (jmp q) (statics q).
Definition set_static q (x : string) (v : Z) : proc L :=
  mkProc (parent q) (dead q) (current q) (stack q) (mask q) (pending q) (handlers q) (perrno q) (armed q) (jmp q)
    (<[x := v]> (statics q)).
Definition set_parent q (p : Z) : proc L :=
  mkProc p (dead q) (current q) (stack q) (mask q) (pending q) (handlers q) (perrno q) (armed q) (jmp q) (statics q).
Definition set_dead q (st : Z) : proc L :=
  mkProc (parent q) (Some st) (current q) (stack q) (mask q) (pending q) (handlers q) (perrno q) (armed q) (jmp q) (statics q).

(** The signal becomes pending; a second one of its kind is absorbed. *)
Definition send (sig : Z) q : proc L :=
  if alive q && negb (bool_decide (handlers q !! sig = None) && ignored_by_default sig)
  then set_pending q ({[sig]} ∪ pending q) else q.

Definition deliverable q : gset Z := pending q ∖ mask q.

(** Orphans get the init process as parent. *)
Definition INIT : Z := 1.
Definition adopt (p : Z) q : proc L := if parent q =? p then set_parent q INIT else q.

(** The end of process [p]: it stays as a zombie until its parent reaps it. *)
Definition terminate (p st : Z) q s : state L :=
  mkState (alter (send SIGCHLD) (parent q) (<[p := set_dead q st]> (adopt p <$> procs s))) (log s).

Definition exit_status (code : Z) : Z := Z.shiftl (Z.land code 255) 8.
Definition WIFEXITED (st : Z) : bool := Z.land st 127 =? 0.
Definition WEXITSTATUS (st : Z) : Z := Z.land (Z.shiftr st 8) 255.

Definition children (p : Z) s : gmap Z (proc L) := filter (λ kv, parent kv.2 = p) (procs s).
Definition no_child (p : Z) s : bool := bool_decide (children p s = ∅).
Definition no_zombie (p : Z) s : bool := bool_decide (filter (λ kv, dead kv.2 ≠ None) (children p s) = ∅).

(** The process can wait inside its next instruction. *)
Definition blocking (p : Z) c s : bool :=
  match c with
  | Call (Read _) _ | Call Accept _ | Call (Sleep _) _ | Call (Usleep _) _ | Call Pause _ => true
  | Waitpid false _ => no_zombie p s && negb (no_child p s)
  | _ => false
  end.

(** What is left of a blocking call once a handler interrupted it: with
    [SA_RESTART], [read], [accept] and [waitpid] start again. *)
Definition interrupt (restart : bool) c : code L :=
  match c with
  | Call (Read _) k | Call Accept k => if restart then c else Fail EINTR (k (-1))
  | Waitpid _ k => if restart then c else Fail EINTR (k (-1) 0)
  | Call Pause k => Fail EINTR (k (-1))
  | Call (Usleep _) k => Fail EINTR (k (-1))
  | Call (Sleep n) k => k n
  | _ => c
  end.

Definition update (p : Z) q s : state L := mkState (<[p := q]> (procs s)) (log s).
Definition record (p : Z) (a : act) s : state L := mkState (procs s) (log s ++ [(p, a)]).

(** The new process: same code, handlers and mask, no pending signal or alarm. *)
Definition child_of (p : Z) q c : proc L :=
  mkProc p None c (stack q) (mask q) ∅ (handlers q) (perrno q) false (jmp q) (statics q).

(** A call that is not [waitpid]; [None] means that it does not return now. *)
Definition exec_call (p : Z) q (r : request L) (k : Z → code L) (arg : Z) s : option (state L) :=
  let return_ q v := update p (set_current q (k v)) s in
  match r with
  | Fork =>
      if arg =? -1 then Some (record p ForkFailed (return_ (set_perrno q EAGAIN) (-1)))
      else if (INIT <? arg) && (arg <=? INT_MAX) && bool_decide (procs s !! arg = None) then
        Some (record p (Forked arg) (update p (set_current q (k arg)) (update arg (child_of p q (k 0)) s)))
      else None
  | Read count =>
      if (0 <=? arg) && (arg <=? count) then Some (return_ q arg)
      else if (arg <? 0) && negb (arg =? - EINTR) then
        Some (record p (ReadError (- arg)) (return_ (set_perrno q (- arg)) (-1)))
      else None
  | Accept =>
      if 0 <=? arg then Some (return_ q arg)
      else if negb (arg =? - EINTR) then Some (return_ (set_perrno q (- arg)) (-1)) else None
  | Sleep _ | Usleep _ => Some (return_ q 0)
  | Pause => None
  | Alarm secs => Some (return_ (set_armed q (0 <? secs)) 0)
  | Getpid => Some (return_ q p)
  | Errno => Some (return_ q (perrno q))
  | Gettimeofday => if (0 <=? arg) && (arg <? 1000000) then Some (return_ q arg) else None
  | Srand _ => Some (return_ q 0)
  | Rand => if (0 <=? arg) && (arg <=? RAND_MAX) then Some (return_ q arg) else None
  | Kill pid sig =>
      if 0 <? pid then
        match procs s !! pid with
        | None => Some (return_ (set_perrno q ESRCH) (-1))
        | Some _ => let s := return_ q 0 in Some (mkState (alter (send sig) pid (procs s)) (log s))
        end
      else if pid =? -1 then
        Some (mkState (<[p := set_current q (k 0)]> (send sig <$> procs s)) (log s))
      else None
  | Install sig h restart =>
      if (sig =? SIGKILL) || (sig =? SIGSTOP) || (sig <? 1) then
        Some (return_ (set_perrno q EINVAL) SIG_ERR)
      else Some (return_ (set_handlers q (<[sig := (h, restart)]> (handlers q))) 0)
  | Block sig =>
      if (sig =? SIGKILL) || (sig =? SIGSTOP) then Some (return_ q 0)
      else Some (return_ (set_mask q ({[sig]} ∪ mask q)) 0)
  | Unblock sig => Some (return_ (set_mask q (mask q ∖ {[sig]})) 0)
  | Execve _ =>
      if 0 <=? arg then Some (update p (set_handlers (set_current q Foreign) ∅) s)
      else Some (terminate p (exit_status 0) q s)
  | Load x => Some (return_ q (default 0 (statics q !! x)))
  | Store x v => Some (return_ (set_static q x v) 0)
  | Initjobs => Some (record p CalledInitjobs (return_ q 0))
  | Addjob pid => Some (record p (CalledAddjob pid) (return_ q 0))
  | Deletejob pid => Some (record p (CalledDeletejob pid) (return_ q 0))
  end.

Definition exec_waitpid (p : Z) q (nohang : bool) (k : Z → Z → code L) (arg : Z) s : option (state L) :=
  if no_child p s then Some (update p (set_current (set_perrno q ECHILD) (k (-1) 0)) s)
  else
    match children p s !! arg with
    | Some z =>
        match dead z with
        | Some st => Some (record p (Reaped arg st)
            (update p (set_current q (k arg st)) (mkState (delete arg (procs s)) (log s))))
        | None => None
        end
    | None =>
        if nohang && no_zombie p s then Some (update p (set_current q (k 0 0)) s) else None
    end.

Definition exec_code (p : Z) q (arg : Z) s : option (state L) :=
  match current q with
  | Ret =>
      match stack q with
      | [] => None
      | (c, m) :: st =>
          Some (update p (mkProc (parent q) (dead q) c st m (pending q) (handlers q) (perrno q) (armed q) (jmp q) (statics q)) s)
      end
  | Exit code => Some (terminate p (exit_status code) q s)
  | Jump l => Some (update p (set_current q (body l)) s)
  | Printf f xs c => Some (record p (Printed f xs) (update p (set_current q c) s))
  | Call r k => exec_call p q r k arg s
  | Waitpid nohang k => exec_waitpid p q nohang k arg s
  | Setjmp k => Some (update p (set_current (set_jmp q (Some k)) (k 0)) s)
  | Longjmp v =>
      match jmp q with
      | None => None
      | Some k => Some (update p (set_current q (k (if v =? 0 then 1 else v))) s)
      end
  | Fail e c => Some (update p (set_current (set_perrno q e) c) s)
  | Foreign => Some (terminate p (exit_status arg) q s)
  end.

Definition exec_deliver (p : Z) q (sig : Z) (in_call : bool) s : option (state L) :=
  let q := set_pending q (pending q ∖ {[sig]}) in
  match handlers q !! sig with
  | None => Some (terminate p (Z.land sig 127) q s)
  | Some (h, restart) =>
      if in_call && negb (blocking p (current q) s) then None
      else
        let c := if in_call then interrupt restart (current q) else current q in
        Some (update p (mkProc (parent q) (dead q) (body h) ((c, mask q) :: stack q) ({[sig]} ∪ mask q)
                          (pending q) (handlers q) (perrno q) (armed q) (jmp q) (statics q)) s)
  end.

Definition exec (ch : choice) s : option (state L) :=
  match ch with
  | Run p arg =>
      match procs s !! p with
      | Some q => if alive q && bool_decide (deliverable q = ∅) then exec_code p q arg s else None
      | None => None
      end
  | Deliver p sig in_call =>
      match procs s !! p with
      | Some q => if alive q && bool_decide (sig ∈ deliverable q) then exec_deliver p q sig in_call s else None
      | None => None
      end
  | Clock p =>
      match procs s !! p with
      | Some q => if alive q && armed q then Some (update p (send SIGALRM (set_armed q false)) s) else None
      | None => None
      end
  | Raise p sig =>
      match procs s !! p with
      | Some q =>
          if alive q && (1 <=? sig) && (sig <=? 64) then Some (update p (send sig q) s) else None
      | None => None
      end
  end.

(** Steps that the choices in [allowed] make. *)
Inductive step (allowed : choice → bool) : state L → state L → Prop :=
| step_exec ch s s' : allowed ch = true → exec ch s = Some s' → step allowed s s'.

Fixpoint exec_all (chs : list choice) s : option (state L) :=
  match chs with
  | [] => Some s
  | ch :: chs => match exec ch s with Some s => exec_all chs s | None => None end
  end.

(** A single process [p] about to execute [c]. *)
Definition boot (p : Z) c : state L :=
  mkState {[ p := mkProc INIT None c [] ∅ ∅ ∅ 0 false None ∅ ]} [].

Lemma exec_all_reach allowed chs s s' :
  forallb allowed chs = true → exec_all chs s = Some s' → rtc (step allowed) s s'.
Proof.
  revert s. induction chs as [|ch chs IH]; cbn; intros s Ha H; [injection H as ->; apply rtc_refl|].
  apply andb_true_iff in Ha as [Ha Hb]. destruct (exec ch s) as [s1|] eqn:E; [|done].
  eapply rtc_l; [by econstructor|]. by apply IH.
Qed.

(** The state after a list of choices, where they can all be made. *)
Definition after chs s : state L := default s (exec_all chs s).

Definition proc_of s (p : Z) : proc L :=
  default (mkProc INIT None Ret [] ∅ ∅ ∅ 0 false None ∅) (procs s !! p).

(** Invariants of all reachable states. *)
Lemma reach_invariant allowed (I : state L → Prop) s0 s :
  I s0 → (∀ ch s s', allowed ch = true → I s → exec ch s = Some s' → I s') →
  rtc (step allowed) s0 s → I s.
Proof.
  intros H0 Hs H. induction H as [|s1 s2 s3 Hst _ IH]; [done|]. apply IH.
  destruct Hst as [ch s s' Ha E]. by eapply Hs.
Qed.
End kernel.

(** No signals from outside the system. *)
Definition internal (ch : choice) : bool := match ch with Raise _ _ => false | _ => true end.
