(* ===== verification/Family.v ===== *)
(** * A process and its children

    The programs of [csapp/exceptional_control_flow] consist of one process that
    installs handlers, forks and waits, and of children that only print, sleep,
    execute another program or exit.  For such a family, the state that matters
    is the first process, the status of each of its children, and the list of its
    own actions; this file reduces invariants of the whole system to that view. *)

From S2P Require Import Prelude Sys Process.

(** The labels of a program that its children jump to; in most programs there
    are none. *)
Class ChildLabels (L : Type) := child_label : L → Prop.
#[export] Instance no_child_labels L : ChildLabels L | 100 := λ _, False.

(** Code of a child: no child of its own, no handler; when it ends, its status
    satisfies [P]. *)
Fixpoint leaf {L} `{!ChildLabels L} (P : Z → Prop) (c : code L) : Prop :=
  match c with
  | Exit e => P (exit_status e)
  | Jump l => child_label l
  | Foreign => ∀ e, P (exit_status e)
  | Printf _ _ k => leaf P k
  | Call r k =>
      match r with
      | Getpid | Errno | Sleep _ | Usleep _ | Block _ | Unblock _ => ∀ v, leaf P (k v)
      | Read n => 0 ≤ n ∧ ∀ v, leaf P (k v)
      | Execve _ => ∀ e, P (exit_status e)
      | _ => False
      end
  | _ => False
  end.

Lemma leaf_mono {L} `{!ChildLabels L} (P Q : Z → Prop) (c : code L) : (∀ st, P st → Q st) → leaf P c → leaf Q c.
Proof.
  intros H. induction c as [|e|l|f xs c IH|r k IH|b k IH|k IH|v|e c IH|]; cbn; auto.
  destruct r; cbn; auto. intros [? ?]. auto.
Qed.

(** The actions of process [p]. *)
Definition by_proc (p : Z) (l : list (Z * act)) : list act :=
  (filter (λ e, e.1 = p) l).*2.

Arguments by_proc : simpl never.

Lemma by_proc_app p l l' : by_proc p (l ++ l') = by_proc p l ++ by_proc p l'.
Proof. unfold by_proc. by rewrite filter_app, fmap_app. Qed.

Lemma by_proc_own p a : by_proc p [(p, a)] = [a].
Proof. unfold by_proc. by rewrite filter_cons_True. Qed.

Lemma by_proc_other p p' a : p' ≠ p → by_proc p [(p', a)] = [].
Proof. intros ?. unfold by_proc. by rewrite filter_cons_False. Qed.

(** Children that have ended and have not been waited for. *)
Definition zombies (K : gmap Z (option Z)) : Prop := ∃ p st, K !! p = Some (Some st).

(** A new child is not one of them. *)
Lemma zombies_fork (K : gmap Z (option Z)) p : K !! p = None → zombies (<[p := None]> K) → zombies K.
Proof.
  intros Hp (p' & st & E). exists p', st. rewrite lookup_insert_ne in E; [done|].
  intros ->. by rewrite lookup_insert_eq in E.
Qed.


Section family.
Context {L : Type} `{!ChildLabels L} (body : L → code L) (r : Z).
(** What is known of the status of each child, given what its parent did. *)
Context (R : list act → Z → Z → Prop).
Context (r_pos : INIT < r).
Context (child_bodies : ∀ l p lb, child_label lb → leaf (R l p) (body lb)).
Context (R_mono : ∀ l l' p st, R l p st → R (l ++ l') p st).
Implicit Types (q k : proc L) (s : state L) (K : gmap Z (option Z)) (l : list act).

Definition kid (P : Z → Prop) k : Prop :=
  parent k = r ∧ pending k = ∅ ∧ armed k = false ∧
  match dead k with Some st => P st | None => leaf P (current k) end.

Definition own s : list act := by_proc r (log s).
Definition kids s : gmap Z (option Z) := dead <$> delete r (procs s).

Record family s q : Prop := {
  fam_root : procs s !! r = Some q;
  fam_alive : dead q = None;
  fam_parent : parent q = INIT;
  fam_armed : armed q = false;
  fam_pending : pending q ⊆ {[SIGCHLD]};
  fam_keys p k : procs s !! p = Some k → INIT < p;
  fam_kids p k : p ≠ r → procs s !! p = Some k → kid (R (own s) p) k
}.

(** The first process has ended. *)
Record ended s (st : Z) : Prop := {
  end_root : ∃ q, procs s !! r = Some q ∧ dead q = Some st ∧ parent q = INIT;
  end_init : procs s !! INIT = None
}.

(** ** Views *)

Lemma kids_lookup s p : p ≠ r → kids s !! p = dead <$> procs s !! p.
Proof. intros ?. unfold kids. by rewrite lookup_fmap, lookup_delete_ne. Qed.

Lemma kids_root s : kids s !! r = None.
Proof. unfold kids. by rewrite lookup_fmap, lookup_delete_eq. Qed.

Lemma kids_insert_root (m : gmap Z (proc L)) q g : kids (mkState (<[r := q]> m) g) = kids (mkState m g).
Proof. unfold kids. cbn. by rewrite delete_insert_eq. Qed.

Lemma kids_insert (m : gmap Z (proc L)) p k g :
  p ≠ r → kids (mkState (<[p := k]> m) g) = <[p := dead k]> (kids (mkState m g)).
Proof. intros ?. unfold kids. cbn. by rewrite delete_insert_ne, fmap_insert. Qed.

Lemma kids_delete (m : gmap Z (proc L)) p g :
  kids (mkState (delete p m) g) = delete p (kids (mkState m g)).
Proof. unfold kids. cbn. by rewrite delete_delete, fmap_delete. Qed.

Lemma kids_mk s g : kids (mkState (procs s) g) = kids s.
Proof. done. Qed.

Section steps.
Context s q (F : family s q).

Lemma fam_key p k : procs s !! p = Some k → p ≠ INIT.
Proof. intros H. pose proof (fam_keys _ _ F p k H). lia. Qed.

Lemma fam_init : procs s !! INIT = None.
Proof. destruct (procs s !! INIT) as [k|] eqn:E; [|done]. pose proof (fam_keys _ _ F _ _ E). lia. Qed.

Lemma fam_children p k : children r s !! p = Some k ↔ p ≠ r ∧ procs s !! p = Some k.
Proof.
  unfold children. rewrite map_lookup_filter_Some. cbn. split.
  - intros [H Hp]. split; [|done]. intros ->. rewrite (fam_root _ _ F) in H. injection H as <-.
    rewrite (fam_parent _ _ F) in Hp. lia.
  - intros [Hne H]. split; [done|]. by apply (fam_kids _ _ F p k).
Qed.

Lemma fam_no_child : no_child r s = true ↔ kids s = ∅.
Proof.
  unfold no_child. rewrite bool_decide_eq_true. split; intros H; apply map_eq; intros p; rewrite lookup_empty.
  - destruct (decide (p = r)) as [->|Hne]; [apply kids_root|]. rewrite kids_lookup by done.
    destruct (procs s !! p) as [k|] eqn:E; [|done].
    assert (children r s !! p = Some k) as Hc by (by apply fam_children).
    by rewrite H in Hc.
  - destruct (children r s !! p) as [k|] eqn:E; [|done]. apply fam_children in E as [Hne E].
    assert (kids s !! p = Some (dead k)) as Hc by (by rewrite kids_lookup, E).
    by rewrite H in Hc.
Qed.

Lemma fam_no_zombie : no_zombie r s = true → ∀ p st, kids s !! p ≠ Some (Some st).
Proof.
  unfold no_zombie. rewrite bool_decide_eq_true. intros H p st E.
  assert (p ≠ r) as Hne by (intros ->; by rewrite kids_root in E).
  rewrite kids_lookup in E by done. destruct (procs s !! p) as [k|] eqn:Ek; [|done]. cbn in E.
  assert (filter (λ kv, dead kv.2 ≠ None) (children r s) !! p = Some k) as Hf.
  { apply map_lookup_filter_Some. split; [by apply fam_children|]. cbn. injection E as ->. done. }
  by rewrite H in Hf.
Qed.

Lemma fam_all_reaped : (∀ p st, kids s !! p ≠ Some (Some st)) → no_zombie r s = true.
Proof.
  intros H. unfold no_zombie. apply bool_decide_eq_true, map_eq. intros p. rewrite lookup_empty.
  apply map_lookup_filter_None. right. intros k Hk Hd. cbn in Hd. apply fam_children in Hk as [Hne Hk].
  destruct (dead k) as [st|] eqn:E; [|done]. apply (H p st). by rewrite kids_lookup, Hk, <- E.
Qed.

Lemma fam_adopt p : p ≠ r → p ≠ INIT → adopt p <$> procs s = procs s.
Proof.
  intros Hr Hi. apply map_eq. intros i. rewrite lookup_fmap.
  destruct (procs s !! i) as [k|] eqn:E; [|done]. cbn. unfold adopt.
  destruct (Z.eqb_spec (parent k) p) as [Hp|]; [|done]. exfalso.
  destruct (decide (i = r)) as [->|Hne].
  - rewrite (fam_root _ _ F) in E. injection E as <-. by rewrite (fam_parent _ _ F) in Hp.
  - destruct (fam_kids _ _ F i k Hne E) as [Hk _]. congruence.
Qed.
End steps.

(** ** Changes that keep a family *)

Definition good_root q : Prop :=
  dead q = None ∧ parent q = INIT ∧ armed q = false ∧ pending q ⊆ {[SIGCHLD]}.

Lemma fam_good s q : family s q → good_root q.
Proof. by intros []. Qed.

Lemma fam_set_root s q q' g :
  family s q → good_root q' → family (mkState (<[r := q']> (procs s)) (log s ++ g)) q'.
Proof.
  intros [Hr Ha Hp Har Hpe Hi Hk] (Ha' & Hp' & Har' & Hpe'). split; cbn; try done.
  - by rewrite lookup_insert_eq.
  - intros p k. rewrite lookup_insert_Some. intros [[<- _]|[_ E]]; [done|by eapply Hi].
  - intros p k Hne. rewrite lookup_insert_ne by done. intros E. unfold own. cbn. rewrite by_proc_app.
    destruct (Hk p k Hne E) as (? & ? & ? & Hd). split_and!; try done.
    destruct (dead k); [by apply R_mono|]. eapply leaf_mono; [|done]. intros st. apply R_mono.
Qed.

Lemma fam_set_kid s q p k g :
  family s q → p ≠ r → INIT < p → kid (R (own s ++ by_proc r g) p) k →
  family (mkState (<[p := k]> (procs s)) (log s ++ g)) q.
Proof.
  intros [Hr Ha Hp Har Hpe Hi Hk] Hpr Hpi Hkid. split; cbn; try done.
  - by rewrite lookup_insert_ne.
  - intros p' k'. rewrite lookup_insert_Some. intros [[<- _]|[_ E]]; [done|by eapply Hi].
  - intros p' k' Hne. unfold own. cbn. rewrite by_proc_app. destruct (decide (p' = p)) as [->|Hnp].
    + rewrite lookup_insert_eq. by intros [= <-].
    + rewrite lookup_insert_ne by done. intros E.
      destruct (Hk p' k' Hne E) as (? & ? & ? & Hd). split_and!; try done.
      destruct (dead k'); [by apply R_mono|]. eapply leaf_mono; [|done]. intros st. apply R_mono.
Qed.

Lemma fam_del s q p : family s q → p ≠ r → family (mkState (delete p (procs s)) (log s)) q.
Proof.
  intros [Hr Ha Hp Har Hpe Hi Hk] Hpr. split; cbn; try done.
  - by rewrite lookup_delete_ne.
  - intros p' k'. rewrite lookup_delete_Some. intros [_ E]. by eapply Hi.
  - intros p' k' Hne. destruct (decide (p' = p)) as [->|]; [by rewrite lookup_delete_eq|].
    rewrite lookup_delete_ne by done. by apply Hk.
Qed.

Lemma good_send q : good_root q → good_root (send SIGCHLD q).
Proof.
  intros (? & ? & ? & ?). unfold send. case_bool; [|done]. split_and!; try done. cbn. set_solver.
Qed.

(** ** What a child does *)

Inductive kid_result s (p : Z) k : state L → Prop :=
| kid_moves k' g :
    kid (R (own s) p) k' → dead k' = None → by_proc r g = [] →
    kid_result s p k (mkState (<[p := k']> (procs s)) (log s ++ g))
| kid_dies st :
    R (own s) p st → kid_result s p k (terminate p st k s).

Lemma update_app p k s : update p k s = mkState (<[p := k]> (procs s)) (log s ++ []).
Proof. unfold update. by rewrite app_nil_r. Qed.

Lemma kid_run s q p k arg s' :
  family s q → p ≠ r → procs s !! p = Some k → dead k = None →
  exec_code body p k arg s = Some s' → kid_result s p k s'.
Proof.
  intros F Hpr Hk Hd E. destruct (fam_kids _ _ F p k Hpr Hk) as (Hpa & Hpe & Har & Hl). rewrite Hd in Hl.
  unfold exec_code in E. destruct (current k) as [|e|l|f xs c|rq kk|b kk|kk|v|e c|] eqn:Ec; cbn in Hl; try done.
  - injection E as <-. by apply kid_dies.
  - injection E as <-. rewrite update_app. apply kid_moves; try done. unfold kid. cbn. rewrite Hd.
    by split_and!; try apply child_bodies.
  - injection E as <-. unfold record, update. cbn. apply kid_moves; [|done|by apply by_proc_other].
    unfold kid. cbn. by rewrite Hd.
  - assert (∀ k' v, parent k' = r → pending k' = ∅ → armed k' = false → dead k' = None →
      (∀ v, leaf (R (own s) p) (kk v)) → kid (R (own s) p) (set_current k' (kk v))) as Hret.
    { intros k' v ? ? ? Hd' Hkk. unfold kid. cbn. rewrite Hd'. by split_and!. }
    destruct rq; try done; cbn in E, Hl; try destruct Hl as [_ Hl]; repeat case_bool; try done;
      injection E as <-; rewrite ?update_app;
      first [by apply kid_moves; try apply Hret|by apply kid_dies|idtac].
    + unfold record. cbn. rewrite app_nil_r. apply kid_moves; [by apply Hret|done|by apply by_proc_other].
    + apply kid_moves; try done. unfold kid. cbn. rewrite Hd. by split_and!.
  - injection E as <-. apply kid_dies. apply Hl.
Qed.

(** A child that has not ended can always move. *)
Lemma kid_progress s q p k :
  family s q → p ≠ r → procs s !! p = Some k → dead k = None → ∃ s', exec body (Run p 0) s = Some s'.
Proof.
  clear r_pos R_mono child_bodies. intros F Hpr Hk Hd.
  destruct (fam_kids _ _ F p k Hpr Hk) as (_ & Hpe & _ & Hl). rewrite Hd in Hl.
  unfold exec, alive, deliverable. rewrite Hk, Hd, Hpe, bool_decide_eq_true_2, bool_decide_eq_true_2 by set_solver. cbn.
  unfold exec_code. destruct (current k) as [| | | |[]| | | | |]; cbn in *; try done; try case_bool;
    try by eexists.
  destruct Hl as [Hl _]. apply Z.leb_le in Hl. congruence.
Qed.

Lemma kid_terminate s q p k st :
  family s q → p ≠ r → procs s !! p = Some k → dead k = None →
  terminate p st k s = mkState (<[r := send SIGCHLD q]> (<[p := set_dead k st]> (procs s))) (log s).
Proof.
  intros F Hpr Hk Hd. unfold terminate. rewrite fam_adopt with (q := q); [|done..|by eapply fam_key].
  destruct (fam_kids _ _ F p k Hpr Hk) as (-> & _). f_equal. apply map_eq. intros i.
  destruct (decide (i = r)) as [->|].
  - rewrite lookup_alter_eq, lookup_insert_ne, (fam_root _ _ F), lookup_insert_eq by done. done.
  - rewrite lookup_alter_ne, (lookup_insert_ne (<[p := _]> _)) by done. done.
Qed.

(** ** Once the first process has ended *)

(** [s'] has the same first process as [s], and the same actions of it. *)
Definition keeps s q s' : Prop :=
  procs s' !! r = Some q ∧ procs s' !! INIT = None ∧ own s' = own s.

Section ended.
Context s q st (Hr : procs s !! r = Some q) (Hd : dead q = Some st) (Hp : parent q = INIT).
Context (Hi : procs s !! INIT = None).

Lemma keeps_update s' p k : p ≠ r → p ≠ INIT → keeps s q s' → keeps s q (update p k s').
Proof.
  intros Hpr Hpi (H1 & H2 & H3). unfold keeps, update, own. cbn. rewrite !lookup_insert_ne by done. done.
Qed.

Lemma keeps_record s' p a : p ≠ r → keeps s q s' → keeps s q (record p a s').
Proof.
  intros Hpr (H1 & H2 & H3). unfold keeps, record, own. cbn. split_and!; try done.
  rewrite by_proc_app, by_proc_other, app_nil_r by done. done.
Qed.

Lemma keeps_refl : keeps s q s.
Proof. done. Qed.

Lemma keeps_delete p : p ≠ r → keeps s q (mkState (delete p (procs s)) (log s)).
Proof.
  intros ?. unfold keeps, own. cbn. rewrite lookup_delete_ne by done. split_and!; try done.
  destruct (decide (p = INIT)) as [->|]; [by rewrite lookup_delete_eq|by rewrite lookup_delete_ne].
Qed.

Lemma send_dead sig k : dead k ≠ None → send sig k = k.
Proof. intros H. unfold send, alive. by rewrite bool_decide_eq_false_2. Qed.

Lemma keeps_alter s' p sig : keeps s q s' → keeps s q (mkState (alter (send sig) p (procs s')) (log s')).
Proof.
  intros (H1 & H2 & H3). unfold keeps. cbn. split_and!; [| |done].
  - destruct (decide (p = r)) as [->|]; [|by rewrite lookup_alter_ne].
    rewrite lookup_alter_eq, H1. cbn. by rewrite send_dead by congruence.
  - destruct (decide (p = INIT)) as [->|]; [by rewrite lookup_alter_eq, H2|by rewrite lookup_alter_ne].
Qed.

Lemma keeps_terminate p k v : p ≠ r → p ≠ INIT → keeps s q (terminate p v k s).
Proof.
  intros Hpr Hpi. unfold terminate.
  refine (keeps_alter (mkState (<[p := set_dead k v]> (adopt p <$> procs s)) (log s)) (parent k) SIGCHLD _).
  refine (keeps_update (mkState (adopt p <$> procs s) (log s)) p _ Hpr Hpi _).
  unfold keeps, own. cbn. rewrite !lookup_fmap, Hr, Hi. cbn. split_and!; try done.
  unfold adopt. by destruct (Z.eqb_spec (parent q) p); [congruence|].
Qed.

Lemma keeps_broadcast sig : keeps s q (mkState (send sig <$> procs s) (log s)).
Proof.
  unfold keeps, own. cbn. rewrite !lookup_fmap, Hr, Hi. cbn. split_and!; try done.
  by rewrite send_dead by congruence.
Qed.

Hint Resolve keeps_refl keeps_update keeps_record keeps_delete keeps_terminate : core.

Lemma keeps_call p k rq kk arg s' :
  p ≠ r → p ≠ INIT → exec_call p k rq kk arg s = Some s' → keeps s q s'.
Proof.
  intros Hpr Hpi E. destruct rq; cbn in E; repeat case_bool; try done; simplify_eq; auto 6.
  - breflect. apply bool_decide_eq_true in H0. apply keeps_record; [done|]. apply keeps_update; [done..|].
    apply keeps_update; [intros ->; congruence|lia|apply keeps_refl].
  - refine (keeps_alter (update p _ s) pid sig _). auto.
  - refine (keeps_update (mkState (send sig <$> procs s) (log s)) p _ Hpr Hpi _). apply keeps_broadcast.
Qed.

Lemma keeps_waitpid p k b kk arg s' :
  p ≠ r → p ≠ INIT → exec_waitpid p k b kk arg s = Some s' → keeps s q s'.
Proof.
  intros Hpr Hpi E. unfold exec_waitpid in E. case_bool; [simplify_eq; auto|].
  destruct (children p s !! arg) as [z|] eqn:Ez; [|case_bool; simplify_eq; auto].
  destruct (dead z); simplify_eq. apply map_lookup_filter_Some in Ez as [Ez Hz]. cbn in Hz.
  apply keeps_record; [done|]. apply keeps_update; [done..|]. apply keeps_delete. congruence.
Qed.

Lemma keeps_code p k arg s' :
  p ≠ r → p ≠ INIT → exec_code body p k arg s = Some s' → keeps s q s'.
Proof.
  intros Hpr Hpi E. unfold exec_code in E. destruct (current k); simplify_eq; auto.
  - destruct (stack k) as [|[c m] cs]; simplify_eq. auto.
  - by eapply keeps_call.
  - by eapply keeps_waitpid.
  - destruct (jmp k); simplify_eq. auto.
Qed.

Lemma keeps_exec ch s' : exec body ch s = Some s' → keeps s q s'.
Proof.
  intros E. unfold exec in E.
  assert (∀ p k, procs s !! p = Some k → alive k = true → p ≠ r ∧ p ≠ INIT) as Hact.
  { intros p k Hk Ha. apply bool_decide_eq_true in Ha. split; intros ->; congruence. }
  destruct ch as [p arg|p sig b|p|p sig]; destruct (procs s !! p) as [k|] eqn:Ek; try done;
    destruct (alive k) eqn:Ea; cbn in E; try done; destruct (Hact p k Ek Ea) as [Hpr Hpi].
  - case_bool; [|done]. by eapply keeps_code.
  - case_bool; [|done]. unfold exec_deliver in E. cbn in E. destruct (handlers k !! sig) as [[h rs]|].
    + case_bool; simplify_eq. auto.
    + simplify_eq. auto.
  - case_bool; simplify_eq. auto.
  - case_bool; simplify_eq. auto.
Qed.
End ended.

Lemma ended_step s st ch s' :
  ended s st → exec body ch s = Some s' → ended s' st ∧ own s' = own s.
Proof.
  intros [(q & Hr & Hd & Hp) Hi] E. destruct (keeps_exec s q st Hr Hd Hp Hi ch s' E) as (H1 & H2 & H3).
  split; [|done]. split; [by exists q|done].
Qed.

(** ** Invariants of a family *)

(** Calls in which a handler can find the process blocked. *)
Definition may_block (c : code L) : bool :=
  match c with
  | Call (Read _) _ | Call Accept _ | Call (Sleep _) _ | Call (Usleep _) _ | Call Pause _ | Waitpid false _ => true
  | _ => false
  end.

Section invariant.
(** [J] relates the first process, the status of its children and its actions;
    [D] holds of its status and actions when it ends. *)
Context (J : proc L → gmap Z (option Z) → list act → Prop).
Context (D : Z → list act → Prop).

Definition enter q (h : L) (c : code L) : proc L :=
  mkProc (parent q) (dead q) (body h) ((c, mask q) :: stack q) ({[SIGCHLD]} ∪ mask q)
    (pending q ∖ {[SIGCHLD]}) (handlers q) (perrno q) (armed q) (jmp q) (statics q).

Definition leave q (c : code L) st (m : gset Z) : proc L :=
  mkProc (parent q) (dead q) c st m (pending q) (handlers q) (perrno q) (armed q) (jmp q) (statics q).

Definition deliver_post q K l : Prop :=
  ∃ h restart, handlers q !! SIGCHLD = Some (h, restart) ∧
    J (enter q h (current q)) K l ∧
    (may_block (current q) = true → J (enter q h (interrupt restart (current q))) K l).

(** What one instruction of the first process has to establish. *)
Definition run_post q K l : Prop :=
  let goes c := J (set_current q c) K l in
  match current q with
  | Ret => match stack q with [] => True | (c, m) :: st => J (leave q c st m) K l end
  | Exit e => D (exit_status e) l
  | Jump lb => goes (body lb)
  | Printf f xs c => J (set_current q c) K (l ++ [Printed f xs])
  | Fail e c => J (set_current (set_perrno q e) c) K l
  | Waitpid nohang k =>
      (K = ∅ → J (set_current (set_perrno q ECHILD) (k (-1) 0)) K l) ∧
      (∀ p st, INIT < p → K !! p = Some (Some st) → R l p st →
         J (set_current q (k p st)) (delete p K) (l ++ [Reaped p st])) ∧
      (nohang = true → K ≠ ∅ → (∀ p st, K !! p ≠ Some (Some st)) → goes (k 0 0))
  | Call rq k =>
      match rq with
      | Fork =>
          J (set_current (set_perrno q EAGAIN) (k (-1))) K (l ++ [ForkFailed]) ∧
          ∀ p, INIT < p ≤ INT_MAX → K !! p = None →
            leaf (R (l ++ [Forked p]) p) (k 0) ∧
            J (set_current q (k p)) (<[p := None]> K) (l ++ [Forked p])
      | Read count =>
          (∀ v, 0 ≤ v ≤ count → goes (k v)) ∧
          (∀ e, 0 < e → e ≠ EINTR → J (set_current (set_perrno q e) (k (-1))) K (l ++ [ReadError e]))
      | Accept =>
          (∀ v, 0 ≤ v → goes (k v)) ∧ (∀ e, 0 < e → J (set_current (set_perrno q e) (k (-1))) K l)
      | Sleep _ | Usleep _ => goes (k 0)
      | Pause => True
      | Getpid => goes (k r)
      | Errno => goes (k (perrno q))
      | Install sig h restart =>
          sig = SIGCHLD ∧ J (set_current (set_handlers q (<[sig := (h, restart)]> (handlers q))) (k 0)) K l
      | Block sig => sig = SIGCHLD ∧ J (set_current (set_mask q ({[sig]} ∪ mask q)) (k 0)) K l
      | Unblock sig => J (set_current (set_mask q (mask q ∖ {[sig]})) (k 0)) K l
      | Initjobs => J (set_current q (k 0)) K (l ++ [CalledInitjobs])
      | Addjob p => J (set_current q (k 0)) K (l ++ [CalledAddjob p])
      | Deletejob p => J (set_current q (k 0)) K (l ++ [CalledDeletejob p])
      | _ => False
      end
  | _ => False
  end.

Definition family_inv s : Prop :=
  (∃ q, family s q ∧ J q (kids s) (own s)) ∨ (∃ st, ended s st ∧ D st (own s)).

(** The successor state, seen from the first process. *)
Lemma inv_root s q q' g K' :
  family s q → good_root q' → kids s = K' → J q' K' (own s ++ by_proc r g) →
  family_inv (mkState (<[r := q']> (procs s)) (log s ++ g)).
Proof.
  intros F G <- HJ. left. exists q'. split; [by eapply fam_set_root|].
  rewrite kids_insert_root. unfold own. cbn. by rewrite by_proc_app.
Qed.

Lemma inv_update s q q' :
  family s q → good_root q' → J q' (kids s) (own s) → family_inv (update r q' s).
Proof.
  intros F G HJ. rewrite update_app. eapply inv_root; [done..|]. unfold by_proc. cbn. by rewrite app_nil_r.
Qed.

Lemma inv_record s q q' a :
  family s q → good_root q' → J q' (kids s) (own s ++ [a]) → family_inv (record r a (update r q' s)).
Proof.
  intros F G HJ. unfold record, update. cbn. eapply inv_root; [done..|]. by rewrite by_proc_own.
Qed.

Lemma inv_exit s q st : family s q → D st (own s) → family_inv (terminate r st q s).
Proof.
  intros F HD. right. exists st. split; [|done]. unfold terminate. rewrite (fam_parent _ _ F). split; cbn.
  - exists (set_dead q st). rewrite lookup_alter_ne, lookup_insert_eq by (unfold INIT in *; lia).
    split_and!; try done. apply (fam_parent _ _ F).
  - rewrite lookup_alter_eq, lookup_insert_ne, lookup_fmap, (fam_init _ _ F) by lia. done.
Qed.

Lemma inv_call s q rq (k : Z → code L) arg s' :
  family s q → current q = Call rq k → run_post q (kids s) (own s) →
  exec_call r q rq k arg s = Some s' → family_inv s'.
Proof.
  intros F Ec. pose proof (fam_good _ _ F) as G. unfold run_post. rewrite Ec.
  destruct rq; cbn; intros HP E; try done; repeat case_bool; try done; breflect; simplify_eq;
    try (eapply inv_update; [exact F|exact G|]; by apply HP);
    try (eapply inv_record; [exact F|exact G|]; by apply HP).
  - apply bool_decide_eq_true in H0.
    assert (arg ≠ r) as Hne by (intros ->; rewrite (fam_root _ _ F) in H0; done).
    destruct (proj2 HP arg) as [Hl HJ]; [lia|by rewrite kids_lookup, H0|].
    left. exists (set_current q (k arg)). unfold record, update. cbn. split.
    + assert (family (mkState (<[r := set_current q (k arg)]> (procs s)) (log s ++ [(r, Forked arg)])) (set_current q (k arg))) as F'
        by (by eapply fam_set_root).
      rewrite insert_insert_ne by done.
      rewrite <- (app_nil_r (log s ++ [_])).
      refine (fam_set_kid _ _ arg (child_of r q (k 0)) [] F' Hne _ _); [lia|].
      unfold own. cbn. rewrite by_proc_app, by_proc_own. unfold by_proc at 2. cbn. rewrite app_nil_r.
      unfold kid. cbn. by split_and!.
    + rewrite kids_insert_root, kids_insert by done. unfold own. cbn. by rewrite by_proc_app, by_proc_own.
  - eapply inv_record; [exact F|exact G|]. apply HP; lia.
  - eapply inv_update; [exact F|exact G|]. apply HP; lia.
  - destruct HP as [-> _]. done.
  - destruct HP as [-> _]. done.
Qed.

Lemma inv_waitpid s q nohang (k : Z → Z → code L) arg s' :
  family s q → current q = Waitpid nohang k → run_post q (kids s) (own s) →
  exec_waitpid r q nohang k arg s = Some s' → family_inv s'.
Proof.
  intros F Ec. pose proof (fam_good _ _ F) as G. unfold run_post. rewrite Ec. intros (H0 & H1 & H2) E.
  unfold exec_waitpid in E. destruct (no_child r s) eqn:En.
  - apply (fam_no_child _ _ F) in En. simplify_eq. eapply inv_update; [exact F|exact G|]. by apply H0.
  - destruct (children r s !! arg) as [z|] eqn:Ez.
    + destruct (dead z) as [st|] eqn:Ed; [|done]. simplify_eq.
      apply (fam_children _ _ F) in Ez as [Hne Ez].
      destruct (fam_kids _ _ F arg z Hne Ez) as (_ & _ & _ & HR). rewrite Ed in HR.
      eapply inv_record; [by apply fam_del; [exact F|]|exact G|].
      rewrite kids_delete, kids_mk. apply H1; [by eapply fam_keys| |done]. rewrite kids_lookup, Ez by done. cbn. by rewrite Ed.
    + case_bool; [|done]. breflect. simplify_eq. eapply inv_update; [exact F|exact G|]. apply H2; try done.
      * intros HK. apply (fam_no_child _ _ F) in HK. congruence.
      * by apply (fam_no_zombie _ _ F).
Qed.

Lemma inv_run s q arg s' :
  family s q → run_post q (kids s) (own s) → exec_code body r q arg s = Some s' → family_inv s'.
Proof.
  intros F HP E. pose proof (fam_good _ _ F) as G. unfold exec_code in E.
  destruct (current q) as [|e|lb|f xs c|rq k|b k|k|v|e c|] eqn:Ec;
    try (unfold run_post in HP; rewrite Ec in HP; done).
  5: by eapply inv_call. 5: by eapply inv_waitpid.
  all: unfold run_post in HP; rewrite Ec in HP.
  - destruct (stack q) as [|[c m] st]; simplify_eq. by eapply inv_update.
  - simplify_eq. by apply inv_exit.
  - simplify_eq. by eapply inv_update.
  - simplify_eq. by eapply inv_record.
  - simplify_eq. by eapply inv_update.
Qed.

Lemma inv_deliver s q in_call s' :
  family s q → deliver_post q (kids s) (own s) →
  exec_deliver body r q SIGCHLD in_call s = Some s' → family_inv s'.
Proof.
  intros F (h & restart & Hh & H1 & H2) E. pose proof (fam_good _ _ F) as (? & ? & ? & ?).
  unfold exec_deliver in E. cbn in E. rewrite Hh in E. case_bool; [done|]. simplify_eq.
  eapply inv_update; [exact F|split_and!; try done; cbn; set_solver|].
  destruct in_call; [|by apply H1]. apply H2. cbn in Heqb. apply negb_false_iff in Heqb.
  by destruct (current q) as [| | | |[]|[]| | | |].
Qed.

Hypothesis J_die : ∀ q K l p st,
  good_root q → J q K l → K !! p = Some None → R l p st → J (send SIGCHLD q) (<[p := Some st]> K) l.
Hypothesis J_deliver : ∀ q K l,
  good_root q → J q K l → SIGCHLD ∈ pending q → SIGCHLD ∉ mask q → deliver_post q K l.
Hypothesis J_run : ∀ q K l,
  good_root q → J q K l → deliverable q = ∅ → run_post q K l.

Lemma inv_kid s q p k s' :
  family s q → J q (kids s) (own s) → p ≠ r → procs s !! p = Some k → dead k = None →
  kid_result s p k s' → family_inv s'.
Proof.
  intros F HJ Hpr Hk Hd [k' g Hkid Hd' Hg|st HR]; left.
  - exists q. split.
    + apply fam_set_kid; [done|done|by eapply fam_keys|]. by rewrite Hg, app_nil_r.
    + rewrite kids_insert by done. unfold own. cbn. rewrite by_proc_app, Hg, app_nil_r, Hd'.
      rewrite insert_id; [done|]. rewrite kids_mk, kids_lookup, Hk by done. cbn. by rewrite Hd.
  - erewrite kid_terminate by done. exists (send SIGCHLD q).
    rewrite <- (app_nil_r (log s)). split.
    + destruct (fam_kids _ _ F p k Hpr Hk) as (? & ? & ? & _).
      assert (family (mkState (<[p := set_dead k st]> (procs s)) (log s ++ [])) q) as F'.
      { apply fam_set_kid; [done|done|by eapply fam_keys|]. unfold by_proc. cbn. rewrite app_nil_r. by split_and!. }
      rewrite <- (app_nil_r (log s ++ [])).
      refine (fam_set_root _ _ _ [] F' _). apply good_send. by eapply fam_good.
    + rewrite kids_insert_root, kids_insert by done. cbn. unfold own. cbn. rewrite app_nil_r.
      apply J_die; [by eapply fam_good|done| |done].
      rewrite kids_mk, kids_lookup, Hk by done. cbn. by rewrite Hd.
Qed.

Lemma family_inv_step ch s s' :
  internal ch = true → family_inv s → exec body ch s = Some s' → family_inv s'.
Proof.
  intros Hch [(q & F & HJ)|(st & He & HD)] E.
  2: { right. exists st. destruct (ended_step s st ch s' He E) as [He' ->]. done. }
  pose proof (fam_good _ _ F) as G.
  unfold exec in E. destruct ch as [p arg|p sig b|p|p sig]; [..|done];
    destruct (procs s !! p) as [k|] eqn:Ek; try done; destruct (alive k) eqn:Ea; cbn in E; try done;
    match type of E with (if ?b then _ else _) = _ => destruct b eqn:Hg; [|done] end; apply bool_decide_eq_true in Ea;
    try (apply bool_decide_eq_true in Hg); destruct (decide (p = r)) as [->|Hne];
    try (rewrite (fam_root _ _ F) in Ek; injection Ek as <-).
  - eapply inv_run; [done| |done]. by apply J_run.
  - eapply inv_kid; [done..|]. by eapply kid_run.
  - unfold deliverable in Hg. assert (sig = SIGCHLD) as -> by (pose proof (fam_pending _ _ F); set_solver).
    eapply inv_deliver; [done| |done]. apply J_deliver; try done; set_solver.
  - destruct (fam_kids _ _ F p k Hne Ek) as (_ & Hp & _). unfold deliverable in Hg. set_solver.
  - rewrite (fam_armed _ _ F) in Hg. done.
  - destruct (fam_kids _ _ F p k Hne Ek) as (_ & _ & Har & _). congruence.
Qed.

(** The invariant holds in every state that the program reaches. *)
Lemma family_invariant c s :
  J (mkProc INIT None c [] ∅ ∅ ∅ 0 false None ∅) ∅ [] →
  rtc (step body internal) (boot r c) s → family_inv s.
Proof.
  intros HJ. apply reach_invariant.
  - left. eexists. split; [split; cbn|].
    + apply lookup_singleton_eq.
    + done.
    + done.
    + done.
    + set_solver.
    + intros p k. rewrite lookup_singleton_Some. by intros [<- _].
    + intros p k Hne. rewrite lookup_singleton_ne by done. done.
    + unfold kids, own. cbn. by rewrite delete_singleton_eq, fmap_empty.
  - intros. by eapply family_inv_step.
Qed.
End invariant.
End family.
