(* ===== verification/Reaping.v ===== *)
(** * Reaping children in a SIGCHLD handler

    Models [csapp/exceptional_control_flow/signal1.c] to [signal4.c]: a parent
    creates three children, reads from the terminal, and reaps the children in a
    handler.  The programs differ in the handler (one [waitpid] per signal, or as
    many as there are children) and in how they get along with a [read] that a
    handler interrupts.  Whether [signal] installs handlers with [SA_RESTART]
    differs between systems and is the parameter [bsd]. *)

From S2P Require Import Prelude Sys Process Family.

Definition MAXBUF : Z := 8192.

(** The points that the four programs jump to: their handler, its loop, the
    loops of [main]. *)
Inductive label := Handler | Reap | ForkLoop (i : Z) | ReadLoop | Forever.

Definition signal (bsd : bool) (sig : Z) (h : label) : request label := Install sig h bsd.

(** What the children do, in all four programs; each program has its own copy. *)
Definition child : code label :=
  me ⇐ Getpid;
  printf "Hello from child %d\n" [me];
  _ ⇐ Sleep 1;
  Exit 0.

(** The handler of the last three programs. *)
Definition handler2 : code label := Jump Reap.
Definition handler2_loop : code label :=
  Waitpid false (λ pid _,
    if 0 <? pid then
      printf "Handler reaped child %d\n" [pid];
      Jump Reap
    else
      e ⇐ Errno;
      if negb (e =? ECHILD) then unix_error "waitpid error"
      else _ ⇐ Sleep 2; Ret).

Module Signal1.
Definition child : code label := child.

Definition handler1 : code label :=
  Waitpid false (λ pid _,
    if pid <? 0 then unix_error "waitpid error"
    else
      printf "Handler reaped child %d\n" [pid];
      _ ⇐ Sleep 2;
      Ret).

Definition read_input : code label :=
  n ⇐ Read MAXBUF;
  if n <? 0 then unix_error "read"
  else printf "parent processing input\n" []; Jump Forever.

Definition fork_loop (i : Z) : code label :=
  if i <? 3 then
    pid ⇐ Fork;
    if pid =? 0 then child else Jump (ForkLoop (i + 1))
  else read_input.

Definition main (bsd : bool) : code label :=
  h ⇐ signal bsd SIGCHLD Handler;
  if h =? SIG_ERR then unix_error "signal error" else Jump (ForkLoop 0).

Definition body (l : label) : code label :=
  match l with
  | Handler => handler1
  | ForkLoop i => fork_loop i
  | Reap | ReadLoop | Forever => Jump Forever
  end.
End Signal1.

Module Signal2.
Definition child : code label := child.
Definition handler2 : code label := handler2.
Definition handler2_loop : code label := handler2_loop.

Definition read_input : code label :=
  n ⇐ Read MAXBUF;
  if n <? 0 then unix_error "read"
  else printf "parent processing input\n" []; Jump Forever.

Definition fork_loop (i : Z) : code label :=
  if i <? 3 then
    pid ⇐ Fork;
    if pid =? 0 then child else Jump (ForkLoop (i + 1))
  else read_input.

Definition main (bsd : bool) : code label :=
  h ⇐ signal bsd SIGCHLD Handler;
  if h =? SIG_ERR then unix_error "signal error" else Jump (ForkLoop 0).

Definition body (l : label) : code label :=
  match l with
  | Handler => handler2
  | Reap => handler2_loop
  | ForkLoop i => fork_loop i
  | ReadLoop | Forever => Jump Forever
  end.
End Signal2.

Module Signal3.
Definition child : code label := child.
Definition handler2 : code label := handler2.
Definition handler2_loop : code label := handler2_loop.

(** The [while] around [read]. *)
Definition read_loop : code label :=
  n ⇐ Read MAXBUF;
  if n <? 0 then
    e ⇐ Errno;
    if negb (e =? EINTR) then unix_error "read error" else Jump ReadLoop
  else printf "Parent processing input\n" []; Jump Forever.

Definition fork_loop (i : Z) : code label :=
  if i <? 3 then
    pid ⇐ Fork;
    if pid =? 0 then child else Jump (ForkLoop (i + 1))
  else Jump ReadLoop.

Definition main (bsd : bool) : code label :=
  h ⇐ signal bsd SIGCHLD Handler;
  if h =? SIG_ERR then unix_error "signal error" else Jump (ForkLoop 0).

Definition body (l : label) : code label :=
  match l with
  | Handler => handler2
  | Reap => handler2_loop
  | ForkLoop i => fork_loop i
  | ReadLoop => read_loop
  | Forever => Jump Forever
  end.
End Signal3.

Module Signal4.
Definition child : code label := child.
Definition handler2 : code label := handler2.
Definition handler2_loop : code label := handler2_loop.

(** [Signal]: [sigaction] with [SA_RESTART]; [k] is what follows the call. *)
Definition Signal (sig : Z) (h : label) (k : code label) : code label :=
  v ⇐ Install sig h true;
  if v <? 0 then unix_error "Signal error" else k.

Definition read_input : code label :=
  n ⇐ Read MAXBUF;
  if n <? 0 then unix_error "read error"
  else printf "Parent processing input\n" []; Jump Forever.

Definition fork_loop (i : Z) : code label :=
  if i <? 3 then
    pid ⇐ Fork;
    if pid =? 0 then child else Jump (ForkLoop (i + 1))
  else read_input.

Definition main : code label := Signal SIGCHLD Handler (Jump (ForkLoop 0)).

Definition body (l : label) : code label :=
  match l with
  | Handler => handler2
  | Reap => handler2_loop
  | ForkLoop i => fork_loop i
  | ReadLoop | Forever => Jump Forever
  end.
End Signal4.

(** ** A handler that reaps every child *)

(** What is known at a point of [main]: nothing; that no child is left, no signal
    pending, and [errno] has a value; that [read] failed for good. *)
Inductive mode := Normal | Calm (e : Z) | Failed.

Section reaping.
Context (body : label → code label) (restart : bool) (may_exit : Prop).

Fixpoint main_ok (m : mode) (c : code label) : Prop :=
  match c with
  | Exit _ => m = Failed ∨ may_exit
  | Jump l => l ≠ Handler ∧ l ≠ Reap
  | Printf _ _ k => main_ok m k
  | Call r k =>
      match r with
      | Fork => leaf (λ _, True) (k 0) ∧ main_ok Normal (k (-1)) ∧ ∀ p, 0 < p → main_ok Normal (k p)
      | Read _ => (∀ v, 0 ≤ v → main_ok Normal (k v)) ∧ main_ok Failed (k (-1)) ∧
                  (restart = false → main_ok (Calm EINTR) (k (-1)))
      | Errno => match m with Calm e => main_ok m (k e) | _ => ∀ e, main_ok m (k e) end
      | _ => False
      end
  | _ => False
  end.

(** The code of a frame of [main]: also the return of an interrupted call. *)
Definition frame_ok (m : mode) (c : code label) : Prop :=
  match c with Fail e k => main_ok (Calm e) k | _ => main_ok m c end.

(** [fin]: [waitpid] has reported that no child is left. *)
Fixpoint handler_ok (fin : bool) (c : code label) : Prop :=
  match c with
  | Ret => fin = true
  | Jump l => l = Reap
  | Printf _ _ k => handler_ok fin k
  | Waitpid false k => (∀ p st, 0 < p → handler_ok false (k p st)) ∧ handler_ok true (k (-1) 0)
  | Call r k =>
      match r with
      | Sleep _ => ∀ v, handler_ok fin (k v)
      | Errno => if fin then handler_ok true (k ECHILD) else ∀ e, handler_ok false (k e)
      | _ => False
      end
  | _ => False
  end.

Definition main_mode (m : mode) (q : proc label) (K : gmap Z (option Z)) (l : list act) : Prop :=
  match m with
  | Normal => True
  | Calm e => K = ∅ ∧ pending q = ∅ ∧ perrno q = e
  | Failed => ∃ e, e ≠ EINTR ∧ ReadError e ∈ l
  end.

Definition is_fail (c : code label) : Prop := match c with Fail _ _ => True | _ => False end.

(** Before the handler is installed, in [main], and in the handler. *)
Inductive phase (q : proc label) (K : gmap Z (option Z)) (l : list act) : Prop :=
| Starting k :
    current q = Call (Install SIGCHLD Handler restart) k → main_ok Normal (k 0) →
    stack q = [] → mask q = ∅ → pending q = ∅ → handlers q = ∅ → K = ∅ → phase q K l
| InMain m :
    handlers q = {[SIGCHLD := (Handler, restart)]} → stack q = [] → mask q = ∅ →
    frame_ok m (current q) → main_mode m q K l → (is_fail (current q) → K = ∅) →
    (zombies K → SIGCHLD ∈ pending q) → phase q K l
| InHandler c m fin :
    handlers q = {[SIGCHLD := (Handler, restart)]} → stack q = [(c, ∅)] → mask q = {[SIGCHLD]} →
    frame_ok m c → (m = Normal ∨ main_mode Failed q K l ∧ m = Failed) →
    handler_ok fin (current q) → (fin = true → K = ∅ ∧ perrno q = ECHILD) → phase q K l.

Definition exit_reason (st : Z) (l : list act) : Prop :=
  may_exit ∨ ∃ e, e ≠ EINTR ∧ ReadError e ∈ l.

Context (body_main : ∀ l, l ≠ Handler → l ≠ Reap → main_ok Normal (body l)).
Context (body_handler : handler_ok false (body Handler)) (body_reap : handler_ok false (body Reap)).

Lemma main_ok_frame m c : main_ok m c → frame_ok m c ∧ ¬ is_fail c.
Proof. intros H. split; [by destruct c|]. destruct c; cbn in *; tauto. Qed.

(** Entering or staying in [main], at code of the program. *)
Lemma phase_main m q K l :
  handlers q = {[SIGCHLD := (Handler, restart)]} → stack q = [] → mask q = ∅ →
  main_ok m (current q) → main_mode m q K l → (zombies K → SIGCHLD ∈ pending q) → phase q K l.
Proof. intros ? ? ? H ? ?. apply main_ok_frame in H as [? ?]. by apply InMain with m. Qed.

Lemma phase_die q K l p st :
  good_root q → phase q K l → K !! p = Some None → phase (send SIGCHLD q) (<[p := Some st]> K) l.
Proof.
  intros (Hd & _) H Hp. assert (K ≠ ∅) as Hne by (intros ->; done).
  destruct H as [k ? ? ? ? ? ? ->|m Hh Hs Hm Hc Hmode Hf Hz|c m fin Hh Hs Hm Hc Hmode Hk Hdone]; [done|..];
    unfold send, alive; rewrite bool_decide_eq_true_2, Hh, lookup_singleton_eq by done; cbn.
  - apply InMain with m; cbn; try done.
    + destruct m as [|e|]; try done. by destruct Hmode as [-> _].
    + intros Hfail. by rewrite (Hf Hfail) in Hp.
    + set_solver.
  - apply InHandler with c m fin; cbn; try done. intros Hdd. by destruct (Hdone Hdd) as [-> _].
Qed.

Lemma phase_deliver q K l :
  phase q K l → SIGCHLD ∈ pending q → SIGCHLD ∉ mask q → deliver_post body phase q K l.
Proof.
  intros H Hp Hnm. destruct H as [k ? ? ? ? Hpe|m Hh Hs Hm Hc Hmode Hf Hz|c m fin Hh Hs Hm]; [set_solver| |set_solver].
  exists Handler, restart. split; [by rewrite Hh, lookup_singleton_eq|].
  assert (m = Normal ∨ main_mode Failed q K l ∧ m = Failed) as Hm'.
  { destruct m; auto. destruct Hmode as (_ & E & _). set_solver. }
  assert (∀ c, frame_ok m c → phase (enter body q Handler c) K l) as Henter.
  { intros c Hok. apply (InHandler _ _ _ c m false); cbn; try done; rewrite ?Hs, ?Hm; [done|set_solver]. }
  split; [by apply Henter|]. intros Hb. apply Henter.
  destruct (current q) as [| | | |[]|[]| | | |]; cbn in *; try done.
  assert (restart = true ∨ restart = false) as [E|E] by (destruct restart; auto); rewrite E; [exact Hc|].
  by apply Hc.
Qed.

Lemma failed_more q q' K K' l l' : main_mode Failed q K l → main_mode Failed q' K' (l ++ l').
Proof. intros (e & ? & ?). exists e. split; [done|]. apply elem_of_app. by left. Qed.

Lemma phase_run_main r m q K l :
  handlers q = {[SIGCHLD := (Handler, restart)]} → stack q = [] → mask q = ∅ → frame_ok m (current q) →
  main_mode m q K l → (is_fail (current q) → K = ∅) → pending q = ∅ → ¬ zombies K →
  run_post body r (λ _ _ _, True) phase exit_reason q K l.
Proof.
  intros Hh Hs Hm Hc Hmode Hf Hpe HnZ. unfold run_post.
  assert (∀ q K l m, handlers q = {[SIGCHLD := (Handler, restart)]} → stack q = [] → mask q = ∅ →
    main_ok m (current q) → main_mode m q K l → ¬ zombies K → phase q K l) as Hgo.
  { intros q' K' l' m' ? ? ? ? ? Hz. by apply phase_main with m'. }
  destruct (current q) as [|e|lb|f xs c|rq k|b k|k|v|e c|] eqn:Ec; cbn in Hc; try done.
  - destruct Hc as [->|Hx]; [right; exact Hmode|by left].
  - destruct Hc. apply Hgo with Normal; try done. by apply body_main.
  - apply Hgo with m; try done. destruct m as [|e|]; try done. by apply (failed_more q q K K).
  - destruct rq; try done.
    + destruct Hc as (Hleaf & Hneg & Hpos). split; [by apply Hgo with Normal|].
      intros p Hp Hnone. split; [done|]. apply Hgo with Normal; try done.
      * apply Hpos. unfold INIT in Hp. lia.
      * intros HZ. by apply zombies_fork in HZ.
    + destruct Hc as (Hpos & Hneg & _). split; intros.
      * apply Hgo with Normal; try done. apply Hpos. lia.
      * apply Hgo with Failed; try done. exists e. split; [done|]. apply elem_of_app. right. set_solver.
    + apply Hgo with m; try done. destruct m as [|e|]; cbn; auto. destruct Hmode as (_ & _ & ->). done.
  - apply Hgo with (Calm e); try done. cbn. split_and!; try done. by apply Hf.
Qed.

Lemma phase_run_handler r c m fin q K l :
  handlers q = {[SIGCHLD := (Handler, restart)]} → stack q = [(c, ∅)] → mask q = {[SIGCHLD]} →
  frame_ok m c → (m = Normal ∨ main_mode Failed q K l ∧ m = Failed) →
  handler_ok fin (current q) → (fin = true → K = ∅ ∧ perrno q = ECHILD) →
  run_post body r (λ _ _ _, True) phase exit_reason q K l.
Proof.
  intros Hh Hs Hm Hc Hmode Hk Hfin. unfold run_post.
  assert (∀ q' K' l', m = Normal ∨ main_mode Failed q' K' (l ++ l') ∧ m = Failed) as Hmore.
  { intros. destruct Hmode as [?|[? ?]]; [by left|right]. split; [by apply (failed_more q q' K K')|done]. }
  destruct (current q) as [|e|lb|f xs c0|rq k|[] k|k|v|e c0|] eqn:Ec; cbn in Hk; try done.
  - destruct (Hfin Hk) as [-> _]. rewrite Hs. apply InMain with m; cbn; try done.
    + destruct Hmode as [->|[HF ->]]; done.
    + intros (p & st & E). by rewrite lookup_empty in E.
  - subst lb. apply InHandler with c m false; cbn; try done.
  - apply InHandler with c m fin; cbn; try done. apply (Hmore q K).
  - destruct rq; try done.
    + apply InHandler with c m fin; cbn; try done.
    + apply InHandler with c m fin; cbn; try done. destruct fin; [|done]. destruct (Hfin eq_refl) as [_ ->]. done.
  - destruct Hk as [Hk1 Hk2]. split_and!; [| |done].
    + intros ->. by apply InHandler with c m true.
    + intros p st Hp E _. apply InHandler with c m false; cbn; try done; [apply (Hmore q K)|].
      apply Hk1. unfold INIT in Hp. lia.
Qed.

Lemma phase_run r q K l :
  phase q K l → deliverable q = ∅ → run_post body r (λ _ _ _, True) phase exit_reason q K l.
Proof.
  intros H Hdel. destruct H as [k Hc Hok Hs Hm Hpe Hh HK|m Hh Hs Hm Hc Hmode Hf Hz|c m fin Hh Hs Hm Hc Hmode Hk Hfin].
  - unfold run_post. rewrite Hc. split; [done|]. apply phase_main with Normal; cbn; rewrite ?Hh; try done.
    intros (p & st & E). by rewrite HK in E.
  - assert (pending q = ∅) as Hpe by (unfold deliverable in Hdel; rewrite Hm in Hdel; set_solver).
    apply phase_run_main with m; try done. rewrite Hpe in Hz. set_solver.
  - by apply phase_run_handler with c m fin.
Qed.

Lemma reaping_invariant r k s :
  INIT < r → main_ok Normal (k 0) →
  rtc (step body internal) (boot r (Call (Install SIGCHLD Handler restart) k)) s →
  family_inv r (λ _ _ _, True) phase exit_reason s.
Proof.
  intros Hr Hk. apply family_invariant; try done.
  - intros q K l p st G H E _. by apply phase_die.
  - intros q K l _ H Hp Hm. by apply phase_deliver.
  - intros q K l _ H Hd. by apply phase_run.
  - by apply Starting with k.
Qed.

(** Outside the handler and with no signal pending, no child waits to be reaped. *)
Lemma reaping_no_zombie r k s q :
  INIT < r → main_ok Normal (k 0) →
  rtc (step body internal) (boot r (Call (Install SIGCHLD Handler restart) k)) s →
  procs s !! r = Some q → dead q = None → stack q = [] → pending q = ∅ → no_zombie r s = true.
Proof.
  intros Hr Hk Hs Hq Hd Hst Hpe. apply (reaping_invariant r) in Hs as [(q' & F & H)|(st & [(q' & Hq' & Hd' & _) _] & _)]; try done.
  2: congruence.
  rewrite (fam_root _ _ _ _ F) in Hq. injection Hq as ->.
  assert (¬ zombies (kids r s)) as HnZ.
  { destruct H as [k0 ? ? ? ? ? ? HK|m ? ? ? ? ? ? Hz|c m fin ? Hs' ? ? ? ? ?].
    - intros (p & st & E). by rewrite HK in E.
    - intros H'. apply Hz in H'. set_solver.
    - congruence. }
  apply (fam_all_reaped r _ Hr s q F). intros p st E. apply HnZ. by exists p, st.
Qed.

(** The parent only ends after a [read] that failed for good. *)
Lemma reaping_exit r k s q st :
  INIT < r → main_ok Normal (k 0) →
  rtc (step body internal) (boot r (Call (Install SIGCHLD Handler restart) k)) s →
  procs s !! r = Some q → dead q = Some st → exit_reason st (own r s).
Proof.
  intros Hr Hk Hs Hq Hd. apply (reaping_invariant r) in Hs as [(q' & F & H)|(st' & [(q' & Hq' & Hd' & _) _] & H)]; try done.
  rewrite (fam_root _ _ _ _ F) in Hq. injection Hq as ->. by rewrite (fam_alive _ _ _ _ F) in Hd.
Qed.
End reaping.

(** ** A handler that reaps one child per signal *)

Definition zombie_count (K : gmap Z (option Z)) : nat := size (filter (λ kv : Z * option Z, kv.2 ≠ None) K).

Lemma zombie_count_die K p st : K !! p = Some None → zombie_count (<[p := Some st]> K) = S (zombie_count K).
Proof.
  intros H. unfold zombie_count. rewrite map_filter_insert_True by done. rewrite map_size_insert_None; [done|].
  apply map_lookup_filter_None. right. intros x. rewrite H. intros [= <-]. cbn. tauto.
Qed.

Lemma zombie_count_reap K p st : K !! p = Some (Some st) → zombie_count K = S (zombie_count (delete p K)).
Proof.
  intros H. unfold zombie_count. rewrite map_filter_delete, map_size_delete_Some.
  - assert (size (filter (λ kv : Z * option Z, kv.2 ≠ None) K) ≠ 0%nat) as Hn; [|lia].
    apply map_size_ne_0_lookup. exists p. exists (Some st). by apply map_lookup_filter_Some.
  - exists (Some st). by apply map_lookup_filter_Some.
Qed.

Lemma zombie_count_fork K p : K !! p = None → zombie_count (<[p := None]> K) = zombie_count K.
Proof. intros H. unfold zombie_count. by rewrite map_filter_insert_False, delete_id by tauto. Qed.

Definition bit (P : Prop) `{Decision P} : nat := if decide P then 1 else 0.

Section one_shot.
Context (body : label → code label) (restart : bool).

Definition harmless (f : string) : bool := negb (String.eqb f "waitpid error").

(** Code of [main], and of the handler before and behind its [waitpid]. *)
Fixpoint main1_ok (c : code label) : Prop :=
  match c with
  | Exit _ => True
  | Jump l => l ≠ Handler
  | Printf f _ k => harmless f = true ∧ main1_ok k
  | Fail _ k => main1_ok k
  | Call r k =>
      match r with
      | Fork => leaf (λ _, True) (k 0) ∧ main1_ok (k (-1)) ∧ ∀ p, 0 < p → main1_ok (k p)
      | Read _ | Errno => ∀ v, main1_ok (k v)
      | _ => False
      end
  | _ => False
  end.

Fixpoint behind_wait (c : code label) : Prop :=
  match c with
  | Ret => True
  | Printf f _ k => harmless f = true ∧ behind_wait k
  | Call (Sleep _) k => ∀ v, behind_wait (k v)
  | _ => False
  end.

Definition before_wait (c : code label) : Prop :=
  match c with Waitpid false k => ∀ p st, 0 < p → behind_wait (k p st) | _ => False end.

Definition no_complaint (l : list act) : Prop := ∀ xs, Printed "waitpid error" xs ∉ l.

Inductive phase1 (q : proc label) (K : gmap Z (option Z)) (l : list act) : Prop :=
| Starting1 k :
    current q = Call (Install SIGCHLD Handler restart) k → main1_ok (k 0) →
    stack q = [] → mask q = ∅ → pending q = ∅ → handlers q = ∅ → no_complaint l → phase1 q K l
| InMain1 :
    handlers q = {[SIGCHLD := (Handler, restart)]} → stack q = [] → mask q = ∅ →
    main1_ok (current q) → no_complaint l →
    (bit (SIGCHLD ∈ pending q) ≤ zombie_count K)%nat → phase1 q K l
| InHandler1 c (waited : bool) :
    handlers q = {[SIGCHLD := (Handler, restart)]} → stack q = [(c, ∅)] → mask q = {[SIGCHLD]} →
    main1_ok c → no_complaint l → (if waited then behind_wait (current q) else before_wait (current q)) →
    (bit (SIGCHLD ∈ pending q) + (if waited then 0 else 1) ≤ zombie_count K)%nat → phase1 q K l.

Context (body_main : ∀ l, l ≠ Handler → main1_ok (body l)) (body_handler : before_wait (body Handler)).

Lemma bit_le_1 P `{Decision P} : (bit P ≤ 1)%nat.
Proof. unfold bit. case_decide; lia. Qed.

Lemma no_complaint_snoc l a :
  no_complaint l → (∀ xs, a ≠ Printed "waitpid error" xs) → no_complaint (l ++ [a]).
Proof. intros H Ha xs [E|E%list_elem_of_singleton]%elem_of_app; [by apply (H xs)|by apply (Ha xs)]. Qed.

Lemma no_complaint_print l f xs : no_complaint l → harmless f = true → no_complaint (l ++ [Printed f xs]).
Proof. intros H Hf. apply no_complaint_snoc; [done|]. intros ys [= -> ->]. done. Qed.

Lemma phase1_die q K l p st :
  good_root q → phase1 q K l → K !! p = Some None → phase1 (send SIGCHLD q) (<[p := Some st]> K) l.
Proof.
  intros (Hd & _) H Hp.
  destruct H as [k Hc Hok Hs Hm Hpe Hh Hl|Hh Hs Hm Hc Hl Hn|c w Hh Hs Hm Hc Hl Hk Hn];
    unfold send, alive; rewrite bool_decide_eq_true_2, Hh by done.
  - rewrite lookup_empty. cbn. by apply Starting1 with k.
  - rewrite lookup_singleton_eq. cbn. apply InMain1; cbn; try done. rewrite zombie_count_die by done.
    pose proof (bit_le_1 (SIGCHLD ∈ {[SIGCHLD]} ∪ pending q)). lia.
  - rewrite lookup_singleton_eq. cbn. apply InHandler1 with c w; cbn; try done. rewrite zombie_count_die by done.
    pose proof (bit_le_1 (SIGCHLD ∈ {[SIGCHLD]} ∪ pending q)). destruct w; lia.
Qed.

Lemma phase1_deliver q K l :
  phase1 q K l → SIGCHLD ∈ pending q → SIGCHLD ∉ mask q → deliver_post body phase1 q K l.
Proof.
  intros H Hp Hnm. destruct H as [k ? ? ? ? Hpe|Hh Hs Hm Hc Hl Hn|c w Hh Hs Hm]; [set_solver| |set_solver].
  exists Handler, restart. split; [by rewrite Hh, lookup_singleton_eq|].
  assert (∀ c, main1_ok c → phase1 (enter body q Handler c) K l) as Henter.
  { intros c Hok. apply (InHandler1 _ _ _ c false); cbn; try done; rewrite ?Hs, ?Hm; [done|set_solver|].
    unfold bit in *. rewrite decide_True in Hn by done. rewrite decide_False by set_solver. lia. }
  split; [by apply Henter|]. intros Hb. apply Henter.
  destruct (current q) as [| | | |[]|[]| | | |]; cbn in *; try done. destruct restart; cbn; auto.
Qed.

Lemma phase1_run r q K l :
  phase1 q K l → deliverable q = ∅ → run_post body r (λ _ _ _, True) phase1 (λ _, no_complaint) q K l.
Proof.
  intros H Hdel. unfold run_post.
  destruct H as [k Hc Hok Hs Hm Hpe Hh Hl|Hh Hs Hm Hc Hl Hn|c w Hh Hs Hm Hc Hl Hk Hn].
  - rewrite Hc. split; [done|]. apply InMain1; cbn; rewrite ?Hh; try done. unfold bit. rewrite decide_False by set_solver. lia.
  - destruct (current q) as [|e|lb|f xs c|rq k|b k|k|v|e c|] eqn:Ec; cbn in Hc; try done.
    + apply InMain1; cbn; try done. by apply body_main.
    + destruct Hc. apply InMain1; cbn; try done. by apply no_complaint_print.
    + destruct rq; try done.
      * destruct Hc as (Hleaf & Hneg & Hpos). split; [apply InMain1; try done; by apply no_complaint_snoc|].
        intros p Hp Hnone. split; [done|]. apply InMain1; cbn; try done; [apply Hpos; unfold INIT in *; lia| |by rewrite zombie_count_fork].
        by apply no_complaint_snoc.
      * split; intros; apply InMain1; cbn; try done. by apply no_complaint_snoc.
      * by apply InMain1; cbn.
    + by apply InMain1.
  - destruct w.
    + destruct (current q) as [|e|lb|f xs c0|rq k|b k|k|v|e c0|] eqn:Ec; cbn in Hk; try done.
      * rewrite Hs. apply InMain1; cbn; try done. lia.
      * destruct Hk. apply InHandler1 with c true; cbn; try done. by apply no_complaint_print.
      * destruct rq; try done. by apply InHandler1 with c true; cbn.
    + destruct (current q) as [| | | | |[] k| | | |] eqn:Ec; cbn in Hk; try done. split_and!; [| |done].
      * intros ->. unfold zombie_count in Hn. rewrite map_filter_empty, map_size_empty in Hn. lia.
      * intros p st Hp E _. apply InHandler1 with c true; cbn; try done.
        -- by apply no_complaint_snoc.
        -- apply Hk. unfold INIT in Hp. lia.
        -- rewrite (zombie_count_reap K p st) in Hn by done. lia.
Qed.

Lemma one_shot_no_complaint r k s :
  INIT < r → main1_ok (k 0) →
  rtc (step body internal) (boot r (Call (Install SIGCHLD Handler restart) k)) s →
  no_complaint (own r s).
Proof.
  intros Hr Hk Hs.
  assert (family_inv r (λ _ _ _, True) phase1 (λ _, no_complaint) s) as [(q & _ & [])|(st & _ & H)]; [|done..].
  revert Hs. apply family_invariant; try done.
  - intros q K l p st G H E _. by apply phase1_die.
  - intros q K l _ H Hp Hm. by apply phase1_deliver.
  - intros q K l _ H Hd. by apply phase1_run.
  - apply Starting1 with k; try done. intros xs. set_solver.
Qed.
End one_shot.

(** ** The programs *)

(** The programs whose handler loops, and those of them that also survive an
    interrupted [read]. *)
Inductive reaping_program : (label → code label) → code label → Prop :=
| reaping_signal2 bsd : reaping_program Signal2.body (Signal2.main bsd)
| reaping_signal3 bsd : reaping_program Signal3.body (Signal3.main bsd)
| reaping_signal4 : reaping_program Signal4.body Signal4.main.

Inductive restarting_program : (label → code label) → code label → Prop :=
| restarting_signal2 : restarting_program Signal2.body (Signal2.main true)
| restarting_signal3 bsd : restarting_program Signal3.body (Signal3.main bsd)
| restarting_signal4 : restarting_program Signal4.body Signal4.main.

Lemma handler2_loop_ok : handler_ok false handler2_loop.
Proof.
  cbn. split; [|done]. intros p st Hp. rewrite (proj2 (Z.ltb_lt 0 p)) by done. done.
Qed.

Ltac solve_main_ok :=
  repeat first
    [ done
    | progress cbn
    | match goal with
      | |- _ ∧ _ => split
      | |- ∀ _, _ => intros
      | |- context [if (?a <? ?b) then _ else _] => destruct (Z.ltb_spec a b); try lia
      | |- context [if (?a =? ?b) then _ else _] => destruct (Z.eqb_spec a b); try lia
      | |- context [negb (?a =? ?b)] => destruct (Z.eqb_spec a b); try lia
      end ]; auto.

Lemma Signal2_ok bsd l (may_exit : Prop) :
  bsd = true ∨ may_exit → l ≠ Handler → l ≠ Reap → main_ok bsd may_exit Normal (Signal2.body l).
Proof.
  intros H ? ?. destruct l as [| |i| |]; try done. unfold Signal2.body, Signal2.fork_loop.
  solve_main_ok. destruct H as [->|?]; [done|auto].
Qed.

Lemma Signal3_ok bsd l (may_exit : Prop) :
  l ≠ Handler → l ≠ Reap → main_ok bsd may_exit Normal (Signal3.body l).
Proof. intros ? ?. destruct l as [| |i| |]; try done; unfold Signal3.body, Signal3.fork_loop; solve_main_ok.
Qed.

Lemma Signal4_ok l (may_exit : Prop) :
  l ≠ Handler → l ≠ Reap → main_ok true may_exit Normal (Signal4.body l).
Proof. intros ? ?. destruct l as [| |i| |]; try done; unfold Signal4.body, Signal4.fork_loop; solve_main_ok. Qed.

(** C32: the handlers of [signal2.c], [signal3.c] and [signal4.c] leave no child
    behind: in every state that one of these programs reaches, whatever the
    order in which children end and signals arrive, if the parent is outside its
    handler and no signal is pending then no child is a zombie. *)
Theorem handler2_reaps_all body main r s q :
  reaping_program body main → INIT < r → rtc (step body internal) (boot r main) s →
  procs s !! r = Some q → dead q = None → stack q = [] → pending q = ∅ →
  no_zombie r s = true.
Proof.
  intros [bsd|bsd|] Hr Hs Hq Hd Hst Hpe.
  - refine (reaping_no_zombie Signal2.body bsd True (λ l, Signal2_ok bsd l True (or_intror I)) eq_refl
      handler2_loop_ok r _ s q Hr _ Hs Hq Hd Hst Hpe). done.
  - refine (reaping_no_zombie Signal3.body bsd True (λ l, Signal3_ok bsd l True) eq_refl handler2_loop_ok r _ s q Hr _ Hs Hq Hd Hst Hpe). done.
  - refine (reaping_no_zombie Signal4.body true True (λ l, Signal4_ok l True) eq_refl handler2_loop_ok r _ s q Hr _ Hs Hq Hd Hst Hpe). done.
Qed.

(** C33: an interrupted [read] does not end the parent: restarting the call by hand
    ([signal3.c]), or with [SA_RESTART] ([signal4.c], and [signal2.c] where [signal]
    sets it), the parent only ever ends after [read] failed with another error.
    For [signal3.c] this also shows that the handler cannot overwrite [errno]
    between the failure of [read] and the test. *)
Theorem interrupted_read_survives body main r s q st :
  restarting_program body main → INIT < r → rtc (step body internal) (boot r main) s →
  procs s !! r = Some q → dead q = Some st →
  ∃ e, e ≠ EINTR ∧ ReadError e ∈ own r s.
Proof.
  intros Hprog Hr Hs Hq Hd. enough (exit_reason False st (own r s)) as [[]|H] by exact H. revert Hs.
  destruct Hprog as [|bsd|]; intros Hs.
  - refine (reaping_exit Signal2.body true False (λ l, Signal2_ok true l False (or_introl eq_refl)) eq_refl
      handler2_loop_ok r _ s q st Hr _ Hs Hq Hd). done.
  - refine (reaping_exit Signal3.body bsd False (λ l, Signal3_ok bsd l False) eq_refl handler2_loop_ok r _ s q st Hr _ Hs Hq Hd). done.
  - refine (reaping_exit Signal4.body true False (λ l, Signal4_ok l False) eq_refl handler2_loop_ok r _ s q st Hr _ Hs Hq Hd). done.
Qed.

(** The handler of [signal1.c] never finds itself without a child to reap: in no
    run does it report an error of [waitpid]. *)
Theorem handler1_never_fails bsd r s :
  INIT < r → rtc (step Signal1.body internal) (boot r (Signal1.main bsd)) s →
  ∀ xs, Printed "waitpid error" xs ∉ own r s.
Proof.
  intros Hr Hs. eapply (one_shot_no_complaint Signal1.body bsd); [| |exact Hr| |exact Hs]; cbn.
  - intros l Hl. destruct l as [| |i| |]; try done. unfold Signal1.body, Signal1.fork_loop. solve_main_ok.
  - intros p st Hp. rewrite (proj2 (Z.ltb_ge p 0)) by lia. done.
  - done.
Qed.

(** ** Concrete runs *)

(** The parent is process 100, its children are 101, 102 and 103. *)
Definition start_up : list choice :=
  [Run 100 0; Run 100 0; Run 100 101; Run 100 0; Run 100 102; Run 100 0; Run 100 103; Run 100 0].
Definition child_ends (p : Z) : list choice := [Run p 0; Run p 0; Run p 0; Run p 0].

(** One child ends and interrupts [read], the others end while the handler runs;
    the handler reaps all three, and runs once more for the signal of the others. *)
Definition reap_three : list choice :=
  start_up ++ [Run 100 0] ++ child_ends 101 ++ [Deliver 100 SIGCHLD true; Run 100 0] ++
  child_ends 102 ++ child_ends 103 ++
  [Run 100 101; Run 100 0; Run 100 0; Run 100 103; Run 100 0; Run 100 0; Run 100 102; Run 100 0; Run 100 0;
   Run 100 0; Run 100 0; Run 100 0; Run 100 0;
   Deliver 100 SIGCHLD false; Run 100 0; Run 100 0; Run 100 0; Run 100 0; Run 100 0].

Definition reaped3 : state label := after Signal3.body reap_three (boot 100 (Signal3.main false)).

Lemma handler2_reaps_all_witness :
  by_proc 100 (log reaped3) =
    [Forked 101; Forked 102; Forked 103; Reaped 101 0; Printed "Handler reaped child %d\n" [101];
     Reaped 103 0; Printed "Handler reaped child %d\n" [103]; Reaped 102 0; Printed "Handler reaped child %d\n" [102]] ∧
  no_zombie 100 reaped3 = true.
Proof.
  split; [vm_compute; reflexivity|].
  refine (handler2_reaps_all Signal3.body (Signal3.main false) 100 reaped3 (proc_of reaped3 100) _ _ _ _ _ _ _);
    [constructor|reflexivity| |vm_compute; reflexivity..].
  apply (exec_all_reach Signal3.body internal reap_three); vm_compute; reflexivity.
Defined.

(** [read] fails with another error, after an interruption. *)
Definition read_fails : list choice :=
  reap_three ++ [Run 100 0; Run 100 0; Run 100 0; Run 100 (-5); Run 100 0; Run 100 0; Run 100 0; Run 100 0].
Definition failed3 : state label := after Signal3.body read_fails (boot 100 (Signal3.main false)).

Lemma interrupted_read_survives_witness : ∃ e, e ≠ EINTR ∧ ReadError e ∈ own 100 failed3.
Proof.
  refine (interrupted_read_survives Signal3.body (Signal3.main false) 100 failed3 (proc_of failed3 100) 0 _ _ _ _ _);
    [constructor|reflexivity| |vm_compute; reflexivity..].
  apply (exec_all_reach Signal3.body internal read_fails); vm_compute; reflexivity.
Defined.

(** Two children end while the handler of [signal1.c] serves the first; their
    signals merge, so that the handler runs once more and reaps one of them. *)
Definition lose_child : list choice :=
  start_up ++ child_ends 101 ++ [Deliver 100 SIGCHLD false] ++ child_ends 102 ++ child_ends 103 ++
  [Run 100 101; Run 100 0; Run 100 0; Run 100 0;
   Deliver 100 SIGCHLD false; Run 100 102; Run 100 0; Run 100 0; Run 100 0;
   Run 100 1; Run 100 0].
Definition lost (bsd : bool) : state label := after Signal1.body lose_child (boot 100 (Signal1.main bsd)).

(** A parent in its empty loop, with no signal pending and no child running. *)
Lemma idle_forever (body : label → code label) r z q k s ch s' :
  body Forever = Jump Forever → r ≠ z →
  procs s = <[r := q]> (<[z := k]> ∅) → current q = Jump Forever → pending q = ∅ → armed q = false → dead k ≠ None →
  internal ch = true → exec body ch s = Some s' → s' = s.
Proof.
  intros Hb Hrz Hs Hc Hp Har Hk Hch E.
  assert (∀ p x, procs s !! p = Some x → alive x = true → p = r ∧ x = q) as Hact.
  { intros p x. rewrite Hs. unfold alive. destruct (decide (p = r)) as [->|]; [rewrite lookup_insert_eq; by intros [= <-]|].
    rewrite lookup_insert_ne by done. destruct (decide (p = z)) as [->|]; [rewrite lookup_insert_eq|by rewrite lookup_insert_ne].
    intros [= <-]. rewrite bool_decide_eq_false_2; done. }
  unfold exec in E. destruct ch as [p arg|p sig b|p|p sig]; [..|done];
    destruct (procs s !! p) as [x|] eqn:Ex; try done; destruct (alive x) eqn:Ea; cbn in E; try done;
    destruct (Hact p x Ex Ea) as [-> ->].
  - case_bool; [|done]. unfold exec_code in E. rewrite Hc, Hb in E. injection E as <-.
    unfold update. destruct s as [m g]. cbn in *. f_equal. apply insert_id. rewrite Ex. f_equal.
    destruct q. cbn in *. unfold set_current. cbn. by rewrite <- Hc.
  - unfold deliverable in E. rewrite Hp, bool_decide_eq_false_2 in E by set_solver. done.
  - by rewrite Har in E.
Qed.

(** C34: [signal1.c] loses children: whatever [signal] does, there is a run after
    which one of the three children stays a zombie for good, while its parent
    runs on. *)
Theorem handler1_loses_child bsd :
  ∃ s, rtc (step Signal1.body internal) (boot 100 (Signal1.main bsd)) s ∧
    ∀ s', rtc (step Signal1.body internal) s s' →
      alive (proc_of s' 100) = true ∧ parent (proc_of s' 103) = 100 ∧ dead (proc_of s' 103) = Some 0.
Proof.
  exists (lost bsd). split.
  - apply (exec_all_reach _ internal lose_child); [reflexivity|]. destruct bsd; vm_compute; reflexivity.
  - intros s' H. apply (reach_invariant _ internal (λ s, s = lost bsd)) in H; [|done|].
    + subst s'. destruct bsd; vm_compute; repeat split.
    + intros ch s1 s2 Hch -> E.
      refine (idle_forever Signal1.body 100 103 (proc_of (lost bsd) 100) (proc_of (lost bsd) 103) _ ch _
                eq_refl _ _ _ _ _ _ Hch E); [done|destruct bsd; vm_compute; reflexivity..|].
      destruct bsd; vm_compute; discriminate.
Qed.

(** A child that ends interrupts [read]. *)
Definition interrupted : list choice :=
  start_up ++ child_ends 101 ++ child_ends 102 ++ child_ends 103 ++
  [Deliver 100 SIGCHLD true; Run 100 0; Run 100 101; Run 100 0; Run 100 0; Run 100 102; Run 100 0; Run 100 0;
   Run 100 103; Run 100 0; Run 100 0; Run 100 0; Run 100 0; Run 100 0; Run 100 0;
   Run 100 0; Run 100 0; Run 100 0; Run 100 0].

(** Where [signal] does not set [SA_RESTART], the parent of [signal2.c] can end
    although [read] never failed: the end of a child interrupts it, and the
    program takes that for an error, with exit status 0. *)
Theorem signal2_ends_on_interrupt :
  ∃ s, rtc (step Signal2.body internal) (boot 100 (Signal2.main false)) s ∧
    dead (proc_of s 100) = Some 0 ∧
    last (own 100 s) = Some (Printed "read" [EINTR]) ∧
    Forall (λ a, ∀ e, a ≠ ReadError e) (own 100 s).
Proof.
  exists (after Signal2.body interrupted (boot 100 (Signal2.main false))). split.
  - apply (exec_all_reach _ internal interrupted); vm_compute; reflexivity.
  - split; [vm_compute; reflexivity|]. split; [vm_compute; reflexivity|].
    match goal with |- Forall _ ?l => let l' := eval vm_compute in l in change l with l' end.
    repeat constructor; done.
Qed.

Lemma handler1_never_fails_witness : ∀ xs, Printed "waitpid error" xs ∉ own 100 (lost true).
Proof.
  refine (handler1_never_fails true 100 (lost true) _ _); [reflexivity|].
  apply (exec_all_reach Signal1.body internal lose_child); vm_compute; reflexivity.
Defined.
