(* ===== verification/Jobs.v ===== *)
(** * Job lists and blocked signals

    Models [csapp/exceptional_control_flow/procmask1.c] and [procmask2.c]: a loop
    that starts programs and enters them in a job list, while a handler of
    SIGCHLD removes those that ended.  [initjobs], [addjob] and [deletejob] are
    only declared in the sources; the model records their calls, and [jobs] is
    the list that their documented behaviour makes of them. *)

From S2P Require Import Prelude Sys Process Family.

Inductive label := Handler | Reap | Loop.

(** The handler is the same in both programs. *)
Definition handler : code label := Jump Reap.
Definition handler_loop : code label :=
  Waitpid false (λ pid _,
    if 0 <? pid then _ ⇐ Deletejob pid; Jump Reap
    else
      e ⇐ Errno;
      if negb (e =? ECHILD) then unix_error "waitpid error" else Ret).

Module Procmask1.
Definition handler : code label := handler.
Definition handler_loop : code label := handler_loop.

Definition loop_body : code label :=
  pid ⇐ Fork;
  let rest := _ ⇐ Addjob pid; Jump Loop in
  if pid =? 0 then _ ⇐ Execve "/bin/date"; rest else rest.

Definition main (bsd : bool) : code label :=
  _ ⇐ Install SIGCHLD Handler bsd;
  _ ⇐ Initjobs;
  Jump Loop.

Definition body (l : label) : code label :=
  match l with Handler => handler | Reap => handler_loop | Loop => loop_body end.
End Procmask1.

Module Procmask2.
Definition handler : code label := handler.
Definition handler_loop : code label := handler_loop.

(** [pid = fork() == 0] assigns the result of the comparison. *)
Definition loop_body : code label :=
  _ ⇐ Block SIGCHLD;
  n ⇐ Fork;
  let pid := if n =? 0 then 1 else 0 in
  let rest := _ ⇐ Addjob pid; _ ⇐ Unblock SIGCHLD; Jump Loop in
  if negb (pid =? 0) then _ ⇐ Unblock SIGCHLD; _ ⇐ Execve "/bin/date"; rest
  else rest.

Definition main (bsd : bool) : code label :=
  _ ⇐ Install SIGCHLD Handler bsd;
  _ ⇐ Initjobs;
  Jump Loop.

Definition body (l : label) : code label :=
  match l with Handler => handler | Reap => handler_loop | Loop => loop_body end.
End Procmask2.

(** The job list after the recorded calls. *)
Definition job_step (js : list Z) (a : act) : list Z :=
  match a with
  | CalledInitjobs => []
  | CalledAddjob p => js ++ [p]
  | CalledDeletejob p => filter (λ j, j ≠ p) js
  | _ => js
  end.
Definition jobs (l : list act) : list Z := foldl job_step [] l.

(** The last child is forked but its call of [addjob] has not happened yet. *)
Definition adding_step (b : bool) (a : act) : bool :=
  match a with Forked _ => true | CalledAddjob _ => false | _ => b end.
Definition adding (l : list act) : bool := foldl adding_step false l.

Arguments jobs : simpl never.
Arguments adding : simpl never.

(** [deletejob] is never called between [fork] and [addjob]. *)
Definition ordered (l : list act) : Prop :=
  ∀ l1 p l2, l = l1 ++ CalledDeletejob p :: l2 → adding l1 = false.

Lemma adding_snoc l a : adding (l ++ [a]) = adding_step (adding l) a.
Proof. unfold adding. by rewrite foldl_app. Qed.

Lemma jobs_snoc l a : jobs (l ++ [a]) = job_step (jobs l) a.
Proof. unfold jobs. by rewrite foldl_app. Qed.

Lemma ordered_snoc l a :
  ordered l → (∀ p, a = CalledDeletejob p → adding l = false) → ordered (l ++ [a]).
Proof.
  intros H Ha l1 p l2 E. destruct l2 as [|b l2 _] using rev_ind.
  - apply app_inj_tail in E as [-> ->]. by eapply Ha.
  - rewrite app_comm_cons, app_assoc in E. apply app_inj_tail in E as [-> _]. by eapply H.
Qed.

(** ** The invariant of [procmask2.c] *)
Section masked.
Context (bsd : bool).

(** [held]: SIGCHLD is blocked; [add]: a child waits for its [addjob]. *)
Fixpoint main_ok (held add : bool) (c : code label) : Prop :=
  match c with
  | Jump l => l = Loop ∧ held = false
  | Call r k =>
      match r with
      | Block sig => sig = SIGCHLD ∧ main_ok true add (k 0)
      | Unblock sig => sig = SIGCHLD ∧ add = false ∧ main_ok false add (k 0)
      | Fork => held = true ∧ leaf (λ _, True) (k 0) ∧ main_ok held add (k (-1)) ∧ ∀ p, 0 < p → main_ok held true (k p)
      | Addjob p => p = 0 ∧ main_ok held false (k 0)
      | Initjobs => main_ok held add (k 0)
      | _ => False
      end
  | _ => False
  end.

Fixpoint handler_ok (c : code label) : Prop :=
  match c with
  | Ret | Exit _ => True
  | Jump l => l = Reap
  | Printf _ _ k => handler_ok k
  | Waitpid false k => ∀ p st, handler_ok (k p st)
  | Call (Errno | Deletejob _) k => ∀ v, handler_ok (k v)
  | _ => False
  end.

Definition log_ok (l : list act) : Prop := ordered l ∧ ∀ p, CalledAddjob p ∈ l → p = 0.

Inductive phase (q : proc label) (K : gmap Z (option Z)) (l : list act) : Prop :=
| Starting k :
    current q = Call (Install SIGCHLD Handler bsd) k → main_ok false false (k 0) →
    stack q = [] → mask q = ∅ → pending q = ∅ → handlers q = ∅ → adding l = false → log_ok l → phase q K l
| InMain (held : bool) :
    handlers q = {[SIGCHLD := (Handler, bsd)]} → stack q = [] → mask q = (if held then {[SIGCHLD]} else ∅) →
    main_ok held (adding l) (current q) → (held = false → adding l = false) → log_ok l → phase q K l
| InHandler c :
    handlers q = {[SIGCHLD := (Handler, bsd)]} → stack q = [(c, ∅)] → mask q = {[SIGCHLD]} →
    main_ok false false c → handler_ok (current q) → adding l = false → log_ok l → phase q K l.

Lemma log_ok_snoc l a :
  log_ok l → (∀ p, a = CalledDeletejob p → adding l = false) → (∀ p, a = CalledAddjob p → p = 0) → log_ok (l ++ [a]).
Proof.
  intros [Ho Hz] Hd Ha. split; [by apply ordered_snoc|].
  intros p [?|E%list_elem_of_singleton]%elem_of_app; [by apply Hz|]. by apply Ha.
Qed.

Lemma jobs_phase_die q K l p st : phase q K l → phase (send SIGCHLD q) (<[p := Some st]> K) l.
Proof.
  unfold send. intros [k ? ? ? ? ? Hh ? ?|h Hh ? ? ? ? ?|c Hh ? ? ? ? ? ?].
  - rewrite Hh, lookup_empty. destruct (alive q); cbn; by apply Starting with k.
  - case_bool; [|by apply InMain with h]. by apply InMain with h.
  - case_bool; by apply InHandler with c.
Qed.

Lemma jobs_phase_deliver q K l :
  phase q K l → SIGCHLD ∈ pending q → SIGCHLD ∉ mask q → deliver_post Procmask2.body phase q K l.
Proof.
  intros H Hp Hnm. destruct H as [k ? ? ? ? Hpe|h Hh Hs Hm Hc Hadd Hl|c Hh Hs Hm]; [set_solver| |set_solver].
  destruct h; [set_solver|]. specialize (Hadd eq_refl). rewrite Hadd in Hc.
  exists Handler, bsd. split; [by rewrite Hh, lookup_singleton_eq|]. split.
  - apply InHandler with (current q); cbn; try done; rewrite ?Hs, ?Hm; [done|set_solver].
  - by destruct (current q) as [| | | |[]|[]| | | |].
Qed.

Lemma loop_body_ok : main_ok false false Procmask2.loop_body.
Proof.
  cbn. split_and!; try done. intros p Hp. rewrite (proj2 (Z.eqb_neq p 0)) by lia. done.
Qed.

Lemma jobs_phase_run r q K l :
  phase q K l → run_post Procmask2.body r (λ _ _ _, True) phase (λ _, log_ok) q K l.
Proof.
  intros H. unfold run_post.
  destruct H as [k Hc Hok Hs Hm Hpe Hh Ha Hl|h Hh Hs Hm Hc Hadd Hl|c Hh Hs Hm Hc Hk Ha Hl].
  - rewrite Hc. split; [done|]. apply InMain with false; cbn; rewrite ?Hh, ?Ha; done.
  - destruct (current q) as [|e|lb|f xs c|rq k|b k|k|v|e c|] eqn:Ec; cbn in Hc; try done.
    + destruct Hc as [-> ->]. specialize (Hadd eq_refl). apply InMain with false; try done. rewrite Hadd. apply loop_body_ok.
    + destruct rq; try done.
      * destruct Hc as (-> & Hleaf & Hneg & Hpos). split; [apply InMain with true; cbn; rewrite ?adding_snoc; try done; by apply log_ok_snoc|].
        intros p Hp _. split; [done|]. apply InMain with true; cbn; try done.
        -- rewrite adding_snoc. apply Hpos. unfold INIT in *. lia.
        -- by apply log_ok_snoc.
      * destruct Hc as [-> Hc]. split; [done|]. apply InMain with true; cbn; try done. rewrite Hm. destruct h; set_solver.
      * destruct Hc as (-> & Ha & Hc). apply InMain with false; cbn; try done. rewrite Hm. destruct h; set_solver.
      * apply InMain with h; cbn; rewrite ?adding_snoc; try done. by apply log_ok_snoc.
      * destruct Hc as [-> Hc]. apply InMain with h; cbn; rewrite ?adding_snoc; try done.
        apply log_ok_snoc; try done. by intros p [= <-].
  - destruct (current q) as [|e|lb|f xs c0|rq k|[] k|k|v|e c0|] eqn:Ec; cbn in Hk; try done.
    + rewrite Hs. apply InMain with false; cbn; rewrite ?Ha; done.
    + subst lb. apply InHandler with c; cbn; try done.
      intros p st. cbn. case_bool; cbn; [done|]. intros v. case_bool; done.
    + apply InHandler with c; cbn; rewrite ?adding_snoc; try done. by apply log_ok_snoc.
    + destruct rq; try done.
      * by apply InHandler with c; cbn.
      * apply InHandler with c; cbn; rewrite ?adding_snoc; try done. by apply log_ok_snoc.
    + split_and!; [| |done].
      * intros ->. by apply InHandler with c; cbn.
      * intros p st _ _ _. apply InHandler with c; cbn; rewrite ?adding_snoc; try done. by apply log_ok_snoc.
Qed.

Lemma procmask2_log_ok r s :
  INIT < r → rtc (step Procmask2.body internal) (boot r (Procmask2.main bsd)) s → log_ok (own r s).
Proof.
  intros Hr Hs.
  assert (family_inv r (λ _ _ _, True) phase (λ _, log_ok) s) as [(q & _ & [])|(st & _ & H)]; [|done..].
  revert Hs. apply family_invariant; try done.
  - intros q K l p st _ H _ _. by apply jobs_phase_die.
  - intros q K l _ H Hp Hm. by apply jobs_phase_deliver.
  - intros q K l _ H _. by apply jobs_phase_run.
  - eapply Starting; try done. split; [|set_solver]. intros [|] p l2 E; done.
Qed.
End masked.

Lemma jobs_zero l : (∀ p, CalledAddjob p ∈ l → p = 0) → ∀ p, p ∈ jobs l → p = 0.
Proof.
  induction l as [|a l IH] using rev_ind; intros H p; [set_solver|]. rewrite jobs_snoc.
  assert (∀ p, p ∈ jobs l → p = 0) as Hl by (apply IH; set_solver).
  destruct a; cbn; try apply Hl; [set_solver| |rewrite list_elem_of_filter; by intros [_ ?%Hl]].
  intros [?|E%list_elem_of_singleton]%elem_of_app; [by apply Hl|]. subst. apply H. set_solver.
Qed.

(** ** Theorems *)

(** C35: blocking SIGCHLD works, but not for the jobs it should protect: in every run
    of [procmask2.c], [deletejob] is only called when the last forked child already
    had its call of [addjob]; and every entry of the job list is job 0, never a
    child, because [pid = fork() == 0] stores the result of the comparison. *)
Theorem procmask2_jobs bsd r s :
  INIT < r → rtc (step Procmask2.body internal) (boot r (Procmask2.main bsd)) s →
  ordered (own r s) ∧ ∀ p, p ∈ jobs (own r s) → p = 0.
Proof.
  intros Hr Hs. destruct (procmask2_log_ok bsd r s Hr Hs) as [Ho Hz]. split; [done|]. by apply jobs_zero.
Qed.

(** The child ends before its parent comes to [addjob]. *)
Definition race : list choice :=
  [Run 100 0; Run 100 0; Run 100 0; Run 100 101; Run 101 0; Run 101 0; Deliver 100 SIGCHLD false; Run 100 0;
   Run 100 101; Run 100 0; Run 100 0; Run 100 0; Run 100 0; Run 100 0; Run 100 0].

(** [procmask1.c] has the race that its successor avoids: a run deletes a job
    before it is added, after which the list names a process that no longer
    exists. *)
Theorem procmask1_races bsd :
  ∃ s, rtc (step Procmask1.body internal) (boot 100 (Procmask1.main bsd)) s ∧
    own 100 s = [CalledInitjobs; Forked 101; Reaped 101 0; CalledDeletejob 101; CalledAddjob 101] ∧
    jobs (own 100 s) = [101] ∧ procs s !! 101 = None ∧ alive (proc_of s 100) = true.
Proof.
  exists (after Procmask1.body race (boot 100 (Procmask1.main bsd))). split.
  - apply (exec_all_reach _ internal race); [reflexivity|]. destruct bsd; vm_compute; reflexivity.
  - destruct bsd; vm_compute; done.
Qed.

(** A job of [procmask2.c]: the child ends at once, but its signal waits. *)
Definition one_job : list choice :=
  [Run 100 0; Run 100 0; Run 100 0; Run 100 0; Run 100 101; Run 101 0; Run 101 0; Run 101 0; Run 100 0; Run 100 0;
   Deliver 100 SIGCHLD false; Run 100 0; Run 100 101; Run 100 0].
Definition after_job : state label := after Procmask2.body one_job (boot 100 (Procmask2.main true)).

Lemma procmask2_jobs_witness :
  own 100 after_job = [CalledInitjobs; Forked 101; CalledAddjob 0; Reaped 101 0; CalledDeletejob 101] ∧
  jobs (own 100 after_job) = [0] ∧ ordered (own 100 after_job).
Proof.
  split; [vm_compute; reflexivity|]. split; [vm_compute; reflexivity|].
  refine (proj1 (procmask2_jobs true 100 after_job _ _)); [reflexivity|].
  apply (exec_all_reach Procmask2.body internal one_job); vm_compute; reflexivity.
Defined.
