(* ===== verification/Waiting.v ===== *)
(** * Creating and waiting for children

    Models [csapp/exceptional_control_flow/waitpid1.cc], which reaps ten children,
    and [waitpid2.c], whose children all run the loop that creates children. *)

From S2P Require Import Prelude Sys Process Family.

Module Waitpid1.
Definition N : Z := 10.
Inductive label := ForkLoop (i : Z) | ReapLoop.

Definition fork_loop (i : Z) : code label :=
  if i <? N then
    pid ⇐ Fork;
    if pid =? 0 then _ ⇐ Sleep (Z.rem i 3); Exit (100 + i) else Jump (ForkLoop (i + 1))
  else Jump ReapLoop.

(** The line that the parent prints for a child. *)
Definition report (pid status : Z) : string * list Z :=
  if WIFEXITED status then
    ("child %d terminated normally with exit status = %d\n", [pid; WEXITSTATUS status])%string
  else ("child %d terminated abnormally\n", [pid])%string.

Definition no_more_children : code label :=
  e ⇐ Errno;
  if negb (e =? ECHILD) then unix_error "waitpid error" else Exit 0.

Definition reap_loop : code label :=
  Waitpid false (λ pid status,
    if 0 <? pid then printf ((report pid status).1) ((report pid status).2); Jump ReapLoop
    else no_more_children).

Definition main : code label := Jump (ForkLoop 0).

Definition body (l : label) : code label :=
  match l with ForkLoop i => fork_loop i | ReapLoop => reap_loop end.
End Waitpid1.

(** ** What the log of a parent says *)

Definition forked (l : list act) : list Z := omap (λ a, match a with Forked p => Some p | _ => None end) l.
Definition reaped (l : list act) : list (Z * Z) := omap (λ a, match a with Reaped p st => Some (p, st) | _ => None end) l.
Definition printed (l : list act) : list (string * list Z) :=
  omap (λ a, match a with Printed f xs => Some (f, xs) | _ => None end) l.

(** The number of calls of [fork], successful or not. *)
Definition is_attempt (a : act) : bool := match a with Forked _ | ForkFailed => true | _ => false end.
Definition attempts (l : list act) : Z := len (filter (λ a, is_attempt a = true) l).

Arguments forked : simpl never.
Arguments reaped : simpl never.
Arguments printed : simpl never.
Arguments attempts : simpl never.

Lemma forked_app l l' : forked (l ++ l') = forked l ++ forked l'.
Proof. apply omap_app. Qed.
Lemma reaped_app l l' : reaped (l ++ l') = reaped l ++ reaped l'.
Proof. apply omap_app. Qed.
Lemma printed_app l l' : printed (l ++ l') = printed l ++ printed l'.
Proof. apply omap_app. Qed.
Lemma attempts_app l l' : attempts (l ++ l') = attempts l + attempts l'.
Proof. unfold attempts, len. rewrite filter_app, length_app. lia. Qed.

(** The keys of a map. *)
Definition keys {A} (m : gmap Z A) : list Z := (map_to_list m).*1.

Lemma keys_insert_new {A} (m : gmap Z A) p x : m !! p = None → keys (<[p := x]> m) ≡ₚ p :: keys m.
Proof. intros H. unfold keys. by rewrite map_to_list_insert. Qed.

Lemma keys_delete {A} (m : gmap Z A) p x : m !! p = Some x → keys m ≡ₚ p :: keys (delete p m).
Proof. intros H. unfold keys. by rewrite <- (map_to_list_delete m p x H). Qed.

Lemma keys_insert_old {A} (m : gmap Z A) p x y : m !! p = Some x → keys (<[p := y]> m) ≡ₚ keys m.
Proof.
  intros H. rewrite (keys_delete m p x H), <- insert_delete_eq. apply keys_insert_new. apply lookup_delete_eq.
Qed.

Section waitpid1.
Import Waitpid1.
Implicit Types (l : list act) (K : gmap Z (option Z)).

(** The child of the [i]-th call of [fork] ends with [100 + i]. *)
Definition child_status l (p st : Z) : Prop :=
  ∃ l1 l2, l = l1 ++ Forked p :: l2 ∧ st = exit_status (100 + attempts l1).

Lemma child_status_app l l' p st : child_status l p st → child_status (l ++ l') p st.
Proof. intros (l1 & l2 & -> & ->). exists l1, (l2 ++ l'). by rewrite <- app_assoc. Qed.

(** Every child is either reaped or still there, and reaped with its status. *)
Definition accounted K l : Prop :=
  forked l ≡ₚ (reaped l).*1 ++ keys K ∧ ∀ p st, (p, st) ∈ reaped l → child_status l p st.

Definition reports l : list (string * list Z) := (λ x, report x.1 x.2) <$> reaped l.

Inductive at_code (c : code label) K l (errno : Z) : Prop :=
| AtFork i :
    c = Jump (ForkLoop i) ∨ c = fork_loop i → 0 ≤ i ≤ N → attempts l = i → printed l = reports l → at_code c K l errno
| AtReap :
    c = Jump ReapLoop ∨ c = reap_loop → attempts l = N → printed l = reports l → at_code c K l errno
| AtReport p st :
    c = Printf (report p st).1 (report p st).2 (Jump ReapLoop) → attempts l = N →
    printed l ++ [report p st] = reports l → at_code c K l errno
| AtEnd :
    c = no_more_children ∧ errno = ECHILD ∨ c = Exit 0 → K = ∅ → attempts l = N → printed l = reports l →
    at_code c K l errno.

Record waiting (q : proc label) K l : Prop := {
  w_stack : stack q = [];
  w_handlers : handlers q = ∅;
  w_pending : pending q = ∅;
  w_accounted : accounted K l;
  w_code : at_code (current q) K l (perrno q)
}.

(** What the parent has done when it ends. *)
Definition finished (st : Z) l : Prop :=
  st = 0 ∧ attempts l = N ∧ forked l ≡ₚ (reaped l).*1 ∧ printed l = reports l ∧
  ∀ p v, (p, v) ∈ reaped l → child_status l p v.

Lemma accounted_other K l a :
  (∀ p, a ≠ Forked p) → (∀ p st, a ≠ Reaped p st) → accounted K l → accounted K (l ++ [a]).
Proof.
  intros H1 H2 [Hp Hs].
  assert (forked [a] = [] ∧ reaped [a] = []) as [Ef Er]
    by (destruct a; try done; [by edestruct H1|by edestruct H2]).
  split; [by rewrite forked_app, reaped_app, Ef, Er, !app_nil_r|].
  intros p st. rewrite reaped_app, Er, app_nil_r. intros H. by apply child_status_app, Hs.
Qed.

Lemma accounted_fork K l p : K !! p = None → accounted K l → accounted (<[p := None]> K) (l ++ [Forked p]).
Proof.
  intros HK [Hp Hs]. split.
  - rewrite forked_app, reaped_app, Hp, keys_insert_new by done. cbn. rewrite app_nil_r. solve_Permutation.
  - intros p' st. rewrite reaped_app. intros [H|H]%elem_of_app; [by apply child_status_app, Hs|set_solver].
Qed.

Lemma accounted_reap K l p st :
  K !! p = Some (Some st) → child_status l p st → accounted K l → accounted (delete p K) (l ++ [Reaped p st]).
Proof.
  intros HK HR [Hp Hs]. split.
  - rewrite forked_app, reaped_app, Hp, (keys_delete K p _ HK), fmap_app. cbn. rewrite app_nil_r. solve_Permutation.
  - intros p' st'. rewrite reaped_app. intros [H|H%list_elem_of_singleton]%elem_of_app; [by apply child_status_app, Hs|].
    simplify_eq. by apply child_status_app.
Qed.

Lemma accounted_die K l p st : K !! p = Some None → accounted K l → accounted (<[p := Some st]> K) l.
Proof. intros HK [Hp Hs]. split; [|done]. by rewrite (keys_insert_old K p _ _ HK). Qed.

Lemma waiting_die q K l p st : waiting q K l → K !! p = Some None → waiting (send SIGCHLD q) (<[p := Some st]> K) l.
Proof.
  intros [Hs Hh Hp Ha Hc] HK. unfold send. rewrite Hh, lookup_empty. destruct (alive q); cbn.
  all: split; try done; [by apply accounted_die|].
  all: destruct Hc; [by eapply AtFork|by eapply AtReap|by eapply AtReport|by subst].
Qed.

Lemma waiting_run r q K l :
  waiting q K l → run_post body r child_status waiting finished q K l.
Proof.
  intros [Hs Hh Hp Ha Hc]. unfold run_post.
  destruct Hc as [i [Hc|Hc] Hi Hat Hpr|[Hc|Hc] Hat Hpr|p st Hc Hat Hpr|[[Hc He]|Hc] HK Hat Hpr]; rewrite Hc.
  - split; try done. apply AtFork with i; auto.
  - unfold fork_loop. destruct (Z.ltb_spec i N) as [Hlt|Hge].
    + split.
      * split; try done; [by apply accounted_other|].
        apply AtFork with (i + 1); cbn; [by left|lia|rewrite attempts_app, Hat; done|].
        unfold reports. rewrite printed_app, reaped_app. cbn. by rewrite !app_nil_r.
      * intros p Hpos HK. cbn. split; [|split; try done; [by apply accounted_fork|]].
        -- intros _. exists l, []. by rewrite Hat.
        -- rewrite (proj2 (Z.eqb_neq p 0)) by (unfold INIT in *; lia).
           apply AtFork with (i + 1); cbn; [by left|lia|rewrite attempts_app, Hat; done|].
           unfold reports. rewrite printed_app, reaped_app. cbn. by rewrite !app_nil_r.
    + split; try done. apply AtReap; [by right|lia|done].
  - split; try done. apply AtReap; auto.
  - split_and!; [| |done].
    + intros ->. split; try done. apply AtEnd; cbn; auto.
    + intros p st Hpos HK HR. split; try done; [by apply accounted_reap|].
      rewrite (proj2 (Z.ltb_lt 0 p)) by (unfold INIT in *; lia).
      apply AtReport with p st; cbn; [done|by rewrite attempts_app, Hat|].
      unfold reports in *. rewrite printed_app, reaped_app, fmap_app, Hpr. cbn. by rewrite app_nil_r.
  - split; try done; [by apply accounted_other|].
    apply AtReap; cbn; [by left|by rewrite attempts_app, Hat|].
    unfold reports in *. rewrite printed_app, reaped_app. cbn. rewrite app_nil_r, <- Hpr. by destruct (report p st).
  - rewrite He. split; try done. apply AtEnd; auto.
  - destruct Ha as [Hf Hst]. rewrite HK in Hf. unfold keys in Hf. rewrite map_to_list_empty, app_nil_r in Hf. by split_and!.
Qed.

Lemma waiting_inv r s :
  INIT < r → rtc (step body internal) (boot r main) s → family_inv r child_status waiting finished s.
Proof.
  intros Hr. apply family_invariant; try done.
  - intros. by apply child_status_app.
  - intros q K l p st _ H HK _. by apply waiting_die.
  - intros q K l _ [_ _ Hp _ _] H. set_solver.
  - intros q K l _ H _. by apply waiting_run.
  - split; try done; [by split; set_solver|]. apply AtFork with 0; auto. done.
Qed.

Lemma waiting_progress r s q :
  INIT < r → family r child_status s q → waiting q (kids r s) (own r s) →
  ∃ ch s', internal ch = true ∧ exec body ch s = Some s'.
Proof.
  intros Hr F [_ _ Hp _ Hc].
  assert (∀ arg s', exec_code body r q arg s = Some s' → ∃ ch s', internal ch = true ∧ exec body ch s = Some s') as Hrun.
  { intros arg s' E. exists (Run r arg), s'. split; [done|]. unfold exec, alive, deliverable.
    rewrite (fam_root _ _ _ _ F), (fam_alive _ _ _ _ F), Hp, bool_decide_eq_true_2, bool_decide_eq_true_2 by set_solver. done. }
  unfold exec_code in Hrun.
  destruct Hc as [i [Hc|Hc] _ _ _|[Hc|Hc] _ _|p st Hc _ _|[[Hc _]|Hc] _ _ _]; rewrite Hc in Hrun; cbn in Hrun; eauto.
  - unfold fork_loop in Hrun. destruct (i <? N); [|by eauto]. by eapply (Hrun (-1)).
  - unfold exec_waitpid in Hrun. destruct (no_child r s) eqn:En; [by eapply (Hrun 0)|].
    destruct (map_choose (children r s)) as (p & k & Hk).
    { intros E. unfold no_child in En. by rewrite E, bool_decide_eq_true_2 in En. }
    destruct (dead k) as [st|] eqn:Ed.
    + eapply (Hrun p). by rewrite Hk, Ed.
    + apply (fam_children _ _ Hr _ _ F) in Hk as [Hne Hk].
      destruct (kid_progress body r child_status s q p k F Hne Hk Ed) as [s' E]. by exists (Run p 0), s'.
Qed.
End waitpid1.

(** [waitpid1.cc] reaps each of its children exactly once and reports the exit
    status of each: when the parent ends, it ends with status 0 after ten calls of
    [fork], the reaped children are those that [fork] created, the child of the
    [i]-th call with status [100 + i], and the output is one line per child, in the
    order of reaping.  Until then the system can always move. *)
Theorem waitpid1_reaps_each_once r s :
  INIT < r → rtc (step Waitpid1.body internal) (boot r Waitpid1.main) s →
  match dead (proc_of s r) with
  | Some st => finished st (own r s)
  | None => ∃ ch s', internal ch = true ∧ exec Waitpid1.body ch s = Some s'
  end.
Proof.
  intros Hr Hs. apply waiting_inv in Hs as [(q & F & H)|(st & [(q & Hq & Hd & _) _] & H)]; [..|done]; unfold proc_of.
  - rewrite (fam_root _ _ _ _ F). cbn. rewrite (fam_alive _ _ _ _ F). by apply (waiting_progress r s q).
  - rewrite Hq. cbn. by rewrite Hd.
Qed.

(** A complete run: children 101 to 110, reaped in reverse order. *)
Definition all_ten : list choice :=
  flat_map (λ i, [Run 100 0; Run 100 (101 + i)]) (seqZ 0 10) ++ [Run 100 0; Run 100 0] ++
  flat_map (λ i, [Run (101 + i) 0; Run (101 + i) 0]) (seqZ 0 10) ++
  flat_map (λ i, [Run 100 (110 - i); Run 100 0; Run 100 0]) (seqZ 0 10) ++ [Run 100 0; Run 100 0; Run 100 0].
Definition all_reaped : state Waitpid1.label := after Waitpid1.body all_ten (boot 100 Waitpid1.main).

Lemma waitpid1_reaps_each_once_witness :
  dead (proc_of all_reaped 100) = Some 0 ∧
  head (printed (own 100 all_reaped)) =
    Some ("child %d terminated normally with exit status = %d\n"%string, [110; 109]) ∧
  finished 0 (own 100 all_reaped).
Proof.
  split; [vm_compute; reflexivity|]. split; [vm_compute; reflexivity|].
  refine (waitpid1_reaps_each_once 100 all_reaped _ _); [reflexivity|].
  apply (exec_all_reach Waitpid1.body internal all_ten); vm_compute; reflexivity.
Defined.

(** ** Children that create children *)

(** [waitpid2.c]: the branch of the child is empty, so that it runs on in the loop;
    [Fork] is a wrapper that the sources declare, taken as a [fork] that
    succeeds.  The end of [main] ends the process with status 0.  The program is
    the one with [n] = [N]. *)
Module Waitpid2.
Definition N : Z := 10.
Inductive label := Loop (i : Z).

Section program.
Context (n : Z).

Definition loop (i : Z) : code label :=
  if i <? n then
    pid ⇐ Fork;
    if pid =? 0 then Jump (Loop (i + 1)) else Jump (Loop (i + 1))
  else Exit 0.

Definition body (l : label) : code label := match l with Loop i => loop i end.
End program.

Definition main : code label := Jump (Loop 0).
End Waitpid2.

Definition forks_succeed (ch : choice) : bool :=
  match ch with Run _ arg => negb (arg =? -1) | Raise _ _ => false | _ => true end.

Section waitpid2.
Import Waitpid2.
Context (n : Z) (n_pos : 0 ≤ n).
Implicit Types (q : proc label) (m : gmap Z (proc label)).

(** The number of processes that will come of this one, itself included. *)
Fixpoint offspring (c : code label) : nat :=
  match c with
  | Jump (Loop i) => 2 ^ Z.to_nat (n - i)
  | Call Fork k => offspring (k 0) + offspring (k 1)
  | _ => 1
  end.

Definition weight q : nat := match dead q with None => offspring (current q) | Some _ => 1 end.
Definition total m : nat := map_total weight m.

Definition loops q : Prop :=
  pending q = ∅ ∧ handlers q = ∅ ∧ armed q = false ∧
  (dead q = None → ∃ i, 0 ≤ i ≤ n ∧ (current q = Jump (Loop i) ∨ current q = loop n i)).

Lemma offspring_loop i : 0 ≤ i ≤ n → offspring (loop n i) = (2 ^ Z.to_nat (n - i))%nat.
Proof.
  intros Hi. unfold loop. destruct (Z.ltb_spec i n).
  - cbn [offspring Z.eqb]. replace (Z.to_nat (n - i)) with (S (Z.to_nat (n - (i + 1)))) by lia.
    rewrite Nat.pow_succ_r'. lia.
  - by replace (n - i) with 0 by lia.
Qed.

Lemma total_all_dead m : (∀ p q, m !! p = Some q → dead q ≠ None) → total m = size m.
Proof.
  intros H. rewrite <- length_map_to_list. unfold total, map_total.
  assert (∀ kv, kv ∈ map_to_list m → weight kv.2 = 1%nat) as Hw.
  { intros [p q] Hin. apply elem_of_map_to_list in Hin. apply H in Hin. unfold weight. cbn. by destruct (dead q). }
  induction (map_to_list m) as [|kv l IH]; [done|]. cbn. rewrite (Hw kv), IH; [done|..]; set_solver.
Qed.

Definition doubling (s : state label) : Prop :=
  total (procs s) = (2 ^ Z.to_nat n)%nat ∧ ∀ p q, procs s !! p = Some q → loops q.

Lemma send_chld q : loops q → send SIGCHLD q = q.
Proof. intros (_ & Hh & _). unfold send. rewrite Hh, lookup_empty. by destruct (alive q). Qed.

(** What a step does: a process goes on to the next round, forks in it, or ends. *)
Inductive loop_move s : state label → Prop :=
| move_round p q i :
    procs s !! p = Some q → dead q = None → 0 ≤ i ≤ n → current q = Jump (Loop i) →
    loop_move s (update p (set_current q (loop n i)) s)
| move_fork p q i pid :
    procs s !! p = Some q → dead q = None → 0 ≤ i < n → current q = loop n i → procs s !! pid = None →
    loop_move s (record p (Forked pid) (update p (set_current q (Jump (Loop (i + 1))))
      (update pid (child_of p q (Jump (Loop (i + 1)))) s)))
| move_end p q :
    procs s !! p = Some q → dead q = None → current q = Exit 0 →
    loop_move s (mkState (<[p := set_dead q (exit_status 0)]> (adopt p <$> procs s)) (log s)).

Lemma loop_terminate s p q st :
  doubling s → procs s !! p = Some q →
  terminate p st q s = mkState (<[p := set_dead q st]> (adopt p <$> procs s)) (log s).
Proof.
  intros [_ Hl] Hp. unfold terminate. f_equal. apply map_eq. intros i.
  destruct (decide (i = parent q)) as [->|]; [|by rewrite lookup_alter_ne]. rewrite lookup_alter_eq.
  destruct (<[p := _]> _ !! _) as [x|] eqn:E; [|done]. cbn. f_equal. apply send_chld.
  apply lookup_insert_Some in E as [[_ <-]|[_ (y & <- & Hy)%lookup_fmap_Some]].
  - destruct (Hl p q Hp) as (? & ? & ? & _). by split_and!.
  - apply Hl in Hy. unfold adopt. by destruct (parent y =? p).
Qed.

Lemma loop_moves ch s s' :
  forks_succeed ch = true → doubling s → exec (body n) ch s = Some s' → loop_move s s'.
Proof.
  intros Hch D E. pose proof D as [_ Hl]. unfold exec in E.
  destruct ch as [p arg|p sig b|p|p sig]; [..|done];
    destruct (procs s !! p) as [q|] eqn:Hp; try done; destruct (alive q) eqn:Ha; cbn in E; try done;
    apply bool_decide_eq_true in Ha; destruct (Hl p q Hp) as (Hpe & Hh & Har & Hc).
  - case_bool; [|done]. destruct (Hc Ha) as (i & Hi & [Hc'|Hc']); unfold exec_code in E; rewrite Hc' in E; cbn in E.
    + injection E as <-. by eapply move_round.
    + pose proof Hc' as Hc2. unfold loop in E, Hc'. destruct (Z.ltb_spec i n) as [Hlt|Hge]; cbn in E.
      * cbn in Hch. apply negb_true_iff in Hch. rewrite Hch in E. case_bool; [|done]. breflect.
        apply bool_decide_eq_true in H0. injection E as <-. rewrite (proj2 (Z.eqb_neq arg 0)) by (unfold INIT in *; lia).
        by eapply move_fork; [..|lia|exact Hc2|].
      * injection E as <-. rewrite loop_terminate by done. by apply move_end.
  - unfold deliverable in E. rewrite Hpe, bool_decide_eq_false_2 in E by set_solver. done.
  - by rewrite Har in E.
Qed.

(** A weight that a step changes as the offspring of the process it moves. *)
Lemma move_total (f : proc label → nat) s s' :
  loop_move s s' → (∀ p q, f (adopt p q) = f q) →
  ∃ q, dead q = None ∧ (∃ p, procs s !! p = Some q) ∧
    ((∃ i, 0 ≤ i ≤ n ∧ current q = Jump (Loop i) ∧
        (map_total f (procs s') + f q = map_total f (procs s) + f (set_current q (loop n i)))%nat) ∨
     (∃ i p, 0 ≤ i < n ∧ current q = loop n i ∧
        (map_total f (procs s') + f q = map_total f (procs s) + f (set_current q (Jump (Loop (i + 1)))) +
           f (child_of p q (Jump (Loop (i + 1)))))%nat) ∨
     (current q = Exit 0 ∧
        (map_total f (procs s') + f q = map_total f (procs s) + f (set_dead q (exit_status 0)))%nat)).
Proof.
  intros Hm Hf. destruct Hm as [p q i Hp Hd Hi Hc|p q i pid Hp Hd Hi Hc Hn|p q Hp Hd Hc]; exists q; split_and!; eauto.
  - left. exists i. split_and!; try done; try lia. cbn. by apply map_total_insert.
  - right; left. exists i, p. split_and!; try done; try lia. cbn. assert (pid ≠ p) by congruence.
    rewrite insert_insert_ne, map_total_new by (done || by rewrite lookup_insert_ne).
    pose proof (map_total_insert f (procs s) p q (set_current q (Jump (Loop (i + 1)))) Hp). lia.
  - right; right. split; [done|]. cbn.
    pose proof (map_total_insert f (adopt p <$> procs s) p (adopt p q) (set_dead q (exit_status 0))) as Hi.
    rewrite lookup_fmap, Hp in Hi. rewrite Hf, map_total_fmap in Hi by done. by apply Hi.
Qed.

Lemma move_loops s s' : (∀ p q, procs s !! p = Some q → loops q) → loop_move s s' → ∀ p q, procs s' !! p = Some q → loops q.
Proof.
  intros Hl Hm p' x. destruct Hm as [p q i Hp Hd Hi Hc|p q i pid Hp Hd Hi Hc Hn|p q Hp Hd Hc]; cbn;
    destruct (Hl p q Hp) as (H1 & H2 & H3 & _); rewrite ?lookup_insert_Some.
  - intros [[_ <-]|[_ ?]]; [|eauto]. split_and!; try done. intros _. exists i. cbn. auto.
  - intros [[_ <-]|[_ [[_ <-]|[_ ?]]]]; [..|eauto]; split_and!; try done;
      intros _; exists (i + 1); cbn; (split; [lia|by left]).
  - rewrite lookup_fmap_Some. intros [[_ <-]|[_ (y & <- & Hy)]]; [by split_and!|].
    apply Hl in Hy. unfold adopt. by destruct (parent y =? p).
Qed.

Lemma doubling_move s s' : doubling s → loop_move s s' → doubling s'.
Proof.
  intros [Ht Hl] Hm. split; [|by eapply move_loops]. rewrite <- Ht. unfold total.
  destruct (move_total weight s s' Hm) as (q & Hd & _ & Hcase);
    [intros p q; unfold adopt, weight; by destruct (parent q =? p)|].
  unfold weight in Hcase at 2 4 6 8 9 11 13. cbn [dead set_current child_of set_dead current] in Hcase. rewrite Hd in Hcase.
  destruct Hcase as [(i & Hi & Hc & Hw)|[(i & p & Hi & Hc & Hw)|(Hc & Hw)]]; rewrite Hc in Hw.
  - rewrite offspring_loop in Hw by done. cbn [offspring] in Hw. lia.
  - rewrite offspring_loop in Hw by lia. cbn [offspring] in Hw.
    replace (Z.to_nat (n - i)) with (S (Z.to_nat (n - (i + 1)))) in Hw by lia. rewrite Nat.pow_succ_r' in Hw. lia.
  - cbn [offspring] in Hw. lia.
Qed.

Lemma doubling_step ch s s' :
  forks_succeed ch = true → doubling s → exec (body n) ch s = Some s' → doubling s'.
Proof. intros. eapply doubling_move; [done|]. by eapply loop_moves. Qed.

Lemma doubling_reach r s : rtc (step (body n) forks_succeed) (boot r main) s → doubling s.
Proof.
  apply reach_invariant; [|intros; by eapply doubling_step]. split; cbn.
  - unfold total, map_total. rewrite map_to_list_singleton. cbn. rewrite Z.sub_0_r. lia.
  - intros p q. rewrite lookup_singleton_Some. intros [_ <-]. split_and!; try done. intros _. exists 0. cbn. split; [lia|by left].
Qed.

(** ** Every schedule ends *)

(** Instructions left to a process and its offspring. *)
Definition steps_left q : nat :=
  match dead q with
  | Some _ => 0
  | None => 4 * offspring (current q) - match current q with Jump _ => 2 | _ => 3 end
  end.

Lemma steps_decrease s s' :
  loop_move s s' → (map_total steps_left (procs s') < map_total steps_left (procs s))%nat.
Proof.
  intros Hm. destruct (move_total steps_left s s' Hm) as (q & Hd & _ & Hcase);
    [intros p q; unfold adopt, steps_left; by destruct (parent q =? p)|].
  assert (∀ c, steps_left (set_current q c) = (4 * offspring c - match c with Jump _ => 2 | _ => 3 end)%nat) as Hs
    by (intros c; unfold steps_left; cbn [dead set_current current]; by rewrite Hd).
  assert (steps_left q = (4 * offspring (current q) - match current q with Jump _ => 2 | _ => 3 end)%nat) as Hq
    by (unfold steps_left; by rewrite Hd).
  destruct Hcase as [(i & Hi & Hc & Hw)|[(i & p & Hi & Hc & Hw)|(Hc & Hw)]]; rewrite ?Hs, Hq, Hc in Hw.
  - rewrite offspring_loop in Hw by done. cbn [offspring] in Hw.
    pose proof (Nat.pow_nonzero 2 (Z.to_nat (n - i)) ltac:(lia)).
    unfold loop in Hw. destruct (i <? n); lia.
  - rewrite offspring_loop in Hw by lia. unfold steps_left in Hw at 3. cbn [dead child_of current] in Hw. cbn [offspring] in Hw.
    pose proof (Nat.pow_nonzero 2 (Z.to_nat (n - (i + 1))) ltac:(lia)).
    replace (Z.to_nat (n - i)) with (S (Z.to_nat (n - (i + 1)))) in Hw by lia. rewrite Nat.pow_succ_r' in Hw.
    unfold loop in Hw. rewrite (proj2 (Z.ltb_lt i n)) in Hw by lia. lia.
  - cbn [offspring] in Hw. unfold steps_left in Hw at 3. cbn in Hw. lia.
Qed.

(** There is a free process number. *)
Lemma free_pid m : Z.of_nat (size m) < INT_MAX - INIT → ∃ p, INIT < p ≤ INT_MAX ∧ m !! p = None.
Proof.
  intros Hm. set (l := seqZ (INIT + 1) (Z.of_nat (size m) + 1)).
  destruct (decide (Forall (λ p, p ∈ dom m) l)) as [Hl|Hl].
  - exfalso. rewrite Forall_forall in Hl. assert (list_to_set l ⊆ dom m) as Hsub by set_solver.
    apply subseteq_size in Hsub. unfold l in Hsub. rewrite size_list_to_set, length_seqZ, size_dom in Hsub by apply NoDup_seqZ. lia.
  - apply not_Forall_Exists, Exists_exists in Hl as (p & Hp & Hn); [|apply _]. exists p.
    unfold l in Hp. apply elem_of_seqZ in Hp. split; [lia|]. by apply not_elem_of_dom.
Qed.

Lemma size_bound s : doubling s → (size (procs s) ≤ 2 ^ Z.to_nat n)%nat.
Proof.
  intros [<- Hl]. apply map_total_size. intros p q Hp. destruct (Hl p q Hp) as (_ & _ & _ & Hc). unfold weight.
  destruct (dead q); [done|]. destruct (Hc eq_refl) as (i & Hi & [Hc'|Hc']); rewrite Hc', ?offspring_loop by done;
    cbn [offspring]; pose proof (Nat.pow_nonzero 2 (Z.to_nat (n - i)) ltac:(lia)); lia.
Qed.

Definition all_ended s : Prop := ∀ p q, procs s !! p = Some q → dead q ≠ None.

(** As long as a process is left, it can go on. *)
Lemma doubling_goes_on s : n ≤ 30 → doubling s → all_ended s ∨ ∃ s', step (body n) forks_succeed s s'.
Proof.
  intros Hn D. destruct (decide (map_Forall (λ _ q, dead q ≠ None) (procs s))) as [H|H]; [by left|right].
  apply map_not_Forall in H as (p & q & Hp & Hd); [|apply _]. apply dec_stable in Hd.
  pose proof D as [_ Hl]. destruct (Hl p q Hp) as (Hpe & _ & _ & Hc).
  enough (∃ arg s', arg ≠ -1 ∧ exec_code (body n) p q arg s = Some s') as (arg & s' & Harg & E).
  { exists s'. apply (step_exec _ _ (Run p arg)); [cbn; by rewrite (proj2 (Z.eqb_neq _ _))|]. cbn. rewrite Hp.
    unfold alive, deliverable. by rewrite !bool_decide_eq_true_2 by set_solver. }
  destruct (Hc Hd) as (i & Hi & [Hc'|Hc']); unfold exec_code; rewrite Hc'; cbn; [by exists 0; eexists|].
  unfold loop. destruct (i <? n); [|by exists 0; eexists].
  destruct (free_pid (procs s)) as (pid & Hpid & Hfree).
  { pose proof (size_bound s D) as Hs. pose proof (Nat.pow_le_mono_r 2 (Z.to_nat n) 30 ltac:(lia) ltac:(lia)) as H30.
    assert (Z.of_nat (2 ^ 30) = 1073741824) as H31 by (by rewrite Nat2Z.inj_pow). unfold INT_MAX, INIT. lia. }
  exists pid. eexists. split; [unfold INIT in *; lia|]. cbn. rewrite (proj2 (Z.eqb_neq pid (-1))) by (unfold INIT in *; lia).
  rewrite (proj2 (Z.ltb_lt INIT pid)), (proj2 (Z.leb_le pid INT_MAX)) by lia. by rewrite bool_decide_eq_true_2.
Qed.

Definition doubled s : Prop := all_ended s ∧ size (procs s) = (2 ^ Z.to_nat n)%nat.

Lemma doubling_inevitable s : n ≤ 30 → doubling s → inevitably (step (body n) forks_succeed) doubled s.
Proof.
  intros Hn. apply (inevitably_measure _ doubling _ (λ s, map_total steps_left (procs s))). intros x D.
  destruct (doubling_goes_on x Hn D) as [H|H]; [left|right].
  - split; [done|]. destruct D as [<- _]. by rewrite total_all_dead.
  - split; [done|]. intros y Hst. right. inversion_clear Hst as [ch ? ? Hch E]. split; [by eapply doubling_step|].
    eapply steps_decrease, loop_moves; done.
Qed.
End waitpid2.

(** C40: [waitpid2.c] terminates, having created [2 ^ N - 1] processes instead of
    [N], because each child runs on in the loop.  However the processes take turns
    and whichever numbers they get, every schedule ends, from every reachable state,
    with [2 ^ n] processes that have all ended, 1024 for the [N] = 10 of the program;
    [Fork] is taken as a [fork] that succeeds, and up to [n] = 30 there are always
    free process numbers for it. *)
Theorem waitpid2_doubles n r s :
  0 ≤ n ≤ 30 → rtc (step (Waitpid2.body n) forks_succeed) (boot r Waitpid2.main) s →
  inevitably (step (Waitpid2.body n) forks_succeed) (doubled n) s.
Proof. intros Hn Hs. apply doubling_inevitable; [lia..|]. by eapply doubling_reach; [lia|]. Qed.

(** In round [i] every process forks once. *)
Definition rounds (n : Z) : list choice :=
  flat_map (λ i, flat_map (λ p, [Run (100 + p) 0; Run (100 + p) (100 + 2 ^ i + p)]) (seqZ 0 (2 ^ i))) (seqZ 0 n).
Definition two_rounds : state Waitpid2.label := after (Waitpid2.body 3) (rounds 2) (boot 100 Waitpid2.main).

Lemma waitpid2_doubles_witness :
  inevitably (step (Waitpid2.body Waitpid2.N) forks_succeed) (doubled Waitpid2.N) (boot 100 Waitpid2.main) ∧
  inevitably (step (Waitpid2.body 3) forks_succeed) (doubled 3) two_rounds.
Proof.
  split; [apply (waitpid2_doubles Waitpid2.N 100); [done|apply rtc_refl]|].
  apply (waitpid2_doubles 3 100); [done|].
  apply (exec_all_reach (Waitpid2.body 3) forks_succeed (rounds 2)); vm_compute; reflexivity.
Defined.
