(* ===== verification/WaitingLive.v ===== *)
(** * Every schedule of [waitpid1.cc] ends

    Liveness of [csapp/exceptional_control_flow/waitpid1.cc]: a measure counts the
    instructions left to the parent and to its children. *)

From S2P Require Import Prelude Sys Process Family Waiting.

Section live.
Import Waitpid1.
Context (r : Z) (r_pos : INIT < r).
Implicit Types (q k : proc label) (s : state label).

(** A child sleeps, then exits. *)
Definition child_code (c : code label) : Prop :=
  (∃ x e, c = Call (Sleep x) (λ _, Exit e)) ∨ ∃ e, c = Exit e.

Definition shapes s : Prop :=
  ∀ p k, p ≠ r → procs s !! p = Some k → dead k = None → child_code (current k).

(** Instructions left to a child, with those its reaping costs the parent. *)
Definition child_work k : nat :=
  match dead k with
  | Some _ => 3
  | None => match current k with Exit _ => 4 | _ => 5 end
  end.

(** The parent, apart from the children it will create or reap. *)
Definition parent_work (c : code label) : nat :=
  match c with
  | Jump (ForkLoop _) => 6
  | Call Fork _ => 5
  | Printf _ _ _ => 5
  | Jump ReapLoop => 4
  | Waitpid _ _ => 3
  | Call _ _ => 2
  | _ => 1
  end.

Definition measure s : nat :=
  7 * Z.to_nat (N - attempts (own r s)) + parent_work (current (proc_of s r)) +
  map_total child_work (delete r (procs s)).

Lemma shapes_root s q g : shapes s → shapes (mkState (<[r := q]> (procs s)) g).
Proof. intros H p k Hne. cbn. rewrite lookup_insert_ne by done. by apply H. Qed.

Lemma measure_root (m : gmap Z (proc label)) q l g :
  measure (mkState (<[r := q]> m) (l ++ g)) =
    (7 * Z.to_nat (N - attempts (by_proc r l ++ by_proc r g)) + parent_work (current q) +
     map_total child_work (delete r m))%nat.
Proof.
  unfold measure, own, proc_of. cbn [procs log]. rewrite by_proc_app, lookup_insert_eq, delete_insert_eq. done.
Qed.

Lemma measure_family s q :
  procs s !! r = Some q →
  measure s = (7 * Z.to_nat (N - attempts (own r s)) + parent_work (current q) +
               map_total child_work (delete r (procs s)))%nat.
Proof. intros H. unfold measure, proc_of. by rewrite H. Qed.

(** ** The parent moves *)

Definition decreases s s' : Prop := shapes s' ∧ (measure s' < measure s)%nat.

(** It only goes on in its code. *)
Lemma root_goes s q q' :
  procs s !! r = Some q → shapes s → (parent_work (current q') < parent_work (current q))%nat →
  decreases s (update r q' s).
Proof.
  intros Hq Hs Hw. split; [by apply shapes_root|]. rewrite update_app, measure_root, (measure_family s q) by done.
  change (by_proc r []) with (@nil act). rewrite app_nil_r. fold (own r s). lia.
Qed.

Lemma root_prints s q q' f xs :
  procs s !! r = Some q → shapes s → (parent_work (current q') < parent_work (current q))%nat →
  decreases s (record r (Printed f xs) (update r q' s)).
Proof.
  intros Hq Hs Hw. split; [by apply shapes_root|]. unfold record, update. cbn [procs log].
  rewrite measure_root, (measure_family s q), by_proc_own, attempts_app by done. fold (own r s).
  change (attempts [Printed f xs]) with 0. rewrite Z.add_0_r. lia.
Qed.
Lemma root_fork_fails s q q' :
  procs s !! r = Some q → shapes s → attempts (own r s) < N → (parent_work (current q') ≤ 6)%nat →
  decreases s (record r ForkFailed (update r q' s)).
Proof.
  intros Hq Hs Ha Hw. split; [by apply shapes_root|]. unfold record, update. cbn [procs log].
  rewrite measure_root, (measure_family s q), by_proc_own, attempts_app by done. fold (own r s).
  change (attempts [ForkFailed]) with 1. lia.
Qed.

Lemma root_forks s q q' p k :
  procs s !! r = Some q → shapes s → attempts (own r s) < N → (5 ≤ parent_work (current q))%nat →
  (parent_work (current q') ≤ 6)%nat →
  procs s !! p = None → p ≠ r → child_code (current k) → dead k = None →
  decreases s (record r (Forked p) (update r q' (update p k s))).
Proof.
  intros Hq Hs Ha Hw Hw' Hp Hne Hk Hd. split.
  - apply shapes_root. intros p' k' Hne'. cbn. rewrite lookup_insert_Some. intros [[<- <-]|[_ ?]]; [done|by eapply Hs].
  - unfold record, update. cbn [procs log]. rewrite (measure_family s q) by done.
    rewrite measure_root, by_proc_own, attempts_app. fold (own r s).
    change (attempts [Forked p]) with 1. rewrite delete_insert_ne, map_total_new by (done || by rewrite lookup_delete_ne).
    assert (child_work k ≤ 5)%nat by (unfold child_work; rewrite Hd; destruct (current k); lia). lia.
Qed.

Lemma root_reaps s q q' p z st :
  procs s !! r = Some q → shapes s → (3 ≤ parent_work (current q))%nat → (parent_work (current q') ≤ 5)%nat →
  procs s !! p = Some z → p ≠ r → dead z = Some st →
  decreases s (record r (Reaped p st) (update r q' (mkState (delete p (procs s)) (log s)))).
Proof.
  intros Hq Hs Hw Hw' Hp Hne Hd. split.
  - apply shapes_root. intros p' k' Hne'. cbn. rewrite lookup_delete_Some. intros [_ ?]. by eapply Hs.
  - unfold record, update. cbn [procs log]. rewrite (measure_family s q) by done.
    rewrite measure_root, by_proc_own, attempts_app. fold (own r s).
    change (attempts [Reaped p st]) with 0. rewrite delete_delete.
    rewrite (map_total_delete child_work (delete r (procs s)) p z) by (by rewrite lookup_delete_ne).
    assert (child_work z = 3)%nat as -> by (unfold child_work; by rewrite Hd). rewrite Z.add_0_r. lia.
Qed.

(** The parent has ended, having done what it should. *)
Definition over s : Prop := ∃ st, dead (proc_of s r) = Some st ∧ finished st (own r s).

Lemma over_dead s : family_inv r child_status waiting finished s → dead (proc_of s r) ≠ None → over s.
Proof.
  intros [(q & F & _)|(st & [(q & Hq & Hd & _) _] & H)] Hn; unfold over, proc_of in *.
  - rewrite (fam_root _ _ _ _ F) in Hn. cbn in Hn. by rewrite (fam_alive _ _ _ _ F) in Hn.
  - exists st. rewrite Hq. cbn. by rewrite Hd.
Qed.

Lemma root_run s q arg s' :
  family r child_status s q → waiting q (kids r s) (own r s) → shapes s →
  exec_code body r q arg s = Some s' → dead (proc_of s' r) ≠ None ∨ decreases s s'.
Proof.
  intros F [_ _ _ _ Hc] Hs E. pose proof (fam_root _ _ _ _ F) as Hq. unfold exec_code in E.
  destruct Hc as [i [Hc|Hc] Hi Hat _|[Hc|Hc] _ _|p st Hc _ _|[[Hc He]|Hc] _ _ _]; rewrite Hc in E; cbn in E.
  - injection E as <-. right. apply (root_goes s q); [done..|]. rewrite Hc. cbn. unfold fork_loop.
    by destruct (i <? N); cbn; lia.
  - unfold fork_loop in E, Hc. destruct (Z.ltb_spec i N) as [Hlt|Hge]; cbn in E.
    + right. case_bool; [|case_bool; [|done]]; injection E as <-; breflect.
      * apply (root_fork_fails s q); try done; lia.
      * assert (arg ≠ r) by (intros ->; apply bool_decide_eq_true in H0; congruence).
        apply bool_decide_eq_true in H0. apply (root_forks s q); try done; [lia|rewrite Hc; cbn; lia| |].
        -- cbn. rewrite (proj2 (Z.eqb_neq arg 0)) by (unfold INIT in *; lia). cbn. lia.
        -- left. eauto.
    + injection E as <-. right. apply (root_goes s q); [done..|]. rewrite Hc. cbn. lia.
  - injection E as <-. right. apply (root_goes s q); [done..|]. rewrite Hc. cbn. lia.
  - unfold exec_waitpid in E. right. case_bool.
    + injection E as <-. apply (root_goes s q); [done..|]. rewrite Hc. cbn. lia.
    + destruct (children r s !! arg) as [z|] eqn:Ez; [|done]. destruct (dead z) as [st|] eqn:Ed; [|done].
      apply (fam_children _ _ r_pos _ _ F) in Ez as [Hne Ez]. injection E as <-.
      apply (root_reaps s q _ arg z st); try done; [rewrite Hc; cbn; lia|]. cbn.
      destruct (0 <? arg); cbn; lia.
  - injection E as <-. right. apply (root_prints s q); [done..|]. rewrite Hc. cbn. lia.
  - injection E as <-. right. apply (root_goes s q); [done..|]. rewrite Hc. cbn. rewrite He. cbn. lia.
  - injection E as <-. left. unfold terminate, proc_of. cbn. rewrite (fam_parent _ _ _ _ F).
    by rewrite lookup_alter_ne, lookup_insert_eq by (unfold INIT in *; lia).
Qed.

(** ** A child moves *)

Lemma child_change s q q' p k k' :
  procs s !! r = Some q → shapes s → procs s !! p = Some k → p ≠ r → current q' = current q →
  (dead k' = None → child_code (current k')) → (child_work k' < child_work k)%nat →
  decreases s (mkState (<[r := q']> (<[p := k']> (procs s))) (log s)).
Proof.
  intros Hq Hs Hk Hne Hc Hk' Hw. split.
  - intros p' x Hp'. cbn. rewrite lookup_insert_ne by done. rewrite lookup_insert_Some.
    intros [[_ <-]|[_ ?]]; [done|by eapply Hs].
  - rewrite <- (app_nil_r (log s)) at 1. rewrite measure_root, (measure_family s q), Hc by done.
    change (by_proc r []) with (@nil act). rewrite app_nil_r, delete_insert_ne by done. fold (own r s).
    pose proof (map_total_insert child_work (delete r (procs s)) p k k' ltac:(by rewrite lookup_delete_ne)). lia.
Qed.

Lemma child_run s q p k arg s' :
  family r child_status s q → shapes s → procs s !! p = Some k → p ≠ r → dead k = None →
  exec_code body p k arg s = Some s' → decreases s s'.
Proof.
  intros F Hs Hk Hne Hd E. pose proof (fam_root _ _ _ _ F) as Hq. unfold exec_code in E.
  destruct (Hs p k Hne Hk Hd) as [(x & e & Hc)|[e Hc]]; rewrite Hc in E; cbn in E; injection E as <-.
  - unfold update. rewrite <- (insert_id (<[p := _]> (procs s)) r q) by (by rewrite lookup_insert_ne).
    apply (child_change s q q p k); try done; [by right; exists e|]. unfold child_work. cbn. rewrite Hd, Hc. cbn. lia.
  - rewrite (kid_terminate r child_status s q) by done. apply (child_change s q _ p k); try done.
    + unfold send. by case_bool.
    + unfold child_work. cbn. rewrite Hd, Hc. cbn. lia.
Qed.

(** ** Every step *)

Lemma live_family_step s q ch s' :
  family r child_status s q → waiting q (kids r s) (own r s) → shapes s → internal ch = true →
  exec body ch s = Some s' → dead (proc_of s' r) ≠ None ∨ decreases s s'.
Proof.
  intros F W Hs Hch E. unfold exec in E. destruct ch as [p arg|p sig b|p|p sig]; [..|done];
    destruct (procs s !! p) as [k|] eqn:Ek; try done; destruct (alive k) eqn:Ea; cbn in E; try done;
    match type of E with (if ?b then _ else _) = _ => destruct b eqn:Hg; [|done] end;
    apply bool_decide_eq_true in Ea; destruct (decide (p = r)) as [->|Hne];
    try (rewrite (fam_root _ _ _ _ F) in Ek; injection Ek as <-).
  - by eapply root_run.
  - right. by eapply child_run.
  - apply bool_decide_eq_true in Hg. unfold deliverable in Hg. destruct W as [_ _ Hp _ _]. set_solver.
  - apply bool_decide_eq_true in Hg. destruct (fam_kids _ _ _ _ F p k Hne Ek) as (_ & Hp & _).
    unfold deliverable in Hg. set_solver.
  - by rewrite (fam_armed _ _ _ _ F) in Hg.
  - destruct (fam_kids _ _ _ _ F p k Hne Ek) as (_ & _ & Har & _). congruence.
Qed.

Definition live s : Prop :=
  rtc (step body internal) (boot r main) s ∧ (dead (proc_of s r) = None → shapes s).

Lemma live_next s :
  live s → over s ∨ (∃ s', step body internal s s') ∧
  ∀ s', step body internal s s' → over s' ∨ live s' ∧ (measure s' < measure s)%nat.
Proof.
  intros [Hr Hs]. pose proof (waiting_inv r s r_pos Hr) as Hinv.
  destruct (dead (proc_of s r)) as [st|] eqn:Hd; [left; apply over_dead; [done|by rewrite Hd]|]. right.
  destruct Hinv as [(q & F & W)|(st & [(q & Hq & Hd' & _) _] & _)];
    [|unfold proc_of in Hd; rewrite Hq in Hd; cbn in Hd; congruence].
  split.
  - destruct (waiting_progress r s q r_pos F W) as (ch & s' & Hch & E). exists s'. by econstructor.
  - intros s' Hst. assert (rtc (step body internal) (boot r main) s') as Hr' by (by eapply rtc_r).
    destruct Hst as [ch s s' Hch E].
    destruct (live_family_step s q ch s' F W (Hs eq_refl) Hch E) as [Hn|[Hs' Hlt]].
    + left. apply over_dead; [by apply waiting_inv|done].
    + by right.
Qed.

Lemma waiting_live_step s s' : live s → step body internal s s' → live s'.
Proof.
  intros Hl Hst. assert (rtc (step body internal) (boot r main) s') as Hr' by (by eapply rtc_r; [apply Hl|]).
  split; [done|]. intros Hd. destruct (waiting_inv r s r_pos (proj1 Hl)) as [(q & F & W)|(st & He & _)].
  - destruct Hst as [ch s s' Hch E]. assert (shapes s) as Hs.
    { apply Hl. unfold proc_of. rewrite (fam_root _ _ _ _ F). apply (fam_alive _ _ _ _ F). }
    by destruct (live_family_step s q ch s' F W Hs Hch E) as [|[]].
  - destruct Hst as [ch s s' Hch E]. destruct (ended_step body r s st ch s' He E) as [[(q & Hq & Hd' & _) _] _].
    unfold proc_of in Hd. rewrite Hq in Hd. cbn in Hd. congruence.
Qed.

Lemma live_boot : live (boot r main).
Proof.
  split; [apply rtc_refl|]. intros _ p k Hne. cbn. by rewrite lookup_singleton_ne.
Qed.
End live.

(** ** Properties *)

(** C36: [waitpid1.cc] terminates.  However the parent, the children and the
    kernel take turns, whichever calls of [fork] fail and in whichever order
    children are reaped, from every reachable state the parent ends after finitely
    many steps, with status 0 and with every child reaped and reported. *)
Theorem waitpid1_terminates r s :
  INIT < r → rtc (step Waitpid1.body internal) (boot r Waitpid1.main) s →
  inevitably (step Waitpid1.body internal) (over r) s.
Proof.
  intros Hr Hs. apply (inevitably_measure _ (live r) _ (measure r)); [by apply live_next|].
  eapply (rtc_invariant (step Waitpid1.body internal)); [by apply waiting_live_step|by apply live_boot|done].
Qed.

(** From the start, and from a state in which the first child waits to be reaped
    while the parent is still forking. *)
Definition one_ended : state Waitpid1.label :=
  after Waitpid1.body [Run 100 0; Run 100 101; Run 101 0; Run 101 0; Run 100 0; Run 100 (-1)] (boot 100 Waitpid1.main).

Lemma waitpid1_terminates_witness :
  dead (proc_of one_ended 101) = Some (exit_status 100) ∧
  inevitably (step Waitpid1.body internal) (over 100) one_ended.
Proof.
  split; [vm_compute; reflexivity|].
  apply (waitpid1_terminates 100); [reflexivity|].
  apply (exec_all_reach Waitpid1.body internal
    [Run 100 0; Run 100 101; Run 101 0; Run 101 0; Run 100 0; Run 100 (-1)]); vm_compute; reflexivity.
Defined.
