(* ===== verification/ForkServer.v ===== *)
(** * The forking echo server and its SIGCHLD handler

    Models the processes of [csapp/concurrent_program/echo_serverp.cc]: [main]
    accepts, forks a child per client and goes on, and the handler reaps, between
    any two instructions of [main].  What one process does with the bytes of its
    sockets and which descriptors it closes is in [Echo.v]; here, opening the
    listening socket happens before there is any child, and a line that a child
    reads is its length, which the client chooses, or an error.  Whether [signal]
    installs handlers with [SA_RESTART] differs between systems and is the
    parameter [bsd]. *)

From S2P Require Import Prelude Sys Rio Process Family.

(** The handler, which is its own loop, the loop of [main] and the loop of
    [echo], which only children run. *)
Inductive label := Handler | Accepting | Echoing (connfd : Z).

#[export] Instance echo_is_child : ChildLabels label :=
  λ l, match l with Echoing _ => True | _ => False end.

(** [while (waitpid(-1, 0, WNOHANG) > 0);] *)
Definition sigchld_handler : code label :=
  Waitpid true (λ pid _, if 0 <? pid then Jump Handler else Ret).

(** What the child does after [echo]. *)
Definition close_client (connfd : Z) : code label :=
  printf "server close client, fd = %d\n" [connfd];
  Exit 0.

(** One round of [echo], without the bytes it writes.  A line has at most [MAXLINE - 1] bytes.  The result of
    [rio_readlineb] is kept in a [size_t]; after an error [rio_writen] reads past
    the buffer, and nothing is known of what the child then does until it ends. *)
Definition echo (connfd : Z) : code label :=
  n ⇐ Read (MAXLINE - 1);
  if n =? 0 then close_client connfd
  else
    printf "server received %lu bytes\n" [u64 n];
    if MAXLINE <? u64 n then Foreign else Jump (Echoing connfd).

(** The branch of the child. *)
Definition serve (connfd : Z) : code label := Jump (Echoing connfd).

Definition fork_child (connfd : Z) : code label :=
  pid ⇐ Fork;
  if pid =? 0 then serve connfd else Jump Accepting.

Definition accepted (connfd : Z) : code label :=
  printf "server accept client(%s:%d), fd = %d\n" [connfd];
  fork_child connfd.

(** The result of [accept] is not checked. *)
Definition accept_loop : code label :=
  connfd ⇐ Accept;
  accepted connfd.

(** [main] from [signal] on.  The check of the arguments and [open_listenfd] come
    before there is a child; they are in [Echo.v] ([Forking.main]). *)
Definition main (bsd : bool) : code label :=
  _ ⇐ Install SIGCHLD Handler bsd;
  Jump Accepting.

Definition body (l : label) : code label :=
  match l with Handler => sigchld_handler | Accepting => accept_loop | Echoing connfd => echo connfd end.

(** ** The invariant *)

(** A child that is in [echo] has no child and no handler of its own at work. *)
Lemma echo_leaf P connfd : (∀ st, P st) → leaf P (echo connfd).
Proof. intros HP. cbn. split; [by unfold MAXLINE|]. intros v. repeat case_bool; cbn; auto. Qed.

(** The code of [main] once the handler is installed, also when a signal
    interrupted [accept]. *)
Inductive main_code : code label → Prop :=
| at_jump : main_code (Jump Accepting)
| at_accept : main_code accept_loop
| at_print fd : main_code (accepted fd)
| at_fork fd : main_code (fork_child fd)
| at_interrupted e fd : main_code (Fail e (accepted fd)).

Section server.
Context (bsd : bool).
Implicit Types (q : proc label) (K : gmap Z (option Z)) (l : list act).

(** A zombie is never forgotten: its signal is pending, or the handler is still
    to call [waitpid]. *)
Inductive phase q K l : Prop :=
| Starting :
    current q = main bsd → stack q = [] → mask q = ∅ → pending q = ∅ → K = ∅ → phase q K l
| InMain :
    handlers q !! SIGCHLD = Some (Handler, bsd) → stack q = [] → mask q = ∅ → main_code (current q) →
    (zombies K → SIGCHLD ∈ pending q) → phase q K l
| InHandler c :
    handlers q !! SIGCHLD = Some (Handler, bsd) → stack q = [(c, ∅)] → mask q = {[SIGCHLD]} → main_code c →
    (current q = Jump Handler ∨ current q = sigchld_handler ∨
     current q = Ret ∧ (zombies K → SIGCHLD ∈ pending q)) → phase q K l.

Lemma server_die q K l p st :
  good_root q → phase q K l → K !! p = Some None → phase (send SIGCHLD q) (<[p := Some st]> K) l.
Proof.
  intros (Hd & _) H Hp. destruct H as [? ? ? ? ->|Hh Hs Hm Hc Hz|c Hh Hs Hm Hc Hk]; [done|..];
    unfold send, alive; rewrite bool_decide_eq_true_2, Hh by done; cbn.
  - apply InMain; cbn; try done. set_solver.
  - apply InHandler with c; cbn; try done. destruct Hk as [?|[?|[? _]]]; auto. right. right. split; [done|]. set_solver.
Qed.

Lemma server_deliver q K l :
  phase q K l → SIGCHLD ∈ pending q → SIGCHLD ∉ mask q → deliver_post body phase q K l.
Proof.
  intros H Hp Hnm. destruct H as [? ? ? Hpe|Hh Hs Hm Hc Hz|c Hh Hs Hm]; [set_solver| |set_solver].
  exists Handler, bsd. split; [done|].
  assert (∀ c, main_code c → phase (enter body q Handler c) K l) as Henter.
  { intros c Hok. apply InHandler with c; cbn; rewrite ?Hs, ?Hm; try done; try set_solver; auto. }
  split; [by apply Henter|]. intros Hb. apply Henter. destruct Hc; try done. cbn.
  destruct bsd; constructor.
Qed.

Lemma server_run r q K l :
  phase q K l → deliverable q = ∅ →
  run_post body r (λ _ _ _, True) phase (λ _ _, False) q K l.
Proof.
  intros H Hdel. unfold run_post. destruct H as [Hc Hs Hm Hpe HK|Hh Hs Hm Hc Hz|c Hh Hs Hm Hc Hk].
  - rewrite Hc. split; [done|]. apply InMain; cbn; try done; [by rewrite lookup_insert_eq|constructor|].
    intros (p & st & E). by rewrite HK in E.
  - assert (pending q = ∅) as Hpe by (unfold deliverable in Hdel; rewrite Hm in Hdel; set_solver).
    assert (¬ zombies K) as HnZ by (rewrite Hpe in Hz; set_solver).
    assert (∀ q' K' l', handlers q' = handlers q → stack q' = stack q → mask q' = mask q →
      main_code (current q') → ¬ zombies K' → phase q' K' l') as Hgo.
    { intros q' K' l' E1 E2 E3 E4 E5. apply InMain; rewrite ?E1, ?E2, ?E3; done. }
    destruct Hc as [| |fd|fd|e fd]; cbn.
    + by apply Hgo; try constructor.
    + split; intros; by apply Hgo; try constructor.
    + by apply Hgo; try constructor.
    + split; [by apply Hgo; try constructor|]. intros p Hp Hn. split; [done|]. apply Hgo; try done; cbn.
      * rewrite (proj2 (Z.eqb_neq p 0)) by (unfold INIT in *; lia). constructor.
      * intros HZ. by apply zombies_fork in HZ.
    + by apply Hgo; try constructor.
  - destruct Hk as [Hk|[Hk|[Hk HZ]]]; rewrite Hk.
    + apply InHandler with c; cbn; auto.
    + cbn. split_and!.
      * intros ->. apply InHandler with c; cbn; auto. right. right. split; [done|]. by intros (p & st & E).
      * intros p st Hp E _. apply InHandler with c; cbn; auto.
        rewrite (proj2 (Z.ltb_lt 0 p)) by (unfold INIT in *; lia). auto.
      * intros _ _ Hnz. apply InHandler with c; cbn; auto. right. right. split; [done|].
        intros (p & st & E). by apply Hnz in E.
    + rewrite Hs. by apply InMain.
Qed.

Lemma server_inv_reach r s :
  INIT < r → rtc (step body internal) (boot r (main bsd)) s →
  ∃ q, family r (λ _ _ _, True) s q ∧ phase q (kids r s) (own r s).
Proof.
  intros Hr Hs.
  assert (family_inv r (λ _ _ _, True) phase (λ _ _, False) s) as [?|(st & _ & [])]; [|done].
  revert Hs. apply family_invariant; try done.
  - intros ? ? [| |connfd] Hl; [done..|]. by apply echo_leaf.
  - intros q K l p st G H E _. by apply server_die.
  - intros q K l _ H Hp Hm. by apply server_deliver.
  - intros q K l _ H Hd. by apply server_run.
  - by apply Starting.
Qed.
End server.

(** ** Properties *)

(** C26: the forking server never ends and leaves no zombies.  In every state
    that it reaches, however children end and signals arrive between the
    instructions of [main], with and without [SA_RESTART], the parent is alive;
    and when it is outside its handler with no signal pending, every child that
    has ended has been reaped. *)
Theorem forking_server_reaps bsd r s :
  INIT < r → rtc (step body internal) (boot r (main bsd)) s →
  dead (proc_of s r) = None ∧
  (stack (proc_of s r) = [] → pending (proc_of s r) = ∅ → no_zombie r s = true).
Proof.
  intros Hr Hs. destruct (server_inv_reach bsd r s Hr Hs) as (q & F & H). unfold proc_of.
  rewrite (fam_root _ _ _ _ F). cbn. split; [apply (fam_alive _ _ _ _ F)|]. intros Hst Hpe.
  apply (fam_all_reaped r _ Hr s q F). intros p st E.
  destruct H as [? ? ? ? HK|? ? ? ? Hz|c ? Hs']; [by rewrite HK in E| |congruence].
  assert (SIGCHLD ∈ pending q) as Hin by (apply Hz; by exists p, st). by rewrite Hpe in Hin.
Qed.

(** Two clients, of which each sends a line of two bytes; both children end before
    the parent is delivered the one signal that is left of theirs, and the handler
    reaps them both. *)
Definition client (fd child : Z) : list choice := [Run 100 0; Run 100 fd; Run 100 0; Run 100 child].
Definition child_ends (p : Z) : list choice := [Run p 0; Run p 2; Run p 0; Run p 0; Run p 0; Run p 0; Run p 0].
Definition two_clients : list choice :=
  [Run 100 0] ++ client 4 101 ++ client 4 102 ++ child_ends 101 ++ child_ends 102 ++
  [Deliver 100 SIGCHLD false; Run 100 102; Run 100 0; Run 100 101; Run 100 0; Run 100 0; Run 100 0].
Definition after_two : state label := after body two_clients (boot 100 (main true)).

Lemma forking_server_reaps_witness :
  size (procs after_two) = 1%nat ∧
  dead (proc_of after_two 100) = None ∧
  (stack (proc_of after_two 100) = [] → pending (proc_of after_two 100) = ∅ → no_zombie 100 after_two = true).
Proof.
  split; [vm_compute; reflexivity|].
  apply (forking_server_reaps true 100); [reflexivity|].
  apply (exec_all_reach body internal two_clients); vm_compute; reflexivity.
Defined.

(** Without [SA_RESTART], a child that ends while the parent waits in [accept]
    makes [accept] fail, and the parent forks a child for descriptor -1. *)
Definition interrupted : list choice :=
  [Run 100 0] ++ client 4 101 ++ [Run 100 0] ++ child_ends 101 ++
  [Deliver 100 SIGCHLD true; Run 100 101; Run 100 0; Run 100 0; Run 100 0; Run 100 0; Run 100 0; Run 100 102].
Definition after_interrupt : state label := after body interrupted (boot 100 (main false)).

Theorem interrupted_accept_forks :
  rtc (step body internal) (boot 100 (main false)) after_interrupt ∧
  current (proc_of after_interrupt 102) = serve (-1) ∧ dead (proc_of after_interrupt 102) = None.
Proof.
  split; [|split; vm_compute; reflexivity].
  apply (exec_all_reach body internal interrupted); vm_compute; reflexivity.
Qed.
