(* ===== verification/Rfork.v ===== *)
(** * A fork that sleeps

    Models [Fork] of [csapp/exceptional_control_flow/rfork.c]: to expose races, it
    lets either the parent or the child sleep, for a random time.  The choice and
    the time are computed with [double]s; a non-negative [double] is a fraction
    here, and [rnd] rounds a quotient to 53 significant bits, ties to even. *)

From S2P Require Import Prelude Sys Process.

Definition MAX_SLEEP : Z := 100000.

(** The integer nearest to [a / b]. *)
Definition nearest_even (a b : Z) : Z :=
  let q := a / b in
  let twice := 2 * (a mod b) in
  if twice <? b then q else if b <? twice then q + 1 else if Z.even q then q else q + 1.

(** [m * 2 ^ e], as a fraction. *)
Definition up (e : Z) : Z := 2 ^ Z.max 0 e.
Definition down (e : Z) : Z := 2 ^ Z.max 0 (- e).

(** The exponent of the leading bit of [n / d]. *)
Definition floor_log2 (n d : Z) : Z :=
  let k := Z.log2 n - Z.log2 d in
  if n * down k <? d * up k then k - 1 else k.

Definition rnd (n d : Z) : Z * Z :=
  if n =? 0 then (0, 1)
  else
    let e := floor_log2 n d - 52 in
    (nearest_even (n * down e) (d * up e) * up e, down e).

(** The macro [CONVERT], the sum with 0.5, the product with [MAX_SLEEP], and the
    conversion to [unsigned]. *)
Definition CONVERT (val : Z) : Z * Z := rnd val RAND_MAX.
Definition plus_half (x : Z * Z) : Z * Z := rnd (2 * x.1 + x.2) (2 * x.2).
Definition times_max (x : Z * Z) : Z * Z := rnd (x.1 * MAX_SLEEP) x.2.
Definition to_unsigned (x : Z * Z) : Z := u32 (Z.quot x.1 x.2).

Definition boll_of (r : Z) : Z := to_unsigned (plus_half (CONVERT r)).
Definition secs_of (r : Z) : Z := to_unsigned (times_max (CONVERT r)).

(** What follows the real [fork]. *)
Definition settle {L} (boll secs pid : Z) (k : Z → code L) : code L :=
  if pid <? 0 then k pid
  else if pid =? 0 then
    if negb (boll =? 0) then _ ⇐ Usleep secs; k pid else k pid
  else
    if boll =? 0 then _ ⇐ Usleep secs; k pid else k pid.

Definition Fork {L} (k : Z → code L) : code L :=
  usec ⇐ Gettimeofday;
  _ ⇐ Srand usec;
  r1 ⇐ Rand;
  let boll := boll_of r1 in
  r2 ⇐ Rand;
  let secs := secs_of r2 in
  pid ⇐ Process.Fork;
  settle boll secs pid k.

(** ** Rounding keeps to representable bounds *)

Lemma nearest_even_le a b t : 0 < b → a ≤ t * b → nearest_even a b ≤ t.
Proof.
  intros Hb H. unfold nearest_even.
  pose proof (Z.div_mod a b). pose proof (Z.mod_pos_bound a b Hb).
  repeat case_bool; breflect; nia.
Qed.

Lemma nearest_even_ge a b t : 0 < b → t * b ≤ a → t ≤ nearest_even a b.
Proof.
  intros Hb H. unfold nearest_even.
  pose proof (Z.div_mod a b). pose proof (Z.mod_pos_bound a b Hb).
  repeat case_bool; breflect; nia.
Qed.

Lemma up_pos e : 0 < up e.
Proof. apply Z.pow_pos_nonneg; lia. Qed.
Lemma down_pos e : 0 < down e.
Proof. apply Z.pow_pos_nonneg; lia. Qed.

Lemma floor_log2_le n d : 0 < n → 0 < d → d * up (floor_log2 n d) ≤ n * down (floor_log2 n d).
Proof.
  intros Hn Hd. unfold floor_log2. set (k := Z.log2 n - Z.log2 d). case_bool; breflect; [|done].
  destruct (Z.log2_spec n Hn) as [Hn1 _], (Z.log2_spec d Hd) as [_ Hd1].
  pose proof (Z.log2_nonneg n). pose proof (Z.log2_nonneg d).
  assert (2 ^ Z.log2 n * down (k - 1) = 2 ^ Z.succ (Z.log2 d) * up (k - 1)) as E.
  { unfold up, down. rewrite <- !Z.pow_add_r by lia. f_equal. lia. }
  pose proof (up_pos (k - 1)). pose proof (down_pos (k - 1)). nia.
Qed.

(** A quotient below [c / 2 ^ f] has its last bit at [2 ^ - f] or lower. *)
Lemma exponent_low n d c f :
  0 < n → 0 < d → 0 ≤ f → c ≤ 2 ^ 53 → n * 2 ^ f < c * d → floor_log2 n d - 52 ≤ - f.
Proof.
  intros Hn Hd Hf Hc H. pose proof (floor_log2_le n d Hn Hd) as Hl. set (k := floor_log2 n d) in *.
  destruct (decide (k - 52 ≤ - f)) as [|Hk]; [done|exfalso].
  assert (2 ^ 53 * down k ≤ up k * 2 ^ f).
  { unfold up, down. rewrite <- !Z.pow_add_r by lia. apply Z.pow_le_mono_r; lia. }
  pose proof (up_pos k). pose proof (down_pos k). assert (0 < 2 ^ f) by (apply Z.pow_pos_nonneg; lia). 
  assert (d * up k * 2 ^ f ≤ n * down k * 2 ^ f) by (apply Z.mul_le_mono_nonneg_r; lia).
  assert (n * 2 ^ f * down k < c * d * down k) by (apply Z.mul_lt_mono_pos_r; lia).
  assert (c * (d * down k) ≤ 2 ^ 53 * (d * down k)) by (apply Z.mul_le_mono_nonneg_r; lia).
  assert (d * (2 ^ 53 * down k) ≤ d * (up k * 2 ^ f)) by (apply Z.mul_le_mono_nonneg_l; lia).
  lia.
Qed.

Lemma rnd_pos n d : 0 < (rnd n d).2.
Proof. unfold rnd. case_bool; [done|]. apply down_pos. Qed.

Lemma down_split e f : 0 ≤ f → e ≤ - f → up e = 1 ∧ down e = 2 ^ f * 2 ^ (- e - f).
Proof.
  intros Hf He. unfold up, down. rewrite Z.max_l, Z.max_r, <- Z.pow_add_r by lia. split; [done|]. f_equal. lia.
Qed.

Lemma rnd_le n d c f :
  0 ≤ n → 0 < d → 0 ≤ f → 0 ≤ c < 2 ^ 53 → n * 2 ^ f ≤ c * d → (rnd n d).1 * 2 ^ f ≤ c * (rnd n d).2.
Proof.
  intros Hn Hd Hf Hc H. unfold rnd. destruct (Z.eqb_spec n 0) as [->|Hn0]; [cbn; lia|]. cbn [fst snd].
  pose proof (exponent_low n d (c + 1) f ltac:(lia) Hd Hf ltac:(lia) ltac:(lia)) as He.
  destruct (down_split _ f Hf He) as [-> ->]. set (g := 2 ^ (- (floor_log2 n d - 52) - f)).
  assert (0 < g) by (apply Z.pow_pos_nonneg; lia). assert (0 < 2 ^ f) by (apply Z.pow_pos_nonneg; lia).
  rewrite !Z.mul_1_r. enough (nearest_even (n * (2 ^ f * g)) d ≤ c * g) by nia.
  apply nearest_even_le; [done|]. nia.
Qed.

Lemma rnd_ge n d c f :
  0 ≤ n → 0 < d → 0 ≤ f → n * 2 ^ f < 2 ^ 53 * d → c * d ≤ n * 2 ^ f → c * (rnd n d).2 ≤ (rnd n d).1 * 2 ^ f.
Proof.
  intros Hn Hd Hf Hc H. unfold rnd. destruct (Z.eqb_spec n 0) as [->|Hn0]; [cbn; nia|]. cbn [fst snd].
  pose proof (exponent_low n d (2 ^ 53) f ltac:(lia) Hd Hf ltac:(lia) Hc) as He.
  destruct (down_split _ f Hf He) as [-> ->]. set (g := 2 ^ (- (floor_log2 n d - 52) - f)).
  assert (0 < g) by (apply Z.pow_pos_nonneg; lia). assert (0 < 2 ^ f) by (apply Z.pow_pos_nonneg; lia).
  rewrite !Z.mul_1_r. enough (c * g ≤ nearest_even (n * (2 ^ f * g)) d) by nia.
  apply nearest_even_ge; [done|]. nia.
Qed.

(** [CONVERT] maps into the unit interval. *)
Lemma CONVERT_unit r : 0 ≤ r ≤ RAND_MAX → 0 ≤ (CONVERT r).1 ≤ (CONVERT r).2.
Proof.
  intros Hr. unfold RAND_MAX in Hr. unfold CONVERT.
  pose proof (rnd_le r RAND_MAX 1 0). pose proof (rnd_ge r RAND_MAX 0 0). unfold RAND_MAX in *. lia.
Qed.

Lemma to_unsigned_small x t : 0 ≤ x.1 → 0 < x.2 → x.1 ≤ t * x.2 → t < 2 ^ 32 → 0 ≤ to_unsigned x ≤ t.
Proof.
  intros H0 Hd Ht Hs. unfold to_unsigned. rewrite Z.quot_div_nonneg by lia.
  pose proof (Z.div_pos x.1 x.2 H0 Hd). assert (x.1 / x.2 ≤ t) by (apply Z.div_le_upper_bound; lia).
  rewrite u32_small; lia.
Qed.

(** The time to sleep is at most [MAX_SLEEP]. *)
Lemma secs_bound r : 0 ≤ r ≤ RAND_MAX → 0 ≤ secs_of r ≤ MAX_SLEEP.
Proof.
  intros Hr. unfold secs_of, times_max. pose proof (CONVERT_unit r Hr) as Hc.
  pose proof (rnd_pos r RAND_MAX : 0 < (CONVERT r).2) as Hp. destruct (CONVERT r) as [n d]. cbn [fst snd] in *.
  unfold MAX_SLEEP. pose proof (rnd_pos (n * 100000) d).
  apply to_unsigned_small; try done.
  - pose proof (rnd_ge (n * 100000) d 0 0). lia.
  - pose proof (rnd_le (n * 100000) d 100000 0). lia.
Qed.

(** The coin is 1 for the upper half of the range of [rand]. *)
Lemma boll_value r : 0 ≤ r ≤ RAND_MAX → boll_of r = if 2 ^ 30 <=? r then 1 else 0.
Proof.
  intros Hr. unfold boll_of, plus_half. pose proof (CONVERT_unit r Hr) as Hc.
  pose proof (rnd_pos r RAND_MAX : 0 < (CONVERT r).2) as Hp.
  assert (2 ^ 30 ≤ r → (CONVERT r).2 ≤ 2 * (CONVERT r).1) as Hup.
  { intros H. pose proof (rnd_ge r RAND_MAX 1 1) as Hx. unfold CONVERT, RAND_MAX in *. lia. }
  assert (r < 2 ^ 30 → (CONVERT r).1 * 2 ^ 32 ≤ (2 ^ 31 - 1) * (CONVERT r).2) as Hlo.
  { intros H. pose proof (rnd_le r RAND_MAX (2 ^ 31 - 1) 32) as Hx. unfold CONVERT, RAND_MAX in *. lia. }
  destruct (CONVERT r) as [n d]. cbn [fst snd] in *. set (x := 2 * n + d). set (y := 2 * d).
  pose proof (rnd_pos x y) as Hq. pose proof (rnd_ge x y 0 0) as H0. pose proof (rnd_le x y 3 1) as H3.
  unfold to_unsigned. rewrite Z.quot_div_nonneg by lia. case_bool; breflect.
  - specialize (Hup ltac:(lia)). pose proof (rnd_ge x y 1 0) as H1.
    assert ((rnd x y).1 / (rnd x y).2 = 1) as ->; [|done]. symmetry. apply Z.div_unique with ((rnd x y).1 - (rnd x y).2); lia.
  - specialize (Hlo ltac:(lia)). pose proof (rnd_le x y (2 ^ 32 - 1) 32) as H1. rewrite Z.div_small; [done|]. lia.
Qed.

(** ** The calls of [Fork] *)

Definition code_of {L} (s : state L) (p : Z) : option (code L) := current <$> procs s !! p.

Section run.
Context {L : Type} (body : L → code L).

(** One call of a process that has nothing to handle: its result is the next
    state of that process. *)
Lemma exec_own p (q : proc L) r k arg s :
  procs s !! p = Some q → alive q = true → deliverable q = ∅ → current q = Call r k →
  exec body (Run p arg) s = exec_call p q r k arg s.
Proof. intros Hp Ha Hd Hc. cbn. rewrite Hp, Ha, Hd. cbn. unfold exec_code. by rewrite Hc. Qed.

Lemma update_same p (q q' : proc L) s : update p q' (update p q s) = update p q' s.
Proof. unfold update. cbn. by rewrite insert_insert_eq. Qed.

(** The four calls before the real [fork] leave the process with the coin and the
    time it drew. *)
Lemma Fork_draws p (q : proc L) k usec x r1 r2 s :
  procs s !! p = Some q → alive q = true → deliverable q = ∅ → current q = Fork k →
  0 ≤ usec < 1000000 → 0 ≤ r1 ≤ RAND_MAX → 0 ≤ r2 ≤ RAND_MAX →
  exec_all body [Run p usec; Run p x; Run p r1; Run p r2] s =
    Some (update p (set_current q (pid ⇐ Process.Fork; settle (boll_of r1) (secs_of r2) pid k)) s).
Proof.
  intros Hp Ha Hd Hc Hu H1 H2. cbn [exec_all]. rewrite (exec_own p q _ _ usec s Hp Ha Hd Hc). cbn [exec_call].
  rewrite (proj2 (Z.leb_le 0 usec)), (proj2 (Z.ltb_lt usec 1000000)) by lia. cbn [andb].
  erewrite exec_own; [|apply lookup_insert_eq|done|done|done]. cbn [exec_call]. rewrite update_same.
  erewrite exec_own; [|apply lookup_insert_eq|done|done|done]. cbn [exec_call].
  rewrite (proj2 (Z.leb_le 0 r1)), (proj2 (Z.leb_le r1 RAND_MAX)) by lia. cbn [andb]. rewrite update_same.
  erewrite exec_own; [|apply lookup_insert_eq|done|done|done]. cbn [exec_call].
  rewrite (proj2 (Z.leb_le 0 r2)), (proj2 (Z.leb_le r2 RAND_MAX)) by lia. cbn [andb]. by rewrite update_same.
Qed.
End run.

Lemma exec_all_app {L} (body : L → code L) l l' s s1 :
  exec_all body l s = Some s1 → exec_all body (l ++ l') s = exec_all body l' s1.
Proof.
  revert s. induction l as [|ch l IH]; intros s; cbn [exec_all app]; [by intros [= ->]|].
  destruct (exec body ch s); [by apply IH|done].
Qed.

(** C38: [Fork] of [rfork.c] puts exactly one of the two processes to sleep.  A
    process at a call of [Fork] that is not interrupted by a signal makes five
    calls.  Whatever [gettimeofday] and the two calls of [rand] return, if the real
    [fork] then creates the process [pid], either the child is about to sleep and
    the parent returns with [pid], or the parent is about to sleep and the child
    returns with 0, as the first random number is in the upper or lower half of its
    range; the sleep lasts 0 to [MAX_SLEEP] microseconds; the arithmetic is that of
    [double]s.  When [fork] fails, nobody sleeps and -1 is returned. *)
Theorem rfork_one_sleeps {L} (body : L → code L) k p q s usec x r1 r2 pid :
  procs s !! p = Some q → alive q = true → deliverable q = ∅ → current q = Fork k →
  0 ≤ usec < 1000000 → 0 ≤ r1 ≤ RAND_MAX → 0 ≤ r2 ≤ RAND_MAX →
  pid = -1 ∨ INIT < pid ≤ INT_MAX ∧ procs s !! pid = None →
  ∃ s' secs, exec_all body [Run p usec; Run p x; Run p r1; Run p r2; Run p pid] s = Some s' ∧
    0 ≤ secs ≤ MAX_SLEEP ∧
    (if pid =? -1 then code_of s' p = Some (k (-1)) ∧ dom (procs s') = dom (procs s)
     else (code_of s' p, code_of s' pid) =
       if 2 ^ 30 <=? r1 then (Some (k pid), Some (_ ⇐ Usleep secs; k 0))
       else (Some (_ ⇐ Usleep secs; k pid), Some (k 0))) ∧
    ∀ p', p' ≠ p → p' ≠ pid → procs s' !! p' = procs s !! p'.
Proof.
  intros Hp Ha Hd Hc Hu H1 H2 Hpid.
  change [Run p usec; Run p x; Run p r1; Run p r2; Run p pid]
    with ([Run p usec; Run p x; Run p r1; Run p r2] ++ [Run p pid]).
  rewrite (exec_all_app _ _ _ _ _ (Fork_draws body p q k usec x r1 r2 s Hp Ha Hd Hc Hu H1 H2)). cbn [exec_all].
  erewrite exec_own; [|apply lookup_insert_eq|done|done|done]. cbn [exec_call].
  rewrite (boll_value r1 H1). pose proof (secs_bound r2 H2) as Hsecs.
  destruct Hpid as [->|[Hrange Hnew]].
  - rewrite Z.eqb_refl. eexists _, (secs_of r2). split; [done|]. split; [done|].
    unfold code_of. cbn. rewrite lookup_insert_eq. cbn. split; [split; [done|]|].
    + rewrite !dom_insert_L. assert (p ∈ dom (procs s)) by (by apply elem_of_dom_2 in Hp). set_solver.
    + intros p' ? _. by rewrite !lookup_insert_ne by done.
  - assert (pid ≠ p) as Hne by (intros ->; congruence). unfold INIT, INT_MAX in *.
    rewrite (proj2 (Z.eqb_neq pid (-1))), (proj2 (Z.ltb_lt 1 pid)), (proj2 (Z.leb_le pid _)) by lia.
    cbn [procs update andb]. rewrite (lookup_insert_ne _ p pid) by done.
    rewrite Hnew, bool_decide_eq_true_2 by done.
    eexists _, (secs_of r2). split; [done|]. split; [done|]. unfold code_of. cbn.
    rewrite lookup_insert_eq, (lookup_insert_ne _ p pid), lookup_insert_eq by done. cbn. split.
    + unfold settle. rewrite (proj2 (Z.ltb_ge pid 0)), (proj2 (Z.eqb_neq pid 0)) by lia.
      by destruct (2 ^ 30 <=? r1).
    + intros p' ? ?. by rewrite !lookup_insert_ne by done.
Qed.

(** A parent with the coin 0 and the longest sleep. *)
Definition demo_fork : state unit := boot 7 (Fork (λ v, Exit v)).

Lemma rfork_one_sleeps_witness :
  ∃ s' secs, exec_all (λ _ : unit, Ret) [Run 7 5; Run 7 0; Run 7 1073741823; Run 7 RAND_MAX; Run 7 8] demo_fork = Some s' ∧
    0 ≤ secs ≤ MAX_SLEEP ∧
    (code_of s' 7, code_of s' 8) = (Some (_ ⇐ Usleep secs; Exit 8), Some (Exit 0)) ∧
    ∀ p', p' ≠ 7 → p' ≠ 8 → procs s' !! p' = procs demo_fork !! p'.
Proof.
  apply (rfork_one_sleeps (λ _ : unit, Ret) (λ v, Exit v) 7
    (mkProc INIT None (Fork (λ v, Exit v)) [] ∅ ∅ ∅ 0 false None ∅) demo_fork 5 0 1073741823 RAND_MAX 8);
    try reflexivity; try (by vm_compute). right. by vm_compute.
Defined.
