(* ===== verification/Signals.v ===== *)
(** * Small programs around signals and jumps

    Models [alarm.c], [sigint1.c], [kill.c] and [setjmp.c] of
    [csapp/exceptional_control_flow]. *)

From S2P Require Import Prelude Sys Process Family.

(** A process alone in the system. *)
Definition alone {L} (r : Z) (q : proc L) (l : list act) : state L :=
  mkState {[ r := q ]} (pair r <$> l).

Lemma own_alone {L} r (q : proc L) l : own r (alone r q l) = l.
Proof.
  unfold own, alone. cbn. induction l as [|a l IH]; [done|].
  change (pair r <$> a :: l) with ([(r, a)] ++ (pair r <$> l)). rewrite by_proc_app, by_proc_own, IH. done.
Qed.

Lemma proc_of_alone {L} r (q : proc L) l : proc_of (alone r q l) r = q.
Proof. unfold proc_of, alone. cbn. by rewrite lookup_singleton_eq. Qed.

Lemma update_alone {L} r (q q' : proc L) l : update r q' (alone r q l) = alone r q' l.
Proof. unfold update, alone. cbn. by rewrite insert_singleton_eq. Qed.

Lemma record_alone {L} r (q : proc L) l a : record r a (alone r q l) = alone r q (l ++ [a]).
Proof. unfold record, alone. cbn. by rewrite fmap_app. Qed.

Lemma terminate_alone {L} r (q q' : proc L) l st :
  parent q' = INIT → r ≠ INIT → terminate r st q' (alone r q l) = alone r (set_dead q' st) l.
Proof.
  intros Hp Hr. unfold terminate, alone. cbn. rewrite Hp, map_fmap_singleton, insert_singleton_eq, alter_singleton_ne by done. done.
Qed.

Lemma lookup_alone {L} r (q : proc L) l p : procs (alone r q l) !! p = if decide (p = r) then Some q else None.
Proof. unfold alone. cbn. case_decide; subst; [by rewrite lookup_singleton_eq|by rewrite lookup_singleton_ne]. Qed.

Module Alarm.
Inductive label := Handler | Forever.

Definition handler : code label :=
  printf "BEEP\n" [];
  beeps ⇐ Load "beeps";
  _ ⇐ Store "beeps" (beeps + 1);
  if beeps + 1 <? 5 then _ ⇐ Process.Alarm 1; Ret
  else printf "BOOM!\n" []; Exit 0.

Definition main (bsd : bool) : code label :=
  _ ⇐ Install SIGALRM Handler bsd;
  _ ⇐ Process.Alarm 1;
  Jump Forever.

Definition body (l : label) : code label :=
  match l with Handler => handler | Forever => Jump Forever end.
End Alarm.

Module Sigint1.
Inductive label := Handler.

Definition handler : code label :=
  printf "Caught SIGINT\n" [];
  Exit 0.

Definition main (bsd : bool) : code label :=
  h ⇐ Install SIGINT Handler bsd;
  if h =? SIG_ERR then unix_error "signal error"
  else _ ⇐ Pause; Exit 0.

Definition body (l : label) : code label := match l with Handler => handler end.
End Sigint1.

(** Programs without loops and handlers have no labels. *)
Definition no_label (l : Empty_set) : code Empty_set := match l with end.

Module Kill.
Definition child : code Empty_set :=
  _ ⇐ Pause;
  printf "control should never reach here!\n" [];
  Exit 0.

Definition main : code Empty_set :=
  pid ⇐ Fork;
  if pid =? 0 then child
  else _ ⇐ Process.Kill pid SIGKILL; Exit 0.
End Kill.

Module Jumps.
Section program.
(** The initial values of the two globals; the program has 0 and 1. *)
Context (error1 error2 : Z).

Definition bar (k : code Empty_set) : code Empty_set :=
  if negb (error2 =? 0) then Longjmp 2 else k.

Definition foo (k : code Empty_set) : code Empty_set :=
  if negb (error1 =? 0) then Longjmp 1 else bar k.

Definition main : code Empty_set :=
  Setjmp (λ rc,
    if rc =? 0 then foo (Exit 0)
    else if rc =? 1 then printf "Detected an error1 condition in foo\n" []; Exit 0
    else if rc =? 2 then printf "Detected an error2 condition in foo\n" []; Exit 0
    else printf "Unknown error condition in foo\n" []; Exit 0).
End program.
Definition error1 : Z := 0.
Definition error2 : Z := 1.
End Jumps.

(** ** The alarm *)
Section alarm.
Import Alarm.
Context (bsd : bool) (r : Z) (r_pos : INIT < r).
Implicit Types (q : proc label) (l : list act).

Definition BEEP : act := Printed "BEEP\n" [].
Definition BOOM : act := Printed "BOOM!\n" [].
Definition beeping (n : nat) : list act := replicate n BEEP.
Arguments beeping : simpl never.

Definition counter (n : nat) q : Prop := default 0 (statics q !! "beeps"%string) = Z.of_nat n.

(** The next signal will come: it is pending, or the clock runs. *)
Definition awaiting q : Prop :=
  (armed q = true ∧ pending q = ∅) ∨ (armed q = false ∧ pending q = {[SIGALRM]}).

Definition store_beep (n : Z) : code label :=
  _ ⇐ Store "beeps" (n + 1);
  if n + 1 <? 5 then _ ⇐ Process.Alarm 1; Ret else printf "BOOM!\n" []; Exit 0.

Definition check_beep (n : Z) : code label :=
  if n + 1 <? 5 then _ ⇐ Process.Alarm 1; Ret else printf "BOOM!\n" []; Exit 0.

Inductive main_at : proc label → list act → Prop :=
| Install_ q : current q = main bsd → armed q = false → pending q = ∅ → handlers q = ∅ → counter 0 q → main_at q []
| Arm q : current q = (_ ⇐ Process.Alarm 1; Jump Forever) → armed q = false → pending q = ∅ →
    handlers q = {[SIGALRM := (Handler, bsd)]} → counter 0 q → main_at q []
| Spin q n : current q = Jump Forever → awaiting q → handlers q = {[SIGALRM := (Handler, bsd)]} →
    counter n q → (n < 5)%nat → main_at q (beeping n).

(** In the handler, after [n] beeps, before or behind its output. *)
Inductive handler_at : proc label → list act → Prop :=
| Beep q n : current q = handler → armed q = false → pending q = ∅ → counter n q → (n < 5)%nat → handler_at q (beeping n)
| Count q n : current q = (b ⇐ Load "beeps"; store_beep b) → armed q = false → pending q = ∅ → counter n q →
    (n < 5)%nat → handler_at q (beeping (S n))
| Bump q n : current q = store_beep (Z.of_nat n) → armed q = false → pending q = ∅ → counter n q → (n < 5)%nat →
    handler_at q (beeping (S n))
| Rearm q n : current q = check_beep (Z.of_nat n) → armed q = false → pending q = ∅ → counter (S n) q → (n < 5)%nat →
    handler_at q (beeping (S n))
| Return_ q n : current q = Ret → awaiting q → counter n q → (n < 5)%nat → handler_at q (beeping n)
| Boom q : current q = Exit 0 → armed q = false → pending q = ∅ → handler_at q (beeping 5 ++ [BOOM]).

Inductive alarm_at : proc label → list act → Prop :=
| InMain q l : dead q = None → stack q = [] → mask q = ∅ → main_at q l → alarm_at q l
| InHandler q l : dead q = None → stack q = [(Jump Forever, ∅)] → mask q = {[SIGALRM]} →
    handlers q = {[SIGALRM := (Handler, bsd)]} → handler_at q l → alarm_at q l
| Over q : dead q = Some 0 → alarm_at q (beeping 5 ++ [BOOM]).

Definition alarm_inv (s : state label) : Prop := ∃ q l, parent q = INIT ∧ alarm_at q l ∧ s = alone r q l.

Lemma counter_small n : (n < 5)%nat → (Z.of_nat n + 1 <? 5) = (n <? 4)%nat.
Proof. intros H. destruct (Z.ltb_spec (Z.of_nat n + 1) 5), (Nat.ltb_spec n 4); lia || done. Qed.

Lemma beeping_S n : beeping (S n) = beeping n ++ [BEEP].
Proof. unfold beeping. rewrite replicate_S_end. done. Qed.

Lemma alarm_main_run q l arg s' :
  parent q = INIT → dead q = None → stack q = [] → mask q = ∅ → main_at q l → deliverable q = ∅ →
  exec_code body r q arg (alone r q l) = Some s' → alarm_inv s'.
Proof.
  intros Hpa Hd Hs Hm Hat Hdel E. unfold exec_code in E.
  destruct Hat as [q Hc Ha Hp Hh Hn|q Hc Ha Hp Hh Hn|q n Hc Haw Hh Hn Hlt]; rewrite Hc in E; cbn in E;
    injection E as <-; rewrite update_alone; eexists _, _; (split; [|split; [|reflexivity]]; [done|]).
  - apply InMain; try done. apply Arm; try done. cbn. by rewrite Hh.
  - apply InMain; try done. apply (Spin _ 0); try done; [by left|lia].
  - apply InMain; try done. by apply (Spin _ n).
Qed.

Lemma alarm_handler_run q l arg s' :
  parent q = INIT → dead q = None → stack q = [(Jump Forever, ∅)] → mask q = {[SIGALRM]} →
  handlers q = {[SIGALRM := (Handler, bsd)]} → handler_at q l →
  exec_code body r q arg (alone r q l) = Some s' → alarm_inv s'.
Proof.
  intros Hpa Hd Hs Hm Hh Hat E. unfold exec_code in E.
  assert (∀ q' l', parent q' = INIT → dead q' = None → stack q' = stack q → mask q' = mask q → handlers q' = handlers q →
    handler_at q' l' → alarm_inv (alone r q' l')) as Hstay.
  { intros q' l' ? ? H1 H2 H3 ?. exists q', l'. split_and!; try done. apply InHandler; congruence || done. }
  destruct Hat as [q n Hc Ha Hp Hn Hlt|q n Hc Ha Hp Hn Hlt|q n Hc Ha Hp Hn Hlt|q n Hc Ha Hp Hn Hlt|q n Hc Haw Hn Hlt|q Hc Ha Hp];
    rewrite Hc in E.
  - injection E as <-. rewrite update_alone, record_alone. rewrite <- beeping_S. apply Hstay; try done. by apply Count.
  - cbn in E. rewrite update_alone, Hn in E. injection E as <-. apply Hstay; try done. by apply Bump.
  - cbn in E. injection E as <-. rewrite update_alone. apply Hstay; try done. apply Rearm; try done.
    unfold counter. cbn. rewrite lookup_insert_eq. cbn. lia.
  - unfold check_beep in E. rewrite counter_small in E by done. destruct (Nat.ltb_spec n 4).
    + cbn in E. injection E as <-. rewrite update_alone. apply Hstay; try done. apply (Return_ _ (S n)); try done; [by left|lia].
    + injection E as <-. rewrite update_alone, record_alone. replace (S n) with 5%nat by lia. apply Hstay; try done. by apply Boom.
  - rewrite Hs in E. injection E as <-. rewrite update_alone. eexists _, _. split; [|split; [|reflexivity]]; [done|].
    apply InMain; try done. by apply Spin.
  - injection E as <-. rewrite terminate_alone by (done || lia). eexists _, _. split; [|split; [|reflexivity]]; [done|].
    by apply Over.
Qed.

(** A pending alarm implies that [main] is in its loop, or the handler about to
    return. *)
Lemma alarm_deliver q l sig b s' :
  parent q = INIT → alarm_at q l → dead q = None → sig ∈ deliverable q →
  exec_deliver body r q sig b (alone r q l) = Some s' → alarm_inv s'.
Proof.
  intros Hpa Hat Hd Hsig E. unfold deliverable in Hsig.
  destruct Hat as [q l _ Hs Hm Hmain|q l _ Hs Hm Hh Hhan|q Hd']; [| |congruence].
  - destruct Hmain as [q Hc Ha Hp Hh Hn|q Hc Ha Hp Hh Hn|q n Hc Haw Hh Hn Hlt]; [set_solver..|].
    destruct Haw as [[Ha Hp]|[Ha Hp]]; [set_solver|]. assert (sig = SIGALRM) as -> by set_solver.
    unfold exec_deliver in E. cbn in E. rewrite Hh, lookup_singleton_eq, Hc in E. cbn in E. destruct b; [done|]. cbn in E.
    injection E as <-. rewrite update_alone. eexists _, _. split; [|split; [|reflexivity]]; [done|].
    apply InHandler; cbn; rewrite ?Hs, ?Hm; try done. apply Beep; cbn; try done. rewrite Hp. set_solver.
  - assert (pending q ⊆ {[SIGALRM]}) as Hsub.
    { destruct Hhan as [? ? ? ? Hp|? ? ? ? Hp|? ? ? ? Hp|? ? ? ? Hp|? ? ? [[_ Hp]|[_ Hp]]|? ? ? Hp]; rewrite Hp; set_solver. }
    set_solver.
Qed.

Lemma alarm_clock q l :
  parent q = INIT → alarm_at q l → dead q = None → armed q = true →
  alarm_inv (update r (send SIGALRM (set_armed q false)) (alone r q l)).
Proof.
  intros Hpa Hat Hd Har. rewrite update_alone.
  assert (∀ q, dead q = None → send SIGALRM q = set_pending q ({[SIGALRM]} ∪ pending q)) as Hsend.
  { intros q' Hd'. unfold send, alive. rewrite bool_decide_eq_true_2 by done. cbn. by rewrite andb_false_r. }
  rewrite Hsend by done. eexists _, _. split; [|split; [|reflexivity]]; [done|].
  destruct Hat as [q l _ Hs Hm Hmain|q l _ Hs Hm Hh Hhan|q Hd']; [| |congruence].
  - destruct Hmain as [q Hc Ha Hp Hh Hn|q Hc Ha Hp Hh Hn|q n Hc Haw Hh Hn Hlt]; [congruence..|].
    apply InMain; try done. apply Spin; try done. right. cbn. split; [done|].
    destruct Haw as [[_ ->]|[Ha _]]; [set_solver|congruence].
  - destruct Hhan as [? ? ? ? Hp|? ? ? ? Hp|? ? ? ? Hp|? ? ? ? Hp|q n Hc Haw Hn Hlt|? ? ? Hp]; try congruence.
    apply InHandler; try done. apply Return_; try done. right. cbn. split; [done|].
    destruct Haw as [[_ ->]|[Ha _]]; [set_solver|congruence].
Qed.

Lemma alarm_step ch s s' :
  internal ch = true → alarm_inv s → exec body ch s = Some s' → alarm_inv s'.
Proof.
  intros Hch (q & l & Hpa & Hat & ->) E. unfold exec in E.
  destruct ch as [p arg|p sig b|p|p sig]; [..|done]; rewrite lookup_alone in E; case_decide; try done; subst p;
    destruct (alive q) eqn:Hal; cbn in E; try done; apply bool_decide_eq_true in Hal;
    match type of E with (if ?b then _ else _) = _ => destruct b eqn:Hg; [|done] end.
  - apply bool_decide_eq_true in Hg. destruct Hat; [by eapply alarm_main_run|by eapply alarm_handler_run|congruence].
  - apply bool_decide_eq_true in Hg. by eapply alarm_deliver.
  - injection E as <-. by apply alarm_clock.
Qed.

Lemma alarm_reach s : rtc (step body internal) (boot r (main bsd)) s → alarm_inv s.
Proof.
  apply reach_invariant; [|intros; by eapply alarm_step].
  eexists _, []. split; [|split; [|reflexivity]]; [done|]. apply InMain; try done. by apply Install_.
Qed.

(** A measure that some step decreases. *)
Definition stage q : nat :=
  match current q with
  | Call (Load _) _ => 19
  | Call (Install _ _ _) _ | Call (Store _ _) _ => 18
  | Call (Process.Alarm _) _ => 17
  | Ret => 16
  | Jump _ => if armed q then 15 else 14
  | Printf _ _ _ => 10
  | _ => 1
  end.
Definition remaining q l : nat := 20 * (6 - length l) + stage q.

Lemma exec_alone q l arg :
  dead q = None → deliverable q = ∅ → exec body (Run r arg) (alone r q l) = exec_code body r q arg (alone r q l).
Proof.
  intros Hd Hp. unfold exec. rewrite lookup_alone, decide_True by done. unfold alive.
  by rewrite Hd, Hp, !bool_decide_eq_true_2.
Qed.

Lemma length_beeping n : length (beeping n) = n.
Proof. apply length_replicate. Qed.

Definition advances q l : Prop :=
  ∃ ch q' l', internal ch = true ∧ exec body ch (alone r q l) = Some (alone r q' l') ∧
    (dead q' ≠ None ∨ (remaining q' l' < remaining q l)%nat).

Lemma advance_main q l : dead q = None → mask q = ∅ → main_at q l → advances q l.
Proof.
  intros Hd Hm Hmain. destruct Hmain as [q Hc Ha Hp Hh Hn|q Hc Ha Hp Hh Hn|q n Hc [[Ha Hp]|[Ha Hp]] Hh Hn Hlt];
    unfold advances, remaining, stage; rewrite Hc, ?length_beeping.
  - exists (Run r 0). rewrite exec_alone by (unfold deliverable; set_solver). unfold exec_code. rewrite Hc. cbn.
    rewrite update_alone. eexists _, _. split_and!; [done..|]. right. cbn. lia.
  - exists (Run r 0). rewrite exec_alone by (unfold deliverable; set_solver). unfold exec_code. rewrite Hc. cbn.
    rewrite update_alone. eexists _, _. split_and!; [done..|]. right. cbn. lia.
  - exists (Clock r). unfold exec, alive. rewrite lookup_alone, decide_True, Hd, Ha by done. cbn. rewrite update_alone.
    eexists _, _. split_and!; [done..|]. right. rewrite length_beeping. unfold send. case_bool; cbn; rewrite Hc; lia.
  - exists (Deliver r SIGALRM false). unfold exec, alive. rewrite lookup_alone, decide_True, Hd by done.
    unfold deliverable. rewrite Hp, Hm, !bool_decide_eq_true_2 by set_solver. cbn.
    unfold exec_deliver. cbn. rewrite Hh, lookup_singleton_eq. cbn. rewrite update_alone.
    eexists _, _. split_and!; [done..|]. right. rewrite length_beeping, Ha. cbn. lia.
Qed.

Lemma advance_handler q l :
  parent q = INIT → dead q = None → stack q = [(Jump Forever, ∅)] → mask q = {[SIGALRM]} → handler_at q l → advances q l.
Proof.
  intros Hpa Hd Hs Hm Hat.
  assert (deliverable q = ∅) as Hdel.
  { unfold deliverable. rewrite Hm.
    destruct Hat as [? ? ? ? Hp|? ? ? ? Hp|? ? ? ? Hp|? ? ? ? Hp|? ? ? [[_ Hp]|[_ Hp]]|? ? ? Hp]; rewrite Hp; set_solver. }
  exists (Run r 0). rewrite exec_alone by done. unfold exec_code, remaining, stage.
  destruct Hat as [q n Hc Ha Hp Hn Hlt|q n Hc Ha Hp Hn Hlt|q n Hc Ha Hp Hn Hlt|q n Hc Ha Hp Hn Hlt|q n Hc Haw Hn Hlt|q Hc Ha Hp];
    rewrite Hc, ?length_beeping.
  - cbn. rewrite update_alone, record_alone, <- beeping_S. eexists _, _. split_and!; [done..|]. right.
    rewrite length_beeping. cbn [current set_current]. lia.
  - cbn. rewrite update_alone. eexists _, _. split_and!; [done..|]. right. rewrite length_beeping. cbn [current set_current store_beep]. lia.
  - cbn. rewrite update_alone. eexists _, _. split_and!; [done..|]. right. rewrite length_beeping.
    cbn [current set_current]. case_bool; cbn; lia.
  - unfold check_beep. case_bool; cbn; rewrite update_alone, ?record_alone; eexists _, _; (split_and!; [done..|]); right;
      rewrite ?length_app, ?length_beeping; cbn [current set_current length]; lia.
  - rewrite Hs, update_alone. eexists _, _. split_and!; [done..|]. right. rewrite length_beeping. cbn. destruct (armed q); lia.
  - rewrite terminate_alone by (done || lia). eexists _, _. split_and!; [done..|]. by left.
Qed.

Lemma alarm_ends q l :
  parent q = INIT → alarm_at q l →
  ∃ s, rtc (step body internal) (alone r q l) s ∧ dead (proc_of s r) = Some 0.
Proof.
  remember (remaining q l) as n eqn:Hn. revert q l Hn. induction (lt_wf n) as [n _ IH]. intros q l -> Hpa Hat.
  destruct (dead q) eqn:Hd.
  { destruct Hat as [| |q Hd']; [congruence..|]. eexists. split; [apply rtc_refl|]. by rewrite proc_of_alone. }
  assert (advances q l) as (ch & q' & l' & Hch & E & Hm).
  { destruct Hat; [by eapply advance_main|by apply advance_handler|congruence]. }
  assert (alarm_inv (alone r q' l')) as (q1 & l1 & Hpa1 & Hat1 & E1).
  { eapply alarm_step; [done| |done]. by exists q, l. }
  rewrite E1 in E. assert (q1 = q') as -> by (by rewrite <- (proc_of_alone r q1 l1), <- E1, proc_of_alone).
  assert (l1 = l') as -> by (by rewrite <- (own_alone r q' l1), <- E1, own_alone).
  destruct Hm as [Hdead|Hlt].
  - exists (alone r q' l'). split; [by eapply rtc_once, step_exec|]. rewrite proc_of_alone.
    destruct Hat1; [congruence..|done].
  - destruct (IH _ Hlt q' l' eq_refl Hpa1 Hat1) as (s & Hs & Hd'). exists s. split; [|done].
    eapply rtc_l; [by eapply step_exec|done].
Qed.
End alarm.

(** C37: [alarm.c] beeps exactly five times and then ends with status 0: in every
    reachable state its output is a prefix of five lines BEEP and one line BOOM!,
    it is the whole of it when the process has ended, and the end can be reached
    from everywhere. *)
Theorem alarm_five_beeps bsd r s :
  INIT < r → rtc (step Alarm.body internal) (boot r (Alarm.main bsd)) s →
  own r s `prefix_of` replicate 5 BEEP ++ [BOOM] ∧
  (∀ st, dead (proc_of s r) = Some st → st = 0 ∧ own r s = replicate 5 BEEP ++ [BOOM]) ∧
  ∃ s', rtc (step Alarm.body internal) s s' ∧ dead (proc_of s' r) = Some 0.
Proof.
  intros Hr Hs. destruct (alarm_reach bsd r Hr s Hs) as (q & l & Hpa & Hat & ->).
  rewrite own_alone, proc_of_alone. split_and!; [..|by eapply alarm_ends].
  - assert (∀ n, (n ≤ 5)%nat → beeping n `prefix_of` replicate 5 BEEP ++ [BOOM]) as Hpre.
    { intros n Hn. apply prefix_app_r. exists (replicate (5 - n) BEEP). unfold beeping. rewrite <- replicate_add. f_equal. lia. }
    destruct Hat as [q l _ _ _ H|q l _ _ _ _ H|q _]; [..|done]; destruct H; try apply Hpre; try lia; try done.
    apply prefix_nil. apply prefix_nil.
  - intros st Hd. destruct Hat; [congruence..|]. split; [congruence|done].
Qed.

Definition tick : list choice := [Clock 100; Deliver 100 SIGALRM false; Run 100 0; Run 100 0; Run 100 0; Run 100 0; Run 100 0].
Definition five_ticks : list choice := [Run 100 0; Run 100 0] ++ tick ++ tick ++ tick ++ tick ++ tick.
Definition boomed : state Alarm.label := after Alarm.body five_ticks (boot 100 (Alarm.main true)).

Lemma alarm_five_beeps_witness :
  dead (proc_of boomed 100) = Some 0 ∧ own 100 boomed = replicate 5 BEEP ++ [BOOM].
Proof.
  split; [vm_compute; reflexivity|].
  refine (proj2 (proj1 (proj2 (alarm_five_beeps true 100 boomed _ _)) 0 _)); [reflexivity| |vm_compute; reflexivity].
  apply (exec_all_reach Alarm.body internal five_ticks); vm_compute; reflexivity.
Defined.

(** ** The interrupt *)

(** Steps in which the user may press the interrupt key at any time. *)
Definition with_interrupts (ch : choice) : bool :=
  match ch with Raise _ sig => sig =? SIGINT | _ => true end.

Section sigint.
Import Sigint1.
Context (bsd : bool) (r : Z) (r_pos : INIT < r).
Implicit Types (q : proc label) (l : list act).

Definition CAUGHT : act := Printed "Caught SIGINT\n" [].

Inductive sigint_at : proc label → list act → Prop :=
| Before q : dead q = None → mask q = ∅ → current q = main bsd → handlers q = ∅ → sigint_at q []
| Paused q k : dead q = None → mask q = ∅ → current q = Call Pause k → handlers q = {[SIGINT := (Handler, bsd)]} → sigint_at q []
| Catching q : dead q = None → mask q = {[SIGINT]} → current q = handler → sigint_at q []
| Caught q : dead q = None → mask q = {[SIGINT]} → current q = Exit 0 → sigint_at q [CAUGHT]
| Killed q : dead q = Some SIGINT → sigint_at q []
| Ended q : dead q = Some 0 → sigint_at q [CAUGHT].

Definition sigint_inv (s : state label) : Prop :=
  ∃ q l, parent q = INIT ∧ armed q = false ∧ pending q ⊆ {[SIGINT]} ∧ sigint_at q l ∧ s = alone r q l.

Lemma sigint_alone q l :
  parent q = INIT → armed q = false → pending q ⊆ {[SIGINT]} → sigint_at q l → sigint_inv (alone r q l).
Proof. intros. by exists q, l. Qed.

Lemma sigint_run q l arg s' :
  parent q = INIT → armed q = false → pending q ⊆ {[SIGINT]} → sigint_at q l → dead q = None →
  exec_code body r q arg (alone r q l) = Some s' → sigint_inv s'.
Proof.
  intros Hpa Har Hp Hat Hd E. unfold exec_code in E.
  destruct Hat as [q _ Hm Hc Hh|q k _ Hm Hc Hh|q _ Hm Hc|q _ Hm Hc|q Hd'|q Hd']; try congruence; rewrite Hc in E; cbn in E;
    try done; injection E as <-; rewrite ?update_alone, ?record_alone, ?terminate_alone by (done || lia);
    apply sigint_alone; try done.
  - eapply Paused; try done. cbn. by rewrite Hh.
  - by apply Caught.
  - by apply Ended.
Qed.

Lemma sigint_deliver q l sig b s' :
  parent q = INIT → armed q = false → pending q ⊆ {[SIGINT]} → sigint_at q l → dead q = None → sig ∈ deliverable q →
  exec_deliver body r q sig b (alone r q l) = Some s' → sigint_inv s'.
Proof.
  intros Hpa Har Hp Hat Hd Hsig E. unfold deliverable in Hsig. assert (sig = SIGINT) as -> by set_solver.
  unfold exec_deliver in E. cbn in E.
  assert (pending q ∖ {[SIGINT]} ⊆ {[SIGINT]}) by set_solver.
  destruct Hat as [q _ Hm Hc Hh|q k _ Hm Hc Hh|q _ Hm Hc|q _ Hm Hc|q Hd'|q Hd']; [| |set_solver..|congruence|congruence].
  - rewrite Hh, lookup_empty in E. injection E as <-. rewrite terminate_alone by (done || lia).
    apply sigint_alone; try done. by apply Killed.
  - rewrite Hh, lookup_singleton_eq in E. case_bool; [done|]. injection E as <-. rewrite update_alone.
    apply sigint_alone; try done. apply Catching; try done. cbn. rewrite Hm. set_solver.
Qed.

Lemma sigint_raise q l :
  parent q = INIT → armed q = false → pending q ⊆ {[SIGINT]} → sigint_at q l → dead q = None →
  sigint_inv (update r (send SIGINT q) (alone r q l)).
Proof.
  intros Hpa Har Hp Hat Hd. rewrite update_alone. unfold send. case_bool; apply sigint_alone; try done; cbn; [set_solver|].
  destruct Hat as [q _ Hm Hc Hh|q k _ Hm Hc Hh|q _ Hm Hc|q _ Hm Hc|q Hd'|q Hd'];
    [by apply Before|by apply Paused with k|by apply Catching|by apply Caught|congruence|congruence].
Qed.

Lemma sigint_reach s : rtc (step body with_interrupts) (boot r (main bsd)) s → sigint_inv s.
Proof.
  apply reach_invariant.
  - eexists _, []. split_and!; [..|reflexivity]; try done. by apply Before.
  - intros ch s1 s2 Hch (q & l & Hpa & Har & Hp & Hat & ->) E. unfold exec in E.
    destruct ch as [p arg|p sig b|p|p sig]; rewrite lookup_alone in E; case_decide; try done; subst p;
      destruct (alive q) eqn:Hal; cbn in E; try done; apply bool_decide_eq_true in Hal.
    + case_bool; [|done]. by eapply sigint_run.
    + match type of E with (if ?b then _ else _) = _ => destruct b eqn:Hg; [|done] end.
      apply bool_decide_eq_true in Hg. by eapply sigint_deliver.
    + by rewrite Har in E.
    + case_bool; [|done]. injection E as <-. cbn in Hch. apply Z.eqb_eq in Hch as ->. by apply sigint_raise.
Qed.
End sigint.

(** However often and whenever the interrupt key is pressed, [sigint1.c] ends in
    one of two ways: killed without output when the signal came before the handler
    was installed, or with status 0 after exactly one line of output; the [exit]
    behind [pause] is never reached. *)
Theorem sigint_caught_once bsd r s st :
  INIT < r → rtc (step Sigint1.body with_interrupts) (boot r (Sigint1.main bsd)) s →
  dead (proc_of s r) = Some st →
  st = SIGINT ∧ own r s = [] ∨ st = 0 ∧ own r s = [CAUGHT].
Proof.
  intros Hr Hs Hd. destruct (sigint_reach bsd r Hr s Hs) as (q & l & _ & _ & _ & Hat & ->).
  rewrite proc_of_alone in Hd. rewrite own_alone. destruct Hat; try congruence; [left|right]; split; congruence.
Qed.

Definition press_twice : list choice :=
  [Run 100 0; Raise 100 SIGINT; Deliver 100 SIGINT true; Raise 100 SIGINT; Run 100 0; Run 100 0].
Definition caught : state Sigint1.label := after Sigint1.body press_twice (boot 100 (Sigint1.main true)).

Lemma sigint_caught_once_witness : 0 = SIGINT ∧ own 100 caught = [] ∨ 0 = 0 ∧ own 100 caught = [CAUGHT].
Proof.
  refine (sigint_caught_once true 100 caught 0 _ _ _); [reflexivity| |vm_compute; reflexivity].
  apply (exec_all_reach Sigint1.body with_interrupts press_twice); vm_compute; reflexivity.
Defined.

(** ** Killing a child *)
Section kill.
Import Kill.
Context (r : Z).
Implicit Types (q k : proc Empty_set) (s : state Empty_set).

Definition is_print (a : act) : bool := match a with Printed _ _ => true | _ => false end.

Definition doomed s : Prop :=
  ∀ p k, p ≠ r → procs s !! p = Some k → dead k ≠ None ∨ SIGKILL ∈ pending k.

Inductive kill_phase s q : Prop :=
| Forking : dead q = None → current q = main → (∀ p, p ≠ r → procs s !! p = None) → kill_phase s q
| Killing pid : dead q = None → current q = (_ ⇐ Process.Kill pid SIGKILL; Exit 0) → pid ≠ r →
    (∀ p k, p ≠ r → procs s !! p = Some k → p = pid ∧ 0 < p) → kill_phase s q
| Leaving : dead q = None → current q = Exit 0 → doomed s → kill_phase s q
| Gone st : dead q = Some st → (st = 0 → doomed s) → kill_phase s q.

(** No handlers, no alarm, only real signals. *)
Definition plain q : Prop :=
  handlers q = ∅ ∧ armed q = false ∧ ∀ sig, sig ∈ pending q → 1 ≤ sig ≤ 64.

Record kill_inv s : Prop := {
  kill_root : ∃ q, procs s !! r = Some q ∧ kill_phase s q;
  kill_plain p k : procs s !! p = Some k → plain k;
  kill_child p k : p ≠ r → procs s !! p = Some k → dead k = None → current k = child;
  kill_silent : Forall (λ e, is_print e.2 = false) (log s)
}.

(** Changes of a process that is no phase of the program: a signal arrives, the
    process dies or gets a new parent. *)
Definition harmless_change k k' : Prop :=
  handlers k' = handlers k ∧ armed k' = armed k ∧ current k' = current k ∧
  (dead k' = dead k ∨ ∃ st, dead k' = Some st ∧ st ≠ 0) ∧
  (∀ sig, sig ∈ pending k' → sig ∈ pending k ∨ 1 ≤ sig ≤ 64) ∧ (dead k' = None → pending k ⊆ pending k').

Lemma kill_harmless s s' :
  kill_inv s → log s' = log s →
  (∀ p, match procs s !! p, procs s' !! p with
        | Some k, Some k' => harmless_change k k' | None, None => True | _, _ => False end) →
  kill_inv s'.
Proof.
  intros [(q & Hq & Hph) Hpl Hch Hl] Hlog H.
  assert (∀ p k', procs s' !! p = Some k' → ∃ k, procs s !! p = Some k ∧ harmless_change k k') as Hback.
  { intros p k' E. specialize (H p). rewrite E in H. destruct (procs s !! p) as [k|]; [by exists k|done]. }
  assert (doomed s → doomed s') as Hdoom.
  { intros Hdo p k' Hne E. destruct (Hback p k' E) as (k & Ek & _ & _ & _ & Hd & _ & Hpe).
    destruct (dead k') eqn:E'; [by left|]. destruct Hd as [Hd|(? & ? & ?)]; [|done].
    destruct (Hdo p k Hne Ek) as [?|?]; [congruence|]. right. set_solver. }
  pose proof (H r) as Hr. rewrite Hq in Hr. destruct (procs s' !! r) as [q'|] eqn:Eq'; [|done].
  destruct Hr as (_ & _ & Hc & Hd & _). split.
  - exists q'. split; [done|]. destruct Hd as [Hd|(st & Hd & Hst)]; [|by apply Gone with st].
    destruct Hph as [? ? Hno|pid ? ? ? Hone|? ? ?|st ? ?].
    + apply Forking; try congruence. intros p Hne. specialize (H p). rewrite Hno in H by done. by destruct (procs s' !! p).
    + apply Killing with pid; try congruence. intros p k' Hne E. destruct (Hback p k' E) as (k & Ek & _). by apply (Hone p k).
    + apply Leaving; [congruence..|auto].
    + apply Gone with st; [congruence|auto].
  - intros p k' E. destruct (Hback p k' E) as (k & Ek & Hh & Ha & _ & _ & Hpe & _).
    destruct (Hpl p k Ek) as (? & ? & ?). split_and!; [congruence..|]. intros sig [?|?]%Hpe; auto.
  - intros p k' Hne E Hnd. destruct (Hback p k' E) as (k & Ek & _ & _ & Hck & Hdk & _).
    rewrite Hck. eapply Hch; [done..|]. destruct Hdk as [<-|(? & ? & ?)]; [done|congruence].
  - by rewrite Hlog.
Qed.

Lemma harmless_change_refl k : harmless_change k k.
Proof. split_and!; try done; auto. Qed.

Lemma send_chld_plain q : plain q → send SIGCHLD q = q.
Proof. intros (Hh & _). unfold send. rewrite Hh, lookup_empty. by destruct (alive q). Qed.

Lemma harmless_send sig k : 1 ≤ sig ≤ 64 → harmless_change k (send sig k).
Proof.
  intros Hs. unfold send. case_bool; [|apply harmless_change_refl]. split_and!; cbn; try done; auto; [|set_solver].
  intros x [->%elem_of_singleton|?]%elem_of_union; auto.
Qed.

Lemma kill_terminate_lookup s p st k i :
  kill_inv s → plain k →
  procs (terminate p st k s) !! i = if decide (i = p) then Some (set_dead k st) else adopt p <$> procs s !! i.
Proof.
  intros [_ Hpl _ _] Hk. unfold terminate. cbn.
  assert (∀ x, <[p := set_dead k st]> (adopt p <$> procs s) !! i = Some x → send SIGCHLD x = x) as Hid.
  { intros x. rewrite lookup_insert_Some, lookup_fmap_Some. intros [[_ <-]|[_ (y & <- & Hy)]]; apply send_chld_plain; [done|].
    apply Hpl in Hy. unfold adopt. by destruct (parent y =? p). }
  destruct (decide (i = parent k)) as [Hi|Hi].
  - rewrite <- Hi, lookup_alter_eq. destruct (<[p := _]> _ !! i) as [x|] eqn:E; cbn.
    + rewrite Hid, <- E by done. case_decide; [subst; by rewrite lookup_insert_eq|by rewrite lookup_insert_ne, lookup_fmap].
    + rewrite <- E. case_decide; [subst; by rewrite lookup_insert_eq|by rewrite lookup_insert_ne, lookup_fmap].
  - rewrite lookup_alter_ne by done. case_decide; [subst; by rewrite lookup_insert_eq|by rewrite lookup_insert_ne, lookup_fmap].
Qed.

Lemma harmless_adopt p k : harmless_change k (adopt p k).
Proof. unfold adopt. destruct (parent k =? p); split_and!; try done; auto. Qed.

Lemma kill_terminate s p st k pe :
  kill_inv s → procs s !! p = Some k → st ≠ 0 → pe ⊆ pending k → kill_inv (terminate p st (set_pending k pe) s).
Proof.
  intros Hinv Hk Hst Hpe.
  assert (plain (set_pending k pe)) as Hpl.
  { destruct (kill_plain _ Hinv p k Hk) as (? & ? & Hb). split_and!; try done. cbn. set_solver. }
  apply kill_harmless with s; [done|done|]. intros i. rewrite (kill_terminate_lookup s p st _ i Hinv Hpl).
  case_decide as Hi; [subst i; rewrite Hk|].
  - split_and!; cbn; try done; eauto.
  - destruct (procs s !! i) as [x|]; [|done]. apply harmless_adopt.
Qed.

Lemma status_of_signal sig : 1 ≤ sig ≤ 64 → Z.land sig 127 ≠ 0.
Proof. intros H. change 127 with (Z.ones 7). rewrite Z.land_ones, Z.mod_small by lia. lia. Qed.

(** What the first process does next. *)
Lemma kill_advance s s' q :
  kill_inv s → procs s' !! r = Some q → kill_phase s' q → plain q →
  (∀ p k, p ≠ r → procs s' !! p = Some k → plain k ∧ (dead k = None → current k = child)) →
  (∃ a, log s' = log s ++ a ∧ Forall (λ e, is_print e.2 = false) a) → kill_inv s'.
Proof.
  intros [_ _ _ Hl] Hq Hph Hpl Hk (a & Elog & Ha). split; [by exists q|..].
  - intros p k E. destruct (decide (p = r)) as [->|]; [congruence|by eapply Hk].
  - intros p k Hne E. by apply (Hk p k).
  - rewrite Elog. by apply Forall_app.
Qed.

Lemma kill_fork s q arg s' :
  kill_inv s → procs s !! r = Some q → dead q = None → (∀ p, p ≠ r → procs s !! p = None) →
  exec_call r q Process.Fork (λ pid, if pid =? 0 then child else _ ⇐ Process.Kill pid SIGKILL; Exit 0) arg s = Some s' →
  0 < r → kill_inv s'.
Proof.
  intros Hinv Hq Hd Hno E Hr. pose proof (kill_plain _ Hinv _ _ Hq) as Hpl. cbn in E.
  destruct (Z.eqb_spec arg (-1)) as [->|].
  - injection E as <-. eapply kill_advance; [done|cbn; by rewrite lookup_insert_eq|..]; [|done|..].
    + apply Killing with (-1); try done; [lia|]. cbn. intros p k Hne. rewrite lookup_insert_ne, Hno by done. done.
    + cbn. intros p k Hne. rewrite lookup_insert_ne, Hno by done. done.
    + eexists. split; [reflexivity|]. by repeat constructor.
  - case_bool; [|done]. breflect. apply bool_decide_eq_true in H0. injection E as <-.
    assert (arg ≠ r) by congruence. rewrite (proj2 (Z.eqb_neq arg 0)) by (unfold INIT in *; lia).
    eapply kill_advance; [done|cbn; by rewrite lookup_insert_eq|..]; [|done|..].
    + apply Killing with arg; try done. cbn. intros p k Hne. rewrite lookup_insert_ne, lookup_insert_Some by done.
      intros [[<- _]|[_ E]]; [unfold INIT in *; lia|]. by rewrite Hno in E.
    + cbn. intros p k Hne. rewrite lookup_insert_ne, lookup_insert_Some by done.
      intros [[<- <-]|[_ E]]; [|by rewrite Hno in E]. destruct Hpl as (? & _ & _). split; [|done]. by split_and!.
    + eexists. split; [reflexivity|]. by repeat constructor.
Qed.

Lemma doomed_send pid s q g : 0 < pid →
  (∀ p k, p ≠ r → procs s !! p = Some k → p = pid ∧ 0 < p) → (∀ p k, procs s !! p = Some k → plain k) →
  pid ≠ r → doomed (mkState (alter (send SIGKILL) pid (<[r := q]> (procs s))) g).
Proof.
  intros Hpos Hone Hpl Hne p k Hp. cbn. destruct (decide (p = pid)) as [->|Hx].
  - rewrite lookup_alter_eq, lookup_insert_ne by done. destruct (procs s !! pid) as [x|] eqn:E; [|done]. cbn. intros [= <-].
    destruct (Hpl pid x E) as (Hh & _). unfold send, alive. rewrite Hh, lookup_empty.
    destruct (dead x) eqn:Ed; [left; cbn; congruence|]. right. rewrite bool_decide_eq_true_2 by done. cbn. set_solver.
  - rewrite lookup_alter_ne, lookup_insert_ne by done. intros E. by destruct (Hone p k Hp E).
Qed.

Lemma kill_kill s q pid arg s' :
  kill_inv s → procs s !! r = Some q → dead q = None → pid ≠ r →
  (∀ p k, p ≠ r → procs s !! p = Some k → p = pid ∧ 0 < p) →
  exec_call r q (Process.Kill pid SIGKILL) (λ _, Exit 0) arg s = Some s' → kill_inv s'.
Proof.
  intros Hinv Hq Hd Hpr Hone E. pose proof (kill_plain _ Hinv) as Hpl.
  assert (∀ p k, p ≠ r → procs s !! p = Some k → plain k ∧ (dead k = None → current k = child)) as Hold.
  { intros p k Hne Ek. split; [by eapply Hpl|]. by apply (kill_child _ Hinv p k). }
  assert (∀ k, plain k → plain (send SIGKILL k)) as Hsend.
  { intros k (? & ? & Hb). unfold send. case_bool; [|done]. split_and!; try done. cbn.
    intros sig [->%elem_of_singleton|?]%elem_of_union; [done|auto]. }
  assert (∀ k, dead (send SIGKILL k) = dead k ∧ current (send SIGKILL k) = current k) as Hsame
    by (intros k; unfold send; by case_bool).
  cbn in E. destruct (Z.ltb_spec 0 pid).
  - destruct (procs s !! pid) as [x|] eqn:Ex; injection E as <-.
    + eapply kill_advance; [done|cbn; by rewrite lookup_alter_ne, lookup_insert_eq|..]; [|exact (Hpl r q Hq)|..].
      * apply Leaving; try done. by apply doomed_send.
      * cbn. intros p k Hne. destruct (decide (p = pid)) as [->|].
        -- rewrite lookup_alter_eq, lookup_insert_ne, Ex by done. cbn. intros [= <-].
           destruct (Hold pid x Hpr Ex). destruct (Hsame x) as [-> ->]. auto.
        -- rewrite lookup_alter_ne, lookup_insert_ne by done. by apply Hold.
      * exists []. by rewrite app_nil_r.
    + eapply kill_advance; [done|cbn; by rewrite lookup_insert_eq|..]; [|exact (Hpl r q Hq)|..].
      * apply Leaving; try done. intros p k Hne. cbn. rewrite lookup_insert_ne by done. intros Ek.
        destruct (Hone p k Hne Ek). congruence.
      * cbn. intros p k Hne. rewrite lookup_insert_ne by done. by apply Hold.
      * exists []. by rewrite app_nil_r.
  - case_bool; [|done]. injection E as <-. eapply kill_advance; [done|cbn; by rewrite lookup_insert_eq|..]; [|exact (Hpl r q Hq)|..].
    + apply Leaving; try done. intros p k Hne. cbn. rewrite lookup_insert_ne, lookup_fmap_Some by done. intros (x & _ & Ex).
      destruct (Hone p x Hne Ex). lia.
    + cbn. intros p k Hne. rewrite lookup_insert_ne, lookup_fmap_Some by done. intros (x & _ & Ex).
      destruct (Hone p x Hne Ex). lia.
    + exists []. by rewrite app_nil_r.
Qed.

Lemma kill_exit s q :
  kill_inv s → procs s !! r = Some q → dead q = None → doomed s → kill_inv (terminate r (exit_status 0) q s).
Proof.
  intros Hinv Hq Hd Hdo. pose proof (kill_plain _ Hinv _ _ Hq) as Hpl.
  assert (∀ p k, p ≠ r → procs (terminate r (exit_status 0) q s) !! p = Some k →
    ∃ x, procs s !! p = Some x ∧ harmless_change x k ∧ pending k = pending x ∧ dead k = dead x) as Hback.
  { intros p k Hne. rewrite kill_terminate_lookup, decide_False by done. rewrite fmap_Some. intros (x & Hx & ->).
    exists x. split; [done|]. split; [apply harmless_adopt|]. unfold adopt. by destruct (parent x =? r). }
  eapply (kill_advance s _ (set_dead q (exit_status 0))); [done|by rewrite kill_terminate_lookup, decide_True|..]; [|done|..].
  - apply Gone with 0; [done|]. intros _ p k Hne E. destruct (Hback p k Hne E) as (x & Hx & _ & -> & ->). by apply (Hdo p x).
  - intros p k Hne E. destruct (Hback p k Hne E) as (x & Hx & (Hh & Ha & Hc & _) & Hp & Hdx).
    destruct (kill_plain _ Hinv p x Hx) as (? & ? & ?). split; [split_and!; [congruence..|by rewrite Hp]|].
    rewrite Hc, Hdx. by apply (kill_child _ Hinv p x).
  - exists []. by rewrite app_nil_r.
Qed.

Lemma kill_step ch s s' : INIT < r → kill_inv s → exec no_label ch s = Some s' → kill_inv s'.
Proof.
  intros Hr Hinv E. unfold exec in E.
  destruct ch as [p arg|p sig b|p|p sig]; destruct (procs s !! p) as [k|] eqn:Hk; try done;
    destruct (alive k) eqn:Hal; cbn in E; try done; apply bool_decide_eq_true in Hal;
    destruct (kill_plain _ Hinv p k Hk) as (Hh & Har & Hpe).
  - case_bool; [|done]. destruct (decide (p = r)) as [->|Hne].
    + destruct (kill_root _ Hinv) as (q & Hq & Hph). rewrite Hk in Hq. injection Hq as <-.
      unfold exec_code in E. destruct Hph as [_ Hc Hno|pid _ Hc Hpr Hone|_ Hc Hdo|st ? ?]; [..|congruence]; rewrite Hc in E.
      * refine (kill_fork s k arg s' Hinv Hk Hal Hno E _). unfold INIT in Hr. lia.
      * by eapply kill_kill.
      * injection E as <-. by apply kill_exit.
    + unfold exec_code in E. rewrite (kill_child _ Hinv p k Hne Hk Hal) in E. done.
  - match type of E with (if ?b then _ else _) = _ => destruct b eqn:Hg; [|done] end.
    apply bool_decide_eq_true in Hg. unfold exec_deliver in E. cbn in E. rewrite Hh, lookup_empty in E. injection E as <-.
    apply kill_terminate; [done..|apply status_of_signal, Hpe; unfold deliverable in Hg; set_solver|set_solver].
  - by rewrite Har in E.
  - case_bool; [|done]. breflect. injection E as <-. apply kill_harmless with s; [done|done|]. intros i. cbn.
    destruct (decide (i = p)) as [->|].
    + rewrite Hk, lookup_insert_eq. by apply harmless_send.
    + rewrite lookup_insert_ne by done. destruct (procs s !! i); [apply harmless_change_refl|done].
Qed.

Lemma kill_reach s : INIT < r → rtc (step no_label (λ _, true)) (boot r main) s → kill_inv s.
Proof.
  intros Hr. apply reach_invariant; [|intros; by eapply kill_step]. split; cbn.
  - eexists. split; [apply lookup_singleton_eq|]. apply Forking; try done. cbn. intros p Hne. by rewrite lookup_singleton_ne.
  - intros p k. rewrite lookup_singleton_Some. intros [_ <-]. split_and!; try done; set_solver.
  - intros p k Hne. by rewrite lookup_singleton_ne.
  - constructor.
Qed.
End kill.

(** The child of [kill.c] never gets past [pause]: whatever signals anybody sends
    at whatever time, the line that should never be reached is never printed (no
    line is); and when the parent has ended with status 0, the child is dead or has
    a pending SIGKILL. *)
Theorem kill_child_never_returns r s :
  INIT < r → rtc (step no_label (λ _, true)) (boot r Kill.main) s →
  Forall (λ e, is_print e.2 = false) (log s) ∧
  (dead (proc_of s r) = Some 0 →
   ∀ p k, p ≠ r → procs s !! p = Some k → dead k ≠ None ∨ SIGKILL ∈ pending k).
Proof.
  intros Hr Hs. destruct (kill_reach r s Hr Hs) as [(q & Hq & Hph) _ _ Hl]. split; [done|].
  unfold proc_of. rewrite Hq. cbn. intros Hd. destruct Hph as [?|?|?|st ? H]; [congruence..|]. apply H. congruence.
Qed.

Definition one_kill : list choice := [Run 100 101; Raise 101 SIGINT; Run 100 0; Run 100 0; Deliver 101 SIGKILL false].
Definition killed : state Empty_set := after no_label one_kill (boot 100 Kill.main).

Lemma kill_child_never_returns_witness :
  dead (proc_of killed 100) = Some 0 ∧ dead (proc_of killed 101) = Some 9 ∧
  Forall (λ e, is_print e.2 = false) (log killed).
Proof.
  split; [vm_compute; reflexivity|]. split; [vm_compute; reflexivity|].
  refine (proj1 (kill_child_never_returns 100 killed _ _)); [reflexivity|].
  apply (exec_all_reach no_label (λ _, true) one_kill); vm_compute; reflexivity.
Defined.

(** [kill.c] does not check [fork]: when it fails, the result -1 goes to [kill],
    and every other process of the system gets a SIGKILL. *)
Theorem kill_fork_failure r q s :
  procs s !! r = Some q → dead q = None → pending q = ∅ → current q = Kill.main →
  ∃ s', exec_all no_label [Run r (-1); Run r 0] s = Some s' ∧
    ∀ p k, p ≠ r → procs s !! p = Some k → dead k = None →
      procs s' !! p = Some (set_pending k ({[SIGKILL]} ∪ pending k)).
Proof.
  intros Hq Hd Hp Hc.
  assert (∀ q' : proc Empty_set, pending q' = ∅ → dead q' = None → alive q' && bool_decide (deliverable q' = ∅) = true) as Hgo.
  { intros q' Hp' Hd'. unfold alive, deliverable. rewrite Hp', Hd', !bool_decide_eq_true_2 by set_solver. done. }
  cbn [exec_all exec]. rewrite Hq, Hgo by done. unfold exec_code at 1. rewrite Hc. cbn -[alive deliverable send].
  rewrite lookup_insert_eq, Hgo by done. cbn -[alive deliverable send]. eexists. split; [reflexivity|].
  intros p k Hne Hk Hdk. cbn -[send].
  rewrite lookup_insert_ne, lookup_fmap, lookup_insert_ne, Hk by done. cbn -[send]. f_equal.
  unfold send, alive. rewrite Hdk. cbn. by rewrite andb_false_r.
Qed.

(** A bystander, process 7, is hit. *)
Definition bystander : proc Empty_set := mkProc INIT None Kill.child [] ∅ ∅ ∅ 0 false None ∅.
Definition crowd : state Empty_set := update 7 bystander (boot 100 Kill.main).

Lemma kill_fork_failure_witness :
  ∃ s', exec_all no_label [Run 100 (-1); Run 100 0] crowd = Some s' ∧
    ∀ p k, p ≠ 100 → procs crowd !! p = Some k → dead k = None →
      procs s' !! p = Some (set_pending k ({[SIGKILL]} ∪ pending k)).
Proof. refine (kill_fork_failure 100 (proc_of crowd 100) crowd _ _ _ _); vm_compute; reflexivity. Defined.

(** ** Long jumps *)

(** The output that the two error flags call for. *)
Definition jump_output (error1 error2 : Z) : list act :=
  if negb (error1 =? 0) then [Printed "Detected an error1 condition in foo\n" []]
  else if negb (error2 =? 0) then [Printed "Detected an error2 condition in foo\n" []]
  else [].

Section jumps.
Context (r : Z) (r_pos : INIT < r) (e1 e2 : Z).
Implicit Types (q : proc Empty_set) (l : list act).

Definition resume (rc : Z) : code Empty_set :=
  if rc =? 0 then Jumps.foo e1 e2 (Exit 0)
  else if rc =? 1 then printf "Detected an error1 condition in foo\n" []; Exit 0
  else if rc =? 2 then printf "Detected an error2 condition in foo\n" []; Exit 0
  else printf "Unknown error condition in foo\n" []; Exit 0.

Inductive jump_at : nat → proc Empty_set → list act → Prop :=
| Set_ q : dead q = None → current q = Jumps.main e1 e2 → jump_at 4 q []
| InFoo q : dead q = None → jmp q = Some resume → current q = resume 0 → jump_at 3 q []
| Landed q f : dead q = None → current q = Printf f [] (Exit 0) → jump_output e1 e2 = [Printed f []] → jump_at 2 q []
| Done q : dead q = None → current q = Exit 0 → jump_at 1 q (jump_output e1 e2)
| Finished q : dead q = Some 0 → jump_at 0 q (jump_output e1 e2).

Definition jump_inv n (s : state Empty_set) : Prop :=
  ∃ q l, parent q = INIT ∧ armed q = false ∧ pending q = ∅ ∧ jump_at n q l ∧ s = alone r q l.

Lemma jump_alone n q l :
  parent q = INIT → armed q = false → pending q = ∅ → jump_at n q l → jump_inv n (alone r q l).
Proof. intros. by exists q, l. Qed.

(** One instruction brings the program nearer to its end. *)
Lemma jump_run n q l arg :
  parent q = INIT → armed q = false → pending q = ∅ → jump_at (S n) q l →
  ∃ s' m, exec_code no_label r q arg (alone r q l) = Some s' ∧ jump_inv m s' ∧ (m < S n)%nat.
Proof.
  intros Hpa Har Hp Hat. unfold exec_code. inversion Hat as [? Hd Hc|? Hd Hj Hc|? f Hd Hc Ho|? Hd Hc|]; subst; rewrite Hc.
  - eexists _, 3%nat. cbn. split; [reflexivity|]. rewrite update_alone. split; [|lia]. apply jump_alone; try done. by apply InFoo.
  - cbn. unfold Jumps.foo, Jumps.bar. destruct (negb (e1 =? 0)) eqn:E1; [|destruct (negb (e2 =? 0)) eqn:E2].
    + rewrite Hj. cbn. eexists _, 2%nat. split; [reflexivity|]. rewrite update_alone. split; [|lia]. apply jump_alone; try done.
      eapply Landed; try done. unfold jump_output. by rewrite E1.
    + rewrite Hj. cbn. eexists _, 2%nat. split; [reflexivity|]. rewrite update_alone. split; [|lia]. apply jump_alone; try done.
      eapply Landed; try done. unfold jump_output. by rewrite E1, E2.
    + eexists _, 0%nat. split; [reflexivity|]. rewrite terminate_alone by (done || lia). split; [|lia]. apply jump_alone; try done.
      assert (jump_output e1 e2 = []) as <- by (unfold jump_output; by rewrite E1, E2). by apply Finished.
  - eexists _, 1%nat. split; [reflexivity|]. rewrite update_alone, record_alone. split; [|lia]. apply jump_alone; try done.
    rewrite <- Ho. by apply Done.
  - eexists _, 0%nat. split; [reflexivity|]. rewrite terminate_alone by (done || lia). split; [|lia]. apply jump_alone; try done.
    by apply Finished.
Qed.

Lemma jump_reach s : rtc (step no_label internal) (boot r (Jumps.main e1 e2)) s → ∃ n, jump_inv n s.
Proof.
  apply (reach_invariant _ internal (λ s, ∃ n, jump_inv n s)).
  - exists 4%nat. eexists _, []. split_and!; [..|reflexivity]; try done. by apply Set_.
  - intros ch s1 s2 Hch (n & q & l & Hpa & Har & Hp & Hat & ->) E. unfold exec in E.
    destruct ch as [p arg|p sig b|p|p sig]; [..|done]; rewrite lookup_alone in E; case_decide; try done; subst p;
      destruct (alive q) eqn:Hal; cbn in E; try done; apply bool_decide_eq_true in Hal.
    + case_bool; [|done]. destruct n as [|n]; [inversion Hat; congruence|].
      destruct (jump_run n q l arg Hpa Har Hp Hat) as (s' & m & E' & Hm & _). exists m. by simplify_eq.
    + unfold deliverable in E. rewrite Hp, bool_decide_eq_false_2 in E by set_solver. done.
    + by rewrite Har in E.
Qed.

Lemma jump_ends n s : jump_inv n s → ∃ s', rtc (step no_label internal) s s' ∧ dead (proc_of s' r) = Some 0.
Proof.
  revert s. induction (lt_wf n) as [n _ IH]. intros s (q & l & Hpa & Har & Hp & Hat & ->). destruct n as [|n].
  - eexists. split; [apply rtc_refl|]. rewrite proc_of_alone. by inversion Hat.
  - destruct (jump_run n q l 0 Hpa Har Hp Hat) as (s' & m & E & Hm & Hlt).
    destruct (IH m Hlt s' Hm) as (s2 & Hs2 & Hd). exists s2. split; [|done]. eapply rtc_l; [|done].
    apply (step_exec _ _ (Run r 0)); [done|]. unfold exec. rewrite lookup_alone, decide_True by done.
    assert (dead q = None) as Hdq by (by inversion Hat). unfold alive, deliverable.
    by rewrite Hdq, Hp, !bool_decide_eq_true_2 by set_solver.
Qed.
End jumps.

(** [setjmp.c] reports what its flags say, for any values of the two: it always
    can come to its end, its exit status is 0, and its output is the message of
    the first error in [foo], of the one in [bar] if only that is set, or none;
    with the flags of the program, the second. *)
Theorem setjmp_reports r e1 e2 s :
  INIT < r → rtc (step no_label internal) (boot r (Jumps.main e1 e2)) s →
  (∀ st, dead (proc_of s r) = Some st → st = 0 ∧ own r s = jump_output e1 e2) ∧
  (∃ s', rtc (step no_label internal) s s' ∧ dead (proc_of s' r) = Some 0) ∧
  jump_output Jumps.error1 Jumps.error2 = [Printed "Detected an error2 condition in foo\n" []].
Proof.
  intros Hr Hs. destruct (jump_reach r Hr e1 e2 s Hs) as [n Hn]. split_and!; [|by eapply jump_ends|done].
  destruct Hn as (q & l & _ & _ & _ & Hat & ->). rewrite proc_of_alone, own_alone. intros st Hd.
  inversion Hat; subst; split; congruence || done.
Qed.

Definition jumped : state Empty_set :=
  after no_label [Run 100 0; Run 100 0; Run 100 0; Run 100 0] (boot 100 (Jumps.main Jumps.error1 Jumps.error2)).

Lemma setjmp_reports_witness :
  dead (proc_of jumped 100) = Some 0 ∧ own 100 jumped = jump_output Jumps.error1 Jumps.error2.
Proof.
  split; [vm_compute; reflexivity|].
  refine (proj2 (proj1 (setjmp_reports 100 Jumps.error1 Jumps.error2 jumped _ _) 0 _)); [reflexivity| |vm_compute; reflexivity].
  apply (exec_all_reach no_label internal [Run 100 0; Run 100 0; Run 100 0; Run 100 0]); vm_compute; reflexivity.
Defined.
