(* ===== verification/Link.v ===== *)
(** * The linking examples

    Models [csapp/link]: the vector routines [addvec.c] and [multvec.c] with their
    clients [main2.c] (linked) and [dll.c] (loaded at run time), and [swap.c] with
    [main.c].  Arrays live in a memory of named blocks, so that arguments can
    alias; an [int] that overflows and an access outside an array are faults. *)

From S2P Require Import Prelude.

Inductive fault := OutOfBounds | SignedOverflow.

Inductive res (A : Type) :=
| Ok (a : A)
| Fault (f : fault).
Arguments Ok {A} a.
Arguments Fault {A} f.

#[global] Instance res_ret : MRet res := λ A a, Ok a.
#[global] Instance res_bind : MBind res := λ A B f m, match m with Ok a => f a | Fault e => Fault e end.

(** A pointer into an array. *)
Record ptr := mkPtr { blk : string; off : Z }.

Abbreviation mem := (gmap string (list Z)).

Definition is_int (v : Z) : bool := (- 2 ^ 31 <=? v) && (v <? 2 ^ 31).

(** The cell [p[i]]. *)
Definition cell (m : mem) (p : ptr) (i : Z) : option Z :=
  if 0 <=? off p + i then m !! blk p ≫= λ a, a !! Z.to_nat (off p + i) else None.

Definition load (m : mem) (p : ptr) (i : Z) : res Z :=
  match cell m p i with Some v => Ok v | None => Fault OutOfBounds end.

Definition store (m : mem) (p : ptr) (i v : Z) : res mem :=
  match cell m p i with
  | Some _ => Ok (alter (<[Z.to_nat (off p + i) := v]>) (blk p) m)
  | None => Fault OutOfBounds
  end.

(** The value of an arithmetic expression of type [int]. *)
Definition int_of (v : Z) : res Z := if is_int v then Ok v else Fault SignedOverflow.

(** The loop that the two routines share but for the operator.  [count] is the
    number of rounds that are left. *)
Fixpoint vec_loop (op : Z → Z → Z) (x y z : ptr) (count : nat) (i : Z) (m : mem) : res mem :=
  match count with
  | O => Ok m
  | S count =>
      a ← load m x i;
      b ← load m y i;
      v ← int_of (op a b);
      m ← store m z i v;
      vec_loop op x y z count (i + 1) m
  end.

Definition addvec (x y z : ptr) (n : Z) (m : mem) : res mem := vec_loop Z.add x y z (Z.to_nat n) 0 m.
Definition multvec (x y z : ptr) (n : Z) (m : mem) : res mem := vec_loop Z.mul x y z (Z.to_nat n) 0 m.

(** ** The interface [vector.h] *)
Class Vector := {
  vec_add : ptr → ptr → ptr → Z → mem → res mem;
  vec_mult : ptr → ptr → ptr → Z → mem → res mem
}.

#[global] Instance libvector : Vector := { vec_add := addvec; vec_mult := multvec }.

(** [main2.c]: the final memory, and what [printf] shows of [z]. *)
Module Main2.
Definition globals : mem := {[ "x" := [1; 2]; "y" := [3; 4]; "z" := [0; 0] ]}%string.

Definition main `{Vector} (m : mem) : res (mem * (Z * Z)) :=
  m ← vec_add (mkPtr "x" 0) (mkPtr "y" 0) (mkPtr "z" 0) 2 m;
  z0 ← load m (mkPtr "z" 0) 0;
  z1 ← load m (mkPtr "z" 0) 1;
  mret (m, (z0, z1)).
End Main2.

(** [dll.c]: the dynamic loader is a parameter; [dlsym] finds a function or sets
    an error. *)
Module Dll.
Definition vec_fun : Type := ptr → ptr → ptr → Z → mem → res mem.

Record loader := {
  dlopen : string → option Z;
  dlsym : Z → string → option vec_fun;
  dlclose : Z → Z
}.

Definition globals : mem := Main2.globals.

(** The exit status, and the values printed. *)
Definition outcome : Type := Z * option (Z * Z).

Definition main (ld : loader) (m : mem) : res outcome :=
  match dlopen ld "./libvector.so" with
  | None => Ok (1, None)
  | Some handle =>
      match dlsym ld handle "addvec" with
      | None => Ok (1, None)
      | Some addvec =>
          m ← addvec (mkPtr "x" 0) (mkPtr "y" 0) (mkPtr "z" 0) 2 m;
          z0 ← load m (mkPtr "z" 0) 0;
          z1 ← load m (mkPtr "z" 0) 1;
          if dlclose ld handle <? 0 then Ok (1, Some (z0, z1)) else Ok (0, Some (z0, z1))
      end
  end.
End Dll.

(** [swap.c]: the two global pointers and the array of the other file. *)
Module Swap.
Record globals := mkGlobals { memory : mem; bufp0 : ptr; bufp1 : option ptr }.

Definition swap (g : globals) : res globals :=
  let p1 := mkPtr "buf" 1 in
  temp ← load (memory g) (bufp0 g) 0;
  v ← load (memory g) p1 0;
  m ← store (memory g) (bufp0 g) 0 v;
  m ← store m p1 0 temp;
  mret (mkGlobals m (bufp0 g) (Some p1)).

(** The globals that [swap.c] starts with, next to an array [buf]. *)
Definition start (buf : list Z) : globals := mkGlobals {[ "buf"%string := buf ]} (mkPtr "buf" 0) None.

(** [main.c]: it returns 0 to the system. *)
Definition buf : list Z := [1; 2].
Definition main (g : globals) : res (globals * Z) := g ← swap g; mret (g, 0).
End Swap.

(** ** Cells *)

Definition addr (p : ptr) (i : Z) : string * Z := (blk p, off p + i).

Lemma cell_addr m p i q j : addr p i = addr q j → cell m p i = cell m q j.
Proof. unfold addr, cell. intros [= -> ->]. done. Qed.

(** A store changes one cell. *)
Lemma cell_store m m' p i v q j :
  store m p i v = Ok m' → cell m' q j = if decide (addr q j = addr p i) then Some v else cell m q j.
Proof.
  unfold store. destruct (cell m p i) as [old|] eqn:E; [|done]. intros [= <-].
  unfold cell in E. destruct (Z.leb_spec 0 (off p + i)); [|done].
  destruct (m !! blk p) as [a|] eqn:Ea; [|done]. cbn in E.
  case_decide as Heq.
  - rewrite (cell_addr _ _ _ _ _ Heq). unfold cell. rewrite (proj2 (Z.leb_le _ _)), lookup_alter_eq, Ea by done. cbn.
    apply list_lookup_insert_eq. by apply lookup_lt_Some in E.
  - unfold cell. destruct (Z.leb_spec 0 (off q + j)); [|done]. destruct (decide (blk q = blk p)) as [Hb|Hb].
    + rewrite Hb, lookup_alter_eq, Ea. cbn. rewrite list_lookup_insert_ne; [done|].
      intros Hn. apply Heq. unfold addr. rewrite Hb. f_equal. lia.
    + by rewrite lookup_alter_ne.
Qed.

Lemma store_ok m p i v : is_Some (cell m p i) → ∃ m', store m p i v = Ok m'.
Proof. intros [old E]. unfold store. rewrite E. eauto. Qed.

(** ** What the routines compute *)

Definition reads (m : mem) (p : ptr) (lo hi : Z) (f : Z → Z) : Prop := ∀ j, lo ≤ j < hi → cell m p j = Some (f j).

(** Writing [z] front to back does not destroy an element of [x] that is still to be read. *)
Definition undisturbed (x z : ptr) (n : Z) : Prop := blk x ≠ blk z ∨ off z ≤ off x ∨ off x + n ≤ off z.

Lemma undisturbed_addr x z n i j : undisturbed x z n → 0 ≤ i < j → j < n → addr x j ≠ addr z i.
Proof. unfold undisturbed, addr. intros H ? ? [= ? ?]. destruct H as [?|[?|?]]; [done|lia..]. Qed.

(** The memory [m'] has the results in [z], and nothing else has changed. *)
Definition filled (m m' : mem) (z : ptr) (lo hi : Z) (f : Z → Z) : Prop :=
  reads m' z lo hi f ∧ ∀ q k, (∀ j, lo ≤ j < hi → addr q k ≠ addr z j) → cell m' q k = cell m q k.

Section loop.
Context (op : Z → Z → Z) (x y z : ptr) (n : Z) (X Y : Z → Z).
Context (Hx : undisturbed x z n) (Hy : undisturbed y z n).

Lemma vec_loop_spec count i m :
  0 ≤ i → i + Z.of_nat count = n → reads m x i n X → reads m y i n Y → (∀ j, i ≤ j < n → is_Some (cell m z j)) →
  ((∀ j, i ≤ j < n → is_int (op (X j) (Y j)) = true) →
     ∃ m', vec_loop op x y z count i m = Ok m' ∧ filled m m' z i n (λ j, op (X j) (Y j))) ∧
  ((∃ j, i ≤ j < n ∧ is_int (op (X j) (Y j)) = false) → vec_loop op x y z count i m = Fault SignedOverflow).
Proof.
  revert i m. induction count as [|count IH]; intros i m Hi Hn HX HY HZ.
  { split; [|intros (j & ? & _); lia]. intros _. exists m. split; [done|]. split; [intros j ?; lia|done]. }
  destruct (store_ok m z i (op (X i) (Y i))) as [m1 E1]; [apply HZ; lia|].
  assert (vec_loop op x y z (S count) i m =
          if is_int (op (X i) (Y i)) then vec_loop op x y z count (i + 1) m1 else Fault SignedOverflow) as ->.
  { cbn. unfold load, int_of. rewrite HX, HY by lia. cbn. case_bool; [|done]. cbn. by rewrite E1. }
  destruct (is_int (op (X i) (Y i))) eqn:Eint.
  2: { split; [|done]. intros H. by rewrite H in Eint by lia. }
  pose proof (λ q j, cell_store m m1 z i (op (X i) (Y i)) q j E1) as Hc.
  assert (∀ p f, undisturbed p z n → reads m p i n f → reads m1 p (i + 1) n f) as Hkeep.
  { intros p f Hu Hf j Hj. rewrite Hc, decide_False; [apply Hf; lia|]. apply undisturbed_addr with n; [done|lia|lia]. }
  destruct (IH (i + 1) m1) as [IHok IHbad]; [lia|lia|by apply Hkeep|by apply Hkeep|..].
  { intros j Hj. rewrite Hc. case_decide; [done|]. apply HZ. lia. }
  split.
  - intros Hall. destruct IHok as (m' & E' & [Hr Hsame]); [intros; apply Hall; lia|]. exists m'. split; [done|]. split.
    + intros j Hj. destruct (decide (j = i)) as [->|]; [|apply Hr; lia].
      rewrite Hsame, Hc, decide_True; [done|done|]. intros k Hk. unfold addr. intros [= ?]. lia.
    + intros q k Hq. rewrite Hsame by (intros; apply Hq; lia). rewrite Hc, decide_False; [done|]. apply Hq. lia.
  - intros (j & Hj & Hbad). apply IHbad. exists j. split; [|done]. assert (j ≠ i) by (intros ->; congruence). lia.
Qed.
End loop.

(** What [vector.h] promises of an operation on vectors. *)
Definition elementwise (op : Z → Z → Z) (f : ptr → ptr → ptr → Z → mem → res mem) : Prop :=
  ∀ x y z n m X Y,
    reads m x 0 n X → reads m y 0 n Y → (∀ j, 0 ≤ j < n → is_Some (cell m z j)) →
    undisturbed x z n → undisturbed y z n →
    ((∀ j, 0 ≤ j < n → is_int (op (X j) (Y j)) = true) →
       ∃ m', f x y z n m = Ok m' ∧ filled m m' z 0 n (λ j, op (X j) (Y j))) ∧
    ((∃ j, 0 ≤ j < n ∧ is_int (op (X j) (Y j)) = false) → f x y z n m = Fault SignedOverflow).

Lemma vec_loop_elementwise op : elementwise op (λ x y z n, vec_loop op x y z (Z.to_nat n) 0).
Proof.
  intros x y z n m X Y HX HY HZ Ux Uy. destruct (decide (0 ≤ n)) as [Hn|Hn].
  - apply (vec_loop_spec op x y z n X Y Ux Uy); try done; lia.
  - replace (Z.to_nat n) with 0%nat by lia. split; [|intros (j & ? & _); lia]. intros _. exists m. split; [done|].
    split; [intros j ?; lia|done].
Qed.

Class VectorSpec (V : Vector) : Prop := {
  vec_add_spec : elementwise Z.add vec_add;
  vec_mult_spec : elementwise Z.mul vec_mult
}.

#[global] Instance libvector_spec : VectorSpec libvector.
Proof. split; apply vec_loop_elementwise. Qed.

(** C39: [addvec] and [multvec] compute the element-wise sum and product: for any
    arrays, offsets and [n] (none or negative included), also when the result
    overwrites an operand in place or lies in front of it, [z] holds the results
    and no other cell changes; if an element leaves the range of [int], the
    routine runs into a signed overflow. *)
Theorem vectors_elementwise : elementwise Z.add addvec ∧ elementwise Z.mul multvec.
Proof. split; apply vec_loop_elementwise. Qed.

(** A sum in place, and an element that overflows. *)
Lemma vectors_elementwise_witness :
  addvec (mkPtr "x" 0) (mkPtr "y" 0) (mkPtr "x" 0) 2 Main2.globals =
    Ok {[ "x" := [4; 6]; "y" := [3; 4]; "z" := [0; 0] ]}%string ∧
  multvec (mkPtr "x" 0) (mkPtr "x" 0) (mkPtr "x" 0) 2 {[ "x"%string := [5; 65536] ]} = Fault SignedOverflow.
Proof.
  split; [vm_compute; reflexivity|].
  refine (proj2 (proj2 vectors_elementwise (mkPtr "x" 0) (mkPtr "x" 0) (mkPtr "x" 0) 2 {[ "x"%string := [5; 65536] ]}
    (λ j, if j =? 0 then 5 else 65536) (λ j, if j =? 0 then 5 else 65536) _ _ _ _ _) _);
    try (right; left; done); try (intros j Hj; assert (j = 0 ∨ j = 1) as [-> | ->] by lia; vm_compute; done || by eexists).
  exists 1. split; [lia|reflexivity].
Defined.

(** ** The clients *)

(** The two clients see the sum of their vectors. *)
Lemma sum_printed (f : Dll.vec_fun) :
  elementwise Z.add f →
  ∃ m', f (mkPtr "x" 0) (mkPtr "y" 0) (mkPtr "z" 0) 2 Main2.globals = Ok m' ∧
    load m' (mkPtr "z" 0) 0 = Ok 4 ∧ load m' (mkPtr "z" 0) 1 = Ok 6.
Proof.
  intros Hf.
  destruct (Hf (mkPtr "x" 0) (mkPtr "y" 0) (mkPtr "z" 0) 2 Main2.globals (λ j, j + 1) (λ j, j + 3)) as [Hok _];
    try (left; done); try (intros j Hj; assert (j = 0 ∨ j = 1) as [-> | ->] by lia; vm_compute; done || by eexists).
  destruct Hok as (m' & E & Hr & _).
  { intros j Hj. assert (j = 0 ∨ j = 1) as [-> | ->] by lia; done. }
  exists m'. unfold load. rewrite (Hr 0), (Hr 1) by lia. done.
Qed.

(** The clients of the vector library print 4 and 6 with every library that
    keeps the promise of [vector.h]: [main2.c] linked against it, and [dll.c] when
    the loader finds the library and the function; [dll.c] returns 1 without
    output if the library or the function is missing, and 1 after the output if
    closing fails.  The library of the repository keeps the promise. *)
Theorem vector_clients {V : Vector} {HV : VectorSpec V} (ld : Dll.loader) :
  (∃ m', Main2.main Main2.globals = Ok (m', (4, 6))) ∧
  VectorSpec libvector ∧
  match Dll.dlopen ld "./libvector.so" with
  | None => Dll.main ld Dll.globals = Ok (1, None)
  | Some h =>
      match Dll.dlsym ld h "addvec" with
      | None => Dll.main ld Dll.globals = Ok (1, None)
      | Some f => elementwise Z.add f →
          Dll.main ld Dll.globals = Ok (if Dll.dlclose ld h <? 0 then 1 else 0, Some (4, 6))
      end
  end.
Proof.
  split; [|split; [apply _|]].
  - destruct (sum_printed vec_add vec_add_spec) as (m' & E & E0 & E1). exists m'. unfold Main2.main. cbn.
    rewrite E. cbn. rewrite E0. cbn. by rewrite E1.
  - unfold Dll.main, Dll.globals. destruct (Dll.dlopen ld _) as [h|]; [|done]. destruct (Dll.dlsym ld h _) as [f|]; [|done].
    intros Hf. destruct (sum_printed f Hf) as (m' & E & E0 & E1). rewrite E. cbn. rewrite E0. cbn. rewrite E1. cbn.
    by case_bool.
Qed.

(** A loader that has the library of the repository, and cannot close it. *)
Definition sticky_loader : Dll.loader :=
  {| Dll.dlopen := λ _, Some 1; Dll.dlsym := λ _ f, if String.eqb f "addvec" then Some addvec else None; Dll.dlclose := λ _, -1 |}.

Lemma vector_clients_witness : Dll.main sticky_loader Dll.globals = Ok (1, Some (4, 6)).
Proof.
  refine (proj2 (proj2 (@vector_clients libvector libvector_spec sticky_loader)) _). apply vec_loop_elementwise.
Defined.

(** ** Swapping *)

Lemma load_single l o i v :
  0 ≤ o + i → l !! Z.to_nat (o + i) = Some v → load {[ "buf"%string := l ]} (mkPtr "buf" o) i = Ok v.
Proof. intros H E. unfold load, cell. cbn. by rewrite (proj2 (Z.leb_le _ _) H), lookup_singleton_eq; cbn; rewrite E. Qed.

Lemma store_single l o i v old :
  0 ≤ o + i → l !! Z.to_nat (o + i) = Some old →
  store {[ "buf"%string := l ]} (mkPtr "buf" o) i v = Ok {[ "buf"%string := <[Z.to_nat (o + i) := v]> l ]}.
Proof.
  intros H E. unfold store, cell. cbn. rewrite (proj2 (Z.leb_le _ _) H), lookup_singleton_eq. cbn. rewrite E.
  by rewrite alter_singleton_eq.
Qed.

Lemma swap_cons a b rest p1 :
  Swap.swap (Swap.mkGlobals {[ "buf"%string := a :: b :: rest ]} (mkPtr "buf" 0) p1) =
    Ok (Swap.mkGlobals {[ "buf"%string := b :: a :: rest ]} (mkPtr "buf" 0) (Some (mkPtr "buf" 1))).
Proof.
  unfold Swap.swap. cbn. rewrite (load_single _ 0 0 a) by done. cbn. rewrite (load_single _ 1 0 b) by done. cbn.
  rewrite (store_single _ 0 0 b a) by done. cbn. by rewrite (store_single _ 1 0 a b).
Qed.

(** [swap] exchanges the first two elements of the array it is linked with and
    leaves the others; swapping twice restores the array; an array with fewer than
    two elements is accessed out of bounds; [main] leaves [buf] as 2, 1. *)
Theorem swap_exchanges buf :
  match buf with
  | a :: b :: rest =>
      ∃ g, Swap.swap (Swap.start buf) = Ok g ∧ Swap.memory g = {[ "buf"%string := b :: a :: rest ]} ∧
        ∃ g', Swap.swap g = Ok g' ∧ Swap.memory g' = Swap.memory (Swap.start buf)
  | _ => Swap.swap (Swap.start buf) = Fault OutOfBounds
  end ∧
  ∃ g, Swap.main (Swap.start Swap.buf) = Ok (g, 0) ∧ Swap.memory g = {[ "buf"%string := [2; 1] ]}.
Proof.
  split; [|unfold Swap.main, Swap.start, Swap.buf; rewrite swap_cons; cbn; eauto].
  destruct buf as [|a [|b rest]]; unfold Swap.start; [vm_compute; done| |].
  - unfold Swap.swap. cbn. by rewrite (load_single _ 0 0 a).
  - eexists. rewrite swap_cons. split; [done|]. split; [done|]. eexists. rewrite swap_cons. done.
Qed.
