(* ===== verification/SmallIO.v ===== *)
(** * Small programs around I/O

    Models [cpstdin.c], [statcheck.c] and [dup2.cc] of [csapp/system_io] and
    [csapp/network_program/hostinfo.c]. *)

From S2P Require Import Prelude Sys.

Definition STDIN_FILENO : Z := 0.
Definition STDOUT_FILENO : Z := 1.

(** ** Copying standard input *)
Module Cpstdin.
(** [c] is what the variable holds: nothing before the first successful [read]. *)
Definition round (c : option Z) : M (option Z + ()) :=
  '(n, bs) ← sys_read STDIN_FILENO 1;
  if n =? 0 then exit 0
  else
    let c := match bs with b :: _ => Some b | [] => c end in
    match c with
    | None => fail_with UninitRead
    | Some b => _ ← sys_write STDOUT_FILENO [b]; mret (inl c)
    end.

Definition main : M () := loop round None.
End Cpstdin.

(** ** The type and mode of a file *)
Module Statcheck.
Definition S_IFMT : Z := 61440.
Definition S_IFREG : Z := 32768.
Definition S_IFDIR : Z := 16384.
Definition S_IRUSR : Z := 256.
Definition S_ISREG (m : Z) : bool := Z.land m S_IFMT =? S_IFREG.
Definition S_ISDIR (m : Z) : bool := Z.land m S_IFMT =? S_IFDIR.

(** [Stat] drops the result of [stat]; the structure stays uninitialised when the
    call fails. *)
Definition Stat (filename : string) : M (option statbuf) :=
  r ← call (SysStat filename);
  mret (match r with RStat st => Some st | _ => None end).

Definition type_of (mode : Z) : string :=
  if S_ISREG mode then "regular" else if S_ISDIR mode then "directory" else "other".
Definition readok_of (mode : Z) : string :=
  if negb (Z.land mode S_IRUSR =? 0) then "yes" else "no".
Definition report (mode : Z) : list Z :=
  bytes_of_string ("type: " +:+ type_of mode +:+ ", read: " +:+ readok_of mode) ++ [10].

Definition main (argv1 : string) : M () :=
  st ← Stat argv1;
  match st with
  | None => fail_with UninitRead
  | Some st => _ ← call (SysFputs (report (st_mode st))); exit 0
  end.
End Statcheck.

(** ** Redirecting standard output *)
Module Dup2.
(** The descriptors of the process and the lines in each file. *)
Record files := mkFiles { fds : gmap Z string; lines : gmap string (list (Z * Z * Z)) }.

(** [open] takes the lowest free descriptor; the kernel may refuse. *)
Definition lowest_free (t : gmap Z string) : Z :=
  default 0 (head (filter (λ fd, t !! fd = None) (seqZ 0 (Z.of_nat (size t) + 1)))).
Definition open (refused : bool) (path : string) (f : files) : Z * files :=
  if refused then (-1, f)
  else let fd := lowest_free (fds f) in (fd, mkFiles (<[fd := path]> (fds f)) (lines f)).
Definition dup2 (fd fd2 : Z) (f : files) : Z * files :=
  match fds f !! fd with
  | None => (-1, f)
  | Some path => (fd2, mkFiles (<[fd2 := path]> (fds f)) (lines f))
  end.
Definition close (fd : Z) (f : files) : files := mkFiles (delete fd (fds f)) (lines f).
(** Appends a line to the file behind a descriptor. *)
Definition write_line (fd : Z) (l : Z * Z * Z) (f : files) : files :=
  match fds f !! fd with
  | None => f
  | Some path => mkFiles (fds f) (<[path := default [] (lines f !! path) ++ [l]]> (lines f))
  end.

(** [printf] writes into a buffer that [exit] empties into descriptor 1. *)
Definition main (refused : bool) (f : files) : files :=
  let '(fd, f) := open refused "axl.txt" f in
  let '(ret, f) := dup2 fd STDOUT_FILENO f in
  let stdout := (ret, fd, STDOUT_FILENO) in
  let f := close fd f in
  write_line STDOUT_FILENO stdout f.
End Dup2.

(** ** Looking up a host *)
Module Hostinfo.
Record hostent := mkHost { h_name : string; h_aliases : list string; h_addr_list : list Z }.

Inductive outcome :=
| Usage
| Crash (printed : list string)
| Shown (printed : list string).

Section program.
(** The resolver and the parser of addresses belong to the C library. *)
Context (inet_aton : string → option Z).
Context (gethostbyaddr : Z → option hostent) (gethostbyname : string → option hostent).
Context (inet_ntoa : Z → string).

Definition Gethostbyname (name : string) : option hostent := gethostbyname name.
Definition Gethostbyaddr (addr : Z) : option hostent := gethostbyaddr addr.

Definition main (argv : list string) : outcome :=
  match argv with
  | [_; name] =>
      let hostp := match inet_aton name with Some addr => Gethostbyaddr addr | None => Gethostbyname name end in
      match hostp with
      | None => Crash []
      | Some h =>
          Shown (("official hostname: " +:+ h_name h) ::
                 ((λ a, "alias: " +:+ a) <$> h_aliases h) ++
                 ((λ a, "address: " +:+ inet_ntoa a) <$> h_addr_list h))
      end
  | _ => Usage
  end.
End program.
End Hostinfo.

(** ** What the copy does *)

(** The answers to [read]: a byte or an error. *)
Definition read_answer (ev : event) : option (option Z) :=
  match ev with
  | (SysRead _ _, RData (b :: _)) => Some (Some b)
  | (SysRead _ _, RErr _) => Some None
  | _ => None
  end.

(** The bytes to write for them: after an error, the last byte once more. *)
Definition copy_step (st : option Z * list Z) (a : option Z) : option Z * list Z :=
  let c := match a with Some b => Some b | None => st.1 end in
  (c, st.2 ++ match c with Some b => [b] | None => [] end).
Definition stale_copy (answers : list (option Z)) : option Z * list Z := foldl copy_step (None, []) answers.

(** The bytes handed to [write]. *)
Definition handed (t : list event) : list Z := t ≫= λ ev, match ev.1 with SysWrite _ bs => bs | _ => [] end.

Lemma handed_app t t' : handed (t ++ t') = handed t ++ handed t'.
Proof. apply bind_app. Qed.

Lemma stale_copy_snoc l a : stale_copy (l ++ [a]) = copy_step (stale_copy l) a.
Proof. unfold stale_copy. by rewrite foldl_app. Qed.

(** Nothing to write before the first byte. *)
Lemma stale_copy_none l out : stale_copy l = (None, out) → out = [].
Proof.
  revert out. induction l as [|a l IH] using rev_ind; intros out; [by intros [= <-]|].
  rewrite stale_copy_snoc. destruct (stale_copy l) as [c o]. unfold copy_step. cbn.
  destruct a, c; try done. intros [= <-]. by rewrite (IH o), app_nil_r.
Qed.

(** Without errors, the copy is exact. *)
Lemma stale_copy_bytes l : (stale_copy (Some <$> l)).2 = l.
Proof.
  induction l as [|b l IH] using rev_ind; [done|]. rewrite fmap_app. cbn. rewrite stale_copy_snoc. cbn. by rewrite IH.
Qed.

Arguments handed : simpl never.
Arguments stale_copy : simpl never.

(** Between two rounds: everything read is handed on. *)
Definition copied (w0 : world) (c : option Z) (w : world) : Prop :=
  ∃ t, extends w0 w t ∧ stale_copy (omap read_answer t) = (c, handed t).

Definition cpstdin_post (w0 : world) (o : outcome ()) : Prop :=
  ∃ t, extends w0 (final o) t ∧
  match o with
  | Exited code _ => code = 0 ∧ handed t = (stale_copy (omap read_answer t)).2
  | Faulted f _ => f = UninitRead ∧ handed t = [] ∧ last t = Some (SysRead STDIN_FILENO 1, RErr (errno (final o)))
  | Blocked _ => handed t `prefix_of` (stale_copy (omap read_answer t)).2
  | Done _ _ | NoFuel _ => False
  end.

Lemma copied_read w0 c w r t :
  extends w0 w t → stale_copy (omap read_answer t) = (c, handed t) →
  extends w0 (answered (SysRead STDIN_FILENO 1) r w) (t ++ [(SysRead STDIN_FILENO 1, r)]) ∧
  handed (t ++ [(SysRead STDIN_FILENO 1, r)]) = handed t ∧
  stale_copy (omap read_answer (t ++ [(SysRead STDIN_FILENO 1, r)])) =
    match read_answer (SysRead STDIN_FILENO 1, r) with Some a => copy_step (c, handed t) a | None => (c, handed t) end.
Proof.
  intros He Hs. split; [eapply extends_trans; [done|apply extends_answered]|]. rewrite handed_app, app_nil_r. split; [done|].
  rewrite omap_app. cbn [omap list_omap]. destruct (read_answer _) as [a|]; [by rewrite stale_copy_snoc, Hs|by rewrite app_nil_r].
Qed.

(** What one round of the loop has to establish. *)
Definition round_post (w0 w : world) (o : outcome (option Z + ())) : Prop :=
  match o with
  | Done (inl c) w' => copied w0 c w' ∧ (length (script w') < length (script w))%nat
  | Done (inr a) w' => cpstdin_post w0 (Done a w')
  | Exited c w' => cpstdin_post w0 (Exited c w')
  | Faulted f w' => cpstdin_post w0 (Faulted f w')
  | Blocked w' => cpstdin_post w0 (Blocked w')
  | NoFuel w' => cpstdin_post w0 (NoFuel w')
  end.

Lemma cpstdin_write w0 w w1 b t :
  extends w0 w1 t → stale_copy (omap read_answer t) = (Some b, handed t ++ [b]) →
  (length (script w1) < length (script w))%nat →
  wp (_ ← sys_write STDOUT_FILENO [b]; mret (inl (Some b))) (round_post w0 w) w1.
Proof.
  intros He Hs Hlen.
  assert (∀ r s, script w1 = r :: s → round_post w0 w (Done (inl (Some b)) (answered (SysWrite STDOUT_FILENO [b]) r w1))) as Hgo.
  { intros r s Hsc. split; [|pose proof (answered_shorter (SysWrite STDOUT_FILENO [b]) r _ _ _ Hsc); lia].
    exists (t ++ [(SysWrite STDOUT_FILENO [b], r)]). split; [eapply extends_trans; [done|apply extends_answered]|].
    rewrite omap_app, handed_app, app_nil_r. done. }
  apply wp_bind, wp_write; [|intros; by eapply Hgo..]. exists t. split; [done|]. rewrite Hs. by eexists.
Qed.

Lemma cpstdin_spec w0 : wp Cpstdin.main (cpstdin_post w0) w0.
Proof.
  apply (loop_rule _ (copied w0)); [|exists []; split; [apply extends_refl|done]].
  intros c w (t & He & Hs). change (wp (Cpstdin.round c) (round_post w0 w) w). apply wp_bind, wp_read.
  - exists t. split; [done|]. by rewrite Hs.
  - intros e s Hsc Hpos. cbn [Z.eqb]. destruct (copied_read w0 c w (RErr e) t He Hs) as (He1 & Hh1 & Hs1). cbn in Hs1.
    destruct c as [b|].
    + eapply cpstdin_write; [exact He1|by rewrite Hs1, Hh1|by eapply answered_shorter].
    + apply wp_fail. eexists. split; [exact He1|]. rewrite Hh1, last_snoc. split_and!; [done| |done].
      by eapply stale_copy_none.
  - intros bs s Hsc Hle Hby. destruct (copied_read w0 c w (RData bs) t He Hs) as (He1 & Hh1 & Hs1). cbn in Hs1.
    destruct bs as [|b [|b' bs]]; [| |unfold len in Hle; cbn in Hle; lia].
    + apply wp_exit. eexists. split; [exact He1|]. by rewrite Hs1, Hh1.
    + eapply cpstdin_write; [exact He1|by rewrite Hs1, Hh1|by eapply answered_shorter].
Qed.

(** An event without error: [read] delivers, [write] takes everything. *)
Definition smooth (ev : event) : bool :=
  match ev with
  | (SysRead 0 1, RData [_]) | (SysRead 0 1, RData []) => true
  | (SysWrite 1 bs, RInt k) => k =? len bs
  | _ => false
  end.

Lemma smooth_copy t :
  Forall (λ ev, smooth ev = true) t → omap read_answer t = Some <$> bytes_read 0 t ∧ bytes_written 1 t = handed t.
Proof.
  induction 1 as [|[c r] t Hev _ [IH1 IH2]]; [done|].
  change ((c, r) :: t) with ([(c, r)] ++ t). unfold bytes_read, bytes_written in *.
  rewrite omap_app, handed_app, !bind_app, IH1, IH2, fmap_app.
  destruct c; try done; cbn in Hev.
  - destruct fd as [|p|p]; try done. destruct count as [|[]|]; try done. destruct r as [| |[|b [|]]| | | | |]; try done.
  - destruct fd as [|[]|]; try done. destruct r as [|k| | | | | |]; try done. apply Z.eqb_eq in Hev as ->. split; [done|].
    cbn. unfold handed, len. cbn. by rewrite Nat2Z.id, firstn_all.
Qed.

(** [cpstdin.c] writes exactly what it reads: whatever the kernel answers, it ends
    only at the end of the input, with status 0, having handed on to [write] every
    byte in order, and after each failed [read] the last byte once more; an error
    before the first byte makes it write an uninitialised variable.  On a run
    without errors the output is the input. *)
Theorem cpstdin_copies w0 :
  let o := Cpstdin.main w0 in
  ∃ t, extends w0 (final o) t ∧
  match o with
  | Exited code _ =>
      code = 0 ∧ handed t = (stale_copy (omap read_answer t)).2 ∧
      (Forall (λ ev, smooth ev = true) t → bytes_written STDOUT_FILENO t = bytes_read STDIN_FILENO t)
  | Faulted f _ => f = UninitRead ∧ handed t = []
  | Blocked _ => handed t `prefix_of` (stale_copy (omap read_answer t)).2
  | Done _ _ | NoFuel _ => False
  end.
Proof.
  cbn zeta. pose proof (cpstdin_spec w0) as (t & He & H). exists t. split; [done|].
  destruct (Cpstdin.main w0); try done.
  - destruct H as [-> Hh]. split_and!; [done..|]. intros [Ha Hw]%smooth_copy.
    unfold STDOUT_FILENO. rewrite Hw, Hh, Ha. apply stale_copy_bytes.
  - by destruct H as (? & ? & _).
Qed.

(** [statcheck.c] classifies by the mode bits when [stat] succeeds; when it fails,
    the program goes on with an uninitialised structure. *)
Theorem statcheck_reports path st e :
  run (Statcheck.main path) [RStat st; RInt 0] =
    Exited 0 (World [] 0 [(SysStat path, RStat st); (SysFputs (Statcheck.report (st_mode st)), RInt 0)]) ∧
  (0 < e → run (Statcheck.main path) [RErr e] = Faulted UninitRead (World [] e [(SysStat path, RErr e)])).
Proof. split; [done|]. intros He. by destruct e. Qed.

Lemma statcheck_reports_witness :
  Statcheck.report 33188 = bytes_of_string "type: regular, read: yes" ++ [10] ∧
  run (Statcheck.main "/none") [RErr 2] = Faulted UninitRead (World [] 2 [(SysStat "/none", RErr 2)]).
Proof.
  split; [vm_compute; reflexivity|]. refine (proj2 (statcheck_reports "/none" (StatBuf 0 0 0 0 0) 2) _). done.
Defined.

(** [dup2.cc] puts its line into [axl.txt], although it closes the descriptor of
    the file before the line is written; when the file cannot be opened the line
    goes to the old standard output.  In both cases other files keep their lines. *)
Theorem dup2_redirects refused tty f :
  Dup2.fds f = {[ 0 := tty; 1 := tty; 2 := tty ]} →
  Dup2.lines (Dup2.main refused f) =
    let path := if refused then tty else "axl.txt"%string in
    let l := if refused then (-1, -1, 1) else (1, 3, 1) in
    <[path := default [] (Dup2.lines f !! path) ++ [l]]> (Dup2.lines f).
Proof.
  destruct f as [t ls]. cbn. intros ->. by destruct refused.
Qed.

Lemma dup2_redirects_witness :
  Dup2.lines (Dup2.main false (Dup2.mkFiles {[ 0 := "tty"; 1 := "tty"; 2 := "tty" ]}%string ∅)) =
    {[ "axl.txt"%string := [(1, 3, 1)] ]}.
Proof. exact (dup2_redirects false "tty" (Dup2.mkFiles {[ 0 := "tty"; 1 := "tty"; 2 := "tty" ]}%string ∅) eq_refl). Defined.

(** [hostinfo.c] shows a known host completely: the name, every alias and every
    address, in order, found by address when the argument is one and by name
    otherwise; an unknown host makes it dereference a null pointer. *)
Theorem hostinfo_shows aton byaddr byname ntoa prog arg :
  let h := match aton arg with Some a => byaddr a | None => byname arg end in
  match h with
  | None => Hostinfo.main aton byaddr byname ntoa [prog; arg] = Hostinfo.Crash []
  | Some h =>
      ∃ lines, Hostinfo.main aton byaddr byname ntoa [prog; arg] = Hostinfo.Shown lines ∧
        length lines = S (length (Hostinfo.h_aliases h) + length (Hostinfo.h_addr_list h)) ∧
        (∀ i a, Hostinfo.h_aliases h !! i = Some a → lines !! S i = Some ("alias: " +:+ a)) ∧
        (∀ i a, Hostinfo.h_addr_list h !! i = Some a →
           lines !! S (length (Hostinfo.h_aliases h) + i) = Some ("address: " +:+ ntoa a))
  end.
Proof.
  cbn zeta. unfold Hostinfo.main, Hostinfo.Gethostbyaddr, Hostinfo.Gethostbyname.
  destruct (match aton arg with Some _ => _ | None => _ end) as [h|]; [|done]. eexists. split; [reflexivity|].
  split; [cbn; by rewrite length_app, !length_fmap|]. split.
  - intros i a Hi. rewrite lookup_cons_ne_0 by done. cbn [Init.Nat.pred].
    rewrite lookup_app_l by (rewrite length_fmap; by eapply lookup_lt_Some). by rewrite list_lookup_fmap, Hi.
  - intros i a Hi. rewrite lookup_cons_ne_0 by done. cbn [Init.Nat.pred]. rewrite lookup_app_r; rewrite length_fmap; [|lia].
    replace (_ + i - _)%nat with i by lia. by rewrite list_lookup_fmap, Hi.
Qed.
